(* ===== verification/_CoqProject ===== *)
-Q . S2P
Prelude.v
Bytes.v
Core.v
KvHistory.v
Typed.v
Url.v
Hashlink.v
Cache.v
Lru.v
Arc.v
Lfu.v
Sketch.v
TinyLfu.v
Wrappers.v
StoreSpec.v
RedbEngine.v
Redb.v
RedbSpec.v
RedbTxn.v
RedbProps.v
RedbWitness.v
TreeDb.v
TreeSpec.v
Sled.v
SledSpec.v
SledProps.v
SledWitness.v
Fjall.v
FjallSpec.v
FjallProps.v
FjallWitness.v
Encrypt.v
EncryptedKv.v
EncryptedProps.v
Keys.v
Envelope.v
EnvelopeProps.v
EnvelopeStore.v
EncryptWitness.v
TxnScan.v
Blob.v
BlobProps.v
LocalBlob.v
LocalProps.v
LocalList.v
LocalCalls.v
StoreFiles.v
SledFiles.v
Adapters.v
AdapterWitness.v
BlobCache.v
BlobWitness.v
Predicate.v
PredicateProps.v
FloatProps.v
Partition.v
PartitionProps.v
PartitionData.v
S3.v
S3Props.v
S3History.v
S3List.v
S3Multipart.v
S3Witness.v
Gcs.v
GcsProps.v
Azure.v
AzureProps.v
Presign.v
Table.v
Compress.v
TableProps.v
TableBytes.v
ColumnarCache.v
TableFiles.v
ColumnarApi.v
FjallFiles.v
RedbFiles.v
Facade.v
Stack.v
