(* ===== verification/Prelude.v ===== *)
(** * OxiStore: a verification development

    OxiStore is a storage library in Rust: a trait for key-value stores with expiries,
    transactions and snapshots, three embedded backends that implement it, wrappers that
    add caching, encryption or typed values to any store, blob stores in memory, on disk
    and on remote services, a columnar layer over Parquet files, and a facade.  This library
    models these parts as executable definitions and proves what they promise each other.

    ** Parts, files and sources

    Sources are under [src/crates/].

    - [Prelude] (this file), [Bytes]: results and state-passing operations with their
      notation, lists, machine integers; byte strings with Rust's order, ranges of a
      [BTreeMap], little-endian encodings.
    - [Core], [KvHistory] ([oxistore-core/src/lib.rs]): the error type, the bound of a
      prefix, the arithmetic of expiries, the traits [KvStore], [KvTxn] and
      [KvSnapshot] as classes of operations, their provided methods as functions on
      these, and the contract [KvLaws] that wrappers rely on and backends discharge.
      [contains] is a field of the class, since decorators override its default; its
      contract is [KvContainsLaw], and a store with both contracts is a [KvSim].
      [KvHistory] runs scripts of calls against a finite map.  [Typed]
      ([oxistore-core/src/typed.rs]): the typed store, over a codec with a law.
    - [StoreSpec]: the specification the backends share, a map of entries and a map of
      expiries, with what each operation does to them at an instant.
    - [RedbEngine], [Redb], [RedbSpec], [RedbTxn], [RedbProps], [RedbWitness]
      ([oxistore-kv-redb/src/lib.rs]); [TreeDb], [TreeSpec], [Sled], [SledSpec],
      [SledProps], [SledWitness] ([oxistore-kv-sled/src/lib.rs]); [Fjall], [FjallSpec],
      [FjallProps], [FjallWitness] ([oxistore-kv-fjall/src/store.rs], [error.rs]): the
      backends over interfaces to the third-party engines.  [RedbEngine] is a
      transactional engine, [TreeDb] one of trees with atomic batches; any call of them
      may fail, and both have in-memory instances, one that fails on request.
      [StoreFiles], [SledFiles], [FjallFiles], [RedbFiles]: the parts of the backends
      that touch files, over an interface to the files of each engine: opening and
      builders, repair and recovery, backup, restore and compaction (the class
      [KvMaintenance], with the defaults of the trait), disk usage, sled's merge
      operators and watches, and the typed tables of the redb and sled crates.
      [TxnScan]: [KvTxn::range] and [KvTxn::contains] of every transaction type, over the
      record [TxnSim] of what a transaction type shows of its store.
    - [Hashlink], [Cache], [Lru], [Arc], [Lfu], [Sketch], [TinyLfu], [Wrappers]
      ([oxistore-cache/src/]): the [Cache] trait as a class with laws, four eviction
      policies, and the byte-budget, statistics, mutex and sharding wrappers and the
      builder.  [Hashlink] is the interface to the linked hash map of a third-party
      crate, with a list instance.  [Wrappers] also has [get_or_insert_async] and its [tokio] twin, and
      tasks whose critical sections interleave.
    - [Adapters], [AdapterWitness] ([oxistore-cache/src/write_adapter.rs]): write-through
      and write-back caches and the caching store, over any store and any cache.
    - [Encrypt], [EncryptedKv], [EncryptedProps], [Keys], [Envelope], [EnvelopeProps],
      [EnvelopeStore], [EncryptWitness] ([oxistore-encrypt/src/]): ciphertext framing
      and cells, the encrypting store, key providers, keyrings and the builder, and
      envelope encryption with key rotation.  The ciphers, the hash, the key
      derivation and the random generator are the class [Crypto].  [Keys]
      includes keys on a hardware token ([pkcs11.rs]), cached by threads that share a
      provider.
    - [Blob], [BlobProps], [BlobWitness] ([oxistore-blob/src/]) and [BlobCache]
      ([oxistore-cache/src/blob_cache.rs]): the blob store trait with its provided
      methods, digests, the in-memory store with its quota, and the blob cache.
    - [LocalBlob], [LocalProps], [LocalList], [LocalCalls] ([oxistore-blob/src/local.rs]):
      the local store over a file system modelled as a map from paths to files and
      directories; the steps of a [put] are definitions of their own.
    - [Url] (percent encoders of the remote stores, calendar of
      [oxistore-blob-azure/src/sign.rs]); [S3], [S3Props], [S3History], [S3List],
      [S3Multipart], [S3Witness], [Presign] ([oxistore-blob-s3/src/], with [sigv4.rs] and
      [presign.rs] over an interface to the AWS signer); [Gcs], [GcsProps]
      ([oxistore-blob-gcs/src/]); [Azure], [AzureProps] ([oxistore-blob-azure/src/]): the
      remote stores.  The service is the class [Http], a function on the state of a
      world; what it does to the objects of a bucket is a class of laws, for the keys that
      address an object (the empty key addresses the bucket) and clocks that do not
      overflow, and it may lose or refuse any request.  Listings are read from XML trees
      with their elements in any order.  [S3Witness] has a service that fails on request.
    - [Predicate], [PredicateProps], [FloatProps] ([oxistore-columnar/src/predicate.rs],
      [reader.rs], [lib.rs]): evaluation of predicates on batches with nulls, pruning of
      row groups by the statistics of their leaf columns, which are the fields only if the
      schema is flat; floats as in IEEE 754 for statistics and in its total order for rows.
    - [Table], [TableProps], [TableBytes], [TableFiles], [ColumnarApi]
      ([oxistore-columnar/src/lib.rs], [reader.rs], [writer.rs], [streaming.rs]): tables
      with their operations, their bytes with and without compression, files, streams,
      and the trait of tables, over an interface to the Arrow writer and the Parquet
      reader; [ColumnarCache]
      ([oxistore-cache/src/columnar_cache.rs]): the cache of serialised row groups.
    - [Partition], [PartitionProps], [PartitionData]
      ([oxistore-columnar/src/partition.rs]): partitioned datasets, their directories and
      their manifest; [Compress] ([oxistore-compress/src/]): the codec and its Parquet
      shim over DEFLATE, and the files of datasets in both compression modes.
    - [Facade] ([oxistore/src/lib.rs]): backend selection, detection and removal of
      stores, backup and restore, the read-only store and the cached store.  [Stack]
      links the facade with the open functions of the backends and puts the wrappers
      on top of each other.

    A struct of the source is a record with its fields, an enum an inductive type, a
    function or method a definition with the same name after a prefix for its type.
    Methods that take [&mut self] or lock a mutex pass the state explicitly and return
    it on the error path too.  The clock is an argument.  A panic is [None]; an error is
    [Err].  Where an operation releases a lock or a transaction in between, its phases
    are definitions of their own and the interleaved form takes what other threads do as
    an argument ([redb_get_interleaved], [ck_get_interleaved], [bc_put_interleaved]).

    ** What the theorems show

    - Refinement: each backend answers every history of calls as the specification of
      [StoreSpec] does ([redb_history_refines], [sled_history_refines],
      [fjall_history_refines]); the encrypting store and the envelope store, also through
      rotations, answer as a map of plaintexts; the caching adapters and the blob cache
      answer as the store behind them, the typed store as a map of values, the row-group
      cache with the row groups of the current tables, and the S3 store for the objects
      of its bucket, however its requests fare.  The clients are proved against the contract
      classes, so each composes with every backend that discharges them: a typed store
      over an encrypting store over whatever the facade opens is a map
      ([typed_encrypted_stack_refines_map]).
    - Errors: which failures are invisible ([redb_failure_invisible],
      [fjall_failure_invisible]) and which are not ([sled_put_not_atomic]).
    - Transactions, snapshots and provided methods: what reads and ranges inside a
      transaction see ([txn_scan_sees_writes], for all backends and wrappers), that
      snapshots do not change, prefix scans, batches, compare-and-swap, expiry
      arithmetic at 64 bits.
    - Policies: invariants of the four caches after every history, exactly which key is
      evicted, when resizing returns, lower bounds of the frequency sketch, byte budgets;
      tasks and threads that fill a cell or a key together agree ([tasks_agree],
      [pkcs11_threads_agree]).
    - Round trips: cells, envelopes and rewrapping, keys in the OS keyring, backup and
      restore (what each backend keeps of its expiries), the codec, content-addressed blobs, manifests and partitioned datasets; paging of
      listings is complete.
    - Files and services: a [put] of the local store that is interrupted anywhere leaves
      every blob whole; listings of all four stores are complete and end; calls on the
      S3, GCS and Azure stores answer for what is stored; retries return the first usable
      response; multipart uploads assemble their parts in order; a presigned URL carries
      what the signer returned; dates are those of the calendar; keys survive their
      encoding in URLs; disk usage is the sum of the sizes of the files.
    - Tables: operations keep tables well typed, sorting permutes and orders, bytes, files
      and streams give back what was written.
    - Pruning: for flat schemas and predicates without floating-point comparisons, a row
      group is skipped only if no row of it matches, so that pushing a predicate down to a
      file and filtering gives what filtering the table gives ([pushdown_exact]).  For
      floats, [float_pruning_sound] says where the same holds.
    - Behaviours that surprise, as theorems with concrete instances: lost writes under
      interleaving, stale cache entries, expiries that are inherited, erased or revived,
      capacities that are exceeded, loops that do not end, directories that collide, keys
      that leave their directory, temporary files that are shared, row groups that are
      pruned although a row matches (NaN, signed zeros, nested columns).

    ** Bounds and fuel

    Loops over data are structural.  Those that are not take fuel, and a theorem says how
    much is enough: one step per entry for the resizing of LRU and ARC caches and for the
    eviction of the byte budget, the length of the file for the restoring of a backup,
    twenty digits for a 64-bit number, one page per blob and a last one for paging, one
    request per matching key and one more for remote listings, the depth of the tree for
    local ones.  The
    resizing of an LFU cache is shown to return for some fuel exactly under a condition
    on its state.  Integers are [Z] with the truncation of the source written out
    (expiries, lengths in backups, key versions, counters of the sketch); [nat] counts
    entries in memory.  Where the capacity or a deadline of a W-TinyLFU cache overflows, the
    call panics ([tl_op_fits] says when it does not); the other policies are modelled for
    deadlines that an [Instant] holds.  The theorems on databases and ciphers have the laws
    of the interfaces as hypotheses; each witness instantiates them.

    ** Not modelled

    HTTP, TLS and timeouts ([http_client.rs], which no module uses, and the client of a
    third-party library), the arithmetic of the AWS signature (an interface; which
    request is signed and where the result goes is modelled), the object_store wrappers of
    [cloud.rs], and re-exports.  Of the columnar layer: the Parquet encoding itself, an
    interface.  Failures of the disk other than those that follow from the tree of files,
    logging, Debug output, and metrics in floating point (hit rates), which no operation
    reads.  Scheduling inside the engines and the operating system; where the code
    releases a lock the interleavings are modelled as said above. *)

From Stdlib Require Export ZArith Lia.
From Stdlib Require Export Strings.Byte.
From stdpp Require Export base tactics decidable countable option list gmap sorting strings.
From stdpp Require Export relations.

(** ** Notation scope of the development *)
Declare Scope oxi_scope.
Delimit Scope oxi_scope with oxi.
#[global] Open Scope oxi_scope.

(** ** Results: Rust's [Result<A, E>] *)
Inductive result (A E : Type) : Type :=
| Ok (a : A)
| Err (e : E).
Arguments Ok {A E} a.
Arguments Err {A E} e.

Definition result_map {A B E} (f : A → B) (r : result A E) : result B E :=
  match r with Ok a => Ok (f a) | Err e => Err e end.

Definition map_err {A E F} (f : E → F) (r : result A E) : result A F :=
  match r with Ok a => Ok a | Err e => Err (f e) end.

Definition is_Ok {A E} (r : result A E) : Prop := ∃ a, r = Ok a.

(** [let? x := e in k] is Rust's [let x = e?; k]. *)
Notation "'let?' x ':=' e 'in' k" :=
  (match e with Ok x => k | Err err => Err err end)
  (at level 10, x pattern, e at level 100, k at level 200,
   format "'[v' 'let?'  x  ':='  e  'in' '/' k ']'") : oxi_scope.

(** [collect] of an iterator of results into [Result<Vec<_>, _>]: the first
    error stops the traversal. *)
Fixpoint collect {A E} (l : list (result A E)) : result (list A) E :=
  match l with
  | [] => Ok []
  | r :: l => let? a := r in let? rest := collect l in Ok (a :: rest)
  end.

Lemma collect_map_Ok {A E} (l : list A) : collect (map (@Ok A E) l) = Ok l.
Proof. induction l as [|x l IH]; simpl; [done|]. by rewrite IH. Qed.

(** State-passing operations that can fail.  The state is kept on the error
    path: what an operation did before failing is part of its behaviour. *)
Definition st_bind {S A B E} (m : S → S * result A E)
    (k : A → S → S * result B E) (s : S) : S * result B E :=
  match m s with
  | (s', Ok a) => k a s'
  | (s', Err e) => (s', Err e)
  end.

(** [let* x := m in k] sequences two such operations. *)
Notation "'let*' x ':=' m 'in' k" := (st_bind m (λ x, k))
  (at level 10, x pattern, m at level 100, k at level 200,
   format "'[v' 'let*'  x  ':='  m  'in' '/' k ']'") : oxi_scope.

(** An equation on the outcome of a call is one on its result. *)
Lemma outcome_eq {A B} (p : A * B) b : p.2 = b → p = (p.1, b).
Proof. intros <-. apply surjective_pairing. Qed.

(** ** Machine integers *)
Definition U8_MAX : Z := 255.
Definition two64 : Z := 18446744073709551616.
Definition wrap64 (x : Z) : Z := x mod two64.
Definition u64_ok (x : Z) : Prop := (0 ≤ x < two64)%Z.

Lemma wrap64_range x : u64_ok (wrap64 x).
Proof. unfold u64_ok, wrap64, two64. apply Z.mod_pos_bound. lia. Qed.

Lemma wrap64_id x : u64_ok x → wrap64 x = x.
Proof. unfold u64_ok, wrap64. intros. by apply Z.mod_small. Qed.

(** ** Tactics *)

(** Split every [match]/[if] of the goal or of a hypothesis, keeping equations. *)
Ltac split_match :=
  match goal with
  | |- context [match ?x with _ => _ end] => destruct x eqn:?
  | H : context [match ?x with _ => _ end] |- _ => destruct x eqn:?
  end.

Ltac split_matches := repeat (split_match; simplify_eq/=).

(** Name the result of a state-passing call. *)
Tactic Notation "let_pair" "in" hyp(H) :=
  match type of H with
  | context [let '(_, _) := ?e in _] => destruct e eqn:?
  end.
