(* ===== verification/Bytes.v ===== *)
(** * Byte strings and ordered maps

    Keys and values of every OxiStore backend are [Vec<u8>].  A [u8] is the
    type [Byte.byte] of the Standard Library, which has exactly 256 values, so a
    byte string is in range by construction.  The file defines the
    lexicographic order of [Ord for [u8]], the test [starts_with], and the
    ordered map [BTreeMap<Vec<u8>, A>] of the standard library of Rust as a
    finite map with an ordered iteration. *)

From S2P Require Import Prelude.

Abbreviation bytes := (list byte).

#[global] Instance byte_eq_dec : EqDecision byte := Byte.byte_eq_dec.

#[global] Program Instance byte_countable : Countable byte :=
  inj_countable Byte.to_N Byte.of_N _.
Next Obligation. intros x. apply Byte.of_to_N. Qed.

(** [b as u64] *)
Definition byte_Z (b : byte) : Z := Z.of_N (Byte.to_N b).

Lemma byte_Z_range b : (0 ≤ byte_Z b ≤ 255)%Z.
Proof. unfold byte_Z. pose proof (Byte.to_N_bounded b). lia. Qed.

Lemma byte_Z_inj a b : byte_Z a = byte_Z b → a = b.
Proof.
  unfold byte_Z. intros H. assert (Byte.to_N a = Byte.to_N b) as E by lia.
  apply (f_equal Byte.of_N) in E. rewrite !Byte.of_to_N in E. congruence.
Qed.

(** [*b += 1]: [None] is the overflow of a byte that is already [0xFF]. *)
Definition byte_succ (b : byte) : option byte := Byte.of_N (Byte.to_N b + 1).

Lemma byte_succ_Some b : b ≠ xff → ∃ c, byte_succ b = Some c ∧ byte_Z c = (byte_Z b + 1)%Z.
Proof.
  intros Hne. unfold byte_succ, byte_Z.
  destruct (Byte.of_N (Byte.to_N b + 1)) as [c|] eqn:E.
  - exists c. split; [done|]. apply Byte.to_of_N in E. lia.
  - apply Byte.of_N_None_iff in E. pose proof (Byte.to_N_bounded b).
    destruct Hne. apply byte_Z_inj. unfold byte_Z. simpl. lia.
Qed.

(** ** Lexicographic order: [Ord for [u8]] *)
Fixpoint bytes_ltb (a b : bytes) : bool :=
  match a, b with
  | _, [] => false
  | [], _ :: _ => true
  | x :: a, y :: b =>
      if (byte_Z x <? byte_Z y)%Z then true
      else if (byte_Z x =? byte_Z y)%Z then bytes_ltb a b else false
  end.

Definition bytes_leb (a b : bytes) : bool := negb (bytes_ltb b a).
Definition bytes_lt (a b : bytes) : Prop := bytes_ltb a b = true.
Definition bytes_le (a b : bytes) : Prop := bytes_leb a b = true.

#[global] Instance bytes_lt_dec : RelDecision bytes_lt.
Proof. intros a b. unfold bytes_lt. apply _. Defined.
#[global] Instance bytes_le_dec : RelDecision bytes_le.
Proof. intros a b. unfold bytes_le. apply _. Defined.

Ltac byte_cases :=
  repeat match goal with
  | |- context [(?x <? ?y)%Z] => destruct (Z.ltb_spec x y)
  | |- context [(?x =? ?y)%Z] => destruct (Z.eqb_spec x y)
  | H : context [(?x <? ?y)%Z] |- _ => destruct (Z.ltb_spec x y)
  | H : context [(?x =? ?y)%Z] |- _ => destruct (Z.eqb_spec x y)
  end; try discriminate; try lia.

Lemma bytes_ltb_irrefl a : bytes_ltb a a = false.
Proof. induction a as [|x a IH]; simpl; [done|]. byte_cases; done. Qed.

Lemma bytes_ltb_trans a b c :
  bytes_ltb a b = true → bytes_ltb b c = true → bytes_ltb a c = true.
Proof.
  revert b c. induction a as [|x a IH]; intros [|y b] [|z c]; simpl; try done.
  intros. byte_cases; eauto.
Qed.

Lemma bytes_ltb_trichotomy a b :
  bytes_ltb a b = true ∨ a = b ∨ bytes_ltb b a = true.
Proof.
  revert b. induction a as [|x a IH]; intros [|y b]; simpl; auto.
  byte_cases; auto. assert (x = y) as -> by (by apply byte_Z_inj).
  destruct (IH b) as [?|[->|?]]; auto.
Qed.

Lemma bytes_ltb_asym a b : bytes_ltb a b = true → bytes_ltb b a = false.
Proof.
  intros H. destruct (bytes_ltb b a) eqn:E; [|done].
  pose proof (bytes_ltb_trans _ _ _ H E) as F. by rewrite bytes_ltb_irrefl in F.
Qed.

#[global] Instance bytes_le_total : Total bytes_le.
Proof.
  intros a b. unfold bytes_le, bytes_leb.
  destruct (bytes_ltb b a) eqn:E; [right|by left]. by rewrite bytes_ltb_asym.
Qed.

Lemma bytes_leb_antisym a b : bytes_leb a b = true → bytes_leb b a = true → a = b.
Proof.
  unfold bytes_leb. intros H1 H2.
  destruct (bytes_ltb_trichotomy a b) as [E|[?|E]]; [|done|]; by rewrite E in *.
Qed.

Lemma bytes_leb_ltb_trans a b c :
  bytes_leb a b = true → bytes_ltb b c = true → bytes_ltb a c = true.
Proof.
  unfold bytes_leb. intros H1 H2.
  destruct (bytes_ltb_trichotomy a b) as [E|[->|E]]; [|done|].
  - by eapply bytes_ltb_trans.
  - by rewrite E in H1.
Qed.

#[global] Instance bytes_le_trans : Transitive bytes_le.
Proof.
  intros a b c H1 H2. unfold bytes_le, bytes_leb in *.
  destruct (bytes_ltb c a) eqn:E; [|done].
  assert (bytes_ltb c b = true) as F; [|by rewrite F in H2].
  destruct (bytes_ltb_trichotomy c b) as [?|[->|F]]; [done| |].
  - by rewrite E in H1.
  - pose proof (bytes_ltb_trans _ _ _ F E) as G. by rewrite G in H1.
Qed.

Lemma bytes_leb_refl a : bytes_leb a a = true.
Proof. unfold bytes_leb. by rewrite bytes_ltb_irrefl. Qed.

(** ** [starts_with] *)
Fixpoint starts_with (k p : bytes) {struct p} : bool :=
  match p, k with
  | [], _ => true
  | _ :: _, [] => false
  | y :: p, x :: k => (byte_Z x =? byte_Z y)%Z && starts_with k p
  end.

Lemma starts_with_prefix k p : starts_with k p = true ↔ p `prefix_of` k.
Proof.
  revert k. induction p as [|y p IH]; intros [|x k]; simpl.
  - split; [intros; apply prefix_nil|done].
  - split; [intros; apply prefix_nil|done].
  - split; [done|]. intros H. by apply prefix_nil_not in H.
  - rewrite andb_true_iff, Z.eqb_eq, IH. split.
    + intros [->%byte_Z_inj H]. by apply prefix_cons.
    + intros H. split; [by rewrite (prefix_cons_inv_1 _ _ _ _ H)|].
      by eapply prefix_cons_inv_2.
Qed.

(** ** [BTreeMap<Vec<u8>, A>] *)
Section BTreeMap.
Context {A : Type}.
Implicit Types m : gmap bytes A.

Definition kv_le (p q : bytes * A) : Prop := bytes_le p.1 q.1.
#[global] Instance kv_le_dec : RelDecision kv_le.
Proof. intros p q. unfold kv_le. apply _. Defined.
#[global] Instance kv_le_total : Total kv_le.
Proof. intros p q. unfold kv_le. apply (total bytes_le). Qed.
#[global] Instance kv_le_trans : Transitive kv_le.
Proof. intros p q r. unfold kv_le. apply transitivity. Qed.

(** [iter]: the entries in ascending key order. *)
Definition btree_iter m : list (bytes * A) := merge_sort kv_le (map_to_list m).

Definition in_range (lo hi k : bytes) : bool := bytes_leb lo k && bytes_ltb k hi.

(** The entries of the half-open interval [lo..hi], in ascending key order. *)
Definition btree_between (lo hi : bytes) m : list (bytes * A) :=
  List.filter (λ kv, in_range lo hi kv.1) (btree_iter m).

(** The entries of [lo..]. *)
Definition btree_from (lo : bytes) m : list (bytes * A) :=
  List.filter (λ kv, bytes_leb lo kv.1) (btree_iter m).

(** [BTreeMap::range(lo..hi)] panics when [lo > hi]; [None] is the panic. *)
Definition btree_range (lo hi : bytes) m : option (list (bytes * A)) :=
  if bytes_ltb hi lo then None else Some (btree_between lo hi m).

Lemma elem_of_btree_iter m k v : (k, v) ∈ btree_iter m ↔ m !! k = Some v.
Proof. unfold btree_iter. by rewrite merge_sort_Permutation, elem_of_map_to_list. Qed.

Lemma btree_iter_sorted m : StronglySorted kv_le (btree_iter m).
Proof. apply StronglySorted_merge_sort; apply _. Qed.

Lemma btree_iter_NoDup m : NoDup (btree_iter m).*1.
Proof. unfold btree_iter. rewrite merge_sort_Permutation. apply NoDup_fst_map_to_list. Qed.

Lemma btree_iter_length m : length (btree_iter m) = size m.
Proof. unfold btree_iter. by rewrite merge_sort_Permutation, length_map_to_list. Qed.

(** A key-sorted list with the entries of [m] is the iteration of [m]. *)
Lemma btree_iter_unique m l :
  StronglySorted kv_le l → NoDup l.*1 →
  (∀ k v, (k, v) ∈ l ↔ m !! k = Some v) → l = btree_iter m.
Proof.
  intros Hs Hnd Hl.
  assert (l ≡ₚ btree_iter m) as Hp.
  { apply NoDup_Permutation.
    - by eapply NoDup_fmap_1.
    - eapply NoDup_fmap_1, btree_iter_NoDup.
    - intros [k v]. by rewrite Hl, elem_of_btree_iter. }
  eapply StronglySorted_unique_strong; [|done|apply btree_iter_sorted|done].
  intros [k1 v1] [k2 v2] H1 H2 Hle1 Hle2. unfold kv_le in *; simpl in *.
  assert (k1 = k2) as <- by (by apply bytes_leb_antisym).
  rewrite Hl in H1. rewrite elem_of_btree_iter in H2. congruence.
Qed.

Lemma elem_of_list_filter_bool {B} (f : B → bool) (l : list B) x :
  x ∈ List.filter f l ↔ x ∈ l ∧ f x = true.
Proof. rewrite !list_elem_of_In. apply filter_In. Qed.

Lemma filter_all {B} (f : B → bool) l : (∀ x, x ∈ l → f x = true) → List.filter f l = l.
Proof.
  intros Hl. induction l as [|x l IH]; simpl; [done|]. rewrite Hl by by left. f_equal. apply IH. intros y Hy. apply Hl. by right.
Qed.

Lemma filter_none {B} (f : B → bool) l : (∀ x, x ∈ l → f x = false) → List.filter f l = [].
Proof.
  intros Hl. induction l as [|x l IH]; simpl; [done|]. rewrite Hl by by left. apply IH. intros y Hy. apply Hl. by right.
Qed.

Lemma StronglySorted_filter_bool {B} (R : relation B) (f : B → bool) l :
  StronglySorted R l → StronglySorted R (List.filter f l).
Proof.
  induction 1 as [|x l Hs IH Hf]; simpl; [constructor|].
  destruct (f x); [|done]. constructor; [done|].
  rewrite Forall_forall in *. intros y [Hy _]%elem_of_list_filter_bool. eauto.
Qed.

Lemma NoDup_fst_filter_bool {B C} (f : B * C → bool) (l : list (B * C)) :
  NoDup l.*1 → NoDup (List.filter f l).*1.
Proof.
  induction l as [|x l IH]; simpl; [done|].
  intros [Hx Hl]%NoDup_cons. destruct (f x); [|eauto]. csimpl. constructor; [|eauto].
  contradict Hx. apply list_elem_of_fmap in Hx as (y & Hy & [Hin _]%elem_of_list_filter_bool).
  apply list_elem_of_fmap. eauto.
Qed.

Lemma elem_of_btree_between lo hi m k v :
  (k, v) ∈ btree_between lo hi m ↔ m !! k = Some v ∧ in_range lo hi k = true.
Proof. unfold btree_between. by rewrite elem_of_list_filter_bool, elem_of_btree_iter. Qed.

Lemma btree_between_sorted lo hi m : StronglySorted kv_le (btree_between lo hi m).
Proof. apply StronglySorted_filter_bool, btree_iter_sorted. Qed.

(** Filtering the iteration is iterating the filtered map. *)
Lemma btree_iter_filter (f : bytes * A → bool) m :
  List.filter f (btree_iter m) = btree_iter (filter (λ kv, f kv = true) m).
Proof.
  apply btree_iter_unique.
  - apply StronglySorted_filter_bool, btree_iter_sorted.
  - apply NoDup_fst_filter_bool, btree_iter_NoDup.
  - intros k v. rewrite elem_of_list_filter_bool, elem_of_btree_iter, map_lookup_filter_Some.
    done.
Qed.
End BTreeMap.

Create HintDb btree.
#[export] Hint Resolve btree_iter_sorted btree_iter_NoDup btree_between_sorted
  StronglySorted_filter_bool NoDup_fst_filter_bool bytes_leb_refl : btree.

(** ** Little-endian integers *)
Definition Z_byte (z : Z) : byte := default x00 (Byte.of_N (Z.to_N (z mod 256))).

(** [to_le_bytes] of an integer of [n] bytes. *)
Fixpoint to_le_bytes (n : nat) (z : Z) : bytes :=
  match n with 0 => [] | S n => Z_byte z :: to_le_bytes n (z / 256) end.

Fixpoint from_le_bytes (b : bytes) : Z :=
  match b with [] => 0%Z | x :: b => (byte_Z x + 256 * from_le_bytes b)%Z end.

Lemma byte_Z_byte z : byte_Z (Z_byte z) = (z mod 256)%Z.
Proof.
  unfold Z_byte. assert (0 ≤ z mod 256 < 256)%Z as H by (apply Z.mod_pos_bound; lia).
  destruct (Byte.of_N (Z.to_N (z mod 256))) as [b|] eqn:E; simpl.
  - apply Byte.to_of_N in E. unfold byte_Z. rewrite E. lia.
  - apply Byte.of_N_None_iff in E. lia.
Qed.

Lemma length_to_le_bytes n z : length (to_le_bytes n z) = n.
Proof. revert z. induction n as [|n IH]; intros z; simpl; [done|]. by rewrite IH. Qed.

Lemma from_to_le_bytes n z : from_le_bytes (to_le_bytes n z) = (z mod 256 ^ Z.of_nat n)%Z.
Proof.
  revert z. induction n as [|n IH]; intros z; simpl; [by rewrite Z.mod_1_r|].
  rewrite IH, byte_Z_byte, Nat2Z.inj_succ, Z.pow_succ_r by lia.
  rewrite Z.rem_mul_r by (try apply Z.pow_pos_nonneg; lia). done.
Qed.

Lemma from_le_bytes_bound b : (0 ≤ from_le_bytes b < 256 ^ Z.of_nat (length b))%Z.
Proof.
  induction b as [|x b IH]; simpl from_le_bytes; [simpl; lia|].
  rewrite length_cons, Nat2Z.inj_succ, Z.pow_succ_r by lia.
  pose proof (byte_Z_range x). lia.
Qed.

Lemma to_from_le_bytes b : to_le_bytes (length b) (from_le_bytes b) = b.
Proof.
  induction b as [|x b IH]; [done|]. pose proof (byte_Z_range x). cbn [length to_le_bytes from_le_bytes]. f_equal.
  - apply byte_Z_inj. rewrite byte_Z_byte, (Z.mul_comm 256), Z_mod_plus_full. apply Z.mod_small. lia.
  - replace ((byte_Z x + 256 * from_le_bytes b) / 256)%Z with (from_le_bytes b); [done|].
    rewrite (Z.mul_comm 256), Z.div_add, Z.div_small; lia.
Qed.
