(* ===== verification/Core.v ===== *)
(** * [oxistore-core]: errors, prefix bounds, expiry arithmetic, and the
      [KvStore] / [KvTxn] / [KvSnapshot] traits

    The three traits are operation classes; their documented contract is a
    class of laws over an abstract view, the finite map of the entries that are
    visible at a given instant.  The default methods of the traits are
    definitions over the operation classes and their theorems are proved from
    the laws, so that they hold for every backend that discharges them. *)

From S2P Require Import Prelude Bytes.

(** ** [StoreError] *)
Inductive StoreError :=
| Io (msg : string)
| Corruption (msg : string)
| NotFound
| AlreadyExists
| TxnConflict
| ReadOnly
| Timeout
| CapacityExceeded
| CasMismatch
| KeyNotFound
| Unsupported (msg : string)
| Other (msg : string).

#[global] Instance StoreError_eq_dec : EqDecision StoreError.
Proof. solve_decision. Defined.

Abbreviation store_result A := (result A StoreError).

(** A range scan yields pairs or errors. *)
Abbreviation RangeItem := (store_result (bytes * bytes)).

(** ** [prefix_upper_bound] *)

(** The [while let Some(&last) = upper.last()] loop, on the reversed vector:
    the head of the list is [upper.last()]. *)
Fixpoint prefix_upper_bound_loop (rupper : bytes) : option bytes :=
  match rupper with
  | [] => None
  | last :: rest =>
      if decide (last = xff) then prefix_upper_bound_loop rest
      else match byte_succ last with
           | Some b => Some (reverse (b :: rest))
           | None => None
           end
  end.

Definition prefix_upper_bound (prefix : bytes) : option bytes :=
  match prefix with
  | [] => None
  | _ => prefix_upper_bound_loop (reverse prefix)
  end.

(** ** Expiry timestamps *)

(** [SystemTime] is a number of nanoseconds relative to the Unix epoch and
    [Duration] a number of nanoseconds; [Duration::MAX] is the largest. *)
Definition NANOS_PER_MILLI : Z := 1000000.
Definition DURATION_MAX : Z := (two64 * 1000000000 - 1)%Z.

(** [Duration::as_millis() as u64]: the [u128] count of milliseconds is
    truncated to 64 bits. *)
Definition as_millis_u64 (d : Z) : Z := wrap64 (d / NANOS_PER_MILLI).

(** [Duration::checked_add] *)
Definition duration_checked_add (a b : Z) : option Z :=
  if (a + b <=? DURATION_MAX)%Z then Some (a + b)%Z else None.

(** [SystemTime::duration_since(UNIX_EPOCH)] *)
Definition duration_since_epoch (now : Z) : result Z string :=
  if (now <? 0)%Z then Err "second time provided was later than self"%string else Ok now.

Definition expiry_epoch_millis (now ttl : Z) : store_result Z :=
  match duration_since_epoch now with
  | Err e => Err (Other e)
  | Ok d => Ok (as_millis_u64 (default d (duration_checked_add d ttl)))
  end.

(** The clock reading of [is_expired]: [unwrap_or(0)] before the epoch. *)
Definition epoch_millis (now : Z) : Z :=
  match duration_since_epoch now with
  | Ok d => as_millis_u64 d
  | Err _ => 0%Z
  end.

Definition is_expired (now expiry_millis : Z) : bool :=
  (expiry_millis <=? epoch_millis now)%Z.

(** ** [KvStore], [KvTxn] and [KvSnapshot] *)

(** The body of [contains] that the trait provides, in terms of [get]. *)
Definition contains_default {S} (get : Z → bytes → S → S * store_result (option bytes)) (now : Z) (key : bytes) (s : S)
    : S * store_result bool :=
  st_bind (get now key) (λ r s, (s, Ok (bool_decide (is_Some r)))) s.

(** [now] is the wall-clock reading of the call.  Iterators are materialised:
    a [RangeIter] is the list of the items it yields.  [contains] is a method of its
    own: the backends inherit [contains_default], the decorators override it. *)
Class KvStore (S : Type) := {
  kv_get : Z → bytes → S → S * store_result (option bytes);
  kv_put : bytes → bytes → S → S * store_result unit;
  kv_delete : bytes → S → S * store_result unit;
  kv_contains : Z → bytes → S → S * store_result bool;
  kv_range : Z → bytes → bytes → S → store_result (list RangeItem);
  kv_iter : Z → S → store_result (list RangeItem);
  kv_Txn : Type;
  kv_transaction : S → store_result kv_Txn;
  txn_get : Z → bytes → kv_Txn → kv_Txn * store_result (option bytes);
  txn_put : bytes → bytes → kv_Txn → kv_Txn * store_result unit;
  txn_delete : bytes → kv_Txn → kv_Txn * store_result unit;
  txn_commit : kv_Txn → S → S * store_result unit;
  txn_rollback : kv_Txn → S → S * store_result unit;
}.

Class KvSnapshot (P : Type) := {
  snap_get : bytes → P → store_result (option bytes);
  snap_range : bytes → bytes → P → store_result (list RangeItem);
}.

(** ** Default methods of [KvStore] *)
Section KvStoreDefaults.
Context {S : Type} `{!KvStore S}.

Fixpoint kv_get_many (now : Z) (keys : list bytes) (s : S)
    : S * store_result (list (option bytes)) :=
  match keys with
  | [] => (s, Ok [])
  | k :: keys =>
      st_bind (kv_get now k)
        (λ r, st_bind (kv_get_many now keys) (λ rs s, (s, Ok (r :: rs)))) s
  end.

Definition kv_range_rev (now : Z) (lo hi : bytes) (s : S) : store_result (list RangeItem) :=
  let? items := kv_range now lo hi s in Ok (reverse items).

(** [filter(|r| r.as_ref().map(|(k, _)| k.starts_with(..)).unwrap_or(true))] *)
Definition item_has_prefix (prefix : bytes) (r : RangeItem) : bool :=
  match r with Ok (k, _) => starts_with k prefix | Err _ => true end.

Definition kv_prefix_scan (now : Z) (prefix : bytes) (s : S) : store_result (list RangeItem) :=
  match prefix with
  | [] => kv_iter now s
  | _ =>
      match prefix_upper_bound prefix with
      | Some hi => kv_range now prefix hi s
      | None =>
          let? items := kv_iter now s in
          Ok (List.filter (item_has_prefix prefix) items)
      end
  end.

(** The loop of [batch_write]: the transaction is the state. *)
Fixpoint txn_put_all (pairs : list (bytes * bytes)) (t : kv_Txn)
    : kv_Txn * store_result unit :=
  match pairs with
  | [] => (t, Ok ())
  | (k, v) :: pairs => st_bind (txn_put k v) (λ _, txn_put_all pairs) t
  end.

Fixpoint txn_delete_all (keys : list bytes) (t : kv_Txn) : kv_Txn * store_result unit :=
  match keys with
  | [] => (t, Ok ())
  | k :: keys => st_bind (txn_delete k) (λ _, txn_delete_all keys) t
  end.

(** Dropping an uncommitted transaction leaves the store as it is. *)
Definition kv_batch_write (pairs : list (bytes * bytes)) (s : S) : S * store_result unit :=
  match kv_transaction s with
  | Err e => (s, Err e)
  | Ok txn =>
      match txn_put_all pairs txn with
      | (_, Err e) => (s, Err e)
      | (txn, Ok _) => txn_commit txn s
      end
  end.

Definition kv_batch_delete (keys : list bytes) (s : S) : S * store_result unit :=
  match kv_transaction s with
  | Err e => (s, Err e)
  | Ok txn =>
      match txn_delete_all keys txn with
      | (_, Err e) => (s, Err e)
      | (txn, Ok _) => txn_commit txn s
      end
  end.

(** [for item in self.iter()? { let _ = item?; n += 1; }] *)
Fixpoint count_items (n : nat) (items : list RangeItem) : store_result nat :=
  match items with
  | [] => Ok n
  | Ok _ :: items => count_items (n + 1) items
  | Err e :: _ => Err e
  end.

Definition kv_count (now : Z) (s : S) : store_result nat :=
  let? items := kv_iter now s in count_items 0 items.

Definition kv_keys (now : Z) (s : S) : store_result (list (store_result bytes)) :=
  let? items := kv_iter now s in Ok (map (result_map fst) items).

(** [match (current.as_deref(), expected)] *)
Definition cas_matches (current expected : option bytes) : bool :=
  match current, expected with
  | None, None => true
  | Some cur, Some exp => bool_decide (cur = exp)
  | _, _ => false
  end.

Definition kv_compare_and_swap (now : Z) (key : bytes) (expected : option bytes)
    (new_value : bytes) (s : S) : S * store_result bool :=
  match kv_transaction s with
  | Err e => (s, Err e)
  | Ok txn =>
      match txn_get now key txn with
      | (_, Err e) => (s, Err e)
      | (txn, Ok current) =>
          if cas_matches current expected then
            match txn_put key new_value txn with
            | (_, Err e) => (s, Err e)
            | (txn, Ok _) => st_bind (txn_commit txn) (λ _ s, (s, Ok true)) s
            end
          else st_bind (txn_rollback txn) (λ _ s, (s, Ok false)) s
      end
  end.
End KvStoreDefaults.

(** ** Default methods of [KvSnapshot] *)
Section KvSnapshotDefaults.
Context {P : Type} `{!KvSnapshot P}.

Definition snap_prefix_scan (prefix : bytes) (p : P) : store_result (list RangeItem) :=
  match prefix_upper_bound prefix with
  | Some hi => snap_range prefix hi p
  | None => snap_range [] [] p
  end.

Definition snap_contains (key : bytes) (p : P) : store_result bool :=
  let? r := snap_get key p in Ok (bool_decide (is_Some r)).
End KvSnapshotDefaults.

(** ** The contract of the traits *)

(** [later now t]: the clock reading of [t] is not before that of [now]. *)
Definition later (now t : Z) : Prop := (epoch_millis now ≤ epoch_millis t)%Z.

Lemma later_refl t : later t t.
Proof. unfold later. lia. Qed.
Lemma later_trans t1 t2 t3 : later t1 t2 → later t2 t3 → later t1 t3.
Proof. unfold later. lia. Qed.

(** The entries visible in a store, and in a transaction, at an instant; and
    the fact that a transaction was opened on a store that has not been written
    since. *)
Class KvView (S : Type) `{!KvStore S} := {
  kv_view : Z → S → gmap bytes bytes;
  txn_view : Z → kv_Txn → gmap bytes bytes;
  txn_base : kv_Txn → S → Prop;
}.

(** What the documentation of the traits promises: reads return the visible
    entries, scans return them in ascending key order, successful writes change
    exactly the named key, and a failed operation changes nothing. *)
Class KvLaws (S : Type) `{!KvStore S, !KvView S} : Prop := {
  kv_get_law now k s s' r : kv_get now k s = (s', Ok r) → r = kv_view now s !! k;
  kv_get_view now k s s' r t :
    kv_get now k s = (s', r) → later now t → kv_view t s' = kv_view t s;
  kv_put_law k v s s' t : kv_put k v s = (s', Ok ()) → kv_view t s' = <[k:=v]> (kv_view t s);
  kv_put_err k v s s' e t : kv_put k v s = (s', Err e) → kv_view t s' = kv_view t s;
  kv_delete_law k s s' t : kv_delete k s = (s', Ok ()) → kv_view t s' = delete k (kv_view t s);
  kv_delete_err k s s' e t : kv_delete k s = (s', Err e) → kv_view t s' = kv_view t s;
  kv_range_law now lo hi s l :
    kv_range now lo hi s = Ok l → l = map Ok (btree_between lo hi (kv_view now s));
  kv_iter_law now s l : kv_iter now s = Ok l → l = map Ok (btree_iter (kv_view now s));
  kv_transaction_law s t : kv_transaction s = Ok t →
    txn_base t s ∧ ∀ now, txn_view now t = kv_view now s;
  txn_get_law now k t t' r s : txn_get now k t = (t', r) → txn_base t s →
    txn_base t' s ∧ (∀ now', txn_view now' t' = txn_view now' t) ∧
    (∀ o, r = Ok o → o = txn_view now t !! k);
  txn_put_law k v t t' s : txn_put k v t = (t', Ok ()) → txn_base t s →
    txn_base t' s ∧ ∀ now, txn_view now t' = <[k:=v]> (txn_view now t);
  txn_delete_law k t t' s : txn_delete k t = (t', Ok ()) → txn_base t s →
    txn_base t' s ∧ ∀ now, txn_view now t' = delete k (txn_view now t);
  txn_commit_law t s s' now : txn_commit t s = (s', Ok ()) → txn_base t s →
    kv_view now s' = txn_view now t;
  txn_commit_err t s s' e now : txn_commit t s = (s', Err e) → kv_view now s' = kv_view now s;
  txn_rollback_law t s s' r now : txn_rollback t s = (s', r) → kv_view now s' = kv_view now s;
}.

(** [contains] answers for the visible entries.  The encrypting decorators, which ask the
    wrapped store without decrypting, promise this only of entries that decrypt. *)
Class KvContainsLaw (S : Type) `{!KvStore S, !KvView S} : Prop :=
  kv_contains_law now k s s' r : kv_contains now k s = (s', r) →
    (∀ t, later now t → kv_view t s' = kv_view t s) ∧ ∀ b, r = Ok b → b = bool_decide (is_Some (kv_view now s !! k)).

(** The method that the trait provides has the law. *)
Lemma contains_default_law {S} `{!KvStore S, !KvView S, !KvLaws S} now k s s' r : contains_default kv_get now k s = (s', r) →
  (∀ t, later now t → kv_view t s' = kv_view t s) ∧ ∀ b, r = Ok b → b = bool_decide (is_Some (kv_view now s !! k)).
Proof.
  unfold contains_default, st_bind. destruct (kv_get now k s) as [s1 [o|e]] eqn:Eg; intros [= <- <-];
    (split; [intros t Ht; by apply (kv_get_view _ _ _ _ _ _ Eg)|]); [|done].
  intros b [= <-]. by rewrite (kv_get_law _ _ _ _ _ Eg).
Qed.

(** A snapshot serves a fixed map. *)
Class SnapView (P : Type) := snap_view : P → gmap bytes bytes.
Class SnapLaws (P : Type) `{!KvSnapshot P, !SnapView P} : Prop := {
  snap_get_law k p r : snap_get k p = Ok r → r = snap_view p !! k;
  snap_range_law lo hi p l :
    snap_range lo hi p = Ok l → l = map Ok (btree_between lo hi (snap_view p));
}.

(** The reference definition of a prefix scan. *)
Definition with_prefix (p : bytes) (m : gmap bytes bytes) : list (bytes * bytes) :=
  List.filter (λ kv, starts_with kv.1 p) (btree_iter m).

(** ** Prefix bounds *)

Lemma bytes_ltb_app_nonempty a c : c ≠ [] → bytes_ltb a (a ++ c) = true.
Proof. intros. induction a as [|x a IH]; simpl; [by destruct c|]. byte_cases. done. Qed.

Lemma bytes_leb_app a c : bytes_leb a (a ++ c) = true.
Proof.
  unfold bytes_leb. destruct (decide (c = [])) as [->|Hc].
  - by rewrite app_nil_r, bytes_ltb_irrefl.
  - by rewrite bytes_ltb_asym; [|apply bytes_ltb_app_nonempty].
Qed.

Lemma bytes_ltb_app_cancel p a b : bytes_ltb (p ++ a) (p ++ b) = bytes_ltb a b.
Proof. induction p as [|x p IH]; simpl; [done|]. byte_cases. done. Qed.

Lemma prefix_upper_bound_loop_spec rp :
  match prefix_upper_bound_loop rp with
  | Some hi => ∃ q x y n, reverse rp = q ++ x :: replicate n xff ∧ hi = q ++ [y] ∧
                 byte_Z y = (byte_Z x + 1)%Z
  | None => ∃ n, reverse rp = replicate n xff
  end.
Proof.
  induction rp as [|b rp IH]; simpl; [by exists 0|].
  case_decide as Hb.
  - subst b. rewrite reverse_cons.
    destruct (prefix_upper_bound_loop rp) as [hi|].
    + destruct IH as (q & x & y & n & -> & -> & Hy). exists q, x, y, (n + 1).
      split_and!; [|done|done]. rewrite <-app_assoc. simpl. by rewrite replicate_add.
    + destruct IH as (n & ->). exists (n + 1). by rewrite replicate_add.
  - destruct (byte_succ_Some b Hb) as (c & -> & Hc).
    exists (reverse rp), b, c, 0. rewrite !reverse_cons. done.
Qed.

Lemma replicate_prefix_le n k :
  replicate n xff `prefix_of` k ↔ bytes_leb (replicate n xff) k = true.
Proof.
  revert k. induction n as [|n IH]; intros [|b k]; simpl.
  - split; [done|intros; apply prefix_nil].
  - split; [done|intros; apply prefix_nil].
  - split; [intros H; by apply prefix_nil_not in H|done].
  - unfold bytes_leb in *; simpl. pose proof (byte_Z_range b).
    assert (byte_Z xff = 255%Z) as E by done. split.
    + intros H1. pose proof (prefix_cons_inv_1 _ _ _ _ H1) as <-.
      apply prefix_cons_inv_2, IH in H1. byte_cases. done.
    + intros H1. byte_cases. apply IH in H1.
      assert (b = xff) as -> by (apply byte_Z_inj; lia). by apply prefix_cons.
Qed.

(** Below the incremented byte, everything at or above [x :: FF..FF] extends it. *)
Lemma in_range_ff_iff x y n k :
  byte_Z y = (byte_Z x + 1)%Z →
  in_range (x :: replicate n xff) [y] k = true ↔ x :: replicate n xff `prefix_of` k.
Proof.
  intros Hy.
  unfold in_range. destruct k as [|b k].
  - simpl. split; [done|]. intros H. by apply prefix_nil_not in H.
  - rewrite andb_true_iff. unfold bytes_leb; simpl. split.
    + intros [H1 H2]. byte_cases; try (by destruct k).
      assert (b = x) as -> by (by apply byte_Z_inj). by apply prefix_cons, replicate_prefix_le.
    + intros H. pose proof (prefix_cons_inv_1 _ _ _ _ H) as <-.
      apply prefix_cons_inv_2, replicate_prefix_le in H. byte_cases. done.
Qed.

Lemma in_range_app_iff q a b k :
  b ≠ [] →
  in_range (q ++ a) (q ++ b) k = true ↔ ∃ k', k = q ++ k' ∧ in_range a b k' = true.
Proof.
  intros Hb. unfold in_range. split.
  - revert k. induction q as [|x q IH]; intros k H; [by exists k|].
    destruct k as [|y k]; simpl in *; [done|].
    rewrite andb_true_iff in H. unfold bytes_leb in *; simpl in *. destruct H as [H1 H2].
    byte_cases. assert (y = x) as -> by (by apply byte_Z_inj).
    destruct (IH k) as (k' & -> & ?); [by rewrite H1, H2|]. by exists k'.
  - intros (k' & -> & H). unfold bytes_leb in *.
    by rewrite !bytes_ltb_app_cancel.
Qed.

Lemma prefix_upper_bound_Some p hi :
  prefix_upper_bound p = Some hi →
  ∀ k, in_range p hi k = starts_with k p.
Proof.
  unfold prefix_upper_bound. destruct p as [|b p]; [done|]. intros Hhi k.
  pose proof (prefix_upper_bound_loop_spec (reverse (b :: p))) as H.
  rewrite Hhi, reverse_involutive in H. destruct H as (q & x & y & n & -> & -> & Hy).
  apply eq_bool_prop_intro. rewrite !Is_true_true.
  rewrite starts_with_prefix, in_range_app_iff by done. split.
  - intros (k' & -> & H). apply prefix_app. by apply (in_range_ff_iff x y n).
  - intros [l ->]. rewrite <-app_assoc. eexists; split; [done|].
    apply (in_range_ff_iff x y n); [done|]. by exists l.
Qed.

Lemma prefix_upper_bound_None p :
  prefix_upper_bound p = None → ∀ k, bytes_leb p k = starts_with k p.
Proof.
  intros Hp k. assert (∃ n, p = replicate n xff) as [n ->].
  { unfold prefix_upper_bound in Hp. destruct p as [|b p]; [by exists 0|].
    pose proof (prefix_upper_bound_loop_spec (reverse (b :: p))) as H.
    by rewrite Hp, reverse_involutive in H. }
  apply eq_bool_prop_intro. rewrite !Is_true_true.
  by rewrite starts_with_prefix, replicate_prefix_le.
Qed.

Lemma prefix_upper_bound_None_iff p :
  prefix_upper_bound p = None ↔ ∃ n, p = replicate n xff.
Proof.
  split.
  - intros Hp. unfold prefix_upper_bound in Hp. destruct p as [|b p]; [by exists 0|].
    pose proof (prefix_upper_bound_loop_spec (reverse (b :: p))) as H.
    by rewrite Hp, reverse_involutive in H.
  - intros [n ->].
    assert (prefix_upper_bound_loop (replicate n xff) = None) as H by (by induction n).
    destruct n as [|n]; [done|]. simpl. change (xff :: replicate n xff) with (replicate (S n) xff).
    by rewrite reverse_replicate.
Qed.

(** ** Expiry *)

(** No 64-bit overflow: the sum of the clock and the ttl fits. *)
Definition ttl_fits (now ttl : Z) : Prop :=
  (0 ≤ now)%Z ∧ (0 ≤ ttl)%Z ∧ ((now + ttl) / NANOS_PER_MILLI < two64)%Z.

Lemma ttl_fits_duration now ttl : ttl_fits now ttl → (now + ttl ≤ DURATION_MAX)%Z.
Proof.
  unfold ttl_fits, DURATION_MAX, NANOS_PER_MILLI, two64. intros (? & ? & H).
  pose proof (Z.div_mod (now + ttl) 1000000). pose proof (Z.mod_pos_bound (now + ttl) 1000000).
  lia.
Qed.

Lemma expiry_fits now ttl :
  ttl_fits now ttl → expiry_epoch_millis now ttl = Ok ((now + ttl) / NANOS_PER_MILLI)%Z.
Proof.
  intros Hf. pose proof (ttl_fits_duration _ _ Hf) as Hd. destruct Hf as (? & ? & ?).
  unfold expiry_epoch_millis, duration_since_epoch, duration_checked_add.
  destruct (Z.ltb_spec now 0); [lia|]. destruct (Z.leb_spec (now + ttl) DURATION_MAX); [|lia].
  simpl. unfold as_millis_u64. rewrite wrap64_id; [done|]. unfold u64_ok. split; [|done].
  apply Z.div_pos; unfold NANOS_PER_MILLI; lia.
Qed.

Lemma epoch_millis_fits now :
  ttl_fits now 0 → epoch_millis now = (now / NANOS_PER_MILLI)%Z.
Proof.
  intros Hf. pose proof (expiry_fits _ _ Hf) as E. destruct Hf as (? & ? & ?).
  unfold expiry_epoch_millis, epoch_millis, duration_since_epoch in *.
  destruct (Z.ltb_spec now 0); [lia|]. unfold as_millis_u64. rewrite Z.add_0_r in *.
  rewrite wrap64_id; [done|]. unfold u64_ok, NANOS_PER_MILLI in *. split; [|done].
  apply Z.div_pos; lia.
Qed.

(** ** Theorems *)

(** C23: The exclusive upper bound computed for a prefix is exact: when a bound
    exists, a key lies in the half-open interval from the prefix to the bound if
    and only if it starts with the prefix; when no bound exists (empty or
    all-[0xFF] prefix), a key starts with the prefix if and only if it is not
    below it. *)
Theorem prefix_upper_bound_exact (p k : bytes) :
  match prefix_upper_bound p with
  | Some hi => in_range p hi k = starts_with k p
  | None => bytes_leb p k = starts_with k p
  end.
Proof.
  destruct (prefix_upper_bound p) eqn:E;
    [by apply prefix_upper_bound_Some|by apply prefix_upper_bound_None].
Qed.

(** C26: When the clock plus the time-to-live fits in 64 bits of milliseconds, the
    stored expiry is the millisecond count of their sum, and a key is expired at
    an instant if and only if that instant, in milliseconds, has reached it. *)
Theorem expiry_exact (now ttl t : Z) :
  ttl_fits now ttl → ttl_fits t 0 →
  ∃ e, expiry_epoch_millis now ttl = Ok e ∧
    (is_expired t e = true ↔ ((now + ttl) / NANOS_PER_MILLI ≤ t / NANOS_PER_MILLI)%Z).
Proof.
  intros Hf Ht. exists ((now + ttl) / NANOS_PER_MILLI)%Z. split; [by apply expiry_fits|].
  unfold is_expired. rewrite epoch_millis_fits by done. apply Z.leb_le.
Qed.

Lemma expiry_exact_witness :
  ∃ e, expiry_epoch_millis 5000000 3000000 = Ok e ∧
    (is_expired 8000000 e = true ↔
      ((5000000 + 3000000) / NANOS_PER_MILLI ≤ 8000000 / NANOS_PER_MILLI)%Z).
Proof.
  apply (expiry_exact 5000000 3000000 8000000);
    unfold ttl_fits; split_and!; vm_compute; congruence.
Defined.

(** A time-to-live so large that the deadline is not a [Duration] expires at
    once: the overflow falls back to the current instant, so the key is expired
    at the very instant it is written. *)
Theorem expiry_overflow_immediate (now ttl : Z) :
  (0 ≤ now)%Z → (DURATION_MAX < now + ttl)%Z →
  ∃ e, expiry_epoch_millis now ttl = Ok e ∧ is_expired now e = true.
Proof.
  intros H1 H2. exists (epoch_millis now).
  unfold expiry_epoch_millis, is_expired, epoch_millis, duration_since_epoch, duration_checked_add.
  destruct (Z.ltb_spec now 0); [lia|]. destruct (Z.leb_spec (now + ttl) DURATION_MAX); [lia|].
  simpl. by rewrite Z.leb_refl.
Qed.

Lemma expiry_overflow_immediate_witness :
  ∃ e, expiry_epoch_millis 1700000000000000000 DURATION_MAX = Ok e ∧
    is_expired 1700000000000000000 e = true.
Proof. apply (expiry_overflow_immediate _ DURATION_MAX); vm_compute; congruence. Defined.

Section KvStoreTheorems.
Context {S : Type} `{!KvStore S, !KvView S, !KvLaws S}.
Implicit Types s : S.

Lemma filter_map_Ok (p : bytes) (l : list (bytes * bytes)) :
  List.filter (item_has_prefix p) (map Ok l) = map Ok (List.filter (λ kv, starts_with kv.1 p) l).
Proof.
  induction l as [|[k v] l IH]; simpl; [done|]. destruct (starts_with k p); simpl; by rewrite IH.
Qed.

Lemma btree_between_prefix {A} (p hi : bytes) (m : gmap bytes A) :
  prefix_upper_bound p = Some hi →
  btree_between p hi m = List.filter (λ kv, starts_with kv.1 p) (btree_iter m).
Proof.
  intros Hhi. unfold btree_between. apply List.filter_ext. intros [k v].
  by apply prefix_upper_bound_Some.
Qed.

Lemma kv_prefix_scan_spec now p s l :
  kv_prefix_scan now p s = Ok l → l = map Ok (with_prefix p (kv_view now s)).
Proof.
  unfold kv_prefix_scan, with_prefix. destruct p as [|b p].
  - intros ->%kv_iter_law. f_equal.
    induction (btree_iter _) as [|x l IH]; simpl; by f_equal.
  - destruct (prefix_upper_bound (b :: p)) as [hi|] eqn:E.
    + intros ->%kv_range_law. by rewrite (btree_between_prefix _ _ _ E).
    + destruct (kv_iter now s) as [items|] eqn:Ei; [|done]. intros [= <-].
      apply kv_iter_law in Ei as ->. apply filter_map_Ok.
Qed.

(** The default [prefix_scan] of [KvStore] yields, in ascending key order,
    exactly the visible entries whose key starts with the prefix, for every
    prefix: empty, bounded, and all-[0xFF]. *)
Theorem kv_prefix_scan_correct now p s l :
  kv_prefix_scan now p s = Ok l → l = map Ok (with_prefix p (kv_view now s)).
Proof. apply kv_prefix_scan_spec. Qed.

(** Sequential application of a batch. *)
Definition apply_puts (pairs : list (bytes * bytes)) (m : gmap bytes bytes) : gmap bytes bytes :=
  foldl (λ m kv, <[kv.1:=kv.2]> m) m pairs.
Definition apply_deletes (keys : list bytes) (m : gmap bytes bytes) : gmap bytes bytes :=
  foldl (λ m k, delete k m) m keys.

Lemma txn_put_all_view pairs t t' s :
  txn_put_all pairs t = (t', Ok ()) → txn_base t s →
  txn_base t' s ∧ ∀ now, txn_view now t' = apply_puts pairs (txn_view now t).
Proof.
  revert t. induction pairs as [|[k v] pairs IH]; intros t; simpl.
  - intros [= ->]. done.
  - unfold st_bind. destruct (txn_put k v t) as [t1 [[]|e]] eqn:E; [|done].
    intros H1 Hb. destruct (txn_put_law _ _ _ _ _ E Hb) as [Hb1 Hv].
    destruct (IH _ H1 Hb1) as [? Hv']. split; [done|]. intros now. by rewrite Hv', Hv.
Qed.

Lemma txn_delete_all_view keys t t' s :
  txn_delete_all keys t = (t', Ok ()) → txn_base t s →
  txn_base t' s ∧ ∀ now, txn_view now t' = apply_deletes keys (txn_view now t).
Proof.
  revert t. induction keys as [|k keys IH]; intros t; simpl.
  - intros [= ->]. done.
  - unfold st_bind. destruct (txn_delete k t) as [t1 [[]|e]] eqn:E; [|done].
    intros H1 Hb. destruct (txn_delete_law _ _ _ _ E Hb) as [Hb1 Hv].
    destruct (IH _ H1 Hb1) as [? Hv']. split; [done|]. intros now. by rewrite Hv', Hv.
Qed.

Lemma kv_batch_write_view pairs s s' r :
  kv_batch_write pairs s = (s', r) →
  ∀ now, kv_view now s' =
    match r with Ok _ => apply_puts pairs (kv_view now s) | Err _ => kv_view now s end.
Proof.
  unfold kv_batch_write. intros H now.
  destruct (kv_transaction s) as [t|e] eqn:Et; [|by simplify_eq].
  apply kv_transaction_law in Et as [Hb Hv].
  destruct (txn_put_all pairs t) as [t1 [[]|e]] eqn:Ep; [|by simplify_eq].
  destruct (txn_put_all_view _ _ _ _ Ep Hb) as [Hb1 Hv1].
  destruct r as [[]|e].
  - rewrite (txn_commit_law _ _ _ now H Hb1), Hv1. by rewrite Hv.
  - by eapply txn_commit_err.
Qed.

(** The default [batch_write] is atomic: on success every pair has been
    applied, in order; on failure no entry has changed. *)
Theorem kv_batch_write_atomic pairs s s' r :
  kv_batch_write pairs s = (s', r) →
  ∀ now, kv_view now s' =
    match r with Ok _ => apply_puts pairs (kv_view now s) | Err _ => kv_view now s end.
Proof. apply kv_batch_write_view. Qed.

(** The default [batch_delete] is atomic. *)
Theorem kv_batch_delete_atomic keys s s' r :
  kv_batch_delete keys s = (s', r) →
  ∀ now, kv_view now s' =
    match r with Ok _ => apply_deletes keys (kv_view now s) | Err _ => kv_view now s end.
Proof.
  unfold kv_batch_delete. intros H now.
  destruct (kv_transaction s) as [t|e] eqn:Et; [|by simplify_eq].
  apply kv_transaction_law in Et as [Hb Hv].
  destruct (txn_delete_all keys t) as [t1 [[]|e]] eqn:Ep; [|by simplify_eq].
  destruct (txn_delete_all_view _ _ _ _ Ep Hb) as [Hb1 Hv1].
  destruct r as [[]|e].
  - rewrite (txn_commit_law _ _ _ now H Hb1), Hv1. by rewrite Hv.
  - by eapply txn_commit_err.
Qed.

Lemma cas_matches_spec cur exp : cas_matches cur exp = true ↔ cur = exp.
Proof. destruct cur, exp; simpl; rewrite ?bool_decide_eq_true; naive_solver. Qed.

Lemma kv_compare_and_swap_spec now key expected v s s' r :
  kv_compare_and_swap now key expected v s = (s', r) →
  match r with
  | Ok true => kv_view now s !! key = expected ∧
               ∀ t, kv_view t s' = <[key:=v]> (kv_view t s)
  | Ok false => kv_view now s !! key ≠ expected ∧ ∀ t, kv_view t s' = kv_view t s
  | Err _ => ∀ t, kv_view t s' = kv_view t s
  end.
Proof.
  unfold kv_compare_and_swap. intros H.
  destruct (kv_transaction s) as [txn|e] eqn:Et; [|by simplify_eq].
  apply kv_transaction_law in Et as [Hb Hv].
  destruct (txn_get now key txn) as [txn' [cur|e]] eqn:Eg; [|by simplify_eq].
  destruct (txn_get_law _ _ _ _ _ _ Eg Hb) as (Hb' & Hv' & Hcur). rewrite Hv in Hcur.
  specialize (Hcur _ eq_refl). unfold st_bind in H.
  destruct (cas_matches cur expected) eqn:Em.
  - apply cas_matches_spec in Em as <-.
    destruct (txn_put key v txn') as [t1 [[]|e]] eqn:Ep; [|by simplify_eq].
    destruct (txn_put_law _ _ _ _ _ Ep Hb') as [Hb1 Hv1].
    destruct (txn_commit t1 s) as [s1 [[]|e]] eqn:Ec; simplify_eq.
    + split; [done|]. intros t. by rewrite (txn_commit_law _ _ _ t Ec Hb1), Hv1, Hv', Hv.
    + intros t. by eapply txn_commit_err.
  - assert (kv_view now s !! key ≠ expected) as Hne.
    { intros He. rewrite <-not_true_iff_false in Em. apply Em, cas_matches_spec. congruence. }
    destruct (txn_rollback txn' s) as [s1 [[]|e]] eqn:Er; simplify_eq.
    + split; [done|]. intros t. by eapply txn_rollback_law.
    + intros t. by eapply txn_rollback_law.
Qed.

(** The default [compare_and_swap] swaps exactly when the visible value is the
    expected one: [Ok true] means the value matched and only this key changed to
    the new value, [Ok false] means it did not match and nothing changed, and an
    error means nothing changed. *)
Theorem kv_compare_and_swap_correct now key expected v s s' r :
  kv_compare_and_swap now key expected v s = (s', r) →
  match r with
  | Ok true => kv_view now s !! key = expected ∧
               ∀ t, kv_view t s' = <[key:=v]> (kv_view t s)
  | Ok false => kv_view now s !! key ≠ expected ∧ ∀ t, kv_view t s' = kv_view t s
  | Err _ => ∀ t, kv_view t s' = kv_view t s
  end.
Proof. apply kv_compare_and_swap_spec. Qed.

Lemma count_items_map_Ok n (l : list (bytes * bytes)) :
  count_items n (map Ok l) = Ok (n + length l).
Proof.
  revert n. induction l as [|x l IH]; intros n; simpl; [f_equal; lia|].
  rewrite IH. f_equal. lia.
Qed.

(** The read-only default methods agree with the visible entries: [get_many]
    returns the value of each key in order, [contains] tests visibility, [count]
    is the number of visible entries, [keys] lists the visible keys in ascending
    order, and [range_rev] is [range] in descending order. *)
Theorem kv_read_defaults now s :
  (∀ keys s' rs, kv_get_many now keys s = (s', Ok rs) →
     rs = map (λ k, kv_view now s !! k) keys ∧ kv_view now s' = kv_view now s) ∧
  (∀ k s' b, contains_default kv_get now k s = (s', Ok b) → b = bool_decide (is_Some (kv_view now s !! k))) ∧
  (∀ n, kv_count now s = Ok n → n = size (kv_view now s)) ∧
  (∀ l, kv_keys now s = Ok l → l = map Ok (btree_iter (kv_view now s)).*1) ∧
  (∀ lo hi l, kv_range_rev now lo hi s = Ok l →
     l = map Ok (reverse (btree_between lo hi (kv_view now s)))).
Proof.
  split_and!.
  - intros keys. revert s. induction keys as [|k keys IH]; intros s s' rs; simpl.
    { by intros [= -> <-]. }
    unfold st_bind. destruct (kv_get now k s) as [s1 [r|e]] eqn:Eg; [|done].
    assert (kv_view now s1 = kv_view now s) as Hv
      by (eapply kv_get_view; [done|unfold later; lia]).
    apply kv_get_law in Eg.
    destruct (kv_get_many now keys s1) as [s2 [rs'|e]] eqn:Em; [|done].
    destruct (IH _ _ _ Em) as [Hrs Hv2]. intros [= -> <-].
    by rewrite Hrs, Hv2, Eg, Hv.
  - intros k s' b H. by apply (contains_default_law _ _ _ _ _ H).
  - intros n. unfold kv_count. destruct (kv_iter now s) as [l|] eqn:E; [|done].
    apply kv_iter_law in E as ->. rewrite count_items_map_Ok.
    intros [= <-]. by rewrite btree_iter_length.
  - intros l. unfold kv_keys. destruct (kv_iter now s) as [l'|] eqn:E; [|done].
    apply kv_iter_law in E as ->. intros [= <-]. rewrite !map_map. done.
  - intros lo hi l. unfold kv_range_rev. destruct (kv_range now lo hi s) as [l'|] eqn:E; [|done].
    apply kv_range_law in E as ->. intros [= <-]. by rewrite <-fmap_reverse.
Qed.
End KvStoreTheorems.

Section KvSnapshotTheorems.
Context {P : Type} `{!KvSnapshot P, !SnapView P, !SnapLaws P}.

(** The default [prefix_scan] of [KvSnapshot] yields exactly the entries with
    the prefix when the prefix has an upper bound, and yields nothing at all
    otherwise: for the empty prefix and for all-[0xFF] prefixes the fallback
    scans the empty interval instead of the whole snapshot. *)
Theorem snap_prefix_scan_behaviour p (snap : P) l :
  snap_prefix_scan p snap = Ok l →
  l = if prefix_upper_bound p is Some _ then map Ok (with_prefix p (snap_view snap)) else [].
Proof.
  unfold snap_prefix_scan. destruct (prefix_upper_bound p) as [hi|] eqn:E.
  - intros ->%snap_range_law. by rewrite (btree_between_prefix _ _ _ E).
  - intros ->%snap_range_law. unfold btree_between.
    rewrite (List.filter_ext _ (λ _, false)), List.filter_false; [done|].
    intros [k v]. unfold in_range. simpl. destruct k; by rewrite andb_false_r.
Qed.
End KvSnapshotTheorems.
