(* ===== verification/KvHistory.v ===== *)
(** * Histories of a store

    Any store with the contract [KvLaws] of [Core.v] is a map: a history of calls of
    the trait [KvStore], its default methods included, gives the answers of a finite
    map, and a call that fails leaves the map as it is.  The stores and decorators of
    the development inherit the result from their contract.  [map_kv] is an in-memory
    store that has the contract. *)

From S2P Require Import Prelude Bytes Core.

(** The entries of a store at all instants from [now] on: the store holds no
    deadline that is still to come. *)
Definition kv_settled {S} `{!KvStore S, !KvView S} (now : Z) (s : S) (m : gmap bytes bytes) : Prop :=
  ∀ t, later now t → kv_view t s = m.

Section Settled.
Context {S : Type} `{!KvStore S, !KvView S, !KvLaws S}.
Implicit Types (s : S) (m : gmap bytes bytes).

Lemma settled_later now t s m : kv_settled now s m → later now t → kv_settled t s m.
Proof. intros Hs Ht t' Ht'. apply Hs. by eapply later_trans. Qed.

Lemma settled_get now k s s' r m : kv_settled now s m → kv_get now k s = (s', r) →
  kv_settled now s' m ∧ ∀ o, r = Ok o → o = m !! k.
Proof.
  intros Hs Hg. split.
  - intros t Ht. rewrite (kv_get_view _ _ _ _ _ _ Hg Ht). by apply Hs.
  - intros o ->. rewrite (kv_get_law _ _ _ _ _ Hg). by rewrite (Hs now (later_refl now)).
Qed.

Lemma settled_put now k v s s' r m : kv_settled now s m → kv_put k v s = (s', r) →
  kv_settled now s' (match r with Ok _ => <[k:=v]> m | Err _ => m end).
Proof.
  intros Hs Hp t Ht. destruct r as [[]|e].
  - rewrite (kv_put_law _ _ _ _ t Hp). by rewrite Hs.
  - rewrite (kv_put_err _ _ _ _ _ t Hp). by apply Hs.
Qed.

Lemma settled_delete now k s s' r m : kv_settled now s m → kv_delete k s = (s', r) →
  kv_settled now s' (match r with Ok _ => delete k m | Err _ => m end).
Proof.
  intros Hs Hp t Ht. destruct r as [[]|e].
  - rewrite (kv_delete_law _ _ _ t Hp). by rewrite Hs.
  - rewrite (kv_delete_err _ _ _ _ t Hp). by apply Hs.
Qed.
End Settled.

(** ** Calls and answers *)
Inductive KvOp :=
| KvGet (k : bytes) | KvPut (k v : bytes) | KvDelete (k : bytes) | KvContains (k : bytes)
| KvGetMany (ks : list bytes) | KvRange (lo hi : bytes) | KvRangeRev (lo hi : bytes) | KvIter
| KvPrefixScan (p : bytes) | KvKeys | KvCount
| KvBatchWrite (pairs : list (bytes * bytes)) | KvBatchDelete (keys : list bytes)
| KvCas (k : bytes) (expected : option bytes) (v : bytes).

Inductive KvOut :=
| KvUnit | KvValue (o : option bytes) | KvValues (l : list (option bytes)) | KvBool (b : bool)
| KvItems (l : list RangeItem) | KvKeyList (l : list (store_result bytes)) | KvNat (n : nat).

(** The map, and its answer. *)
Definition map_step (op : KvOp) (m : gmap bytes bytes) : gmap bytes bytes * KvOut :=
  match op with
  | KvGet k => (m, KvValue (m !! k))
  | KvPut k v => (<[k:=v]> m, KvUnit)
  | KvDelete k => (delete k m, KvUnit)
  | KvContains k => (m, KvBool (bool_decide (is_Some (m !! k))))
  | KvGetMany ks => (m, KvValues (map (λ k, m !! k) ks))
  | KvRange lo hi => (m, KvItems (map Ok (btree_between lo hi m)))
  | KvRangeRev lo hi => (m, KvItems (map Ok (reverse (btree_between lo hi m))))
  | KvIter => (m, KvItems (map Ok (btree_iter m)))
  | KvPrefixScan p => (m, KvItems (map Ok (with_prefix p m)))
  | KvKeys => (m, KvKeyList (map Ok (btree_iter m).*1))
  | KvCount => (m, KvNat (size m))
  | KvBatchWrite pairs => (apply_puts pairs m, KvUnit)
  | KvBatchDelete keys => (apply_deletes keys m, KvUnit)
  | KvCas k expected v =>
      if decide (m !! k = expected) then (<[k:=v]> m, KvBool true) else (m, KvBool false)
  end.

Fixpoint kv_accepts (m : gmap bytes bytes) (trace : list (KvOp * store_result KvOut)) : Prop :=
  match trace with
  | [] => True
  | (op, Ok r) :: trace => r = (map_step op m).2 ∧ kv_accepts (map_step op m).1 trace
  | (op, Err _) :: trace => kv_accepts m trace
  end.

(** The map after a trace. *)
Fixpoint kv_final (m : gmap bytes bytes) (trace : list (KvOp * store_result KvOut)) : gmap bytes bytes :=
  match trace with
  | [] => m
  | (op, Ok _) :: trace => kv_final (map_step op m).1 trace
  | (_, Err _) :: trace => kv_final m trace
  end.

(** The wall clock does not go back. *)
Fixpoint kv_clock_ok (now : Z) (script : list (Z * KvOp)) : Prop :=
  match script with
  | [] => True
  | (t, _) :: script => later now t ∧ kv_clock_ok t script
  end.

Section Run.
Context {S : Type} `{!KvStore S}.

Definition reading {A} (f : A → KvOut) (r : store_result A) (s : S) : S * store_result KvOut := (s, result_map f r).
Definition answer {A} (f : A → KvOut) (p : S * store_result A) : S * store_result KvOut := (p.1, result_map f p.2).

Definition kv_step (now : Z) (op : KvOp) (s : S) : S * store_result KvOut :=
  match op with
  | KvGet k => answer KvValue (kv_get now k s)
  | KvPut k v => answer (λ _, KvUnit) (kv_put k v s)
  | KvDelete k => answer (λ _, KvUnit) (kv_delete k s)
  | KvContains k => answer KvBool (kv_contains now k s)
  | KvGetMany ks => answer KvValues (kv_get_many now ks s)
  | KvRange lo hi => reading KvItems (kv_range now lo hi s) s
  | KvRangeRev lo hi => reading KvItems (kv_range_rev now lo hi s) s
  | KvIter => reading KvItems (kv_iter now s) s
  | KvPrefixScan p => reading KvItems (kv_prefix_scan now p s) s
  | KvKeys => reading KvKeyList (kv_keys now s) s
  | KvCount => reading KvNat (kv_count now s) s
  | KvBatchWrite pairs => answer (λ _, KvUnit) (kv_batch_write pairs s)
  | KvBatchDelete keys => answer (λ _, KvUnit) (kv_batch_delete keys s)
  | KvCas k expected v => answer KvBool (kv_compare_and_swap now k expected v s)
  end.

Fixpoint kv_run (script : list (Z * KvOp)) (s : S) : S * list (KvOp * store_result KvOut) :=
  match script with
  | [] => (s, [])
  | (now, op) :: script =>
      let '(s, r) := kv_step now op s in
      let '(s, trace) := kv_run script s in (s, (op, r) :: trace)
  end.
End Run.

(** ** A store that simulates a map

    [rel now s m]: from [now] on the store shows [m]; [trel now t s m]: the transaction
    [t], opened on [s], shows [m]. *)
Record KvSim {S} `{!KvStore S} (rel : Z → S → gmap bytes bytes → Prop)
    (trel : Z → kv_Txn (S := S) → S → gmap bytes bytes → Prop) : Prop := {
  sim_later now t s m : rel now s m → later now t → rel t s m;
  sim_get now k s s' r m : rel now s m → kv_get now k s = (s', r) → rel now s' m ∧ ∀ o, r = Ok o → o = m !! k;
  sim_put now k v s s' r m : rel now s m → kv_put k v s = (s', r) →
    rel now s' (match r with Ok _ => <[k:=v]> m | Err _ => m end);
  sim_delete now k s s' r m : rel now s m → kv_delete k s = (s', r) →
    rel now s' (match r with Ok _ => delete k m | Err _ => m end);
  sim_contains now k s s' r m : rel now s m → kv_contains now k s = (s', r) →
    rel now s' m ∧ ∀ b, r = Ok b → b = bool_decide (is_Some (m !! k));
  sim_range now lo hi s l m : rel now s m → kv_range now lo hi s = Ok l → l = map Ok (btree_between lo hi m);
  sim_iter now s l m : rel now s m → kv_iter now s = Ok l → l = map Ok (btree_iter m);
  sim_transaction now s t m : rel now s m → kv_transaction s = Ok t → trel now t s m;
  sim_txn_get now k t t' r s m : trel now t s m → txn_get now k t = (t', r) →
    trel now t' s m ∧ ∀ o, r = Ok o → o = m !! k;
  sim_txn_put now k v t t' s m : trel now t s m → txn_put k v t = (t', Ok ()) → trel now t' s (<[k:=v]> m);
  sim_txn_delete now k t t' s m : trel now t s m → txn_delete k t = (t', Ok ()) → trel now t' s (delete k m);
  sim_commit now t s s' r m m' : rel now s m → trel now t s m' → txn_commit t s = (s', r) →
    rel now s' (match r with Ok _ => m' | Err _ => m end);
  sim_rollback now t s s' r m : rel now s m → txn_rollback t s = (s', r) → rel now s' m;
}.

Section Simulation.
Context {S : Type} `{!KvStore S} {rel : Z → S → gmap bytes bytes → Prop}.
Context {trel : Z → kv_Txn (S := S) → S → gmap bytes bytes → Prop} (sim : KvSim rel trel).
Implicit Types (s : S) (m : gmap bytes bytes).

Definition step_ok (now : Z) (op : KvOp) (p : S * store_result KvOut) m : Prop :=
  match p.2 with
  | Ok r => r = (map_step op m).2 ∧ rel now p.1 (map_step op m).1
  | Err _ => rel now p.1 m
  end.

Lemma sim_read {A} now op (f : A → KvOut) (r : store_result A) s m :
  rel now s m → (map_step op m).1 = m → (∀ a, r = Ok a → f a = (map_step op m).2) →
  step_ok now op (reading f r s) m.
Proof. intros Hs Hm Hr. unfold step_ok. destruct r as [a|e]; simpl; [|done]. rewrite Hm, <-(Hr a); done. Qed.

Lemma sim_write now op (p : S * store_result unit) m :
  (map_step op m).2 = KvUnit →
  rel now p.1 (match p.2 with Ok _ => (map_step op m).1 | Err _ => m end) →
  step_ok now op (answer (λ _, KvUnit) p) m.
Proof. intros Hu Hs. unfold step_ok. destruct p as [s' [[]|e]]; simpl in *; [by rewrite Hu|done]. Qed.

Lemma sim_get_many now ks s s' r m : rel now s m → kv_get_many now ks s = (s', r) →
  rel now s' m ∧ ∀ l, r = Ok l → l = map (λ k, m !! k) ks.
Proof.
  revert s s' r. induction ks as [|k ks IH]; intros s s' r Hs; simpl.
  { intros [= <- <-]. split; [done|]. by intros l [= <-]. }
  unfold st_bind. destruct (kv_get now k s) as [s1 [o|e]] eqn:Eg;
    destruct (sim_get _ _ sim _ _ _ _ _ _ Hs Eg) as [Hs1 Ho]; [|intros [= <- <-]; by split].
  destruct (kv_get_many now ks s1) as [s2 r'] eqn:Em. destruct (IH _ _ _ Hs1 Em) as [Hs2 Hl].
  destruct r' as [l|e]; intros [= <- <-]; (split; [done|]); intros l' Hl'; [|done]. injection Hl' as <-.
  by rewrite (Hl l), (Ho o).
Qed.

Lemma sim_prefix_scan now p s l m : rel now s m → kv_prefix_scan now p s = Ok l → l = map Ok (with_prefix p m).
Proof.
  intros Hs. unfold kv_prefix_scan, with_prefix. destruct p as [|b p].
  - intros H. rewrite (sim_iter _ _ sim _ _ _ _ Hs H). f_equal.
    induction (btree_iter _) as [|x l' IH]; simpl; by f_equal.
  - destruct (prefix_upper_bound (b :: p)) as [hi|] eqn:E.
    + intros H. rewrite (sim_range _ _ sim _ _ _ _ _ _ Hs H). by rewrite (btree_between_prefix _ _ _ E).
    + destruct (kv_iter now s) as [items|] eqn:Ei; [|done]. intros [= <-].
      rewrite (sim_iter _ _ sim _ _ _ _ Hs Ei). apply filter_map_Ok.
Qed.

Lemma sim_txn_put_all now pairs t t' s m :
  trel now t s m → txn_put_all pairs t = (t', Ok ()) → trel now t' s (apply_puts pairs m).
Proof.
  revert t m. induction pairs as [|[k v] pairs IH]; intros t m Ht; simpl; [by intros [= ->]|].
  unfold st_bind. destruct (txn_put k v t) as [t1 [[]|e]] eqn:E; [|done].
  apply IH. by apply (sim_txn_put _ _ sim _ _ _ _ _ _ _ Ht).
Qed.

Lemma sim_txn_delete_all now keys t t' s m :
  trel now t s m → txn_delete_all keys t = (t', Ok ()) → trel now t' s (apply_deletes keys m).
Proof.
  revert t m. induction keys as [|k keys IH]; intros t m Ht; simpl; [by intros [= ->]|].
  unfold st_bind. destruct (txn_delete k t) as [t1 [[]|e]] eqn:E; [|done].
  apply IH. by apply (sim_txn_delete _ _ sim _ _ _ _ _ _ Ht).
Qed.

Lemma sim_batch_write now pairs s m : rel now s m →
  rel now (kv_batch_write pairs s).1 (match (kv_batch_write pairs s).2 with Ok _ => apply_puts pairs m | Err _ => m end).
Proof.
  intros Hs. unfold kv_batch_write. destruct (kv_transaction s) as [t|e] eqn:Et; [|done].
  pose proof (sim_transaction _ _ sim _ _ _ _ Hs Et) as Ht.
  destruct (txn_put_all pairs t) as [t1 [[]|e]] eqn:Ep; [|done]. pose proof (sim_txn_put_all _ _ _ _ _ _ Ht Ep) as Ht1.
  destruct (txn_commit t1 s) as [s' r] eqn:Ec. apply (sim_commit _ _ sim _ _ _ _ _ _ _ Hs Ht1 Ec).
Qed.

Lemma sim_batch_delete now keys s m : rel now s m →
  rel now (kv_batch_delete keys s).1 (match (kv_batch_delete keys s).2 with Ok _ => apply_deletes keys m | Err _ => m end).
Proof.
  intros Hs. unfold kv_batch_delete. destruct (kv_transaction s) as [t|e] eqn:Et; [|done].
  pose proof (sim_transaction _ _ sim _ _ _ _ Hs Et) as Ht.
  destruct (txn_delete_all keys t) as [t1 [[]|e]] eqn:Ep; [|done]. pose proof (sim_txn_delete_all _ _ _ _ _ _ Ht Ep) as Ht1.
  destruct (txn_commit t1 s) as [s' r] eqn:Ec. apply (sim_commit _ _ sim _ _ _ _ _ _ _ Hs Ht1 Ec).
Qed.

Lemma sim_cas now k expected v s m : rel now s m →
  step_ok now (KvCas k expected v) (answer KvBool (kv_compare_and_swap now k expected v s)) m.
Proof.
  intros Hs. unfold kv_compare_and_swap, step_ok. destruct (kv_transaction s) as [t|e] eqn:Et; [|done].
  pose proof (sim_transaction _ _ sim _ _ _ _ Hs Et) as Ht. destruct (txn_get now k t) as [t1 [cur|e]] eqn:Eg; [|done].
  destruct (sim_txn_get _ _ sim _ _ _ _ _ _ _ Ht Eg) as [Ht1 Hcur]. rewrite (Hcur cur eq_refl). simpl. unfold st_bind.
  destruct (cas_matches (m !! k) expected) eqn:Em.
  - apply cas_matches_spec in Em. rewrite decide_True by done. destruct (txn_put k v t1) as [t2 [[]|e]] eqn:Ep; [|done].
    pose proof (sim_txn_put _ _ sim _ _ _ _ _ _ _ Ht1 Ep) as Ht2.
    destruct (txn_commit t2 s) as [s' r] eqn:Ec. pose proof (sim_commit _ _ sim _ _ _ _ _ _ _ Hs Ht2 Ec). by destruct r.
  - rewrite decide_False by (intros He; apply cas_matches_spec in He; congruence).
    destruct (txn_rollback t1 s) as [s' r] eqn:Er. pose proof (sim_rollback _ _ sim _ _ _ _ _ _ Hs Er). by destruct r.
Qed.

Lemma kv_step_sim now op s m : rel now s m → step_ok now op (kv_step now op s) m.
Proof.
  intros Hs. destruct op; simpl; try (apply sim_read; [done|done|]); try (apply sim_write; [done|]).
  - destruct (kv_get now k s) as [s' r] eqn:E. destruct (sim_get _ _ sim _ _ _ _ _ _ Hs E) as [Hs' Hr].
    unfold step_ok. simpl. destruct r as [o|e]; simpl; [|done]. by rewrite (Hr o).
  - destruct (kv_put k v s) as [s' r] eqn:E. apply (sim_put _ _ sim _ _ _ _ _ _ _ Hs E).
  - destruct (kv_delete k s) as [s' r] eqn:E. apply (sim_delete _ _ sim _ _ _ _ _ _ Hs E).
  - destruct (kv_contains now k s) as [s' r] eqn:E. destruct (sim_contains _ _ sim _ _ _ _ _ _ Hs E) as [Hs' Hb].
    unfold step_ok. simpl. destruct r as [b|e]; simpl; [|done]. by rewrite (Hb b).
  - destruct (kv_get_many now ks s) as [s' r] eqn:E. destruct (sim_get_many _ _ _ _ _ _ Hs E) as [Hs' Hl].
    unfold step_ok. simpl. destruct r as [l|e]; simpl; [|done]. by rewrite (Hl l).
  - intros l H. by rewrite (sim_range _ _ sim _ _ _ _ _ _ Hs H).
  - unfold kv_range_rev. destruct (kv_range now lo hi s) as [l|] eqn:E; [|done]. intros l' [= <-].
    rewrite (sim_range _ _ sim _ _ _ _ _ _ Hs E). by rewrite <-fmap_reverse.
  - intros l H. by rewrite (sim_iter _ _ sim _ _ _ _ Hs H).
  - intros l H. by rewrite (sim_prefix_scan _ _ _ _ _ Hs H).
  - unfold kv_keys. destruct (kv_iter now s) as [l|] eqn:E; [|done]. intros l' [= <-].
    rewrite (sim_iter _ _ sim _ _ _ _ Hs E). simpl. f_equal. by rewrite !map_map.
  - unfold kv_count. destruct (kv_iter now s) as [l|] eqn:E; [|done]. intros n.
    rewrite (sim_iter _ _ sim _ _ _ _ Hs E), count_items_map_Ok. intros [= <-]. by rewrite btree_iter_length.
  - by apply sim_batch_write.
  - by apply sim_batch_delete.
  - by apply sim_cas.
Qed.

Lemma kv_run_sim now script s m s' trace :
  rel now s m → kv_clock_ok now script → kv_run script s = (s', trace) →
  kv_accepts m trace ∧ ∃ now', rel now' s' (kv_final m trace).
Proof.
  revert now s m trace. induction script as [|[t op] script IH]; intros now s m trace Hs Hc; simpl.
  { intros [= <- <-]. simpl. eauto. }
  destruct Hc as [Hlt Hc]. pose proof (kv_step_sim t op s m (sim_later _ _ sim _ _ _ _ Hs Hlt)) as Hstep.
  destruct (kv_step t op s) as [s1 r]. destruct (kv_run script s1) as [s2 tr] eqn:Er. intros [= <- <-].
  unfold step_ok in Hstep. simpl in *. destruct r as [a|e].
  - destruct Hstep as [-> Hs1]. destruct (IH _ _ _ _ Hs1 Hc Er). by split_and!.
  - by apply (IH _ _ _ _ Hstep Hc Er).
Qed.
End Simulation.

(** ** A lawful store simulates a map *)
Section Lawful.
Context {S : Type} `{!KvStore S, !KvView S, !KvLaws S, !KvContainsLaw S}.
Implicit Types (s : S) (m : gmap bytes bytes).

Definition txn_settled (now : Z) (t : kv_Txn (S := S)) s m : Prop := txn_base t s ∧ ∀ u, later now u → txn_view u t = m.

Lemma lawful_sim : KvSim (S := S) kv_settled txn_settled.
Proof.
  split.
  - apply settled_later.
  - apply settled_get.
  - apply settled_put.
  - apply settled_delete.
  - intros now k s s' r m Hs H. destruct (kv_contains_law _ _ _ _ _ H) as [Hv Hb]. split.
    + intros t Ht. rewrite Hv by done. by apply Hs.
    + by rewrite <-(Hs now (later_refl now)).
  - intros now lo hi s l m Hs H. by rewrite (kv_range_law _ _ _ _ _ H), (Hs now (later_refl now)).
  - intros now s l m Hs H. by rewrite (kv_iter_law _ _ _ H), (Hs now (later_refl now)).
  - intros now s t m Hs H. destruct (kv_transaction_law _ _ H) as [Hb Hv]. split; [done|]. intros u Hu. rewrite Hv. by apply Hs.
  - intros now k t t' r s m [Hb Hv] H. destruct (txn_get_law _ _ _ _ _ _ H Hb) as (Hb' & Hv' & Ho). split.
    + split; [done|]. intros u Hu. rewrite Hv'. by apply Hv.
    + intros o ->. by rewrite (Ho o), (Hv now (later_refl now)).
  - intros now k v t t' s m [Hb Hv] H. destruct (txn_put_law _ _ _ _ _ H Hb) as [Hb' Hv']. split; [done|].
    intros u Hu. by rewrite Hv', Hv.
  - intros now k t t' s m [Hb Hv] H. destruct (txn_delete_law _ _ _ _ H Hb) as [Hb' Hv']. split; [done|].
    intros u Hu. by rewrite Hv', Hv.
  - intros now t s s' r m m' Hs [Hb Hv] H u Hu. destruct r as [[]|e].
    + rewrite (txn_commit_law _ _ _ u H Hb). by apply Hv.
    + rewrite (txn_commit_err _ _ _ _ u H). by apply Hs.
  - intros now t s s' r m Hs H u Hu. rewrite (txn_rollback_law _ _ _ _ u H). by apply Hs.
Qed.
End Lawful.

(** ** An in-memory store *)
Abbreviation MapStore := (gmap bytes bytes).
Record MapTxn := { mt_map : gmap bytes bytes }.

#[global] Instance map_kv : KvStore MapStore := {|
  kv_get now k s := (s, Ok (s !! k));
  kv_put k v s := (<[k:=v]> s, Ok ());
  kv_delete k s := (delete k s, Ok ());
  kv_contains := contains_default (λ now k s, (s, Ok (s !! k)));
  kv_range now lo hi s := Ok (map Ok (btree_between lo hi s));
  kv_iter now s := Ok (map Ok (btree_iter s));
  kv_Txn := MapTxn;
  kv_transaction s := Ok {| mt_map := s |};
  txn_get now k t := (t, Ok (mt_map t !! k));
  txn_put k v t := ({| mt_map := <[k:=v]> (mt_map t) |}, Ok ());
  txn_delete k t := ({| mt_map := delete k (mt_map t) |}, Ok ());
  txn_commit t s := (mt_map t, Ok ());
  txn_rollback t s := (s, Ok ());
|}.

#[global] Instance map_view : KvView MapStore := {|
  kv_view now s := s;
  txn_view now t := mt_map t;
  txn_base t s := True;
|}.

#[global] Instance map_laws : KvLaws MapStore.
Proof. split; simpl; intros; simplify_eq; try done; split_and!; try done; intros; by simplify_eq. Qed.

#[global] Instance map_contains : KvContainsLaw MapStore.
Proof. intros now k s s' r. exact (contains_default_law now k s s' r). Qed.

Lemma map_settled (now : Z) (s : MapStore) : kv_settled now s s.
Proof. done. Qed.
