(* ===== verification/Typed.v ===== *)
(** * [oxistore-core/src/typed.rs]: the typed store

    [TypedKvStore] encodes the keys and values of a client with a codec and keeps the
    bytes in a store that simulates a map ([KvSim]).  Its history is that of a partial map
    from keys to values. *)

From S2P Require Import Prelude Bytes Core KvHistory.

(** [TypedCodec] at the key and value types of a client. *)
Class TypedCodec (K V E : Type) := {
  encode : V → result bytes E;
  decode : bytes → result V E;
  encode_key : K → result bytes E;
}.

(** What [serde] codecs promise: a value that was encoded decodes to itself, and
    different keys have different encodings. *)
Class TypedCodecLaws (K V E : Type) `{!TypedCodec K V E} : Prop := {
  decode_encode v data : encode v = Ok data → decode data = Ok v;
  encode_key_inj k k' data : encode_key k = Ok data → encode_key k' = Ok data → k = k';
}.

Inductive TypedKvError (E : Type) := Codec (e : E) | Store (e : StoreError).
Arguments Codec {E} _.
Arguments Store {E} _.

Section Model.
Context {S K V E : Type} `{!KvStore S, !TypedCodec K V E}.

Record TypedKvStore := { ty_inner : S }.
Abbreviation typed_result A := (result A (TypedKvError E)).

Definition typed_new (inner : S) : TypedKvStore := {| ty_inner := inner |}.

(** A call on the inner store. *)
Definition ty_on {A} (call : S → S * store_result A) (t : TypedKvStore) : TypedKvStore * typed_result A :=
  let '(s, r) := call (ty_inner t) in ({| ty_inner := s |}, map_err Store r).

Definition typed_put (key : K) (v : V) (t : TypedKvStore) : TypedKvStore * typed_result unit :=
  match encode_key key with
  | Err e => (t, Err (Codec e))
  | Ok k => match encode v with
            | Err e => (t, Err (Codec e))
            | Ok data => ty_on (kv_put k data) t
            end
  end.

Definition typed_get (now : Z) (key : K) (t : TypedKvStore) : TypedKvStore * typed_result (option V) :=
  match encode_key key with
  | Err e => (t, Err (Codec e))
  | Ok k => match ty_on (kv_get now k) t with
            | (t, Err e) => (t, Err e)
            | (t, Ok None) => (t, Ok None)
            | (t, Ok (Some data)) => match decode data with
                                     | Err e => (t, Err (Codec e))
                                     | Ok v => (t, Ok (Some v))
                                     end
            end
  end.

Definition typed_delete (key : K) (t : TypedKvStore) : TypedKvStore * typed_result unit :=
  match encode_key key with
  | Err e => (t, Err (Codec e))
  | Ok k => ty_on (kv_delete k) t
  end.

Definition typed_contains (now : Z) (key : K) (t : TypedKvStore) : TypedKvStore * typed_result bool :=
  match encode_key key with
  | Err e => (t, Err (Codec e))
  | Ok k => ty_on (kv_contains now k) t
  end.

(** ** Histories *)
Inductive TyOp := TyPut (k : K) (v : V) | TyGet (k : K) | TyDelete (k : K) | TyContains (k : K).
Inductive TyOut := TyUnit | TyValue (v : option V) | TyBool (b : bool).

Definition ty_answer {A} (f : A → TyOut) (p : TypedKvStore * typed_result A) : TypedKvStore * typed_result TyOut := (p.1, result_map f p.2).

Definition ty_step (now : Z) (op : TyOp) (t : TypedKvStore) : TypedKvStore * typed_result TyOut :=
  match op with
  | TyPut k v => ty_answer (λ _, TyUnit) (typed_put k v t)
  | TyGet k => ty_answer TyValue (typed_get now k t)
  | TyDelete k => ty_answer (λ _, TyUnit) (typed_delete k t)
  | TyContains k => ty_answer TyBool (typed_contains now k t)
  end.

Fixpoint ty_run (script : list (Z * TyOp)) (t : TypedKvStore) : TypedKvStore * list (TyOp * typed_result TyOut) :=
  match script with
  | [] => (t, [])
  | (now, op) :: script =>
      let '(t, r) := ty_step now op t in
      let '(t, trace) := ty_run script t in (t, (op, r) :: trace)
  end.

(** The map, and its answer. *)
Abbreviation TyMap := (K → option V).
Definition ty_update `{!EqDecision K} (k : K) (o : option V) (m : TyMap) : TyMap := λ k', if decide (k' = k) then o else m k'.

Definition ty_map_step `{!EqDecision K} (op : TyOp) (m : TyMap) : TyMap * TyOut :=
  match op with
  | TyPut k v => (ty_update k (Some v) m, TyUnit)
  | TyGet k => (m, TyValue (m k))
  | TyDelete k => (ty_update k None m, TyUnit)
  | TyContains k => (m, TyBool (bool_decide (is_Some (m k))))
  end.

(** The encoding a call can fail with. *)
Definition ty_codec_error (op : TyOp) (e : E) : Prop :=
  match op with
  | TyPut k v => encode_key k = Err e ∨ encode v = Err e
  | TyGet k | TyDelete k | TyContains k => encode_key k = Err e
  end.

Fixpoint ty_accepts `{!EqDecision K} (m : TyMap) (trace : list (TyOp * typed_result TyOut)) : Prop :=
  match trace with
  | [] => True
  | (op, Ok r) :: trace => r = (ty_map_step op m).2 ∧ ty_accepts (ty_map_step op m).1 trace
  | (op, Err (Codec e)) :: trace => ty_codec_error op e ∧ ty_accepts m trace
  | (op, Err (Store _)) :: trace => ty_accepts m trace
  end.

Fixpoint ty_clock_ok (now : Z) (script : list (Z * TyOp)) : Prop :=
  match script with
  | [] => True
  | (t, _) :: script => later now t ∧ ty_clock_ok t script
  end.
End Model.
Arguments TypedKvStore : clear implicits.
Arguments TyOp : clear implicits.
Arguments TyOut : clear implicits.

Section Theory.
Context {S K V E : Type} `{KS : !KvStore S, TC : !TypedCodec K V E, TCL : !TypedCodecLaws K V E, !EqDecision K}.
Context {rel : Z → S → gmap bytes bytes → Prop} {trel : Z → kv_Txn (S := S) → S → gmap bytes bytes → Prop} (sim : KvSim rel trel).
Implicit Types (t : TypedKvStore S) (m : K → option V).

(** The bytes under the encoding of a key are an encoding of its value. *)
Definition typed_bytes (b : gmap bytes bytes) m : Prop :=
  ∀ k kb, encode_key k = Ok kb →
    match m k with Some v => ∃ data, b !! kb = Some data ∧ decode data = Ok v | None => b !! kb = None end.

Definition typed_rel (now : Z) t m : Prop := ∃ b, rel now (ty_inner t) b ∧ typed_bytes b m.

Lemma typed_bytes_put b m k v kb data : encode_key k = Ok kb → encode v = Ok data → typed_bytes b m →
  typed_bytes (<[kb:=data]> b) (ty_update k (Some v) m).
Proof.
  intros Hk Hv Hb k' kb' Hk'. unfold ty_update. case_decide as Heq.
  - subst k'. rewrite Hk in Hk'. injection Hk' as <-. exists data. split; [apply lookup_insert_eq|by apply decode_encode].
  - rewrite lookup_insert_ne; [by apply Hb|]. intros <-. by destruct Heq; eapply encode_key_inj.
Qed.

Lemma typed_bytes_delete b m k kb : encode_key k = Ok kb → typed_bytes b m → typed_bytes (delete kb b) (ty_update k None m).
Proof.
  intros Hk Hb k' kb' Hk'. unfold ty_update. case_decide as Heq.
  - subst k'. rewrite Hk in Hk'. injection Hk' as <-. apply lookup_delete_eq.
  - rewrite lookup_delete_ne; [by apply Hb|]. intros <-. by destruct Heq; eapply encode_key_inj.
Qed.

Definition ty_ok (now : Z) (op : TyOp K V) m (p : TypedKvStore S * result (TyOut V) (TypedKvError E)) : Prop :=
  match p.2 with
  | Ok r => r = (ty_map_step op m).2 ∧ typed_rel now p.1 (ty_map_step op m).1
  | Err (Codec e) => ty_codec_error op e ∧ typed_rel now p.1 m
  | Err (Store _) => typed_rel now p.1 m
  end.

Lemma typed_put_ok now k v t m : typed_rel now t m → ty_ok now (TyPut k v) m (ty_step now (TyPut k v) t).
Proof.
  intros Ht. unfold ty_step, typed_put, ty_ok. destruct (encode_key k) as [kb|e] eqn:Hk; [|simpl; auto].
  destruct (encode v) as [data|e] eqn:Hv; [|simpl; auto]. destruct Ht as (b & Hs & Hb). unfold ty_on.
  destruct (kv_put kb data (ty_inner t)) as [s r] eqn:Hp. apply (sim_put _ _ sim now) with (m := b) in Hp; [|done].
  destruct r as [[]|e]; simpl; [split; [done|]|]; eexists; (split; [exact Hp|]); [by apply typed_bytes_put|done].
Qed.

Lemma typed_delete_ok now k t m : typed_rel now t m → ty_ok now (TyDelete k) m (ty_step now (TyDelete k) t).
Proof.
  intros Ht. unfold ty_step, typed_delete, ty_ok. destruct (encode_key k) as [kb|e] eqn:Hk; [|simpl; auto].
  destruct Ht as (b & Hs & Hb). unfold ty_on.
  destruct (kv_delete kb (ty_inner t)) as [s r] eqn:Hp. apply (sim_delete _ _ sim now) with (m := b) in Hp; [|done].
  destruct r as [[]|e]; simpl; [split; [done|]|]; eexists; (split; [exact Hp|]); [by apply typed_bytes_delete|done].
Qed.

Lemma typed_get_ok now k t m : typed_rel now t m → ty_ok now (TyGet k) m (ty_step now (TyGet k) t).
Proof.
  intros Ht. unfold ty_step, typed_get, ty_ok. destruct (encode_key k) as [kb|e] eqn:Hk; [|simpl; auto].
  destruct Ht as (b & Hs & Hb). unfold ty_on.
  destruct (kv_get now kb (ty_inner t)) as [s r] eqn:Hp. apply (sim_get _ _ sim now) with (m := b) in Hp as [Hs' Ho]; [|done].
  assert (typed_rel now {| ty_inner := s |} m) as Hrel by (by exists b). specialize (Hb k kb Hk).
  destruct r as [o|e]; simpl; [|done]. rewrite (Ho o eq_refl). destruct (m k) as [v|] eqn:Hm.
  - destruct Hb as (data & -> & ->). by simpl.
  - rewrite Hb. by simpl.
Qed.

Lemma typed_contains_ok now k t m : typed_rel now t m → ty_ok now (TyContains k) m (ty_step now (TyContains k) t).
Proof.
  intros Ht. unfold ty_step, typed_contains, ty_ok. destruct (encode_key k) as [kb|e] eqn:Hk; [|simpl; auto].
  destruct Ht as (b & Hs & Hb). unfold ty_on.
  destruct (kv_contains now kb (ty_inner t)) as [s r] eqn:Hp. apply (sim_contains _ _ sim now) with (m := b) in Hp as [Hs' Ho]; [|done].
  assert (typed_rel now {| ty_inner := s |} m) as Hrel by (by exists b). specialize (Hb k kb Hk).
  destruct r as [o|e]; simpl; [|done]. split; [|done]. rewrite (Ho o eq_refl). f_equal. destruct (m k) as [v|].
  - destruct Hb as (data & -> & _). done.
  - by rewrite Hb.
Qed.

Lemma ty_step_ok now op t m : typed_rel now t m → ty_ok now op m (ty_step now op t).
Proof. destruct op; [apply typed_put_ok|apply typed_get_ok|apply typed_delete_ok|apply typed_contains_ok]. Qed.

Lemma ty_run_spec now script t m t' trace : typed_rel now t m → ty_clock_ok now script → ty_run script t = (t', trace) → ty_accepts m trace.
Proof.
  revert now t m trace.
  induction script as [|[i op] script IH]; intros now t m trace Ht Hc; simpl; [by intros [= _ <-]|]. destruct Hc as [Hi Hc].
  assert (typed_rel i t m) as Hti. { destruct Ht as (b & Hs & Hb). exists b. split; [by apply (sim_later _ _ sim now)|done]. }
  pose proof (ty_step_ok i op t m Hti) as Hok. unfold ty_ok in Hok. destruct (ty_step i op t) as [t1 r]. simpl in Hok.
  destruct (ty_run script t1) as [t2 trace'] eqn:Hr. intros [= -> <-]. simpl.
  destruct r as [out|[e|e]]; [destruct Hok as [H1 H2]; split; [done|]; exact (IH _ _ _ _ H2 Hc Hr)..|exact (IH _ _ _ _ Hok Hc Hr)].
Qed.

(** A typed store over any store that simulates a map is a map from keys to values:
    every history answers as the map does, a call fails with a codec error only when
    its own key or value has no encoding, and a failed call changes nothing. *)
Theorem typed_store_refines_map now script s m t' trace :
  typed_rel now (typed_new s) m → ty_clock_ok now script → ty_run script (typed_new s) = (t', trace) → ty_accepts m trace.
Proof. apply ty_run_spec. Qed.
End Theory.

(** ** An instance: values as unary numbers, keys quoted *)
Module ToyTyped.
#[local] Instance toy_codec : TypedCodec bytes nat string := {|
  encode n := if 100 <? n then Err "too large"%string else Ok (replicate n x31);
  decode data := Ok (length data);
  encode_key k := Ok (x22 :: k ++ [x22]);
|}.

#[local] Instance toy_codec_laws : TypedCodecLaws bytes nat string.
Proof.
  split; simpl.
  - intros v data. destruct (100 <? v); [done|]. intros [= <-]. by rewrite length_replicate.
  - intros k k' data [= <-] [= Heq]. by apply app_inj_tail in Heq as [-> _].
Qed.

Definition demo_ops : list (Z * TyOp bytes nat) :=
  [(1%Z, TyPut [x61] 3); (2%Z, TyGet [x61]); (3%Z, TyPut [x61] 500); (4%Z, TyContains [x62]); (5%Z, TyDelete [x61]); (6%Z, TyGet [x61])].

Lemma typed_store_refines_map_witness :
  ty_accepts (λ _, None) (ty_run demo_ops (typed_new (∅ : gmap bytes bytes))).2 ∧
  (ty_run demo_ops (typed_new (∅ : gmap bytes bytes))).2 =
  [(TyPut [x61] 3, Ok TyUnit); (TyGet [x61], Ok (TyValue (Some 3))); (TyPut [x61] 500, Err (Codec "too large"%string));
   (TyContains [x62], Ok (TyBool false)); (TyDelete [x61], Ok TyUnit); (TyGet [x61], Ok (TyValue None))].
Proof.
  split; [|by vm_compute].
  refine (typed_store_refines_map lawful_sim 0 demo_ops (∅ : gmap bytes bytes) (λ _, None) (ty_run demo_ops (typed_new (∅ : gmap bytes bytes))).1 _ _ _ _).
  - exists ∅. split; [done|]. intros k kb _. apply lookup_empty.
  - unfold ty_clock_ok, demo_ops, later. repeat split; vm_compute; discriminate.
  - apply surjective_pairing.
Defined.
End ToyTyped.
