(* ===== verification/Url.v ===== *)
(** * Percent encoding, and the dates of a request

    The encoders of object keys of the S3, Azure and GCS blob stores on the bytes of
    the key, and the calendar of [oxistore-blob-azure/src/sign.rs] that dates a signed
    request.  Both are compared with reference definitions: the decoding of RFC 3986,
    and counting days one by one in the Gregorian calendar. *)

From S2P Require Import Prelude Bytes.

(** The bytes of an ASCII literal. *)
Definition ascii (s : string) : bytes := String.list_byte_of_string s.

(** [b'A'..=b'Z' | b'a'..=b'z' | b'0'..=b'9' | b'-' | b'_' | b'.' | b'~'] *)
Definition unreserved (b : byte) : bool :=
  let z := byte_Z b in
  ((65 <=? z) && (z <=? 90) || (97 <=? z) && (z <=? 122) || (48 <=? z) && (z <=? 57))%Z
  || bool_decide (b ∈ ascii "-_.~").

Definition is_slash (b : byte) : bool := bool_decide (b = x2f).

(** The digit of [{:02X}]. *)
Definition hex_upper (n : Z) : byte := if (n <? 10)%Z then Z_byte (48 + n) else Z_byte (65 + n - 10).

(** [format!("%{other:02X}")] *)
Definition escape_byte (b : byte) : bytes := [x25; hex_upper (Z.shiftr (byte_Z b) 4); hex_upper (Z.land (byte_Z b) 15)].

(** [percent_encode] of the S3 store keeps the slashes. *)
Definition percent_encode (s : bytes) : bytes := flat_map (λ b, if unreserved b || is_slash b then [b] else escape_byte b) s.

(** [percent_encode] and [hex_nibble] of the Azure store. *)
Definition azure_hex_nibble (n : Z) : byte := if (n <? 10)%Z then Z_byte (48 + n) else Z_byte (65 + n - 10).

Fixpoint azure_percent_encode (s : bytes) : bytes :=
  match s with
  | [] => []
  | b :: s =>
      (if unreserved b || is_slash b then [b]
       else [x25; azure_hex_nibble (Z.shiftr (byte_Z b) 4); azure_hex_nibble (Z.land (byte_Z b) 15)]) ++ azure_percent_encode s
  end.

(** [char::from_digit(n, 16).unwrap_or('0').to_ascii_uppercase()] *)
Definition from_digit_upper (n : Z) : byte := if (n <? 16)%Z then hex_upper n else x30.

Fixpoint gcs_percent_encode (s : bytes) : bytes :=
  match s with
  | [] => []
  | b :: s =>
      (if unreserved b then [b]
       else [x25; from_digit_upper (Z.shiftr (byte_Z b) 4); from_digit_upper (Z.land (byte_Z b) 15)]) ++ gcs_percent_encode s
  end.

(** ** The reference: RFC 3986, section 2.1 *)
Definition hex_value (b : byte) : option Z :=
  let z := byte_Z b in
  if ((48 <=? z) && (z <=? 57))%Z then Some (z - 48)%Z
  else if ((65 <=? z) && (z <=? 70))%Z then Some (z - 55)%Z
  else if ((97 <=? z) && (z <=? 102))%Z then Some (z - 87)%Z
  else None.

Fixpoint percent_decode (s : bytes) : option bytes :=
  match s with
  | [] => Some []
  | c :: rest =>
      if bool_decide (c = x25) then
        match rest with
        | h :: l :: s' =>
            hi ← hex_value h; lo ← hex_value l;
            t ← percent_decode s'; Some (Z_byte (hi * 16 + lo) :: t)
        | _ => None
        end
      else t ← percent_decode rest; Some (c :: t)
  end.

(** The bytes that may appear in an encoded key. *)
Definition url_safe (b : byte) : bool := unreserved b || is_slash b || bool_decide (b = x25).

Definition encode_byte (keep : byte → bool) (b : byte) : bytes := if keep b then [b] else escape_byte b.

Lemma percent_encode_flat s : percent_encode s = flat_map (encode_byte (λ b, unreserved b || is_slash b)) s.
Proof. done. Qed.

Lemma gcs_percent_encode_flat s : gcs_percent_encode s = flat_map (encode_byte unreserved) s.
Proof. induction s as [|b s IH]; [done|]. cbn [gcs_percent_encode flat_map]. rewrite IH. f_equal. by destruct b. Qed.

(** The encoders of the S3 and the Azure store agree. *)
Lemma azure_percent_encode_eq s : azure_percent_encode s = percent_encode s.
Proof. induction s as [|b s IH]; [done|]. cbn [azure_percent_encode]. by rewrite IH. Qed.

Lemma percent_decode_escape b rest : percent_decode (escape_byte b ++ rest) = t ← percent_decode rest; Some (b :: t).
Proof. by destruct b. Qed.

Lemma percent_decode_keep b rest : b ≠ x25 → percent_decode (b :: rest) = t ← percent_decode rest; Some (b :: t).
Proof. intros Hb. cbn [percent_decode]. by rewrite bool_decide_eq_false_2. Qed.

Lemma encode_decode keep s : keep x25 = false → percent_decode (flat_map (encode_byte keep) s) = Some s.
Proof.
  intros Hk. induction s as [|b s IH]; [done|]. cbn [flat_map]. unfold encode_byte at 1. destruct (keep b) eqn:Hb.
  - rewrite <-app_comm_cons, app_nil_l, percent_decode_keep by congruence. by rewrite IH.
  - rewrite percent_decode_escape. by rewrite IH.
Qed.

Lemma encode_safe keep s : (∀ b, keep b = true → url_safe b = true) → forallb url_safe (flat_map (encode_byte keep) s) = true.
Proof.
  intros Hk. induction s as [|b s IH]; [done|]. cbn [flat_map]. rewrite forallb_app, IH, andb_true_r. unfold encode_byte.
  destruct (keep b) eqn:Hb; [cbn [forallb]; by rewrite (Hk b Hb)|]. by destruct b.
Qed.

(** C24: Encoding a key loses nothing and leaves only characters that are safe in a URL:
    the decoding of RFC 3986 gives the key back for the encoders of all three stores, the
    encoder of GCS leaves no slash, and the encoders of S3 and Azure agree. *)
Theorem percent_encoding_lossless s :
  percent_decode (percent_encode s) = Some s ∧ percent_decode (gcs_percent_encode s) = Some s ∧
  azure_percent_encode s = percent_encode s ∧
  forallb url_safe (percent_encode s) = true ∧ forallb url_safe (gcs_percent_encode s) = true ∧ x2f ∉ gcs_percent_encode s.
Proof.
  rewrite percent_encode_flat, gcs_percent_encode_flat. split; [by apply encode_decode|]. split; [by apply encode_decode|].
  split; [apply azure_percent_encode_eq|]. split; [apply encode_safe; by intros []|]. split; [apply encode_safe; by intros []|].
  induction s as [|b s IH]; [by intros ?%not_elem_of_nil|]. cbn [flat_map]. rewrite elem_of_app. intros [Hin|Hin]; [|done].
  revert Hin. rewrite <-(bool_decide_eq_true (x2f ∈ encode_byte unreserved b)). by destruct b.
Qed.

(** ** The calendar of [sign.rs] *)
(** [epoch_to_calendar], from the days since the epoch on. *)
Definition civil_from_days (days : Z) : Z * Z * Z :=
  let z := (days + 719468)%Z in
  let era := (z / 146097)%Z in
  let doe := (z - era * 146097)%Z in
  let yoe := ((doe - doe / 1460 + doe / 36524 - doe / 146096) / 365)%Z in
  let y := (yoe + era * 400)%Z in
  let doy := (doe - (365 * yoe + yoe / 4 - yoe / 100))%Z in
  let mp := ((5 * doy + 2) / 153)%Z in
  let d := (doy - (153 * mp + 2) / 5 + 1)%Z in
  let m := (if mp <? 10 then mp + 3 else mp - 9)%Z in
  let y := (if m <=? 2 then y + 1 else y)%Z in
  (y, m, d).

Definition epoch_to_calendar (secs : Z) : (Z * Z * Z) * (Z * Z * Z) :=
  let sec := (secs mod 60)%Z in
  let mins := (secs / 60)%Z in
  let min := (mins mod 60)%Z in
  let hours := (mins / 60)%Z in
  let hour := (hours mod 24)%Z in
  let days := (hours / 24)%Z in
  (civil_from_days days, (hour, min, sec)).

Definition day_of_week (secs : Z) : Z := (secs / 86400 + 4) mod 7.

(** ** The reference: counting the days *)
Definition leap (y : Z) : bool := ((y mod 4 =? 0) && (negb (y mod 100 =? 0) || (y mod 400 =? 0)))%Z.

Definition days_in_month (is_leap : bool) (m : Z) : Z :=
  if bool_decide (m = 2%Z) then (if is_leap then 29 else 28)%Z
  else if bool_decide (m ∈ [4; 6; 9; 11]%Z) then 30%Z else 31%Z.

Definition next_day (date : Z * Z * Z) : Z * Z * Z :=
  let '(y, m, d) := date in
  if (d <? days_in_month (leap y) m)%Z then (y, m, d + 1)%Z
  else if (m <? 12)%Z then (y, m + 1, 1)%Z else (y + 1, 1, 1)%Z.

(** ** Years of an era, from March *)
Definition yoe_of (doe : Z) : Z := ((doe - doe / 1460 + doe / 36524 - doe / 146096) / 365)%Z.
Definition year_start (yoe : Z) : Z := (365 * yoe + yoe / 4 - yoe / 100)%Z.
(** The last day of the year, from zero. *)
Definition year_last (yoe : Z) : Z := if (yoe =? 399)%Z then 365%Z else (year_start (yoe + 1) - year_start yoe - 1)%Z.

Definition month_day (doy : Z) : Z * Z :=
  let mp := ((5 * doy + 2) / 153)%Z in
  ((if mp <? 10 then mp + 3 else mp - 9)%Z, (doy - (153 * mp + 2) / 5 + 1)%Z).

Definition date_of (era yoe doy : Z) : Z * Z * Z :=
  let '(m, d) := month_day doy in ((yoe + era * 400 + (if m <=? 2 then 1 else 0))%Z, m, d).

Definition upto (n : nat) : list Z := Z.of_nat <$> seq 0 n.

Lemma upto_spec (P : Z → bool) n : forallb P (upto n) = true → ∀ z, (0 ≤ z < Z.of_nat n)%Z → P z = true.
Proof.
  intros Hall z Hz. rewrite forallb_forall in Hall. apply Hall. apply list_elem_of_In, list_elem_of_fmap. exists (Z.to_nat z).
  split; [lia|]. apply elem_of_seq. lia.
Qed.

Lemma yoe_mono a b : (0 ≤ a ≤ b)%Z → (b ≤ 146096)%Z → (yoe_of a ≤ yoe_of b)%Z.
Proof. intros Ha Hb. unfold yoe_of. apply Z.div_le_mono; [lia|]. Z.to_euclidean_division_equations. lia. Qed.

Lemma year_bounds yoe : (0 ≤ yoe < 400)%Z →
  yoe_of (year_start yoe) = yoe ∧ yoe_of (year_start yoe + year_last yoe) = yoe ∧ (0 ≤ year_start yoe)%Z ∧
  (year_start yoe + year_last yoe ≤ 146096)%Z ∧
  year_last yoe = (if leap (yoe + 1) then 365 else 364)%Z ∧ (yoe < 399 → year_start (yoe + 1) = year_start yoe + year_last yoe + 1)%Z.
Proof.
  intros Hy. pose proof (upto_spec (λ y, (yoe_of (year_start y) =? y) && (yoe_of (year_start y + year_last y) =? y) && (0 <=? year_start y)
    && (year_start y + year_last y <=? 146096) && (year_last y =? (if leap (y + 1) then 365 else 364))
    && ((399 <=? y) || (year_start (y + 1) =? year_start y + year_last y + 1)))%Z 400 ltac:(by vm_compute) yoe ltac:(lia)) as H.
  repeat (apply andb_true_iff in H as [H ?]). rewrite ?Z.eqb_eq, ?Z.leb_le, ?orb_true_iff, ?Z.leb_le, ?Z.eqb_eq in *. lia.
Qed.

Lemma yoe_of_day yoe doy : (0 ≤ yoe < 400)%Z → (0 ≤ doy ≤ year_last yoe)%Z → yoe_of (year_start yoe + doy) = yoe.
Proof.
  intros Hy Hd. destruct (year_bounds yoe Hy) as (H1 & H2 & H3 & H4 & _).
  pose proof (yoe_mono (year_start yoe) (year_start yoe + doy) ltac:(lia) ltac:(lia)).
  pose proof (yoe_mono (year_start yoe + doy) (year_start yoe + year_last yoe) ltac:(lia) ltac:(lia)). lia.
Qed.

Lemma civil_date era yoe doy days : (0 ≤ yoe < 400)%Z → (0 ≤ doy ≤ year_last yoe)%Z →
  (days + 719468 = era * 146097 + (year_start yoe + doy))%Z → civil_from_days days = date_of era yoe doy.
Proof.
  intros Hy Hd Hz. destruct (year_bounds yoe Hy) as (_ & _ & H3 & H4 & _).
  assert ((days + 719468) / 146097 = era)%Z as He by (rewrite Hz; Z.to_euclidean_division_equations; lia).
  unfold civil_from_days. cbn zeta. rewrite He.
  replace (days + 719468 - era * 146097)%Z with (year_start yoe + doy)%Z by lia.
  change ((year_start yoe + doy - (year_start yoe + doy) / 1460 + (year_start yoe + doy) / 36524 - (year_start yoe + doy) / 146096) / 365)%Z
    with (yoe_of (year_start yoe + doy)). rewrite yoe_of_day by done. unfold date_of, month_day.
  replace (year_start yoe + doy - (365 * yoe + yoe / 4 - yoe / 100))%Z with doy by (unfold year_start; lia).
  destruct (_ <=? 2)%Z; [done|]. f_equal. f_equal. lia.
Qed.

Lemma leap_era y era : leap (y + era * 400) = leap y.
Proof.
  unfold leap. replace (y + era * 400)%Z with (y + (era * 100) * 4)%Z at 1 by lia. rewrite Z.mod_add by lia.
  replace (y + era * 400)%Z with (y + (era * 4) * 100)%Z at 1 by lia. by rewrite !Z.mod_add by lia.
Qed.

(** The next day within a year: the month and day do not depend on the year except at the
    end of February. *)
Lemma month_day_step y doy : (0 ≤ doy)%Z → (doy < if leap (y + 1) then 365 else 364)%Z →
  let date doy := let '(m, d) := month_day doy in ((y + (if m <=? 2 then 1 else 0))%Z, m, d) in
  next_day (date doy) = date (doy + 1)%Z.
Proof.
  intros H0 Hlt. pose (check l doy := let '(m, d) := month_day doy in let '(m', d') := month_day (doy + 1) in
    bool_decide (((if d <? days_in_month l m then (0, m, d + 1) else if m <? 12 then (0, m + 1, 1) else (1, 1, 1))
      : Z * Z * Z) = ((if m' <=? 2 then 1 else 0) - (if m <=? 2 then 1 else 0), m', d'))%Z).
  assert (check (leap (y + 1)) doy = true) as Hc.
  { destruct (leap (y + 1)).
    - apply (upto_spec (check true) 365); [by vm_compute|lia].
    - apply (upto_spec (check false) 364); [by vm_compute|lia]. }
  assert (∀ m d, month_day doy = (m, d) → days_in_month (leap (y + (if (m <=? 2)%Z then 1 else 0))) m = days_in_month (leap (y + 1)) m) as Hl.
  { intros m d _. destruct (Z.leb_spec m 2); [done|]. unfold days_in_month. by rewrite !(bool_decide_eq_false_2 (m = 2%Z)) by lia. }
  unfold check in Hc. cbn zeta. destruct (month_day doy) as [m d] eqn:E1. destruct (month_day (doy + 1)) as [m' d'] eqn:E2. rewrite ?E1, ?E2.
  apply bool_decide_eq_true_1 in Hc. unfold next_day.
  rewrite (Hl m d eq_refl).
  destruct (d <? _)%Z; [|destruct (m <? 12)%Z]; injection Hc as Hy Hm Hd; rewrite <-Hm, <-Hd in *; f_equal; f_equal; lia.
Qed.

Lemma date_of_first era yoe : date_of era yoe 0 = (yoe + era * 400, 3, 1)%Z.
Proof. unfold date_of. change (month_day 0) with (3, 1)%Z. change (3 <=? 2)%Z with false. cbv iota. by rewrite Z.add_0_r. Qed.

Lemma next_day_date era yoe doy : (0 ≤ yoe < 400)%Z → (0 ≤ doy ≤ year_last yoe)%Z →
  next_day (date_of era yoe doy) =
    if (doy <? year_last yoe)%Z then date_of era yoe (doy + 1) else if (yoe <? 399)%Z then date_of era (yoe + 1) 0 else date_of (era + 1) 0 0.
Proof.
  intros Hy Hd. destruct (year_bounds yoe Hy) as (_ & _ & _ & _ & Hlast & _).
  assert (leap (yoe + era * 400 + 1) = leap (yoe + 1)) as Hleap.
  { replace (yoe + era * 400 + 1)%Z with (yoe + 1 + era * 400)%Z by lia. apply leap_era. }
  destruct (Z.ltb_spec doy (year_last yoe)) as [Hlt|Hge].
  - apply month_day_step; [lia|]. rewrite Hleap. lia.
  - assert (doy = if leap (yoe + 1) then 365 else 364)%Z as -> by lia.
    assert (next_day (date_of era yoe (if leap (yoe + 1) then 365 else 364)%Z) = (yoe + era * 400 + 1, 3, 1)%Z) as ->.
    { unfold date_of. assert (month_day (if leap (yoe + 1) then 365 else 364)%Z = (2, if leap (yoe + 1) then 29 else 28)%Z) as ->.
      { by destruct (leap (yoe + 1)). }
      cbn [next_day]. change (2 <=? 2)%Z with true. cbv iota. rewrite Hleap. by destruct (leap (yoe + 1)). }
    destruct (Z.ltb_spec yoe 399); rewrite date_of_first; f_equal; f_equal; lia.
Qed.

(** The day [n] of the reference has a place in some year of some era. *)
Lemma days_placed n : ∃ era yoe doy, (0 ≤ yoe < 400)%Z ∧ (0 ≤ doy ≤ year_last yoe)%Z ∧
  (Z.of_nat n + 719468 = era * 146097 + (year_start yoe + doy))%Z ∧ Nat.iter n next_day (1970, 1, 1)%Z = date_of era yoe doy.
Proof.
  induction n as [|n (era & yoe & doy & Hy & Hd & Hz & Hn)].
  - exists 4%Z, 369%Z, 306%Z. split; [lia|]. split; [by vm_compute|]. done.
  - change (Nat.iter (S n) next_day (1970, 1, 1)%Z) with (next_day (Nat.iter n next_day (1970, 1, 1)%Z)). rewrite Hn, next_day_date by done. destruct (year_bounds yoe Hy) as (_ & _ & _ & _ & _ & Hnext).
    destruct (Z.ltb_spec doy (year_last yoe)) as [Hlt|Hge].
    + exists era, yoe, (doy + 1)%Z. split; [done|]. split; [lia|]. split; [lia|done].
    + destruct (Z.ltb_spec yoe 399) as [Hlt|Hge'].
      * exists era, (yoe + 1)%Z, 0%Z. split; [lia|]. split; [|split; [lia|done]].
        destruct (year_bounds (yoe + 1) ltac:(lia)) as (_ & _ & _ & _ & -> & _). destruct (leap _); lia.
      * assert (yoe = 399)%Z as -> by lia. exists (era + 1)%Z, 0%Z, 0%Z. split; [lia|]. split; [by vm_compute|]. split; [|done].
        change (year_start 399 + doy)%Z with (145731 + doy)%Z in Hz. change (year_last 399) with 365%Z in *. change (year_start 0) with 0%Z. lia.
Qed.

(** C25: The date of a signed request is the one obtained by counting days from
    1 January 1970 in the Gregorian calendar, for every second of every day. *)
Theorem epoch_to_calendar_correct n h mi s : (0 ≤ h < 24)%Z → (0 ≤ mi < 60)%Z → (0 ≤ s < 60)%Z →
  epoch_to_calendar (Z.of_nat n * 86400 + h * 3600 + mi * 60 + s) = (Nat.iter n next_day (1970, 1, 1)%Z, (h, mi, s)) ∧
  day_of_week (Z.of_nat n * 86400 + h * 3600 + mi * 60 + s) = ((Z.of_nat n + 4) mod 7)%Z.
Proof.
  intros Hh Hm Hs. set (t := (Z.of_nat n * 86400 + h * 3600 + mi * 60 + s)%Z).
  assert (t mod 60 = s ∧ t / 60 = Z.of_nat n * 1440 + h * 60 + mi)%Z as [H1 H2] by (unfold t; Z.to_euclidean_division_equations; lia).
  assert ((t / 60) mod 60 = mi ∧ t / 60 / 60 = Z.of_nat n * 24 + h)%Z as [H3 H4] by (rewrite H2; Z.to_euclidean_division_equations; lia).
  assert ((t / 60 / 60) mod 24 = h ∧ t / 60 / 60 / 24 = Z.of_nat n)%Z as [H5 H6] by (rewrite H4; Z.to_euclidean_division_equations; lia).
  assert (t / 86400 = Z.of_nat n)%Z as H7 by (unfold t; Z.to_euclidean_division_equations; lia).
  unfold epoch_to_calendar, day_of_week. cbn zeta. rewrite H1, H3, H5, H6, H7. split; [|done]. f_equal.
  destruct (days_placed n) as (era & yoe & doy & Hy & Hd & Hz & ->). by apply civil_date.
Qed.

Lemma epoch_to_calendar_correct_witness : epoch_to_calendar 68255999 = ((1972, 2, 29)%Z, (23, 59, 59)%Z) ∧
  Nat.iter 789 next_day (1970, 1, 1)%Z = (1972, 2, 29)%Z.
Proof.
  destruct (epoch_to_calendar_correct 789 23 59 59 ltac:(lia) ltac:(lia) ltac:(lia)) as [H _].
  change (Z.of_nat 789 * 86400 + 23 * 3600 + 59 * 60 + 59)%Z with 68255999%Z in H.
  assert (epoch_to_calendar 68255999 = ((1972, 2, 29)%Z, (23, 59, 59)%Z)) as Hc by (vm_compute; reflexivity).
  rewrite Hc in H. split; [exact Hc|]. exact (eq_sym (f_equal fst H)).
Defined.
