(* ===== verification/Hashlink.v ===== *)
(** * The interface of [hashlink::LinkedHashMap]

    All caches of [oxistore-cache] keep their entries in linked hash maps of the
    third-party crate [hashlink].  The operations the caches call are the class
    [LinkedHashMap]; what its documentation promises, in terms of the front-to-back
    iteration, is the class [LinkedHashMapLaws].  The client files are proved for every
    map that satisfies the laws; [list_lhm] is a concrete map that does, used to
    evaluate the models on concrete inputs. *)

From S2P Require Import Prelude.

(** ** Association lists, front to back *)
Section Assoc.
Context {K : Type} `{!EqDecision K} {V : Type}.
Implicit Types (k : K) (v : V) (l : list (K * V)).

Fixpoint assoc k l : option V :=
  match l with
  | [] => None
  | (k', v) :: l => if decide (k' = k) then Some v else assoc k l
  end.

Fixpoint assoc_remove k l : list (K * V) :=
  match l with
  | [] => []
  | (k', v) :: l => if decide (k' = k) then assoc_remove k l else (k', v) :: assoc_remove k l
  end.

Fixpoint assoc_update k (f : V → V) l : list (K * V) :=
  match l with
  | [] => []
  | (k', v) :: l => (if decide (k' = k) then (k', f v) else (k', v)) :: assoc_update k f l
  end.

(** Inserting moves (or adds) the entry to the back. *)
Definition assoc_push k v l : list (K * V) := assoc_remove k l ++ [(k, v)].

(** Moving an existing entry to the back. *)
Definition assoc_to_back k l : list (K * V) :=
  match assoc k l with Some v => assoc_push k v l | None => l end.

Lemma assoc_None k l : assoc k l = None ↔ k ∉ l.*1.
Proof.
  induction l as [|[k' v] l IH]; csimpl; [set_solver|].
  rewrite not_elem_of_cons. case_decide; naive_solver.
Qed.

Lemma assoc_is_Some k l : is_Some (assoc k l) ↔ k ∈ l.*1.
Proof.
  rewrite <-not_eq_None_Some, assoc_None. split; [apply dec_stable|tauto].
Qed.

Lemma assoc_elem_of k v l : NoDup l.*1 → assoc k l = Some v ↔ (k, v) ∈ l.
Proof.
  induction l as [|[k' v'] l IH]; csimpl.
  { intros _. split; [done|]. by intros ?%not_elem_of_nil. }
  intros [Hk Hl]%NoDup_cons. rewrite elem_of_cons. case_decide as E.
  - subst. split; [intros [= ->]; auto|]. intros [[=]|Hin]; [congruence|].
    destruct Hk. by apply (list_elem_of_fmap_2 fst _ (k, v)).
  - rewrite IH by done. naive_solver.
Qed.

Lemma assoc_remove_id k l : k ∉ l.*1 → assoc_remove k l = l.
Proof.
  induction l as [|[k' v] l IH]; csimpl; [done|].
  rewrite not_elem_of_cons. intros [? ?]. case_decide; [naive_solver|]. by rewrite IH.
Qed.

Lemma assoc_remove_keys k k' l : k' ∈ (assoc_remove k l).*1 ↔ k' ≠ k ∧ k' ∈ l.*1.
Proof.
  induction l as [|[k0 v] l IH]; csimpl; [set_solver|].
  case_decide; csimpl; rewrite ?elem_of_cons, IH; naive_solver.
Qed.

Lemma assoc_remove_NoDup k l : NoDup l.*1 → NoDup (assoc_remove k l).*1.
Proof.
  induction l as [|[k' v] l IH]; csimpl; [done|]. intros [? ?]%NoDup_cons.
  case_decide; [auto|]. csimpl. constructor; [rewrite assoc_remove_keys; tauto|auto].
Qed.

Lemma assoc_remove_eq k l : assoc k (assoc_remove k l) = None.
Proof. rewrite assoc_None, assoc_remove_keys. tauto. Qed.

Lemma assoc_remove_ne k k' l : k ≠ k' → assoc k' (assoc_remove k l) = assoc k' l.
Proof.
  intros Hne. induction l as [|[k0 v] l IH]; simpl; [done|].
  repeat (case_decide; simpl; try congruence).
Qed.

Lemma assoc_app k l1 l2 :
  assoc k (l1 ++ l2) = match assoc k l1 with Some v => Some v | None => assoc k l2 end.
Proof. induction l1 as [|[k' v] l1 IH]; simpl; [done|]. by case_decide. Qed.

Lemma assoc_remove_app k l1 l2 :
  assoc_remove k (l1 ++ l2) = assoc_remove k l1 ++ assoc_remove k l2.
Proof. induction l1 as [|[k' v] l1 IH]; simpl; [done|]. case_decide; simpl; by rewrite IH. Qed.

Lemma assoc_push_eq k v l : assoc k (assoc_push k v l) = Some v.
Proof. unfold assoc_push. rewrite assoc_app, assoc_remove_eq. simpl. by rewrite decide_True. Qed.

Lemma assoc_push_ne k k' v l : k ≠ k' → assoc k' (assoc_push k v l) = assoc k' l.
Proof.
  intros. unfold assoc_push. rewrite assoc_app, assoc_remove_ne by done. simpl.
  rewrite decide_False by done. by destruct (assoc k' l).
Qed.

Lemma assoc_push_NoDup k v l : NoDup l.*1 → NoDup (assoc_push k v l).*1.
Proof.
  intros. unfold assoc_push. rewrite fmap_app. apply NoDup_app. split_and!.
  - by apply assoc_remove_NoDup.
  - intros k'. rewrite assoc_remove_keys. csimpl. set_solver.
  - csimpl. apply NoDup_singleton.
Qed.

Lemma assoc_push_keys k v l k' : k' ∈ (assoc_push k v l).*1 ↔ k' = k ∨ k' ∈ l.*1.
Proof.
  unfold assoc_push. rewrite fmap_app, elem_of_app, assoc_remove_keys. csimpl.
  rewrite list_elem_of_singleton. destruct (decide (k' = k)); naive_solver.
Qed.

Lemma assoc_remove_length k l :
  NoDup l.*1 → length (assoc_remove k l) = length l - (if assoc k l is Some _ then 1 else 0).
Proof.
  induction l as [|[k' v] l IH]; csimpl; [done|]. intros [Hk Hl]%NoDup_cons.
  case_decide; simpl; [subst; rewrite assoc_remove_id by done; lia|].
  rewrite IH by done. destruct (assoc k l) eqn:E; [|lia].
  assert (k ∈ l.*1) as Hin by (apply assoc_is_Some; eauto).
  destruct l; [set_solver|simpl; lia].
Qed.

Lemma assoc_push_length k v l :
  NoDup l.*1 → length (assoc_push k v l) = length l + (if assoc k l is Some _ then 0 else 1).
Proof.
  intros. unfold assoc_push. rewrite length_app, assoc_remove_length by done. simpl.
  destruct (assoc k l) eqn:E; [|lia].
  assert (k ∈ l.*1) as Hin by (apply assoc_is_Some; eauto).
  destruct l; [set_solver|simpl; lia].
Qed.

Lemma assoc_to_back_NoDup k l : NoDup l.*1 → NoDup (assoc_to_back k l).*1.
Proof. unfold assoc_to_back. destruct (assoc k l); auto using assoc_push_NoDup. Qed.

Lemma assoc_to_back_lookup k k' l : assoc k' (assoc_to_back k l) = assoc k' l.
Proof.
  unfold assoc_to_back. destruct (assoc k l) as [v|] eqn:E; [|done].
  destruct (decide (k = k')) as [<-|]; [by rewrite assoc_push_eq|by rewrite assoc_push_ne].
Qed.

Lemma assoc_to_back_length k l : NoDup l.*1 → length (assoc_to_back k l) = length l.
Proof.
  intros. unfold assoc_to_back. destruct (assoc k l) eqn:E; [|done].
  rewrite assoc_push_length, E by done. lia.
Qed.

Lemma assoc_update_keys k f l : (assoc_update k f l).*1 = l.*1.
Proof. induction l as [|[k' v] l IH]; csimpl; [done|]. case_decide; csimpl; by rewrite IH. Qed.

Lemma assoc_update_eq k f l : assoc k (assoc_update k f l) = f <$> assoc k l.
Proof. induction l as [|[k' v] l IH]; simpl; [done|]. by repeat (case_decide; simpl). Qed.

Lemma assoc_update_ne k k' f l : k ≠ k' → assoc k' (assoc_update k f l) = assoc k' l.
Proof.
  intros. induction l as [|[k0 v] l IH]; simpl; [done|].
  repeat (case_decide; simpl; try congruence).
Qed.

Lemma assoc_update_length k f l : length (assoc_update k f l) = length l.
Proof. induction l as [|[k' v] l IH]; simpl; [done|]. by rewrite IH. Qed.

(** The front of a duplicate-free list. *)
Lemma assoc_cons_tail k v l k' :
  NoDup ((k, v) :: l).*1 → assoc k' l = if decide (k = k') then None else assoc k' ((k, v) :: l).
Proof.
  csimpl. intros [Hk Hl]%NoDup_cons. case_decide; [|done]. subst. by apply assoc_None.
Qed.
End Assoc.

(** ** The operations of [LinkedHashMap] used by the caches *)
Class LinkedHashMap (K : Type) (M : Type → Type) := {
  lhm_iter : ∀ {V}, M V → list (K * V);
  lhm_new : ∀ {V}, M V;
  lhm_len : ∀ {V}, M V → nat;
  lhm_contains_key : ∀ {V}, K → M V → bool;
  lhm_get : ∀ {V}, K → M V → option V;
  lhm_insert : ∀ {V}, K → V → M V → M V * option V;
  lhm_remove : ∀ {V}, K → M V → M V * option V;
  lhm_pop_front : ∀ {V}, M V → M V * option (K * V);
  lhm_front : ∀ {V}, M V → option (K * V);
  lhm_to_back : ∀ {V}, K → M V → M V;
  lhm_get_mut : ∀ {V}, K → (V → V) → M V → M V;
  lhm_clear : ∀ {V}, M V → M V;
}.

Class LinkedHashMapLaws (K : Type) `{!EqDecision K} (M : Type → Type) `{!LinkedHashMap K M} : Prop := {
  lhm_iter_NoDup {V} (m : M V) : NoDup (lhm_iter m).*1;
  lhm_iter_new {V} : lhm_iter (lhm_new (V:=V)) = [];
  lhm_len_iter {V} (m : M V) : lhm_len m = length (lhm_iter m);
  lhm_contains_key_iter {V} k (m : M V) :
    lhm_contains_key k m = bool_decide (is_Some (assoc k (lhm_iter m)));
  lhm_get_iter {V} k (m : M V) : lhm_get k m = assoc k (lhm_iter m);
  lhm_insert_iter {V} k v (m : M V) : lhm_iter (lhm_insert k v m).1 = assoc_push k v (lhm_iter m);
  lhm_insert_old {V} k v (m : M V) : (lhm_insert k v m).2 = assoc k (lhm_iter m);
  lhm_remove_iter {V} k (m : M V) : lhm_iter (lhm_remove k m).1 = assoc_remove k (lhm_iter m);
  lhm_remove_old {V} k (m : M V) : (lhm_remove k m).2 = assoc k (lhm_iter m);
  lhm_pop_front_iter {V} (m : M V) : lhm_iter (lhm_pop_front m).1 = tail (lhm_iter m);
  lhm_pop_front_old {V} (m : M V) : (lhm_pop_front m).2 = head (lhm_iter m);
  lhm_front_iter {V} (m : M V) : lhm_front m = head (lhm_iter m);
  lhm_to_back_iter {V} k (m : M V) : lhm_iter (lhm_to_back k m) = assoc_to_back k (lhm_iter m);
  lhm_get_mut_iter {V} k (f : V → V) (m : M V) :
    lhm_iter (lhm_get_mut k f m) = assoc_update k f (lhm_iter m);
  lhm_clear_iter {V} (m : M V) : lhm_iter (lhm_clear m) = [];
}.

(** [is_empty] *)
Definition lhm_is_empty {K M} `{!LinkedHashMap K M} {V} (m : M V) : bool :=
  bool_decide (lhm_len m = 0).

(** Rewriting every operation to its effect on the iteration. *)
Ltac lhm_simpl :=
  repeat (rewrite ?lhm_len_iter, ?lhm_contains_key_iter, ?lhm_get_iter, ?lhm_insert_iter,
    ?lhm_insert_old, ?lhm_remove_iter, ?lhm_remove_old, ?lhm_pop_front_iter, ?lhm_pop_front_old,
    ?lhm_front_iter, ?lhm_to_back_iter, ?lhm_get_mut_iter, ?lhm_clear_iter, ?lhm_iter_new; simpl).

Ltac lhm_simpl_in H :=
  repeat (rewrite ?lhm_len_iter, ?lhm_contains_key_iter, ?lhm_get_iter, ?lhm_insert_iter,
    ?lhm_insert_old, ?lhm_remove_iter, ?lhm_remove_old, ?lhm_pop_front_iter, ?lhm_pop_front_old,
    ?lhm_front_iter, ?lhm_to_back_iter, ?lhm_get_mut_iter, ?lhm_clear_iter, ?lhm_iter_new in H;
    simpl in H).

Create HintDb lhm.
#[export] Hint Resolve lhm_iter_NoDup assoc_remove_NoDup assoc_push_NoDup assoc_to_back_NoDup : lhm.

(** ** A concrete linked hash map *)
Section ListLhm.
Context {K : Type} `{!EqDecision K}.

(** Any list is read as the map that keeps the first entry of each key. *)
Fixpoint dedup_keys {V} (l : list (K * V)) : list (K * V) :=
  match l with
  | [] => []
  | (k, v) :: l => (k, v) :: assoc_remove k (dedup_keys l)
  end.

Lemma dedup_keys_NoDup {V} (l : list (K * V)) : NoDup (dedup_keys l).*1.
Proof.
  induction l as [|[k v] l IH]; csimpl; [constructor|].
  constructor; [rewrite assoc_remove_keys; tauto|by apply assoc_remove_NoDup].
Qed.

Lemma dedup_keys_id {V} (l : list (K * V)) : NoDup l.*1 → dedup_keys l = l.
Proof.
  induction l as [|[k v] l IH]; csimpl; [done|]. intros [? ?]%NoDup_cons.
  rewrite IH by done. by rewrite assoc_remove_id.
Qed.

#[global] Instance list_lhm : LinkedHashMap K (λ V, list (K * V)) := {|
  lhm_iter V l := dedup_keys l;
  lhm_new V := [];
  lhm_len V l := length (dedup_keys l);
  lhm_contains_key V k l := bool_decide (is_Some (assoc k (dedup_keys l)));
  lhm_get V k l := assoc k (dedup_keys l);
  lhm_insert V k v l := (assoc_push k v (dedup_keys l), assoc k (dedup_keys l));
  lhm_remove V k l := (assoc_remove k (dedup_keys l), assoc k (dedup_keys l));
  lhm_pop_front V l := (tail (dedup_keys l), head (dedup_keys l));
  lhm_front V l := head (dedup_keys l);
  lhm_to_back V k l := assoc_to_back k (dedup_keys l);
  lhm_get_mut V k f l := assoc_update k f (dedup_keys l);
  lhm_clear V l := [];
|}.

#[global] Instance list_lhm_laws : LinkedHashMapLaws K (λ V, list (K * V)).
Proof.
  assert (∀ V (l : list (K * V)), NoDup (tail (dedup_keys l)).*1) as Htl.
  { intros V l. pose proof (dedup_keys_NoDup l) as H. destruct (dedup_keys l); [done|].
    by apply NoDup_cons in H as [_ ?]. }
  split; intros; simpl; try done;
    first [apply dedup_keys_NoDup | apply dedup_keys_id]; try done;
    first [apply assoc_push_NoDup | apply assoc_remove_NoDup | apply assoc_to_back_NoDup
          | rewrite assoc_update_keys]; apply dedup_keys_NoDup.
Qed.
End ListLhm.
