(* ===== verification/Cache.v ===== *)
(** * [oxistore-cache]: entries with a deadline and the [Cache] trait

    [Cache] is the operation class of the trait, with one instance per eviction
    policy ([Lru.v], [Arc.v], [Lfu.v], [TinyLfu.v]).  [CacheLaws] states what the
    wrappers and the store adapters rely on: a cache never answers with
    something that was not put into it.  [Instant] is a number of nanoseconds;
    [now] is the clock reading of the call. *)

From S2P Require Import Prelude Hashlink.

Record CacheEntry (V : Type) := { value : V; expires_at : option Z }.
Arguments Build_CacheEntry {V} _ _.
Arguments value {V} _.
Arguments expires_at {V} _.

(** [CacheEntry::new] *)
Definition entry_new {V} (v : V) : CacheEntry V := {| value := v; expires_at := None |}.

(** [CacheEntry::with_ttl] for a deadline that an [Instant] can hold.  Beyond the 63 bits of
    its seconds, [Instant::now() + ttl] panics: [with_ttl] below.  The models of the policies
    are for calls whose deadline fits; that of the W-TinyLFU cache has the panic. *)
Definition entry_with_ttl {V} (now : Z) (v : V) (ttl : Z) : CacheEntry V :=
  {| value := v; expires_at := Some (now + ttl)%Z |}.

Definition INSTANT_SECS : Z := 9223372036854775808.
Definition deadline_fits (now ttl : Z) : bool := ((now + ttl) / 1000000000 <? INSTANT_SECS)%Z.

Definition with_ttl {V} (now : Z) (v : V) (ttl : Z) : option (CacheEntry V) :=
  if deadline_fits now ttl then Some (entry_with_ttl now v ttl) else None.

(** [CacheEntry::is_expired] *)
Definition entry_is_expired {V} (now : Z) (e : CacheEntry V) : bool :=
  match expires_at e with
  | Some deadline => (deadline <=? now)%Z
  | None => false
  end.

(** The value of an optional entry that has not expired. *)
Definition live_value {V} (now : Z) (oe : option (CacheEntry V)) : option V :=
  match oe with
  | Some e => if entry_is_expired now e then None else Some (value e)
  | None => None
  end.

(** [map(|e| e.is_expired()).unwrap_or(false)] *)
Definition opt_expired {V} (now : Z) (oe : option (CacheEntry V)) : bool :=
  match oe with Some e => entry_is_expired now e | None => false end.

(** [map(|e| !e.is_expired()).unwrap_or(false)] *)
Definition opt_live {V} (now : Z) (oe : option (CacheEntry V)) : bool :=
  match oe with Some e => negb (entry_is_expired now e) | None => false end.

(** ** The trait *)
Class Cache (K V C : Type) := {
  cache_get : Z → K → C → C * option V;
  cache_put : K → V → C → C * option V;
  cache_put_with_ttl : Z → K → V → Z → C → C * option V;
  cache_len : C → nat;
  cache_cap : C → nat;
  cache_remove : K → C → C * option V;
  cache_clear : C → C;
  cache_peek : Z → K → C → option V;
  cache_contains_key : Z → K → C → bool;
}.

(** Default methods *)
Section CacheDefaults.
Context {K V C : Type} `{!Cache K V C}.

Definition cache_is_empty (c : C) : bool := bool_decide (cache_len c = 0).

(** [get_or_insert]: [None] is the panic of [expect("key was just inserted")]. *)
Definition cache_get_or_insert (now : Z) (key : K) (default : unit → V) (c : C)
    : C * option V :=
  let c := if cache_contains_key now key c then c
           else (cache_put key (default ()) c).1 in
  (c, cache_peek now key c).

Fixpoint cache_warm (pairs : list (K * V)) (c : C) : C :=
  match pairs with
  | [] => c
  | (k, v) :: pairs => cache_warm pairs (cache_put k v c).1
  end.

(** The two critical sections of [get_or_insert_async]; the loader runs between
    them without the lock. *)
Definition goi_async_lookup (now : Z) (key : K) (c : C) : C * option V := cache_get now key c.

Definition goi_async_store (now : Z) (key : K) (v : V) (c : C) : C * V :=
  match cache_peek now key c with
  | Some existing => (c, existing)
  | None => ((cache_put key v c).1, v)
  end.
End CacheDefaults.

(** ** What the clients of a cache rely on *)
Class CacheWf (C : Type) := cache_wf : C → Prop.

Class CacheLaws (K V C : Type) `{!Cache K V C, !CacheWf C} : Prop := {
  cache_get_wf now k c : cache_wf c → cache_wf (cache_get now k c).1;
  cache_put_wf k v c : cache_wf c → cache_wf (cache_put k v c).1;
  cache_put_with_ttl_wf now k v ttl c : cache_wf c → cache_wf (cache_put_with_ttl now k v ttl c).1;
  cache_remove_wf k c : cache_wf c → cache_wf (cache_remove k c).1;
  cache_clear_wf c : cache_wf c → cache_wf (cache_clear c);
  (** a hit returns the live value of the key *)
  cache_get_hit now k c v :
    cache_wf c → (cache_get now k c).2 = Some v → cache_peek now k c = Some v;
  (** a lookup invents nothing *)
  cache_get_sub now t k k' c v : cache_wf c →
    cache_peek t k' (cache_get now k c).1 = Some v → cache_peek t k' c = Some v;
  (** an insertion adds nothing but the given pair *)
  cache_put_sub t k v k' v' c : cache_wf c →
    cache_peek t k' (cache_put k v c).1 = Some v' →
    (k' = k ∧ v' = v) ∨ (k' ≠ k ∧ cache_peek t k' c = Some v');
  cache_put_with_ttl_sub now t k v ttl k' v' c : cache_wf c →
    cache_peek t k' (cache_put_with_ttl now k v ttl c).1 = Some v' →
    (k' = k ∧ v' = v) ∨ (k' ≠ k ∧ cache_peek t k' c = Some v');
  (** a removal removes exactly its key and hands the value back *)
  cache_remove_peek t k k' c : cache_wf c →
    (k' = k → cache_peek t k' (cache_remove k c).1 = None) ∧
    (k' ≠ k → cache_peek t k' (cache_remove k c).1 = cache_peek t k' c);
  cache_remove_old t k c v : cache_wf c → cache_peek t k c = Some v →
    (cache_remove k c).2 = Some v;
  cache_remove_some k c v : cache_wf c → (cache_remove k c).2 = Some v →
    ∃ t, cache_peek t k c = Some v;
  cache_clear_peek t k c : cache_wf c → cache_peek t k (cache_clear c) = None;
  cache_contains_key_peek t k c : cache_wf c →
    cache_contains_key t k c = bool_decide (is_Some (cache_peek t k c));
  (** entries expire, they do not come back *)
  cache_peek_expiry t t' k c v : cache_wf c → (t ≤ t')%Z →
    cache_peek t' k c = Some v → cache_peek t k c = Some v;
}.

(** [resize]; [None] is a call that does not return.  The policies whose [resize]
    keeps the cache usable are those with [CacheResizeLaws]. *)
Class CacheResize (C : Type) := cache_resize : nat → C → option C.

Class CacheResizeLaws (K V C : Type) `{!Cache K V C, !CacheWf C, !CacheResize C} : Prop := {
  cache_resize_returns n c : cache_wf c → ∃ c', cache_resize n c = Some c' ∧ cache_wf c';
  cache_resize_sub n c c' t k v : cache_wf c → cache_resize n c = Some c' →
    cache_peek t k c' = Some v → cache_peek t k c = Some v;
}.

(** Caches in which a pair that was just put is present. *)
Class CacheRetains (K V C : Type) `{!Cache K V C, !CacheWf C} : Prop :=
  cache_put_peek t k v c : cache_wf c → cache_peek t k (cache_put k v c).1 = Some v.

(** No entry has a deadline. *)
Definition cache_timeless {K V C} `{!Cache K V C} (c : C) : Prop :=
  ∀ i i' k, cache_peek i k c = cache_peek i' k c.

(** Caches that never lose an entry without a deadline while they are below their
    capacity, and never on a lookup: what a deferred write relies on. *)
Class CacheLossless (K V C : Type) `{!Cache K V C, !CacheWf C} : Prop := {
  cache_get_exact now i k k' c : cache_wf c → cache_timeless c →
    (cache_get now k c).2 = cache_peek i k c ∧ cache_peek i k' (cache_get now k c).1 = cache_peek i k' c;
  cache_put_timeless k v c : cache_wf c → cache_timeless c → cache_timeless (cache_put k v c).1;
  cache_put_room i k v k' c : cache_wf c → cache_timeless c → k' ≠ k →
    cache_contains_key i k c = true ∨ cache_len c < cache_cap c →
    cache_peek i k' (cache_put k v c).1 = cache_peek i k' c;
}.

(** ** Lemmas *)
Lemma entry_expired_mono {V} (e : CacheEntry V) t t' :
  (t ≤ t')%Z → entry_is_expired t e = true → entry_is_expired t' e = true.
Proof. unfold entry_is_expired. destruct (expires_at e); [|done]. rewrite !Z.leb_le. lia. Qed.

Lemma live_value_mono {V} (oe : option (CacheEntry V)) t t' v :
  (t ≤ t')%Z → live_value t' oe = Some v → live_value t oe = Some v.
Proof.
  intros Ht. destruct oe as [e|]; simpl; [|done].
  destruct (entry_is_expired t e) eqn:E; [|by destruct (entry_is_expired t' e)].
  by rewrite (entry_expired_mono _ _ _ Ht E).
Qed.

Lemma opt_live_value {V} (oe : option (CacheEntry V)) t :
  opt_live t oe = bool_decide (is_Some (live_value t oe)).
Proof.
  destruct oe as [e|]; simpl; [|done]. by destruct (entry_is_expired t e).
Qed.

Lemma live_value_expired {V} (oe : option (CacheEntry V)) t t' :
  opt_expired t oe = true → (t ≤ t')%Z → live_value t' oe = None.
Proof.
  destruct oe as [e|]; simpl; [|done]. intros H1 H2. by rewrite (entry_expired_mono _ _ _ H2 H1).
Qed.

Lemma live_value_unexpired {V} (oe : option (CacheEntry V)) t :
  opt_expired t oe = false → live_value t oe = value <$> oe.
Proof. destruct oe as [e|]; simpl; [|done]. by intros ->. Qed.

Lemma live_value_Some {V} (oe : option (CacheEntry V)) t v :
  live_value t oe = Some v → ∃ e, oe = Some e ∧ value e = v.
Proof. destruct oe as [e|]; simpl; [|done]. destruct (entry_is_expired t e); naive_solver. Qed.

(** Every stored value was live once. *)
Lemma live_value_once {V} (oe : option (CacheEntry V)) v :
  value <$> oe = Some v → ∃ t, live_value t oe = Some v.
Proof.
  destruct oe as [e|]; simpl; [|done]. intros [= <-]. unfold entry_is_expired.
  destruct (expires_at e) as [d|]; [|by exists 0%Z].
  exists (d - 1)%Z. by rewrite (proj2 (Z.leb_gt d (d - 1))) by lia.
Qed.

Lemma live_value_timeless {V} (oe : option (CacheEntry V)) :
  (∀ i i', live_value i oe = live_value i' oe) → ∀ i, live_value i oe = value <$> oe ∧ opt_expired i oe = false.
Proof.
  destruct oe as [e|]; simpl; [|done]. unfold entry_is_expired. destruct (expires_at e) as [d|]; [|done].
  intros H. specialize (H d (d - 1)%Z). rewrite Z.leb_refl in H.
  by rewrite (proj2 (Z.leb_gt d (d - 1))) in H by lia.
Qed.

#[export] Hint Resolve live_value_mono entry_expired_mono : lhm.

(** [get_or_insert] does not panic on a cache that retains what is put, and
    returns the live value when there is one, the default otherwise. *)
Lemma cache_get_or_insert_value {K V C} `{!Cache K V C, !CacheWf C, !CacheLaws K V C,
    !CacheRetains K V C} now k d (c : C) :
  cache_wf c →
  (cache_get_or_insert now k d c).2 = Some (default (d ()) (cache_peek now k c)).
Proof.
  intros Hwf. unfold cache_get_or_insert. rewrite (cache_contains_key_peek (V:=V)) by done.
  destruct (cache_peek now k c) as [v|] eqn:E.
  - rewrite bool_decide_eq_true_2 by eauto. simpl. by rewrite E.
  - rewrite bool_decide_eq_false_2 by (by intros []). simpl. by rewrite cache_put_peek.
Qed.
