(* ===== verification/Lru.v ===== *)
(** * [oxistore-cache/src/lru.rs]: the least-recently-used cache

    The map is a linked hash map whose back is the most recently used entry.
    Every method of [LruCache], its entry API and its conversions are modelled;
    the theorems give the behaviour of every branch of insertion and lookup, the
    capacity bound over all histories, the eviction order, and the termination
    of [resize]. *)

From S2P Require Import Prelude Hashlink Cache.

Section LruModel.
Context {K V : Type} `{!EqDecision K} {M : Type → Type} `{!LinkedHashMap K M}.

Record LruCache := { lru_map : M (CacheEntry V); lru_cap : nat }.

(** [LruCache::new] *)
Definition lru_new (cap : nat) : LruCache := {| lru_map := lhm_new; lru_cap := cap |}.

Definition lru_insert_entry (key : K) (entry : CacheEntry V) (c : LruCache)
    : LruCache * option V :=
  if lhm_contains_key key (lru_map c) then
    ({| lru_map := (lhm_insert key entry (lru_map c)).1; lru_cap := lru_cap c |}, None)
  else
    let '(map, evicted) :=
      if bool_decide (0 < lru_cap c) && bool_decide (lru_cap c ≤ lhm_len (lru_map c)) then
        let '(map, front) := lhm_pop_front (lru_map c) in
        (map, (λ ke : K * CacheEntry V, value ke.2) <$> front)
      else (lru_map c, None) in
    ({| lru_map := (lhm_insert key entry map).1; lru_cap := lru_cap c |}, evicted).

Definition lru_get (now : Z) (key : K) (c : LruCache) : LruCache * option V :=
  let expired := opt_expired now (lhm_get key (lru_map c)) in
  if expired then
    ({| lru_map := (lhm_remove key (lru_map c)).1; lru_cap := lru_cap c |}, None)
  else
    match lhm_get key (lru_map c) with
    | Some e => ({| lru_map := lhm_to_back key (lru_map c); lru_cap := lru_cap c |}, Some (value e))
    | None => (c, None)
    end.

Definition lru_put (key : K) (v : V) (c : LruCache) : LruCache * option V :=
  lru_insert_entry key (entry_new v) c.

Definition lru_put_with_ttl (now : Z) (key : K) (v : V) (ttl : Z) (c : LruCache)
    : LruCache * option V :=
  lru_insert_entry key (entry_with_ttl now v ttl) c.

Definition lru_len (c : LruCache) : nat := lhm_len (lru_map c).
Definition lru_is_empty (c : LruCache) : bool := lhm_is_empty (lru_map c).

Definition lru_contains (now : Z) (key : K) (c : LruCache) : bool :=
  opt_live now (lhm_get key (lru_map c)).

Definition lru_peek (now : Z) (key : K) (c : LruCache) : option V :=
  live_value now (lhm_get key (lru_map c)).

Definition lru_remove (key : K) (c : LruCache) : LruCache * option V :=
  let '(map, old) := lhm_remove key (lru_map c) in
  ({| lru_map := map; lru_cap := lru_cap c |}, value <$> old).

Definition lru_clear (c : LruCache) : LruCache :=
  {| lru_map := lhm_clear (lru_map c); lru_cap := lru_cap c |}.

(** [while self.cap > 0 && self.map.len() > self.cap { self.map.pop_front(); }];
    [None] when the loop has not finished within the fuel. *)
Fixpoint lru_resize_loop (fuel : nat) (c : LruCache) : option LruCache :=
  if bool_decide (0 < lru_cap c) && bool_decide (lru_cap c < lhm_len (lru_map c)) then
    match fuel with
    | 0 => None
    | S fuel =>
        lru_resize_loop fuel {| lru_map := (lhm_pop_front (lru_map c)).1; lru_cap := lru_cap c |}
    end
  else Some c.

Definition lru_resize (fuel new_cap : nat) (c : LruCache) : option LruCache :=
  lru_resize_loop fuel {| lru_map := lru_map c; lru_cap := new_cap |}.

Definition lru_iter (c : LruCache) : list (K * V) :=
  map (λ ke : K * CacheEntry V, (ke.1, value ke.2)) (lhm_iter (lru_map c)).

Definition lru_values (now : Z) (c : LruCache) : list V :=
  map value (List.filter (λ e, negb (entry_is_expired now e)) (lhm_iter (lru_map c)).*2).

(** The [Cache] instance. *)
#[global] Instance lru_cache : Cache K V LruCache := {|
  cache_get := lru_get;
  cache_put := lru_put;
  cache_put_with_ttl := lru_put_with_ttl;
  cache_len := lru_len;
  cache_cap := lru_cap;
  cache_remove := lru_remove;
  cache_clear := lru_clear;
  cache_peek := lru_peek;
  cache_contains_key := lru_contains;
|}.

(** [From<Vec<(K, V)>>] *)
Definition lru_from (pairs : list (K * V)) : LruCache :=
  cache_warm pairs (lru_new (Nat.max (length pairs) 1)).

(** ** Entry API: [None] is the panic of [expect("occupied entry exists")]. *)
Inductive LruEntry := LruOccupied (cache : LruCache) (key : K) | LruVacant (cache : LruCache) (key : K).

Definition lru_entry (now : Z) (key : K) (c : LruCache) : LruEntry :=
  if lru_contains now key c then LruOccupied c key else LruVacant c key.

Definition lru_occupied_get (now : Z) (key : K) (c : LruCache) : option V := lru_peek now key c.

Definition lru_occupied_remove (key : K) (c : LruCache) : LruCache * option V := lru_remove key c.

Definition lru_vacant_insert (now : Z) (key : K) (v : V) (c : LruCache) : LruCache * option V :=
  let c := (lru_put key v c).1 in (c, lru_peek now key c).

(** ** Histories: the calls of a client, with the keys each call touches. *)
Inductive LruOp :=
| LruGet (now : Z) (k : K)
| LruPut (k : K) (v : V)
| LruPutTtl (now : Z) (k : K) (v : V) (ttl : Z)
| LruRemove (k : K)
| LruClear
| LruResize (n : nat).

Definition lru_step (op : LruOp) (c : LruCache) : LruCache * list K :=
  match op with
  | LruGet now k =>
      let '(c', r) := lru_get now k c in (c', if r is Some _ then [k] else [])
  | LruPut k v => ((lru_put k v c).1, [k])
  | LruPutTtl now k v ttl => ((lru_put_with_ttl now k v ttl c).1, [k])
  | LruRemove k => ((lru_remove k c).1, [])
  | LruClear => (lru_clear c, [])
  | LruResize n => (default c (lru_resize (lru_len c) n c), [])
  end.

Fixpoint lru_run (ops : list LruOp) (c : LruCache) : LruCache * list K :=
  match ops with
  | [] => (c, [])
  | op :: ops =>
      let '(c1, h1) := lru_step op c in
      let '(c2, h2) := lru_run ops c1 in (c2, h1 ++ h2)
  end.
End LruModel.
Arguments LruCache : clear implicits.
Arguments LruOp : clear implicits.

(** Distinct keys of a history, ordered by last use, oldest first. *)
Definition touch {K} `{!EqDecision K} (order : list K) (k : K) : list K :=
  List.filter (λ k', negb (bool_decide (k' = k))) order ++ [k].
Definition recency {K} `{!EqDecision K} (hist : list K) : list K := foldl touch [] hist.

Section LruTheory.
Context {K V : Type} `{!EqDecision K} {M : Type → Type} `{!LinkedHashMap K M, !LinkedHashMapLaws K M}.
Abbreviation lru := (LruCache V M).
Implicit Types c : lru.

(** The entries of a cache, least recently used first. *)
Definition lru_entries (c : lru) : list (K * CacheEntry V) := lhm_iter (lru_map c).

Definition lru_at_capacity (c : lru) : bool :=
  bool_decide (0 < lru_cap c) && bool_decide (lru_cap c ≤ length (lru_entries c)).

Lemma lru_entries_NoDup c : NoDup (lru_entries c).*1.
Proof. apply lhm_iter_NoDup. Qed.

(** Effect of each operation on the entries. *)
Lemma lru_insert_entry_entries k e c :
  lru_entries (lru_insert_entry k e c).1 =
    (if assoc k (lru_entries c) is Some _ then assoc_push k e (lru_entries c)
     else (if lru_at_capacity c then tail (lru_entries c) else lru_entries c) ++ [(k, e)]) ∧
  lru_cap (lru_insert_entry k e c).1 = lru_cap c ∧
  (lru_insert_entry k e c).2 =
    (if assoc k (lru_entries c) is Some _ then None
     else if lru_at_capacity c then (λ ke, value ke.2) <$> head (lru_entries c) else None).
Proof.
  unfold lru_insert_entry, lru_at_capacity, lru_entries. rewrite lhm_contains_key_iter, !lhm_len_iter.
  destruct (assoc k (lhm_iter (lru_map c))) as [e0|] eqn:E.
  - rewrite bool_decide_eq_true_2 by eauto. simpl. by rewrite lhm_insert_iter.
  - rewrite bool_decide_eq_false_2 by (by intros []).
    apply assoc_None in E. assert (k ∉ (tail (lhm_iter (lru_map c))).*1) as E'.
    { destruct (lhm_iter (lru_map c)); csimpl in *; [done|]. by apply not_elem_of_cons in E as []. }
    destruct (_ && _).
    + destruct (lhm_pop_front (lru_map c)) as [m p] eqn:Ep.
      pose proof (lhm_pop_front_iter (lru_map c)) as H1.
      pose proof (lhm_pop_front_old (lru_map c)) as H2. rewrite Ep in H1, H2; simpl in *. subst p.
      rewrite lhm_insert_iter, H1. unfold assoc_push. by rewrite assoc_remove_id.
    + simpl. rewrite lhm_insert_iter. unfold assoc_push. by rewrite assoc_remove_id.
Qed.

Lemma lru_get_entries now k c :
  lru_entries (lru_get now k c).1 =
    (if opt_expired now (assoc k (lru_entries c)) then assoc_remove k (lru_entries c)
     else assoc_to_back k (lru_entries c)) ∧
  lru_cap (lru_get now k c).1 = lru_cap c ∧
  (lru_get now k c).2 = live_value now (assoc k (lru_entries c)).
Proof.
  unfold lru_get, lru_entries. rewrite !lhm_get_iter.
  destruct (assoc k (lhm_iter (lru_map c))) as [e|] eqn:E; simpl.
  - destruct (entry_is_expired now e); simpl; lhm_simpl; done.
  - unfold assoc_to_back. by rewrite E.
Qed.

Lemma lru_peek_entries t k c : lru_peek t k c = live_value t (assoc k (lru_entries c)).
Proof. unfold lru_peek. by rewrite lhm_get_iter. Qed.

Lemma lru_remove_entries k c :
  lru_entries (lru_remove k c).1 = assoc_remove k (lru_entries c) ∧
  lru_cap (lru_remove k c).1 = lru_cap c ∧
  (lru_remove k c).2 = value <$> assoc k (lru_entries c).
Proof.
  unfold lru_remove, lru_entries. destruct (lhm_remove k (lru_map c)) as [m old] eqn:E.
  pose proof (lhm_remove_iter k (lru_map c)) as H1. pose proof (lhm_remove_old k (lru_map c)) as H2.
  rewrite E in *. simpl in *. by subst.
Qed.

Lemma lru_resize_loop_entries fuel c c' :
  lru_resize_loop fuel c = Some c' →
  lru_entries c' = (if bool_decide (0 < lru_cap c)
                    then drop (length (lru_entries c) - lru_cap c) (lru_entries c)
                    else lru_entries c) ∧
  lru_cap c' = lru_cap c.
Proof.
  assert (∀ c : lru, ¬ (lru_cap c < length (lru_entries c)) →
    drop (length (lru_entries c) - lru_cap c) (lru_entries c) = lru_entries c) as Hstop.
  { intros c0 ?. replace (length _ - lru_cap c0) with 0 by lia. apply drop_0. }
  revert c. induction fuel as [|fuel IH]; intros c; simpl;
    rewrite lhm_len_iter; fold (lru_entries c); repeat case_bool_decide; simpl;
    try done; try (intros [= <-]; by rewrite ?Hstop).
  intros Hc. destruct (IH _ Hc) as [H1 H2]. simpl in *.
  rewrite bool_decide_eq_true_2 in H1 by lia. rewrite H1, H2. split; [|done].
  unfold lru_entries in *. simpl. rewrite lhm_pop_front_iter.
  destruct (lhm_iter (lru_map c)) as [|x l]; simpl in *; [lia|].
  by replace (S (length l) - lru_cap c) with (S (length l - lru_cap c)) by lia.
Qed.

Lemma lru_resize_loop_terminates fuel c :
  length (lru_entries c) - lru_cap c ≤ fuel → is_Some (lru_resize_loop fuel c).
Proof.
  revert c. induction fuel as [|fuel IH]; intros c Hf; simpl; unfold lru_entries in *;
    rewrite lhm_len_iter; repeat case_bool_decide; simpl; try (by eauto); try lia.
  apply IH. simpl. rewrite lhm_pop_front_iter. destruct (lhm_iter (lru_map c)); simpl in *; lia.
Qed.

(** The [CacheLaws] of the LRU policy. *)
#[global] Instance lru_wf : CacheWf lru := λ _, True.

Lemma assoc_tail_sub k (l : list (K * CacheEntry V)) t v :
  NoDup l.*1 → live_value t (assoc k (tail l)) = Some v → live_value t (assoc k l) = Some v.
Proof.
  destruct l as [|[k0 e0] l]; [done|]. csimpl. intros [H1 H2]%NoDup_cons.
  case_decide; [|done]. subst. apply assoc_None in H1. by rewrite H1.
Qed.

Lemma lru_insert_entry_sub t k e k' v' c :
  lru_peek t k' (lru_insert_entry k e c).1 = Some v' →
  (k' = k ∧ v' = value e) ∨ (k' ≠ k ∧ lru_peek t k' c = Some v').
Proof.
  rewrite !lru_peek_entries. destruct (lru_insert_entry_entries k e c) as (-> & _ & _).
  pose proof (lru_entries_NoDup c) as Hnd. generalize dependent (lru_entries c). intros l Hnd.
  destruct (decide (k' = k)) as [->|Hne].
  - intros H. left. split; [done|]. destruct (assoc k l) eqn:E.
    + rewrite assoc_push_eq in H. apply live_value_Some in H as (? & [= <-] & ?). done.
    + assert (assoc k ((if lru_at_capacity c then tail l else l) ++ [(k, e)]) = Some e) as E'.
      { rewrite assoc_app. assert (assoc k (tail l) = None) as E2.
        { apply assoc_None in E. apply assoc_None. destruct l; csimpl in *; set_solver. }
        destruct (lru_at_capacity c); [rewrite E2|rewrite E]; simpl; by rewrite decide_True. }
      rewrite E' in H. apply live_value_Some in H as (? & [= <-] & ?). done.
  - intros H. right. split; [done|]. destruct (assoc k l) eqn:E.
    + by rewrite assoc_push_ne in H by done.
    + rewrite assoc_app in H. simpl in H. rewrite decide_False in H by done.
      destruct (lru_at_capacity c).
      * apply assoc_tail_sub; [done|]. by destruct (assoc k' (tail l)).
      * by destruct (assoc k' l).
Qed.

#[global] Instance lru_laws : CacheLaws K V lru.
Proof.
  split; simpl; try done.
  - intros now k c v _ H. destruct (lru_get_entries now k c) as (_ & _ & H2).
    rewrite lru_peek_entries. congruence.
  - intros now t k k' c v _. rewrite !lru_peek_entries.
    destruct (lru_get_entries now k c) as (-> & _ & _).
    destruct (opt_expired now _) eqn:E; [|by rewrite assoc_to_back_lookup].
    destruct (decide (k = k')) as [<-|]; [by rewrite assoc_remove_eq|by rewrite assoc_remove_ne].
  - intros t k v k' v' c _. apply lru_insert_entry_sub.
  - intros now t k v ttl k' v' c _. apply lru_insert_entry_sub.
  - intros t k k' c _. rewrite !lru_peek_entries.
    destruct (lru_remove_entries k c) as (-> & _ & _). split.
    + intros ->. by rewrite assoc_remove_eq.
    + intros. by rewrite assoc_remove_ne.
  - intros t k c v _. rewrite lru_peek_entries. intros (e & E & Hv)%live_value_Some.
    destruct (lru_remove_entries k c) as (_ & _ & ->). rewrite E. simpl. by rewrite Hv.
  - intros k c v _. destruct (lru_remove_entries k c) as (_ & _ & ->). intros [t Ht]%live_value_once.
    exists t. by rewrite lru_peek_entries.
  - intros t k c _. unfold lru_peek. by lhm_simpl.
  - intros t k c _. apply opt_live_value.
  - intros t t' k c v _ Ht. unfold lru_peek. by apply live_value_mono.
Qed.

#[global] Instance lru_cache_resize : CacheResize lru := λ n c, lru_resize (lru_len c) n c.

Lemma assoc_drop_sub k n (l : list (K * CacheEntry V)) e :
  NoDup l.*1 → assoc k (drop n l) = Some e → assoc k l = Some e.
Proof.
  intros Hnd Ha. assert (NoDup (drop n l).*1) as Hnd' by (rewrite fmap_drop; by eapply sublist_NoDup, sublist_drop).
  apply assoc_elem_of in Ha; [|done]. apply assoc_elem_of; [done|].
  eapply elem_of_submseteq; [exact Ha|]. apply sublist_submseteq, sublist_drop.
Qed.

#[global] Instance lru_resize_laws : CacheResizeLaws K V lru.
Proof.
  split; unfold cache_resize, lru_cache_resize, lru_resize; intros *.
  - intros _. destruct (lru_resize_loop_terminates (lru_len c) {| lru_map := lru_map c; lru_cap := n |}) as [c' Hc'].
    { unfold lru_len. rewrite lhm_len_iter. unfold lru_entries. simpl. lia. }
    by exists c'.
  - intros _ Hc. apply lru_resize_loop_entries in Hc as [He _]. simpl. rewrite !lru_peek_entries, He.
    case_bool_decide; [|done]. intros Hv. destruct (live_value_Some _ _ _ Hv) as (e & Ha & _).
    rewrite Ha in Hv. change (lru_entries c) with (lru_entries {| lru_map := lru_map c; lru_cap := n |}).
    by rewrite (assoc_drop_sub _ _ _ _ (lru_entries_NoDup _) Ha).
Qed.

(** Where every key is found after an insertion. *)
Lemma lru_insert_lookup k e c k' :
  assoc k' (lru_entries (lru_insert_entry k e c).1) =
    if decide (k' = k) then Some e
    else if bool_decide (is_Some (assoc k (lru_entries c))) || negb (lru_at_capacity c)
    then assoc k' (lru_entries c) else assoc k' (tail (lru_entries c)).
Proof.
  destruct (lru_insert_entry_entries k e c) as (-> & _ & _). destruct (assoc k (lru_entries c)) eqn:E; simpl.
  { case_decide; [subst; apply assoc_push_eq|by apply assoc_push_ne]. }
  rewrite assoc_app. simpl. case_decide as Hk.
  - subst k'. rewrite decide_True by done. assert (assoc k (tail (lru_entries c)) = None) as E2.
    { apply assoc_None in E. apply assoc_None. destruct (lru_entries c); csimpl in *; set_solver. }
    by destruct (lru_at_capacity c); rewrite ?E2, ?E.
  - rewrite decide_False by done. destruct (lru_at_capacity c); simpl; by destruct (assoc k' _).
Qed.

#[global] Instance lru_lossless : CacheLossless K V lru.
Proof.
  assert (∀ (c : lru), cache_timeless c → ∀ i k, live_value i (assoc k (lru_entries c)) = value <$> assoc k (lru_entries c) ∧
    opt_expired i (assoc k (lru_entries c)) = false) as Hno.
  { intros c Hc i k. apply live_value_timeless. intros i1 i2. specialize (Hc i1 i2 k). simpl in Hc.
    by rewrite !lru_peek_entries in Hc. }
  split; simpl; intros *.
  - intros _ Ht. rewrite !lru_peek_entries. destruct (lru_get_entries now k c) as (-> & _ & ->).
    destruct (Hno c Ht now k) as [-> ->]. rewrite assoc_to_back_lookup. split; [|done]. symmetry. by apply Hno.
  - intros _ Ht i i' k'. simpl. rewrite !lru_peek_entries. unfold lru_put. rewrite lru_insert_lookup.
    case_decide; [done|]. destruct (_ || _).
    + destruct (Hno c Ht i k') as [-> _]. by destruct (Hno c Ht i' k') as [-> _].
    + destruct (assoc k' (tail (lru_entries c))) as [e|] eqn:E; [|done].
      assert (assoc k' (lru_entries c) = Some e) as E'.
      { apply (assoc_drop_sub _ 1); [apply lru_entries_NoDup|]. by destruct (lru_entries c). }
      rewrite <-E'. destruct (Hno c Ht i k') as [-> _]. by destruct (Hno c Ht i' k') as [-> _].
  - intros _ Ht Hne Hroom. rewrite !lru_peek_entries. unfold lru_put. rewrite lru_insert_lookup, decide_False by done.
    replace (_ || _) with true; [done|]. symmetry. apply orb_true_iff. destruct Hroom as [Hin|Hlt].
    + left. unfold lru_contains in Hin. rewrite lhm_get_iter in Hin. apply bool_decide_eq_true_2.
      unfold lru_entries. by destruct (assoc k _); eauto.
    + right. unfold lru_at_capacity. unfold lru_len in Hlt. rewrite !lhm_len_iter in *.
      apply negb_true_iff. unfold lru_entries. repeat case_bool_decide; try done; lia.
Qed.

#[global] Instance lru_retains : CacheRetains K V lru.
Proof. intros t k v c _. simpl. rewrite lru_peek_entries. unfold lru_put. by rewrite lru_insert_lookup, decide_True. Qed.

(** ** Histories *)

Lemma sublist_filter_bool {A} (f : A → bool) (l1 l2 : list A) :
  l1 `sublist_of` l2 → List.filter f l1 `sublist_of` List.filter f l2.
Proof.
  induction 1 as [|x l1 l2 H IH|x l1 l2 H IH]; simpl; [done| |]; destruct (f x);
    first [by constructor|done].
Qed.

Lemma assoc_remove_keys_filter {W} k (l : list (K * W)) :
  (assoc_remove k l).*1 = List.filter (λ k', negb (bool_decide (k' = k))) l.*1.
Proof.
  induction l as [|[k' w] l IH]; csimpl; [done|].
  case_decide; case_bool_decide; csimpl; by rewrite ?IH.
Qed.

Lemma filter_ne_id k (l : list K) :
  k ∉ l → List.filter (λ k', negb (bool_decide (k' = k))) l = l.
Proof.
  induction l as [|k' l IH]; simpl; [done|]. rewrite not_elem_of_cons. intros [? ?].
  rewrite bool_decide_eq_false_2 by done. simpl. by rewrite IH.
Qed.

(** Touching a key keeps the resident keys in order of last use. *)
Lemma touch_sublist {W} k w (l : list (K * W)) order :
  l.*1 `sublist_of` order → (assoc_push k w l).*1 `sublist_of` touch order k.
Proof.
  intros. unfold assoc_push, touch. rewrite fmap_app, assoc_remove_keys_filter. csimpl.
  apply sublist_app; [by apply sublist_filter_bool|done].
Qed.

Lemma assoc_remove_sublist {W} k (l : list (K * W)) : (assoc_remove k l).*1 `sublist_of` l.*1.
Proof.
  induction l as [|[k' w] l IH]; csimpl; [done|]. case_decide; csimpl; by constructor.
Qed.

Lemma tail_sublist {A} (l : list A) : tail l `sublist_of` l.
Proof. destruct l; [done|]. by constructor. Qed.

Lemma lru_insert_sublist k e c order :
  (lru_entries c).*1 `sublist_of` order →
  (lru_entries (lru_insert_entry k e c).1).*1 `sublist_of` touch order k.
Proof.
  intros Hs. destruct (lru_insert_entry_entries k e c) as (-> & _ & _).
  destruct (assoc k (lru_entries c)) eqn:E; [by apply touch_sublist|].
  apply assoc_None in E.
  assert (k ∉ (tail (lru_entries c)).*1) by (destruct (lru_entries c); csimpl in *; set_solver).
  destruct (lru_at_capacity c).
  - rewrite <-(assoc_remove_id k (tail (lru_entries c))) by done.
    apply (touch_sublist k e). etrans; [|done]. rewrite fmap_tail. apply tail_sublist.
  - rewrite <-(assoc_remove_id k (lru_entries c)) by done. by apply (touch_sublist k e).
Qed.

Lemma lru_step_sublist op c order :
  (lru_entries c).*1 `sublist_of` order →
  (lru_entries (lru_step op c).1).*1 `sublist_of` foldl touch order (lru_step op c).2.
Proof.
  intros Hs. destruct op as [now k|k v|now k v ttl|k| |n]; simpl.
  - destruct (lru_get_entries now k c) as (He & _ & Hr).
    destruct (lru_get now k c) as [c' r]. simpl in *. subst r. rewrite He.
    destruct (assoc k (lru_entries c)) as [e|] eqn:E; simpl.
    + destruct (entry_is_expired now e); simpl.
      * by rewrite assoc_remove_sublist.
      * unfold assoc_to_back. rewrite E. by apply touch_sublist.
    + unfold assoc_to_back. by rewrite E.
  - by apply lru_insert_sublist.
  - by apply lru_insert_sublist.
  - destruct (lru_remove_entries k c) as (-> & _ & _). by rewrite assoc_remove_sublist.
  - unfold lru_entries, lru_clear. simpl. rewrite lhm_clear_iter. apply sublist_nil_l.
  - destruct (lru_resize _ n c) as [c'|] eqn:E; simpl; [|done].
    unfold lru_resize in E. apply lru_resize_loop_entries in E as [-> _]. simpl.
    case_bool_decide; [|done]. rewrite fmap_drop. by rewrite sublist_drop.
Qed.

Lemma lru_run_sublist ops c order :
  (lru_entries c).*1 `sublist_of` order →
  (lru_entries (lru_run ops c).1).*1 `sublist_of` foldl touch order (lru_run ops c).2.
Proof.
  revert c order. induction ops as [|op ops IH]; intros c order Hs; simpl; [done|].
  pose proof (lru_step_sublist op c order Hs) as Hstep.
  destruct (lru_step op c) as [c1 h1]. simpl in *.
  specialize (IH c1 _ Hstep). destruct (lru_run ops c1) as [c2 h2]. simpl in *.
  by rewrite foldl_app.
Qed.

Lemma lru_run_recency ops cap :
  (lru_entries (lru_run ops (lru_new cap)).1).*1
    `sublist_of` recency (lru_run ops (lru_new cap)).2.
Proof. apply lru_run_sublist. unfold lru_entries. simpl. by rewrite lhm_iter_new. Qed.

(** *** Capacity *)
Definition lru_bounded (c : lru) : Prop := 0 < lru_cap c → length (lru_entries c) ≤ lru_cap c.

Lemma lru_insert_bounded k e c : lru_bounded c → lru_bounded (lru_insert_entry k e c).1.
Proof.
  unfold lru_bounded. intros Hb Hc. destruct (lru_insert_entry_entries k e c) as (-> & Hcap & _).
  rewrite Hcap in *. specialize (Hb Hc). destruct (assoc k (lru_entries c)) eqn:E.
  - rewrite assoc_push_length, E by apply lru_entries_NoDup. lia.
  - unfold lru_at_capacity. rewrite length_app. simpl. repeat case_bool_decide; simpl; try lia.
    destruct (lru_entries c); simpl in *; lia.
Qed.

Lemma lru_step_bounded op c : lru_bounded c → lru_bounded (lru_step op c).1.
Proof.
  intros Hb. destruct op as [now k|k v|now k v ttl|k| |n]; simpl.
  - destruct (lru_get_entries now k c) as (He & Hcap & _).
    destruct (lru_get now k c) as [c' r]. unfold lru_bounded in *. simpl in *. rewrite He, Hcap.
    intros Hc. specialize (Hb Hc). destruct (opt_expired _ _).
    + rewrite assoc_remove_length by apply lru_entries_NoDup. lia.
    + rewrite assoc_to_back_length by apply lru_entries_NoDup. done.
  - by apply lru_insert_bounded.
  - by apply lru_insert_bounded.
  - unfold lru_bounded in *. destruct (lru_remove_entries k c) as (-> & -> & _). intros Hc.
    rewrite assoc_remove_length by apply lru_entries_NoDup. specialize (Hb Hc). lia.
  - unfold lru_bounded, lru_entries. simpl. rewrite lhm_clear_iter. simpl. lia.
  - destruct (lru_resize _ n c) as [c'|] eqn:E; simpl; [|done].
    unfold lru_resize in E. apply lru_resize_loop_entries in E as [He Hc]. simpl in *.
    unfold lru_bounded. rewrite He, Hc. intros Hn. rewrite bool_decide_eq_true_2 by done.
    rewrite length_drop. lia.
Qed.

Lemma lru_run_bounded ops c : lru_bounded c → lru_bounded (lru_run ops c).1.
Proof.
  revert c. induction ops as [|op ops IH]; intros c Hb; simpl; [done|].
  pose proof (lru_step_bounded op c Hb) as Hs. destruct (lru_step op c) as [c1 h1]. simpl in *.
  specialize (IH _ Hs). by destruct (lru_run ops c1).
Qed.

(** *** Warming *)
Lemma lru_warm_zero_entries pairs c :
  lru_cap c = 0 → NoDup pairs.*1 → (∀ k, k ∈ pairs.*1 → k ∉ (lru_entries c).*1) →
  lru_entries (cache_warm pairs c) =
    lru_entries c ++ map (λ kv, (kv.1, entry_new kv.2)) pairs ∧ lru_cap (cache_warm pairs c) = 0.
Proof.
  revert c. induction pairs as [|[k v] pairs IH]; intros c Hc; csimpl.
  - intros _ _. by rewrite app_nil_r.
  - intros [Hk Hnd]%NoDup_cons Hdis.
    destruct (lru_insert_entry_entries k (entry_new v) c) as (He & Hcap & _).
    assert (assoc k (lru_entries c) = None) as E by (apply assoc_None, Hdis; set_solver).
    rewrite E in He. unfold lru_at_capacity in He. rewrite Hc in He. simpl in He.
    destruct (IH (lru_put k v c).1) as [H1 H2]; unfold lru_put; [by rewrite Hcap|done| |].
    + intros k' Hk'. rewrite He, fmap_app. csimpl. set_solver.
    + unfold lru_put in *. rewrite H1, He, <-app_assoc. done.
Qed.

Lemma lru_warm_peek t k pairs c :
  lru_cap c = 0 ∨ length (lru_entries c) + length pairs ≤ lru_cap c →
  lru_peek t k (cache_warm pairs c) =
    match assoc k (reverse pairs) with Some v => Some v | None => lru_peek t k c end.
Proof.
  revert c. induction pairs as [|[k0 v0] pairs IH]; intros c Hc; simpl; [done|].
  destruct (lru_insert_entry_entries k0 (entry_new v0) c) as (He & Hcap & _).
  assert (lru_at_capacity c = false) as Hfull.
  { unfold lru_at_capacity. simpl in Hc. destruct Hc as [->|]; [done|].
    rewrite andb_false_iff. right. apply bool_decide_eq_false_2. lia. }
  rewrite Hfull in He. unfold lru_put.
  rewrite IH, reverse_cons, assoc_app; [destruct (assoc k (reverse pairs)); [done|]|].
  - rewrite !lru_peek_entries, He. simpl. case_decide as Hk.
    + subst. destruct (assoc k (lru_entries c)) eqn:E; [by rewrite assoc_push_eq|].
      rewrite assoc_app, E. simpl. by rewrite decide_True.
    + destruct (assoc k0 (lru_entries c)) eqn:E; [by rewrite assoc_push_ne|].
      rewrite assoc_app. simpl. rewrite decide_False by done. by destruct (assoc k (lru_entries c)).
  - rewrite Hcap, He. simpl in Hc. destruct Hc as [|Hc]; [by left|right].
    destruct (assoc k0 (lru_entries c)) eqn:E.
    + rewrite assoc_push_length, E by apply lru_entries_NoDup. lia.
    + rewrite length_app. simpl. lia.
Qed.
End LruTheory.

(** ** Theorems *)
Section LruTheorems.
Context {K V : Type} `{!EqDecision K} {M : Type → Type} `{!LinkedHashMap K M, !LinkedHashMapLaws K M}.
Abbreviation lru := (LruCache V M).

(** C36: Eviction order.  After any history of calls on a fresh cache, putting a
    new key into a full cache of positive capacity evicts exactly one entry and
    returns its value; that entry is the least recently used one: in the order
    of last use of the history, every other resident key comes after it.  The
    remaining entries keep their order and the new key is the most recent. *)
Theorem lru_evicts_least_recently_used (ops : list (LruOp K V)) cap (k : K) (v : V) (c : lru) hist :
  lru_run ops (lru_new cap) = (c, hist) →
  0 < lru_cap c → lru_len c = lru_cap c → assoc k (lru_entries c) = None →
  ∃ k0 e0 rest older newer,
    lru_entries c = (k0, e0) :: rest ∧
    lru_entries (lru_put k v c).1 = rest ++ [(k, entry_new v)] ∧
    (lru_put k v c).2 = Some (value e0) ∧
    recency hist = older ++ k0 :: newer ∧
    ∀ k', k' ∈ rest.*1 → k' ∈ newer.
Proof.
  intros Hrun Hcap Hlen Hk.
  pose proof (lru_run_recency (V:=V) (M:=M) ops cap) as Hs. rewrite Hrun in Hs. simpl in Hs.
  destruct (lru_insert_entry_entries k (entry_new v) c) as (He & _ & Hr).
  unfold lru_len in Hlen. rewrite lhm_len_iter in Hlen. fold (lru_entries c) in Hlen.
  assert (lru_at_capacity c = true) as Hfull.
  { unfold lru_at_capacity. by rewrite !bool_decide_eq_true_2 by lia. }
  rewrite Hk, Hfull in He, Hr.
  destruct (lru_entries c) as [|[k0 e0] rest] eqn:Ec; simpl in *; [lia|].
  apply sublist_cons_l in Hs as (older & newer & Hrec & Hsub).
  exists k0, e0, rest, older, newer. split_and!; try done.
  intros k' Hk'. by eapply elem_of_submseteq; [|apply sublist_submseteq].
Qed.

(** Capacity.  After any history of calls (including resizes) on a fresh
    cache, a cache of positive capacity holds at most that many entries. *)
Theorem lru_capacity_bounded (ops : list (LruOp K V)) cap (c : lru) hist :
  lru_run ops (lru_new cap) = (c, hist) → 0 < lru_cap c → lru_len c ≤ lru_cap c.
Proof.
  intros Hrun Hc. unfold lru_len. rewrite lhm_len_iter.
  pose proof (lru_run_bounded ops (lru_new cap : lru)) as H. rewrite Hrun in H.
  apply H; [|done]. unfold lru_bounded, lru_entries. simpl. rewrite lhm_iter_new. simpl. lia.
Qed.

(** [resize] terminates within one iteration per entry and keeps exactly the
    most recently used entries that fit; the capacity 0 evicts nothing. *)
Theorem lru_resize_keeps_most_recent fuel n (c : lru) :
  lru_len c ≤ fuel →
  ∃ c', lru_resize fuel n c = Some c' ∧ lru_cap c' = n ∧
    lru_entries c' = if bool_decide (0 < n) then drop (lru_len c - n) (lru_entries c)
                     else lru_entries c.
Proof.
  unfold lru_len. rewrite lhm_len_iter. intros Hf. unfold lru_resize.
  destruct (lru_resize_loop_terminates fuel {| lru_map := lru_map c; lru_cap := n |}) as [c' Hc'].
  { unfold lru_entries. simpl. lia. }
  exists c'. split; [done|]. by apply lru_resize_loop_entries in Hc' as [-> ->].
Qed.

(** A cache built with capacity 0 never evicts: it retains every distinct key
    ever put, so its size is unbounded. *)
Theorem lru_zero_capacity_unbounded (pairs : list (K * V)) :
  NoDup pairs.*1 → lru_len (cache_warm pairs (lru_new 0 : lru)) = length pairs.
Proof.
  intros Hnd. unfold lru_len. rewrite lhm_len_iter.
  destruct (lru_warm_zero_entries pairs (lru_new 0 : lru)) as [H _]; [done|done| |].
  { intros k _. unfold lru_entries. simpl. rewrite lhm_iter_new. set_solver. }
  unfold lru_entries in H. rewrite H. simpl. rewrite lhm_iter_new. apply length_fmap.
Qed.

(** A cache built from a vector of pairs answers every key with its last
    binding in the vector, and only those keys. *)
Theorem lru_from_last_binding t (k : K) (pairs : list (K * V)) :
  lru_peek t k (lru_from pairs : lru) = assoc k (reverse pairs).
Proof.
  unfold lru_from. rewrite lru_warm_peek.
  - unfold lru_peek. rewrite lhm_get_iter. simpl. rewrite lhm_iter_new. simpl.
    by destruct (assoc k (reverse pairs)).
  - right. unfold lru_entries. simpl. rewrite lhm_iter_new. simpl. lia.
Qed.
End LruTheorems.

(** ** Witnesses, on the concrete map *)
Abbreviation lru_nat := (LruCache nat (λ V, list (nat * V))).

Definition lru_demo_ops : list (LruOp nat nat) := [LruPut 1 10; LruPut 2 20; LruGet 0 1].

Lemma lru_evicts_least_recently_used_witness :
  ∃ k0 e0 rest older newer,
    lru_entries (lru_run lru_demo_ops (lru_new 2 : lru_nat)).1 = (k0, e0) :: rest ∧
    lru_entries (lru_put 3 30 (lru_run lru_demo_ops (lru_new 2 : lru_nat)).1).1
      = rest ++ [(3, entry_new 30)] ∧
    (lru_put 3 30 (lru_run lru_demo_ops (lru_new 2 : lru_nat)).1).2 = Some (value e0) ∧
    recency (lru_run lru_demo_ops (lru_new 2 : lru_nat)).2 = older ++ k0 :: newer ∧
    ∀ k', k' ∈ rest.*1 → k' ∈ newer.
Proof.
  apply (lru_evicts_least_recently_used lru_demo_ops 2 3 30); [|vm_compute; lia| |]; reflexivity.
Defined.

Lemma lru_capacity_bounded_witness :
  lru_len (lru_run lru_demo_ops (lru_new 2 : lru_nat)).1 ≤
  lru_cap (lru_run lru_demo_ops (lru_new 2 : lru_nat)).1.
Proof.
  apply (lru_capacity_bounded lru_demo_ops 2 _ (lru_run lru_demo_ops (lru_new 2 : lru_nat)).2);
    [reflexivity|vm_compute; lia].
Defined.

Lemma lru_resize_keeps_most_recent_witness :
  ∃ c', lru_resize 2 1 (lru_run lru_demo_ops (lru_new 2 : lru_nat)).1 = Some c' ∧ lru_cap c' = 1 ∧
    lru_entries c' =
      if bool_decide (0 < 1)
      then drop (lru_len (lru_run lru_demo_ops (lru_new 2 : lru_nat)).1 - 1)
             (lru_entries (lru_run lru_demo_ops (lru_new 2 : lru_nat)).1)
      else lru_entries (lru_run lru_demo_ops (lru_new 2 : lru_nat)).1.
Proof.
  apply (lru_resize_keeps_most_recent 2 1 (lru_run lru_demo_ops (lru_new 2 : lru_nat)).1).
  vm_compute. lia.
Defined.

Lemma lru_zero_capacity_unbounded_witness :
  lru_len (cache_warm [(1, 10); (2, 20); (3, 30)] (lru_new 0 : lru_nat)) = 3.
Proof.
  apply (lru_zero_capacity_unbounded [(1, 10); (2, 20); (3, 30)]).
  csimpl. repeat (constructor; [set_solver|]). constructor.
Defined.

Lemma lru_from_last_binding_witness :
  lru_peek 0 1 (lru_from [(1, 10); (2, 20); (1, 30)] : lru_nat) =
    assoc 1 (reverse [(1, 10); (2, 20); (1, 30)]).
Proof. apply (lru_from_last_binding 0 1 [(1, 10); (2, 20); (1, 30)]). Defined.
