(* ===== verification/Arc.v ===== *)
(** * [oxistore-cache/src/arc.rs]: the adaptive replacement cache

    Four linked hash maps: [t1] (seen once), [t2] (seen at least twice) and the
    ghost lists [b1], [b2], with the adaptive target [p].  Every method is
    modelled.  The theorems show which part of the documented invariant the code
    maintains (disjoint lists, [p <= cap], termination of [resize], soundness of
    every answer), and exactly where the bound [|t1| + |t2| <= cap] breaks. *)

From S2P Require Import Prelude Hashlink Cache.

Section ArcModel.
Context {K V : Type} `{!EqDecision K} {M : Type → Type} `{!LinkedHashMap K M}.

Record ArcCache := {
  arc_t1 : M (CacheEntry V);
  arc_t2 : M (CacheEntry V);
  arc_b1 : M unit;
  arc_b2 : M unit;
  arc_p : nat;
  arc_cap : nat;
}.

Definition arc_set_t1 m (c : ArcCache) : ArcCache :=
  {| arc_t1 := m; arc_t2 := arc_t2 c; arc_b1 := arc_b1 c; arc_b2 := arc_b2 c;
     arc_p := arc_p c; arc_cap := arc_cap c |}.
Definition arc_set_t2 m (c : ArcCache) : ArcCache :=
  {| arc_t1 := arc_t1 c; arc_t2 := m; arc_b1 := arc_b1 c; arc_b2 := arc_b2 c;
     arc_p := arc_p c; arc_cap := arc_cap c |}.
Definition arc_set_b1 m (c : ArcCache) : ArcCache :=
  {| arc_t1 := arc_t1 c; arc_t2 := arc_t2 c; arc_b1 := m; arc_b2 := arc_b2 c;
     arc_p := arc_p c; arc_cap := arc_cap c |}.
Definition arc_set_b2 m (c : ArcCache) : ArcCache :=
  {| arc_t1 := arc_t1 c; arc_t2 := arc_t2 c; arc_b1 := arc_b1 c; arc_b2 := m;
     arc_p := arc_p c; arc_cap := arc_cap c |}.
Definition arc_set_p p (c : ArcCache) : ArcCache :=
  {| arc_t1 := arc_t1 c; arc_t2 := arc_t2 c; arc_b1 := arc_b1 c; arc_b2 := arc_b2 c;
     arc_p := p; arc_cap := arc_cap c |}.
Definition arc_set_cap n (c : ArcCache) : ArcCache :=
  {| arc_t1 := arc_t1 c; arc_t2 := arc_t2 c; arc_b1 := arc_b1 c; arc_b2 := arc_b2 c;
     arc_p := arc_p c; arc_cap := n |}.

(** [ArcCache::new]: a capacity of 0 is treated as 1. *)
Definition arc_new (cap : nat) : ArcCache :=
  {| arc_t1 := lhm_new; arc_t2 := lhm_new; arc_b1 := lhm_new; arc_b2 := lhm_new;
     arc_p := 0; arc_cap := Nat.max cap 1 |}.

Definition arc_len (c : ArcCache) : nat := lhm_len (arc_t1 c) + lhm_len (arc_t2 c).

Definition arc_directory_len (c : ArcCache) : nat :=
  lhm_len (arc_t1 c) + lhm_len (arc_t2 c) + lhm_len (arc_b1 c) + lhm_len (arc_b2 c).

Definition arc_remove_if_expired_t1 (now : Z) (key : K) (c : ArcCache) : ArcCache * bool :=
  let expired := opt_expired now (lhm_get key (arc_t1 c)) in
  ((if expired then arc_set_t1 (lhm_remove key (arc_t1 c)).1 c else c), expired).

Definition arc_remove_if_expired_t2 (now : Z) (key : K) (c : ArcCache) : ArcCache * bool :=
  let expired := opt_expired now (lhm_get key (arc_t2 c)) in
  ((if expired then arc_set_t2 (lhm_remove key (arc_t2 c)).1 c else c), expired).

(** The body shared by the first and third branch of [replace]. *)
Definition arc_evict_t1 (c : ArcCache) : ArcCache :=
  match lhm_pop_front (arc_t1 c) with
  | (t1, Some (k, _)) =>
      let c := arc_set_t1 t1 c in
      let b1 := if bool_decide (2 * arc_cap c ≤ arc_directory_len c)
                then (lhm_pop_front (arc_b1 c)).1 else arc_b1 c in
      arc_set_b1 (lhm_insert k () b1).1 c
  | (t1, None) => arc_set_t1 t1 c
  end.

Definition arc_evict_t2 (c : ArcCache) : ArcCache :=
  match lhm_pop_front (arc_t2 c) with
  | (t2, Some (k, _)) =>
      let c := arc_set_t2 t2 c in
      let b2 := if bool_decide (2 * arc_cap c ≤ arc_directory_len c)
                then (lhm_pop_front (arc_b2 c)).1 else arc_b2 c in
      arc_set_b2 (lhm_insert k () b2).1 c
  | (t2, None) => arc_set_t2 t2 c
  end.

Definition arc_replace (c : ArcCache) : ArcCache :=
  let t1_len := lhm_len (arc_t1 c) in
  let evict_from_t1 := bool_decide (Nat.max (arc_p c) 1 ≤ t1_len) && bool_decide (1 ≤ t1_len) in
  if evict_from_t1 then arc_evict_t1 c
  else if negb (lhm_is_empty (arc_t2 c)) then arc_evict_t2 c
  else if negb (lhm_is_empty (arc_t1 c)) then arc_evict_t1 c
  else c.

(** The adaptation of [p] on a ghost hit. *)
Definition arc_grow_p (c : ArcCache) : ArcCache :=
  let b1_len := Nat.max (lhm_len (arc_b1 c)) 1 in
  let delta := Nat.max (lhm_len (arc_b2 c) / b1_len) 1 in
  arc_set_p (Nat.min (arc_p c + delta) (arc_cap c)) c.

Definition arc_shrink_p (c : ArcCache) : ArcCache :=
  let b2_len := Nat.max (lhm_len (arc_b2 c)) 1 in
  let delta := Nat.max (lhm_len (arc_b1 c) / b2_len) 1 in
  arc_set_p (arc_p c - delta) c.

(** [if self.t1.len() + self.t2.len() >= self.cap { self.replace(); }] *)
Definition arc_make_room (c : ArcCache) : ArcCache :=
  if bool_decide (arc_cap c ≤ arc_len c) then arc_replace c else c.

(** Enforcement of the limits on a full miss, before inserting to [t1]. *)
Definition arc_full_miss (c : ArcCache) : ArcCache :=
  if bool_decide (arc_len c < arc_cap c) then
    if bool_decide (arc_cap c ≤ arc_directory_len c)
       && bool_decide (2 * arc_cap c ≤ arc_directory_len c) then
      if negb (lhm_is_empty (arc_b2 c)) then arc_set_b2 (lhm_pop_front (arc_b2 c)).1 c
      else arc_set_b1 (lhm_pop_front (arc_b1 c)).1 c
    else c
  else
    if bool_decide (lhm_len (arc_t1 c) + lhm_len (arc_b1 c) = arc_cap c) then
      if negb (lhm_is_empty (arc_t1 c)) then arc_replace c
      else arc_set_b1 (lhm_pop_front (arc_b1 c)).1 c
    else
      let c :=
        if bool_decide (2 * arc_cap c ≤ arc_directory_len c) then
          if negb (lhm_is_empty (arc_b2 c)) then arc_set_b2 (lhm_pop_front (arc_b2 c)).1 c
          else if negb (lhm_is_empty (arc_b1 c)) then arc_set_b1 (lhm_pop_front (arc_b1 c)).1 c
          else c
        else c in
      arc_replace c.

Definition arc_insert_entry (key : K) (entry : CacheEntry V) (c : ArcCache)
    : ArcCache * option V :=
  if lhm_contains_key key (arc_t1 c) then
    let '(t1, old) := lhm_remove key (arc_t1 c) in
    (arc_set_t2 (lhm_insert key entry (arc_t2 c)).1 (arc_set_t1 t1 c), value <$> old)
  else if lhm_contains_key key (arc_t2 c) then
    let '(t2, old) := lhm_insert key entry (arc_t2 c) in
    (arc_set_t2 t2 c, value <$> old)
  else
    match lhm_remove key (arc_b1 c) with
    | (b1, Some _) =>
        let c := arc_make_room (arc_grow_p (arc_set_b1 b1 c)) in
        (arc_set_t2 (lhm_insert key entry (arc_t2 c)).1 c, None)
    | (b1, None) =>
        let c := arc_set_b1 b1 c in
        match lhm_remove key (arc_b2 c) with
        | (b2, Some _) =>
            let c := arc_make_room (arc_shrink_p (arc_set_b2 b2 c)) in
            (arc_set_t2 (lhm_insert key entry (arc_t2 c)).1 c, None)
        | (b2, None) =>
            let c := arc_full_miss (arc_set_b2 b2 c) in
            (arc_set_t1 (lhm_insert key entry (arc_t1 c)).1 c, None)
        end
    end.

Definition arc_get (now : Z) (key : K) (c : ArcCache) : ArcCache * option V :=
  if lhm_contains_key key (arc_t1 c) then
    let '(c, expired) := arc_remove_if_expired_t1 now key c in
    if expired then (c, None)
    else
      match lhm_remove key (arc_t1 c) with
      | (t1, Some e) =>
          let c := arc_set_t2 (lhm_insert key e (arc_t2 c)).1 (arc_set_t1 t1 c) in
          (c, value <$> lhm_get key (arc_t2 c))
      | (t1, None) => (arc_set_t1 t1 c, None)
      end
  else if lhm_contains_key key (arc_t2 c) then
    let '(c, expired) := arc_remove_if_expired_t2 now key c in
    if expired then (c, None)
    else
      match lhm_remove key (arc_t2 c) with
      | (t2, Some e) =>
          let c := arc_set_t2 (lhm_insert key e t2).1 c in
          (c, value <$> lhm_get key (arc_t2 c))
      | (t2, None) =>
          let c := arc_set_t2 t2 c in (c, value <$> lhm_get key (arc_t2 c))
      end
  else if lhm_contains_key key (arc_b1 c) then (arc_replace (arc_grow_p c), None)
  else if lhm_contains_key key (arc_b2 c) then (arc_replace (arc_shrink_p c), None)
  else (c, None).

Definition arc_put (key : K) (v : V) (c : ArcCache) : ArcCache * option V :=
  arc_insert_entry key (entry_new v) c.

Definition arc_put_with_ttl (now : Z) (key : K) (v : V) (ttl : Z) (c : ArcCache)
    : ArcCache * option V :=
  arc_insert_entry key (entry_with_ttl now v ttl) c.

Definition arc_peek (now : Z) (key : K) (c : ArcCache) : option V :=
  match live_value now (lhm_get key (arc_t1 c)) with
  | Some v => Some v
  | None => live_value now (lhm_get key (arc_t2 c))
  end.

Definition arc_contains_key (now : Z) (key : K) (c : ArcCache) : bool :=
  opt_live now (lhm_get key (arc_t1 c)) || opt_live now (lhm_get key (arc_t2 c)).

Definition arc_remove (key : K) (c : ArcCache) : ArcCache * option V :=
  match lhm_remove key (arc_t1 c) with
  | (t1, Some e) => (arc_set_t1 t1 c, Some (value e))
  | (t1, None) =>
      let c := arc_set_t1 t1 c in
      match lhm_remove key (arc_t2 c) with
      | (t2, Some e) => (arc_set_t2 t2 c, Some (value e))
      | (t2, None) =>
          let c := arc_set_t2 t2 c in
          let c := arc_set_b1 (lhm_remove key (arc_b1 c)).1 c in
          (arc_set_b2 (lhm_remove key (arc_b2 c)).1 c, None)
      end
  end.

Definition arc_clear (c : ArcCache) : ArcCache :=
  {| arc_t1 := lhm_clear (arc_t1 c); arc_t2 := lhm_clear (arc_t2 c);
     arc_b1 := lhm_clear (arc_b1 c); arc_b2 := lhm_clear (arc_b2 c);
     arc_p := 0; arc_cap := arc_cap c |}.

(** [while self.len() > self.cap { self.replace(); }] *)
Fixpoint arc_resize_loop (fuel : nat) (c : ArcCache) : option ArcCache :=
  if bool_decide (arc_cap c < arc_len c) then
    match fuel with 0 => None | S fuel => arc_resize_loop fuel (arc_replace c) end
  else Some c.

Definition arc_resize (fuel new_cap : nat) (c : ArcCache) : option ArcCache :=
  let c := arc_set_cap (Nat.max new_cap 1) c in
  let c := if bool_decide (arc_cap c < arc_p c) then arc_set_p (arc_cap c) c else c in
  arc_resize_loop fuel c.

Definition arc_values (now : Z) (c : ArcCache) : list V :=
  let live m := map value (List.filter (λ e, negb (entry_is_expired now e)) (lhm_iter m).*2) in
  live (arc_t1 c) ++ live (arc_t2 c).

#[global] Instance arc_cache : Cache K V ArcCache := {|
  cache_get := arc_get;
  cache_put := arc_put;
  cache_put_with_ttl := arc_put_with_ttl;
  cache_len := arc_len;
  cache_cap := arc_cap;
  cache_remove := arc_remove;
  cache_clear := arc_clear;
  cache_peek := arc_peek;
  cache_contains_key := arc_contains_key;
|}.

(** Histories of calls. *)
Inductive ArcOp :=
| ArcGet (now : Z) (k : K)
| ArcPut (k : K) (v : V)
| ArcPutTtl (now : Z) (k : K) (v : V) (ttl : Z)
| ArcRemove (k : K)
| ArcClear
| ArcResize (n : nat).

Definition arc_step (op : ArcOp) (c : ArcCache) : ArcCache :=
  match op with
  | ArcGet now k => (arc_get now k c).1
  | ArcPut k v => (arc_put k v c).1
  | ArcPutTtl now k v ttl => (arc_put_with_ttl now k v ttl c).1
  | ArcRemove k => (arc_remove k c).1
  | ArcClear => arc_clear c
  | ArcResize n => default c (arc_resize (arc_len c) n c)
  end.

Definition arc_run (ops : list ArcOp) (c : ArcCache) : ArcCache :=
  foldl (λ c op, arc_step op c) c ops.
End ArcModel.
Arguments ArcCache : clear implicits.
Arguments ArcOp : clear implicits.

Create HintDb arc.

Section ArcTheory.
Context {K V : Type} `{!EqDecision K} {M : Type → Type} `{!LinkedHashMap K M, !LinkedHashMapLaws K M}.
Abbreviation arc := (ArcCache V M).
Implicit Types c : arc.

Definition T1 (c : arc) : list (K * CacheEntry V) := lhm_iter (arc_t1 c).
Definition T2 (c : arc) : list (K * CacheEntry V) := lhm_iter (arc_t2 c).
Definition B1 (c : arc) : list K := (lhm_iter (arc_b1 c)).*1.
Definition B2 (c : arc) : list K := (lhm_iter (arc_b2 c)).*1.

(** A key is in at most one of the four lists; the target and the capacity are
    in range. *)
Record arc_inv (c : arc) : Prop := {
  arc_disjoint k :
    (k ∈ (T1 c).*1 → (k ∉ (T2 c).*1) ∧ (k ∉ B1 c) ∧ (k ∉ B2 c)) ∧
    (k ∈ (T2 c).*1 → (k ∉ B1 c) ∧ (k ∉ B2 c)) ∧
    (k ∈ B1 c → k ∉ B2 c);
  arc_p_le_cap : arc_p c ≤ arc_cap c;
  arc_cap_pos : 1 ≤ arc_cap c;
}.

(** The entry of a key, wherever it lives. *)
Definition arc_find (k : K) (c : arc) : option (CacheEntry V) :=
  match assoc k (T1 c) with Some e => Some e | None => assoc k (T2 c) end.

Lemma T1_NoDup c : NoDup (T1 c).*1. Proof. apply lhm_iter_NoDup. Qed.
Lemma T2_NoDup c : NoDup (T2 c).*1. Proof. apply lhm_iter_NoDup. Qed.

Lemma arc_len_lists c : arc_len c = length (T1 c) + length (T2 c).
Proof. unfold arc_len. by rewrite !lhm_len_iter. Qed.

Lemma arc_peek_find t k c : arc_inv c → arc_peek t k c = live_value t (arc_find k c).
Proof.
  intros [Hd _ _]. unfold arc_peek, arc_find. rewrite !lhm_get_iter. fold (T1 c) (T2 c).
  destruct (assoc k (T1 c)) as [e|] eqn:E; [|done].
  assert (assoc k (T2 c) = None) as ->.
  { apply assoc_None. apply (Hd k). apply assoc_is_Some. eauto. }
  simpl. by destruct (entry_is_expired t e).
Qed.

(** *** The effect of [replace] *)

(** One live entry left for the ghost list of its side. *)
Definition arc_evicted (c c' : arc) : Prop :=
  arc_p c' = arc_p c ∧ arc_cap c' = arc_cap c ∧
  ((∃ k e l, T1 c = (k, e) :: l ∧ T1 c' = l ∧ T2 c' = T2 c ∧ B2 c' = B2 c ∧
     (∀ k', k' ∈ B1 c' → k' = k ∨ k' ∈ B1 c)) ∨
   (∃ k e l, T2 c = (k, e) :: l ∧ T2 c' = l ∧ T1 c' = T1 c ∧ B1 c' = B1 c ∧
     (∀ k', k' ∈ B2 c' → k' = k ∨ k' ∈ B2 c))).

Lemma ghost_insert_keys (m : M unit) (b : bool) k k' :
  k' ∈ (lhm_iter (lhm_insert k () (if b then (lhm_pop_front m).1 else m)).1).*1 →
  k' = k ∨ k' ∈ (lhm_iter m).*1.
Proof.
  rewrite lhm_insert_iter, assoc_push_keys. intros [->|H]; [by left|right].
  destruct b; [|done]. rewrite lhm_pop_front_iter in H.
  destruct (lhm_iter m); [done|]. csimpl in *. set_solver.
Qed.

Lemma arc_evict_t1_spec c k e l : T1 c = (k, e) :: l → arc_evicted c (arc_evict_t1 c).
Proof.
  intros H. unfold arc_evict_t1. destruct (lhm_pop_front (arc_t1 c)) as [t1 o] eqn:E.
  pose proof (lhm_pop_front_iter (arc_t1 c)) as H1. pose proof (lhm_pop_front_old (arc_t1 c)) as H2.
  rewrite E in *. unfold T1 in H. rewrite H in *. simpl in *. subst o.
  split; [done|]. split; [done|]. left. exists k, e, l. split_and!; try done.
  intros k'. apply ghost_insert_keys.
Qed.

Lemma arc_evict_t2_spec c k e l : T2 c = (k, e) :: l → arc_evicted c (arc_evict_t2 c).
Proof.
  intros H. unfold arc_evict_t2. destruct (lhm_pop_front (arc_t2 c)) as [t2 o] eqn:E.
  pose proof (lhm_pop_front_iter (arc_t2 c)) as H1. pose proof (lhm_pop_front_old (arc_t2 c)) as H2.
  rewrite E in *. unfold T2 in H. rewrite H in *. simpl in *. subst o.
  split; [done|]. split; [done|]. right. exists k, e, l. split_and!; try done.
  intros k'. apply ghost_insert_keys.
Qed.

Lemma lhm_is_empty_iter {W} (m : M W) : lhm_is_empty m = bool_decide (lhm_iter m = []).
Proof.
  unfold lhm_is_empty. rewrite lhm_len_iter. destruct (lhm_iter m); by repeat case_bool_decide.
Qed.

Lemma arc_replace_spec c :
  (T1 c = [] ∧ T2 c = [] ∧ arc_replace c = c) ∨ arc_evicted c (arc_replace c).
Proof.
  unfold arc_replace. rewrite !lhm_is_empty_iter, lhm_len_iter. fold (T1 c) (T2 c).
  destruct (T1 c) as [|[k1 e1] l1] eqn:E1, (T2 c) as [|[k2 e2] l2] eqn:E2; simpl.
  - left. rewrite andb_false_r. done.
  - right. rewrite andb_false_r. simpl. by eapply arc_evict_t2_spec.
  - right. destruct (_ && _); by eapply arc_evict_t1_spec.
  - right. destruct (_ && _); [by eapply arc_evict_t1_spec|by eapply arc_evict_t2_spec].
Qed.

Lemma arc_evicted_inv c c' : arc_evicted c c' → arc_inv c → arc_inv c'.
Proof.
  intros (Hp & Hcap & Hcase) [Hd Hple Hpos]. split; [|lia..]. intros k'.
  pose proof (T1_NoDup c) as Hn1. pose proof (T2_NoDup c) as Hn2.
  destruct Hcase as [(k & e & l & E & -> & -> & -> & Hb)|(k & e & l & E & -> & -> & -> & Hb)];
    rewrite E in *; csimpl in *.
  - apply NoDup_cons in Hn1 as [Hk Hl]. specialize (Hb k'). pose proof (Hd k) as Hdk.
    specialize (Hd k'). setoid_rewrite elem_of_cons in Hd. setoid_rewrite elem_of_cons in Hdk.
    destruct (decide (k' = k)) as [->|]; naive_solver.
  - apply NoDup_cons in Hn2 as [Hk Hl]. specialize (Hb k'). pose proof (Hd k) as Hdk.
    specialize (Hd k'). setoid_rewrite elem_of_cons in Hd. setoid_rewrite elem_of_cons in Hdk.
    destruct (decide (k' = k)) as [->|]; naive_solver.
Qed.

Lemma arc_evicted_find c c' k e :
  arc_evicted c c' → arc_inv c → arc_find k c' = Some e → arc_find k c = Some e.
Proof.
  intros (_ & _ & Hcase) [Hd _ _]. unfold arc_find.
  pose proof (T1_NoDup c) as Hn1. pose proof (T2_NoDup c) as Hn2.
  destruct Hcase as [(k0 & e0 & l & E & -> & -> & _)|(k0 & e0 & l & E & -> & -> & _)];
    rewrite E in *.
  - rewrite (assoc_cons_tail _ _ _ k Hn1). case_decide as Hk; [|done]. subst k0.
    intros H. exfalso. destruct (Hd k) as (Hd1 & _). destruct Hd1 as [Hd1 _]; [csimpl; set_solver|].
    apply Hd1, assoc_is_Some. eauto.
  - destruct (assoc k (T1 c)); [done|].
    rewrite (assoc_cons_tail _ _ _ k Hn2). by case_decide.
Qed.

Lemma arc_evicted_len c c' : arc_evicted c c' → arc_len c = S (arc_len c').
Proof.
  rewrite !arc_len_lists.
  intros (_ & _ & [(k0 & e0 & l & -> & -> & -> & _)|(k0 & e0 & l & -> & -> & -> & _)]); simpl; lia.
Qed.

Lemma arc_replace_inv c : arc_inv c → arc_inv (arc_replace c).
Proof. intros. destruct (arc_replace_spec c) as [(_ & _ & ->)|?]; eauto using arc_evicted_inv. Qed.

Lemma arc_replace_find c k e :
  arc_inv c → arc_find k (arc_replace c) = Some e → arc_find k c = Some e.
Proof. intros. destruct (arc_replace_spec c) as [(_ & _ & H1)|?]; [congruence|eauto using arc_evicted_find]. Qed.

Lemma arc_replace_len c : arc_len (arc_replace c) = arc_len c - 1.
Proof.
  destruct (arc_replace_spec c) as [(H1 & H2 & ->)|H%arc_evicted_len]; [|lia].
  rewrite arc_len_lists, H1, H2. done.
Qed.

Lemma arc_replace_cap c : arc_cap (arc_replace c) = arc_cap c.
Proof. by destruct (arc_replace_spec c) as [(_ & _ & ->)|(_ & ? & _)]. Qed.

(** Replacing never adds a key to any list. *)
Lemma arc_replace_absent c k :
  (k ∉ (T1 c).*1) → (k ∉ (T2 c).*1) → (k ∉ B1 c) → (k ∉ B2 c) →
  (k ∉ (T1 (arc_replace c)).*1) ∧ (k ∉ (T2 (arc_replace c)).*1) ∧
  (k ∉ B1 (arc_replace c)) ∧ (k ∉ B2 (arc_replace c)).
Proof.
  intros. destruct (arc_replace_spec c) as [(_ & _ & ->)|(_ & _ & Hcase)]; [done|].
  destruct Hcase as [(k0 & e0 & l & E & -> & -> & -> & Hb)|(k0 & e0 & l & E & -> & -> & -> & Hb)];
    rewrite E in *; csimpl in *; specialize (Hb k); set_solver.
Qed.

(** *** Smaller ghost lists *)
Definition arc_ghost_sub (c c' : arc) : Prop :=
  T1 c' = T1 c ∧ T2 c' = T2 c ∧ (∀ k, k ∈ B1 c' → k ∈ B1 c) ∧ (∀ k, k ∈ B2 c' → k ∈ B2 c) ∧
  arc_p c' ≤ arc_cap c' ∧ arc_cap c' = arc_cap c.

Definition arc_absent (k : K) (c : arc) : Prop :=
  (k ∉ (T1 c).*1) ∧ (k ∉ (T2 c).*1) ∧ (k ∉ B1 c) ∧ (k ∉ B2 c).

Lemma arc_ghost_sub_inv c c' : arc_ghost_sub c c' → arc_inv c → arc_inv c'.
Proof.
  intros (H1 & H2 & H3 & H4 & Hp & Hc) [Hd ? ?]. split; [|lia..].
  intros k. rewrite H1, H2. specialize (Hd k). specialize (H3 k). specialize (H4 k). naive_solver.
Qed.

Lemma arc_ghost_sub_find c c' k : arc_ghost_sub c c' → arc_find k c' = arc_find k c.
Proof. intros (H1 & H2 & _). unfold arc_find. by rewrite H1, H2. Qed.

Lemma arc_ghost_sub_absent c c' k : arc_ghost_sub c c' → arc_absent k c → arc_absent k c'.
Proof. intros (H1 & H2 & H3 & H4 & _) (?&?&?&?). unfold arc_absent. rewrite H1, H2. naive_solver. Qed.

Lemma arc_ghost_sub_len c c' : arc_ghost_sub c c' → arc_len c' = arc_len c.
Proof. intros (H1 & H2 & _). by rewrite !arc_len_lists, H1, H2. Qed.

Lemma tail_keys_sub {W} (l : list (K * W)) k : k ∈ (tail l).*1 → k ∈ l.*1.
Proof. destruct l; [done|]. csimpl. set_solver. Qed.

Lemma arc_pop_b1_sub c : arc_p c ≤ arc_cap c →
  arc_ghost_sub c (arc_set_b1 (lhm_pop_front (arc_b1 c)).1 c).
Proof.
  intros. split_and!; try done. intros k. unfold B1. simpl. rewrite lhm_pop_front_iter.
  apply tail_keys_sub.
Qed.

Lemma arc_pop_b2_sub c : arc_p c ≤ arc_cap c →
  arc_ghost_sub c (arc_set_b2 (lhm_pop_front (arc_b2 c)).1 c).
Proof.
  intros. split_and!; try done. intros k. unfold B2. simpl. rewrite lhm_pop_front_iter.
  apply tail_keys_sub.
Qed.

Lemma arc_remove_b1_sub k c : arc_p c ≤ arc_cap c →
  arc_ghost_sub c (arc_set_b1 (lhm_remove k (arc_b1 c)).1 c).
Proof.
  intros. split_and!; try done. intros k'. unfold B1. simpl. rewrite lhm_remove_iter.
  rewrite assoc_remove_keys. tauto.
Qed.

Lemma arc_remove_b2_sub k c : arc_p c ≤ arc_cap c →
  arc_ghost_sub c (arc_set_b2 (lhm_remove k (arc_b2 c)).1 c).
Proof.
  intros. split_and!; try done. intros k'. unfold B2. simpl. rewrite lhm_remove_iter.
  rewrite assoc_remove_keys. tauto.
Qed.

Lemma arc_grow_p_sub c : arc_ghost_sub c (arc_grow_p c).
Proof. split_and!; try done. simpl. lia. Qed.

Lemma arc_shrink_p_sub c : arc_p c ≤ arc_cap c → arc_ghost_sub c (arc_shrink_p c).
Proof. intros. split_and!; try done. simpl. lia. Qed.

#[local] Hint Resolve arc_pop_b1_sub arc_pop_b2_sub arc_remove_b1_sub arc_remove_b2_sub
  arc_grow_p_sub arc_shrink_p_sub arc_p_le_cap : arc.
#[local] Hint Resolve arc_ghost_sub_inv arc_replace_inv : arc.

(** What the preparation of an insertion guarantees: the invariant, no new key,
    no new entry. *)
Definition arc_shrinks (c c' : arc) : Prop :=
  arc_inv c' ∧ arc_cap c' = arc_cap c ∧ arc_len c' ≤ arc_len c ∧
  (∀ k, arc_absent k c → arc_absent k c') ∧
  (∀ k e, arc_find k c' = Some e → arc_find k c = Some e).

Lemma arc_shrinks_refl c : arc_inv c → arc_shrinks c c.
Proof. intros. by split_and!. Qed.

Lemma arc_shrinks_trans c1 c2 c3 : arc_shrinks c1 c2 → arc_shrinks c2 c3 → arc_shrinks c1 c3.
Proof.
  intros (?&?&?&?&?) (?&?&?&?&?). split_and!; [done|congruence|lia|auto|auto].
Qed.

Lemma arc_shrinks_replace c : arc_inv c → arc_shrinks c (arc_replace c).
Proof.
  intros Hi. split_and!.
  - auto with arc.
  - apply arc_replace_cap.
  - rewrite arc_replace_len. lia.
  - intros k (?&?&?&?). by apply arc_replace_absent.
  - intros k e. by apply arc_replace_find.
Qed.

Lemma arc_shrinks_ghost c c' : arc_inv c → arc_ghost_sub c c' → arc_shrinks c c'.
Proof.
  intros Hi Hs. split_and!.
  - eauto with arc.
  - apply Hs.
  - by rewrite (arc_ghost_sub_len _ _ Hs).
  - intros k. by apply arc_ghost_sub_absent.
  - intros k e. by rewrite (arc_ghost_sub_find _ _ k Hs).
Qed.

Lemma arc_shrinks_make_room c : arc_inv c → arc_shrinks c (arc_make_room c).
Proof.
  intros. unfold arc_make_room. case_bool_decide; [by apply arc_shrinks_replace|by apply arc_shrinks_refl].
Qed.

Lemma arc_shrinks_then_replace c c' : arc_shrinks c c' → arc_shrinks c (arc_replace c').
Proof. intros H. eapply arc_shrinks_trans; [done|]. destruct H. by apply arc_shrinks_replace. Qed.

Lemma arc_shrinks_full_miss c : arc_inv c → arc_shrinks c (arc_full_miss c).
Proof.
  intros Hi. unfold arc_full_miss.
  repeat match goal with |- context [if ?b then _ else _] => destruct b end;
    eauto 6 using arc_shrinks_refl, arc_shrinks_replace, arc_shrinks_ghost,
      arc_shrinks_then_replace with arc.
Qed.

(** *** Inserting an absent key *)
Lemma arc_insert_fresh_t1 k e c :
  arc_inv c → arc_absent k c →
  arc_inv (arc_set_t1 (lhm_insert k e (arc_t1 c)).1 c) ∧
  arc_len (arc_set_t1 (lhm_insert k e (arc_t1 c)).1 c) = S (arc_len c) ∧
  ∀ k', arc_find k' (arc_set_t1 (lhm_insert k e (arc_t1 c)).1 c) =
        if decide (k' = k) then Some e else arc_find k' c.
Proof.
  intros [Hd ? ?] (H1 & H2 & H3 & H4). unfold arc_find, T1, T2, B1, B2 in *; simpl.
  split_and!.
  - split; [|done..]. intros k'. unfold T1, T2, B1, B2 in *. simpl.
    rewrite lhm_insert_iter, assoc_push_keys. specialize (Hd k'). naive_solver.
  - rewrite !arc_len_lists. unfold T1, T2. simpl. rewrite lhm_insert_iter, assoc_push_length by apply lhm_iter_NoDup.
    apply assoc_None in H1. rewrite H1. lia.
  - intros k'. rewrite lhm_insert_iter. case_decide as Hk.
    + subst. by rewrite assoc_push_eq.
    + by rewrite assoc_push_ne.
Qed.

Lemma arc_insert_fresh_t2 k e c :
  arc_inv c → arc_absent k c →
  arc_inv (arc_set_t2 (lhm_insert k e (arc_t2 c)).1 c) ∧
  arc_len (arc_set_t2 (lhm_insert k e (arc_t2 c)).1 c) = S (arc_len c) ∧
  ∀ k', arc_find k' (arc_set_t2 (lhm_insert k e (arc_t2 c)).1 c) =
        if decide (k' = k) then Some e else arc_find k' c.
Proof.
  intros [Hd ? ?] (H1 & H2 & H3 & H4). unfold arc_find, T1, T2, B1, B2 in *; simpl.
  split_and!.
  - split; [|done..]. intros k'. unfold T1, T2, B1, B2 in *. simpl.
    rewrite lhm_insert_iter, assoc_push_keys. specialize (Hd k'). naive_solver.
  - rewrite !arc_len_lists. unfold T1, T2. simpl. rewrite lhm_insert_iter, assoc_push_length by apply lhm_iter_NoDup.
    apply assoc_None in H2. rewrite H2. lia.
  - intros k'. rewrite lhm_insert_iter. case_decide as Hk.
    + subst. apply assoc_None in H1. rewrite H1. by rewrite assoc_push_eq.
    + by rewrite assoc_push_ne.
Qed.

(** Removing a key from its list makes it absent. *)
Lemma arc_take_t1 k c :
  arc_inv c → k ∈ (T1 c).*1 →
  arc_inv (arc_set_t1 (lhm_remove k (arc_t1 c)).1 c) ∧
  arc_absent k (arc_set_t1 (lhm_remove k (arc_t1 c)).1 c) ∧
  S (arc_len (arc_set_t1 (lhm_remove k (arc_t1 c)).1 c)) = arc_len c ∧
  ∀ k', arc_find k' (arc_set_t1 (lhm_remove k (arc_t1 c)).1 c) =
        if decide (k' = k) then None else arc_find k' c.
Proof.
  intros [Hd ? ?] Hk. pose proof (Hd k) as Hdk. destruct Hdk as (Hdk & _). specialize (Hdk Hk).
  unfold arc_absent, arc_find, T1, T2, B1, B2 in *; simpl. split_and!; try tauto.
  - split; [|done..]. intros k'. unfold T1, T2, B1, B2 in *. simpl.
    rewrite lhm_remove_iter, assoc_remove_keys. specialize (Hd k'). naive_solver.
  - rewrite lhm_remove_iter, assoc_remove_keys. tauto.
  - rewrite !arc_len_lists. unfold T1, T2. simpl. rewrite lhm_remove_iter, assoc_remove_length by apply lhm_iter_NoDup.
    apply assoc_is_Some in Hk as [e He]. rewrite He.
    destruct (lhm_iter (arc_t1 c)); simpl in *; [done|lia].
  - intros k'. rewrite lhm_remove_iter. case_decide as E.
    + subst. rewrite assoc_remove_eq. apply assoc_None. tauto.
    + by rewrite assoc_remove_ne.
Qed.

Lemma arc_take_t2 k c :
  arc_inv c → k ∈ (T2 c).*1 →
  arc_inv (arc_set_t2 (lhm_remove k (arc_t2 c)).1 c) ∧
  arc_absent k (arc_set_t2 (lhm_remove k (arc_t2 c)).1 c) ∧
  S (arc_len (arc_set_t2 (lhm_remove k (arc_t2 c)).1 c)) = arc_len c ∧
  ∀ k', arc_find k' (arc_set_t2 (lhm_remove k (arc_t2 c)).1 c) =
        if decide (k' = k) then None else arc_find k' c.
Proof.
  intros [Hd ? ?] Hk. pose proof (Hd k) as Hdk. destruct Hdk as (Hdk1 & Hdk & _). specialize (Hdk Hk).
  assert (k ∉ (T1 c).*1) as Hk1 by tauto.
  unfold arc_absent, arc_find, T1, T2, B1, B2 in *; simpl. split_and!; try tauto.
  - split; [|done..]. intros k'. unfold T1, T2, B1, B2 in *. simpl.
    rewrite lhm_remove_iter, assoc_remove_keys. specialize (Hd k'). naive_solver.
  - rewrite lhm_remove_iter, assoc_remove_keys. tauto.
  - rewrite !arc_len_lists. unfold T1, T2. simpl. rewrite lhm_remove_iter, assoc_remove_length by apply lhm_iter_NoDup.
    apply assoc_is_Some in Hk as [e He]. rewrite He.
    destruct (lhm_iter (arc_t2 c)); simpl in *; [done|lia].
  - intros k'. rewrite lhm_remove_iter. case_decide as E.
    + subst. rewrite assoc_remove_eq. apply assoc_None in Hk1. by rewrite Hk1.
    + by rewrite assoc_remove_ne.
Qed.

(** Overwriting a key of [t2]. *)
Lemma arc_update_t2 k e c :
  arc_inv c → k ∈ (T2 c).*1 →
  arc_inv (arc_set_t2 (lhm_insert k e (arc_t2 c)).1 c) ∧
  arc_len (arc_set_t2 (lhm_insert k e (arc_t2 c)).1 c) = arc_len c ∧
  ∀ k', arc_find k' (arc_set_t2 (lhm_insert k e (arc_t2 c)).1 c) =
        if decide (k' = k) then Some e else arc_find k' c.
Proof.
  intros [Hd ? ?] Hk. pose proof (Hd k) as Hdk.
  assert (assoc k (T1 c) = None) as Hk1 by (apply assoc_None; tauto).
  unfold arc_find, T1, T2, B1, B2 in *; simpl. split_and!.
  - split; [|done..]. intros k'. unfold T1, T2, B1, B2 in *. simpl.
    rewrite lhm_insert_iter, assoc_push_keys. specialize (Hd k').
    destruct (decide (k' = k)) as [->|]; naive_solver.
  - rewrite !arc_len_lists. unfold T1, T2. simpl.
    rewrite lhm_insert_iter, assoc_push_length by apply lhm_iter_NoDup.
    apply assoc_is_Some in Hk as [e0 ->]. lia.
  - intros k'. rewrite lhm_insert_iter. case_decide.
    + subst. by rewrite Hk1, assoc_push_eq.
    + by rewrite assoc_push_ne.
Qed.

(** Moving a key from [t1] to [t2]. *)
Lemma arc_promote k e c :
  let c' := arc_set_t2 (lhm_insert k e (arc_t2 c)).1 (arc_set_t1 (lhm_remove k (arc_t1 c)).1 c) in
  arc_inv c → k ∈ (T1 c).*1 →
  arc_inv c' ∧ arc_len c' = arc_len c ∧
  ∀ k', arc_find k' c' = if decide (k' = k) then Some e else arc_find k' c.
Proof.
  intros c' Hi Hk. destruct (arc_take_t1 k c Hi Hk) as (Hi1 & Habs & Hlen & Hf).
  destruct (arc_insert_fresh_t2 k e _ Hi1 Habs) as (Hi2 & Hlen2 & Hf2).
  split_and!; [done|by rewrite <-Hlen|]. intros k'. subst c'. simpl in *. rewrite Hf2, Hf.
  by case_decide.
Qed.

Lemma arc_find_None k c : arc_find k c = None ↔ (k ∉ (T1 c).*1) ∧ (k ∉ (T2 c).*1).
Proof.
  unfold arc_find. rewrite <-!assoc_None. destruct (assoc k (T1 c)); naive_solver.
Qed.

Lemma arc_find_T1 k c e : assoc k (T1 c) = Some e → arc_find k c = Some e.
Proof. unfold arc_find. by intros ->. Qed.

Lemma arc_find_T2 k c e : assoc k (T1 c) = None → assoc k (T2 c) = Some e → arc_find k c = Some e.
Proof. unfold arc_find. by intros -> ->. Qed.

(** *** Insertion *)
Definition arc_inserts (k : K) (e : CacheEntry V) (c c' : arc) : Prop :=
  arc_inv c' ∧ arc_cap c' = arc_cap c ∧ arc_find k c' = Some e ∧
  ∀ k' e', k' ≠ k → arc_find k' c' = Some e' → arc_find k' c = Some e'.

Lemma arc_inserts_fresh_t1 k e c c' :
  arc_shrinks c c' → arc_absent k c' → arc_inserts k e c (arc_set_t1 (lhm_insert k e (arc_t1 c')).1 c').
Proof.
  intros (Hi & Hc & _ & _ & Hf) Habs.
  destruct (arc_insert_fresh_t1 k e c' Hi Habs) as (Hi' & _ & Hf').
  split_and!; [done|done| |].
  - rewrite Hf'. by rewrite decide_True.
  - intros k' e' Hne. rewrite Hf', decide_False by done. apply Hf.
Qed.

Lemma arc_inserts_fresh_t2 k e c c' :
  arc_shrinks c c' → arc_absent k c' → arc_inserts k e c (arc_set_t2 (lhm_insert k e (arc_t2 c')).1 c').
Proof.
  intros (Hi & Hc & _ & _ & Hf) Habs.
  destruct (arc_insert_fresh_t2 k e c' Hi Habs) as (Hi' & _ & Hf').
  split_and!; [done|done| |].
  - rewrite Hf'. by rewrite decide_True.
  - intros k' e' Hne. rewrite Hf', decide_False by done. apply Hf.
Qed.

Lemma arc_shrinks_then_room c c' : arc_shrinks c c' → arc_shrinks c (arc_make_room c').
Proof. intros H. eapply arc_shrinks_trans; [done|]. destruct H. by apply arc_shrinks_make_room. Qed.

Lemma arc_shrinks_then_ghost c c' c'' :
  arc_shrinks c c' → (arc_p c' ≤ arc_cap c' → arc_ghost_sub c' c'') → arc_shrinks c c''.
Proof.
  intros H Hg. eapply arc_shrinks_trans; [done|]. destruct H as [Hi _].
  apply arc_shrinks_ghost; [done|]. apply Hg, Hi.
Qed.

(** A key found in a ghost list, once taken out of it, is nowhere. *)
Lemma arc_take_b1 k c :
  arc_inv c → arc_find k c = None → k ∈ B1 c →
  arc_absent k (arc_set_b1 (lhm_remove k (arc_b1 c)).1 c).
Proof.
  intros [Hd _ _] [? ?]%arc_find_None Hk. specialize (Hd k).
  unfold arc_absent, T1, T2, B1, B2 in *. simpl. rewrite lhm_remove_iter, assoc_remove_keys. naive_solver.
Qed.

Lemma arc_take_b2 k c :
  arc_find k c = None → (k ∉ B1 c) → arc_absent k (arc_set_b2 (lhm_remove k (arc_b2 c)).1 c).
Proof.
  intros [? ?]%arc_find_None Hk.
  unfold arc_absent, T1, T2, B1, B2 in *. simpl. rewrite lhm_remove_iter, assoc_remove_keys. naive_solver.
Qed.

(** The branches of [insert_entry], by where the key is. *)
Lemma arc_insert_entry_t1 k e e0 c :
  assoc k (T1 c) = Some e0 →
  arc_insert_entry k e c =
    (arc_set_t2 (lhm_insert k e (arc_t2 c)).1 (arc_set_t1 (lhm_remove k (arc_t1 c)).1 c),
     Some (value e0)).
Proof.
  intros E. unfold arc_insert_entry. rewrite lhm_contains_key_iter. fold (T1 c). rewrite E.
  rewrite bool_decide_eq_true_2 by eauto.
  pose proof (lhm_remove_old k (arc_t1 c)) as Ho. fold (T1 c) in Ho. rewrite E in Ho.
  destruct (lhm_remove k (arc_t1 c)). simpl in *. by rewrite Ho.
Qed.

Lemma arc_insert_entry_t2 k e e0 c :
  assoc k (T1 c) = None → assoc k (T2 c) = Some e0 →
  arc_insert_entry k e c = (arc_set_t2 (lhm_insert k e (arc_t2 c)).1 c, Some (value e0)).
Proof.
  intros E1 E. unfold arc_insert_entry. rewrite !lhm_contains_key_iter. fold (T1 c) (T2 c). rewrite E1, E.
  rewrite bool_decide_eq_false_2 by (by intros []). rewrite bool_decide_eq_true_2 by eauto.
  pose proof (lhm_insert_old k e (arc_t2 c)) as Ho. fold (T2 c) in Ho. rewrite E in Ho.
  destruct (lhm_insert k e (arc_t2 c)). simpl in *. by rewrite Ho.
Qed.

Definition arc_drop_b1 (k : K) (c : arc) : arc := arc_set_b1 (lhm_remove k (arc_b1 c)).1 c.
Definition arc_drop_b2 (k : K) (c : arc) : arc := arc_set_b2 (lhm_remove k (arc_b2 c)).1 c.

Lemma assoc_unit_elem k (m : M unit) :
  assoc k (lhm_iter m) = if bool_decide (k ∈ (lhm_iter m).*1) then Some () else None.
Proof.
  case_bool_decide as H; [|by apply assoc_None].
  apply assoc_is_Some in H as [[] ?]. done.
Qed.

Lemma arc_insert_entry_miss k e c :
  arc_find k c = None →
  arc_insert_entry k e c =
    (if bool_decide (k ∈ B1 c) then
       let c1 := arc_make_room (arc_grow_p (arc_drop_b1 k c)) in
       arc_set_t2 (lhm_insert k e (arc_t2 c1)).1 c1
     else if bool_decide (k ∈ B2 c) then
       let c1 := arc_make_room (arc_shrink_p (arc_drop_b2 k (arc_drop_b1 k c))) in
       arc_set_t2 (lhm_insert k e (arc_t2 c1)).1 c1
     else
       let c1 := arc_full_miss (arc_drop_b2 k (arc_drop_b1 k c)) in
       arc_set_t1 (lhm_insert k e (arc_t1 c1)).1 c1, None).
Proof.
  intros [E1 E2]%arc_find_None. apply assoc_None in E1, E2.
  unfold arc_insert_entry, arc_drop_b2, arc_drop_b1. rewrite !lhm_contains_key_iter. fold (T1 c) (T2 c).
  rewrite E1, E2. rewrite bool_decide_eq_false_2 by (by intros []).
  pose proof (lhm_remove_old k (arc_b1 c)) as H1. rewrite assoc_unit_elem in H1. fold (B1 c) in H1.
  destruct (lhm_remove k (arc_b1 c)) as [b1 o1]. simpl in *. subst o1.
  case_bool_decide; [done|].
  pose proof (lhm_remove_old k (arc_b2 c)) as H2. rewrite assoc_unit_elem in H2. fold (B2 c) in H2.
  destruct (lhm_remove k (arc_b2 c)) as [b2 o2]. simpl in *. subst o2.
  by case_bool_decide.
Qed.

Lemma arc_shrinks_drop_b1 k c : arc_inv c → arc_shrinks c (arc_drop_b1 k c).
Proof. intros. apply arc_shrinks_ghost; [done|]. unfold arc_drop_b1. auto with arc. Qed.

Lemma arc_shrinks_drop_b2 k c : arc_inv c → arc_shrinks c (arc_drop_b2 k c).
Proof. intros. apply arc_shrinks_ghost; [done|]. unfold arc_drop_b2. auto with arc. Qed.

Lemma arc_shrinks_drop k c : arc_inv c → arc_shrinks c (arc_drop_b2 k (arc_drop_b1 k c)).
Proof.
  intros Hi. pose proof (arc_shrinks_drop_b1 k c Hi) as H.
  eapply arc_shrinks_trans; [done|]. destruct H. by apply arc_shrinks_drop_b2.
Qed.

Lemma arc_drop_absent k c : arc_find k c = None → arc_absent k (arc_drop_b2 k (arc_drop_b1 k c)).
Proof.
  intros H. apply arc_take_b2; [done|].
  unfold arc_drop_b1, B1. simpl. rewrite lhm_remove_iter, assoc_remove_keys. tauto.
Qed.

Lemma arc_insert_entry_inserts k e c :
  arc_inv c → arc_inserts k e c (arc_insert_entry k e c).1.
Proof.
  intros Hi. destruct (assoc k (T1 c)) as [e1|] eqn:E1.
  { rewrite (arc_insert_entry_t1 k e e1) by done. simpl.
    destruct (arc_promote k e c Hi) as (? & _ & Hf); [apply assoc_is_Some; eauto|].
    split_and!; [done|done| |].
    - rewrite Hf. by rewrite decide_True.
    - intros k' e' ?. rewrite Hf. by rewrite decide_False. }
  destruct (assoc k (T2 c)) as [e2|] eqn:E2.
  { rewrite (arc_insert_entry_t2 k e e2) by done. simpl.
    destruct (arc_update_t2 k e c Hi) as (? & _ & Hf); [apply assoc_is_Some; eauto|].
    split_and!; [done|done| |].
    - rewrite Hf. by rewrite decide_True.
    - intros k' e' ?. rewrite Hf. by rewrite decide_False. }
  assert (arc_find k c = None) as Hnone by (unfold arc_find; by rewrite E1, E2).
  rewrite arc_insert_entry_miss by done. simpl.
  pose proof (arc_shrinks_drop_b1 k c Hi) as Hs1. pose proof (arc_shrinks_drop k c Hi) as Hs2.
  pose proof (arc_drop_absent k c Hnone) as Ha2.
  case_bool_decide as HB1; [|case_bool_decide as HB2].
  - assert (arc_shrinks (arc_drop_b1 k c) (arc_make_room (arc_grow_p (arc_drop_b1 k c)))) as Hs.
    { destruct Hs1 as [? _]. apply arc_shrinks_then_room, arc_shrinks_ghost; auto with arc. }
    apply arc_inserts_fresh_t2; [eapply arc_shrinks_trans; [|exact Hs]; assumption|].
    apply Hs. by apply arc_take_b1.
  - set (c2 := arc_drop_b2 k (arc_drop_b1 k c)) in *.
    assert (arc_shrinks c2 (arc_make_room (arc_shrink_p c2))) as Hs.
    { destruct Hs2 as [? _]. apply arc_shrinks_then_room, arc_shrinks_ghost; auto with arc. }
    apply arc_inserts_fresh_t2; [eapply arc_shrinks_trans; [|exact Hs]; assumption|]. by apply Hs.
  - assert (arc_shrinks (arc_drop_b2 k (arc_drop_b1 k c))
      (arc_full_miss (arc_drop_b2 k (arc_drop_b1 k c)))) as Hs.
    { destruct Hs2 as [? _]. by apply arc_shrinks_full_miss. }
    apply arc_inserts_fresh_t1; [eapply arc_shrinks_trans; [|exact Hs]; assumption|]. by apply Hs.
Qed.

Lemma arc_insert_entry_old k e c : arc_inv c → (arc_insert_entry k e c).2 = value <$> arc_find k c.
Proof.
  intros Hi. destruct (assoc k (T1 c)) as [e1|] eqn:E1.
  { rewrite (arc_insert_entry_t1 k e e1) by done. by rewrite (arc_find_T1 _ _ e1). }
  destruct (assoc k (T2 c)) as [e2|] eqn:E2.
  { rewrite (arc_insert_entry_t2 k e e2) by done. by rewrite (arc_find_T2 _ _ e2). }
  assert (arc_find k c = None) as Hnone by (unfold arc_find; by rewrite E1, E2).
  by rewrite arc_insert_entry_miss, Hnone.
Qed.

(** *** Lookup *)
Lemma arc_get_t1 now k e c :
  assoc k (T1 c) = Some e →
  arc_get now k c =
    if entry_is_expired now e then (arc_set_t1 (lhm_remove k (arc_t1 c)).1 c, None)
    else (arc_set_t2 (lhm_insert k e (arc_t2 c)).1 (arc_set_t1 (lhm_remove k (arc_t1 c)).1 c),
          Some (value e)).
Proof.
  intros E. unfold arc_get, arc_remove_if_expired_t1. rewrite lhm_contains_key_iter, lhm_get_iter.
  fold (T1 c). rewrite E. rewrite bool_decide_eq_true_2 by eauto. simpl.
  destruct (entry_is_expired now e); simpl; [done|].
  pose proof (lhm_remove_old k (arc_t1 c)) as Ho. fold (T1 c) in Ho. rewrite E in Ho.
  destruct (lhm_remove k (arc_t1 c)). simpl in *. subst. simpl. f_equal.
  by rewrite lhm_get_iter, lhm_insert_iter, assoc_push_eq.
Qed.

Lemma arc_get_t2 now k e c :
  assoc k (T1 c) = None → assoc k (T2 c) = Some e →
  arc_get now k c =
    if entry_is_expired now e then (arc_set_t2 (lhm_remove k (arc_t2 c)).1 c, None)
    else (arc_set_t2 (lhm_insert k e (lhm_remove k (arc_t2 c)).1).1 c, Some (value e)).
Proof.
  intros E1 E. unfold arc_get, arc_remove_if_expired_t2. rewrite !lhm_contains_key_iter, lhm_get_iter.
  fold (T1 c) (T2 c). rewrite E1, E.
  rewrite bool_decide_eq_false_2 by (by intros []). rewrite bool_decide_eq_true_2 by eauto. simpl.
  destruct (entry_is_expired now e); simpl; [done|].
  pose proof (lhm_remove_old k (arc_t2 c)) as Ho. fold (T2 c) in Ho. rewrite E in Ho.
  destruct (lhm_remove k (arc_t2 c)). simpl in *. subst. simpl. f_equal.
  by rewrite lhm_get_iter, lhm_insert_iter, assoc_push_eq.
Qed.

Lemma arc_get_miss now k c :
  arc_find k c = None →
  arc_get now k c =
    (if bool_decide (k ∈ B1 c) then arc_replace (arc_grow_p c)
     else if bool_decide (k ∈ B2 c) then arc_replace (arc_shrink_p c) else c, None).
Proof.
  intros [E1 E2]%arc_find_None. apply assoc_None in E1, E2.
  unfold arc_get. rewrite !lhm_contains_key_iter. fold (T1 c) (T2 c).
  rewrite E1, E2, !assoc_unit_elem. fold (B1 c) (B2 c). rewrite bool_decide_eq_false_2 by (by intros []).
  assert (∀ (P : Prop) `{!Decision P},
    bool_decide (is_Some (if bool_decide P then Some () else None)) = bool_decide P) as Hb.
  { intros P ?. destruct (bool_decide P).
    - by apply bool_decide_eq_true_2.
    - apply bool_decide_eq_false_2. by intros []. }
  rewrite !Hb. by repeat case_bool_decide.
Qed.

Lemma arc_get_spec now k c :
  arc_inv c →
  arc_inv (arc_get now k c).1 ∧ arc_cap (arc_get now k c).1 = arc_cap c ∧
  arc_len (arc_get now k c).1 ≤ arc_len c ∧
  (arc_get now k c).2 = live_value now (arc_find k c) ∧
  ∀ k' e, arc_find k' (arc_get now k c).1 = Some e → arc_find k' c = Some e.
Proof.
  intros Hi. destruct (assoc k (T1 c)) as [e|] eqn:E1.
  { rewrite (arc_get_t1 _ _ e), (arc_find_T1 _ _ e) by done. simpl.
    assert (k ∈ (T1 c).*1) as Hk by (apply assoc_is_Some; eauto).
    destruct (entry_is_expired now e); simpl.
    - destruct (arc_take_t1 k c Hi Hk) as (?&_&?&Hf). split_and!; [done..|lia|done|].
      intros k' e'. rewrite Hf. by case_decide.
    - destruct (arc_promote k e c Hi Hk) as (?&?&Hf). split_and!; [done..|lia|done|].
      intros k' e'. rewrite Hf. case_decide; [|done]. subst. by rewrite (arc_find_T1 _ _ e). }
  destruct (assoc k (T2 c)) as [e|] eqn:E2.
  { rewrite (arc_get_t2 _ _ e), (arc_find_T2 _ _ e) by done. simpl.
    assert (k ∈ (T2 c).*1) as Hk by (apply assoc_is_Some; eauto).
    destruct (arc_take_t2 k c Hi Hk) as (Hi2&Habs&?&Hf).
    destruct (entry_is_expired now e); simpl.
    - split_and!; [done..|lia|done|]. intros k' e'. rewrite Hf. by case_decide.
    - destruct (arc_insert_fresh_t2 k e _ Hi2 Habs) as (?&?&Hf2). simpl in *.
      split_and!; [done..|unfold arc_len in *; simpl in *; lia|done|].
      intros k' e'. rewrite Hf2, Hf. case_decide; [|done]. subst. by rewrite (arc_find_T2 _ _ e). }
  assert (arc_find k c = None) as Hnone by (unfold arc_find; by rewrite E1, E2).
  rewrite arc_get_miss, Hnone by done. simpl.
  assert (arc_shrinks c (if bool_decide (k ∈ B1 c) then arc_replace (arc_grow_p c)
     else if bool_decide (k ∈ B2 c) then arc_replace (arc_shrink_p c) else c)) as (?&?&?&_&?).
  { repeat case_bool_decide; auto using arc_shrinks_refl;
      apply arc_shrinks_then_replace, arc_shrinks_ghost; auto with arc. }
  done.
Qed.

(** *** Removal, clearing and resizing *)
Lemma arc_remove_miss k c :
  arc_find k c = None →
  T1 (arc_remove k c).1 = T1 c ∧ T2 (arc_remove k c).1 = T2 c ∧
  arc_p (arc_remove k c).1 = arc_p c ∧ arc_cap (arc_remove k c).1 = arc_cap c ∧
  (∀ k', k' ∈ B1 (arc_remove k c).1 → k' ∈ B1 c) ∧ (∀ k', k' ∈ B2 (arc_remove k c).1 → k' ∈ B2 c) ∧
  (arc_remove k c).2 = None.
Proof.
  intros [E1 E2]%arc_find_None. unfold arc_remove.
  pose proof (lhm_remove_old k (arc_t1 c)) as H1. pose proof (lhm_remove_iter k (arc_t1 c)) as I1.
  pose proof (lhm_remove_old k (arc_t2 c)) as H2. pose proof (lhm_remove_iter k (arc_t2 c)) as I2.
  rewrite assoc_remove_id in I1, I2 by done. apply assoc_None in E1, E2. unfold T1, T2, B1, B2 in *.
  rewrite E1 in H1. rewrite E2 in H2.
  destruct (lhm_remove k (arc_t1 c)) as [t1 o1]. simpl in *. subst o1. simpl.
  destruct (lhm_remove k (arc_t2 c)) as [t2 o2]. simpl in *. subst o2. simpl. rewrite !lhm_remove_iter.
  setoid_rewrite assoc_remove_keys. split_and!; try done; tauto.
Qed.

Lemma arc_remove_spec k c :
  arc_inv c →
  arc_inv (arc_remove k c).1 ∧ arc_cap (arc_remove k c).1 = arc_cap c ∧
  arc_len (arc_remove k c).1 ≤ arc_len c ∧
  (arc_remove k c).2 = value <$> arc_find k c ∧
  ∀ k', arc_find k' (arc_remove k c).1 = if decide (k' = k) then None else arc_find k' c.
Proof.
  intros Hi. destruct (assoc k (T1 c)) as [e|] eqn:E1.
  { assert (arc_remove k c = (arc_set_t1 (lhm_remove k (arc_t1 c)).1 c, Some (value e))) as ->.
    { unfold arc_remove. pose proof (lhm_remove_old k (arc_t1 c)) as H1. unfold T1 in E1. rewrite E1 in H1.
      destruct (lhm_remove k (arc_t1 c)). simpl in *. by subst. }
    destruct (arc_take_t1 k c Hi) as (?&_&?&Hf); [apply assoc_is_Some; eauto|]. simpl.
    rewrite (arc_find_T1 k c e) by done. split_and!; try done; lia. }
  destruct (assoc k (T2 c)) as [e|] eqn:E2.
  { assert (arc_remove k c =
      (arc_set_t2 (lhm_remove k (arc_t2 c)).1 (arc_set_t1 (lhm_remove k (arc_t1 c)).1 c),
       Some (value e))) as ->.
    { unfold arc_remove. pose proof (lhm_remove_old k (arc_t1 c)) as H1. unfold T1 in E1. rewrite E1 in H1.
      destruct (lhm_remove k (arc_t1 c)). simpl in *. subst.
      pose proof (lhm_remove_old k (arc_t2 c)) as H2. unfold T2 in E2. rewrite E2 in H2.
      destruct (lhm_remove k (arc_t2 c)). simpl in *. by subst. }
    assert (arc_ghost_sub c (arc_set_t1 (lhm_remove k (arc_t1 c)).1 c)) as Hg.
    { split_and!; try done; [|apply Hi]. unfold T1 in *. simpl. rewrite lhm_remove_iter.
      apply assoc_remove_id. by apply assoc_None. }
    destruct (arc_take_t2 k (arc_set_t1 (lhm_remove k (arc_t1 c)).1 c)) as (?&_&Hl&Hf).
    { eauto with arc. }
    { apply assoc_is_Some. eauto. }
    rewrite (arc_ghost_sub_len _ _ Hg) in Hl. simpl in *.
    rewrite (arc_find_T2 k c e) by done. split_and!; try done; [lia|].
    intros k'. rewrite Hf. case_decide; [done|]. by apply arc_ghost_sub_find. }
  assert (arc_find k c = None) as Hnone by (unfold arc_find; by rewrite E1, E2).
  destruct (arc_remove_miss k c Hnone) as (Ht1&Ht2&Hp&Hc&Hb1&Hb2&->). rewrite Hnone.
  assert (arc_ghost_sub c (arc_remove k c).1) as Hg.
  { split_and!; try done. rewrite Hp, Hc. apply Hi. }
  split_and!; try done; [eauto with arc|by rewrite (arc_ghost_sub_len _ _ Hg)|].
  intros k'. rewrite (arc_ghost_sub_find _ _ _ Hg). case_decide; [by subst|done].
Qed.

Lemma arc_clear_spec c :
  arc_inv c → arc_inv (arc_clear c) ∧ arc_cap (arc_clear c) = arc_cap c ∧ arc_len (arc_clear c) = 0 ∧
  ∀ k, arc_find k (arc_clear c) = None.
Proof.
  intros [_ _ Hc]. rewrite arc_len_lists. unfold arc_clear, arc_find, T1, T2; simpl. rewrite !lhm_clear_iter.
  split_and!; try done. split; unfold T1, T2, B1, B2; simpl; [|lia|done].
  intros k. rewrite !lhm_clear_iter. csimpl. set_solver.
Qed.

Lemma arc_resize_loop_spec fuel c :
  arc_inv c → arc_len c - arc_cap c ≤ fuel →
  ∃ c', arc_resize_loop fuel c = Some c' ∧ arc_inv c' ∧ arc_cap c' = arc_cap c ∧
    arc_len c' = Nat.min (arc_len c) (arc_cap c) ∧
    ∀ k e, arc_find k c' = Some e → arc_find k c = Some e.
Proof.
  revert c. induction fuel as [|fuel IH]; intros c Hi Hf; simpl; case_bool_decide.
  - lia.
  - exists c. split_and!; try done. lia.
  - destruct (IH (arc_replace c)) as (c' & ? & ? & Hc & Hl & Hfind).
    { auto with arc. }
    { rewrite arc_replace_len, arc_replace_cap. lia. }
    rewrite arc_replace_cap, ?arc_replace_len in *. exists c'. split_and!; try done; [lia|].
    intros. eapply arc_replace_find; [done|]. by apply Hfind.
  - exists c. split_and!; try done. lia.
Qed.

Lemma arc_resize_spec fuel n c :
  arc_inv c → arc_len c ≤ fuel →
  ∃ c', arc_resize fuel n c = Some c' ∧ arc_inv c' ∧ arc_cap c' = Nat.max n 1 ∧
    arc_len c' = Nat.min (arc_len c) (Nat.max n 1) ∧
    ∀ k e, arc_find k c' = Some e → arc_find k c = Some e.
Proof.
  intros [Hd Hp Hc] Hf. unfold arc_resize. simpl.
  set (c1 := arc_set_cap (Nat.max n 1) c).
  assert (∀ p, p ≤ Nat.max n 1 → arc_inv (arc_set_p p c1)) as Hi.
  { intros p Hle. split; [done| |]; simpl; lia. }
  case_bool_decide.
  - destruct (arc_resize_loop_spec fuel (arc_set_p (Nat.max n 1) c1)) as (c'&?&?&?&?&?);
      [apply Hi; lia|unfold arc_len in *; simpl in *; lia|].
    by exists c'.
  - destruct (arc_resize_loop_spec fuel c1) as (c'&?&?&?&?&?).
    { specialize (Hi (arc_p c)). simpl in *. apply Hi. lia. }
    { unfold arc_len in *; simpl in *; lia. }
    by exists c'.
Qed.

Lemma arc_new_inv cap : arc_inv (arc_new cap : arc).
Proof.
  split; unfold T1, T2, B1, B2; simpl; [|lia..]. intros k. rewrite !lhm_iter_new. csimpl. set_solver.
Qed.

Lemma arc_step_inv op c : arc_inv c → arc_inv (arc_step op c).
Proof.
  intros Hi. destruct op; simpl.
  - by apply arc_get_spec.
  - by apply arc_insert_entry_inserts.
  - by apply arc_insert_entry_inserts.
  - by apply arc_remove_spec.
  - by apply arc_clear_spec.
  - by destruct (arc_resize_spec (arc_len c) n c Hi) as (c' & -> & ? & _).
Qed.

Lemma arc_run_inv ops c : arc_inv c → arc_inv (arc_run ops c).
Proof.
  unfold arc_run. revert c. induction ops as [|op ops IH]; intros c Hi; simpl; [done|].
  by apply IH, arc_step_inv.
Qed.

(** *** The cache interface *)
#[global] Instance arc_wf : CacheWf arc := arc_inv.

Lemma arc_inserts_sub t k e c c' k' v' :
  arc_inv c → arc_inserts k e c c' → arc_peek t k' c' = Some v' →
  (k' = k ∧ v' = value e) ∨ (k' ≠ k ∧ arc_peek t k' c = Some v').
Proof.
  intros Hi (Hi' & _ & Hk & Hf). rewrite !arc_peek_find by done. intros Hv.
  destruct (decide (k' = k)) as [->|Hne]; [left|right; split; [done|]].
  - rewrite Hk in Hv. simpl in Hv. destruct (entry_is_expired t e); naive_solver.
  - destruct (live_value_Some _ _ _ Hv) as (e' & He' & _). rewrite He' in Hv.
    by rewrite (Hf k' e').
Qed.

Lemma arc_sub_peek t k c c' v :
  arc_inv c → arc_inv c' → (∀ e, arc_find k c' = Some e → arc_find k c = Some e) →
  arc_peek t k c' = Some v → arc_peek t k c = Some v.
Proof.
  intros ? ? Hf. rewrite !arc_peek_find by done. intros Hv.
  destruct (live_value_Some _ _ _ Hv) as (e' & He' & _). rewrite He' in Hv. by rewrite (Hf e').
Qed.

#[global] Instance arc_laws : CacheLaws K V arc.
Proof.
  split; unfold cache_wf, arc_wf; simpl; intros *.
  - intros Hi. by apply arc_get_spec.
  - intros Hi. by apply arc_insert_entry_inserts.
  - intros Hi. by apply arc_insert_entry_inserts.
  - intros Hi. by apply arc_remove_spec.
  - intros Hi. by apply arc_clear_spec.
  - intros Hi. destruct (arc_get_spec now k c Hi) as (_&_&_&->&_). by rewrite arc_peek_find.
  - intros Hi. destruct (arc_get_spec now k c Hi) as (?&_&_&_&?). apply arc_sub_peek; auto.
  - intros Hi. apply (arc_inserts_sub t k (entry_new v)); [done|]. by apply arc_insert_entry_inserts.
  - intros Hi. apply (arc_inserts_sub t k (entry_with_ttl now v ttl)); [done|].
    by apply arc_insert_entry_inserts.
  - intros Hi. destruct (arc_remove_spec k c Hi) as (?&_&_&_&Hf). rewrite !arc_peek_find, Hf by done.
    split; intros; by case_decide.
  - intros Hi. destruct (arc_remove_spec k c Hi) as (?&_&_&->&_). rewrite arc_peek_find by done.
    intros (e & -> & <-)%live_value_Some. done.
  - intros Hi. destruct (arc_remove_spec k c Hi) as (?&_&_&->&_). intros [t Ht]%live_value_once.
    exists t. by rewrite arc_peek_find.
  - intros Hi. destruct (arc_clear_spec c Hi) as (?&_&_&Hf). by rewrite arc_peek_find, Hf.
  - intros Hi. unfold arc_contains_key. rewrite !opt_live_value. unfold arc_peek.
    destruct (live_value t (lhm_get k (arc_t1 c))); [|done].
    by rewrite bool_decide_eq_true_2 by eauto.
  - intros Hi Ht. rewrite !arc_peek_find by done. by apply live_value_mono.
Qed.

#[global] Instance arc_cache_resize : CacheResize arc := λ n c, arc_resize (arc_len c) n c.

#[global] Instance arc_resize_laws : CacheResizeLaws K V arc.
Proof.
  split; unfold cache_resize, arc_cache_resize, cache_wf, arc_wf; intros *; intros Hi;
    destruct (arc_resize_spec (arc_len c) n c Hi (le_n _)) as (c0 & Hc0 & Hi0 & _ & _ & Hf); [by eauto|].
  rewrite Hc0. intros [= <-]. simpl. by apply arc_sub_peek; auto.
Qed.

#[global] Instance arc_retains : CacheRetains K V arc.
Proof.
  intros t k v c Hi. destruct (arc_insert_entry_inserts k (entry_new v) c Hi) as (?&_&Hk&_).
  simpl. unfold arc_put. rewrite arc_peek_find by done. by rewrite Hk.
Qed.

(** *** The size after an insertion *)

(** The situation in which a full cache makes no room: nothing was seen once, and
    the ghosts of [t1] alone fill the capacity. *)
Definition arc_stuck (c : arc) : Prop := T1 c = [] ∧ length (B1 c) = arc_cap c.

Lemma arc_full_miss_len c :
  arc_cap c ≤ arc_len c → (arc_stuck c → arc_len (arc_full_miss c) = arc_len c) ∧
  (¬ arc_stuck c → arc_len (arc_full_miss c) = arc_len c - 1).
Proof.
  intros Hfull. unfold arc_full_miss, arc_stuck. rewrite bool_decide_eq_false_2 by lia.
  rewrite !lhm_is_empty_iter, !lhm_len_iter. fold (T1 c). unfold B1.
  destruct (T1 c) eqn:E; simpl.
  - case_bool_decide as Hb; split; intros Hs.
    + done.
    + destruct Hs. by rewrite length_fmap.
    + destruct Hb. rewrite <-(proj2 Hs). by rewrite length_fmap.
    + rewrite arc_replace_len. by repeat split_match.
  - split; [by intros [? _]|intros _]. case_bool_decide; rewrite arc_replace_len; [done|].
    by repeat split_match.
Qed.

Lemma arc_drop_lists k c : (k ∉ B1 c) → (k ∉ B2 c) →
  let c' := arc_drop_b2 k (arc_drop_b1 k c) in
  T1 c' = T1 c ∧ T2 c' = T2 c ∧ B1 c' = B1 c ∧ B2 c' = B2 c ∧
  arc_p c' = arc_p c ∧ arc_cap c' = arc_cap c ∧ arc_len c' = arc_len c.
Proof.
  intros. unfold T1, T2, B1, B2 in *. simpl. rewrite !lhm_remove_iter, !assoc_remove_id by done. done.
Qed.

Lemma arc_make_room_len c : arc_len (arc_make_room c) =
  if bool_decide (arc_cap c ≤ arc_len c) then arc_len c - 1 else arc_len c.
Proof. unfold arc_make_room. case_bool_decide; [apply arc_replace_len|done]. Qed.

Lemma arc_insert_entry_len k e c :
  arc_inv c → arc_len c ≤ arc_cap c →
  (arc_len c = arc_cap c ∧ arc_absent k c ∧ arc_stuck c →
     arc_len (arc_insert_entry k e c).1 = S (arc_cap c)) ∧
  (¬ (arc_len c = arc_cap c ∧ arc_absent k c ∧ arc_stuck c) →
     arc_len (arc_insert_entry k e c).1 ≤ arc_cap c).
Proof.
  intros Hi Hle. pose proof (arc_cap_pos _ Hi) as Hpos.
  destruct (arc_find k c) as [e0|] eqn:Ef.
  { assert (arc_len (arc_insert_entry k e c).1 = arc_len c) as ->.
    { unfold arc_find in Ef. destruct (assoc k (T1 c)) as [e1|] eqn:E1.
      - rewrite (arc_insert_entry_t1 k e e1) by done.
        apply arc_promote; [done|]. apply assoc_is_Some. eauto.
      - rewrite (arc_insert_entry_t2 k e e0) by done.
        apply arc_update_t2; [done|]. apply assoc_is_Some. eauto. }
    split; [|done]. intros (_ & (H1 & H2 & _) & _).
    by rewrite (proj2 (arc_find_None k c)) in Ef. }
  pose proof (arc_drop_absent k c Ef) as Habs. pose proof (arc_shrinks_drop k c Hi) as (Hi2 & _).
  assert (Hcases := Ef). apply arc_find_None in Hcases as [Hk1 Hk2].
  rewrite arc_insert_entry_miss by done. cbn [fst].
  case_bool_decide as HB1; [|case_bool_decide as HB2].
  - assert (¬ arc_absent k c) by (unfold arc_absent; tauto). split; [tauto|intros _].
    pose proof (arc_take_b1 k c Hi Ef HB1) as Ha. fold (arc_drop_b1 k c) in Ha.
    destruct (arc_shrinks_drop_b1 k c Hi) as (Hi1 & _).
    destruct (arc_shrinks_then_room _ _ (arc_shrinks_ghost _ _ Hi1 (arc_grow_p_sub _))) as (Hi3&_&_&Hab&_).
    destruct (arc_insert_fresh_t2 k e _ Hi3 (Hab _ Ha)) as (_ & -> & _).
    rewrite arc_make_room_len. change (arc_len (arc_grow_p (arc_drop_b1 k c))) with (arc_len c).
    change (arc_cap (arc_grow_p (arc_drop_b1 k c))) with (arc_cap c). case_bool_decide; lia.
  - assert (¬ arc_absent k c) by (unfold arc_absent; tauto). split; [tauto|intros _].
    assert (arc_p (arc_drop_b2 k (arc_drop_b1 k c)) ≤ arc_cap (arc_drop_b2 k (arc_drop_b1 k c)))
      as Hp by apply Hi.
    destruct (arc_shrinks_then_room _ _ (arc_shrinks_ghost _ _ Hi2 (arc_shrink_p_sub _ Hp))) as (Hi3&_&_&Hab&_).
    destruct (arc_insert_fresh_t2 k e _ Hi3 (Hab _ Habs)) as (_ & -> & _).
    rewrite arc_make_room_len.
    change (arc_len (arc_shrink_p (arc_drop_b2 k (arc_drop_b1 k c)))) with (arc_len c).
    change (arc_cap (arc_shrink_p (arc_drop_b2 k (arc_drop_b1 k c)))) with (arc_cap c).
    case_bool_decide; lia.
  - destruct (arc_shrinks_full_miss _ Hi2) as (Hi3&_&_&Hab&_).
    destruct (arc_insert_fresh_t1 k e _ Hi3 (Hab _ Habs)) as (_ & -> & _).
    destruct (arc_drop_lists k c HB1 HB2) as (Ht1&Ht2&Hb1&Hb2&_&Hc&Hl).
    set (c2 := arc_drop_b2 k (arc_drop_b1 k c)) in *.
    assert (arc_stuck c2 ↔ arc_stuck c) as Hst by (unfold arc_stuck; by rewrite Ht1, Hb1, Hc).
    assert (arc_absent k c) as Hka by done.
    destruct (decide (arc_cap c ≤ arc_len c)) as [Hfull|Hroom].
    + destruct (arc_full_miss_len c2) as [Hs1 Hs2]; [lia|]. split.
      * intros (_ & _ & ?). rewrite Hs1 by tauto. lia.
      * intros Hn. rewrite Hs2; [lia|]. intros ?. apply Hn. split_and!; [lia|done|tauto].
    + split; [lia|intros _]. assert (arc_len (arc_full_miss c2) ≤ arc_len c2).
      { apply arc_shrinks_full_miss. done. }
      lia.
Qed.
End ArcTheory.

(** ** Unbounded growth

    A cache of capacity 1 whose only once-seen entry is [x], with [n] entries in
    [t2] and no ghost of [t1], gains an entry with every round of the three calls
    [put y; get y; put z] on fresh keys. *)
Section ArcPump.
Context {V : Type} {M : Type → Type} `{!LinkedHashMap nat M, !LinkedHashMapLaws nat M}.
Abbreviation arc := (ArcCache V M).
Implicit Types c : arc.

Definition arc_pump_state (n b : nat) (c : arc) : Prop :=
  arc_inv c ∧ arc_cap c = 1 ∧ arc_p c = 0 ∧ length (T1 c) = 1 ∧ B1 c = [] ∧
  length (T2 c) = n ∧ ∀ k, b ≤ k → arc_absent k c.

Definition arc_pump_round (v : V) (b : nat) : list (ArcOp nat V) :=
  [ArcPut b v; ArcGet 0 b; ArcPut (S b) v].

(** A miss that evicts the only once-seen entry. *)
Lemma arc_full_miss_pop_t1 c :
  arc_cap c = 1 → arc_p c = 0 → length (T1 c) = 1 → B1 c = [] →
  T1 (arc_full_miss c) = [] ∧ T2 (arc_full_miss c) = T2 c ∧ length (B1 (arc_full_miss c)) = 1 ∧
  arc_p (arc_full_miss c) = 0.
Proof.
  intros Hc Hp H1 HB. unfold arc_full_miss, arc_replace, arc_evict_t1. rewrite Hp.
  unfold arc_len, arc_directory_len. rewrite !lhm_is_empty_iter, !lhm_len_iter.
  unfold T1, T2, B1 in *. destruct (lhm_iter (arc_t1 c)) as [|[k e] [|]] eqn:E1; try done.
  apply fmap_nil_inv in HB. rewrite HB, Hc. simpl.
  destruct (lhm_pop_front (arc_t1 c)) as [t1 o] eqn:Epop.
  pose proof (lhm_pop_front_iter (arc_t1 c)) as I1. pose proof (lhm_pop_front_old (arc_t1 c)) as I2.
  rewrite Epop, E1 in *. simpl in *. subst o. simpl. rewrite lhm_insert_iter. split_and!; try done.
  case_bool_decide; rewrite ?lhm_pop_front_iter, HB; done.
Qed.

(** A miss that only drops the ghost. *)
Lemma arc_full_miss_pop_b1 c :
  arc_cap c = 1 → T1 c = [] → 1 ≤ length (T2 c) → length (B1 c) = 1 →
  T1 (arc_full_miss c) = [] ∧ T2 (arc_full_miss c) = T2 c ∧ B1 (arc_full_miss c) = [] ∧
  arc_p (arc_full_miss c) = arc_p c.
Proof.
  intros Hc H1 H2 HB. unfold arc_full_miss. unfold arc_len, arc_directory_len.
  rewrite !lhm_is_empty_iter, !lhm_len_iter. unfold T1, T2, B1 in *. rewrite H1, Hc. simpl.
  rewrite length_fmap in HB. rewrite HB. rewrite bool_decide_eq_false_2 by lia. simpl.
  rewrite lhm_pop_front_iter. destruct (lhm_iter (arc_b1 c)) as [|? [|]]; done.
Qed.

Lemma arc_put_fresh k v c :
  arc_inv c → arc_absent k c →
  arc_put k v c =
    (arc_set_t1 (lhm_insert k (entry_new v)
       (arc_t1 (arc_full_miss (arc_drop_b2 k (arc_drop_b1 k c))))).1
       (arc_full_miss (arc_drop_b2 k (arc_drop_b1 k c))), None).
Proof.
  intros Hi (?&?&?&?). unfold arc_put. rewrite arc_insert_entry_miss by (by apply arc_find_None).
  by rewrite !bool_decide_eq_false_2.
Qed.

(** Keys other than the one inserted stay absent. *)
Lemma arc_put_absent k k' v c :
  arc_inv c → arc_absent k c → arc_absent k' c → k' ≠ k → arc_absent k' (arc_put k v c).1.
Proof.
  intros Hi Hk Hk' Hne. rewrite arc_put_fresh by done. simpl.
  destruct (arc_shrinks_drop k c Hi) as (Hi2&_&_&Ha&_).
  destruct (arc_shrinks_full_miss _ Hi2) as (_&_&_&Ha2&_).
  specialize (Ha2 _ (Ha _ Hk')). revert Ha2. unfold arc_absent, T1, T2, B1, B2. simpl.
  rewrite lhm_insert_iter, assoc_push_keys. tauto.
Qed.

Lemma arc_pump_round_spec v n b c :
  arc_pump_state n b c → arc_pump_state (S n) (S (S b)) (arc_run (arc_pump_round v b) c).
Proof.
  intros (Hi & Hc & Hp & H1 & HB & H2 & Habs). unfold arc_run, arc_pump_round. simpl.
  (* put b *)
  pose proof (Habs b (le_n _)) as Hb.
  destruct (arc_drop_lists b c) as (D1&D2&D3&_&D5&D6&_); [apply Hb..|].
  destruct (arc_full_miss_pop_t1 (arc_drop_b2 b (arc_drop_b1 b c))) as (F1&F2&F3&F4);
    [by rewrite ?D6|by rewrite ?D5|by rewrite D1|by rewrite D3|].
  assert (∀ k, S b ≤ k → arc_absent k (arc_put b v c).1) as Habs1.
  { intros k Hk. apply arc_put_absent; [done|done|apply Habs; lia|lia]. }
  pose proof (arc_insert_entry_inserts b (entry_new v) c Hi) as (Hi1 & Hc1 & _ & _).
  fold (arc_put b v c) in Hi1, Hc1.
  assert (T1 (arc_put b v c).1 = [(b, entry_new v)] ∧ T2 (arc_put b v c).1 = T2 c ∧
    length (B1 (arc_put b v c).1) = 1 ∧ arc_p (arc_put b v c).1 = 0) as (P1&P2&P3&P4).
  { rewrite arc_put_fresh by done. revert F1 F2 F3. unfold T1, T2, B1. simpl. rewrite lhm_insert_iter.
    intros -> F2 F3. unfold T2 in D2. rewrite F2. done. }
  set (c1 := (arc_put b v c).1) in *.
  (* get b *)
  assert (assoc b (T1 c1) = Some (entry_new v)) as E1 by (rewrite P1; simpl; by rewrite decide_True).
  destruct (arc_promote b (entry_new v) c1 Hi1) as (Hi2 & Hl2 & _); [rewrite P1; csimpl; set_solver|].
  rewrite (arc_get_t1 0 b (entry_new v) c1 E1). simpl in *.
  set (c2 := arc_set_t2 _ _) in *.
  assert (T1 c2 = [] ∧ length (T2 c2) = S n ∧ length (B1 c2) = 1 ∧ arc_p c2 = 0) as (Q1&Q2&Q3&Q4).
  { assert (T1 c2 = []) as Q1.
    { unfold c2, T1 in *. simpl. rewrite lhm_remove_iter, P1. simpl. by rewrite decide_True. }
    split_and!; [done| |done|done].
    rewrite !arc_len_lists, Q1, P1, P2 in Hl2. simpl in Hl2. lia. }
  assert (∀ k, S b ≤ k → arc_absent k c2) as Habs2.
  { intros k Hk. specialize (Habs1 k Hk). revert Habs1. unfold arc_absent, c2, T1, T2, B1, B2. simpl.
    rewrite lhm_remove_iter, lhm_insert_iter, assoc_push_keys, assoc_remove_keys.
    intros (?&?&?&?). split_and!; try tauto. intros [->|]; [lia|tauto]. }
  (* put (S b) *)
  pose proof (Habs2 (S b) (le_n _)) as Hsb.
  destruct (arc_drop_lists (S b) c2) as (G1&G2&G3&_&G5&G6&_); [apply Hsb..|].
  destruct (arc_full_miss_pop_b1 (arc_drop_b2 (S b) (arc_drop_b1 (S b) c2))) as (R1&R2&R3&R4);
    [rewrite ?G6; unfold c2; simpl; congruence|by rewrite G1|rewrite G2; lia|by rewrite G3|].
  pose proof (arc_insert_entry_inserts (S b) (entry_new v) c2 Hi2) as (Hi3 & Hc3 & _ & _).
  fold (arc_put (S b) v c2) in Hi3, Hc3.
  split_and!; [done|rewrite Hc3; unfold c2; simpl; congruence|..].
  - rewrite arc_put_fresh by done. simpl. congruence.
  - rewrite arc_put_fresh by done. revert R1. unfold T1. simpl. rewrite lhm_insert_iter. by intros ->.
  - rewrite arc_put_fresh by done. exact R3.
  - rewrite arc_put_fresh by done. rewrite <-Q2. f_equal. etrans; [exact R2|exact G2].
  - intros k Hk. apply arc_put_absent; [done|done|apply Habs2; lia|lia].
Qed.

Fixpoint arc_pump (v : V) (n : nat) : list (ArcOp nat V) :=
  match n with
  | 0 => [ArcPut 0 v]
  | S n => arc_pump v n ++ arc_pump_round v (1 + 2 * n)
  end.

Lemma arc_pump_spec v n : arc_pump_state n (1 + 2 * n) (arc_run (arc_pump v n) (arc_new 1)).
Proof.
  induction n as [|n IH].
  - unfold arc_run. simpl.
    pose proof (arc_new_inv (K:=nat) (V:=V) (M:=M) 1) as Hi.
    assert (∀ k, arc_absent k (arc_new 1 : arc)) as Ha.
    { intros k. unfold arc_absent, T1, T2, B1, B2. simpl. rewrite !lhm_iter_new. csimpl. set_solver. }
    pose proof (arc_insert_entry_inserts 0 (entry_new v) _ Hi) as (Hi1 & Hc1 & _ & _).
    split_and!; [done|done|..].
    5: intros k Hk; apply arc_put_absent; [done|apply Ha..|lia].
    all: rewrite arc_put_fresh by done; unfold arc_full_miss, arc_len, arc_directory_len, T1, T2, B1; simpl;
      rewrite !lhm_len_iter, !lhm_remove_iter, !lhm_iter_new; simpl;
      rewrite ?lhm_insert_iter, ?lhm_remove_iter, ?lhm_iter_new; done.
  - replace (1 + 2 * S n) with (S (S (1 + 2 * n))) by lia. simpl arc_pump.
    unfold arc_run. rewrite foldl_app. by apply arc_pump_round_spec.
Qed.
End ArcPump.

(** ** Theorems *)
Section ArcTheorems.
Context {K V : Type} `{!EqDecision K} {M : Type → Type} `{!LinkedHashMap K M, !LinkedHashMapLaws K M}.
Abbreviation arc := (ArcCache V M).

(** C37: After any history of calls on a fresh cache, the four lists are pairwise
    disjoint, the adaptive target is within [0..=cap], the capacity is at least
    one, and a lookup answers exactly the live value stored under its key. *)
Theorem arc_history_invariant (ops : list (ArcOp K V)) cap now (k : K) (c : arc) :
  arc_run ops (arc_new cap) = c →
  arc_inv c ∧ (arc_get now k c).2 = arc_peek now k c ∧ arc_inv (arc_get now k c).1.
Proof.
  intros <-. pose proof (arc_run_inv ops _ (arc_new_inv (M:=M) cap)) as Hi. split; [done|].
  destruct (arc_get_spec now k _ Hi) as (?&_&_&->&_). by rewrite arc_peek_find.
Qed.

(** What a [put] does to the size, exactly.  From a state within the capacity
    the bound [|t1| + |t2| <= cap] is broken, by one entry, in precisely one case:
    the cache is full, the key is in none of the four lists, [t1] is empty and the
    ghosts in [b1] number exactly [cap].  In every other case the bound holds
    after the call. *)
Theorem arc_put_capacity_exact (k : K) (v : V) (c : arc) :
  arc_inv c → arc_len c ≤ arc_cap c →
  (arc_cap c < arc_len (arc_put k v c).1 ↔
     arc_len c = arc_cap c ∧ arc_absent k c ∧ T1 c = [] ∧ length (B1 c) = arc_cap c).
Proof.
  intros Hi Hle. destruct (arc_insert_entry_len k (entry_new v) c Hi Hle) as [H1 H2].
  unfold arc_put. split; [|intros; rewrite H1 by done; lia].
  intros Hlt. apply dec_stable. intros Hn. specialize (H2 Hn). lia.
Qed.

(** [resize] terminates within one eviction per entry, leaves
    [min(len, max(new_cap, 1))] entries, each of which was there before, and
    keeps the invariant. *)
Theorem arc_resize_bounds fuel n (c : arc) :
  arc_inv c → arc_len c ≤ fuel →
  ∃ c', arc_resize fuel n c = Some c' ∧ arc_inv c' ∧ arc_cap c' = Nat.max n 1 ∧
    arc_len c' = Nat.min (arc_len c) (Nat.max n 1) ∧
    ∀ t k v, arc_peek t k c' = Some v → arc_peek t k c = Some v.
Proof.
  intros Hi Hf. destruct (arc_resize_spec fuel n c Hi Hf) as (c'&?&?&?&?&?).
  exists c'. split_and!; try done. intros t k v. apply arc_sub_peek; auto.
Qed.

(** Looking up a key that is only a ghost is a miss that still evicts: one
    live entry leaves the cache although nothing is inserted. *)
Theorem arc_ghost_get_evicts now (k : K) (c : arc) :
  arc_inv c → arc_find k c = None → k ∈ B1 c ++ B2 c → 0 < arc_len c →
  (arc_get now k c).2 = None ∧ S (arc_len (arc_get now k c).1) = arc_len c.
Proof.
  intros Hi Hf Hk Hl. rewrite arc_get_miss by done. simpl. split; [done|].
  apply elem_of_app in Hk.
  repeat case_bool_decide; [| |naive_solver]; rewrite arc_replace_len; unfold arc_len in *; simpl; lia.
Qed.
End ArcTheorems.

(** The capacity is no bound at all: for every [n] there is a history on a
    fresh cache of capacity 1, without [resize], after which it holds [n + 1]
    entries (each round [put y; get y; put z] on fresh keys adds one). *)
Theorem arc_capacity_unbounded {V : Type} {M : Type → Type}
    `{!LinkedHashMap nat M, !LinkedHashMapLaws nat M} (v : V) (n : nat) :
  arc_len (arc_run (arc_pump v n) (arc_new 1 : ArcCache V M)) = S n ∧
  arc_cap (arc_run (arc_pump v n) (arc_new 1 : ArcCache V M)) = 1.
Proof.
  destruct (arc_pump_spec (M:=M) v n) as (_&Hc&_&H1&_&H2&_). split; [|done].
  rewrite arc_len_lists, H1, H2. done.
Qed.

(** ** Witnesses, on the concrete map *)
Abbreviation arc_nat := (ArcCache nat (λ V, list (nat * V))).

Definition arc_demo_ops : list (ArcOp nat nat) := [ArcPut 1 10; ArcPut 2 20; ArcGet 0 2; ArcPut 3 30].

Lemma arc_history_invariant_witness :
  arc_inv (arc_run arc_demo_ops (arc_new 2 : arc_nat)) ∧
  (arc_get 0 2 (arc_run arc_demo_ops (arc_new 2 : arc_nat))).2 =
    arc_peek 0 2 (arc_run arc_demo_ops (arc_new 2 : arc_nat)) ∧
  arc_inv (arc_get 0 2 (arc_run arc_demo_ops (arc_new 2 : arc_nat))).1.
Proof. apply (arc_history_invariant arc_demo_ops 2 0 2). reflexivity. Defined.

(** Two ghosts in [b1], two entries in [t2]: the next fresh key is a third entry. *)
Definition arc_stuck_ops : list (ArcOp nat nat) :=
  [ArcPut 1 10; ArcPut 2 20; ArcPut 3 30; ArcPut 4 40; ArcGet 0 3; ArcGet 0 4].

Lemma arc_put_capacity_exact_witness :
  arc_cap (arc_run arc_stuck_ops (arc_new 2 : arc_nat)) <
  arc_len (arc_put 5 50 (arc_run arc_stuck_ops (arc_new 2 : arc_nat))).1.
Proof.
  apply (arc_put_capacity_exact 5 50 (arc_run arc_stuck_ops (arc_new 2 : arc_nat))).
  - apply arc_run_inv, arc_new_inv.
  - vm_compute. lia.
  - split_and!; try reflexivity; vm_compute; set_solver.
Defined.

Lemma arc_resize_bounds_witness :
  ∃ c', arc_resize 2 1 (arc_run arc_demo_ops (arc_new 2 : arc_nat)) = Some c' ∧ arc_inv c' ∧
    arc_cap c' = Nat.max 1 1 ∧
    arc_len c' = Nat.min (arc_len (arc_run arc_demo_ops (arc_new 2 : arc_nat))) (Nat.max 1 1) ∧
    ∀ t k v, arc_peek t k c' = Some v →
      arc_peek t k (arc_run arc_demo_ops (arc_new 2 : arc_nat)) = Some v.
Proof.
  apply (arc_resize_bounds 2 1 (arc_run arc_demo_ops (arc_new 2 : arc_nat))).
  - apply arc_run_inv, arc_new_inv.
  - vm_compute. lia.
Defined.

Lemma arc_ghost_get_evicts_witness :
  (arc_get 0 1 (arc_run arc_demo_ops (arc_new 2 : arc_nat))).2 = None ∧
  S (arc_len (arc_get 0 1 (arc_run arc_demo_ops (arc_new 2 : arc_nat))).1) =
    arc_len (arc_run arc_demo_ops (arc_new 2 : arc_nat)).
Proof.
  apply (arc_ghost_get_evicts 0 1 (arc_run arc_demo_ops (arc_new 2 : arc_nat))).
  - apply arc_run_inv, arc_new_inv.
  - reflexivity.
  - vm_compute. set_solver.
  - vm_compute. lia.
Defined.

Lemma arc_capacity_unbounded_witness :
  arc_len (arc_run (arc_pump 7 3) (arc_new 1 : arc_nat)) = 4 ∧
  arc_cap (arc_run (arc_pump 7 3) (arc_new 1 : arc_nat)) = 1.
Proof. apply (arc_capacity_unbounded 7 3). Defined.
