(* ===== verification/Lfu.v ===== *)
(** * [oxistore-cache/src/lfu.rs]: the least-frequently-used cache

    A hash map from keys to frequency and entry, a hash map from frequencies to
    FIFO buckets of keys, and the smallest frequency [min_freq].  The theorems
    show that the two maps stay coherent, that a full cache evicts the oldest key
    of the smallest frequency and stays within its capacity as long as it is not
    resized, and exactly when [resize] terminates.  Frequencies are natural
    numbers: the [u64] of the code wraps only after 2^64 accesses to one key. *)

From S2P Require Import Prelude Hashlink Cache.

Section LfuModel.
Context {K V : Type} `{Countable K} {M : Type → Type} `{!LinkedHashMap K M}.

Record LfuCache := {
  lfu_cap : nat;
  lfu_min_freq : nat;
  lfu_key_to_entry : gmap K (nat * CacheEntry V);
  lfu_freq_to_keys : gmap nat (M unit);
}.

Definition lfu_new (cap : nat) : LfuCache :=
  {| lfu_cap := cap; lfu_min_freq := 0; lfu_key_to_entry := ∅; lfu_freq_to_keys := ∅ |}.

(** [if let Some(bucket) = .. { bucket.remove(key); if bucket.is_empty() { .. } }] *)
Definition lfu_unlink (key : K) (freq : nat) (b : gmap nat (M unit)) : gmap nat (M unit) :=
  match b !! freq with
  | Some bucket =>
      let bucket := (lhm_remove key bucket).1 in
      if lhm_is_empty bucket then delete freq b else <[freq:=bucket]> b
  | None => b
  end.

(** [.entry(freq).or_insert_with(..).insert(key, ())] *)
Definition lfu_link (key : K) (freq : nat) (b : gmap nat (M unit)) : gmap nat (M unit) :=
  <[freq := (lhm_insert key () (default lhm_new (b !! freq))).1]> b.

Definition lfu_increment_freq (key : K) (c : LfuCache) : LfuCache :=
  match lfu_key_to_entry c !! key with
  | None => c
  | Some (old_freq, e) =>
      let new_freq := old_freq + 1 in
      let entries := <[key:=(new_freq, e)]> (lfu_key_to_entry c) in
      let '(buckets, min_freq) :=
        match lfu_freq_to_keys c !! old_freq with
        | Some bucket =>
            let bucket := (lhm_remove key bucket).1 in
            if lhm_is_empty bucket then
              (delete old_freq (lfu_freq_to_keys c),
               if bool_decide (old_freq = lfu_min_freq c) then new_freq else lfu_min_freq c)
            else (<[old_freq:=bucket]> (lfu_freq_to_keys c), lfu_min_freq c)
        | None => (lfu_freq_to_keys c, lfu_min_freq c)
        end in
      {| lfu_cap := lfu_cap c; lfu_min_freq := min_freq; lfu_key_to_entry := entries;
         lfu_freq_to_keys := lfu_link key new_freq buckets |}
  end.

Definition lfu_evict (c : LfuCache) : LfuCache * option V :=
  match lfu_freq_to_keys c !! lfu_min_freq c with
  | None => (c, None)
  | Some bucket =>
      match lhm_pop_front bucket with
      | (bucket, None) =>
          ({| lfu_cap := lfu_cap c; lfu_min_freq := lfu_min_freq c;
              lfu_key_to_entry := lfu_key_to_entry c;
              lfu_freq_to_keys := <[lfu_min_freq c:=bucket]> (lfu_freq_to_keys c) |}, None)
      | (bucket, Some (evict_key, _)) =>
          let buckets :=
            if lhm_is_empty bucket then delete (lfu_min_freq c) (lfu_freq_to_keys c)
            else <[lfu_min_freq c:=bucket]> (lfu_freq_to_keys c) in
          ({| lfu_cap := lfu_cap c; lfu_min_freq := lfu_min_freq c;
              lfu_key_to_entry := delete evict_key (lfu_key_to_entry c);
              lfu_freq_to_keys := buckets |},
           (λ fe, value fe.2) <$> lfu_key_to_entry c !! evict_key)
      end
  end.

Definition lfu_insert_entry (key : K) (entry : CacheEntry V) (c : LfuCache) : LfuCache * option V :=
  if bool_decide (lfu_cap c = 0) then (c, Some (value entry))
  else
    match lfu_key_to_entry c !! key with
    | Some (f, _) =>
        (lfu_increment_freq key
           {| lfu_cap := lfu_cap c; lfu_min_freq := lfu_min_freq c;
              lfu_key_to_entry := <[key:=(f, entry)]> (lfu_key_to_entry c);
              lfu_freq_to_keys := lfu_freq_to_keys c |}, None)
    | None =>
        let '(c, evicted) :=
          if bool_decide (lfu_cap c ≤ size (lfu_key_to_entry c)) then lfu_evict c else (c, None) in
        ({| lfu_cap := lfu_cap c; lfu_min_freq := 1;
            lfu_key_to_entry := <[key:=(1, entry)]> (lfu_key_to_entry c);
            lfu_freq_to_keys := lfu_link key 1 (lfu_freq_to_keys c) |}, evicted)
    end.

Definition lfu_remove (key : K) (c : LfuCache) : LfuCache * option V :=
  match lfu_key_to_entry c !! key with
  | Some (freq, e) =>
      ({| lfu_cap := lfu_cap c; lfu_min_freq := lfu_min_freq c;
          lfu_key_to_entry := delete key (lfu_key_to_entry c);
          lfu_freq_to_keys := lfu_unlink key freq (lfu_freq_to_keys c) |}, Some (value e))
  | None => (c, None)
  end.

Definition lfu_get (now : Z) (key : K) (c : LfuCache) : LfuCache * option V :=
  if opt_expired now (snd <$> lfu_key_to_entry c !! key) then ((lfu_remove key c).1, None)
  else
    match lfu_key_to_entry c !! key with
    | None => (c, None)
    | Some _ =>
        let c := lfu_increment_freq key c in
        (c, (λ fe, value fe.2) <$> lfu_key_to_entry c !! key)
    end.

Definition lfu_put (key : K) (v : V) (c : LfuCache) : LfuCache * option V :=
  lfu_insert_entry key (entry_new v) c.

Definition lfu_put_with_ttl (now : Z) (key : K) (v : V) (ttl : Z) (c : LfuCache) : LfuCache * option V :=
  lfu_insert_entry key (entry_with_ttl now v ttl) c.

Definition lfu_len (c : LfuCache) : nat := size (lfu_key_to_entry c).

Definition lfu_peek (now : Z) (key : K) (c : LfuCache) : option V :=
  live_value now (snd <$> lfu_key_to_entry c !! key).

Definition lfu_contains_key (now : Z) (key : K) (c : LfuCache) : bool :=
  opt_live now (snd <$> lfu_key_to_entry c !! key).

Definition lfu_clear (c : LfuCache) : LfuCache :=
  {| lfu_cap := lfu_cap c; lfu_min_freq := 0; lfu_key_to_entry := ∅; lfu_freq_to_keys := ∅ |}.

(** [while self.cap > 0 && self.key_to_entry.len() > self.cap { self.evict(); }] *)
Fixpoint lfu_resize_loop (fuel : nat) (c : LfuCache) : option LfuCache :=
  if bool_decide (0 < lfu_cap c) && bool_decide (lfu_cap c < size (lfu_key_to_entry c)) then
    match fuel with 0 => None | S fuel => lfu_resize_loop fuel (lfu_evict c).1 end
  else Some c.

Definition lfu_resize (fuel new_cap : nat) (c : LfuCache) : option LfuCache :=
  lfu_resize_loop fuel
    {| lfu_cap := new_cap; lfu_min_freq := lfu_min_freq c;
       lfu_key_to_entry := lfu_key_to_entry c; lfu_freq_to_keys := lfu_freq_to_keys c |}.

#[global] Instance lfu_cache : Cache K V LfuCache := {|
  cache_get := lfu_get;
  cache_put := lfu_put;
  cache_put_with_ttl := lfu_put_with_ttl;
  cache_len := lfu_len;
  cache_cap := lfu_cap;
  cache_remove := lfu_remove;
  cache_clear := lfu_clear;
  cache_peek := lfu_peek;
  cache_contains_key := lfu_contains_key;
|}.

(** Histories of calls, without [resize]. *)
Inductive LfuOp :=
| LfuGet (now : Z) (k : K)
| LfuPut (k : K) (v : V)
| LfuPutTtl (now : Z) (k : K) (v : V) (ttl : Z)
| LfuRemove (k : K)
| LfuClear.

Definition lfu_step (op : LfuOp) (c : LfuCache) : LfuCache :=
  match op with
  | LfuGet now k => (lfu_get now k c).1
  | LfuPut k v => (lfu_put k v c).1
  | LfuPutTtl now k v ttl => (lfu_put_with_ttl now k v ttl c).1
  | LfuRemove k => (lfu_remove k c).1
  | LfuClear => lfu_clear c
  end.

Definition lfu_run (ops : list LfuOp) (c : LfuCache) : LfuCache := foldl (λ c op, lfu_step op c) c ops.
End LfuModel.
Arguments LfuCache K V {_ _} M.
Arguments LfuOp : clear implicits.

Section LfuTheory.
Context {K V : Type} `{Countable K} {M : Type → Type} `{!LinkedHashMap K M, !LinkedHashMapLaws K M}.
Abbreviation lfu := (LfuCache K V M).
Implicit Types (c : lfu) (E : gmap K (nat * CacheEntry V)) (B : gmap nat (M unit)).

(** The keys of a bucket, oldest first. *)
Definition keys_at (B : gmap nat (M unit)) (f : nat) : list K :=
  match B !! f with Some b => (lhm_iter b).*1 | None => [] end.

(** The two maps hold the same keys; no bucket is empty. *)
Record coherent (E : gmap K (nat * CacheEntry V)) (B : gmap nat (M unit)) : Prop := {
  co_fwd k f e : E !! k = Some (f, e) → k ∈ keys_at B f;
  co_bwd k f : k ∈ keys_at B f → ∃ e, E !! k = Some (f, e);
  co_nonempty f : is_Some (B !! f) → keys_at B f ≠ [];
}.

Lemma keys_at_insert B f b f' :
  keys_at (<[f:=b]> B) f' = if decide (f' = f) then (lhm_iter b).*1 else keys_at B f'.
Proof.
  unfold keys_at. case_decide; [subst; by rewrite lookup_insert_eq|by rewrite lookup_insert_ne].
Qed.

Lemma keys_at_delete B f f' :
  keys_at (delete f B) f' = if decide (f' = f) then [] else keys_at B f'.
Proof.
  unfold keys_at. case_decide; [subst; by rewrite lookup_delete_eq|by rewrite lookup_delete_ne].
Qed.

Lemma lhm_is_empty_keys {W} (m : M W) : lhm_is_empty m = bool_decide ((lhm_iter m).*1 = []).
Proof.
  unfold lhm_is_empty. rewrite lhm_len_iter. destruct (lhm_iter m); by repeat case_bool_decide.
Qed.

(** Replacing a bucket, or dropping it when it became empty. *)
Lemma keys_at_shrunk B f (b : M unit) f' :
  keys_at (if lhm_is_empty b then delete f B else <[f:=b]> B) f' =
    if decide (f' = f) then (lhm_iter b).*1 else keys_at B f'.
Proof.
  rewrite lhm_is_empty_keys. case_bool_decide as Hb; [|apply keys_at_insert].
  rewrite keys_at_delete. by rewrite Hb.
Qed.

Lemma shrunk_nonempty B f (b : M unit) :
  (∀ f', is_Some (B !! f') → keys_at B f' ≠ []) →
  ∀ f', is_Some ((if lhm_is_empty b then delete f B else <[f:=b]> B) !! f') →
    keys_at (if lhm_is_empty b then delete f B else <[f:=b]> B) f' ≠ [].
Proof.
  intros Hne f' Hf'. rewrite keys_at_shrunk. rewrite lhm_is_empty_keys in Hf'.
  case_bool_decide as Hb; case_decide as Hf; subst.
  - by rewrite lookup_delete_eq in Hf'; destruct Hf'.
  - rewrite lookup_delete_ne in Hf' by done. auto.
  - done.
  - rewrite lookup_insert_ne in Hf' by done. auto.
Qed.

Lemma lfu_unlink_keys k f B f' k' :
  k' ∈ keys_at (lfu_unlink k f B) f' ↔ k' ∈ keys_at B f' ∧ ¬ (f' = f ∧ k' = k).
Proof.
  unfold lfu_unlink. destruct (B !! f) as [b|] eqn:Eb.
  - simpl. rewrite keys_at_shrunk. case_decide; [subst|naive_solver].
    rewrite lhm_remove_iter, assoc_remove_keys. unfold keys_at. rewrite Eb. naive_solver.
  - split; [|naive_solver]. intros Hk. split; [done|]. intros [-> ->].
    unfold keys_at in Hk. rewrite Eb in Hk. by apply not_elem_of_nil in Hk.
Qed.

Lemma lfu_link_keys k f B f' k' :
  k' ∈ keys_at (lfu_link k f B) f' ↔ k' ∈ keys_at B f' ∨ (f' = f ∧ k' = k).
Proof.
  unfold lfu_link. rewrite keys_at_insert. case_decide; [subst|naive_solver].
  rewrite lhm_insert_iter, assoc_push_keys. unfold keys_at.
  destruct (B !! f); simpl; [|rewrite lhm_iter_new]; naive_solver.
Qed.

Lemma coherent_empty : coherent ∅ ∅.
Proof.
  split.
  - intros k f e. by rewrite lookup_empty.
  - intros k f. unfold keys_at. rewrite lookup_empty. set_solver.
  - intros f [b Hb]. by rewrite lookup_empty in Hb.
Qed.

(** Removing a key from its bucket. *)
Lemma coherent_del E B B' k f e :
  coherent E B → E !! k = Some (f, e) →
  (∀ k' f', k' ∈ keys_at B' f' ↔ k' ∈ keys_at B f' ∧ ¬ (f' = f ∧ k' = k)) →
  (∀ f', is_Some (B' !! f') → keys_at B' f' ≠ []) →
  coherent (delete k E) B'.
Proof.
  intros [Hf Hb _] Hk Hkeys Hne. split; [| |done].
  - intros k' f' e' [? Hk']%lookup_delete_Some. apply Hkeys. split; [by eapply Hf|]. naive_solver.
  - intros k' f' [Hin Hn]%Hkeys. destruct (Hb _ _ Hin) as [e' He']. exists e'.
    rewrite lookup_delete_ne; [done|]. intros ->. simplify_eq. tauto.
Qed.

Lemma coherent_unlink E B k f e :
  coherent E B → E !! k = Some (f, e) → coherent (delete k E) (lfu_unlink k f B).
Proof.
  intros Hc Hk. eapply coherent_del; [done|done| |].
  - intros. apply lfu_unlink_keys.
  - unfold lfu_unlink. destruct (B !! f); [|apply Hc]. apply shrunk_nonempty, Hc.
Qed.

Lemma coherent_link E B k f e :
  coherent E B → E !! k = None → coherent (<[k:=(f, e)]> E) (lfu_link k f B).
Proof.
  intros [Hf Hb Hne] Hk. split.
  - intros k' f' e'. rewrite lookup_insert_Some, lfu_link_keys. naive_solver.
  - intros k' f'. rewrite lfu_link_keys. intros [Hin|[-> ->]].
    + destruct (Hb _ _ Hin) as [e' He']. exists e'. rewrite lookup_insert_ne; [done|]. congruence.
    + exists e. by rewrite lookup_insert_eq.
  - intros f' Hf'. unfold lfu_link in *. rewrite keys_at_insert. case_decide as Ed.
    + rewrite lhm_insert_iter. unfold assoc_push. rewrite fmap_app. csimpl. by destruct (_ <$> _).
    + rewrite lookup_insert_ne in Hf' by done. auto.
Qed.

Lemma coherent_update E B k f e e' :
  coherent E B → E !! k = Some (f, e) → coherent (<[k:=(f, e')]> E) B.
Proof.
  intros [Hf Hb Hne] Hk. split; [| |done].
  - intros k' f' e0. rewrite lookup_insert_Some. naive_solver.
  - intros k' f' Hin. destruct (Hb _ _ Hin) as [e0 He0].
    destruct (decide (k' = k)) as [->|].
    + rewrite lookup_insert_eq. simplify_eq. eauto.
    + rewrite lookup_insert_ne by done. eauto.
Qed.

(** *** The invariant of the histories without [resize] *)
Record lfu_inv (c : lfu) : Prop := {
  lfu_coherent : coherent (lfu_key_to_entry c) (lfu_freq_to_keys c);
  lfu_min_lower k f e : lfu_key_to_entry c !! k = Some (f, e) → lfu_min_freq c ≤ f;
  lfu_freq_pos k f e : lfu_key_to_entry c !! k = Some (f, e) → 1 ≤ f;
  lfu_cap_zero : lfu_cap c = 0 → lfu_key_to_entry c = ∅;
}.

(** The eviction finds a victim when the cache is full. *)
Definition lfu_bounded (c : lfu) : Prop :=
  lfu_len c ≤ lfu_cap c ∧ (lfu_len c < lfu_cap c ∨ lfu_cap c = 0 ∨ keys_at (lfu_freq_to_keys c) (lfu_min_freq c) ≠ []).

Lemma in_not_nil {A} (x : A) l : x ∈ l → l ≠ [].
Proof. by destruct 1. Qed.

Lemma not_nil_in {A} (l : list A) : l ≠ [] → ∃ x, x ∈ l.
Proof. destruct l as [|x l]; [done|]. exists x. set_solver. Qed.

Lemma lfu_link_not_nil k f B f' : keys_at B f' ≠ [] → keys_at (lfu_link k f B) f' ≠ [].
Proof. intros [k' Hk']%not_nil_in. apply (in_not_nil k'), lfu_link_keys. auto. Qed.

Lemma lfu_unlink_not_nil k f B f' : f' ≠ f → keys_at B f' ≠ [] → keys_at (lfu_unlink k f B) f' ≠ [].
Proof. intros Hne [k' Hk']%not_nil_in. apply (in_not_nil k'), lfu_unlink_keys. naive_solver. Qed.

(** [increment_freq] moves the key up one bucket. *)
Lemma lfu_increment_freq_fields k c f e :
  coherent (lfu_key_to_entry c) (lfu_freq_to_keys c) → lfu_key_to_entry c !! k = Some (f, e) →
  lfu_increment_freq k c =
    {| lfu_cap := lfu_cap c;
       lfu_min_freq :=
         if bool_decide (lfu_unlink k f (lfu_freq_to_keys c) !! f = None) && bool_decide (f = lfu_min_freq c)
         then f + 1 else lfu_min_freq c;
       lfu_key_to_entry := <[k:=(f + 1, e)]> (lfu_key_to_entry c);
       lfu_freq_to_keys := lfu_link k (f + 1) (lfu_unlink k f (lfu_freq_to_keys c)) |}.
Proof.
  intros Hco Hk. unfold lfu_increment_freq. rewrite Hk. unfold lfu_unlink.
  pose proof (co_fwd _ _ Hco _ _ _ Hk) as Hin. unfold keys_at in Hin.
  destruct (lfu_freq_to_keys c !! f) as [b|] eqn:Eb; [|by apply not_elem_of_nil in Hin].
  simpl. destruct (lhm_is_empty (lhm_remove k b).1); simpl.
  - by rewrite (bool_decide_eq_true_2 (delete _ _ !! _ = None)) by apply lookup_delete_eq.
  - rewrite (bool_decide_eq_false_2 (<[_:=_]> _ !! _ = None)); [done|]. by rewrite lookup_insert_eq.
Qed.

(** When the bucket of the key disappears, no other key has its frequency. *)
Lemma lfu_unlink_gone k f e E B k' f' e' :
  coherent E B → E !! k = Some (f, e) → lfu_unlink k f B !! f = None →
  k' ≠ k → E !! k' = Some (f', e') → f' ≠ f.
Proof.
  intros Hco Hk Hgone Hne Hk' ->. pose proof (coherent_unlink _ _ _ _ _ Hco Hk) as Hdel.
  assert (k' ∈ keys_at (lfu_unlink k f B) f) as Hin.
  { apply (co_fwd _ _ Hdel k' f e'). by rewrite lookup_delete_ne. }
  unfold keys_at in Hin. rewrite Hgone in Hin. by apply not_elem_of_nil in Hin.
Qed.

Lemma lfu_increment_freq_spec k c f e :
  lfu_inv c → lfu_key_to_entry c !! k = Some (f, e) →
  let c' := lfu_increment_freq k c in
  lfu_inv c' ∧ lfu_key_to_entry c' = <[k:=(f + 1, e)]> (lfu_key_to_entry c) ∧ lfu_cap c' = lfu_cap c ∧
  (keys_at (lfu_freq_to_keys c) (lfu_min_freq c) ≠ [] → keys_at (lfu_freq_to_keys c') (lfu_min_freq c') ≠ []).
Proof.
  intros [Hco Hlow Hpos Hz] Hk. pose proof (coherent_unlink _ _ _ _ _ Hco Hk) as Hdel.
  rewrite (lfu_increment_freq_fields k c f e) by done. simpl. split_and!; [|done|done|].
  - split; simpl.
    + rewrite <-insert_delete_eq. apply coherent_link; [done|]. apply lookup_delete_eq.
    + intros k' f' e' [[<- [= <- <-]]|[Hne Hk']]%lookup_insert_Some.
      * pose proof (Hlow _ _ _ Hk). case_bool_decide; case_bool_decide; simpl; lia.
      * pose proof (Hlow _ _ _ Hk'). case_bool_decide as E1; case_bool_decide as E2; simpl; try lia.
        assert (f' ≠ f); [|lia]. by apply (lfu_unlink_gone k f e _ _ k' f' e' Hco Hk E1).
    + intros k' f' e' [[<- [= <- <-]]|[Hne Hk']]%lookup_insert_Some; [lia|by eapply Hpos].
    + intros Hc0. specialize (Hz Hc0). by rewrite Hz in Hk.
  - intros Hmne. destruct (decide (f = lfu_min_freq c)) as [Hf|Hf].
    + rewrite (bool_decide_eq_true_2 (f = _)) by done. rewrite andb_true_r. case_bool_decide as E1.
      * apply (in_not_nil k), lfu_link_keys. auto.
      * apply lfu_link_not_nil. rewrite <-Hf. apply (co_nonempty _ _ Hdel). by apply not_eq_None_Some.
    + rewrite (bool_decide_eq_false_2 (f = _)) by done. rewrite andb_false_r.
      by apply lfu_link_not_nil, lfu_unlink_not_nil.
Qed.

(** *** Eviction *)
Lemma lfu_evict_some c k0 rest :
  coherent (lfu_key_to_entry c) (lfu_freq_to_keys c) →
  keys_at (lfu_freq_to_keys c) (lfu_min_freq c) = k0 :: rest →
  ∃ e0 B', lfu_key_to_entry c !! k0 = Some (lfu_min_freq c, e0) ∧
    lfu_evict c = ({| lfu_cap := lfu_cap c; lfu_min_freq := lfu_min_freq c;
                      lfu_key_to_entry := delete k0 (lfu_key_to_entry c); lfu_freq_to_keys := B' |},
                   Some (value e0)) ∧
    coherent (delete k0 (lfu_key_to_entry c)) B' ∧ keys_at B' (lfu_min_freq c) = rest.
Proof.
  intros Hco Hkeys. destruct (co_bwd _ _ Hco k0 (lfu_min_freq c)) as [e0 He0]; [rewrite Hkeys; set_solver|].
  unfold lfu_evict. unfold keys_at in Hkeys.
  destruct (lfu_freq_to_keys c !! lfu_min_freq c) as [b|] eqn:Eb; [|done].
  pose proof (lhm_pop_front_iter b) as Hpop. pose proof (lhm_pop_front_old b) as Hold.
  pose proof (lhm_iter_NoDup b) as Hnd.
  destruct (lhm_iter b) as [|[k1 []] l] eqn:El; [done|]. simpl in *. injection Hkeys as -> Hl.
  destruct (lhm_pop_front b) as [b' o]. simpl in *. subst o.
  exists e0, (if lhm_is_empty b' then delete (lfu_min_freq c) (lfu_freq_to_keys c)
              else <[lfu_min_freq c:=b']> (lfu_freq_to_keys c)).
  split_and!; [done|by rewrite He0| |].
  - eapply coherent_del; [done|done| |apply shrunk_nonempty, Hco].
    intros k' f'. rewrite keys_at_shrunk. case_decide as Hf; [subst f'|naive_solver].
    unfold keys_at. rewrite Eb, El, Hpop. csimpl. apply NoDup_cons in Hnd as [Hn _].
    rewrite elem_of_cons. naive_solver.
  - rewrite keys_at_shrunk, decide_True by done. by rewrite Hpop.
Qed.

Lemma lfu_evict_none c :
  coherent (lfu_key_to_entry c) (lfu_freq_to_keys c) →
  keys_at (lfu_freq_to_keys c) (lfu_min_freq c) = [] → lfu_evict c = (c, None).
Proof.
  intros Hco Hnil. unfold lfu_evict.
  destruct (lfu_freq_to_keys c !! lfu_min_freq c) as [b|] eqn:Eb; [|done].
  destruct (co_nonempty _ _ Hco (lfu_min_freq c)); [by rewrite Eb|done].
Qed.

(** *** Insertion *)
Lemma lfu_insert_fresh_inv c E B key entry :
  coherent E B → (∀ k f e, E !! k = Some (f, e) → 1 ≤ f) → E !! key = None → lfu_cap c ≠ 0 →
  lfu_inv {| lfu_cap := lfu_cap c; lfu_min_freq := 1; lfu_key_to_entry := <[key:=(1, entry)]> E;
             lfu_freq_to_keys := lfu_link key 1 B |}.
Proof.
  intros Hco Hpos Hk Hcap. split; simpl; [by apply coherent_link| | |done];
    intros k f e [[<- [= <- <-]]|[Hne Hk']]%lookup_insert_Some; eauto.
Qed.

(** What an insertion does to the entries, in every branch. *)
Definition lfu_victim (c : lfu) : option K :=
  if bool_decide (lfu_cap c ≤ lfu_len c) then head (keys_at (lfu_freq_to_keys c) (lfu_min_freq c)) else None.

Lemma lfu_insert_entry_spec key entry c :
  lfu_inv c → lfu_cap c ≠ 0 →
  let r := lfu_insert_entry key entry c in
  lfu_inv r.1 ∧ lfu_cap r.1 = lfu_cap c ∧
  match lfu_key_to_entry c !! key with
  | Some (f, _) => lfu_key_to_entry r.1 = <[key:=(f + 1, entry)]> (lfu_key_to_entry c) ∧ r.2 = None ∧
      (keys_at (lfu_freq_to_keys c) (lfu_min_freq c) ≠ [] →
       keys_at (lfu_freq_to_keys r.1) (lfu_min_freq r.1) ≠ [])
  | None =>
      keys_at (lfu_freq_to_keys r.1) (lfu_min_freq r.1) ≠ [] ∧
      match lfu_victim c with
      | Some k0 => ∃ e0, lfu_key_to_entry c !! k0 = Some (lfu_min_freq c, e0) ∧ r.2 = Some (value e0) ∧
          lfu_key_to_entry r.1 = <[key:=(1, entry)]> (delete k0 (lfu_key_to_entry c))
      | None => r.2 = None ∧ lfu_key_to_entry r.1 = <[key:=(1, entry)]> (lfu_key_to_entry c)
      end
  end.
Proof.
  intros Hi Hcap. pose proof Hi as [Hco Hlow Hpos Hz]. unfold lfu_insert_entry.
  rewrite (bool_decide_eq_false_2 (lfu_cap c = 0)) by done.
  destruct (lfu_key_to_entry c !! key) as [[f e]|] eqn:Ek.
  - set (c1 := {| lfu_cap := lfu_cap c; lfu_min_freq := lfu_min_freq c;
      lfu_key_to_entry := <[key:=(f, entry)]> (lfu_key_to_entry c); lfu_freq_to_keys := lfu_freq_to_keys c |}).
    assert (lfu_inv c1) as Hi1.
    { split; simpl; [by eapply coherent_update| | |done];
        intros k' f' e' [[<- [= <- <-]]|[Hne Hk']]%lookup_insert_Some; eauto. }
    destruct (lfu_increment_freq_spec key c1 f entry Hi1) as (? & He & ? & ?); [apply lookup_insert_eq|].
    simpl. split_and!; try done. rewrite He. simpl. by rewrite insert_insert_eq.
  - unfold lfu_victim, lfu_len. case_bool_decide.
    + destruct (keys_at (lfu_freq_to_keys c) (lfu_min_freq c)) as [|k0 rest] eqn:Ekeys; simpl.
      * rewrite lfu_evict_none by done. simpl. split_and!; try done; [by apply lfu_insert_fresh_inv|].
        apply (in_not_nil key), lfu_link_keys. auto.
      * destruct (lfu_evict_some c k0 rest Hco Ekeys) as (e0 & B' & He0 & -> & Hco' & _). simpl.
        split_and!; try done; [| |by exists e0].
        -- apply (lfu_insert_fresh_inv c); [done| |by rewrite lookup_delete_None; right|done].
           intros k f e [_ ?]%lookup_delete_Some. by eapply Hpos.
        -- apply (in_not_nil key), lfu_link_keys. auto.
    + simpl. split_and!; try done; [by apply lfu_insert_fresh_inv|].
      apply (in_not_nil key), lfu_link_keys. auto.
Qed.

Lemma lfu_insert_entry_zero key entry c :
  lfu_cap c = 0 → lfu_insert_entry key entry c = (c, Some (value entry)).
Proof. intros Hc. unfold lfu_insert_entry. by rewrite bool_decide_eq_true_2. Qed.

Lemma lfu_insert_entry_bounded key entry c :
  lfu_inv c → lfu_bounded c → lfu_bounded (lfu_insert_entry key entry c).1.
Proof.
  intros Hi [Hle Hor]. destruct (decide (lfu_cap c = 0)) as [Hz|Hz].
  { by rewrite lfu_insert_entry_zero. }
  destruct (lfu_insert_entry_spec key entry c Hi Hz) as (_ & Hcap & Hm). unfold lfu_bounded, lfu_len in *.
  rewrite Hcap. destruct (lfu_key_to_entry c !! key) as [[f e]|] eqn:Ek.
  - destruct Hm as (-> & _ & Hne). rewrite map_size_insert_Some by eauto. naive_solver.
  - destruct Hm as (Hne & Hm). unfold lfu_victim, lfu_len in Hm. case_bool_decide as Hfull.
    + destruct (keys_at (lfu_freq_to_keys c) (lfu_min_freq c)) as [|k0 rest] eqn:Ekeys; [naive_solver lia|].
      destruct Hm as (e0 & He0 & _ & ->).
      assert (size (delete k0 (lfu_key_to_entry c)) < size (lfu_key_to_entry c)).
      { rewrite map_size_delete_Some by eauto.
        assert (size (lfu_key_to_entry c) ≠ 0); [|lia]. rewrite map_size_ne_0_lookup. eauto. }
      rewrite map_size_insert_None by (rewrite lookup_delete_None; auto). split; [lia|auto].
    + destruct Hm as (_ & ->). rewrite map_size_insert_None by done. split; [lia|auto].
Qed.

(** *** Removal, lookup, histories *)
Lemma lfu_remove_spec key c :
  lfu_inv c →
  lfu_inv (lfu_remove key c).1 ∧ lfu_cap (lfu_remove key c).1 = lfu_cap c ∧
  lfu_key_to_entry (lfu_remove key c).1 = delete key (lfu_key_to_entry c) ∧
  (lfu_remove key c).2 = (λ fe, value fe.2) <$> lfu_key_to_entry c !! key.
Proof.
  intros [Hco Hlow Hpos Hz]. unfold lfu_remove. destruct (lfu_key_to_entry c !! key) as [[f e]|] eqn:Ek; simpl.
  - split_and!; try done. split; simpl.
    + by eapply coherent_unlink.
    + intros k' f' e' [_ ?]%lookup_delete_Some. by eapply Hlow.
    + intros k' f' e' [_ ?]%lookup_delete_Some. by eapply Hpos.
    + intros Hc0. rewrite Hz by done. apply delete_empty.
  - split_and!; try done. by rewrite delete_id.
Qed.

Lemma lfu_remove_bounded key c : lfu_inv c → lfu_bounded c → lfu_bounded (lfu_remove key c).1.
Proof.
  intros Hi [Hle Hor]. destruct (lfu_remove_spec key c Hi) as (_ & Hcap & He & _).
  destruct (lfu_key_to_entry c !! key) as [[f e]|] eqn:Ek; [|unfold lfu_remove; by rewrite Ek].
  unfold lfu_bounded, lfu_len in *. rewrite Hcap, He. rewrite map_size_delete_Some by eauto.
  assert (size (lfu_key_to_entry c) ≠ 0) by (rewrite map_size_ne_0_lookup; eauto). lia.
Qed.

Lemma lfu_get_spec now key c :
  lfu_inv c →
  lfu_inv (lfu_get now key c).1 ∧ lfu_cap (lfu_get now key c).1 = lfu_cap c ∧
  (lfu_get now key c).2 = lfu_peek now key c ∧
  (∀ k, snd <$> lfu_key_to_entry (lfu_get now key c).1 !! k =
        if opt_expired now (snd <$> lfu_key_to_entry c !! key) && bool_decide (k = key) then None
        else snd <$> lfu_key_to_entry c !! k) ∧
  (lfu_bounded c → lfu_bounded (lfu_get now key c).1).
Proof.
  intros Hi. unfold lfu_get, lfu_peek.
  destruct (opt_expired now (snd <$> lfu_key_to_entry c !! key)) eqn:Ex; simpl.
  - destruct (lfu_remove_spec key c Hi) as (?&?&He&_). split_and!; try done.
    + symmetry. apply (live_value_expired _ now now); [done|lia].
    + intros k. rewrite He. case_bool_decide; [subst; by rewrite lookup_delete_eq|by rewrite lookup_delete_ne].
    + by apply lfu_remove_bounded.
  - rewrite live_value_unexpired by done.
    destruct (lfu_key_to_entry c !! key) as [[f e]|] eqn:Ek; simpl; [|done].
    destruct (lfu_increment_freq_spec key c f e Hi Ek) as (?&He&Hcap&Hne). rewrite He.
    split_and!; try done.
    + by rewrite lookup_insert_eq.
    + intros k. destruct (decide (k = key)) as [->|]; [by rewrite lookup_insert_eq, Ek|by rewrite lookup_insert_ne].
    + unfold lfu_bounded, lfu_len. rewrite He, Hcap, map_size_insert_Some by eauto. naive_solver.
Qed.

Lemma lfu_step_inv op c : lfu_inv c → lfu_bounded c → lfu_inv (lfu_step op c) ∧ lfu_bounded (lfu_step op c).
Proof.
  assert (∀ k e c, lfu_inv c → lfu_bounded c →
    lfu_inv (lfu_insert_entry k e c).1 ∧ lfu_bounded (lfu_insert_entry k e c).1) as Hins.
  { intros k e c0 Hi Hb. split; [|by apply lfu_insert_entry_bounded].
    destruct (decide (lfu_cap c0 = 0)); [by rewrite lfu_insert_entry_zero|by apply lfu_insert_entry_spec]. }
  intros Hi Hb. destruct op as [now k|k v|now k v ttl|k|]; simpl.
  - destruct (lfu_get_spec now k c Hi) as (?&_&_&_&?). auto.
  - by apply Hins.
  - by apply Hins.
  - split; [by apply lfu_remove_spec|by apply lfu_remove_bounded].
  - split.
    + split; simpl; [apply coherent_empty|by intros k f e; rewrite lookup_empty..|done].
    + unfold lfu_bounded, lfu_len. simpl. rewrite map_size_empty. lia.
Qed.

Lemma lfu_run_inv ops c : lfu_inv c → lfu_bounded c → lfu_inv (lfu_run ops c) ∧ lfu_bounded (lfu_run ops c).
Proof.
  unfold lfu_run. revert c. induction ops as [|op ops IH]; intros c Hi Hb; simpl; [done|].
  destruct (lfu_step_inv op c Hi Hb). auto.
Qed.

Lemma lfu_new_inv cap : lfu_inv (lfu_new cap : lfu) ∧ lfu_bounded (lfu_new cap : lfu).
Proof.
  split.
  - split; simpl; [apply coherent_empty|by intros k f e; rewrite lookup_empty..|done].
  - unfold lfu_bounded, lfu_len. simpl. rewrite map_size_empty. lia.
Qed.

(** *** The cache interface *)
#[global] Instance lfu_wf : CacheWf lfu := lfu_inv.

Lemma lfu_insert_entry_inv key entry c : lfu_inv c → lfu_inv (lfu_insert_entry key entry c).1.
Proof.
  intros Hi. destruct (decide (lfu_cap c = 0)); [by rewrite lfu_insert_entry_zero|by apply lfu_insert_entry_spec].
Qed.

Lemma lfu_insert_entry_sub t key entry k' v' c :
  lfu_inv c → lfu_peek t k' (lfu_insert_entry key entry c).1 = Some v' →
  (k' = key ∧ v' = value entry) ∨ (k' ≠ key ∧ lfu_peek t k' c = Some v').
Proof.
  intros Hi. unfold lfu_peek. destruct (decide (lfu_cap c = 0)) as [Hz|Hz].
  { rewrite lfu_insert_entry_zero by done. simpl. rewrite (lfu_cap_zero _ Hi Hz), lookup_empty. done. }
  destruct (lfu_insert_entry_spec key entry c Hi Hz) as (_ & _ & Hm).
  assert (∀ f : nat, live_value t (snd <$> Some (f, entry)) = Some v' → v' = value entry) as Hkey.
  { intros f. simpl. destruct (entry_is_expired t entry); naive_solver. }
  destruct (decide (k' = key)) as [->|Hne]; intros Hp; [left; split; [done|]|right; split; [done|]].
  - destruct (lfu_key_to_entry c !! key) as [[f e]|].
    + destruct Hm as (He & _). rewrite He, lookup_insert_eq in Hp. by eapply Hkey.
    + destruct Hm as (_ & Hm). destruct (lfu_victim c); [destruct Hm as (e0 & _ & _ & He)|destruct Hm as (_ & He)];
        rewrite He, lookup_insert_eq in Hp; by eapply Hkey.
  - destruct (lfu_key_to_entry c !! key) as [[f e]|].
    + destruct Hm as (He & _). by rewrite He, lookup_insert_ne in Hp.
    + destruct Hm as (_ & Hm). destruct (lfu_victim c) as [k0|].
      * destruct Hm as (e0 & _ & _ & He). rewrite He, lookup_insert_ne in Hp by done.
        destruct (decide (k' = k0)) as [->|]; [by rewrite lookup_delete_eq in Hp|by rewrite lookup_delete_ne in Hp].
      * destruct Hm as (_ & He). by rewrite He, lookup_insert_ne in Hp.
Qed.

#[global] Instance lfu_laws : CacheLaws K V lfu.
Proof.
  split; unfold cache_wf, lfu_wf; simpl; intros *.
  - intros Hi. by apply lfu_get_spec.
  - apply lfu_insert_entry_inv.
  - apply lfu_insert_entry_inv.
  - intros Hi. by apply lfu_remove_spec.
  - intros Hi. split; simpl; [apply coherent_empty|by intros k f e; rewrite lookup_empty..|done].
  - intros Hi. by destruct (lfu_get_spec now k c Hi) as (_&_&->&_).
  - intros Hi. destruct (lfu_get_spec now k c Hi) as (_&_&_&Hf&_). unfold lfu_peek. rewrite Hf.
    by destruct (_ && _).
  - intros Hi. by apply (lfu_insert_entry_sub t k (entry_new v)).
  - intros Hi. by apply (lfu_insert_entry_sub t k (entry_with_ttl now v ttl)).
  - intros Hi. destruct (lfu_remove_spec k c Hi) as (_&_&He&_). unfold lfu_peek. rewrite He.
    split; [intros ->; by rewrite lookup_delete_eq|intros; by rewrite lookup_delete_ne].
  - intros Hi. destruct (lfu_remove_spec k c Hi) as (_&_&_&->). unfold lfu_peek.
    intros (e & He & <-)%live_value_Some. destruct (lfu_key_to_entry c !! k); by simplify_eq/=.
  - intros Hi. destruct (lfu_remove_spec k c Hi) as (_&_&_&->). unfold lfu_peek. intros Hv. apply live_value_once.
    by destruct (lfu_key_to_entry c !! k).
  - intros Hi. done.
  - intros Hi. apply opt_live_value.
  - intros Hi Ht. by apply live_value_mono.
Qed.

(** *** [resize] *)
#[global] Instance lfu_cache_resize : CacheResize lfu := λ n c, lfu_resize (lfu_len c) n c.

(** The keys of the bucket that [min_freq] names.  The counter can be stale, since [remove]
    does not move it: the bucket can then be empty while there are entries. *)
Definition lfu_min_bucket (c : lfu) : nat := length (keys_at (lfu_freq_to_keys c) (lfu_min_freq c)).

Lemma lfu_resize_loop_terminates fuel c :
  coherent (lfu_key_to_entry c) (lfu_freq_to_keys c) →
  lfu_len c - lfu_cap c ≤ lfu_min_bucket c → lfu_len c - lfu_cap c ≤ fuel →
  ∃ c', lfu_resize_loop fuel c = Some c' ∧ lfu_cap c' = lfu_cap c ∧
    (0 < lfu_cap c → lfu_len c' = Nat.min (lfu_len c) (lfu_cap c)) ∧
    coherent (lfu_key_to_entry c') (lfu_freq_to_keys c').
Proof.
  revert c. induction fuel as [|fuel IH]; intros c Hco Hmin Hf; simpl; unfold lfu_len in *.
  - repeat case_bool_decide; simpl; try lia; exists c; split_and!; try done; lia.
  - repeat case_bool_decide; simpl; try (exists c; split_and!; try done; lia).
    destruct (keys_at (lfu_freq_to_keys c) (lfu_min_freq c)) as [|k0 rest] eqn:Ek;
      [unfold lfu_min_bucket in Hmin; rewrite Ek in Hmin; simpl in Hmin; lia|].
    destruct (lfu_evict_some c k0 rest Hco Ek) as (e0 & B' & He0 & -> & Hco' & Hk').
    assert (size (delete k0 (lfu_key_to_entry c)) = size (lfu_key_to_entry c) - 1) as Hs.
    { rewrite map_size_delete_Some by eauto. lia. }
    edestruct IH as (c' & Hc' & Hcap & Hlen & Hco''); [..|exists c'; split_and!; [exact Hc'|exact Hcap| |done]];
      simpl; rewrite ?Hs; [done| |lia|].
    + unfold lfu_min_bucket in *. simpl. rewrite Hk'. rewrite Ek in Hmin. simpl in Hmin. lia.
    + intros. rewrite Hlen by done. simpl. rewrite Hs. lia.
Qed.

(** More fuel gives the same result. *)
Lemma lfu_resize_loop_mono fuel fuel' c c' : fuel ≤ fuel' → lfu_resize_loop fuel c = Some c' → lfu_resize_loop fuel' c = Some c'.
Proof.
  revert fuel' c. induction fuel as [|fuel IH]; intros fuel' c Hf; destruct fuel' as [|fuel']; try lia; cbn [lfu_resize_loop]; destruct (_ && _); try done.
  apply IH. lia.
Qed.

Lemma lfu_resize_loop_diverges fuel c :
  coherent (lfu_key_to_entry c) (lfu_freq_to_keys c) → 0 < lfu_cap c →
  lfu_min_bucket c < lfu_len c - lfu_cap c → lfu_resize_loop fuel c = None.
Proof.
  revert c. induction fuel as [|fuel IH]; intros c Hco Hcap Hmin; simpl; unfold lfu_len in *;
    rewrite !bool_decide_eq_true_2 by lia; simpl; [done|].
  destruct (keys_at (lfu_freq_to_keys c) (lfu_min_freq c)) as [|k0 rest] eqn:Ek.
  - rewrite lfu_evict_none by done. by apply IH.
  - destruct (lfu_evict_some c k0 rest Hco Ek) as (e0 & B' & He0 & -> & Hco' & Hk').
    apply IH; simpl; [done|done|]. unfold lfu_min_bucket in *. simpl. rewrite Hk'. rewrite Ek in Hmin. simpl in Hmin.
    rewrite map_size_delete_Some by eauto. lia.
Qed.
End LfuTheory.

(** ** Theorems *)
Section LfuTheorems.
Context {K V : Type} `{Countable K} {M : Type → Type} `{!LinkedHashMap K M, !LinkedHashMapLaws K M}.
Abbreviation lfu := (LfuCache K V M).

(** After any history of calls without [resize] on a fresh cache, the cache
    holds at most its capacity, and putting a new key into a full cache of
    positive capacity evicts exactly one entry and returns its value: the key that
    entered the bucket of the smallest frequency first; no resident key has a
    smaller frequency. *)
Theorem lfu_evicts_least_frequent (ops : list (LfuOp K V)) cap (k : K) (v : V) (c : lfu) :
  lfu_run ops (lfu_new cap) = c →
  lfu_len c ≤ lfu_cap c ∧
  (0 < lfu_cap c → lfu_len c = lfu_cap c → lfu_key_to_entry c !! k = None →
   ∃ k0 e0 rest, keys_at (lfu_freq_to_keys c) (lfu_min_freq c) = k0 :: rest ∧
     lfu_key_to_entry c !! k0 = Some (lfu_min_freq c, e0) ∧
     (∀ k' f' e', lfu_key_to_entry c !! k' = Some (f', e') → lfu_min_freq c ≤ f') ∧
     (lfu_put k v c).2 = Some (value e0) ∧
     lfu_key_to_entry (lfu_put k v c).1 = <[k:=(1, entry_new v)]> (delete k0 (lfu_key_to_entry c))).
Proof.
  intros <-. destruct (lfu_new_inv (V:=V) (M:=M) cap) as [Hi0 Hb0].
  destruct (lfu_run_inv ops _ Hi0 Hb0) as [Hi [Hle Hor]]. split; [done|]. intros Hcap Hfull Hk.
  destruct (lfu_insert_entry_spec k (entry_new v) _ Hi) as (_ & _ & Hm); [lia|].
  rewrite Hk in Hm. destruct Hm as [_ Hm]. unfold lfu_victim in Hm. rewrite bool_decide_eq_true_2 in Hm by lia.
  destruct (keys_at _ _) as [|k0 rest]; [naive_solver lia|]. destruct Hm as (e0 & He0 & Hr & He).
  exists k0, e0, rest. split_and!; try done. intros. by eapply lfu_min_lower.
Qed.

(** C38: When [resize] returns.  It returns if and only if the new capacity is 0, when it
    evicts nothing, or the entries to drop are no more than the keys of the bucket named by
    the counter [min_freq]: it never moves on to the next frequency, and otherwise runs for
    ever.  Because the counter can be stale, that bucket is not always the one of the lowest
    frequency of an entry; it can be empty.  When it returns with a positive capacity, one
    eviction per dropped entry was enough and exactly the entries over the capacity are
    gone. *)
Theorem lfu_resize_terminates_iff n (c : lfu) :
  coherent (lfu_key_to_entry c) (lfu_freq_to_keys c) →
  ((∃ fuel c', lfu_resize fuel n c = Some c') ↔ n = 0 ∨ lfu_len c - n ≤ lfu_min_bucket c) ∧
  (∀ fuel c', lfu_resize fuel n c = Some c' → lfu_cap c' = n ∧
     (n = 0 → lfu_key_to_entry c' = lfu_key_to_entry c) ∧
     (0 < n → lfu_resize (lfu_len c - n) n c = Some c' ∧ lfu_len c' = Nat.min (lfu_len c) n)).
Proof.
  intros Hco. set (c1 := {| lfu_cap := n; lfu_min_freq := lfu_min_freq c;
    lfu_key_to_entry := lfu_key_to_entry c; lfu_freq_to_keys := lfu_freq_to_keys c |} : lfu).
  assert (∀ fuel, n = 0 → lfu_resize fuel n c = Some c1) as Hzero.
  { intros fuel ->. unfold lfu_resize. destruct fuel; cbn [lfu_resize_loop lfu_cap]; by rewrite (bool_decide_eq_false_2 (0 < 0)) by lia. }
  assert (∀ fuel c', 0 < n → lfu_resize fuel n c = Some c' → lfu_len c - n ≤ lfu_min_bucket c) as Honly.
  { intros fuel c' Hn Hres. destruct (decide (lfu_len c - n ≤ lfu_min_bucket c)) as [|Hd]; [done|].
    unfold lfu_resize in Hres. rewrite (lfu_resize_loop_diverges fuel c1) in Hres; [done|done|done|].
    unfold lfu_len, lfu_min_bucket in *. simpl in *. lia. }
  assert (∀ fuel, lfu_len c - n ≤ lfu_min_bucket c → lfu_len c - n ≤ fuel → ∃ c', lfu_resize fuel n c = Some c' ∧ lfu_cap c' = n ∧
    (0 < n → lfu_len c' = Nat.min (lfu_len c) n)) as Hret.
  { intros fuel Hle Hf. destruct (lfu_resize_loop_terminates fuel c1) as (c' & Hc' & Hcap & Hlen & _); [done|done|done|]. by exists c'. }
  split; [split|].
  - intros (fuel & c' & Hres). destruct (decide (n = 0)); [by left|right]. apply (Honly fuel c'); [lia|done].
  - intros [Hn|Hle]; [exists 0; eauto|]. destruct (Hret _ Hle (le_n _)) as (c' & Hc' & _). eauto.
  - intros fuel c' Hres. destruct (decide (n = 0)) as [Hn|Hn].
    + rewrite (Hzero fuel Hn) in Hres. injection Hres as <-. split_and!; [done|done|lia].
    + pose proof (Honly fuel c' ltac:(lia) Hres) as Hle. destruct (Hret _ Hle (le_n _)) as (c2 & Hc2 & Hcap & Hlen).
      assert (c2 = c') as ->; [|split_and!; [done|lia|auto]].
      unfold lfu_resize in Hres, Hc2. destruct (Nat.le_ge_cases fuel (lfu_len c - n)) as [Hf|Hf].
      * rewrite (lfu_resize_loop_mono _ _ _ _ Hf Hres) in Hc2. congruence.
      * rewrite (lfu_resize_loop_mono _ _ _ _ Hf Hc2) in Hres. congruence.
Qed.
End LfuTheorems.

(** ** Concrete caches *)
Abbreviation lfu_nat := (LfuCache nat nat (λ V, list (nat * V))).

Definition lfu_demo_ops : list (LfuOp nat nat) :=
  [LfuPut 1 10; LfuPut 2 20; LfuPut 3 30; LfuGet 0 2; LfuGet 0 3].

Lemma lfu_evicts_least_frequent_witness :
  lfu_len (lfu_run lfu_demo_ops (lfu_new 3 : lfu_nat)) ≤ 3 ∧
  ∃ k0 e0 rest,
    keys_at (lfu_freq_to_keys (lfu_run lfu_demo_ops (lfu_new 3 : lfu_nat)))
      (lfu_min_freq (lfu_run lfu_demo_ops (lfu_new 3 : lfu_nat))) = k0 :: rest ∧
    lfu_key_to_entry (lfu_run lfu_demo_ops (lfu_new 3 : lfu_nat)) !! k0 =
      Some (lfu_min_freq (lfu_run lfu_demo_ops (lfu_new 3 : lfu_nat)), e0) ∧
    (lfu_put 4 40 (lfu_run lfu_demo_ops (lfu_new 3 : lfu_nat))).2 = Some (value e0).
Proof.
  destruct (lfu_evicts_least_frequent lfu_demo_ops 3 4 40
    (lfu_run lfu_demo_ops (lfu_new 3 : lfu_nat)) eq_refl) as [H1 H2].
  split; [exact H1|]. destruct H2 as (k0 & e0 & rest & ? & ? & _ & ? & _);
    [vm_compute; lia|reflexivity|reflexivity|]. eauto 8.
Defined.

(** Two keys of frequency 2, and none in the bucket of the stale counter. *)
Definition lfu_stale : lfu_nat := lfu_run [LfuPut 1 10; LfuPut 2 20; LfuPut 3 30; LfuGet 0 2; LfuGet 0 3; LfuRemove 1] (lfu_new 3).

Lemma lfu_resize_terminates_iff_witness :
  ¬ (∃ fuel c', lfu_resize fuel 1 (lfu_run lfu_demo_ops (lfu_new 3 : lfu_nat)) = Some c') ∧
  ¬ (∃ fuel c', lfu_resize fuel 1 lfu_stale = Some c') ∧ keys_at (lfu_freq_to_keys lfu_stale) 2 = [2; 3].
Proof.
  destruct (lfu_resize_terminates_iff 1 (lfu_run lfu_demo_ops (lfu_new 3 : lfu_nat))) as [H1 _]; [apply lfu_run_inv; apply lfu_new_inv|].
  destruct (lfu_resize_terminates_iff 1 lfu_stale) as [H2 _]; [apply lfu_run_inv; apply lfu_new_inv|].
  split; [|split; [|reflexivity]]; [rewrite H1|rewrite H2]; vm_compute; lia.
Defined.

(** A resize that returns can leave a cache that outgrows its capacity.  Removing
    the only key of the smallest frequency leaves [min_freq] pointing to no bucket;
    after shrinking the capacity to the number of remaining keys, the next [put]
    evicts nothing and the cache holds two entries with capacity 1. *)
Theorem lfu_resize_breaks_capacity :
  ∃ c : lfu_nat,
    lfu_resize 5 1 (lfu_run [LfuPut 1 10; LfuPut 2 20; LfuGet 0 2; LfuRemove 1] (lfu_new 2)) = Some c ∧
    lfu_len c = 1 ∧ lfu_cap c = 1 ∧
    (lfu_put 3 30 c).2 = None ∧ lfu_len (lfu_put 3 30 c).1 = 2 ∧ lfu_cap (lfu_put 3 30 c).1 = 1.
Proof. eexists. split_and!; reflexivity. Qed.
