(* ===== verification/Sketch.v ===== *)
(** * [oxistore-cache/src/sketch.rs]: the frequency sketch of W-TinyLFU

    A Count-Min sketch with 4-bit counters packed two per byte, and the doorkeeper
    bloom filter in front of it.  Hashes are 64-bit with wrap-around, bytes are
    integers in [0..256], and an index out of bounds is [None] (the panic of the
    code).  The theorems: packing and unpacking of the counters, no index is out
    of bounds for a capacity of at least 2, the estimate of a key is never below
    the count an exact saturating and ageing counter of that key would have, and
    the doorkeeper has no false negatives. *)

From S2P Require Import Prelude Bytes.

Definition DEPTH : nat := 4.
Definition FNV_OFFSET : Z := 0xcbf29ce484222325.
Definition FNV_PRIME : Z := 0x100000001b3.

(** ** FNV-1a *)
Definition fnv1a_step (h : Z) (b : byte) : Z := wrap64 (Z.lxor h (byte_Z b) * FNV_PRIME).

Definition fnv1a_64 (data : bytes) (init : Z) : Z := foldl fnv1a_step init data.

Definition double_hash (data : bytes) : Z * Z :=
  (fnv1a_64 data FNV_OFFSET, fnv1a_64 data (Z.lxor FNV_OFFSET 0x6c62272e07bb0142)).

Definition row_col (h_a h_b : Z) (row w : nat) : nat :=
  Z.to_nat (wrap64 (h_a + wrap64 (Z.of_nat row * h_b)) mod Z.of_nat w).

(** [usize::next_power_of_two] *)
Definition next_power_of_two (n : nat) : nat := 2 ^ Nat.log2_up n.

(** ** Nibbles *)
Definition nibble_idx (row col half_w : nat) : nat := row * half_w + col / 2.

(** The two halves of a byte. *)
Definition byte_nibble (col : nat) (b : Z) : Z :=
  if Nat.even col then Z.land b 0x0F else Z.land (Z.shiftr b 4) 0x0F.

Definition byte_set_nibble (col : nat) (val b : Z) : Z :=
  if Nat.even col then Z.lor (Z.land b 0xF0) (Z.land val 0x0F)
  else Z.lor (Z.land b 0x0F) (Z.shiftl (Z.land val 0x0F) 4).

Definition nibble_get (counters : list Z) (row col half_w : nat) : option Z :=
  byte_nibble col <$> counters !! nibble_idx row col half_w.

Definition nibble_set (counters : list Z) (row col half_w : nat) (val : Z) : option (list Z) :=
  b ← counters !! nibble_idx row col half_w;
  Some (<[nibble_idx row col half_w := byte_set_nibble col val b]> counters).

(** ** [CountMinSketch] *)
Record CountMinSketch := {
  cms_counters : list Z;
  cms_w : nat;
  cms_half_w : nat;
  cms_additions : nat;
  cms_sample_size : nat;
}.

Definition cms_new (capacity : nat) : CountMinSketch :=
  let w := Nat.max (next_power_of_two capacity) 1 in
  let half_w := w / 2 in
  {| cms_counters := replicate (Nat.max (DEPTH * half_w) 1) 0%Z;
     cms_w := w; cms_half_w := Nat.max half_w 1; cms_additions := 0;
     cms_sample_size := capacity * 10 |}.

Definition age_byte (b : Z) : Z :=
  Z.lor (Z.shiftl (Z.shiftr (Z.shiftr b 4) 1) 4) (Z.shiftr (Z.land b 0x0F) 1).

Definition cms_age (s : CountMinSketch) : CountMinSketch :=
  {| cms_counters := map age_byte (cms_counters s); cms_w := cms_w s; cms_half_w := cms_half_w s;
     cms_additions := 0; cms_sample_size := cms_sample_size s |}.

(** The loop [for row in 0..DEPTH] of [increment]. *)
Fixpoint cms_increment_rows (h_a h_b : Z) (w half_w : nat) (rows : list nat) (counters : list Z)
    : option (list Z) :=
  match rows with
  | [] => Some counters
  | row :: rows =>
      let col := row_col h_a h_b row w in
      cur ← nibble_get counters row col half_w;
      counters ← (if (cur <? 15)%Z then nibble_set counters row col half_w (cur + 1) else Some counters);
      cms_increment_rows h_a h_b w half_w rows counters
  end.

Definition cms_increment (key_bytes : bytes) (s : CountMinSketch) : option CountMinSketch :=
  let '(h_a, h_b) := double_hash key_bytes in
  counters ← cms_increment_rows h_a h_b (cms_w s) (cms_half_w s) (seq 0 DEPTH) (cms_counters s);
  let s := {| cms_counters := counters; cms_w := cms_w s; cms_half_w := cms_half_w s;
              cms_additions := cms_additions s + 1; cms_sample_size := cms_sample_size s |} in
  Some (if bool_decide (cms_sample_size s ≤ cms_additions s) then cms_age s else s).

Fixpoint cms_estimate_rows (h_a h_b : Z) (w half_w : nat) (rows : list nat) (counters : list Z)
    (min_val : Z) : option Z :=
  match rows with
  | [] => Some min_val
  | row :: rows =>
      val ← nibble_get counters row (row_col h_a h_b row w) half_w;
      cms_estimate_rows h_a h_b w half_w rows counters (if (val <? min_val)%Z then val else min_val)
  end.

Definition cms_estimate (key_bytes : bytes) (s : CountMinSketch) : option Z :=
  let '(h_a, h_b) := double_hash key_bytes in
  cms_estimate_rows h_a h_b (cms_w s) (cms_half_w s) (seq 0 DEPTH) (cms_counters s) (two64 - 1).

Definition cms_clear (s : CountMinSketch) : CountMinSketch :=
  {| cms_counters := map (λ _, 0%Z) (cms_counters s); cms_w := cms_w s; cms_half_w := cms_half_w s;
     cms_additions := 0; cms_sample_size := cms_sample_size s |}.

Fixpoint cms_run (keys : list bytes) (s : CountMinSketch) : option CountMinSketch :=
  match keys with
  | [] => Some s
  | k :: keys => s ← cms_increment k s; cms_run keys s
  end.

(** ** [Doorkeeper] *)
Record Doorkeeper := { dk_bits : list Z; dk_num_bits : nat }.

Definition dk_new (capacity : nat) : Doorkeeper :=
  let num_bits := Nat.max (next_power_of_two (capacity * 8)) 64 in
  {| dk_bits := replicate (num_bits / 64) 0%Z; dk_num_bits := num_bits |}.

Fixpoint dk_put_rows (h_a h_b : Z) (num_bits : nat) (rows : list nat) (all_set : bool) (bits : list Z)
    : option (list Z * bool) :=
  match rows with
  | [] => Some (bits, all_set)
  | row :: rows =>
      let pos := row_col h_a h_b row num_bits in
      let word := pos / 64 in
      let bit := Z.of_nat (pos mod 64) in
      x ← bits !! word;
      if (Z.land x (Z.shiftl 1 bit) =? 0)%Z
      then dk_put_rows h_a h_b num_bits rows false (<[word := Z.lor x (Z.shiftl 1 bit)]> bits)
      else dk_put_rows h_a h_b num_bits rows all_set bits
  end.

Definition dk_put (key_bytes : bytes) (d : Doorkeeper) : option (Doorkeeper * bool) :=
  let '(h_a, h_b) := double_hash key_bytes in
  '(bits, all_set) ← dk_put_rows h_a h_b (dk_num_bits d) (seq 0 DEPTH) true (dk_bits d);
  Some ({| dk_bits := bits; dk_num_bits := dk_num_bits d |}, all_set).

Definition dk_clear (d : Doorkeeper) : Doorkeeper :=
  {| dk_bits := map (λ _, 0%Z) (dk_bits d); dk_num_bits := dk_num_bits d |}.

Fixpoint dk_run (keys : list bytes) (d : Doorkeeper) : option Doorkeeper :=
  match keys with
  | [] => Some d
  | k :: keys => '(d, _) ← dk_put k d; dk_run keys d
  end.

(** ** Nibble arithmetic *)
Definition u8_list : list Z := Z.of_nat <$> seq 0 256.
Definition u4_list : list Z := Z.of_nat <$> seq 0 16.

Lemma elem_of_range (n : nat) (b : Z) : (0 ≤ b < Z.of_nat n)%Z → b ∈ Z.of_nat <$> seq 0 n.
Proof.
  intros Hb. apply list_elem_of_fmap. exists (Z.to_nat b). split; [lia|]. apply elem_of_seq. lia.
Qed.

(** All packing laws, checked on every byte and every 4-bit value. *)
Definition nibble_laws : bool :=
  forallb (λ b, forallb (λ v,
    (byte_nibble 0 (byte_set_nibble 0 v b) =? v)%Z && (byte_nibble 1 (byte_set_nibble 1 v b) =? v)%Z &&
    (byte_nibble 1 (byte_set_nibble 0 v b) =? byte_nibble 1 b)%Z &&
    (byte_nibble 0 (byte_set_nibble 1 v b) =? byte_nibble 0 b)%Z &&
    (0 <=? byte_set_nibble 0 v b)%Z && (byte_set_nibble 0 v b <? 256)%Z &&
    (0 <=? byte_set_nibble 1 v b)%Z && (byte_set_nibble 1 v b <? 256)%Z) u4_list &&
    (byte_nibble 0 (age_byte b) =? byte_nibble 0 b / 2)%Z &&
    (byte_nibble 1 (age_byte b) =? byte_nibble 1 b / 2)%Z &&
    (0 <=? age_byte b)%Z && (age_byte b <? 256)%Z &&
    (0 <=? byte_nibble 0 b)%Z && (byte_nibble 0 b <? 16)%Z &&
    (0 <=? byte_nibble 1 b)%Z && (byte_nibble 1 b <? 16)%Z) u8_list.

Lemma nibble_laws_hold : nibble_laws = true.
Proof. vm_compute. reflexivity. Qed.

Definition is_u8 (b : Z) : Prop := (0 ≤ b < 256)%Z.
Definition is_u4 (v : Z) : Prop := (0 ≤ v < 16)%Z.

Lemma byte_nibble_parity col b : byte_nibble col b = byte_nibble (if Nat.even col then 0 else 1) b.
Proof. unfold byte_nibble. by destruct (Nat.even col). Qed.
Lemma byte_set_nibble_parity col v b :
  byte_set_nibble col v b = byte_set_nibble (if Nat.even col then 0 else 1) v b.
Proof. unfold byte_set_nibble. by destruct (Nat.even col). Qed.

Lemma nibble_facts b : is_u8 b →
  (∀ v, is_u4 v →
    byte_nibble 0 (byte_set_nibble 0 v b) = v ∧ byte_nibble 1 (byte_set_nibble 1 v b) = v ∧
    byte_nibble 1 (byte_set_nibble 0 v b) = byte_nibble 1 b ∧
    byte_nibble 0 (byte_set_nibble 1 v b) = byte_nibble 0 b ∧
    is_u8 (byte_set_nibble 0 v b) ∧ is_u8 (byte_set_nibble 1 v b)) ∧
  byte_nibble 0 (age_byte b) = (byte_nibble 0 b / 2)%Z ∧
  byte_nibble 1 (age_byte b) = (byte_nibble 1 b / 2)%Z ∧
  is_u8 (age_byte b) ∧ is_u4 (byte_nibble 0 b) ∧ is_u4 (byte_nibble 1 b).
Proof.
  intros Hb. pose proof nibble_laws_hold as H. unfold nibble_laws in H. rewrite forallb_forall in H.
  specialize (H b). rewrite !andb_true_iff, !Z.eqb_eq, !Z.leb_le, !Z.ltb_lt in H.
  destruct H as ((((((((Hv & ?) & ?) & ?) & ?) & ?) & ?) & ?) & ?).
  { apply list_elem_of_In, (elem_of_range 256). exact Hb. }
  split; [|unfold is_u8, is_u4; split_and!; done].
  intros v Hv4. rewrite forallb_forall in Hv. specialize (Hv v).
  rewrite !andb_true_iff, !Z.eqb_eq, !Z.leb_le, !Z.ltb_lt in Hv. unfold is_u8.
  destruct Hv as (((((((? & ?) & ?) & ?) & ?) & ?) & ?) & ?); [|done].
  apply list_elem_of_In, (elem_of_range 16). exact Hv4.
Qed.

Lemma byte_set_nibble_u8 col v b : is_u8 b → is_u4 v → is_u8 (byte_set_nibble col v b).
Proof.
  intros Hb Hv. rewrite byte_set_nibble_parity. destruct (nibble_facts b Hb) as [Hf _].
  destruct (Hf v Hv) as (_&_&_&_&?&?). by destruct (Nat.even col).
Qed.

Lemma byte_nibble_u4 col b : is_u8 b → is_u4 (byte_nibble col b).
Proof.
  intros Hb. rewrite byte_nibble_parity. destruct (nibble_facts b Hb) as (_&_&_&_&?&?). by destruct (Nat.even col).
Qed.

Lemma byte_nibble_age col b : is_u8 b → byte_nibble col (age_byte b) = (byte_nibble col b / 2)%Z.
Proof.
  intros Hb. rewrite !(byte_nibble_parity col). destruct (nibble_facts b Hb) as (_&?&?&_). by destruct (Nat.even col).
Qed.

Lemma age_byte_u8 b : is_u8 b → is_u8 (age_byte b).
Proof. intros Hb. by destruct (nibble_facts b Hb) as (_&_&_&?&_). Qed.

Lemma byte_nibble_set col col' v b :
  is_u8 b → is_u4 v →
  byte_nibble col' (byte_set_nibble col v b) =
    if bool_decide (Nat.even col = Nat.even col') then v else byte_nibble col' b.
Proof.
  intros Hb Hv. rewrite byte_set_nibble_parity, !(byte_nibble_parity col').
  destruct (nibble_facts b Hb) as [Hf _]. destruct (Hf v Hv) as (?&?&?&?&_).
  destruct (Nat.even col), (Nat.even col'); done.
Qed.

(** ** The packed table *)
Definition counters_ok (half_w : nat) (counters : list Z) : Prop :=
  length counters = DEPTH * half_w ∧ Forall is_u8 counters.

Lemma nibble_idx_lt row col half_w :
  row < DEPTH → col < 2 * half_w → nibble_idx row col half_w < DEPTH * half_w.
Proof.
  unfold nibble_idx, DEPTH. intros Hr Hc. assert (col / 2 < half_w) by (apply Nat.Div0.div_lt_upper_bound; lia). nia.
Qed.

(** Distinct cells do not overlap. *)
Lemma nibble_idx_inj row col row' col' half_w :
  col < 2 * half_w → col' < 2 * half_w →
  nibble_idx row col half_w = nibble_idx row' col' half_w → Nat.even col = Nat.even col' →
  row = row' ∧ col = col'.
Proof.
  unfold nibble_idx. intros Hc Hc' Hidx Hev.
  assert (col / 2 < half_w) by (apply Nat.Div0.div_lt_upper_bound; lia).
  assert (col' / 2 < half_w) by (apply Nat.Div0.div_lt_upper_bound; lia).
  assert (row = row' ∧ col / 2 = col' / 2) as [-> Hdiv].
  { apply (Nat.div_mod_unique half_w); lia. }
  split; [done|].
  pose proof (Nat.div2_odd col) as H1. pose proof (Nat.div2_odd col') as H2.
  rewrite !Nat.div2_div in H1, H2. rewrite <-!Nat.negb_even in H1, H2. rewrite Hev in H1. lia.
Qed.

Lemma nibble_get_ok counters row col half_w :
  counters_ok half_w counters → row < DEPTH → col < 2 * half_w →
  ∃ v, nibble_get counters row col half_w = Some v ∧ is_u4 v.
Proof.
  intros [Hlen Hu8] Hr Hc. unfold nibble_get.
  destruct (lookup_lt_is_Some_2 counters (nibble_idx row col half_w)) as [b Hb].
  { rewrite Hlen. by apply nibble_idx_lt. }
  rewrite Hb. simpl. eexists. split; [done|]. apply byte_nibble_u4. by eapply Forall_lookup_1.
Qed.

Lemma nibble_set_ok counters row col half_w v :
  counters_ok half_w counters → row < DEPTH → col < 2 * half_w → is_u4 v →
  ∃ counters', nibble_set counters row col half_w v = Some counters' ∧ counters_ok half_w counters' ∧
    ∀ row' col', row' < DEPTH → col' < 2 * half_w →
      nibble_get counters' row' col' half_w =
        if bool_decide (row' = row ∧ col' = col) then Some v else nibble_get counters row' col' half_w.
Proof.
  intros [Hlen Hu8] Hr Hc Hv. unfold nibble_set.
  destruct (lookup_lt_is_Some_2 counters (nibble_idx row col half_w)) as [b Hb].
  { rewrite Hlen. by apply nibble_idx_lt. }
  pose proof (Forall_lookup_1 _ _ _ _ Hu8 Hb) as Hb8. rewrite Hb. simpl. eexists. split_and!; [done| |].
  - split; [by rewrite length_insert|]. apply Forall_insert; [done|]. by apply byte_set_nibble_u8.
  - intros row' col' Hr' Hc'. unfold nibble_get.
    destruct (decide (nibble_idx row' col' half_w = nibble_idx row col half_w)) as [He|Hne].
    + rewrite He, list_lookup_insert_eq, Hb by (rewrite Hlen; by apply nibble_idx_lt). simpl.
      rewrite byte_nibble_set by done. case_bool_decide as Hev; case_bool_decide as Hcell; try done.
      * destruct Hcell. by apply (nibble_idx_inj row' col' row col half_w).
      * destruct Hcell as [_ ->]. done.
    + rewrite list_lookup_insert_ne by done. rewrite bool_decide_eq_false_2; [done|]. by intros [-> ->].
Qed.

(** ** The Count-Min sketch *)
Record cms_wf (s : CountMinSketch) : Prop := {
  cms_w_even : cms_w s = 2 * cms_half_w s;
  cms_half_pos : 1 ≤ cms_half_w s;
  cms_ok : counters_ok (cms_half_w s) (cms_counters s);
}.

(** The column of a key in a row, and its counter. *)
Definition key_col (k : bytes) (row w : nat) : nat :=
  row_col (double_hash k).1 (double_hash k).2 row w.
Definition cms_cell (s : CountMinSketch) (k : bytes) (row : nat) : option Z :=
  nibble_get (cms_counters s) row (key_col k row (cms_w s)) (cms_half_w s).

Lemma row_col_lt h_a h_b row w : 1 ≤ w → row_col h_a h_b row w < w.
Proof.
  intros Hw. unfold row_col. pose proof (Z.mod_pos_bound (wrap64 (h_a + wrap64 (Z.of_nat row * h_b))) (Z.of_nat w)). lia.
Qed.

Lemma next_power_of_two_even n : 2 ≤ n → next_power_of_two n = 2 * (next_power_of_two n / 2) ∧ 1 ≤ next_power_of_two n / 2.
Proof.
  intros Hn. unfold next_power_of_two. pose proof (Nat.log2_up_pos n). destruct (Nat.log2_up n) as [|m]; [lia|].
  rewrite Nat.pow_succ_r'. rewrite (Nat.mul_comm 2), Nat.div_mul by lia.
  pose proof (Nat.pow_nonzero 2 m). lia.
Qed.

Lemma cms_new_wf capacity : 2 ≤ capacity → cms_wf (cms_new capacity).
Proof.
  intros Hc. destruct (next_power_of_two_even capacity Hc) as [He Hp]. unfold cms_new.
  rewrite (Nat.max_l (next_power_of_two capacity) 1) by lia.
  rewrite (Nat.max_l (_ / 2) 1), (Nat.max_l (DEPTH * _) 1) by (unfold DEPTH; lia).
  split; cbn [cms_w cms_half_w cms_counters]; [lia|lia|]. split; [apply length_replicate|]. apply Forall_replicate. unfold is_u8. lia.
Qed.

Lemma cms_increment_rows_spec h_a h_b half_w rows counters :
  counters_ok half_w counters → 1 ≤ half_w → NoDup rows → Forall (λ r, r < DEPTH) rows →
  ∃ counters', cms_increment_rows h_a h_b (2 * half_w) half_w rows counters = Some counters' ∧
    counters_ok half_w counters' ∧
    ∀ row col, row < DEPTH → col < 2 * half_w →
      nibble_get counters' row col half_w =
        if bool_decide (row ∈ rows ∧ col = row_col h_a h_b row (2 * half_w))
        then (λ v, Z.min 15 (v + 1)) <$> nibble_get counters row col half_w
        else nibble_get counters row col half_w.
Proof.
  intros Hok Hh. revert counters Hok. induction rows as [|r rows IH]; intros counters Hok; cbn [cms_increment_rows].
  { intros _ _. eexists. split_and!; [done|done|]. intros. rewrite bool_decide_eq_false_2; [done|]. set_solver. }
  intros [Hr Hnd]%NoDup_cons [Hlt Hall]%Forall_cons.
  set (c := row_col h_a h_b r (2 * half_w)).
  assert (c < 2 * half_w) as Hc by (apply row_col_lt; lia).
  destruct (nibble_get_ok counters r c half_w Hok Hlt Hc) as (v & Hv & Hv4).
  assert (∃ counters1, (if (v <? 15)%Z then nibble_set counters r c half_w (v + 1) else Some counters) = Some counters1 ∧
    counters_ok half_w counters1 ∧ ∀ row col, row < DEPTH → col < 2 * half_w →
      nibble_get counters1 row col half_w = if bool_decide (row = r ∧ col = c) then Some (Z.min 15 (v + 1))
        else nibble_get counters row col half_w) as (counters1 & Hset & Hok1 & Hget1).
  { destruct (Z.ltb_spec v 15).
    - destruct (nibble_set_ok counters r c half_w (v + 1) Hok Hlt Hc) as (c1 & ? & ? & Hg).
      { unfold is_u4 in *. lia. }
      exists c1. split_and!; [done|done|]. intros. rewrite Hg by done. by rewrite Z.min_r by lia.
    - exists counters. split_and!; [done|done|]. intros row col ? ?. case_bool_decide as Hcell; [|done].
      destruct Hcell as [-> ->]. rewrite Hv. f_equal. unfold is_u4 in Hv4. lia. }
  destruct (IH counters1 Hok1 Hnd Hall) as (counters' & Hrun & Hok' & Hget').
  exists counters'. split_and!; [|done|].
  - rewrite Hv. cbn [mbind option_bind]. by rewrite Hset.
  - intros row col Hrow Hcol. rewrite Hget', Hget1 by done.
    destruct (decide (row = r)) as [->|Hne].
    + rewrite (bool_decide_eq_false_2 (r ∈ rows ∧ _)) by tauto. fold c.
      rewrite (bool_decide_ext (r ∈ r :: rows ∧ col = c) (r = r ∧ col = c)) by (rewrite elem_of_cons; tauto).
      case_bool_decide as H1; [|done]. destruct H1 as [_ ->]. by rewrite Hv.
    + rewrite (bool_decide_eq_false_2 (row = r ∧ _)) by tauto.
      by rewrite (bool_decide_ext (row ∈ r :: rows ∧ _) (row ∈ rows ∧ col = row_col h_a h_b row (2 * half_w)))
        by (rewrite elem_of_cons; tauto).
Qed.

Lemma DEPTH_rows : NoDup (seq 0 DEPTH) ∧ Forall (λ r, r < DEPTH) (seq 0 DEPTH).
Proof. split; [apply NoDup_seq|]. apply Forall_forall. intros r Hr%elem_of_seq. lia. Qed.

(** The counters of a key are all at least [n]. *)
Definition cms_lower (k : bytes) (n : Z) (s : CountMinSketch) : Prop :=
  ∀ row v, row < DEPTH → cms_cell s k row = Some v → (n ≤ v)%Z.

Lemma cms_cell_ok s k row : cms_wf s → row < DEPTH → ∃ v, cms_cell s k row = Some v ∧ is_u4 v.
Proof.
  intros [He Hp Hok] Hrow. apply nibble_get_ok; [done|done|]. rewrite <-He. apply row_col_lt. lia.
Qed.

Lemma cms_age_wf s : cms_wf s → cms_wf (cms_age s).
Proof.
  intros [He Hp [Hlen Hu8]]. split; [done|done|]. split; simpl; [by rewrite length_map|].
  apply Forall_fmap. eapply Forall_impl; [exact Hu8|]. intros b. apply age_byte_u8.
Qed.

Lemma cms_age_cell s k row :
  cms_wf s → cms_cell (cms_age s) k row = (λ v, v / 2)%Z <$> cms_cell s k row.
Proof.
  intros [_ _ [_ Hu8]]. unfold cms_cell, nibble_get. simpl.
  change (map age_byte (cms_counters s)) with (age_byte <$> cms_counters s). rewrite list_lookup_fmap.
  destruct (cms_counters s !! _) as [b|] eqn:Hb; simpl; [|done]. f_equal. apply byte_nibble_age.
  by eapply Forall_lookup_1.
Qed.

Lemma cms_age_lower k n s : cms_wf s → cms_lower k n s → cms_lower k (n / 2) (cms_age s).
Proof.
  intros Hwf Hlow row v Hrow. rewrite cms_age_cell by done.
  destruct (cms_cell s k row) as [v0|] eqn:E; simpl; [|done]. intros [= <-].
  apply Z.div_le_mono; [lia|]. by eapply Hlow.
Qed.

(** One counter of the reference: exact, saturating, and ageing with the sketch. *)
Definition exact_bump (k k' : bytes) (n : Z) : Z := if decide (k' = k) then Z.min 15 (n + 1) else n.

Fixpoint exact_count (k : bytes) (sample_size additions : nat) (n : Z) (keys : list bytes) : Z :=
  match keys with
  | [] => n
  | k' :: keys =>
      if bool_decide (sample_size ≤ additions + 1)
      then exact_count k sample_size 0 (exact_bump k k' n / 2) keys
      else exact_count k sample_size (additions + 1) (exact_bump k k' n) keys
  end.

Lemma cms_increment_spec k k' n s :
  cms_wf s → cms_lower k n s → (n ≤ 15)%Z →
  ∃ s', cms_increment k' s = Some s' ∧ cms_wf s' ∧ cms_sample_size s' = cms_sample_size s ∧
    if bool_decide (cms_sample_size s ≤ cms_additions s + 1)
    then cms_additions s' = 0 ∧ cms_lower k (exact_bump k k' n / 2) s'
    else cms_additions s' = cms_additions s + 1 ∧ cms_lower k (exact_bump k k' n) s'.
Proof.
  intros Hwf Hlow Hn. pose proof Hwf as [He Hp Hok]. unfold cms_increment. destruct (double_hash k') as [h_a h_b] eqn:Eh.
  destruct DEPTH_rows as [Hnd Hall].
  destruct (cms_increment_rows_spec h_a h_b (cms_half_w s) (seq 0 DEPTH) (cms_counters s) Hok Hp Hnd Hall)
    as (counters' & Hrun & Hok' & Hget). rewrite He, Hrun. cbn [mbind option_bind]. cbv zeta.
  set (s1 := {| cms_counters := counters'; cms_w := 2 * cms_half_w s; cms_half_w := cms_half_w s;
    cms_additions := cms_additions s + 1; cms_sample_size := cms_sample_size s |}).
  assert (cms_wf s1) as Hwf1 by done.
  assert (cms_lower k (exact_bump k k' n) s1) as Hlow1.
  { intros row v Hrow. unfold cms_cell, s1. cbn [cms_counters cms_w cms_half_w].
    assert (key_col k row (2 * cms_half_w s) < 2 * cms_half_w s) as Hcol by (apply row_col_lt; lia).
    rewrite Hget by done. destruct (cms_cell_ok s k row Hwf Hrow) as (v0 & Hv0 & Hv4).
    pose proof (Hlow _ _ Hrow Hv0) as Hle. unfold cms_cell in Hv0. rewrite He in Hv0. rewrite Hv0. cbn [fmap option_fmap option_map].
    unfold exact_bump, is_u4 in *. case_bool_decide as Hb; intros [= <-]; case_decide as Hk; try lia.
    destruct Hb. subst k'. split; [apply elem_of_seq; lia|]. unfold key_col. by rewrite Eh. }
  eexists. split; [done|]. cbn [cms_sample_size cms_additions s1]. case_bool_decide as Ha.
  - split; [by apply cms_age_wf|]. split; [done|]. split; [done|]. by apply cms_age_lower.
  - done.
Qed.

Lemma exact_bump_le k k' n : (n ≤ 15)%Z → (exact_bump k k' n ≤ 15)%Z.
Proof. unfold exact_bump. case_decide; lia. Qed.

Lemma exact_bump_nonneg k k' n : (0 ≤ n)%Z → (0 ≤ exact_bump k k' n)%Z.
Proof. unfold exact_bump. case_decide; lia. Qed.

Lemma cms_run_spec k n keys s :
  cms_wf s → cms_lower k n s → (n ≤ 15)%Z → (0 ≤ n)%Z →
  ∃ s', cms_run keys s = Some s' ∧ cms_wf s' ∧
    cms_lower k (exact_count k (cms_sample_size s) (cms_additions s) n keys) s'.
Proof.
  revert n s. induction keys as [|k' keys IH]; intros n s Hwf Hlow Hn Hn0; simpl; [by exists s|].
  destruct (cms_increment_spec k k' n s Hwf Hlow Hn) as (s1 & -> & Hwf1 & Hss & Hcase). simpl.
  pose proof (exact_bump_le k k' n Hn). pose proof (exact_bump_nonneg k k' n Hn0).
  case_bool_decide; destruct Hcase as [Ha Hl].
  - destruct (IH _ s1 Hwf1 Hl) as (s' & ? & ? & Hl'); [apply Z.div_le_upper_bound; lia|
      apply Z.div_pos; lia|]. rewrite Hss, Ha in Hl'. eauto.
  - destruct (IH _ s1 Hwf1 Hl) as (s' & ? & ? & Hl'); [lia|lia|]. rewrite Hss, Ha in Hl'. eauto.
Qed.

Lemma cms_estimate_rows_spec s k rows m :
  cms_wf s → Forall (λ r, r < DEPTH) rows →
  ∃ e, cms_estimate_rows (double_hash k).1 (double_hash k).2 (cms_w s) (cms_half_w s) rows (cms_counters s) m = Some e ∧
    (e ≤ m)%Z ∧ (∀ row v, row ∈ rows → cms_cell s k row = Some v → e ≤ v)%Z ∧
    ∀ n, (n ≤ m)%Z → (∀ row v, row ∈ rows → cms_cell s k row = Some v → n ≤ v)%Z → (n ≤ e)%Z.
Proof.
  intros Hwf. revert m. induction rows as [|r rows IH]; intros m; cbn [cms_estimate_rows].
  { intros _. exists m. split_and!; [done|lia|set_solver|done]. }
  intros [Hr Hall]%Forall_cons. destruct (cms_cell_ok s k r Hwf Hr) as (v & Hv & _).
  pose proof Hv as Hv'. unfold cms_cell, key_col in Hv'. rewrite Hv'. cbn [mbind option_bind].
  destruct (IH (if (v <? m)%Z then v else m) Hall) as (e & -> & Hem & Hle & Hge).
  exists e. assert (e ≤ m ∧ e ≤ v)%Z as [? ?] by (destruct (Z.ltb_spec v m); lia). split_and!; [done|done| |].
  - intros row v0 [->|Hin]%elem_of_cons Hv0; [congruence|by eapply Hle].
  - intros n Hnm Hall'. apply Hge.
    + destruct (Z.ltb_spec v m); [|done]. apply (Hall' r v); [set_solver|done].
    + intros row v0 Hin Hv0. apply (Hall' row v0); [set_solver|done].
Qed.

(** ** The doorkeeper *)
Definition dk_bit (bits : list Z) (pos : nat) : bool :=
  match bits !! (pos / 64) with Some x => Z.testbit x (Z.of_nat (pos mod 64)) | None => false end.

Definition dk_wf (d : Doorkeeper) : Prop := dk_num_bits d = 64 * length (dk_bits d) ∧ 1 ≤ length (dk_bits d).

Lemma land_shiftl_1 x n : (0 ≤ n)%Z → (Z.land x (Z.shiftl 1 n) =? 0)%Z = negb (Z.testbit x n).
Proof.
  intros Hn. apply eq_bool_prop_intro. rewrite !Is_true_true, Z.eqb_eq, negb_true_iff. split.
  - intros H. apply (f_equal (λ z, Z.testbit z n)) in H. rewrite Z.land_spec, Z.bits_0 in H.
    rewrite Z.shiftl_1_l, Z.pow2_bits_true, andb_true_r in H by done. done.
  - intros H. apply Z.bits_inj'. intros m Hm. rewrite Z.land_spec, Z.bits_0, Z.shiftl_1_l, Z.pow2_bits_eqb by done.
    destruct (Z.eqb_spec n m); [subst; by rewrite H|by rewrite andb_false_r].
Qed.

Lemma dk_bit_insert bits word x bit pos :
  bits !! word = Some x → bit < 64 →
  dk_bit (<[word := Z.lor x (Z.shiftl 1 (Z.of_nat bit))]> bits) pos =
    bool_decide (pos / 64 = word ∧ pos mod 64 = bit) || dk_bit bits pos.
Proof.
  intros Hx Hb. unfold dk_bit. destruct (decide (pos / 64 = word)) as [->|Hne].
  - rewrite list_lookup_insert_eq by (by eapply lookup_lt_Some). rewrite Hx, Z.lor_spec, Z.shiftl_1_l,
      Z.pow2_bits_eqb by lia. destruct (Z.eqb_spec (Z.of_nat bit) (Z.of_nat (pos mod 64))).
    + rewrite bool_decide_eq_true_2 by (split; [done|lia]). by rewrite orb_true_r.
    + rewrite bool_decide_eq_false_2 by (intros [_ ?]; lia). by rewrite orb_false_r.
  - rewrite list_lookup_insert_ne by done. by rewrite bool_decide_eq_false_2 by tauto.
Qed.

(** The rows of a [put]: it never panics, it sets the bits of the key and clears
    none, and reports [true] exactly when all of them were set. *)
Lemma dk_put_rows_spec h_a h_b n rows all_set bits :
  n = 64 * length bits → 1 ≤ length bits →
  ∃ bits' r, dk_put_rows h_a h_b n rows all_set bits = Some (bits', r) ∧ length bits' = length bits ∧
    (∀ pos, dk_bit bits' pos = bool_decide (pos ∈ (λ row, row_col h_a h_b row n) <$> rows) || dk_bit bits pos) ∧
    ((∀ row, row ∈ rows → dk_bit bits (row_col h_a h_b row n) = true) → r = all_set) ∧
    (r = true → all_set = true ∧ ∀ row, row ∈ rows → dk_bit bits (row_col h_a h_b row n) = true).
Proof.
  intros Hn Hpos. revert all_set bits Hn Hpos. induction rows as [|row rows IH]; intros all_set bits Hn Hpos;
    cbn [dk_put_rows].
  { exists bits, all_set. split_and!; [done|done| |done|]; [|intros ->; split; [done|set_solver]].
    intros pos. rewrite bool_decide_eq_false_2; [done|]. csimpl. set_solver. }
  set (pos := row_col h_a h_b row n). assert (pos < n) as Hlt by (apply row_col_lt; lia).
  destruct (lookup_lt_is_Some_2 bits (pos / 64)) as [x Hx]; [apply Nat.Div0.div_lt_upper_bound; lia|].
  rewrite Hx. cbn [mbind option_bind]. rewrite land_shiftl_1 by lia.
  assert (dk_bit bits pos = Z.testbit x (Z.of_nat (pos mod 64))) as Hbit by (unfold dk_bit; by rewrite Hx).
  rewrite <-Hbit. destruct (dk_bit bits pos) eqn:Eb; simpl negb; cbv iota.
  - destruct (IH all_set bits Hn Hpos) as (bits' & r & -> & Hl & Hb & Hr1 & Hr2). exists bits', r.
    split_and!; [done|done| | |].
    + intros p. rewrite Hb, fmap_cons. fold pos. destruct (decide (p = pos)) as [->|Hne].
      * by rewrite Eb, !orb_true_r.
      * f_equal. apply bool_decide_ext. rewrite elem_of_cons. naive_solver.
    + intros Hall. apply Hr1. intros. apply Hall. set_solver.
    + intros Hr. destruct (Hr2 Hr) as [? Hall]. split; [done|]. intros row' [->|?]%elem_of_cons; auto.
  - assert (pos mod 64 < 64) as Hm by (apply Nat.mod_upper_bound; lia).
    pose proof (dk_bit_insert bits (pos / 64) x (pos mod 64)) as Hins.
    destruct (IH false (<[pos / 64 := Z.lor x (Z.shiftl 1 (Z.of_nat (pos mod 64)))]> bits))
      as (bits' & r & -> & Hl & Hb & Hr1 & Hr2); [by rewrite length_insert..|].
    exists bits', r. rewrite length_insert in Hl. split_and!; [done|done| | |].
    + intros p. rewrite Hb, Hins by done. rewrite fmap_cons. fold pos. rewrite orb_assoc. f_equal.
      destruct (decide (p = pos)) as [->|Hne].
      * rewrite (bool_decide_eq_true_2 (_ = _ ∧ _)) by done. rewrite orb_true_r.
        rewrite bool_decide_eq_true_2; [done|]. set_solver.
      * rewrite (bool_decide_eq_false_2 (_ = _ ∧ _)), orb_false_r.
        -- apply bool_decide_ext. rewrite elem_of_cons. naive_solver.
        -- intros [H1 H2]. apply Hne.
           pose proof (Nat.div_mod_eq p 64) as E1. pose proof (Nat.div_mod_eq pos 64) as E2. congruence.
    + intros Hall. assert (dk_bit bits pos = true) by (apply Hall; set_solver). congruence.
    + intros Hr. by destruct (Hr2 Hr).
Qed.

Lemma dk_put_spec k d :
  dk_wf d →
  ∃ d' r, dk_put k d = Some (d', r) ∧ dk_wf d' ∧
    (∀ pos, dk_bit (dk_bits d) pos = true → dk_bit (dk_bits d') pos = true) ∧
    (∀ row, row < DEPTH → dk_bit (dk_bits d') (key_col k row (dk_num_bits d)) = true) ∧
    dk_num_bits d' = dk_num_bits d ∧
    (r = true ↔ ∀ row, row < DEPTH → dk_bit (dk_bits d) (key_col k row (dk_num_bits d)) = true).
Proof.
  intros [Hn Hp]. unfold dk_put, key_col. destruct (double_hash k) as [h_a h_b]. cbn [fst snd].
  destruct (dk_put_rows_spec h_a h_b (dk_num_bits d) (seq 0 DEPTH) true (dk_bits d) Hn Hp)
    as (bits' & r & -> & Hl & Hb & Hr1 & Hr2). simpl. eexists _, r. split_and!; [done| | | |done|]; simpl.
  - unfold dk_wf. simpl. by rewrite Hl.
  - intros pos Hpos. rewrite Hb, Hpos. apply orb_true_r.
  - intros row Hrow. rewrite Hb, bool_decide_eq_true_2; [done|]. apply list_elem_of_fmap. exists row.
    split; [done|]. apply elem_of_seq. lia.
  - split.
    + intros Hr row Hrow. destruct (Hr2 Hr) as [_ H]. apply H, elem_of_seq. lia.
    + intros Hall. apply Hr1. intros row Hrow%elem_of_seq. apply Hall. lia.
Qed.

Lemma dk_run_spec keys d :
  dk_wf d → ∃ d', dk_run keys d = Some d' ∧ dk_wf d' ∧ dk_num_bits d' = dk_num_bits d ∧
    ∀ pos, dk_bit (dk_bits d) pos = true → dk_bit (dk_bits d') pos = true.
Proof.
  revert d. induction keys as [|k keys IH]; intros d Hwf; simpl; [by exists d|].
  destruct (dk_put_spec k d Hwf) as (d1 & r & -> & Hwf1 & Hmono & _ & Hnb & _). simpl.
  destruct (IH d1 Hwf1) as (d' & ? & ? & Hnb' & Hmono'). exists d'. split_and!; try done; [congruence|auto].
Qed.

Lemma dk_new_wf capacity : dk_wf (dk_new capacity).
Proof.
  unfold dk_wf, dk_new. cbn [dk_num_bits dk_bits]. rewrite length_replicate.
  set (n := Nat.max (next_power_of_two (capacity * 8)) 64).
  assert (∃ q, n = 64 * q ∧ 1 ≤ q) as (q & Hq & Hq1).
  { unfold n, next_power_of_two. set (e := Nat.log2_up (capacity * 8)).
    destruct (decide (e ≤ 6)).
    - exists 1. assert (2 ^ e ≤ 2 ^ 6) by (apply Nat.pow_le_mono_r; lia). simpl in *. lia.
    - exists (2 ^ (e - 6)). replace e with (6 + (e - 6)) at 1 by lia. rewrite Nat.pow_add_r.
      assert (1 ≤ 2 ^ (e - 6)) by (pose proof (Nat.pow_nonzero 2 (e - 6)); lia).
      change (2 ^ 6) with 64. lia. }
  rewrite Hq, (Nat.mul_comm 64), Nat.div_mul by lia. lia.
Qed.

(** ** Theorems *)

(** The packed counters behave as a two-dimensional table of 4-bit counters:
    inside the table, writing a cell and reading it back gives the value written,
    every other cell keeps its value, no access is out of bounds, and bytes stay
    bytes. *)
Theorem nibble_table_get_set counters row col half_w v :
  counters_ok half_w counters → row < DEPTH → col < 2 * half_w → is_u4 v →
  ∃ counters', nibble_set counters row col half_w v = Some counters' ∧ counters_ok half_w counters' ∧
    ∀ row' col', row' < DEPTH → col' < 2 * half_w →
      nibble_get counters' row' col' half_w =
        if bool_decide (row' = row ∧ col' = col) then Some v else nibble_get counters row' col' half_w.
Proof. apply nibble_set_ok. Qed.

Lemma nibble_table_get_set_witness :
  ∃ counters', nibble_set (replicate 8 0xA5%Z) 1 3 2 7 = Some counters' ∧ counters_ok 2 counters' ∧
    ∀ row' col', row' < DEPTH → col' < 2 * 2 →
      nibble_get counters' row' col' 2 =
        if bool_decide (row' = 1 ∧ col' = 3) then Some 7%Z else nibble_get (replicate 8 0xA5%Z) row' col' 2.
Proof.
  apply (nibble_table_get_set (replicate 8 0xA5%Z) 1 3 2 7).
  - split; [reflexivity|]. apply Forall_replicate. unfold is_u8. lia.
  - unfold DEPTH. lia.
  - lia.
  - unfold is_u4. lia.
Defined.

(** C39: The sketch never underestimates.  For a capacity of at least 2, any sequence
    of [increment] calls on a new sketch runs without panic, and the estimate of
    every key lies between the count of an exact 4-bit counter of that key alone,
    saturating at 15 and halved at the same agings, and 15. *)
Theorem cms_never_underestimates capacity keys k :
  2 ≤ capacity →
  ∃ s e, cms_run keys (cms_new capacity) = Some s ∧ cms_estimate k s = Some e ∧
    (exact_count k (capacity * 10) 0 0 keys ≤ e ≤ 15)%Z.
Proof.
  intros Hc. pose proof (cms_new_wf capacity Hc) as Hwf.
  destruct (cms_run_spec k 0 keys (cms_new capacity) Hwf) as (s & Hrun & Hwf' & Hlow); [|lia|lia|].
  { intros row v Hrow Hv. destruct (cms_cell_ok _ k row Hwf Hrow) as (v' & Hv' & H4).
    unfold is_u4 in H4. assert (v = v') by congruence. lia. }
  destruct DEPTH_rows as [_ Hall].
  destruct (cms_estimate_rows_spec s k (seq 0 DEPTH) (two64 - 1) Hwf' Hall) as (e & He & _ & Hle & Hge).
  exists s, e. split; [done|]. split.
  { unfold cms_estimate. by destruct (double_hash k). }
  destruct (cms_cell_ok s k 0 Hwf') as (v & Hv & Hv4); [unfold DEPTH; lia|].
  assert (e ≤ v)%Z by (apply (Hle 0); [apply elem_of_seq; unfold DEPTH; lia|done]).
  pose proof (Hlow 0 v ltac:(unfold DEPTH; lia) Hv) as Hlv. unfold is_u4 in Hv4.
  split; [|lia]. apply Hge; [unfold two64; cbn [cms_new cms_sample_size cms_additions] in Hlv; lia|].
  intros row v0 Hrow%elem_of_seq Hv0. apply (Hlow row v0); [lia|done].
Qed.

Lemma cms_never_underestimates_witness :
  ∃ s e, cms_run [[x61]; [x62]; [x61]; [x61]] (cms_new 4) = Some s ∧ cms_estimate [x61] s = Some e ∧
    (exact_count [x61] (4 * 10) 0 0 [[x61]; [x62]; [x61]; [x61]] ≤ e ≤ 15)%Z.
Proof. apply (cms_never_underestimates 4 [[x61]; [x62]; [x61]; [x61]] [x61]). lia. Defined.

(** A sketch made for a capacity of 0 or 1 panics at its first [increment] and at
    every [estimate]: it has one byte of counters and the second row starts after
    it. *)
Theorem cms_small_capacity_panics capacity k :
  capacity ≤ 1 → cms_increment k (cms_new capacity) = None ∧ cms_estimate k (cms_new capacity) = None.
Proof.
  intros Hc. assert (cms_counters (cms_new capacity) = [0%Z] ∧ cms_w (cms_new capacity) = 1 ∧
    cms_half_w (cms_new capacity) = 1) as (H1 & H2 & H3)
    by (destruct capacity as [|[|]]; [done|done|lia]).
  assert (∀ a b row, row_col a b row 1 = 0) as Hcol.
  { intros a b row. pose proof (row_col_lt a b row 1). lia. }
  unfold cms_increment, cms_estimate. destruct (double_hash k) as [h_a h_b]. rewrite H1, H2, H3.
  cbn [DEPTH seq cms_increment_rows cms_estimate_rows]. by rewrite !Hcol.
Qed.

Lemma cms_small_capacity_panics_witness :
  cms_increment [x61] (cms_new 1) = None ∧ cms_estimate [x61] (cms_new 1) = None.
Proof. apply (cms_small_capacity_panics 1 [x61]). lia. Defined.

(** The doorkeeper has no false negatives: once a key was put, every later [put]
    of it reports that it was seen, whatever was put in between; no [put] panics. *)
Theorem doorkeeper_no_false_negatives capacity before k between :
  ∃ d1 d2 r d3 d4, dk_run before (dk_new capacity) = Some d1 ∧ dk_put k d1 = Some (d2, r) ∧
    dk_run between d2 = Some d3 ∧ dk_put k d3 = Some (d4, true).
Proof.
  destruct (dk_run_spec before _ (dk_new_wf capacity)) as (d1 & Hd1 & Hwf1 & _ & _).
  destruct (dk_put_spec k d1 Hwf1) as (d2 & r & Hd2 & Hwf2 & _ & Hset & Hnb & _).
  destruct (dk_run_spec between d2 Hwf2) as (d3 & Hd3 & Hwf3 & Hnb3 & Hmono).
  destruct (dk_put_spec k d3 Hwf3) as (d4 & r' & Hd4 & _ & _ & _ & _ & Hr).
  exists d1, d2, r, d3, d4. split_and!; try done. rewrite Hd4. do 2 f_equal. apply Hr.
  intros row Hrow. apply Hmono. rewrite Hnb3, Hnb. by apply Hset.
Qed.
