(* ===== verification/TinyLfu.v ===== *)
(** * [oxistore-cache/src/tinylfu.rs]: the W-TinyLFU cache

    A window segment and a main space split into probation and protected, an index
    from keys to segments, and the frequency sketch that decides admission.  A call
    that would panic is [None]; the theorems show that only a deadline or a capacity
    that does not fit the machine does so, that the index and the segments stay
    coherent, that the segment and total capacities hold after every history with
    resizes, and what a lookup answers in every segment.  The bytes a key feeds to its hasher are a parameter,
    since [K: Hash] is chosen by the client. *)

From S2P Require Import Prelude Bytes Hashlink Cache Sketch.

(** ** Key hashing *)
Record KeyHasher := { kh_state : Z; kh_seed : Z }.

Definition kh_new (seed : Z) : KeyHasher := {| kh_state := Z.lxor FNV_OFFSET seed; kh_seed := seed |}.

Definition kh_write (data : bytes) (h : KeyHasher) : KeyHasher :=
  {| kh_state := fnv1a_64 data (kh_state h); kh_seed := kh_seed h |}.

Definition kh_finish (h : KeyHasher) : Z := Z.lxor (kh_state h) (kh_seed h).

Definition key_bytes {K} (hash_input : K → bytes) (key : K) : bytes :=
  let a := kh_finish (kh_write (hash_input key) (kh_new 0xcbf29ce484222325)) in
  let b := kh_finish (kh_write (hash_input key) (kh_new 0x6c62272e07bb0142)) in
  to_le_bytes 8 a ++ to_le_bytes 8 b.

Definition xorshift64 (x : Z) : Z :=
  let x := Z.lxor x (wrap64 (Z.shiftl x 13)) in
  let x := Z.lxor x (Z.shiftr x 7) in
  Z.lxor x (wrap64 (Z.shiftl x 17)).

Inductive CacheSegment := Window | Probation | Protected.

#[global] Instance CacheSegment_eq_dec : EqDecision CacheSegment.
Proof. solve_decision. Defined.

Section TinyLfuModel.
Context {K V : Type} `{Countable K} {M : Type → Type} `{!LinkedHashMap K M} (hash_input : K → bytes).

Record WTinyLfuCache := {
  tl_total_cap : nat;
  tl_window_cap : nat;
  tl_main_cap : nat;
  tl_protected_cap : nat;
  tl_window : M (CacheEntry V);
  tl_protected : M (CacheEntry V);
  tl_probation : M (CacheEntry V);
  tl_segment_index : gmap K CacheSegment;
  tl_sketch : CountMinSketch;
  tl_doorkeeper : Doorkeeper;
  tl_rng : Z;
}.

(** The cache of [new], for a capacity whose product fits ([tl_create] below). *)
Definition tl_new (total_cap : nat) : WTinyLfuCache :=
  let total_cap := Nat.max total_cap 2 in
  let window_cap := Nat.max (total_cap / 100) 1 in
  let main_cap := total_cap - window_cap in
  {| tl_total_cap := total_cap; tl_window_cap := window_cap; tl_main_cap := main_cap;
     tl_protected_cap := main_cap * 4 / 5;
     tl_window := lhm_new; tl_protected := lhm_new; tl_probation := lhm_new; tl_segment_index := ∅;
     tl_sketch := cms_new total_cap; tl_doorkeeper := dk_new total_cap;
     tl_rng := Z.lxor (Z.of_nat total_cap) 0xdeadbeefcafebabe |}.

(** A segment and its update. *)
Definition tl_seg (seg : CacheSegment) (c : WTinyLfuCache) : M (CacheEntry V) :=
  match seg with Window => tl_window c | Probation => tl_probation c | Protected => tl_protected c end.

Definition tl_set_seg (seg : CacheSegment) (m : M (CacheEntry V)) (c : WTinyLfuCache) : WTinyLfuCache :=
  {| tl_total_cap := tl_total_cap c; tl_window_cap := tl_window_cap c; tl_main_cap := tl_main_cap c;
     tl_protected_cap := tl_protected_cap c;
     tl_window := if seg is Window then m else tl_window c;
     tl_protected := if seg is Protected then m else tl_protected c;
     tl_probation := if seg is Probation then m else tl_probation c;
     tl_segment_index := tl_segment_index c; tl_sketch := tl_sketch c; tl_doorkeeper := tl_doorkeeper c;
     tl_rng := tl_rng c |}.

Definition tl_set_index (idx : gmap K CacheSegment) (c : WTinyLfuCache) : WTinyLfuCache :=
  {| tl_total_cap := tl_total_cap c; tl_window_cap := tl_window_cap c; tl_main_cap := tl_main_cap c;
     tl_protected_cap := tl_protected_cap c; tl_window := tl_window c; tl_protected := tl_protected c;
     tl_probation := tl_probation c; tl_segment_index := idx; tl_sketch := tl_sketch c;
     tl_doorkeeper := tl_doorkeeper c; tl_rng := tl_rng c |}.

Definition tl_set_sketch (s : CountMinSketch) (d : Doorkeeper) (rng : Z) (c : WTinyLfuCache) : WTinyLfuCache :=
  {| tl_total_cap := tl_total_cap c; tl_window_cap := tl_window_cap c; tl_main_cap := tl_main_cap c;
     tl_protected_cap := tl_protected_cap c; tl_window := tl_window c; tl_protected := tl_protected c;
     tl_probation := tl_probation c; tl_segment_index := tl_segment_index c; tl_sketch := s;
     tl_doorkeeper := d; tl_rng := rng |}.

Definition tl_record_access (key : K) (c : WTinyLfuCache) : option WTinyLfuCache :=
  let kb := key_bytes hash_input key in
  '(d, seen_before) ← dk_put kb (tl_doorkeeper c);
  s ← (if seen_before : bool then cms_increment kb (tl_sketch c) else Some (tl_sketch c));
  Some (tl_set_sketch s d (tl_rng c) c).

Definition tl_freq (key : K) (c : WTinyLfuCache) : option Z := cms_estimate (key_bytes hash_input key) (tl_sketch c).

Definition tl_remove_if_expired (now : Z) (key : K) (c : WTinyLfuCache) : WTinyLfuCache * bool :=
  match tl_segment_index c !! key with
  | None => (c, false)
  | Some seg =>
      if opt_expired now (lhm_get key (tl_seg seg c)) then
        (tl_set_seg seg (lhm_remove key (tl_seg seg c)).1
           (tl_set_index (delete key (tl_segment_index c)) c), true)
      else (c, false)
  end.

(** [promote_in_window] and [promote_in_protected] *)
Definition tl_promote_in (seg : CacheSegment) (key : K) (c : WTinyLfuCache) : WTinyLfuCache :=
  match lhm_remove key (tl_seg seg c) with
  | (m, Some entry) => tl_set_seg seg (lhm_insert key entry m).1 c
  | (m, None) => tl_set_seg seg m c
  end.

(** The demotion of the least recently used protected entry. *)
Definition tl_demote_if_over_cap (c : WTinyLfuCache) : WTinyLfuCache :=
  if bool_decide (tl_protected_cap c < lhm_len (tl_protected c)) then
    match lhm_pop_front (tl_protected c) with
    | (m, Some (demoted_key, demoted_entry)) =>
        let c := tl_set_seg Protected m c in
        let c := tl_set_index (<[demoted_key:=Probation]> (tl_segment_index c)) c in
        tl_set_seg Probation (lhm_insert demoted_key demoted_entry (tl_probation c)).1 c
    | (m, None) => tl_set_seg Protected m c
    end
  else c.

Definition tl_promote_probation_to_protected (key : K) (c : WTinyLfuCache) : WTinyLfuCache :=
  match lhm_remove key (tl_probation c) with
  | (m, Some entry) =>
      let c := tl_set_seg Probation m c in
      let c := tl_set_index (<[key:=Protected]> (tl_segment_index c)) c in
      let c := tl_set_seg Protected (lhm_insert key entry (tl_protected c)).1 c in
      tl_demote_if_over_cap c
  | (m, None) => tl_set_seg Probation m c
  end.

Definition tl_evict_from_window_if_over_cap (c : WTinyLfuCache) : WTinyLfuCache * option (K * CacheEntry V) :=
  if bool_decide (tl_window_cap c < lhm_len (tl_window c)) then
    match lhm_pop_front (tl_window c) with
    | (m, Some (k, entry)) =>
        (tl_set_index (delete k (tl_segment_index c)) (tl_set_seg Window m c), Some (k, entry))
    | (m, None) => (tl_set_seg Window m c, None)
    end
  else (c, None).

(** [segment_index.insert(key, Probation); probation.insert(key, entry)] *)
Definition tl_admit (key : K) (entry : CacheEntry V) (c : WTinyLfuCache) : WTinyLfuCache :=
  let c := tl_set_index (<[key:=Probation]> (tl_segment_index c)) c in
  tl_set_seg Probation (lhm_insert key entry (tl_probation c)).1 c.

Definition tl_run_admission_gate (candidate_key : K) (candidate_entry : CacheEntry V) (c : WTinyLfuCache)
    : option WTinyLfuCache :=
  let main_size := lhm_len (tl_probation c) + lhm_len (tl_protected c) in
  if bool_decide (main_size < tl_main_cap c) then Some (tl_admit candidate_key candidate_entry c)
  else
    match lhm_front (tl_probation c) with
    | None => Some c
    | Some (victim_key, _) =>
        candidate_freq ← tl_freq candidate_key c;
        victim_freq ← tl_freq victim_key c;
        let '(c, accept) :=
          if (victim_freq <? candidate_freq)%Z then (c, true)
          else if (candidate_freq =? victim_freq)%Z then
            let rng := xorshift64 (tl_rng c) in
            (tl_set_sketch (tl_sketch c) (tl_doorkeeper c) rng c, (Z.land rng 0xFF <? 128)%Z)
          else (c, false) in
        Some (if accept : bool then
                let c := tl_set_seg Probation (lhm_pop_front (tl_probation c)).1 c in
                let c := tl_set_index (delete victim_key (tl_segment_index c)) c in
                tl_admit candidate_key candidate_entry c
              else c)
    end.

Definition tl_insert_entry (key : K) (entry : CacheEntry V) (c : WTinyLfuCache)
    : option (WTinyLfuCache * option V) :=
  match tl_segment_index c !! key with
  | Some seg =>
      c ← tl_record_access key c;
      let c := tl_set_seg seg (lhm_get_mut key (λ _, entry) (tl_seg seg c)) c in
      Some (match seg with
            | Window => tl_promote_in Window key c
            | Probation => tl_promote_probation_to_protected key c
            | Protected => tl_promote_in Protected key c
            end, None)
  | None =>
      c ← tl_record_access key c;
      let c := tl_set_index (<[key:=Window]> (tl_segment_index c)) c in
      let c := tl_set_seg Window (lhm_insert key entry (tl_window c)).1 c in
      if bool_decide (tl_window_cap c < lhm_len (tl_window c)) then
        match tl_evict_from_window_if_over_cap c with
        | (c, Some (candidate_key, candidate_entry)) =>
            c ← tl_run_admission_gate candidate_key candidate_entry c; Some (c, None)
        | (c, None) => Some (c, None)
        end
      else Some (c, None)
  end.

Definition tl_get (now : Z) (key : K) (c : WTinyLfuCache) : option (WTinyLfuCache * option V) :=
  let '(c, expired) := tl_remove_if_expired now key c in
  if expired : bool then Some (c, None)
  else
    match tl_segment_index c !! key with
    | None => Some (c, None)
    | Some seg =>
        c ← tl_record_access key c;
        Some (match seg with
              | Window => let c := tl_promote_in Window key c in (c, value <$> lhm_get key (tl_window c))
              | Probation =>
                  let c := tl_promote_probation_to_protected key c in (c, value <$> lhm_get key (tl_protected c))
              | Protected =>
                  let c := tl_promote_in Protected key c in (c, value <$> lhm_get key (tl_protected c))
              end)
    end.

Definition tl_put (key : K) (v : V) (c : WTinyLfuCache) := tl_insert_entry key (entry_new v) c.
Definition tl_put_with_ttl (now : Z) (key : K) (v : V) (ttl : Z) (c : WTinyLfuCache) :=
  entry ← with_ttl now v ttl; tl_insert_entry key entry c.

Definition tl_len (c : WTinyLfuCache) : nat :=
  lhm_len (tl_window c) + lhm_len (tl_protected c) + lhm_len (tl_probation c).

Definition tl_peek (now : Z) (key : K) (c : WTinyLfuCache) : option V :=
  seg ← tl_segment_index c !! key; live_value now (lhm_get key (tl_seg seg c)).

Definition tl_contains_key (now : Z) (key : K) (c : WTinyLfuCache) : bool :=
  match tl_segment_index c !! key with
  | None => false
  | Some seg => opt_live now (lhm_get key (tl_seg seg c))
  end.

Definition tl_remove (key : K) (c : WTinyLfuCache) : WTinyLfuCache * option V :=
  match tl_segment_index c !! key with
  | None => (c, None)
  | Some seg =>
      let c := tl_set_index (delete key (tl_segment_index c)) c in
      let '(m, o) := lhm_remove key (tl_seg seg c) in (tl_set_seg seg m c, value <$> o)
  end.

Definition tl_clear (c : WTinyLfuCache) : WTinyLfuCache :=
  {| tl_total_cap := tl_total_cap c; tl_window_cap := tl_window_cap c; tl_main_cap := tl_main_cap c;
     tl_protected_cap := tl_protected_cap c; tl_window := lhm_clear (tl_window c);
     tl_protected := lhm_clear (tl_protected c); tl_probation := lhm_clear (tl_probation c);
     tl_segment_index := ∅; tl_sketch := cms_clear (tl_sketch c); tl_doorkeeper := dk_clear (tl_doorkeeper c);
     tl_rng := tl_rng c |}.

(** [if let Some((k, _)) = segment.pop_front() { segment_index.remove(&k); }] *)
Definition tl_drop_front (seg : CacheSegment) (c : WTinyLfuCache) : WTinyLfuCache :=
  match lhm_pop_front (tl_seg seg c) with
  | (m, Some (k, _)) => tl_set_index (delete k (tl_segment_index c)) (tl_set_seg seg m c)
  | (m, None) => tl_set_seg seg m c
  end.

(** The three loops of [resize], each [while over(self) { drop_front(seg) }]. *)
Fixpoint tl_shrink (fuel : nat) (seg : CacheSegment) (over : WTinyLfuCache → bool) (c : WTinyLfuCache)
    : option WTinyLfuCache :=
  if over c then
    match fuel with 0 => None | S fuel => tl_shrink fuel seg over (tl_drop_front seg c) end
  else Some c.

Definition tl_main_of (new_cap : nat) : nat := let new_cap := Nat.max new_cap 2 in new_cap - Nat.max (new_cap / 100) 1.

(** [main_cap * 4] is an [usize]. *)
Definition tl_cap_fits (new_cap : nat) : bool := (Z.of_nat (tl_main_of new_cap) * 4 <? two64)%Z.

(** The body for a capacity whose product fits. *)
Definition tl_resize_to (fuel new_cap : nat) (c : WTinyLfuCache) : option WTinyLfuCache :=
  let new_cap := Nat.max new_cap 2 in
  let window_cap := Nat.max (new_cap / 100) 1 in
  let main_cap := new_cap - window_cap in
  let c := {| tl_total_cap := new_cap; tl_window_cap := window_cap; tl_main_cap := main_cap;
              tl_protected_cap := main_cap * 4 / 5; tl_window := tl_window c; tl_protected := tl_protected c;
              tl_probation := tl_probation c; tl_segment_index := tl_segment_index c;
              tl_sketch := tl_sketch c; tl_doorkeeper := tl_doorkeeper c; tl_rng := tl_rng c |} in
  c ← tl_shrink fuel Window (λ c, bool_decide (tl_window_cap c < lhm_len (tl_window c))) c;
  c ← tl_shrink fuel Protected (λ c, bool_decide (tl_protected_cap c < lhm_len (tl_protected c))) c;
  tl_shrink fuel Probation
    (λ c, bool_decide (tl_main_cap c < lhm_len (tl_probation c) + lhm_len (tl_protected c))) c.

(** [new], with the panic of the same product. *)
Definition tl_create (total_cap : nat) : option WTinyLfuCache := if tl_cap_fits total_cap then Some (tl_new total_cap) else None.

(** [resize]: the product is computed before the loops, and overflows with a panic (in a
    build with overflow checks; others wrap around). *)
Definition tl_resize (fuel new_cap : nat) (c : WTinyLfuCache) : option WTinyLfuCache :=
  if tl_cap_fits new_cap then tl_resize_to fuel new_cap c else None.

(** The instance of the trait, for calls whose deadline fits an [Instant]; others panic.  On
    a cache made by [new] there is no other panic. *)
#[global] Instance tl_cache : Cache K V WTinyLfuCache := {|
  cache_get now k c := default (c, None) (tl_get now k c);
  cache_put k v c := default (c, None) (tl_put k v c);
  cache_put_with_ttl now k v ttl c := default (c, None) (tl_insert_entry k (entry_with_ttl now v ttl) c);
  cache_len := tl_len;
  cache_cap := tl_total_cap;
  cache_remove := tl_remove;
  cache_clear := tl_clear;
  cache_peek := tl_peek;
  cache_contains_key := tl_contains_key;
|}.

(** Histories of calls; [None] is a panic. *)
Inductive TlOp :=
| TlGet (now : Z) (k : K)
| TlPut (k : K) (v : V)
| TlPutTtl (now : Z) (k : K) (v : V) (ttl : Z)
| TlRemove (k : K)
| TlClear
| TlResize (n : nat).

Definition tl_step (op : TlOp) (c : WTinyLfuCache) : option WTinyLfuCache :=
  match op with
  | TlGet now k => fst <$> tl_get now k c
  | TlPut k v => fst <$> tl_put k v c
  | TlPutTtl now k v ttl => fst <$> tl_put_with_ttl now k v ttl c
  | TlRemove k => Some (tl_remove k c).1
  | TlClear => Some (tl_clear c)
  | TlResize n => tl_resize (tl_len c) n c
  end.

(** The calls whose arithmetic fits the machine. *)
Definition tl_op_fits (op : TlOp) : bool :=
  match op with
  | TlPutTtl now _ _ ttl => deadline_fits now ttl
  | TlResize n => tl_cap_fits n
  | _ => true
  end.

Fixpoint tl_run (ops : list TlOp) (c : WTinyLfuCache) : option WTinyLfuCache :=
  match ops with
  | [] => Some c
  | op :: ops => c ← tl_step op c; tl_run ops c
  end.
End TinyLfuModel.
Arguments WTinyLfuCache K V {_ _} M.
Arguments TlOp : clear implicits.

Section TinyLfuTheory.
Context {K V : Type} `{Countable K} {M : Type → Type} `{!LinkedHashMap K M, !LinkedHashMapLaws K M}.
Context (hash_input : K → bytes).
Abbreviation tl := (WTinyLfuCache K V M).
Implicit Types c : tl.

Definition tl_list (seg : CacheSegment) (c : tl) : list (K * CacheEntry V) := lhm_iter (tl_seg seg c).

(** The index names the segment of every resident key. *)
Definition tl_coherent (c : tl) : Prop :=
  ∀ k seg, tl_segment_index c !! k = Some seg ↔ k ∈ (tl_list seg c).*1.

Definition tl_find (k : K) (c : tl) : option (CacheEntry V) :=
  seg ← tl_segment_index c !! k; assoc k (tl_list seg c).

Record tl_inv (c : tl) : Prop := {
  tl_co : tl_coherent c;
  tl_window_le : length (tl_list Window c) ≤ tl_window_cap c;
  tl_protected_le : length (tl_list Protected c) ≤ tl_protected_cap c;
  tl_main_le : length (tl_list Probation c) + length (tl_list Protected c) ≤ tl_main_cap c;
  tl_window_pos : 1 ≤ tl_window_cap c;
  tl_total : tl_window_cap c + tl_main_cap c = tl_total_cap c;
  tl_prot_main : tl_protected_cap c ≤ tl_main_cap c;
  tl_sketch_wf : cms_wf (tl_sketch c);
  tl_dk_wf : dk_wf (tl_doorkeeper c);
}.

Lemma tl_list_set seg m c seg' :
  tl_list seg' (tl_set_seg seg m c) = if decide (seg' = seg) then lhm_iter m else tl_list seg' c.
Proof. unfold tl_list. by destruct seg, seg'. Qed.

Lemma tl_list_index seg idx c : tl_list seg (tl_set_index idx c) = tl_list seg c.
Proof. by destruct seg. Qed.

Lemma tl_list_NoDup seg c : NoDup (tl_list seg c).*1.
Proof. apply lhm_iter_NoDup. Qed.

Lemma tl_find_None k c : tl_segment_index c !! k = None → tl_find k c = None.
Proof. unfold tl_find. by intros ->. Qed.

Lemma tl_find_Some k c seg : tl_segment_index c !! k = Some seg → tl_find k c = assoc k (tl_list seg c).
Proof. unfold tl_find. by intros ->. Qed.

Lemma tl_peek_find t k c : tl_peek t k c = live_value t (tl_find k c).
Proof.
  unfold tl_peek, tl_find, tl_list. destruct (tl_segment_index c !! k) as [seg|]; [|done]. simpl.
  by rewrite lhm_get_iter.
Qed.

Lemma tl_resident k c seg : tl_coherent c → tl_segment_index c !! k = Some seg →
  ∃ e, assoc k (tl_list seg c) = Some e.
Proof. intros Hco Hk. by apply Hco, assoc_is_Some in Hk as [e ?]; eauto. Qed.

(** *** The three moves: taking a key out, adding one, updating one in place *)
Definition tl_take (k : K) (seg : CacheSegment) (m : M (CacheEntry V)) (c : tl) : tl :=
  tl_set_index (delete k (tl_segment_index c)) (tl_set_seg seg m c).
Definition tl_add (k : K) (seg : CacheSegment) (m : M (CacheEntry V)) (c : tl) : tl :=
  tl_set_index (<[k:=seg]> (tl_segment_index c)) (tl_set_seg seg m c).

Lemma tl_take_spec k seg m c :
  tl_coherent c → tl_segment_index c !! k = Some seg → lhm_iter m = assoc_remove k (tl_list seg c) →
  let c' := tl_take k seg m c in
  tl_coherent c' ∧ tl_segment_index c' !! k = None ∧
  S (length (tl_list seg c')) = length (tl_list seg c) ∧
  (∀ seg', seg' ≠ seg → tl_list seg' c' = tl_list seg' c) ∧
  ∀ k', tl_find k' c' = if decide (k' = k) then None else tl_find k' c.
Proof.
  intros Hco Hk Hm c'. assert (∀ seg', tl_list seg' c' = if decide (seg' = seg) then assoc_remove k (tl_list seg c)
    else tl_list seg' c) as Hl.
  { intros seg'. unfold c', tl_take. rewrite tl_list_index, tl_list_set. by rewrite Hm. }
  split_and!.
  - intros k' seg'. unfold c' at 1. simpl. rewrite lookup_delete_Some, (Hco k' seg'), Hl.
    case_decide as Hs; [subst; rewrite assoc_remove_keys; naive_solver|].
    split; [tauto|]. intros Hin. split; [|done]. intros <-. apply Hco in Hin. congruence.
  - apply lookup_delete_eq.
  - rewrite Hl, decide_True, assoc_remove_length by (done || apply tl_list_NoDup).
    destruct (tl_resident k c seg Hco Hk) as [e He]. rewrite He.
    destruct (tl_list seg c); simpl in *; [done|lia].
  - intros seg' Hne. by rewrite Hl, decide_False.
  - intros k'. unfold tl_find. unfold c' at 1. simpl. case_decide as Hkk.
    + subst. by rewrite lookup_delete_eq.
    + rewrite lookup_delete_ne by done. destruct (tl_segment_index c !! k') as [seg'|]; [|done]. simpl.
      rewrite Hl. case_decide; [subst; by rewrite assoc_remove_ne|done].
Qed.

Lemma tl_add_spec k seg e m c :
  tl_coherent c → tl_segment_index c !! k = None → lhm_iter m = assoc_push k e (tl_list seg c) →
  let c' := tl_add k seg m c in
  tl_coherent c' ∧ tl_segment_index c' !! k = Some seg ∧
  length (tl_list seg c') = S (length (tl_list seg c)) ∧
  (∀ seg', seg' ≠ seg → tl_list seg' c' = tl_list seg' c) ∧
  ∀ k', tl_find k' c' = if decide (k' = k) then Some e else tl_find k' c.
Proof.
  intros Hco Hk Hm c'. assert (∀ seg', tl_list seg' c' = if decide (seg' = seg) then assoc_push k e (tl_list seg c)
    else tl_list seg' c) as Hl.
  { intros seg'. unfold c', tl_add. rewrite tl_list_index, tl_list_set. by rewrite Hm. }
  assert (∀ seg', k ∉ (tl_list seg' c).*1) as Hfresh by (intros seg' Hin%Hco; congruence).
  split_and!.
  - intros k' seg'. unfold c' at 1. simpl. rewrite lookup_insert_Some, (Hco k' seg'), Hl.
    pose proof (Hfresh seg'). case_decide as Hs; [subst; rewrite assoc_push_keys; naive_solver|].
    split; [naive_solver|]. intros Hin. right. split; [|done]. intros <-. done.
  - apply lookup_insert_eq.
  - rewrite Hl, decide_True, assoc_push_length by (done || apply tl_list_NoDup).
    rewrite (proj2 (assoc_None k _)) by done. lia.
  - intros seg' Hne. by rewrite Hl, decide_False.
  - intros k'. unfold tl_find. unfold c' at 1. simpl. case_decide as Hkk.
    + subst. rewrite lookup_insert_eq. simpl. rewrite Hl, decide_True by done. apply assoc_push_eq.
    + rewrite lookup_insert_ne by done. destruct (tl_segment_index c !! k') as [seg'|]; [|done]. simpl.
      rewrite Hl. case_decide; [subst; by rewrite assoc_push_ne|done].
Qed.

(** Rewriting an entry in place and moving it to the back. *)
Lemma tl_touch_spec k seg e m c :
  tl_coherent c → tl_segment_index c !! k = Some seg →
  (∀ k', k' ∈ (lhm_iter m).*1 ↔ k' ∈ (tl_list seg c).*1) → length (lhm_iter m) = length (tl_list seg c) →
  (∀ k', assoc k' (lhm_iter m) = if decide (k' = k) then Some e else assoc k' (tl_list seg c)) →
  let c' := tl_set_seg seg m c in
  tl_coherent c' ∧ (∀ seg', length (tl_list seg' c') = length (tl_list seg' c)) ∧
  ∀ k', tl_find k' c' = if decide (k' = k) then Some e else tl_find k' c.
Proof.
  intros Hco Hk Hkeys Hlen Hassoc c'. unfold c'. split_and!.
  - intros k' seg'. rewrite tl_list_set. simpl. rewrite (Hco k' seg'). case_decide; [subst; by rewrite Hkeys|done].
  - intros seg'. rewrite tl_list_set. case_decide; [by subst|done].
  - intros k'. unfold tl_find. simpl. destruct (decide (k' = k)) as [->|Hne].
    + rewrite Hk. simpl. rewrite tl_list_set, decide_True by done. rewrite Hassoc. by rewrite decide_True.
    + destruct (tl_segment_index c !! k') as [seg'|]; [|done]. simpl. rewrite tl_list_set.
      case_decide; [|done]. subst. rewrite Hassoc. by rewrite decide_False.
Qed.

Lemma assoc_push_touch k e (l : list (K * CacheEntry V)) :
  NoDup l.*1 → k ∈ l.*1 →
  (∀ k', k' ∈ (assoc_push k e (assoc_remove k l)).*1 ↔ k' ∈ l.*1) ∧
  length (assoc_push k e (assoc_remove k l)) = length l ∧
  ∀ k', assoc k' (assoc_push k e (assoc_remove k l)) = if decide (k' = k) then Some e else assoc k' l.
Proof.
  intros Hnd Hk. split_and!.
  - intros k'. rewrite assoc_push_keys, assoc_remove_keys. destruct (decide (k' = k)); naive_solver.
  - rewrite assoc_push_length, assoc_remove_eq, assoc_remove_length by (try apply assoc_remove_NoDup; done).
    apply assoc_is_Some in Hk as [e0 He0]. rewrite He0. destruct l; simpl in *; [done|lia].
  - intros k'. case_decide; [subst; apply assoc_push_eq|]. rewrite assoc_push_ne by done. by rewrite assoc_remove_ne.
Qed.

Lemma tl_promote_in_spec k seg e c :
  tl_coherent c → tl_segment_index c !! k = Some seg → tl_find k c = Some e →
  let c' := tl_promote_in seg k c in
  c' = tl_set_seg seg (tl_seg seg c') c ∧
  tl_coherent c' ∧ (∀ seg', length (tl_list seg' c') = length (tl_list seg' c)) ∧
  (∀ k', tl_find k' c' = tl_find k' c) ∧ tl_segment_index c' = tl_segment_index c.
Proof.
  intros Hco Hk Hf. rewrite (tl_find_Some _ _ _ Hk) in Hf. unfold tl_promote_in.
  pose proof (lhm_remove_old k (tl_seg seg c)) as Ho. pose proof (lhm_remove_iter k (tl_seg seg c)) as Hi.
  fold (tl_list seg c) in Ho, Hi. rewrite Hf in Ho. destruct (lhm_remove k (tl_seg seg c)) as [m o].
  simpl in *. subst o. destruct (assoc_push_touch k e (tl_list seg c)) as (H1 & H2 & H3).
  { apply tl_list_NoDup. } { by apply Hco. }
  destruct (tl_touch_spec k seg e (lhm_insert k e m).1 c Hco Hk) as (Hco' & Hl' & Hf').
  { intros k'. rewrite lhm_insert_iter, Hi. apply H1. }
  { rewrite lhm_insert_iter, Hi. done. }
  { intros k'. rewrite lhm_insert_iter, Hi. apply H3. }
  split_and!; [by destruct seg|done|done| |done].
  intros k'. rewrite Hf'. case_decide; [|done]. subst. by rewrite (tl_find_Some _ _ _ Hk).
Qed.

(** Everything but the segments and the index. *)
Definition tl_static (c c' : tl) : Prop :=
  tl_total_cap c' = tl_total_cap c ∧ tl_window_cap c' = tl_window_cap c ∧ tl_main_cap c' = tl_main_cap c ∧
  tl_protected_cap c' = tl_protected_cap c ∧ tl_sketch c' = tl_sketch c ∧ tl_doorkeeper c' = tl_doorkeeper c.

Lemma tl_static_refl c : tl_static c c.
Proof. done. Qed.
Lemma tl_static_trans c1 c2 c3 : tl_static c1 c2 → tl_static c2 c3 → tl_static c1 c3.
Proof. intros (?&?&?&?&?&?) (?&?&?&?&?&?). unfold tl_static. split_and!; congruence. Qed.

Abbreviation seg_len seg c := (length (tl_list seg c)).

(** The front of a segment. *)
Lemma tl_pop_front_list seg c k e l :
  tl_list seg c = (k, e) :: l →
  (lhm_pop_front (tl_seg seg c)).2 = Some (k, e) ∧
  lhm_iter (lhm_pop_front (tl_seg seg c)).1 = assoc_remove k (tl_list seg c) ∧
  assoc k (tl_list seg c) = Some e ∧ assoc_remove k (tl_list seg c) = l.
Proof.
  intros Hl. pose proof (tl_list_NoDup seg c) as Hnd. rewrite lhm_pop_front_old, lhm_pop_front_iter.
  fold (tl_list seg c). rewrite Hl in *. csimpl in *. apply NoDup_cons in Hnd as [Hn _].
  rewrite !decide_True by done. rewrite !assoc_remove_id by done. by split_and!.
Qed.

(** Moving a key from one segment to another. *)
Lemma tl_move_spec k e seg1 seg2 m1 m2 c :
  seg1 ≠ seg2 → tl_coherent c → tl_segment_index c !! k = Some seg1 → tl_find k c = Some e →
  lhm_iter m1 = assoc_remove k (tl_list seg1 c) → lhm_iter m2 = assoc_push k e (tl_list seg2 c) →
  let c' := tl_set_seg seg2 m2 (tl_set_index (<[k:=seg2]> (tl_segment_index c)) (tl_set_seg seg1 m1 c)) in
  tl_static c c' ∧ tl_coherent c' ∧ tl_segment_index c' = <[k:=seg2]> (tl_segment_index c) ∧
  S (seg_len seg1 c') = seg_len seg1 c ∧ tl_list seg2 c' = tl_list seg2 c ++ [(k, e)] ∧
  (∀ seg, seg ≠ seg1 → seg ≠ seg2 → tl_list seg c' = tl_list seg c) ∧ ∀ k', tl_find k' c' = tl_find k' c.
Proof.
  intros Hne Hco Hk Hf Hm1 Hm2 c'.
  destruct (tl_take_spec k seg1 m1 c Hco Hk Hm1) as (Hco1 & Hi1 & Hl1 & Hother1 & Hf1).
  set (c1 := tl_take k seg1 m1 c) in *. assert (tl_list seg2 c1 = tl_list seg2 c) as Hl2 by (apply Hother1; auto).
  destruct (tl_add_spec k seg2 e m2 c1 Hco1 Hi1) as (Hco2 & Hi2 & Hll2 & Hother2 & Hf2); [by rewrite Hl2|].
  assert (tl_add k seg2 m2 c1 = c') as Hc'.
  { unfold tl_add, c1, tl_take, c', tl_set_index, tl_set_seg. simpl. by rewrite insert_delete_eq. }
  rewrite Hc' in *. split_and!; [done|done|done| | | |].
  - by rewrite Hother2.
  - unfold c'. rewrite tl_list_set, decide_True, Hm2 by done. unfold assoc_push. rewrite assoc_remove_id; [done|].
    intros Hin%Hco. congruence.
  - intros seg ? ?. by rewrite Hother2, Hother1.
  - intros k'. rewrite Hf2, Hf1. case_decide; [by subst|done].
Qed.

Lemma tl_demote_eq c k e l :
  tl_list Protected c = (k, e) :: l →
  tl_demote_if_over_cap c =
    if bool_decide (tl_protected_cap c < seg_len Protected c) then
      tl_set_seg Probation (lhm_insert k e (tl_probation c)).1
        (tl_set_index (<[k:=Probation]> (tl_segment_index c))
           (tl_set_seg Protected (lhm_pop_front (tl_seg Protected c)).1 c))
    else c.
Proof.
  intros El. unfold tl_demote_if_over_cap. rewrite lhm_len_iter.
  change (lhm_iter (tl_protected c)) with (tl_list Protected c). case_bool_decide; [|done].
  destruct (tl_pop_front_list Protected c k e l El) as (Ho & _). simpl in *.
  destruct (lhm_pop_front (tl_protected c)) as [m o]. simpl in *. by subst.
Qed.

Lemma tl_demote_spec c :
  tl_coherent c →
  let c' := tl_demote_if_over_cap c in
  tl_static c c' ∧ tl_coherent c' ∧ (∀ k', tl_find k' c' = tl_find k' c) ∧
  tl_list Window c' = tl_list Window c ∧
  seg_len Probation c' + seg_len Protected c' = seg_len Probation c + seg_len Protected c ∧
  tl_list Protected c' = (if bool_decide (tl_protected_cap c < seg_len Protected c)
                          then tail (tl_list Protected c) else tl_list Protected c).
Proof.
  intros Hco. destruct (tl_list Protected c) as [|[k e] l] eqn:El.
  { unfold tl_demote_if_over_cap. rewrite lhm_len_iter.
    change (lhm_iter (tl_protected c)) with (tl_list Protected c). rewrite El.
    rewrite !bool_decide_eq_false_2 by (simpl; lia). cbv zeta.
    split_and!; try done. by rewrite El. }
  rewrite (tl_demote_eq c k e l El), El. case_bool_decide; [|cbv zeta; split_and!; try done; by rewrite El].
  destruct (tl_pop_front_list Protected c k e l El) as (Ho & Hi & Ha & Hrem).
  assert (tl_segment_index c !! k = Some Protected) as Hk by (apply Hco; rewrite El; csimpl; set_solver).
  destruct (tl_move_spec k e Protected Probation (lhm_pop_front (tl_seg Protected c)).1
    (lhm_insert k e (tl_probation c)).1 c) as (Hst & Hco' & _ & Hl1 & Hl2 & Hother & Hf'); try done.
  { by rewrite (tl_find_Some _ _ _ Hk). }
  { by rewrite lhm_insert_iter. }
  set (c' := tl_set_seg Probation _ _) in *. cbv zeta. split_and!; try done.
  - rewrite Hl2, length_app. rewrite El in Hl1. simpl in *. lia.
  - unfold c'. rewrite tl_list_set, decide_False, tl_list_index, tl_list_set, decide_True by done.
    by rewrite Hi, Hrem.
Qed.

Lemma tl_promote_probation_spec k e c :
  tl_inv c → tl_segment_index c !! k = Some Probation → tl_find k c = Some e →
  let c' := tl_promote_probation_to_protected k c in
  tl_inv c' ∧ tl_static c c' ∧ (∀ k', tl_find k' c' = tl_find k' c) ∧
  assoc k (tl_list Protected c') = (if bool_decide (tl_protected_cap c = 0) then None else Some e).
Proof.
  intros Hinv Hk Hf. pose proof Hinv as [Hco Hw Hp Hm Hpos Htot Hpm Hsk Hdk].
  unfold tl_promote_probation_to_protected. pose proof Hf as Hf0. rewrite (tl_find_Some _ _ _ Hk) in Hf0.
  pose proof (lhm_remove_old k (tl_probation c)) as Ho. pose proof (lhm_remove_iter k (tl_probation c)) as Hi.
  change (lhm_iter (tl_probation c)) with (tl_list Probation c) in Ho, Hi. rewrite Hf0 in Ho.
  destruct (lhm_remove k (tl_probation c)) as [m o]. simpl in Ho, Hi. subst o.
  destruct (tl_move_spec k e Probation Protected m (lhm_insert k e (tl_protected c)).1 c)
    as (Hst & Hco1 & _ & Hl1 & Hl2 & Hother & Hf1); try done.
  { by rewrite lhm_insert_iter. }
  set (c1 := tl_set_seg Protected _ _) in *.
  change (tl_set_seg Protected _ _) with c1.
  destruct (tl_demote_spec c1 Hco1) as (Hst2 & Hco2 & Hf2 & Hw2 & Hsum & Hl). simpl.
  assert (k ∉ (tl_list Protected c).*1) as Hfresh by (intros Hin%Hco; congruence).
  pose proof Hst as (E1 & E2 & E3 & E4 & E5 & E6). pose proof Hst2 as (F1 & F2 & F3 & F4 & F5 & F6).
  pose proof Hl2 as Hl2'. apply (f_equal length) in Hl2'. rewrite length_app in Hl2'. simpl in Hl2'.
  split_and!.
  - split.
    + done.
    + rewrite Hw2, F2, E2, Hother by done. done.
    + rewrite Hl, F4. case_bool_decide; [|lia]. rewrite Hl2, E4. destruct (tl_list Protected c); simpl in *; [lia|].
      rewrite length_app. simpl. lia.
    + rewrite Hsum, F3, E3. lia.
    + by rewrite F2, E2.
    + by rewrite F1, F2, F3, E1, E2, E3.
    + by rewrite F3, F4, E3, E4.
    + by rewrite F5, E5.
    + by rewrite F6, E6.
  - by eapply tl_static_trans.
  - intros k'. by rewrite Hf2, Hf1.
  - rewrite Hl. clear Hl. rewrite Hl2', E4, Hl2. apply assoc_None in Hfresh.
    destruct (tl_list Protected c) as [|[k1 e1] l] eqn:El; simpl in *.
    + repeat case_bool_decide; try lia; simpl; [done|by rewrite decide_True].
    + rewrite (bool_decide_eq_false_2 (tl_protected_cap c = 0)) by lia.
      case_decide; [done|]. repeat case_bool_decide; simpl; rewrite ?decide_False, assoc_app, Hfresh by done; simpl;
        by rewrite decide_True.
Qed.

(** *** Recording an access never panics *)
Lemma tl_record_access_spec k c :
  tl_inv c → ∃ c', tl_record_access hash_input k c = Some c' ∧ tl_inv c' ∧
    (∀ k', tl_find k' c' = tl_find k' c) ∧ tl_segment_index c' = tl_segment_index c ∧
    (∀ seg, tl_seg seg c' = tl_seg seg c) ∧
    tl_window_cap c' = tl_window_cap c ∧ tl_protected_cap c' = tl_protected_cap c ∧
    tl_main_cap c' = tl_main_cap c ∧ tl_total_cap c' = tl_total_cap c.
Proof.
  intros Hinv. pose proof Hinv as [Hco Hw Hp Hm Hpos Htot Hpm Hsk Hdk]. unfold tl_record_access.
  destruct (dk_put_spec (key_bytes hash_input k) _ Hdk) as (d & r & -> & Hdk' & _). simpl.
  assert (∃ s, (if r then cms_increment (key_bytes hash_input k) (tl_sketch c) else Some (tl_sketch c)) = Some s ∧ cms_wf s)
    as (s & -> & Hs).
  { destruct r; [|by eauto].
    destruct (cms_increment_spec [] (key_bytes hash_input k) 0 (tl_sketch c) Hsk) as (s & ? & ? & _); [|lia|eauto].
    intros row v Hrow Hv. destruct (cms_cell_ok _ [] row Hsk Hrow) as (v' & Hv' & H4).
    unfold is_u4 in H4. assert (v = v') by congruence. lia. }
  simpl. eexists. split; [done|]. split_and!; try done.
Qed.

Lemma tl_freq_ok k c : tl_inv c → ∃ f, tl_freq hash_input k c = Some f.
Proof.
  intros Hinv. destruct DEPTH_rows as [_ Hall].
  destruct (cms_estimate_rows_spec (tl_sketch c) (key_bytes hash_input k) (seq 0 DEPTH) (two64 - 1)
    (tl_sketch_wf _ Hinv) Hall) as (e & He & _). exists e. unfold tl_freq, cms_estimate.
  by destruct (double_hash (key_bytes hash_input k)).
Qed.

(** *** Assembling the invariant *)
Lemma tl_inv_intro c c' :
  tl_inv c → tl_static c c' → tl_coherent c' →
  seg_len Window c' ≤ tl_window_cap c → seg_len Protected c' ≤ tl_protected_cap c →
  seg_len Probation c' + seg_len Protected c' ≤ tl_main_cap c → tl_inv c'.
Proof.
  intros Hinv (E1 & E2 & E3 & E4 & E5 & E6) Hco Hw Hp Hm.
  split; rewrite ?E1, ?E2, ?E3, ?E4, ?E5, ?E6; try done; by apply Hinv.
Qed.

Lemma tl_list_sketch seg s d r c : tl_list seg (tl_set_sketch s d r c) = tl_list seg c.
Proof. by destruct seg. Qed.

Lemma tl_inv_sketch s d r c : tl_inv c → cms_wf s → dk_wf d → tl_inv (tl_set_sketch s d r c).
Proof. intros Hinv ??. by split; try apply Hinv. Qed.

(** A state that holds nothing [c] did not hold. *)
Definition tl_sub (c c' : tl) : Prop := ∀ k e, tl_find k c' = Some e → tl_find k c = Some e.

(** *** Dropping the front of a segment *)
Lemma tl_drop_front_spec seg c :
  tl_coherent c →
  let c' := tl_drop_front seg c in
  tl_static c c' ∧ tl_coherent c' ∧ tl_list seg c' = tail (tl_list seg c) ∧
  (∀ seg', seg' ≠ seg → tl_list seg' c' = tl_list seg' c) ∧ tl_sub c c'.
Proof.
  intros Hco. unfold tl_drop_front. destruct (tl_list seg c) as [|[k e] l] eqn:El.
  - pose proof (lhm_pop_front_old (tl_seg seg c)) as Ho. pose proof (lhm_pop_front_iter (tl_seg seg c)) as Hi.
    change (lhm_iter (tl_seg seg c)) with (tl_list seg c) in Ho, Hi. rewrite El in Ho, Hi.
    destruct (lhm_pop_front (tl_seg seg c)) as [m o]. simpl in *. subst o.
    assert (∀ seg', tl_list seg' (tl_set_seg seg m c) = tl_list seg' c) as Hl.
    { intros seg'. rewrite tl_list_set. case_decide; [by subst; rewrite El|done]. }
    split_and!; [done| |by rewrite Hl|by auto|].
    + intros k seg'. rewrite Hl. apply Hco.
    + intros k e'. unfold tl_find. simpl. destruct (tl_segment_index c !! k); [|done]. simpl. by rewrite Hl.
  - destruct (tl_pop_front_list seg c k e l El) as (Ho & Hi & Ha & Hrem).
    destruct (lhm_pop_front (tl_seg seg c)) as [m o]. simpl in Ho, Hi. subst o.
    assert (tl_segment_index c !! k = Some seg) as Hk by (apply Hco; rewrite El; csimpl; apply elem_of_cons; by left).
    destruct (tl_take_spec k seg m c Hco Hk Hi) as (Hco' & _ & _ & Hother & Hf).
    change (tl_set_index _ _) with (tl_take k seg m c). split_and!; try done.
    + unfold tl_take. by rewrite tl_list_index, tl_list_set, decide_True, Hi, Hrem.
    + intros k' e'. rewrite Hf. by case_decide.
Qed.

(** *** The admission gate *)
Lemma tl_admit_spec k e c :
  tl_coherent c → tl_segment_index c !! k = None →
  let c' := tl_admit k e c in
  tl_static c c' ∧ tl_coherent c' ∧ seg_len Probation c' = S (seg_len Probation c) ∧
  (∀ seg, seg ≠ Probation → tl_list seg c' = tl_list seg c) ∧
  (∀ k', tl_find k' c' = if decide (k' = k) then Some e else tl_find k' c).
Proof.
  intros Hco Hk. destruct (tl_add_spec k Probation e (lhm_insert k e (tl_probation c)).1 c Hco Hk)
    as (? & ? & ? & ? & ?); [by rewrite lhm_insert_iter|]. by split_and!.
Qed.

(** A candidate that left the window is admitted or dropped; at most one probation
    entry leaves, and the window is untouched. *)
Lemma tl_gate_spec k e c :
  tl_inv c → tl_segment_index c !! k = None →
  ∃ c', tl_run_admission_gate hash_input k e c = Some c' ∧ tl_inv c' ∧
    tl_total_cap c' = tl_total_cap c ∧
    (∀ k' e', tl_find k' c' = Some e' → (k' = k ∧ e' = e) ∨ (k' ≠ k ∧ tl_find k' c = Some e')) ∧
    (∀ k', tl_segment_index c !! k' = Some Window → tl_find k' c' = tl_find k' c).
Proof.
  intros Hinv Hk. pose proof Hinv as [Hco Hw Hp Hm Hpos Htot Hpm Hsk Hdk]. unfold tl_run_admission_gate.
  rewrite !lhm_len_iter, lhm_front_iter. change (lhm_iter (tl_probation c)) with (tl_list Probation c).
  change (lhm_iter (tl_protected c)) with (tl_list Protected c).
  assert (∀ k', tl_segment_index c !! k' = Some Window → k' ≠ k) as Hwk by (intros k' Hk' ->; congruence).
  case_bool_decide as Hroom.
  { destruct (tl_admit_spec k e c Hco Hk) as (Hst & Hco' & Hl & Hother & Hf). eexists. split; [done|]. split_and!.
    - apply (tl_inv_intro c); rewrite ?(Hother Window), ?(Hother Protected) by done; try done. lia.
    - apply Hst.
    - intros k' e'. rewrite Hf. case_decide; naive_solver.
    - intros k' Hk'. rewrite Hf. case_decide; naive_solver. }
  destruct (tl_list Probation c) as [|[vk ve] l] eqn:El; simpl.
  { exists c. split_and!; try done. intros k' e' Hf. right. split; [|done].
    intros ->. by rewrite tl_find_None in Hf. }
  destruct (tl_freq_ok k c Hinv) as [f1 ->]. destruct (tl_freq_ok vk c Hinv) as [f2 ->]. simpl.
  match goal with |- context [let '(_, _) := ?b in _] => destruct b as [c1 accept] eqn:Eb end.
  assert (∃ r, c1 = tl_set_sketch (tl_sketch c) (tl_doorkeeper c) r c) as [r ->].
  { destruct (f2 <? f1)%Z; [|destruct (f1 =? f2)%Z]; injection Eb as <- _; eauto.
    all: exists (tl_rng c); by destruct c. }
  clear Eb. set (c1 := tl_set_sketch _ _ r c).
  assert (tl_inv c1) as Hinv1 by (by apply tl_inv_sketch).
  assert (∀ seg, tl_list seg c1 = tl_list seg c) as Hl1 by (intros; apply tl_list_sketch).
  assert (∀ k', tl_find k' c1 = tl_find k' c) as Hf1.
  { intros k'. unfold tl_find. simpl. destruct (tl_segment_index c !! k'); [|done]. simpl. by rewrite Hl1. }
  eexists. split; [done|]. destruct accept; last first.
  { split_and!; try done. intros k' e'. rewrite Hf1. intros Hf. right. split; [|done].
    intros ->. by rewrite tl_find_None in Hf. }
  assert (tl_list Probation c1 = (vk, ve) :: l) as El1 by (by rewrite Hl1).
  destruct (tl_pop_front_list Probation c1 vk ve l El1) as (_ & Hi & _ & Hrem).
  assert (tl_segment_index c1 !! vk = Some Probation) as Hvk.
  { apply Hco. rewrite El. csimpl. apply elem_of_cons. by left. }
  destruct (tl_take_spec vk Probation (lhm_pop_front (tl_probation c1)).1 c1 (tl_co _ Hinv1) Hvk Hi)
    as (Hco2 & _ & Hl2 & Hother2 & Hf2).
  change (tl_set_index _ _) with (tl_take vk Probation (lhm_pop_front (tl_probation c1)).1 c1).
  set (c2 := tl_take vk Probation _ c1) in *.
  assert (tl_segment_index c2 !! k = None) as Hk2.
  { unfold c2. simpl. apply lookup_delete_None. by right. }
  destruct (tl_admit_spec k e c2 Hco2 Hk2) as (Hst & Hco3 & Hl3 & Hother3 & Hf3).
  rewrite El1 in Hl2. simpl in Hl2. simpl in Hm. split_and!.
  - apply (tl_inv_intro c1); [done| |done|..]; rewrite ?(Hother3 Window), ?(Hother3 Protected),
      ?(Hother2 Window), ?(Hother2 Protected), ?Hl1 by done; try done. simpl. lia.
  - apply Hst.
  - intros k' e'. rewrite Hf3, Hf2, Hf1. repeat case_decide; naive_solver.
  - intros k' Hk'. rewrite Hf3, Hf2, Hf1. rewrite !decide_False; [done| |by apply Hwk].
    intros ->. change (tl_segment_index c1) with (tl_segment_index c) in Hvk. congruence.
Qed.

(** *** Insertion *)
(** What a call that stores [(k, e)] may leave behind. *)
Definition tl_ins (k : K) (e : CacheEntry V) (c c' : tl) : Prop :=
  tl_find k c' = Some e ∧ tl_total_cap c' = tl_total_cap c ∧
  ∀ k' e', tl_find k' c' = Some e' → (k' = k ∧ e' = e) ∨ (k' ≠ k ∧ tl_find k' c = Some e').

Lemma tl_ins_exact k e c c' :
  tl_total_cap c' = tl_total_cap c →
  (∀ k', tl_find k' c' = if decide (k' = k) then Some e else tl_find k' c) → tl_ins k e c c'.
Proof.
  intros Ht Hf. split_and!; [by rewrite Hf, decide_True|done|]. intros k' e'. rewrite Hf. case_decide; naive_solver.
Qed.

Lemma tl_ins_pre k e c c1 c' :
  (∀ k', tl_find k' c1 = tl_find k' c) → tl_total_cap c1 = tl_total_cap c → tl_ins k e c1 c' → tl_ins k e c c'.
Proof.
  intros Hf Ht (H1 & H2 & H3). split_and!; [done|congruence|]. intros k' e'. rewrite <-Hf. apply H3.
Qed.

(** Overwriting the entry of a resident key. *)
Lemma tl_overwrite_spec k seg e c :
  tl_inv c → tl_segment_index c !! k = Some seg →
  let c' := tl_set_seg seg (lhm_get_mut k (λ _, e) (tl_seg seg c)) c in
  tl_inv c' ∧ tl_ins k e c c' ∧ tl_segment_index c' = tl_segment_index c ∧ tl_protected_cap c' = tl_protected_cap c.
Proof.
  intros Hinv Hk. pose proof (tl_co _ Hinv) as Hco. destruct (tl_resident k c seg Hco Hk) as [e0 He0].
  destruct (tl_touch_spec k seg e (lhm_get_mut k (λ _, e) (tl_seg seg c)) c Hco Hk) as (Hco' & Hl & Hf).
  - intros k'. by rewrite lhm_get_mut_iter, assoc_update_keys.
  - by rewrite lhm_get_mut_iter, assoc_update_length.
  - intros k'. rewrite lhm_get_mut_iter. fold (tl_list seg c). case_decide as Hkk.
    + subst. by rewrite assoc_update_eq, He0.
    + by apply assoc_update_ne.
  - split_and!; [|by apply tl_ins_exact|done|done].
    apply (tl_inv_intro c); rewrite ?Hl; try done; by apply Hinv.
Qed.

(** Promotion in place keeps the invariant. *)
Lemma tl_promote_in_inv k seg e c :
  tl_inv c → tl_segment_index c !! k = Some seg → tl_find k c = Some e →
  let c' := tl_promote_in seg k c in
  tl_inv c' ∧ tl_static c c' ∧ (∀ k', tl_find k' c' = tl_find k' c) ∧ assoc k (tl_list seg c') = Some e.
Proof.
  intros Hinv Hk Hf. destruct (tl_promote_in_spec k seg e c (tl_co _ Hinv) Hk Hf) as (Heq & Hco & Hl & Hf' & Hi).
  assert (tl_static c (tl_promote_in seg k c)) as Hst by (by rewrite Heq).
  split_and!; [|done|done|].
  - apply (tl_inv_intro c); rewrite ?Hl; try done; by apply Hinv.
  - rewrite <-(tl_find_Some k _ seg) by (by rewrite Hi). by rewrite Hf'.
Qed.

Lemma tl_new_key_spec k e c :
  tl_inv c → tl_segment_index c !! k = None →
  let c' := tl_add k Window (lhm_insert k e (tl_window c)).1 c in
  tl_coherent c' ∧ tl_segment_index c' !! k = Some Window ∧ tl_list Window c' = tl_list Window c ++ [(k, e)] ∧
  (∀ seg, seg ≠ Window → tl_list seg c' = tl_list seg c) ∧
  ∀ k', tl_find k' c' = if decide (k' = k) then Some e else tl_find k' c.
Proof.
  intros Hinv Hk. pose proof (tl_co _ Hinv) as Hco.
  destruct (tl_add_spec k Window e (lhm_insert k e (tl_window c)).1 c Hco Hk) as (? & ? & ? & ? & ?);
    [by rewrite lhm_insert_iter|]. split_and!; try done.
  unfold tl_add. rewrite tl_list_index, tl_list_set, decide_True by done. rewrite lhm_insert_iter.
  change (lhm_iter (tl_window c)) with (tl_list Window c). unfold assoc_push.
  rewrite assoc_remove_id; [done|]. intros Hin%Hco. congruence.
Qed.

(** A new key whose arrival overfills the window pushes the oldest window entry
    through the gate, and stays itself. *)
Lemma tl_overflow_spec k e c :
  tl_inv c → tl_segment_index c !! k = None →
  let c1 := tl_add k Window (lhm_insert k e (tl_window c)).1 c in
  tl_window_cap c < seg_len Window c1 →
  ∃ c2 vk ve c', tl_evict_from_window_if_over_cap c1 = (c2, Some (vk, ve)) ∧
    tl_run_admission_gate hash_input vk ve c2 = Some c' ∧ tl_inv c' ∧ tl_ins k e c c'.
Proof.
  intros Hinv Hk c1 Hover. pose proof Hinv as [Hco Hw Hp Hm Hpos Htot Hpm Hsk Hdk].
  destruct (tl_new_key_spec k e c Hinv Hk) as (Hco1 & Hk1 & Hl1 & Hother1 & Hf1). fold c1 in Hco1, Hk1, Hl1, Hother1, Hf1.
  destruct (tl_list Window c) as [|[vk ve] l] eqn:El.
  { rewrite Hl1 in Hover. simpl in Hover. lia. }
  simpl in Hl1. destruct (tl_pop_front_list Window c1 vk ve _ Hl1) as (Ho & Hi & Ha & Hrem).
  assert (tl_segment_index c1 !! vk = Some Window) as Hvk.
  { apply Hco1. rewrite Hl1. csimpl. apply elem_of_cons. by left. }
  assert (vk ≠ k) as Hne.
  { intros ->. assert (k ∈ (tl_list Window c).*1) as Hin%Hco; [|congruence].
    rewrite El. csimpl. apply elem_of_cons. by left. }
  destruct (tl_take_spec vk Window (lhm_pop_front (tl_window c1)).1 c1 Hco1 Hvk Hi) as (Hco2 & Hvk2 & Hl2 & Hother2 & Hf2).
  set (c2 := tl_take vk Window (lhm_pop_front (tl_window c1)).1 c1) in *.
  assert (tl_evict_from_window_if_over_cap c1 = (c2, Some (vk, ve))) as Hev.
  { unfold tl_evict_from_window_if_over_cap. rewrite lhm_len_iter. rewrite bool_decide_eq_true_2 by exact Hover.
    unfold c2. change (tl_seg Window c1) with (tl_window c1) in Ho.
    destruct (lhm_pop_front (tl_window c1)) as [m o]. simpl in Ho. by subst o. }
  rewrite Hl1 in Hl2. simpl in Hl2. rewrite length_app in Hl2. simpl in Hl2, Hw.
  assert (tl_inv c2) as Hinv2.
  { apply (tl_inv_intro c); try done;
      rewrite ?(Hother2 Protected), ?(Hother2 Probation), ?(Hother1 Protected), ?(Hother1 Probation) by done; try done. lia. }
  destruct (tl_gate_spec vk ve c2 Hinv2 Hvk2) as (c' & Hg & Hinv' & Ht & Hsub & Hkeep).
  exists c2, vk, ve, c'. split; [done|]. split; [done|]. split; [done|]. split; [|split; [done|]].
  - rewrite Hkeep; [by rewrite Hf2, Hf1, decide_False, decide_True by done|].
    unfold c2. simpl. rewrite lookup_delete_ne by done. exact Hk1.
  - intros k' e' Hf'. destruct (Hsub k' e' Hf') as [[-> ->]|[Hkk Hfe]].
    + right. split; [done|]. rewrite (tl_find_Some vk c Window).
      * rewrite El. simpl. by rewrite decide_True.
      * apply Hco. rewrite El. csimpl. apply elem_of_cons. by left.
    + rewrite Hf2, Hf1, decide_False in Hfe by done. case_decide; naive_solver.
Qed.

Lemma tl_insert_entry_spec k e c :
  tl_inv c → ∃ c', tl_insert_entry hash_input k e c = Some (c', None) ∧ tl_inv c' ∧ tl_ins k e c c'.
Proof.
  intros Hinv. unfold tl_insert_entry.
  destruct (tl_record_access_spec k c Hinv) as (c1 & -> & Hinv1 & Hf1 & Hi1 & Hs1 & Hcw & Hcp & Hcm & Hct).
  destruct (tl_segment_index c !! k) as [seg|] eqn:Hk; simpl.
  - rewrite <-Hi1 in Hk. destruct (tl_overwrite_spec k seg e c1 Hinv1 Hk) as (Hinv2 & Hins2 & Hi2 & _).
    set (c2 := tl_set_seg seg _ c1) in *. pose proof Hins2 as (Hfk & Ht2 & Hsub2).
    assert (tl_segment_index c2 !! k = Some seg) as Hk2 by (by rewrite Hi2).
    assert (∀ c', tl_inv c' ∧ tl_static c2 c' ∧ (∀ k', tl_find k' c' = tl_find k' c2) → tl_inv c' ∧ tl_ins k e c c') as Hend.
    { intros c' (? & (Ht & _) & Hf). split; [done|]. eapply tl_ins_pre; [exact Hf1|exact Hct|].
      split_and!; [by rewrite Hf|congruence|]. intros k' e'. rewrite Hf. apply Hsub2. }
    eexists. split; [done|]. apply Hend. destruct seg.
    + destruct (tl_promote_in_inv k Window e c2 Hinv2 Hk2 Hfk) as (? & ? & ? & ?). by split_and!.
    + destruct (tl_promote_probation_spec k e c2 Hinv2 Hk2 Hfk) as (? & ? & ? & ?). by split_and!.
    + destruct (tl_promote_in_inv k Protected e c2 Hinv2 Hk2 Hfk) as (? & ? & ? & ?). by split_and!.
  - rewrite <-Hi1 in Hk. change (tl_set_seg Window _ _) with (tl_add k Window (lhm_insert k e (tl_window c1)).1 c1).
    rewrite lhm_len_iter. case_bool_decide as Hover.
    + destruct (tl_overflow_spec k e c1 Hinv1 Hk Hover) as (c2 & vk & ve & c' & -> & Hg & ? & ?).
      rewrite Hg. simpl. exists c'. split_and!; try done. by eapply tl_ins_pre.
    + destruct (tl_new_key_spec k e c1 Hinv1 Hk) as (Hco & _ & _ & Hother & Hf).
      eexists. split; [done|]. split.
      * apply (tl_inv_intro c1); try done;
          rewrite ?(Hother Protected), ?(Hother Probation) by done; try (by apply Hinv1).
        apply Nat.nlt_ge. exact Hover.
      * eapply tl_ins_pre; [exact Hf1|exact Hct|]. by apply tl_ins_exact.
Qed.

(** *** Removal and lookup *)
Lemma tl_take_inv k seg m c :
  tl_inv c → tl_segment_index c !! k = Some seg → lhm_iter m = assoc_remove k (tl_list seg c) →
  tl_inv (tl_take k seg m c) ∧ ∀ k', tl_find k' (tl_take k seg m c) = if decide (k' = k) then None else tl_find k' c.
Proof.
  intros Hinv Hk Hm. pose proof Hinv as [Hco Hw Hp Hmm Hpos Htot Hpm Hsk Hdk].
  destruct (tl_take_spec k seg m c Hco Hk Hm) as (Hco' & _ & Hl & Hother & Hf). split; [|done].
  assert (∀ seg', seg_len seg' (tl_take k seg m c) ≤ seg_len seg' c) as Hle.
  { intros seg'. destruct (decide (seg' = seg)); [subst; lia|by rewrite Hother]. }
  pose proof (Hle Window). pose proof (Hle Protected). pose proof (Hle Probation).
  apply (tl_inv_intro c); try done; lia.
Qed.

Lemma tl_remove_spec k c :
  tl_inv c →
  let c' := (tl_remove k c).1 in
  tl_inv c' ∧ tl_total_cap c' = tl_total_cap c ∧
  (∀ k', tl_find k' c' = if decide (k' = k) then None else tl_find k' c) ∧
  (tl_remove k c).2 = value <$> tl_find k c.
Proof.
  intros Hinv. unfold tl_remove. destruct (tl_segment_index c !! k) as [seg|] eqn:Hk; simpl.
  - change (tl_seg seg (tl_set_index _ c)) with (tl_seg seg c).
    pose proof (lhm_remove_old k (tl_seg seg c)) as Ho. pose proof (lhm_remove_iter k (tl_seg seg c)) as Hi.
    destruct (lhm_remove k (tl_seg seg c)) as [m o]. simpl in *. subst o.
    destruct (tl_take_inv k seg m c Hinv Hk Hi). split_and!; try done. by rewrite (tl_find_Some _ _ _ Hk).
  - split_and!; try done; [|by rewrite tl_find_None]. intros k'. case_decide; [subst; by rewrite tl_find_None|done].
Qed.

Lemma tl_remove_if_expired_spec now k c :
  tl_inv c →
  let '(c', b) := tl_remove_if_expired now k c in
  b = opt_expired now (tl_find k c) ∧ tl_inv c' ∧ tl_total_cap c' = tl_total_cap c ∧
  if b then ∀ k', tl_find k' c' = if decide (k' = k) then None else tl_find k' c else c' = c.
Proof.
  intros Hinv. unfold tl_remove_if_expired. destruct (tl_segment_index c !! k) as [seg|] eqn:Hk; simpl.
  - rewrite lhm_get_iter. fold (tl_list seg c). rewrite (tl_find_Some _ _ _ Hk).
    destruct (opt_expired now _); [|done].
    destruct (tl_take_inv k seg (lhm_remove k (tl_seg seg c)).1 c Hinv Hk) as [? ?];
      [by rewrite lhm_remove_iter|]. by split_and!.
  - by rewrite (tl_find_None _ _ Hk).
Qed.

(** Whether a lookup of a resident key demotes it again at once. *)
Definition tl_lost (k : K) (c : tl) : bool :=
  bool_decide (tl_segment_index c !! k = Some Probation ∧ tl_protected_cap c = 0).

Lemma tl_get_spec now k c :
  tl_inv c → ∃ c',
    tl_get hash_input now k c = Some (c', if tl_lost k c then None else live_value now (tl_find k c)) ∧
    tl_inv c' ∧ tl_total_cap c' = tl_total_cap c ∧
    ∀ k', tl_find k' c' = if bool_decide (k' = k ∧ opt_expired now (tl_find k c) = true)
                          then None else tl_find k' c.
Proof.
  intros Hinv. unfold tl_get. pose proof (tl_remove_if_expired_spec now k c Hinv) as Hr.
  destruct (tl_remove_if_expired now k c) as [c0 b]. destruct Hr as (Eb & Hinv0 & Ht0 & Hc0).
  rewrite <-Eb. destruct b.
  { exists c0. rewrite (live_value_expired _ now) by (done || lia). split_and!; try done.
    - by destruct (tl_lost k c).
    - intros k'. rewrite Hc0. case_decide; case_bool_decide; naive_solver. }
  subst c0. rewrite live_value_unexpired by done. assert (∀ k', bool_decide (k' = k ∧ false = true) = false) as Hb.
  { intros k'. apply bool_decide_eq_false_2. by intros []. }
  setoid_rewrite Hb. destruct (tl_segment_index c !! k) as [seg|] eqn:Hk; simpl; last first.
  { exists c. rewrite (tl_find_None _ _ Hk). split_and!; try done. by destruct (tl_lost k c). }
  destruct (tl_record_access_spec k c Hinv) as (c1 & -> & Hinv1 & Hf1 & Hi1 & Hs1 & Hcw & Hcp & Hcm & Hct). simpl.
  pose proof Hk as Hk1. rewrite <-Hi1 in Hk1. destruct (tl_resident k c1 seg (tl_co _ Hinv1) Hk1) as [e He].
  rewrite <-(tl_find_Some _ _ _ Hk1) in He. pose proof He as He0. rewrite Hf1 in He0. rewrite He0. unfold tl_lost. rewrite Hk.
  assert (∀ c' o, tl_inv c' ∧ tl_static c1 c' ∧ (∀ k', tl_find k' c' = tl_find k' c1) ∧
    o = (if bool_decide (Some seg = Some Probation ∧ tl_protected_cap c = 0) then None else Some (value e)) →
    ∃ c'', Some (c', o) = Some (c'', if bool_decide (Some seg = Some Probation ∧ tl_protected_cap c = 0)
      then None else value <$> Some e) ∧ tl_inv c'' ∧
      tl_total_cap c'' = tl_total_cap c ∧ ∀ k', tl_find k' c'' = tl_find k' c) as Hend.
  { intros c' o (? & (Ht & _) & Hf & ->). exists c'. split_and!; try done; [congruence|]. intros k'. by rewrite Hf, Hf1. }
  destruct seg; apply Hend; rewrite lhm_get_iter.
  - destruct (tl_promote_in_inv k Window e c1 Hinv1 Hk1 He) as (? & ? & ? & Ha). split_and!; try done.
    rewrite bool_decide_eq_false_2 by naive_solver. by unfold tl_list in Ha; simpl in Ha; rewrite Ha.
  - destruct (tl_promote_probation_spec k e c1 Hinv1 Hk1 He) as (? & ? & ? & Ha). split_and!; try done.
    unfold tl_list in Ha; simpl in Ha. rewrite Ha, Hcp. repeat case_bool_decide; naive_solver.
  - destruct (tl_promote_in_inv k Protected e c1 Hinv1 Hk1 He) as (? & ? & ? & Ha). split_and!; try done.
    rewrite bool_decide_eq_false_2 by naive_solver. by unfold tl_list in Ha; simpl in Ha; rewrite Ha.
Qed.

(** *** Construction, clearing and resizing *)
Lemma tl_caps_ok n :
  let window_cap := Nat.max (Nat.max n 2 / 100) 1 in let main_cap := Nat.max n 2 - window_cap in
  1 ≤ window_cap ∧ window_cap + main_cap = Nat.max n 2 ∧ main_cap * 4 / 5 ≤ main_cap.
Proof.
  intros w m. assert (Nat.max n 2 / 100 ≤ Nat.max n 2 - 1).
  { assert (Nat.max n 2 / 100 ≤ Nat.max n 2 / 2) by (apply Nat.div_le_compat_l; lia).
    assert (Nat.max n 2 / 2 < Nat.max n 2) by (apply Nat.div_lt; lia). lia. }
  split_and!; [lia|lia|]. transitivity (m * 5 / 5); [apply Nat.Div0.div_le_mono; lia|]. by rewrite Nat.div_mul.
Qed.

Lemma tl_new_inv n : tl_inv (tl_new n) ∧ ∀ k, tl_find k (tl_new n) = None.
Proof.
  destruct (tl_caps_ok n) as (? & ? & ?).
  assert (∀ seg, tl_list seg (tl_new n) = []) as Hl by (intros []; apply lhm_iter_new).
  split; [|done]. split; rewrite ?Hl; try done; simpl length; try lia.
  - intros k seg. rewrite Hl. simpl. rewrite lookup_empty. split; [done|by intros ?%not_elem_of_nil].
  - apply cms_new_wf. lia.
  - apply dk_new_wf.
Qed.

Lemma tl_clear_inv c : tl_inv c → tl_inv (tl_clear c) ∧ ∀ k, tl_find k (tl_clear c) = None.
Proof.
  intros Hinv. pose proof Hinv as [Hco Hw Hp Hm Hpos Htot Hpm [? ? [Hlen Hu8]] [Hn Hb]].
  assert (∀ seg, tl_list seg (tl_clear c) = []) as Hl by (intros []; apply lhm_clear_iter).
  split; [|done]. split; rewrite ?Hl; try done; simpl length; try lia.
  - intros k seg. rewrite Hl. simpl. rewrite lookup_empty. split; [done|by intros ?%not_elem_of_nil].
  - split; [done|done|]. split; simpl; [by rewrite length_map|]. apply Forall_fmap, Forall_true. intros ?. done.
  - split; simpl; by rewrite length_map.
Qed.

(** A resize loop ends within as many rounds as its segment has entries. *)
Lemma tl_shrink_spec seg over fuel c :
  tl_coherent c → seg_len seg c ≤ fuel →
  (∀ c0, tl_static c c0 → (∀ seg', seg' ≠ seg → tl_list seg' c0 = tl_list seg' c) →
    tl_list seg c0 = [] → over c0 = false) →
  ∃ c', tl_shrink fuel seg over c = Some c' ∧ over c' = false ∧ tl_static c c' ∧ tl_coherent c' ∧
    seg_len seg c' ≤ seg_len seg c ∧ (∀ seg', seg' ≠ seg → tl_list seg' c' = tl_list seg' c) ∧ tl_sub c c'.
Proof.
  revert c. induction fuel as [|fuel IH]; intros c Hco Hlen Hstop; simpl; destruct (over c) eqn:Ho;
    try (exists c; split_and!; try done; by intros ??).
  { rewrite Hstop in Ho; [done|done|done|]. by apply length_zero_iff_nil, Nat.le_0_r. }
  destruct (tl_drop_front_spec seg c Hco) as (Hst1 & Hco1 & Hl1 & Hother1 & Hsub1).
  destruct (IH (tl_drop_front seg c) Hco1) as (c' & -> & ? & Hst & ? & Hle & Hother & Hsub).
  - rewrite Hl1. destruct (tl_list seg c); simpl in *; lia.
  - intros c0 Hst0 Hother0 Hl0. apply Hstop; [by eapply tl_static_trans| |done].
    intros seg' Hne. by rewrite Hother0, Hother1.
  - exists c'. split_and!; try done; [by eapply tl_static_trans| | |].
    + rewrite Hl1 in Hle. destruct (tl_list seg c); simpl in *; lia.
    + intros seg' Hne. by rewrite Hother, Hother1.
    + intros k e Hf. by apply Hsub1, Hsub.
Qed.

Lemma tl_len_lists c : tl_len c = seg_len Window c + seg_len Protected c + seg_len Probation c.
Proof. unfold tl_len. by rewrite !lhm_len_iter. Qed.

Lemma tl_resize_spec n c :
  tl_inv c → ∃ c', tl_resize_to (tl_len c) n c = Some c' ∧ tl_inv c' ∧ tl_total_cap c' = Nat.max n 2 ∧ tl_sub c c'.
Proof.
  intros Hinv. pose proof Hinv as [Hco Hw Hp Hm Hpos Htot Hpm Hsk Hdk]. destruct (tl_caps_ok n) as (C1 & C2 & C3).
  unfold tl_resize_to. set (w := Nat.max (_ / 100) 1) in *. set (m := Nat.max n 2 - w) in *.
  cbv zeta in C1, C2, C3. pose proof (tl_len_lists c) as Hlen.
  set (c0 := Build_WTinyLfuCache _ _ _ _ _ _ _ _ _ _ _).
  assert (∀ seg, tl_list seg c0 = tl_list seg c) as Hl0 by (by intros []).
  assert (tl_coherent c0) as Hco0 by (intros k seg; rewrite Hl0; apply Hco).
  destruct (tl_shrink_spec Window (λ c, bool_decide (tl_window_cap c < lhm_len (tl_window c))) (tl_len c) c0 Hco0)
    as (c1 & -> & Ho1 & Hst1 & Hco1 & Hle1 & Hother1 & Hsub1).
  { rewrite Hl0. lia. }
  { intros d _ _ Hd. apply bool_decide_eq_false_2. rewrite lhm_len_iter.
    change (lhm_iter (tl_window d)) with (tl_list Window d). rewrite Hd. simpl. lia. }
  simpl. destruct (tl_shrink_spec Protected (λ c, bool_decide (tl_protected_cap c < lhm_len (tl_protected c))) (tl_len c) c1 Hco1)
    as (c2 & -> & Ho2 & Hst2 & Hco2 & Hle2 & Hother2 & Hsub2).
  { rewrite Hother1, Hl0 by done. lia. }
  { intros d _ _ Hd. apply bool_decide_eq_false_2. rewrite lhm_len_iter.
    change (lhm_iter (tl_protected d)) with (tl_list Protected d). rewrite Hd. simpl. lia. }
  simpl. destruct Hst1 as (A1 & A2 & A3 & A4 & A5 & A6). destruct Hst2 as (B1 & B2 & B3 & B4 & B5 & B6).
  apply bool_decide_eq_false_1 in Ho1, Ho2. rewrite lhm_len_iter in Ho1, Ho2.
  change (lhm_iter (tl_window c1)) with (tl_list Window c1) in Ho1.
  change (lhm_iter (tl_protected c2)) with (tl_list Protected c2) in Ho2.
  cbn [c0 tl_total_cap tl_window_cap tl_main_cap tl_protected_cap tl_sketch tl_doorkeeper] in A1, A2, A3, A4, A5, A6.
  rewrite B4, A4 in Ho2. rewrite A2 in Ho1.
  destruct (tl_shrink_spec Probation (λ c, bool_decide (tl_main_cap c < lhm_len (tl_probation c) + lhm_len (tl_protected c)))
    (tl_len c) c2 Hco2) as (c3 & -> & Ho3 & Hst3 & Hco3 & Hle3 & Hother3 & Hsub3).
  { rewrite Hother2, Hother1, Hl0 by done. lia. }
  { intros d (_ & _ & D3 & _) Hd0 Hd. apply bool_decide_eq_false_2. rewrite !lhm_len_iter.
    change (lhm_iter (tl_probation d)) with (tl_list Probation d).
    change (lhm_iter (tl_protected d)) with (tl_list Protected d).
    rewrite Hd, Hd0, D3, B3, A3 by done. simpl length. lia. }
  destruct Hst3 as (D1 & D2 & D3 & D4 & D5 & D6). apply bool_decide_eq_false_1 in Ho3. rewrite !lhm_len_iter in Ho3.
  change (lhm_iter (tl_probation c3)) with (tl_list Probation c3) in Ho3.
  change (lhm_iter (tl_protected c3)) with (tl_list Protected c3) in Ho3. rewrite D3, B3, A3 in Ho3.
  exists c3. split_and!; [done| |congruence|].
  - split; rewrite ?D1, ?D2, ?D3, ?D4, ?D5, ?D6, ?B1, ?B2, ?B3, ?B4, ?B5, ?B6, ?A1, ?A2, ?A3, ?A4, ?A5, ?A6; try done.
    + rewrite Hother3, Hother2 by done. lia.
    + rewrite Hother3 by done. lia.
    + lia.
  - intros k e Hf. apply Hsub3, Hsub2, Hsub1 in Hf. revert Hf. unfold tl_find. simpl.
    destruct (tl_segment_index c !! k); [|done]. simpl. by rewrite Hl0.
Qed.

(** *** Histories and the cache laws *)
Lemma tl_step_inv op c : tl_inv c → tl_op_fits op = true → ∃ c', tl_step hash_input op c = Some c' ∧ tl_inv c'.
Proof.
  intros Hinv Hfits. destruct op as [now k|k v|now k v ttl|k| |n]; simpl.
  - destruct (tl_get_spec now k c Hinv) as (c' & -> & ? & _). by exists c'.
  - destruct (tl_insert_entry_spec k (entry_new v) c Hinv) as (c' & Hc & ? & _). exists c'. unfold tl_put. by rewrite Hc.
  - destruct (tl_insert_entry_spec k (entry_with_ttl now v ttl) c Hinv) as (c' & Hc & ? & _).
    simpl in Hfits. exists c'. unfold tl_put_with_ttl, with_ttl. rewrite Hfits. cbn [mbind option_bind]. by rewrite Hc.
  - destruct (tl_remove_spec k c Hinv) as (? & _). eauto.
  - destruct (tl_clear_inv c Hinv). eauto.
  - destruct (tl_resize_spec n c Hinv) as (c' & ? & ? & _). simpl in Hfits. unfold tl_resize. rewrite Hfits. eauto.
Qed.

Lemma tl_step_panics op c : tl_op_fits op = false → tl_step hash_input op c = None.
Proof.
  destruct op as [now k|k v|now k v ttl|k| |n]; simpl; try done; intros Hf.
  - unfold tl_put_with_ttl, with_ttl. by rewrite Hf.
  - unfold tl_resize. by rewrite Hf.
Qed.

Lemma tl_run_inv ops c : tl_inv c → if forallb tl_op_fits ops then ∃ c', tl_run hash_input ops c = Some c' ∧ tl_inv c' else tl_run hash_input ops c = None.
Proof.
  revert c. induction ops as [|op ops IH]; intros c Hinv; cbn [forallb tl_run]; [by eauto|].
  destruct (tl_op_fits op) eqn:Hf; cbn [andb]; [|by rewrite tl_step_panics].
  destruct (tl_step_inv op c Hinv Hf) as (c1 & -> & Hinv1). by apply IH.
Qed.

Lemma tl_run_new_inv ops n c : tl_run hash_input ops (tl_new n) = Some c → tl_inv c.
Proof.
  pose proof (tl_run_inv ops (tl_new n) (proj1 (tl_new_inv n))) as Hrun. destruct (forallb _ ops); [|congruence].
  destruct Hrun as (c' & -> & ?). by intros [= <-].
Qed.

Lemma tl_inv_len c : tl_inv c → tl_len c ≤ tl_total_cap c.
Proof. intros [_ ? ? ? ? ? ? _ _]. rewrite tl_len_lists. lia. Qed.

#[global] Instance tl_wf : CacheWf tl := tl_inv.

Lemma tl_ins_sub t k e c c' k' v' :
  tl_ins k e c c' → tl_peek t k' c' = Some v' →
  (k' = k ∧ v' = value e) ∨ (k' ≠ k ∧ tl_peek t k' c = Some v').
Proof.
  intros (_ & _ & Hsub). rewrite !tl_peek_find. intros Hv. destruct (live_value_Some _ _ _ Hv) as (e' & He' & <-).
  rewrite He' in Hv. destruct (Hsub k' e' He') as [[-> ->]|[? ->]]; auto.
Qed.

Lemma tl_laws_instance : @CacheLaws K V tl (tl_cache hash_input) tl_wf.
Proof.
  split; unfold cache_wf, tl_wf; simpl; intros *.
  - intros Hi. by destruct (tl_get_spec now k c Hi) as (c' & -> & ? & _).
  - intros Hi. unfold tl_put. by destruct (tl_insert_entry_spec k (entry_new v) c Hi) as (c' & -> & ? & _).
  - intros Hi.
    by destruct (tl_insert_entry_spec k (entry_with_ttl now v ttl) c Hi) as (c' & -> & ? & _).
  - intros Hi. by apply tl_remove_spec.
  - intros Hi. by apply tl_clear_inv.
  - intros Hi. destruct (tl_get_spec now k c Hi) as (c' & -> & _). simpl. rewrite tl_peek_find. by destruct (tl_lost k c).
  - intros Hi. destruct (tl_get_spec now k c Hi) as (c' & -> & _ & _ & Hf). simpl. rewrite !tl_peek_find, Hf.
    by case_bool_decide.
  - intros Hi. unfold tl_put. destruct (tl_insert_entry_spec k (entry_new v) c Hi) as (c' & -> & _ & Hins). simpl.
    by apply (tl_ins_sub t k (entry_new v)).
  - intros Hi.
    destruct (tl_insert_entry_spec k (entry_with_ttl now v ttl) c Hi) as (c' & -> & _ & Hins). simpl.
    by apply (tl_ins_sub t k (entry_with_ttl now v ttl)).
  - intros Hi. destruct (tl_remove_spec k c Hi) as (_ & _ & Hf & _). rewrite !tl_peek_find, Hf.
    split; intros; by case_decide.
  - intros Hi. destruct (tl_remove_spec k c Hi) as (_ & _ & _ & ->). rewrite tl_peek_find.
    by intros (e & -> & <-)%live_value_Some.
  - intros Hi. destruct (tl_remove_spec k c Hi) as (_ & _ & _ & ->). intros [t Ht]%live_value_once.
    exists t. by rewrite tl_peek_find.
  - intros Hi. destruct (tl_clear_inv c Hi) as (_ & Hf). by rewrite tl_peek_find, Hf.
  - intros Hi. unfold tl_contains_key, tl_peek. destruct (tl_segment_index c !! k); [apply opt_live_value|done].
  - intros Hi Ht. rewrite !tl_peek_find. by apply live_value_mono.
Qed.

Lemma tl_retains_instance : @CacheRetains K V tl (tl_cache hash_input) tl_wf.
Proof.
  intros t k v c Hi. simpl. unfold tl_put.
  destruct (tl_insert_entry_spec k (entry_new v) c Hi) as (c' & -> & _ & (Hk & _)). simpl. by rewrite tl_peek_find, Hk.
Qed.
#[global] Instance tl_cache_resize : CacheResize tl := λ n c, tl_resize_to (tl_len c) n c.

Lemma tl_resize_laws_instance : @CacheResizeLaws K V tl (tl_cache hash_input) tl_wf tl_cache_resize.
Proof.
  split; unfold cache_resize, tl_cache_resize, cache_wf, tl_wf.
  - intros n c Hi. destruct (tl_resize_spec n c Hi) as (c' & ? & ? & _). eauto.
  - intros n c c' t k v Hi Hr. destruct (tl_resize_spec n c Hi) as (c0 & Hc0 & _ & _ & Hsub).
    rewrite Hr in Hc0. injection Hc0 as <-. simpl. rewrite !tl_peek_find. intros Hv.
    destruct (live_value_Some _ _ _ Hv) as (e & He & _). rewrite He in Hv. by rewrite (Hsub k e He).
Qed.
End TinyLfuTheory.
#[global] Existing Instances tl_laws_instance tl_retains_instance tl_resize_laws_instance.

(** ** Theorems *)
Section TinyLfuTheorems.
Context {K V : Type} `{Countable K} {M : Type → Type} `{!LinkedHashMap K M, !LinkedHashMapLaws K M}.
Context (hash_input : K → bytes).
Abbreviation tl := (WTinyLfuCache K V M).


(** On any reachable cache, [put] leaves the new pair readable, keeps the size
    bound and adds nothing else: every other live answer was there before.  [get]
    leaves every other answer as it was, and answers what [peek] answers, with one
    exception: when the protected segment has capacity 0 a key in probation is
    demoted again before it is read, and the call reports a miss. *)
Theorem tl_put_get_correct (ops : list (TlOp K V)) total_cap now (k : K) (v : V) (c : tl) :
  tl_run hash_input ops (tl_new total_cap) = Some c →
  (∃ c', tl_put hash_input k v c = Some (c', None) ∧ tl_peek now k c' = Some v ∧ tl_len c' ≤ tl_total_cap c' ∧
     ∀ k' v', k' ≠ k → tl_peek now k' c' = Some v' → tl_peek now k' c = Some v') ∧
  ∃ c' r, tl_get hash_input now k c = Some (c', r) ∧ (∀ k', tl_peek now k' c' = tl_peek now k' c) ∧
    r = if bool_decide (tl_segment_index c !! k = Some Probation ∧ tl_protected_cap c = 0)
        then None else tl_peek now k c.
Proof.
  intros Hinv%tl_run_new_inv. split.
  - destruct (tl_insert_entry_spec hash_input k (entry_new v) c Hinv) as (c' & Hc & Hinv' & Hins). exists c'.
    split_and!; [done| |by apply tl_inv_len|].
    + destruct Hins as (Hk & _). by rewrite tl_peek_find, Hk.
    + intros k' v' Hne Hv. destruct (tl_ins_sub now k (entry_new v) c c' k' v' Hins Hv) as [[]|[]]; naive_solver.
  - destruct (tl_get_spec hash_input now k c Hinv) as (c' & Hc & _ & _ & Hf). rewrite Hc. eexists _, _.
    split_and!; [done| |by rewrite tl_peek_find].
    intros k'. rewrite !tl_peek_find, Hf. case_bool_decide as Hb; [|done]. destruct Hb as [-> He].
    by rewrite (live_value_expired (tl_find k c) now) by (done || lia).
Qed.
End TinyLfuTheorems.

(** ** Witnesses, on the concrete map *)
Definition tl_hash_nat (n : nat) : bytes := [Z_byte (Z.of_nat n)].
Definition tl_demo_ops : list (TlOp nat nat) := [TlPut 1 10; TlPut 2 20; TlGet 0 1; TlPut 3 30; TlResize 5; TlPut 1 11; TlPutTtl 5 2 21 1000].


(** A time-to-live of the largest [Duration] is refused with a panic. *)
Theorem tl_longest_ttl_panics : tl_run tl_hash_nat [TlPutTtl 0 1 10 (18446744073709551615 * 1000000000)] (tl_new 3 : WTinyLfuCache nat nat (λ V, list (nat * V))) = None.
Proof. reflexivity. Qed.

(** With total capacity 2 a key in probation is live, yet [get] misses. *)
Definition tl_two : WTinyLfuCache nat nat (λ V, list (nat * V)) :=
  default (tl_new 2) (tl_run tl_hash_nat [TlPut 1 10; TlPut 2 20] (tl_new 2)).

Lemma tl_put_get_correct_witness :
  tl_run tl_hash_nat [TlPut 1 10; TlPut 2 20] (tl_new 2) = Some tl_two ∧ tl_peek 0 1 tl_two = Some 10 ∧
  snd <$> tl_get tl_hash_nat 0 1 tl_two = Some None.
Proof.
  assert (tl_run tl_hash_nat [TlPut 1 10; TlPut 2 20] (tl_new 2) = Some tl_two) as Hr by (vm_compute; reflexivity).
  split; [exact Hr|]. split; [vm_compute; reflexivity|].
  destruct (tl_put_get_correct tl_hash_nat _ _ 0 1 10 tl_two Hr) as [_ (c' & r & Hg & _ & Hres)].
  rewrite Hg. simpl. f_equal. rewrite Hres. vm_compute. reflexivity.
Defined.
