(* ===== verification/Wrappers.v ===== *)
(** * [oxistore-cache]: the byte budget, the statistics and the shards

    [BoundedCache] ([bounded.rs]) and [StatsCache] ([stats.rs]) wrap any cache; both
    are proved against the interface of [Cache.v].  [ShardedCache] ([sharded.rs])
    routes keys over LRU caches; its hash function ([DefaultHasher], unspecified by
    the standard library) is a parameter.  [SyncCache] ([sync.rs]) and the builder
    ([builder.rs]) are here too, and the tasks that share a cache ([lib.rs]).  Byte
    counts are unbounded naturals: they count bytes held in memory. *)

From S2P Require Import Prelude Bytes Hashlink Cache Lru Arc Lfu Sketch TinyLfu.

(** ** [BoundedCache] *)
Section BoundedModel.
Context {C : Type} `{!Cache bytes bytes C, !CacheResize C}.

Record BoundedCache := {
  bd_inner : C;
  bd_max_bytes : nat;
  bd_current_bytes : nat;
  bd_order : list bytes;
}.

Definition bd_new (inner : C) (max_bytes : nat) : BoundedCache :=
  {| bd_inner := inner; bd_max_bytes := max_bytes; bd_current_bytes := 0; bd_order := [] |}.

Definition entry_size (key v : bytes) : nat := length key + length v.

(** [evict_until_fits]: the loop over the queue, the counter and the inner cache. *)
Fixpoint evict_loop (max_bytes needed : nat) (order : list bytes) (current_bytes : nat) (inner : C)
    : list bytes * nat * C :=
  if bool_decide (max_bytes < current_bytes + needed) then
    match order with
    | [] => ([], current_bytes, inner)
    | oldest :: order =>
        let '(inner, removed) := cache_remove oldest inner in
        let current_bytes :=
          match removed with
          | Some old_val => current_bytes - entry_size oldest old_val
          | None => current_bytes
          end in
        evict_loop max_bytes needed order current_bytes inner
    end
  else (order, current_bytes, inner).

Definition evict_until_fits (needed : nat) (b : BoundedCache) : BoundedCache :=
  let '(order, current, inner) :=
    evict_loop (bd_max_bytes b) needed (bd_order b) (bd_current_bytes b) (bd_inner b) in
  {| bd_inner := inner; bd_max_bytes := bd_max_bytes b; bd_current_bytes := current; bd_order := order |}.

Definition retain_ne (key : bytes) (order : list bytes) : list bytes :=
  List.filter (λ k, negb (bool_decide (k = key))) order.

(** The accounting that [put] and [put_with_ttl] share, up to the inner call. *)
Definition bd_account (now : Z) (key v : bytes) (b : BoundedCache) : BoundedCache :=
  let size := entry_size key v in
  let b := evict_until_fits size b in
  let '(current, order) :=
    match cache_peek now key (bd_inner b) with
    | Some existing => (bd_current_bytes b - entry_size key existing, retain_ne key (bd_order b))
    | None => (bd_current_bytes b, bd_order b)
    end in
  {| bd_inner := bd_inner b; bd_max_bytes := bd_max_bytes b; bd_current_bytes := current + size;
     bd_order := order ++ [key] |}.

Definition bd_set_inner (b : BoundedCache) (inner : C) : BoundedCache :=
  {| bd_inner := inner; bd_max_bytes := bd_max_bytes b; bd_current_bytes := bd_current_bytes b;
     bd_order := bd_order b |}.

Definition bd_get (now : Z) (key : bytes) (b : BoundedCache) : BoundedCache * option bytes :=
  let '(inner, r) := cache_get now key (bd_inner b) in (bd_set_inner b inner, r).

Definition bd_put (now : Z) (key v : bytes) (b : BoundedCache) : BoundedCache * option bytes :=
  let b := bd_account now key v b in
  let '(inner, r) := cache_put key v (bd_inner b) in (bd_set_inner b inner, r).

Definition bd_put_with_ttl (now : Z) (key v : bytes) (ttl : Z) (b : BoundedCache) : BoundedCache * option bytes :=
  let b := bd_account now key v b in
  let '(inner, r) := cache_put_with_ttl now key v ttl (bd_inner b) in (bd_set_inner b inner, r).

Definition bd_len (b : BoundedCache) : nat := cache_len (bd_inner b).
Definition bd_cap (b : BoundedCache) : nat := cache_cap (bd_inner b).

Definition bd_remove (key : bytes) (b : BoundedCache) : BoundedCache * option bytes :=
  match cache_remove key (bd_inner b) with
  | (inner, Some val) =>
      ({| bd_inner := inner; bd_max_bytes := bd_max_bytes b;
          bd_current_bytes := bd_current_bytes b - entry_size key val;
          bd_order := retain_ne key (bd_order b) |}, Some val)
  | (inner, None) => (bd_set_inner b inner, None)
  end.

Definition bd_clear (b : BoundedCache) : BoundedCache :=
  {| bd_inner := cache_clear (bd_inner b); bd_max_bytes := bd_max_bytes b; bd_current_bytes := 0; bd_order := [] |}.

Definition bd_peek (now : Z) (key : bytes) (b : BoundedCache) : option bytes := cache_peek now key (bd_inner b).
Definition bd_contains_key (now : Z) (key : bytes) (b : BoundedCache) : bool :=
  cache_contains_key now key (bd_inner b).

Definition bd_resize (n : nat) (b : BoundedCache) : option BoundedCache :=
  bd_set_inner b <$> cache_resize n (bd_inner b).

Inductive BdOp :=
| BdGet (now : Z) (k : bytes)
| BdPut (now : Z) (k v : bytes)
| BdPutTtl (now : Z) (k v : bytes) (ttl : Z)
| BdRemove (k : bytes)
| BdClear
| BdResize (n : nat).

Definition bd_step (op : BdOp) (b : BoundedCache) : option BoundedCache :=
  match op with
  | BdGet now k => Some (bd_get now k b).1
  | BdPut now k v => Some (bd_put now k v b).1
  | BdPutTtl now k v ttl => Some (bd_put_with_ttl now k v ttl b).1
  | BdRemove k => Some (bd_remove k b).1
  | BdClear => Some (bd_clear b)
  | BdResize n => bd_resize n b
  end.

Fixpoint bd_run (ops : list BdOp) (b : BoundedCache) : option BoundedCache :=
  match ops with
  | [] => Some b
  | op :: ops => b ← bd_step op b; bd_run ops b
  end.
End BoundedModel.
Arguments BoundedCache : clear implicits.

(** The bytes held under a list of keys, as seen at instant [i]. *)
Definition held_size {C} `{!Cache bytes bytes C} (i : Z) (c : C) (k : bytes) : nat :=
  match cache_peek i k c with Some v => entry_size k v | None => 0 end.
Definition held_bytes {C} `{!Cache bytes bytes C} (i : Z) (keys : list bytes) (c : C) : nat :=
  sum_list (held_size i c <$> keys).

Section BoundedTheory.
Context {C : Type} `{!Cache bytes bytes C, !CacheResize C, !CacheWf C, !CacheLaws bytes bytes C}.
Implicit Types (b : BoundedCache C) (c : C) (keys : list bytes).

Lemma held_bytes_cons i k keys c : held_bytes i (k :: keys) c = held_size i c k + held_bytes i keys c.
Proof. done. Qed.

Lemma held_bytes_mono i j keys c c' :
  (∀ k v, cache_peek i k c' = Some v → cache_peek j k c = Some v) → held_bytes i keys c' ≤ held_bytes j keys c.
Proof.
  intros Hsub. induction keys as [|k keys IH]; [done|]. rewrite !held_bytes_cons. unfold held_size at 1 2.
  destruct (cache_peek i k c') as [v|] eqn:E; [rewrite (Hsub _ _ E); lia|lia].
Qed.

Lemma retain_ne_spec key keys k : k ∈ retain_ne key keys ↔ k ≠ key ∧ k ∈ keys.
Proof.
  unfold retain_ne. rewrite !list_elem_of_In, filter_In, negb_true_iff, bool_decide_eq_false. tauto.
Qed.

Lemma retain_ne_NoDup key keys : NoDup keys → NoDup (retain_ne key keys).
Proof. rewrite !NoDup_ListNoDup. apply List.NoDup_filter. Qed.

(** Adding at most [k] with the given value to the other keys of [c]. *)
Lemma held_bytes_insert i j k ov keys c c' :
  NoDup keys →
  (∀ k' v', cache_peek i k' c' = Some v' → (k' = k ∧ ov = Some v') ∨ (k' ≠ k ∧ cache_peek j k' c = Some v')) →
  held_bytes i keys c' ≤
    (if bool_decide (k ∈ keys) then from_option (entry_size k) 0 ov else 0) + held_bytes j (retain_ne k keys) c.
Proof.
  intros Hnd Hsub. induction keys as [|x keys IH]; [done|]. apply NoDup_cons in Hnd as [Hx Hnd].
  specialize (IH Hnd). rewrite held_bytes_cons. simpl retain_ne. destruct (decide (x = k)) as [Hxk|Hxk].
  - subst x. rewrite (bool_decide_eq_false_2 (k ∈ keys)) in IH by done.
    rewrite (bool_decide_eq_true_2 (k ∈ k :: keys)) by (apply elem_of_cons; by left).
    rewrite (bool_decide_eq_true_2 (k = k)) by done. simpl.
    unfold held_size. destruct (cache_peek i k c') as [w|] eqn:E; [|lia].
    destruct (Hsub _ _ E) as [[_ ->]|[? _]]; [simpl in *; lia|done].
  - rewrite (bool_decide_eq_false_2 (x = k)) by done. simpl.
    rewrite held_bytes_cons. assert (bool_decide (k ∈ x :: keys) = bool_decide (k ∈ keys)) as ->.
    { apply bool_decide_ext. rewrite elem_of_cons. naive_solver. }
    unfold held_size at 1 2. destruct (cache_peek i x c') as [w|] eqn:E; [|lia].
    destruct (Hsub _ _ E) as [[? _]|[_ ->]]; [done|]. lia.
Qed.

Lemma held_bytes_none i keys c : (∀ k v, cache_peek i k c = Some v → False) → held_bytes i keys c = 0.
Proof.
  intros Hn. induction keys as [|k keys IH]; [done|]. rewrite held_bytes_cons, IH. unfold held_size.
  destruct (cache_peek i k c) as [v|] eqn:E; [by apply Hn in E|done].
Qed.

Lemma cache_remove_sub k c i k' v' :
  cache_wf c → cache_peek i k' (cache_remove k c).1 = Some v' → k' ≠ k ∧ cache_peek i k' c = Some v'.
Proof.
  intros Hwf Hv. destruct (cache_remove_peek i k k' c Hwf) as [H1 H2].
  destruct (decide (k' = k)); [by rewrite H1 in Hv|by rewrite H2 in Hv].
Qed.

(** The counter never under-counts, and every held key is in the queue. *)
Record bd_ok (order : list bytes) (current : nat) (c : C) : Prop := {
  bd_ok_wf : cache_wf c;
  bd_ok_order i k v : cache_peek i k c = Some v → k ∈ order;
  bd_ok_bytes i keys : NoDup keys → held_bytes i keys c ≤ current;
}.

(** A held entry and the other keys fit in the counter together. *)
Lemma bd_ok_split order current c i t k v keys :
  bd_ok order current c → cache_peek t k c = Some v → NoDup keys →
  entry_size k v + held_bytes i (retain_ne k keys) c ≤ current.
Proof.
  intros [Hwf _ Hb] Hv Hnd. specialize (Hb (Z.min i t) (k :: retain_ne k keys)).
  rewrite held_bytes_cons in Hb. unfold held_size in Hb at 1.
  rewrite (cache_peek_expiry (Z.min i t) t k c v) in Hb by (done || lia).
  assert (held_bytes i (retain_ne k keys) c ≤ held_bytes (Z.min i t) (retain_ne k keys) c).
  { apply held_bytes_mono. intros k' v'. apply cache_peek_expiry; [done|lia]. }
  etransitivity; [|apply Hb]; [lia|]. constructor; [rewrite retain_ne_spec; tauto|by apply retain_ne_NoDup].
Qed.

Lemma bd_ok_sub order current c c' :
  bd_ok order current c → cache_wf c' → (∀ i k v, cache_peek i k c' = Some v → cache_peek i k c = Some v) →
  bd_ok order current c'.
Proof.
  intros [Hwf Ho Hb] Hwf' Hsub. split; [done|eauto|]. intros i keys Hnd.
  etransitivity; [apply (held_bytes_mono i i keys c c'); apply Hsub|by apply Hb].
Qed.

Lemma bd_ok_remove order current c k :
  bd_ok order current c →
  bd_ok (retain_ne k order)
    (match (cache_remove k c).2 with Some v => current - entry_size k v | None => current end) (cache_remove k c).1.
Proof.
  intros Hok. pose proof Hok as [Hwf Ho Hb].
  assert (∀ i k' v', cache_peek i k' (cache_remove k c).1 = Some v' → k' ≠ k ∧ cache_peek i k' c = Some v') as Hsub
    by (intros i k' v'; by apply cache_remove_sub).
  split; [by apply cache_remove_wf| |].
  - intros i k' v' Hv. apply Hsub in Hv as [? ?]. apply retain_ne_spec. eauto.
  - intros i keys Hnd. pose proof (held_bytes_insert i i k None keys c (cache_remove k c).1 Hnd) as Hle.
    assert (held_bytes i keys (cache_remove k c).1 ≤ held_bytes i (retain_ne k keys) c) as Hle'.
    { etransitivity; [apply Hle; intros k' v' Hv; right; by apply Hsub|]. by case_bool_decide. }
    destruct (cache_remove k c).2 as [v|] eqn:E.
    + destruct (cache_remove_some k c v Hwf E) as [t Ht].
      pose proof (bd_ok_split _ _ _ i t k v keys Hok Ht Hnd). lia.
    + pose proof (Hb i (retain_ne k keys) (retain_ne_NoDup _ _ Hnd)). lia.
Qed.

(** A key dropped from the queue is no longer held. *)
Lemma evict_loop_spec max needed order current c :
  bd_ok order current c →
  let '(order', current', c') := evict_loop max needed order current c in
  bd_ok order' current' c' ∧ (current' + needed ≤ max ∨ order' = []) ∧
  ∀ i k v, cache_peek i k c' = Some v → cache_peek i k c = Some v.
Proof.
  revert current c. induction order as [|k order IH]; intros current c Hok; simpl.
  { case_bool_decide; split_and!; try done; [by right|left; lia]. }
  case_bool_decide; [|split_and!; try done; left; lia].
  pose proof (bd_ok_remove _ _ _ k Hok) as Hok'. pose proof Hok as [Hwf _ _].
  assert (∀ i k' v', cache_peek i k' (cache_remove k c).1 = Some v' → cache_peek i k' c = Some v') as Hsub.
  { intros i k' v'. by apply cache_remove_sub. }
  destruct (cache_remove k c) as [c1 removed]. cbn [fst snd] in *.
  assert (bd_ok order (match removed with Some v => current - entry_size k v | None => current end) c1) as Hok1.
  { destruct Hok' as [? Ho ?]. split; [done| |done]. intros i k' v' Hv. specialize (Ho i k' v' Hv).
    apply retain_ne_spec in Ho as [Hne Hin]. by apply elem_of_cons in Hin as [->|]. }
  specialize (IH _ _ Hok1). destruct (evict_loop _ _ _ _ _) as [[order' current'] c'].
  destruct IH as (? & ? & Hs). split_and!; try done. intros i k' v' Hv. by apply Hsub, Hs.
Qed.

(** *** Insertion *)
Definition bd_inv (b : BoundedCache C) : Prop :=
  bd_ok (bd_order b) (bd_current_bytes b) (bd_inner b) ∧
  ∀ i keys, NoDup keys → held_bytes i keys (bd_inner b) ≤ bd_max_bytes b.

(** The state after the accounting, whatever the inner insertion keeps of it. *)
Lemma bd_account_spec now k v b c' :
  bd_inv b → entry_size k v ≤ bd_max_bytes b → cache_wf c' →
  let b1 := bd_account now k v b in
  (∀ i k' v', cache_peek i k' c' = Some v' → (k' = k ∧ v' = v) ∨ (k' ≠ k ∧ cache_peek i k' (bd_inner b1) = Some v')) →
  bd_inv (bd_set_inner b1 c') ∧ bd_max_bytes b1 = bd_max_bytes b.
Proof.
  intros [Hok Hmax] Hfit Hwf'. unfold bd_account, evict_until_fits.
  pose proof (evict_loop_spec (bd_max_bytes b) (entry_size k v) _ _ _ Hok) as Hev.
  destruct (evict_loop _ _ _ _ _) as [[order current] c]. destruct Hev as (Hok1 & Hroom & _). simpl.
  set (cur := match cache_peek now k c with Some e => current - entry_size k e | None => current end).
  assert (∀ i keys, NoDup keys → held_bytes i (retain_ne k keys) c ≤ cur) as Hcur.
  { intros i keys Hnd. unfold cur. destruct (cache_peek now k c) as [e|] eqn:E.
    - pose proof (bd_ok_split _ _ _ i now k e keys Hok1 E Hnd). lia.
    - by apply Hok1, retain_ne_NoDup. }
  assert (cur ≤ current) by (unfold cur; destruct (cache_peek now k c); lia).
  replace (match cache_peek now k c with Some e => (current - entry_size k e, retain_ne k order) | None => (current, order) end)
    with (cur, match cache_peek now k c with Some _ => retain_ne k order | None => order end)
    by (unfold cur; by destruct (cache_peek now k c)).
  simpl. intros Hsub. split; [|done].
  assert (∀ i keys, NoDup keys → held_bytes i keys c' ≤ entry_size k v + held_bytes i (retain_ne k keys) c) as Hle.
  { intros i keys Hnd. etransitivity; [apply (held_bytes_insert i i k (Some v) keys c c' Hnd)|].
    - intros k' v' Hv. destruct (Hsub i k' v' Hv) as [[-> ->]|[? ?]]; auto.
    - case_bool_decide; simpl; lia. }
  split; simpl.
  - split; [done| |].
    + intros i k' v' Hv. rewrite elem_of_app, list_elem_of_singleton. destruct (Hsub i k' v' Hv) as [[-> _]|[Hne Hv']]; [by right|].
      left. pose proof (bd_ok_order _ _ _ Hok1 i k' v' Hv'). destruct (cache_peek now k c); [|done]. by apply retain_ne_spec.
    + intros i keys Hnd. specialize (Hle i keys Hnd). specialize (Hcur i keys Hnd). lia.
  - intros i keys Hnd. specialize (Hle i keys Hnd). destruct Hroom as [Hroom| ->].
    + specialize (Hcur i keys Hnd). lia.
    + rewrite (held_bytes_none i (retain_ne k keys) c) in Hle; [lia|].
      intros x w Hx. by apply (bd_ok_order _ _ _ Hok1), not_elem_of_nil in Hx.
Qed.

Lemma bd_account_wf now k v b :
  bd_ok (bd_order b) (bd_current_bytes b) (bd_inner b) → cache_wf (bd_inner (bd_account now k v b)).
Proof.
  intros Hok. unfold bd_account, evict_until_fits.
  pose proof (evict_loop_spec (bd_max_bytes b) (entry_size k v) _ _ _ Hok) as Hev.
  destruct (evict_loop _ _ _ _ _) as [[order current] c]. destruct Hev as ([? _ _] & _). simpl.
  by destruct (cache_peek now k c).
Qed.

Lemma bd_inv_sub b c' order current :
  bd_inv b → bd_ok order current c' → (∀ i k v, cache_peek i k c' = Some v → cache_peek i k (bd_inner b) = Some v) →
  bd_inv {| bd_inner := c'; bd_max_bytes := bd_max_bytes b; bd_current_bytes := current; bd_order := order |}.
Proof.
  intros [_ Hmax] Hok Hsub. split; [done|]. intros i keys Hnd. simpl.
  etransitivity; [apply held_bytes_mono, Hsub|by apply Hmax].
Qed.

(** The calls that are within the contract: no single entry exceeds the budget. *)
Definition bd_op_fits (max : nat) (op : BdOp) : Prop :=
  match op with
  | BdPut _ k v | BdPutTtl _ k v _ => entry_size k v ≤ max
  | _ => True
  end.

Context `{!CacheResizeLaws bytes bytes C}.

Lemma bd_step_inv op b :
  bd_inv b → bd_op_fits (bd_max_bytes b) op →
  ∃ b', bd_step op b = Some b' ∧ bd_inv b' ∧ bd_max_bytes b' = bd_max_bytes b.
Proof.
  intros Hinv Hfit. pose proof Hinv as [Hok Hmax]. pose proof (bd_ok_wf _ _ _ Hok) as Hwf.
  destruct op as [now k|now k v|now k v ttl|k| |n]; simpl in *.
  - eexists. split; [done|]. unfold bd_get. destruct (cache_get now k (bd_inner b)) as [c' r] eqn:E. simpl.
    assert (∀ i k' v', cache_peek i k' c' = Some v' → cache_peek i k' (bd_inner b) = Some v') as Hs.
    { intros i k' v' Hv. apply (cache_get_sub now i k k' _ v' Hwf). by rewrite E. }
    split; [|done]. apply bd_inv_sub; [done| |done]. eapply bd_ok_sub; [done| |done].
    pose proof (cache_get_wf now k _ Hwf) as Hw. by rewrite E in Hw.
  - eexists. split; [done|]. unfold bd_put. destruct (cache_put k v _) as [c' r] eqn:E. simpl.
    pose proof (bd_account_wf now k v b Hok) as Hwf1. apply bd_account_spec; try done.
    + pose proof (cache_put_wf k v _ Hwf1) as Hw. by rewrite E in Hw.
    + intros i k' v' Hv. apply (cache_put_sub i k v k' v' _ Hwf1). by rewrite E.
  - eexists. split; [done|]. unfold bd_put_with_ttl. destruct (cache_put_with_ttl now k v ttl _) as [c' r] eqn:E. simpl.
    pose proof (bd_account_wf now k v b Hok) as Hwf1. apply bd_account_spec; try done.
    + pose proof (cache_put_with_ttl_wf now k v ttl _ Hwf1) as Hw. by rewrite E in Hw.
    + intros i k' v' Hv. apply (cache_put_with_ttl_sub now i k v ttl k' v' _ Hwf1). by rewrite E.
  - eexists. split; [done|]. unfold bd_remove. pose proof (bd_ok_remove _ _ _ k Hok) as Hok'.
    assert (∀ i k' v', cache_peek i k' (cache_remove k (bd_inner b)).1 = Some v' → cache_peek i k' (bd_inner b) = Some v') as Hs.
    { intros i k' v'. by apply cache_remove_sub. }
    destruct (cache_remove k (bd_inner b)) as [c' [v|]]; cbn [fst snd] in *; split; try done; apply bd_inv_sub; try done.
    destruct Hok' as [? Ho ?]. split; [done| |done]. intros i k' v' Hv. by eapply retain_ne_spec, Ho.
  - eexists. split; [done|]. split; [|done]. assert (∀ i k v, cache_peek i k (cache_clear (bd_inner b)) = Some v → False) as Hn.
    { intros i k v. by rewrite cache_clear_peek. }
    apply bd_inv_sub; [done| |by intros i k v ?%Hn]. split; [by apply cache_clear_wf|by intros i k v ?%Hn|].
    intros i keys _. by rewrite held_bytes_none by (intros k v; apply Hn).
  - destruct (cache_resize_returns n (bd_inner b) Hwf) as (c' & Hc' & Hwf'). unfold bd_resize. rewrite Hc'. simpl.
    eexists. split; [done|]. split; [|done].
    assert (∀ i k v, cache_peek i k c' = Some v → cache_peek i k (bd_inner b) = Some v) as Hs.
    { intros i k v. by eapply cache_resize_sub. }
    apply bd_inv_sub; try done. by eapply bd_ok_sub.
Qed.

Lemma bd_run_inv ops b :
  bd_inv b → Forall (bd_op_fits (bd_max_bytes b)) ops →
  ∃ b', bd_run ops b = Some b' ∧ bd_inv b' ∧ bd_max_bytes b' = bd_max_bytes b.
Proof.
  revert b. induction ops as [|op ops IH]; intros b Hinv Hfit; simpl; [by exists b|].
  apply Forall_cons in Hfit as [Hop Hops]. destruct (bd_step_inv op b Hinv Hop) as (b1 & -> & Hinv1 & Hm1). simpl.
  destruct (IH b1 Hinv1) as (b' & ? & ? & ?); [by rewrite Hm1|]. exists b'. split_and!; [done|done|congruence].
Qed.

(** C40: As long as no single entry exceeds the budget, every history of calls
    (lookups, insertions with and without deadlines, removals, clears and
    resizes) returns, and afterwards the entries in the cache, expired ones
    included, occupy at most [max_bytes], whatever the inner policy evicts on its
    own; and the counter is never below what they occupy. *)
Theorem bounded_budget_holds (ops : list BdOp) (inner : C) (max_bytes : nat) :
  cache_wf inner → (∀ i k, cache_peek i k inner = None) → Forall (bd_op_fits max_bytes) ops →
  ∃ b, bd_run ops (bd_new inner max_bytes) = Some b ∧ bd_max_bytes b = max_bytes ∧
    ∀ i keys, NoDup keys →
      held_bytes i keys (bd_inner b) ≤ max_bytes ∧ held_bytes i keys (bd_inner b) ≤ bd_current_bytes b.
Proof.
  intros Hwf Hempty Hfit. destruct (bd_run_inv ops (bd_new inner max_bytes)) as (b & Hb & [Hok Hmax] & Hm); [|done|].
  - split; [split; simpl; [done| |]|simpl]; intros i; [by intros k v; rewrite Hempty|..]; intros keys _;
      rewrite held_bytes_none by (intros k v; by rewrite Hempty); lia.
  - exists b. simpl in Hm. split_and!; [done|done|]. intros i keys Hnd. split; [by rewrite <-Hm; apply Hmax|by apply Hok].
Qed.
End BoundedTheory.

(** ** [StatsCache] *)
Section StatsModel.
Context {C : Type} `{!Cache bytes bytes C, !CacheResize C}.

Record CacheStats := { st_hits : Z; st_misses : Z }.

Definition stats_new : CacheStats := {| st_hits := 0; st_misses := 0 |}.
(** [fetch_add] wraps around. *)
Definition record_hit (s : CacheStats) : CacheStats := {| st_hits := wrap64 (st_hits s + 1); st_misses := st_misses s |}.
Definition record_miss (s : CacheStats) : CacheStats := {| st_hits := st_hits s; st_misses := wrap64 (st_misses s + 1) |}.
Definition stats_reset (s : CacheStats) : CacheStats := stats_new.

Record StatsCache := { sc_inner : C; sc_stats : CacheStats }.

Definition sc_new (inner : C) : StatsCache := {| sc_inner := inner; sc_stats := stats_new |}.
Definition sc_with_stats (inner : C) (stats : CacheStats) : StatsCache := {| sc_inner := inner; sc_stats := stats |}.

Definition sc_lift {A} (f : C → C * A) (s : StatsCache) : StatsCache * A :=
  let '(inner, r) := f (sc_inner s) in ({| sc_inner := inner; sc_stats := sc_stats s |}, r).

Definition sc_get (now : Z) (key : bytes) (s : StatsCache) : StatsCache * option bytes :=
  let '(inner, result) := cache_get now key (sc_inner s) in
  ({| sc_inner := inner;
      sc_stats := if result is Some _ then record_hit (sc_stats s) else record_miss (sc_stats s) |}, result).

Definition sc_resize (n : nat) (s : StatsCache) : option StatsCache :=
  (λ inner, {| sc_inner := inner; sc_stats := sc_stats s |}) <$> cache_resize n (sc_inner s).

#[global] Instance sc_cache : Cache bytes bytes StatsCache := {|
  cache_get := sc_get;
  cache_put k v := sc_lift (cache_put k v);
  cache_put_with_ttl now k v ttl := sc_lift (cache_put_with_ttl now k v ttl);
  cache_len s := cache_len (sc_inner s);
  cache_cap s := cache_cap (sc_inner s);
  cache_remove k := sc_lift (cache_remove k);
  cache_clear s := {| sc_inner := cache_clear (sc_inner s); sc_stats := sc_stats s |};
  cache_peek now k s := cache_peek now k (sc_inner s);
  cache_contains_key now k s := cache_contains_key now k (sc_inner s);
|}.
End StatsModel.
Arguments StatsCache : clear implicits.

Section StatsTheory.
Context {C : Type} `{!Cache bytes bytes C, !CacheWf C, !CacheLaws bytes bytes C}.

#[global] Instance sc_wf : CacheWf (StatsCache C) := λ s, cache_wf (sc_inner s).

Lemma sc_lift_spec {A} (f : C → C * A) (s : StatsCache C) :
  sc_inner (sc_lift f s).1 = (f (sc_inner s)).1 ∧ (sc_lift f s).2 = (f (sc_inner s)).2.
Proof. unfold sc_lift. by destruct (f (sc_inner s)). Qed.

Lemma sc_get_spec now k (s : StatsCache C) :
  sc_inner (sc_get now k s).1 = (cache_get now k (sc_inner s)).1 ∧
  (sc_get now k s).2 = (cache_get now k (sc_inner s)).2.
Proof. unfold sc_get. by destruct (cache_get now k (sc_inner s)). Qed.

(** Counting lookups changes no answer: the wrapper keeps the laws of its cache. *)
#[global] Instance sc_laws : CacheLaws bytes bytes (StatsCache C).
Proof.
  split; unfold cache_wf, sc_wf; simpl; intros *;
    rewrite ?(proj1 (sc_lift_spec _ _)), ?(proj2 (sc_lift_spec _ _)), ?(proj1 (sc_get_spec _ _ _)),
      ?(proj2 (sc_get_spec _ _ _)).
  - apply cache_get_wf.
  - apply cache_put_wf.
  - apply cache_put_with_ttl_wf.
  - apply cache_remove_wf.
  - apply cache_clear_wf.
  - apply cache_get_hit.
  - apply cache_get_sub.
  - apply cache_put_sub.
  - apply cache_put_with_ttl_sub.
  - apply cache_remove_peek.
  - apply cache_remove_old.
  - apply cache_remove_some.
  - apply cache_clear_peek.
  - apply cache_contains_key_peek.
  - apply cache_peek_expiry.
Qed.

#[global] Instance sc_retains `{!CacheRetains bytes bytes C} : CacheRetains bytes bytes (StatsCache C).
Proof.
  intros t k v s Hwf. simpl. rewrite (proj1 (sc_lift_spec _ _)). by apply cache_put_peek.
Qed.
End StatsTheory.

(** ** [SyncCache] *)
Section SyncModel.
Context {K V C : Type} `{!Cache K V C}.

(** The mutex: a panic of its holder poisons it, and [expect] then panics. *)
Record SyncCache := { sy_inner : C; sy_poisoned : bool }.

Definition sy_new (cache : C) : SyncCache := {| sy_inner := cache; sy_poisoned := false |}.

(** One critical section; [None] is the panic of [expect("mutex poisoned")]. *)
Definition sy_locked {A} (f : C → C * A) (s : SyncCache) : option (SyncCache * A) :=
  if sy_poisoned s then None
  else let '(inner, r) := f (sy_inner s) in Some ({| sy_inner := inner; sy_poisoned := false |}, r).

Definition sy_get (now : Z) (key : K) := sy_locked (cache_get now key).
Definition sy_put (key : K) (v : V) := sy_locked (cache_put key v).
Definition sy_remove (key : K) := sy_locked (cache_remove key).
Definition sy_len := sy_locked (λ c, (c, cache_len c)).
Definition sy_is_empty (s : SyncCache) : option (SyncCache * bool) :=
  '(s, n) ← sy_len s; Some (s, bool_decide (n = 0)).
Definition sy_clear := sy_locked (λ c, (cache_clear c, ())).
End SyncModel.
Arguments SyncCache : clear implicits.

(** ** [ShardedCache] *)
Section ShardedModel.
Context {M : Type → Type} `{!LinkedHashMap bytes M} (hash : bytes → Z).
Abbreviation shard := (LruCache bytes M).

Record ShardedCache := { sh_shards : list shard; sh_mask : Z; sh_shard_cap : nat }.

(** [usize::is_power_of_two] *)
Definition is_power_of_two (n : nat) : bool := bool_decide (0 < n ∧ 2 ^ Nat.log2 n = n).

(** [None] is the panic of the assertion. *)
Definition sh_new (n_shards shard_cap : nat) : option ShardedCache :=
  if bool_decide (0 < n_shards) && is_power_of_two n_shards then
    Some {| sh_shards := replicate n_shards (lru_new shard_cap); sh_mask := Z.of_nat n_shards - 1;
            sh_shard_cap := shard_cap |}
  else None.

Definition sh_n_shards (s : ShardedCache) : nat := length (sh_shards s).

(** [(h.finish() as usize) & self.mask], with the hash a [u64]. *)
Definition sh_shard_index (key : bytes) (s : ShardedCache) : nat :=
  Z.to_nat (Z.land (wrap64 (hash key)) (sh_mask s)).

(** A call on the locked shard of [key]; [None] is an index out of bounds. *)
Definition sh_with {A} (key : bytes) (f : shard → shard * A) (s : ShardedCache) : option (ShardedCache * A) :=
  let idx := sh_shard_index key s in
  c ← sh_shards s !! idx;
  let '(c, r) := f c in
  Some ({| sh_shards := <[idx := c]> (sh_shards s); sh_mask := sh_mask s; sh_shard_cap := sh_shard_cap s |}, r).

Definition sh_get (now : Z) (key : bytes) := sh_with key (lru_get now key).
Definition sh_put (key v : bytes) := sh_with key (λ c, ((lru_put key v c).1, ())).
Definition sh_remove (key : bytes) := sh_with key (lru_remove key).
Definition sh_contains (now : Z) (key : bytes) := sh_with key (λ c, (c, lru_contains now key c)).

Definition sh_len (s : ShardedCache) : nat := sum_list (lru_len <$> sh_shards s).
Definition sh_is_empty (s : ShardedCache) : bool := bool_decide (sh_len s = 0).
Definition sh_clear (s : ShardedCache) : ShardedCache :=
  {| sh_shards := lru_clear <$> sh_shards s; sh_mask := sh_mask s; sh_shard_cap := sh_shard_cap s |}.

Inductive ShOp :=
| ShGet (now : Z) (k : bytes)
| ShPut (k v : bytes)
| ShRemove (k : bytes)
| ShClear.

Definition sh_step (op : ShOp) (s : ShardedCache) : option ShardedCache :=
  match op with
  | ShGet now k => fst <$> sh_get now k s
  | ShPut k v => fst <$> sh_put k v s
  | ShRemove k => fst <$> sh_remove k s
  | ShClear => Some (sh_clear s)
  end.

Fixpoint sh_run (ops : list ShOp) (s : ShardedCache) : option ShardedCache :=
  match ops with
  | [] => Some s
  | op :: ops => s ← sh_step op s; sh_run ops s
  end.

(** What the shard of [key] answers. *)
Definition sh_peek (now : Z) (key : bytes) (s : ShardedCache) : option bytes :=
  sh_shards s !! sh_shard_index key s ≫= lru_peek now key.
End ShardedModel.
Arguments ShardedCache : clear implicits.

Section ShardedTheory.
Context {M : Type → Type} `{!LinkedHashMap bytes M, !LinkedHashMapLaws bytes M} (hash : bytes → Z).
Abbreviation shard := (LruCache bytes M).
Implicit Types (s : ShardedCache M).

Record sh_inv (n cap : nat) (s : ShardedCache M) : Prop := {
  sh_inv_n : length (sh_shards s) = n;
  sh_inv_mask : ∃ j, n = 2 ^ j ∧ sh_mask s = Z.ones (Z.of_nat j);
  sh_inv_shards : Forall (λ c : shard, lru_cap c = cap ∧ lru_bounded c) (sh_shards s);
}.

Lemma sh_new_inv n cap s : sh_new n cap = Some s → sh_inv n cap s.
Proof.
  unfold sh_new, is_power_of_two. repeat case_bool_decide; simpl; try done. intros [= <-].
  split; simpl; [apply length_replicate| |].
  - exists (Nat.log2 n). split; [symmetry; tauto|]. rewrite Z.ones_equiv. destruct H0 as [_ E]. rewrite <-E at 1.
    rewrite Nat2Z.inj_pow. lia.
  - apply Forall_replicate. split; [done|]. unfold lru_bounded, lru_entries. simpl. rewrite lhm_iter_new. simpl. lia.
Qed.

(** The masked hash always names a shard. *)
Lemma sh_index_lt n cap s k : sh_inv n cap s → sh_shard_index hash k s < n.
Proof.
  intros [Hn (j & -> & Hm) _]. unfold sh_shard_index. rewrite Hm, Z.land_ones by lia.
  pose proof (Z.mod_pos_bound (wrap64 (hash k)) (2 ^ Z.of_nat j)). rewrite <-(Nat2Z.id (2 ^ j)), Nat2Z.inj_pow.
  apply Z2Nat.inj_lt; lia.
Qed.

(** A call on a shard changes that shard only. *)
Lemma sh_with_spec {A} n cap s k (f : shard → shard * A) :
  sh_inv n cap s → (∀ c, lru_cap c = cap ∧ lru_bounded c → lru_cap (f c).1 = cap ∧ lru_bounded (f c).1) →
  ∃ c s', sh_shards s !! sh_shard_index hash k s = Some c ∧ sh_with hash k f s = Some (s', (f c).2) ∧
    sh_inv n cap s' ∧ sh_mask s' = sh_mask s ∧
    sh_shards s' = <[sh_shard_index hash k s := (f c).1]> (sh_shards s).
Proof.
  intros Hinv Hf. pose proof (sh_index_lt n cap s k Hinv) as Hlt. pose proof Hinv as [Hn Hm Hall].
  destruct (lookup_lt_is_Some_2 (sh_shards s) (sh_shard_index hash k s)) as [c Hc]; [by rewrite Hn|].
  unfold sh_with. rewrite Hc. simpl. pose proof (Forall_lookup_1 _ _ _ _ Hall Hc) as Hok. specialize (Hf c Hok).
  exists c. destruct (f c) as [c' r]. simpl in *. eexists. split_and!; try done.
  split; simpl; [by rewrite length_insert|done|by apply Forall_insert].
Qed.

Lemma lru_get_keeps cap now k (c : shard) :
  lru_cap c = cap ∧ lru_bounded c → lru_cap (lru_get now k c).1 = cap ∧ lru_bounded (lru_get now k c).1.
Proof.
  intros [Hc Hb]. destruct (lru_get_entries now k c) as (_ & -> & _). split; [done|].
  pose proof (lru_step_bounded (LruGet now k) c Hb) as H. simpl in H. by destruct (lru_get now k c).
Qed.

Lemma lru_put_keeps cap k v (c : shard) :
  lru_cap c = cap ∧ lru_bounded c → lru_cap (lru_put k v c).1 = cap ∧ lru_bounded (lru_put k v c).1.
Proof.
  intros [Hc Hb]. split; [|by apply lru_insert_bounded].
  unfold lru_put. by destruct (lru_insert_entry_entries k (entry_new v) c) as (_ & -> & _).
Qed.

Lemma lru_remove_keeps cap k (c : shard) :
  lru_cap c = cap ∧ lru_bounded c → lru_cap (lru_remove k c).1 = cap ∧ lru_bounded (lru_remove k c).1.
Proof.
  intros [Hc Hb]. split; [|by apply (lru_step_bounded (LruRemove k))].
  by destruct (lru_remove_entries k c) as (_ & -> & _).
Qed.

Lemma sh_step_inv n cap op s : sh_inv n cap s → ∃ s', sh_step hash op s = Some s' ∧ sh_inv n cap s'.
Proof.
  intros Hinv. destruct op as [now k|k v|k|]; simpl.
  - destruct (sh_with_spec n cap s k (lru_get now k) Hinv) as (c & s' & _ & Hs & ? & _); [apply lru_get_keeps|].
    unfold sh_get. rewrite Hs. by exists s'.
  - destruct (sh_with_spec n cap s k (λ c, ((lru_put k v c).1, ())) Hinv) as (c & s' & _ & Hs & ? & _);
      [apply lru_put_keeps|]. unfold sh_put. rewrite Hs. by exists s'.
  - destruct (sh_with_spec n cap s k (lru_remove k) Hinv) as (c & s' & _ & Hs & ? & _); [apply lru_remove_keeps|].
    unfold sh_remove. rewrite Hs. by exists s'.
  - eexists. split; [done|]. destruct Hinv as [Hn Hm Hall]. split; simpl; [by rewrite length_fmap|done|].
    apply Forall_fmap. eapply Forall_impl; [exact Hall|]. intros c [? Hb]. split; [done|].
    by apply (lru_step_bounded LruClear).
Qed.

Lemma sh_run_inv n cap ops s : sh_inv n cap s → ∃ s', sh_run hash ops s = Some s' ∧ sh_inv n cap s'.
Proof.
  revert s. induction ops as [|op ops IH]; intros s Hinv; simpl; [by eauto|].
  destruct (sh_step_inv n cap op s Hinv) as (s1 & -> & ?). by apply IH.
Qed.

Lemma sh_inv_len n cap s : sh_inv n cap s → 0 < cap → sh_len s ≤ n * cap.
Proof.
  intros [<- _ Hall] Hcap. unfold sh_len. induction Hall as [|c l [Hc Hb] _ IH]; [simpl; lia|].
  rewrite fmap_cons. cbn [length foldr]. change (sum_list (?x :: ?l)) with (x + sum_list l).
  assert (lru_len c ≤ cap); [|lia]. unfold lru_len. rewrite lhm_len_iter. rewrite <-Hc. apply Hb. lia.
Qed.

(** A sharded cache can be made exactly with a power-of-two number of shards.
    Any history of calls on it runs without an index out of bounds, and then it
    holds at most [n_shards * shard_cap] entries; [put] makes its pair readable,
    leaves every key of another shard exactly as it was and adds no other pair;
    [get] answers what the key's shard holds, and changes no answer. *)
Theorem sharded_correct (n cap : nat) (ops : list ShOp) now (k v : bytes) s0 :
  sh_new n cap = Some s0 → 0 < cap →
  (∃ j, n = 2 ^ j) ∧
  ∃ s, sh_run hash ops s0 = Some s ∧ sh_len s ≤ n * cap ∧
    (∃ s1, sh_put hash k v s = Some (s1, ()) ∧ sh_peek hash now k s1 = Some v ∧
       (∀ k', sh_shard_index hash k' s ≠ sh_shard_index hash k s → sh_peek hash now k' s1 = sh_peek hash now k' s) ∧
       ∀ k' v', k' ≠ k → sh_peek hash now k' s1 = Some v' → sh_peek hash now k' s = Some v') ∧
    ∃ s1, sh_get hash now k s = Some (s1, sh_peek hash now k s) ∧
      ∀ k', sh_peek hash now k' s1 = sh_peek hash now k' s.
Proof.
  intros Hnew Hcap. apply sh_new_inv in Hnew. split; [by destruct Hnew as [_ (j & ? & _) _]; eauto|].
  destruct (sh_run_inv n cap ops s0 Hnew) as (s & Hs & Hinv). exists s. split_and!; [done|by apply sh_inv_len|..].
  - destruct (sh_with_spec n cap s k (λ c, ((lru_put k v c).1, ())) Hinv) as (c & s1 & Hc & Hp & Hinv1 & Hm & Hsh);
      [apply lru_put_keeps|]. exists s1. simpl in *.
    assert (∀ k', sh_shard_index hash k' s1 = sh_shard_index hash k' s) as Hidx
      by (intros; unfold sh_shard_index; by rewrite Hm).
    assert (sh_shard_index hash k s < length (sh_shards s)) by (rewrite (sh_inv_n _ _ _ Hinv); by eapply sh_index_lt).
    split_and!; [done| | |].
    + unfold sh_peek. rewrite Hidx, Hsh, list_lookup_insert_eq by done. simpl. exact (cache_put_peek (K:=bytes) (V:=bytes) (C:=shard) now k v c I).
    + intros k' Hne. unfold sh_peek. rewrite Hidx, Hsh. by rewrite list_lookup_insert_ne.
    + intros k' v' Hne. unfold sh_peek. rewrite Hidx, Hsh.
      destruct (decide (sh_shard_index hash k' s = sh_shard_index hash k s)) as [->|Hi];
        [|by rewrite list_lookup_insert_ne by done].
      rewrite list_lookup_insert_eq by done. rewrite Hc. simpl. intros Hv.
      pose proof (cache_put_sub (K:=bytes) (V:=bytes) (C:=shard) now k v k' v' c I) as Hsub.
      destruct (Hsub Hv) as [[]|[]]; naive_solver.
  - destruct (sh_with_spec n cap s k (lru_get now k) Hinv) as (c & s1 & Hc & Hp & Hinv1 & Hm & Hsh);
      [apply lru_get_keeps|]. exists s1. destruct (lru_get_entries now k c) as (He & _ & Hr). split.
    + unfold sh_get. rewrite Hp, Hr. unfold sh_peek. rewrite Hc. simpl. by rewrite lru_peek_entries.
    + intros k'. unfold sh_peek. assert (sh_shard_index hash k' s1 = sh_shard_index hash k' s) as ->
        by (unfold sh_shard_index; by rewrite Hm). rewrite Hsh.
      destruct (decide (sh_shard_index hash k' s = sh_shard_index hash k s)) as [->|Hi];
        [|by rewrite list_lookup_insert_ne by done].
      rewrite list_lookup_insert_eq by (rewrite (sh_inv_n _ _ _ Hinv); by eapply sh_index_lt).
      rewrite Hc. simpl. rewrite !lru_peek_entries, He.
      destruct (opt_expired now _) eqn:Ex; [|by rewrite assoc_to_back_lookup].
      destruct (decide (k = k')) as [<-|]; [|by rewrite assoc_remove_ne].
      rewrite assoc_remove_eq. by rewrite (live_value_expired (assoc k (lru_entries c)) now) by (done || lia).
Qed.
End ShardedTheory.

(** ** [CacheBuilder] *)
Inductive CachePolicy := PolicyLru | PolicyArc | PolicyLfu | PolicyWTinyLfu.

Record CacheBuilder := {
  cb_capacity : nat;
  cb_policy : CachePolicy;
  cb_max_bytes : option nat;
  cb_n_shards : option nat;
}.

Definition cb_new (capacity : nat) : CacheBuilder :=
  {| cb_capacity := capacity; cb_policy := PolicyLru; cb_max_bytes := None; cb_n_shards := None |}.

Definition cb_set_policy (p : CachePolicy) (b : CacheBuilder) : CacheBuilder :=
  {| cb_capacity := cb_capacity b; cb_policy := p; cb_max_bytes := cb_max_bytes b; cb_n_shards := cb_n_shards b |}.
Definition cb_set_max_bytes (n : nat) (b : CacheBuilder) : CacheBuilder :=
  {| cb_capacity := cb_capacity b; cb_policy := cb_policy b; cb_max_bytes := Some n; cb_n_shards := cb_n_shards b |}.
Definition cb_set_n_shards (n : nat) (b : CacheBuilder) : CacheBuilder :=
  {| cb_capacity := cb_capacity b; cb_policy := cb_policy b; cb_max_bytes := cb_max_bytes b; cb_n_shards := Some n |}.

Section Builder.
Context {M : Type → Type} `{!LinkedHashMap bytes M}.

Definition build_lru (b : CacheBuilder) : LruCache bytes M := lru_new (cb_capacity b).

Definition build_arc (b : CacheBuilder) : ArcCache bytes M := arc_new (cb_capacity b).
Definition build_lfu (b : CacheBuilder) : LfuCache bytes bytes M := lfu_new (cb_capacity b).
Definition build_wtinylfu (b : CacheBuilder) : WTinyLfuCache bytes bytes M := tl_new (cb_capacity b).

Definition build_bounded_lru (b : CacheBuilder) : BoundedCache (LruCache bytes M) :=
  bd_new (lru_new (cb_capacity b)) (default (cb_capacity b * 64) (cb_max_bytes b)).

(** [None] is a panic: the division by zero or the assertion of [ShardedCache::new]. *)
Definition build_sharded (b : CacheBuilder) : option (ShardedCache M) :=
  let n := default 8 (cb_n_shards b) in
  if bool_decide (n = 0) then None else sh_new n (Nat.max (cb_capacity b / n) 1).
End Builder.

(** ** Witnesses and concrete histories *)
Abbreviation lru_bytes := (LruCache bytes (λ V, list (bytes * V))).

Definition b4 (x : byte) : bytes := [x; x; x; x].

Lemma lru_new_empty cap i k : cache_peek i k (lru_new cap : lru_bytes) = None.
Proof. done. Qed.

Lemma bounded_budget_holds_witness :
  ∃ b : BoundedCache lru_bytes,
    bd_run [BdPut 0 (b4 x61) (b4 x01); BdPut 0 (b4 x62) (b4 x02); BdResize 1] (bd_new (lru_new 2) 8) = Some b ∧
    bd_max_bytes b = 8 ∧
    ∀ i keys, NoDup keys →
      held_bytes i keys (bd_inner b) ≤ 8 ∧ held_bytes i keys (bd_inner b) ≤ bd_current_bytes b.
Proof.
  apply (bounded_budget_holds [BdPut 0 (b4 x61) (b4 x01); BdPut 0 (b4 x62) (b4 x02); BdResize 1] (lru_new 2 : lru_bytes) 8).
  - exact I.
  - intros i k. apply lru_new_empty.
  - repeat constructor; vm_compute; lia.
Defined.

(** The counter leaks.  A key whose entry has expired is re-inserted three
    times: each time its old size stays in [current_bytes] for good.  From then on
    a cache with room for four 8-byte entries reports a full budget and keeps one
    entry at a time, although nothing else is stored. *)
Theorem bounded_counter_leaks :
  let ttl k now := BdPutTtl now (b4 k) (b4 x00) 10 in
  ∃ b : BoundedCache lru_bytes,
    bd_run [ttl x61 0%Z; ttl x61 20%Z; ttl x61 40%Z; ttl x61 60%Z;
            BdPut 80 (b4 x62) (b4 x00); BdPut 80 (b4 x63) (b4 x00)] (bd_new (lru_new 100) 32) = Some b ∧
    bd_len b = 1 ∧ bd_current_bytes b = 32 ∧ bd_peek 80 (b4 x62) b = None ∧
    ∀ x, bd_len (bd_put 80 (b4 x) (b4 x00) b).1 = 1.
Proof. intros ttl. eexists. split; [vm_compute; reflexivity|]. split_and!; vm_compute; reflexivity. Qed.

Definition sh_demo_hash (k : bytes) : Z := Z.of_nat (length k).

Lemma sharded_correct_witness :
  ∃ s : ShardedCache (λ V, list (bytes * V)),
    sh_run sh_demo_hash [ShPut [x61] [x01]; ShPut [x61; x62] [x02]]
      {| sh_shards := [lru_new 1; lru_new 1]; sh_mask := 1; sh_shard_cap := 1 |} = Some s ∧ sh_len s ≤ 2.
Proof.
  destruct (sharded_correct sh_demo_hash 2 1 [ShPut [x61] [x01]; ShPut [x61; x62] [x02]] 0 [x61] [x03]
    {| sh_shards := [lru_new 1; lru_new 1 : lru_bytes]; sh_mask := 1; sh_shard_cap := 1 |})
    as [_ (s & H1 & H2 & _)].
  - vm_compute. reflexivity.
  - lia.
  - exists s. split; [exact H1|exact H2].
Defined.

(** ** Tasks that fill a cache together

    [get_or_insert_async] and its [tokio] twin of [oxistore-cache]: two critical sections
    with the loader between them, outside the lock.  Several tasks asking for the same key
    are a transition system whose steps are the critical sections, in any order the lock
    admits; the waiting of a task is a step that does not come. *)

Inductive TaskState (V : Type) := Start | Loading | Done (v : V).
Arguments Start {V}.
Arguments Loading {V}.
Arguments Done {V} v.

Section Tasks.
Context {K V C : Type} `{!Cache K V C}.
Context (key : K) (loader : nat → V).

(** [others] is what other holders of the mutex do to the cache while the loader runs. *)
Definition get_or_insert_async (now now' : Z) (loaded : V) (others : C → C) (c : C) : C * V :=
  match goi_async_lookup now key c with
  | (c, Some v) => (c, v)
  | (c, None) => goi_async_store now' key loaded (others c)
  end.

(** The [tokio] function, in its own lines: under the lock [get]; the loader; under the lock
    [peek], and [put] when nothing is there. *)
Definition get_or_insert_async_tokio (now now' : Z) (value : V) (others : C → C) (c : C) : C * V :=
  match cache_get now key c with
  | (guard, Some v) => (guard, v)
  | (guard, None) =>
      let guard := others guard in
      match cache_peek now' key guard with
      | Some existing => (guard, existing)
      | None => ((cache_put key value guard).1, value)
      end
  end.

(** The two futures differ in the mutex only. *)
Lemma get_or_insert_async_tokio_std now now' v others c :
  get_or_insert_async_tokio now now' v others c = get_or_insert_async now now' v others c.
Proof.
  unfold get_or_insert_async_tokio, get_or_insert_async, goi_async_lookup, goi_async_store.
  by destruct (cache_get now key c) as [c1 [w|]].
Qed.

(** The next critical section of a task: the lookup, then the store of what its loader
    returned. *)
Definition task_advance (i : nat) (now : Z) (t : TaskState V) (c : C) : TaskState V * C :=
  match t with
  | Start => match goi_async_lookup now key c with (c, Some v) => (Done v, c) | (c, None) => (Loading, c) end
  | Loading => let '(c, v) := goi_async_store now key (loader i) c in (Done v, c)
  | Done v => (Done v, c)
  end.

Fixpoint run_tasks (schedule : list (nat * Z)) (ts : list (TaskState V)) (c : C) : list (TaskState V) * C :=
  match schedule with
  | [] => (ts, c)
  | (i, now) :: schedule =>
      match ts !! i with
      | Some t => let '(t, c) := task_advance i now t c in run_tasks schedule (<[i:=t]> ts) c
      | None => run_tasks schedule ts c
      end
  end.

(** A call on its own is a task of its own. *)
Lemma get_or_insert_async_alone now now' c c' v : get_or_insert_async now now' (loader 0) id c = (c', v) →
  run_tasks [(0, now); (0, now')] [Start] c = ([Done v], c').
Proof.
  unfold get_or_insert_async. simpl. destruct (goi_async_lookup now key c) as [c1 [w|]]; simpl; [by intros [= <- <-]|].
  destruct (goi_async_store now' key (loader 0) c1) as [c2 w]. by intros [= <- <-].
Qed.

Context `{!CacheWf C, !CacheLaws K V C, !CacheRetains K V C, !CacheLossless K V C}.

(** What the tasks have agreed on so far: nothing while the key is absent. *)
Definition agreed (o : option V) (ts : list (TaskState V)) (c : C) : Prop :=
  cache_wf c ∧ cache_timeless c ∧ cache_peek 0 key c = o ∧ ∀ i v, ts !! i = Some (Done v) → o = Some v.

Lemma timeless_peek (c : C) t k : cache_timeless c → cache_peek t k c = cache_peek 0 k c.
Proof. intros H. apply H. Qed.

Lemma get_timeless now k (c : C) : cache_wf c → cache_timeless c → cache_timeless (cache_get now k c).1.
Proof.
  intros Hwf Ht i i' k'. rewrite (proj2 (cache_get_exact now i k k' c Hwf Ht)), (proj2 (cache_get_exact now i' k k' c Hwf Ht)). apply Ht.
Qed.

Lemma agreed_step o ts c i now t t' c' : agreed o ts c → ts !! i = Some t → task_advance i now t c = (t', c') →
  ∃ o', agreed o' (<[i:=t']> ts) c' ∧ (∀ v, o = Some v → o' = Some v) ∧ (o = None → o' = None ∨ o' = Some (loader i)).
Proof.
  intros (Hwf & Ht & Hp & Hd) Hi. destruct t as [| |v]; simpl.
  - unfold goi_async_lookup. destruct (cache_get now key c) as [c1 r] eqn:Eg.
    destruct (cache_get_exact now 0 key key c Hwf Ht) as [Hr Hp']. pose proof (get_timeless now key c Hwf Ht) as Ht'.
    pose proof (cache_get_wf now key c Hwf) as Hwf'. rewrite Eg in Hr, Hp', Ht', Hwf'. simpl in Hr, Hp', Ht', Hwf'.
    intros E. assert (c' = c1) as -> by (destruct r; by injection E). exists o. split; [|naive_solver].
    split_and!; [done|done|congruence|]. intros j v Hj. apply list_lookup_insert_Some in Hj as [(<- & Hj & _)|[_ Hj]]; [|by eapply Hd].
    destruct r as [w|]; simplify_eq. congruence.
  - unfold goi_async_store. rewrite (timeless_peek _ _ _ Ht), Hp. destruct o as [w|]; intros [= <- <-].
    + exists (Some w). split; [|naive_solver]. split_and!; [done|done|done|].
      intros j v Hj. apply list_lookup_insert_Some in Hj as [(<- & [= <-] & _)|[_ Hj]]; [done|by eapply Hd].
    + exists (Some (loader i)). split; [|naive_solver]. split_and!; [by apply cache_put_wf|by apply cache_put_timeless|by apply cache_put_peek|].
      intros j v Hj. apply list_lookup_insert_Some in Hj as [(<- & [= <-] & _)|[_ Hj]]; [done|]. by specialize (Hd _ _ Hj).
  - intros [= <- <-]. exists o. split; [|naive_solver]. split_and!; [done|done|done|].
    intros j w Hj. apply list_lookup_insert_Some in Hj as [(<- & [= <-] & _)|[_ Hj]]; by eapply Hd.
Qed.

Lemma agreed_run schedule o ts c ts' c' : agreed o ts c → run_tasks schedule ts c = (ts', c') →
  ∃ o', agreed o' ts' c' ∧ match o with Some v => o' = Some v | None => o' = None ∨ ∃ i, o' = Some (loader i) end.
Proof.
  revert o ts c. induction schedule as [|[i now] schedule IH]; intros o ts c Hag Hrun; simpl in Hrun.
  { injection Hrun as <- <-. exists o. split; [done|]. destruct o; auto. }
  destruct (ts !! i) as [t|] eqn:Hi; [|by eapply IH]. destruct (task_advance i now t c) as [t1 c1] eqn:Es.
  destruct (agreed_step _ _ _ _ _ _ _ _ Hag Hi Es) as (o1 & Hag1 & Hkeep & Hnew). destruct (IH _ _ _ Hag1 Hrun) as (o' & Hag' & Ho').
  exists o'. split; [done|]. destruct o as [v|].
  - by rewrite (Hkeep v eq_refl) in Ho'.
  - destruct (Hnew eq_refl) as [-> | ->]; [done|]. right. by exists i.
Qed.

(** A whole call among the tasks: it returns what was agreed on, and what it returns is
    in the cache. *)
Lemma agreed_call o ts c i now now' schedule : agreed o ts c →
  let r := get_or_insert_async now now' (loader i) (λ c, (run_tasks schedule ts c).2) c in
  (∀ t, cache_peek t key r.1 = Some r.2) ∧ ∀ v, o = Some v → r.2 = v.
Proof.
  intros Hag. pose proof Hag as (Hwf & Ht & Hp & Hd). unfold get_or_insert_async, goi_async_lookup.
  destruct (cache_get now key c) as [c1 r] eqn:Eg.
  destruct (cache_get_exact now 0 key key c Hwf Ht) as [Hr Hp']. pose proof (get_timeless now key c Hwf Ht) as Ht'.
  pose proof (cache_get_wf now key c Hwf) as Hwf'. rewrite Eg in Hr, Hp', Ht', Hwf'. simpl in Hr, Hp', Ht', Hwf'.
  destruct r as [w|]; simpl.
  { split; [intros t; rewrite (timeless_peek _ _ _ Ht'); congruence|intros v Hv; congruence]. }
  destruct (run_tasks schedule ts c1) as [ts2 c2] eqn:Er.
  destruct (agreed_run schedule o ts c1 ts2 c2) as (o2 & (Hwf2 & Ht2 & Hp2 & _) & _); [|done|].
  { split_and!; [done|done|congruence|done]. }
  assert (o = None) as -> by congruence. simpl. unfold goi_async_store.
  destruct (cache_peek now' key c2) as [w|] eqn:E2; simpl.
  - split; [|done]. intros t. by rewrite (timeless_peek _ t _ Ht2), <-(timeless_peek _ now' _ Ht2).
  - split; [|done]. intros t. by apply cache_put_peek.
Qed.

(** C31: On a cache whose entries have no deadlines, which keeps what is put until room is
    needed and loses nothing on a lookup (the LRU cache does): however the critical
    sections of tasks that ask for one key are interleaved, all tasks that finish return
    the same value: the cached one if there was one, and otherwise the one that some task
    loaded, which is then in the cache; what other tasks loaded meanwhile is dropped.  A
    further call of [get_or_insert_async] or of [get_or_insert_async_tokio], with any
    sections of the tasks while it loads, returns that value too, and what it returns is
    in the cache. *)
Theorem tasks_agree schedule ts (c : C) ts' c' :
  cache_wf c → cache_timeless c → (∀ i v, ts !! i ≠ Some (Done v)) → run_tasks schedule ts c = (ts', c') →
  ∃ o, (∀ i v, ts' !! i = Some (Done v) → o = Some v) ∧ (∀ now, cache_peek now key c' = o) ∧
    match cache_peek 0 key c with Some v => o = Some v | None => o = None ∨ ∃ i, o = Some (loader i) end ∧
    ∀ i now now' schedule', let others c := (run_tasks schedule' ts' c).2 in
      ∀ call, call = get_or_insert_async ∨ call = get_or_insert_async_tokio →
        let r := call now now' (loader i) others c' in
        (∀ t, cache_peek t key r.1 = Some r.2) ∧ ∀ v, o = Some v → r.2 = v.
Proof.
  intros Hwf Ht Hnone Hrun. destruct (agreed_run schedule (cache_peek 0 key c) ts c ts' c') as (o & Hag & Ho); [|done|].
  { split_and!; [done|done|done|]. intros i v Hi. by destruct (Hnone i v). }
  exists o. destruct Hag as (Hwf' & Ht' & Hp & Hd). split_and!; [done| |done|].
  - intros now. by rewrite (timeless_peek _ _ _ Ht').
  - intros i now now' schedule' others call [-> | ->]; cbv zeta; [|rewrite get_or_insert_async_tokio_std];
      apply (agreed_call o ts' c' i now now' schedule'); done.
Qed.
End Tasks.

(** ** Three tasks on an LRU cache *)
Abbreviation lru_nat := (LruCache nat (λ V, list (nat * V))).
Definition demo_schedule : list (nat * Z) := [(0, 1%Z); (1, 2%Z); (1, 3%Z); (2, 4%Z); (0, 5%Z)].
Definition demo_tasks : list (TaskState nat) * lru_nat := run_tasks 7 (λ i, 10 + i) demo_schedule [Start; Start; Start] (lru_new 1 : lru_nat).

Lemma tasks_agree_witness :
  demo_tasks.1 = [Done 11; Done 11; Done 11] ∧ ∃ o, (∀ now, cache_peek now 7 demo_tasks.2 = o) ∧
    ∀ v, o = Some v →
      (get_or_insert_async_tokio 7 6 6 (10 + 3) (λ c, (run_tasks 7 (λ i, 10 + i) [] demo_tasks.1 c).2) demo_tasks.2).2 = v.
Proof.
  split; [vm_compute; reflexivity|].
  destruct (tasks_agree 7 (λ i, 10 + i) demo_schedule [Start; Start; Start] (lru_new 1 : lru_nat) demo_tasks.1 demo_tasks.2) as (o & _ & Ho & _ & Hc).
  - exact I.
  - intros i i' k. reflexivity.
  - intros [|[|[|i]]] v; discriminate.
  - apply surjective_pairing.
  - exists o. split; [exact Ho|]. exact (proj2 (Hc 3 6%Z 6%Z [] (get_or_insert_async_tokio 7) (or_intror eq_refl))).
Defined.
