(* ===== verification/StoreSpec.v ===== *)
(** * The specification the storage backends share

    The abstract state of a backend is a pair of maps, the entries and the
    expiries; [abs_step] is what each operation of the [KvStore] trait promises on
    it, and [visible] what a reader sees at an instant.  The three backends
    ([Redb.v], [Sled.v], [Fjall.v]) write their scans as the same loops and buffer
    the writes of a transaction in the same overlay; both are here with their
    lemmas. *)

From S2P Require Import Prelude Bytes Core.

(** ** Results of an engine, as errors of the store *)

Abbreviation engine_result A := (result A string).

(** [map_err(|e| StoreError::Other(e.to_string()))] *)
Definition other {A} (r : engine_result A) : store_result A := map_err Other r.

Lemma other_Ok {A} (r : engine_result A) a : other r = Ok a → r = Ok a.
Proof. destruct r; simpl; congruence. Qed.

(** ** The abstract store *)

Record AbsStore := { a_data : gmap bytes bytes; a_ttl : gmap bytes Z }.

Definition expired_key (now : Z) (ttl : gmap bytes Z) (k : bytes) : bool :=
  match ttl !! k with Some e => is_expired now e | None => false end.

(** What a reader sees at an instant. *)
Definition visible (now : Z) (a : AbsStore) : gmap bytes bytes :=
  filter (λ kv, expired_key now (a_ttl a) kv.1 = false) (a_data a).

Definition abs_put (k v : bytes) (a : AbsStore) : AbsStore :=
  {| a_data := <[k:=v]> (a_data a); a_ttl := delete k (a_ttl a) |}.

Definition abs_delete (k : bytes) (a : AbsStore) : AbsStore :=
  {| a_data := delete k (a_data a); a_ttl := delete k (a_ttl a) |}.

Definition abs_put_ttl (k v : bytes) (e : Z) (a : AbsStore) : AbsStore :=
  {| a_data := <[k:=v]> (a_data a); a_ttl := <[k:=e]> (a_ttl a) |}.

Definition abs_set_ttl (k : bytes) (e : Z) (a : AbsStore) : AbsStore :=
  {| a_data := a_data a; a_ttl := <[k:=e]> (a_ttl a) |}.

Definition abs_del_ttl (k : bytes) (a : AbsStore) : AbsStore :=
  {| a_data := a_data a; a_ttl := delete k (a_ttl a) |}.

(** The keys whose expiry has passed, in order. *)
Definition abs_expired (now : Z) (a : AbsStore) : list bytes :=
  (List.filter (λ ke, is_expired now ke.2) (btree_iter (a_ttl a))).*1.

(** The specification of [is_expired] on all keys of a batch. *)
Fixpoint abs_puts (pairs : list (bytes * bytes)) (a : AbsStore) : AbsStore :=
  match pairs with [] => a | (k, v) :: pairs => abs_puts pairs (abs_put k v a) end.

Fixpoint abs_deletes (keys : list bytes) (a : AbsStore) : AbsStore :=
  match keys with [] => a | k :: keys => abs_deletes keys (abs_delete k a) end.

Definition abs_empty : AbsStore := {| a_data := ∅; a_ttl := ∅ |}.

(** ** Operations and their specification *)

Inductive StoreOp :=
| OpGet (k : bytes)
| OpPut (k v : bytes)
| OpDelete (k : bytes)
| OpRange (lo hi : bytes)
| OpPrefixScan (p : bytes)
| OpIter
| OpKeys
| OpCount
| OpBatchWrite (pairs : list (bytes * bytes))
| OpBatchDelete (keys : list bytes)
| OpPutWithTtl (k v : bytes) (ttl : Z)
| OpExpire (k : bytes) (ttl : Z)
| OpTtl (k : bytes)
| OpPersist (k : bytes)
| OpPurgeExpired.

#[global] Instance StoreOp_eq_dec : EqDecision StoreOp.
Proof. solve_decision. Defined.

Inductive StoreOut :=
| OutUnit | OutValue (o : option bytes) | OutItems (l : list RangeItem)
| OutKeys (l : list (store_result bytes)) | OutCount (n : nat) | OutTtl (o : option Z)
| OutBool (b : bool).

Definition abs_step (now : Z) (op : StoreOp) (a : AbsStore) : AbsStore * store_result StoreOut :=
  match op with
  | OpGet k =>
      if expired_key now (a_ttl a) k then (abs_delete k a, Ok (OutValue None))
      else (a, Ok (OutValue (a_data a !! k)))
  | OpPut k v => (abs_put k v a, Ok OutUnit)
  | OpDelete k => (abs_delete k a, Ok OutUnit)
  | OpRange lo hi => (a, Ok (OutItems (map Ok (btree_between lo hi (visible now a)))))
  | OpPrefixScan p => (a, Ok (OutItems (map Ok (with_prefix p (visible now a)))))
  | OpIter => (a, Ok (OutItems (map Ok (btree_iter (visible now a)))))
  | OpKeys => (a, Ok (OutKeys (map Ok (btree_iter (visible now a)).*1)))
  | OpCount => (a, Ok (OutCount (size (visible now a))))
  | OpBatchWrite pairs => (abs_puts pairs a, Ok OutUnit)
  | OpBatchDelete keys => (abs_deletes keys a, Ok OutUnit)
  | OpPutWithTtl k v ttl =>
      match expiry_epoch_millis now ttl with
      | Ok e => (abs_put_ttl k v e a, Ok OutUnit)
      | Err e => (a, Err e)
      end
  | OpExpire k ttl =>
      match a_data a !! k, expiry_epoch_millis now ttl with
      | None, _ => (a, Err KeyNotFound)
      | Some _, Ok e => (abs_set_ttl k e a, Ok OutUnit)
      | Some _, Err e => (a, Err e)
      end
  | OpTtl k =>
      match a_data a !! k, a_ttl a !! k with
      | None, _ => (a, Err KeyNotFound)
      | Some _, None => (a, Ok (OutTtl None))
      | Some _, Some e =>
          if is_expired now e then (abs_delete k a, Err KeyNotFound)
          else match duration_since_epoch now with
               | Ok d => (a, Ok (OutTtl (Some (e - as_millis_u64 d)%Z)))
               | Err e => (a, Err (Other e))
               end
      end
  | OpPersist k =>
      match a_data a !! k, a_ttl a !! k with
      | None, _ => (a, Err KeyNotFound)
      | Some _, None => (a, Ok (OutBool false))
      | Some _, Some _ => (abs_del_ttl k a, Ok (OutBool true))
      end
  | OpPurgeExpired => (abs_deletes (abs_expired now a) a, Ok (OutCount (length (abs_expired now a))))
  end.

(** A result that reports a failure: an error, or an error among the keys. *)
Definition engine_failed (r : store_result StoreOut) : Prop :=
  match r with
  | Err _ => True
  | Ok (OutKeys l) => ∃ e, Err e ∈ l
  | Ok _ => False
  end.

(** A history is a list of operations with the clock reading of each. *)
Fixpoint abs_run (ops : list (Z * StoreOp)) (a : AbsStore) : AbsStore * list (store_result StoreOut) :=
  match ops with
  | [] => (a, [])
  | (now, op) :: ops =>
      let '(a1, r) := abs_step now op a in
      let '(a2, rs) := abs_run ops a1 in (a2, r :: rs)
  end.

(** ** What is visible *)

Lemma visible_lookup now a k :
  visible now a !! k = if expired_key now (a_ttl a) k then None else a_data a !! k.
Proof.
  unfold visible. apply option_eq. intros v. rewrite map_lookup_filter_Some. simpl.
  destruct (expired_key now (a_ttl a) k); naive_solver.
Qed.

Lemma expired_key_delete now ttl k k' :
  expired_key now (delete k ttl) k' = if decide (k' = k) then false else expired_key now ttl k'.
Proof.
  unfold expired_key. case_decide; [subst; by rewrite lookup_delete_eq|by rewrite lookup_delete_ne].
Qed.

Lemma visible_put now k v a : visible now (abs_put k v a) = <[k:=v]> (visible now a).
Proof.
  apply map_eq. intros k'. rewrite visible_lookup. unfold abs_put. simpl. rewrite expired_key_delete.
  case_decide; [subst; by rewrite !lookup_insert_eq|].
  rewrite !lookup_insert_ne by done. by rewrite visible_lookup.
Qed.

Lemma visible_delete now k a : visible now (abs_delete k a) = delete k (visible now a).
Proof.
  apply map_eq. intros k'. rewrite visible_lookup. unfold abs_delete. simpl. rewrite expired_key_delete.
  case_decide; [subst; by rewrite !lookup_delete_eq|].
  rewrite !lookup_delete_ne by done. by rewrite visible_lookup.
Qed.

Lemma is_expired_later now t e : later now t → is_expired now e = true → is_expired t e = true.
Proof. unfold later, is_expired. rewrite !Z.leb_le. lia. Qed.

(** Evicting an expired key is invisible, then and later. *)
Lemma visible_evict now t k a :
  expired_key now (a_ttl a) k = true → later now t → visible t (abs_delete k a) = visible t a.
Proof.
  intros He Ht. rewrite visible_delete. apply delete_id. rewrite visible_lookup.
  unfold expired_key in *. destruct (a_ttl a !! k); [|done]. by rewrite (is_expired_later now t).
Qed.

Lemma btree_iter_visible now a :
  List.filter (λ kv, negb (expired_key now (a_ttl a) kv.1)) (btree_iter (a_data a)) =
  btree_iter (visible now a).
Proof.
  rewrite btree_iter_filter. f_equal. unfold visible. apply map_filter_ext.
  intros k v _. simpl. by destruct (expired_key now (a_ttl a) k).
Qed.

Lemma filter_comm_bool {A} (f g : A → bool) l :
  List.filter f (List.filter g l) = List.filter g (List.filter f l).
Proof.
  induction l as [|x l IH]; simpl; [done|].
  destruct (f x) eqn:Ef, (g x) eqn:Eg; simpl; rewrite ?Ef, ?Eg, IH; done.
Qed.

Lemma btree_between_visible now lo hi a :
  List.filter (λ kv, negb (expired_key now (a_ttl a) kv.1)) (btree_between lo hi (a_data a)) =
  btree_between lo hi (visible now a).
Proof. unfold btree_between. by rewrite filter_comm_bool, btree_iter_visible. Qed.

Lemma btree_from_prefix {A} (p : bytes) (m : gmap bytes A) :
  prefix_upper_bound p = None →
  btree_from p m = List.filter (λ kv, starts_with kv.1 p) (btree_iter m).
Proof.
  intros Hp. unfold btree_from. apply List.filter_ext. intros [k v]. by apply prefix_upper_bound_None.
Qed.

Lemma with_prefix_visible now p a :
  List.filter (λ kv, negb (expired_key now (a_ttl a) kv.1))
    (List.filter (λ kv, starts_with kv.1 p) (btree_iter (a_data a))) = with_prefix p (visible now a).
Proof. unfold with_prefix. by rewrite filter_comm_bool, btree_iter_visible. Qed.

(** [redb] hides the overflow of [expiry - now]: an unexpired entry lies ahead. *)
Lemma unexpired_ahead now e : is_expired now e = false → (epoch_millis now ≤ e)%Z.
Proof. unfold is_expired. rewrite Z.leb_gt. lia. Qed.

(** A failed operation of the specification changes nothing visible from then on. *)
Lemma abs_step_err now op a a' e t :
  abs_step now op a = (a', Err e) → later now t → visible t a' = visible t a.
Proof.
  intros H Ht. destruct op; simpl in H; repeat split_match; simplify_eq; try done.
  apply (visible_evict now); [|done]. unfold expired_key.
  match goal with E : a_ttl a !! _ = Some _ |- _ => by rewrite E end.
Qed.

(** Deleting a batch, key by key. *)
Lemma abs_deletes_lookup keys a k :
  (k ∈ keys → a_data (abs_deletes keys a) !! k = None ∧ a_ttl (abs_deletes keys a) !! k = None) ∧
  (k ∉ keys → a_data (abs_deletes keys a) !! k = a_data a !! k ∧
              a_ttl (abs_deletes keys a) !! k = a_ttl a !! k).
Proof.
  revert a. induction keys as [|k0 keys IH]; intros a; simpl; [set_solver|].
  specialize (IH (abs_delete k0 a)). destruct (decide (k ∈ keys)) as [Hin|Hin]; [set_solver|].
  destruct IH as [_ IH]. specialize (IH Hin). unfold abs_delete, a_data, a_ttl in IH. fold a_data a_ttl in IH.
  rewrite elem_of_cons. split; intros Hk.
  - destruct Hk as [->|?]; [|done]. by rewrite !lookup_delete_eq in IH.
  - by rewrite !lookup_delete_ne in IH by naive_solver.
Qed.

Lemma elem_of_abs_expired now a k :
  k ∈ abs_expired now a ↔ expired_key now (a_ttl a) k = true.
Proof.
  unfold abs_expired, expired_key. rewrite list_elem_of_fmap. split.
  - intros ([k' e] & -> & [Hin He]%elem_of_list_filter_bool). rewrite elem_of_btree_iter in Hin.
    simpl in *. by rewrite Hin.
  - intros H. destruct (a_ttl a !! k) as [e|] eqn:E; [|done]. exists (k, e). split; [done|].
    by rewrite elem_of_list_filter_bool, elem_of_btree_iter.
Qed.

(** Purging removes exactly the expired keys. *)
Lemma purged_lookup now a k :
  let a' := abs_deletes (abs_expired now a) a in
  a_data a' !! k = (if expired_key now (a_ttl a) k then None else a_data a !! k) ∧
  a_ttl a' !! k = (if expired_key now (a_ttl a) k then None else a_ttl a !! k).
Proof.
  simpl. destruct (abs_deletes_lookup (abs_expired now a) a k) as [H1 H2].
  rewrite elem_of_abs_expired in H1, H2. destruct (expired_key now (a_ttl a) k); auto.
Qed.

Lemma purged_visible now t a :
  later now t → visible t (abs_deletes (abs_expired now a) a) = visible t a.
Proof.
  intros Ht. apply map_eq. intros k. rewrite !visible_lookup. destruct (purged_lookup now a k) as [Hd Htl].
  unfold expired_key at 1. rewrite Hd, Htl. destruct (expired_key now (a_ttl a) k) eqn:Ex; [|done].
  unfold expired_key in *. destruct (a_ttl a !! k); [|done]. by rewrite (is_expired_later now t).
Qed.

Lemma purged_expired now a : abs_expired now (abs_deletes (abs_expired now a) a) = [].
Proof.
  destruct (abs_expired now (abs_deletes (abs_expired now a) a)) as [|k l] eqn:E; [done|].
  assert (k ∈ abs_expired now (abs_deletes (abs_expired now a) a)) as Hk by (rewrite E; set_solver).
  apply elem_of_abs_expired in Hk. destruct (purged_lookup now a k) as [_ Htl].
  unfold expired_key in Hk. rewrite Htl in Hk.
  destruct (expired_key now (a_ttl a) k) eqn:Ex; [done|]. unfold expired_key in Ex.
  destruct (a_ttl a !! k); congruence.
Qed.

(** ** The loops of the scans *)

(** The loop [for item in it { .. if is_ttl_expired(..)? { continue; } pairs.push(..) }]
    with the expiry check as an argument. *)
Fixpoint scan_loop (expired : bytes → store_result bool)
    (items : list (engine_result (bytes * bytes))) : store_result (list RangeItem) :=
  match items with
  | [] => Ok []
  | item :: items =>
      let? (k, v) := other item in
      let? ex := expired k in
      if ex : bool then scan_loop expired items
      else let? pairs := scan_loop expired items in Ok (Ok (k, v) :: pairs)
  end.

Fixpoint count_loop (expired : bytes → store_result bool) (count : nat)
    (items : list (engine_result (bytes * bytes))) : store_result nat :=
  match items with
  | [] => Ok count
  | item :: items =>
      let? (k, v) := other item in
      let? ex := expired k in
      if ex : bool then count_loop expired count items else count_loop expired (count + 1) items
  end.

(** [keys] reports errors as items and goes on. *)
Fixpoint keys_loop (expired : bytes → store_result bool)
    (items : list (engine_result (bytes * bytes))) : list (store_result bytes) :=
  match items with
  | [] => []
  | Ok (k, _) :: items =>
      match expired k with
      | Ok true => keys_loop expired items
      | Ok false => Ok k :: keys_loop expired items
      | Err e => Err e :: keys_loop expired items
      end
  | Err e :: items => Err (Other e) :: keys_loop expired items
  end.

Lemma scan_loop_spec ex (f : bytes → bool) items out :
  (∀ k b, ex k = Ok b → b = f k) → scan_loop ex items = Ok out →
  ∃ l, collect items = Ok l ∧ out = map Ok (List.filter (λ kv, negb (f kv.1)) l).
Proof.
  intros Hex. revert out. induction items as [|[[k v]|e] items IH]; intros out; simpl; [|intros H|done].
  { intros [= <-]. by exists []. }
  destruct (ex k) as [b|] eqn:Eb; [|done]. pose proof (Hex _ _ Eb) as ->.
  destruct (f k) eqn:Ef.
  - destruct (IH _ H) as (l & -> & ->). eexists. split; [done|]. simpl. by rewrite Ef.
  - destruct (scan_loop ex items) as [out'|] eqn:El; [|done]. simplify_eq.
    destruct (IH _ eq_refl) as (l & -> & ->). eexists. split; [done|]. simpl. by rewrite Ef.
Qed.

Lemma count_loop_spec ex (f : bytes → bool) items n m :
  (∀ k b, ex k = Ok b → b = f k) → count_loop ex n items = Ok m →
  ∃ l, collect items = Ok l ∧ m = n + length (List.filter (λ kv, negb (f kv.1)) l).
Proof.
  intros Hex. revert n m. induction items as [|[[k v]|e] items IH]; intros n m; simpl; [|intros H|done].
  { intros [= <-]. exists []. simpl. auto with lia. }
  destruct (ex k) as [b|] eqn:Eb; [|done]. pose proof (Hex _ _ Eb) as ->.
  destruct (f k) eqn:Ef; destruct (IH _ _ H) as (l & -> & ->); eexists; (split; [done|]); simpl;
    rewrite Ef; simpl; lia.
Qed.

(** Every key is answered, or an error is among the answers. *)
Lemma keys_loop_spec ex (f : bytes → bool) items :
  (∀ k b, ex k = Ok b → b = f k) →
  (∃ l, collect items = Ok l ∧ keys_loop ex items = map Ok (List.filter (λ kv, negb (f kv.1)) l).*1) ∨
  ∃ e, Err e ∈ keys_loop ex items.
Proof.
  intros Hex. induction items as [|[[k v]|e] items IH]; simpl.
  - left. by exists [].
  - destruct (ex k) as [b|e] eqn:Eb; [pose proof (Hex _ _ Eb) as ->|right; exists e; set_solver].
    destruct IH as [(l & -> & ->)|[e He]].
    + left. eexists. split; [done|]. simpl. by destruct (f k).
    + right. exists e. destruct (f k); set_solver.
  - right. exists (Other e). set_solver.
Qed.

Lemma scan_loop_total ex items l :
  (∀ k, ∃ b, ex k = Ok b) → collect items = Ok l → ∃ out, scan_loop ex items = Ok out.
Proof.
  intros Hex. revert l. induction items as [|[[k v]|e] items IH]; intros l; simpl; [eauto| |done].
  destruct (collect items) as [l'|]; [|done]. intros _. destruct (IH _ eq_refl) as (out & Hout).
  destruct (Hex k) as ([] & ->); rewrite Hout; eauto.
Qed.

Lemma count_loop_total ex n items l :
  (∀ k, ∃ b, ex k = Ok b) → collect items = Ok l → ∃ m, count_loop ex n items = Ok m.
Proof.
  intros Hex. revert n l. induction items as [|[[k v]|e] items IH]; intros n l; simpl; [eauto| |done].
  destruct (collect items) as [l'|]; [|done]. intros _. destruct (Hex k) as ([] & ->); eauto.
Qed.

Lemma keys_loop_total ex items l :
  (∀ k, ∃ b, ex k = Ok b) → collect items = Ok l → ∀ e, Err e ∉ keys_loop ex items.
Proof.
  intros Hex. revert l. induction items as [|[[k v]|e] items IH]; intros l; simpl; [set_solver| |done].
  destruct (collect items) as [l'|]; [|done]. intros _ e.
  destruct (Hex k) as ([] & ->); [by apply (IH l')|]. rewrite not_elem_of_cons. split; [done|by apply (IH l')].
Qed.

Lemma scan_loop_ext ex ex' items : (∀ k, ex k = ex' k) → scan_loop ex items = scan_loop ex' items.
Proof.
  intros H. induction items as [|[[k v]|e] items IH]; simpl; [done| |done]. by rewrite H, IH.
Qed.

Lemma count_loop_ext ex ex' n items : (∀ k, ex k = ex' k) → count_loop ex n items = count_loop ex' n items.
Proof.
  intros H. revert n. induction items as [|[[k v]|e] items IH]; intros n; simpl; [done| |done].
  by rewrite H, !IH.
Qed.

Lemma keys_loop_ext ex ex' items : (∀ k, ex k = ex' k) → keys_loop ex items = keys_loop ex' items.
Proof. intros H. induction items as [|[[k v]|e] items IH]; simpl; [done| |by rewrite IH]. by rewrite H, IH. Qed.

(** ** Batches of the specification *)

Lemma abs_puts_foldl pairs a :
  abs_puts pairs a = {| a_data := foldl (λ m kv, <[kv.1:=kv.2]> m) (a_data a) pairs;
                        a_ttl := foldl (flip delete) (a_ttl a) pairs.*1 |}.
Proof. revert a. induction pairs as [|[k v] pairs IH]; intros a; [by destruct a|apply IH]. Qed.

Lemma abs_deletes_foldl keys a :
  abs_deletes keys a = {| a_data := foldl (flip delete) (a_data a) keys;
                          a_ttl := foldl (flip delete) (a_ttl a) keys |}.
Proof. revert a. induction keys as [|k keys IH]; intros a; [by destruct a|apply IH]. Qed.

(** Deleting keys that have expired is invisible, then and later. *)
Lemma visible_deletes_expired now t keys a :
  Forall (λ k, expired_key now (a_ttl a) k = true) keys → later now t →
  visible t (abs_deletes keys a) = visible t a.
Proof.
  rewrite Forall_forall. intros Hk Ht. apply map_eq. intros k. rewrite !visible_lookup.
  destruct (abs_deletes_lookup keys a k) as [H1 H2]. unfold expired_key in *.
  destruct (decide (k ∈ keys)) as [Hin|Hin].
  - destruct (H1 Hin) as [-> ->]. specialize (Hk _ Hin). destruct (a_ttl a !! k); [|done].
    by rewrite (is_expired_later now t).
  - by destruct (H2 Hin) as [-> ->].
Qed.

(** ** The overlay of a transaction *)

Inductive TxnOp := Put (v : bytes) | Delete.

Definition apply_overlay (ops : list (bytes * TxnOp)) (merged : gmap bytes bytes) : gmap bytes bytes :=
  foldl (λ m kop, match kop.2 with Put v => <[kop.1:=v]> m | Delete => delete kop.1 m end) merged ops.

Lemma foldl_insert_lookup (l : list (bytes * bytes)) (m : gmap bytes bytes) k v :
  NoDup l.*1 → (∀ k', k' ∈ l.*1 → m !! k' = None) →
  foldl (λ m kv, <[kv.1:=kv.2]> m) m l !! k = Some v ↔ (k, v) ∈ l ∨ m !! k = Some v.
Proof.
  revert m. induction l as [|[k0 v0] l IH]; intros m; csimpl; [set_solver|].
  intros [Hk Hnd]%NoDup_cons Hm. rewrite IH; [|done|].
  - rewrite elem_of_cons, lookup_insert_Some. pose proof (Hm k0). set_solver.
  - intros k' Hk'. rewrite lookup_insert_ne by set_solver. apply Hm. set_solver.
Qed.

(** A sorted list with distinct keys is the iteration of the map it builds. *)
Lemma btree_iter_foldl (l : list (bytes * bytes)) :
  StronglySorted kv_le l → NoDup l.*1 → btree_iter (foldl (λ (m : gmap bytes bytes) kv, <[kv.1:=kv.2]> m) ∅ l) = l.
Proof.
  intros Hs Hnd. symmetry. apply btree_iter_unique; [done|done|]. intros k v.
  rewrite foldl_insert_lookup; [|done|]; [|intros; apply lookup_empty].
  rewrite lookup_empty. naive_solver.
Qed.

Lemma foldl_btree_iter (m : gmap bytes bytes) : foldl (λ m kv, <[kv.1:=kv.2]> m) ∅ (btree_iter m) = m.
Proof.
  apply map_eq. intros k. apply option_eq. intros v.
  rewrite foldl_insert_lookup; [|apply btree_iter_NoDup|intros; apply lookup_empty].
  rewrite elem_of_btree_iter, lookup_empty. naive_solver.
Qed.

(** Re-applying operations that are already in the map changes nothing. *)
Lemma apply_overlay_id (ops : list (bytes * TxnOp)) (m : gmap bytes bytes) :
  (∀ k op, (k, op) ∈ ops → m !! k = match op with Put v => Some v | Delete => None end) →
  apply_overlay ops m = m.
Proof.
  unfold apply_overlay. induction ops as [|[k op] ops IH]; intros H; simpl; [done|].
  assert ((match op with Put v => <[k:=v]> m | Delete => delete k m end) = m) as ->.
  { pose proof (H k op) as Hk. destruct op; [apply insert_id|apply delete_id]; apply Hk; set_solver. }
  apply IH. set_solver.
Qed.

Definition expired_by (captured : Z) (ttl : gmap bytes Z) (k : bytes) : bool :=
  match ttl !! k with Some e => (e <=? captured)%Z | None => false end.

(** The committed part of a transactional range. *)
Fixpoint merge_loop (expired : bytes → store_result bool) (items : list (engine_result (bytes * bytes)))
    (merged : gmap bytes bytes) : store_result (gmap bytes bytes) :=
  match items with
  | [] => Ok merged
  | item :: items =>
      let? (k, v) := other item in
      let? ex := expired k in
      if ex : bool then merge_loop expired items merged
      else merge_loop expired items (<[k:=v]> merged)
  end.

Lemma merge_loop_spec ex (f : bytes → bool) items m m' :
  (∀ k b, ex k = Ok b → b = f k) → merge_loop ex items m = Ok m' →
  ∃ l, collect items = Ok l ∧ m' = foldl (λ m kv, <[kv.1:=kv.2]> m) m (List.filter (λ kv, negb (f kv.1)) l).
Proof.
  intros Hex. revert m. induction items as [|[[k v]|e] items IH]; intros m; simpl; [|intros H|done].
  { intros [= <-]. by exists []. }
  destruct (ex k) as [b|] eqn:Eb; [|done]. pose proof (Hex _ _ Eb) as ->.
  destruct (f k) eqn:Ef; destruct (IH _ H) as (l & -> & ->); eexists; (split; [done|]); simpl; by rewrite Ef.
Qed.

Lemma merge_loop_total ex items l m :
  (∀ k, ∃ b, ex k = Ok b) → collect items = Ok l → ∃ m', merge_loop ex items m = Ok m'.
Proof.
  intros Hex. revert l m. induction items as [|[[k v]|e] items IH]; intros l m; simpl; [eauto| |done].
  destruct (collect items) as [l'|]; [|done]. intros _. destruct (Hex k) as ([] & ->); eauto.
Qed.

(** A map seen through an overlay. *)
Definition overlay_view (ov : gmap bytes TxnOp) (m : gmap bytes bytes) : gmap bytes bytes :=
  merge (λ o v, match o with Some (Put w) => Some w | Some Delete => None | None => v end) ov m.

Lemma overlay_view_lookup ov m k :
  overlay_view ov m !! k = match ov !! k with Some (Put w) => Some w | Some Delete => None | None => m !! k end.
Proof. unfold overlay_view. rewrite lookup_merge. by destruct (ov !! k) as [[]|], (m !! k). Qed.

Lemma overlay_view_empty m : overlay_view ∅ m = m.
Proof. apply map_eq. intros k. by rewrite overlay_view_lookup, lookup_empty. Qed.

Lemma overlay_view_record ov m k op :
  overlay_view (<[k:=op]> ov) m =
  match op with Put v => <[k:=v]> (overlay_view ov m) | Delete => delete k (overlay_view ov m) end.
Proof.
  apply map_eq. intros k'. rewrite overlay_view_lookup. destruct (decide (k' = k)) as [->|Hne].
  - rewrite lookup_insert_eq. destruct op; by rewrite ?lookup_insert_eq, ?lookup_delete_eq.
  - rewrite lookup_insert_ne by done.
    destruct op; rewrite ?lookup_insert_ne, ?lookup_delete_ne by done; by rewrite overlay_view_lookup.
Qed.

(** The writes of a transaction, in order, on the abstract store and as an overlay. *)
Definition abs_write (a : AbsStore) (w : bytes * TxnOp) : AbsStore :=
  match w.2 with Put v => abs_put w.1 v a | Delete => abs_delete w.1 a end.

Definition abs_writes (log : list (bytes * TxnOp)) (a : AbsStore) : AbsStore := foldl abs_write a log.

Definition overlay_of (log : list (bytes * TxnOp)) : gmap bytes TxnOp :=
  foldl (λ m w, <[w.1:=w.2]> m) ∅ log.

Lemma visible_writes now log a :
  visible now (abs_writes log a) = overlay_view (overlay_of log) (visible now a).
Proof.
  induction log as [|[k op] log IH] using rev_ind; [by rewrite overlay_view_empty|].
  unfold abs_writes, overlay_of in *. rewrite !foldl_snoc. simpl. rewrite overlay_view_record, <-IH.
  unfold abs_write. simpl. destruct op; [apply visible_put|apply visible_delete].
Qed.

Lemma apply_overlay_lookup (ops : list (bytes * TxnOp)) m k :
  NoDup ops.*1 →
  (∀ op, (k, op) ∈ ops → apply_overlay ops m !! k = match op with Put v => Some v | Delete => None end) ∧
  (k ∉ ops.*1 → apply_overlay ops m !! k = m !! k).
Proof.
  unfold apply_overlay. revert m. induction ops as [|[k0 op0] ops IH]; intros m Hnd; csimpl.
  { split; [intros op H; by apply not_elem_of_nil in H|done]. }
  apply NoDup_cons in Hnd as [Hk0 Hnd]. destruct (IH (match op0 with Put v => <[k0:=v]> m | Delete => delete k0 m end) Hnd)
    as [IH1 IH2]. split.
  - intros op [[= -> ->]|Hin]%elem_of_cons; [|by apply IH1]. rewrite IH2 by done.
    destruct op0; by rewrite ?lookup_insert_eq, ?lookup_delete_eq.
  - intros [Hne Hin]%not_elem_of_cons. rewrite IH2 by done.
    destruct op0; by rewrite ?lookup_insert_ne, ?lookup_delete_ne.
Qed.

Lemma btree_iter_in_range (lo hi : bytes) (m m' : gmap bytes bytes) :
  (∀ k : bytes, m !! k = if in_range lo hi k then m' !! k else None) → btree_iter m = btree_between lo hi m'.
Proof.
  intros H. symmetry. apply btree_iter_unique.
  - apply btree_between_sorted.
  - apply NoDup_fst_filter_bool, btree_iter_NoDup.
  - intros k v. rewrite elem_of_btree_between, H. destruct (in_range lo hi k); naive_solver.
Qed.

(** A range of the committed entries with the overlay of the same range applied is
    the range of what the transaction sees. *)
Lemma overlay_range (lo hi : bytes) (ov : gmap bytes TxnOp) (vis : gmap bytes bytes) :
  btree_iter (apply_overlay (btree_between lo hi ov)
    (foldl (λ m kv, <[kv.1:=kv.2]> m) ∅ (btree_between lo hi vis))) =
  btree_between lo hi (overlay_view ov vis).
Proof.
  apply btree_iter_in_range. intros k. rewrite overlay_view_lookup.
  assert (NoDup (btree_between lo hi ov).*1) as Hnd by apply NoDup_fst_filter_bool, btree_iter_NoDup.
  set (base := foldl _ _ _).
  assert (base !! k = if in_range lo hi k then vis !! k else None) as Hbase.
  { subst base. apply option_eq. intros v. rewrite foldl_insert_lookup.
    - rewrite elem_of_btree_between, lookup_empty. destruct (in_range lo hi k); naive_solver.
    - apply NoDup_fst_filter_bool, btree_iter_NoDup.
    - intros. apply lookup_empty. }
  destruct (apply_overlay_lookup (btree_between lo hi ov) base k Hnd) as [H1 H2].
  destruct (decide (k ∈ (btree_between lo hi ov).*1)) as [Hin|Hin].
  - apply list_elem_of_fmap in Hin as ([k' op] & -> & Hin). rewrite (H1 _ Hin). simpl.
    apply elem_of_btree_between in Hin as [-> ->]. by destruct op.
  - rewrite H2, Hbase by done. destruct (in_range lo hi k) eqn:Er; [|done].
    destruct (ov !! k) as [op|] eqn:Eo; [|done]. contradict Hin. apply list_elem_of_fmap.
    exists (k, op). by rewrite elem_of_btree_between.
Qed.

Lemma abs_puts_writes pairs a : abs_puts pairs a = abs_writes (map (λ kv, (kv.1, Put kv.2)) pairs) a.
Proof. revert a. induction pairs as [|[k v] pairs IH]; intros a; [done|apply IH]. Qed.

Lemma abs_deletes_writes keys a : abs_deletes keys a = abs_writes (map (λ k, (k, Delete)) keys) a.
Proof. revert a. induction keys as [|k keys IH]; intros a; [done|apply IH]. Qed.
