(* ===== verification/RedbEngine.v ===== *)
(** * The interface of the [redb] storage engine

    [oxistore-kv-redb] drives the third-party crate [redb] through read
    transactions, write transactions and typed tables.  The calls it makes are
    the class [RedbEngine]; an error is the text of its [to_string].  What the
    documentation of [redb] promises is [RedbLaws]: a read transaction is a
    snapshot, tables are ordered maps, a write transaction is atomic.
    [RedbReliable] adds that no call reports an I/O error, which is what the
    theorems that produce a result need.  [mem_engine] is a concrete engine that
    satisfies both. *)

From S2P Require Import Prelude Bytes Core StoreSpec.

(** The two value types of the tables: [&[u8]] and [u64]. *)
Inductive VT := VBytes | VU64.

#[global] Instance VT_eq_dec : EqDecision VT.
Proof. solve_decision. Defined.

Definition vt (t : VT) : Type := match t with VBytes => bytes | VU64 => Z end.

Class RedbEngine := {
  Database : Type;
  ReadTransaction : Type;
  WriteTransaction : Type;
  ReadOnlyTable : VT → Type;
  db_begin_read : Database → engine_result ReadTransaction;
  db_begin_write : Database → engine_result WriteTransaction;
  rt_open_table : ∀ t : VT, string → ReadTransaction → engine_result (ReadOnlyTable t);
  rtab_get : ∀ {t}, bytes → ReadOnlyTable t → engine_result (option (vt t));
  rtab_range : ∀ {t}, bytes → bytes → ReadOnlyTable t →
    engine_result (list (engine_result (bytes * vt t)));
  rtab_range_from : ∀ {t}, bytes → ReadOnlyTable t →
    engine_result (list (engine_result (bytes * vt t)));
  rtab_iter : ∀ {t}, ReadOnlyTable t → engine_result (list (engine_result (bytes * vt t)));
  (** A table opened in a write transaction borrows from it: the operations on
      the table act on the transaction and name the table. *)
  wt_open_table : ∀ t : VT, string → WriteTransaction → WriteTransaction * engine_result unit;
  wtab_get : ∀ t : VT, string → bytes → WriteTransaction → engine_result (option (vt t));
  wtab_range : ∀ t : VT, string → bytes → bytes → WriteTransaction →
    engine_result (list (engine_result (bytes * vt t)));
  wtab_insert : ∀ t : VT, string → bytes → vt t → WriteTransaction →
    WriteTransaction * engine_result (option (vt t));
  wtab_remove : ∀ t : VT, string → bytes → WriteTransaction →
    WriteTransaction * engine_result (option (vt t));
  wt_commit : WriteTransaction → Database → Database * engine_result unit;
  wt_abort : WriteTransaction → Database → Database * engine_result unit;
}.

(** The contents of a table in the database, in a read transaction, in an open
    table and in a write transaction; and the fact that a write transaction was
    begun on a database nobody else has written since ([redb] has one writer). *)
Class RedbView `{!RedbEngine} := {
  db_view : ∀ t : VT, string → Database → gmap bytes (vt t);
  rt_view : ∀ t : VT, string → ReadTransaction → gmap bytes (vt t);
  tab_view : ∀ t : VT, ReadOnlyTable t → gmap bytes (vt t);
  wt_view : ∀ t : VT, string → WriteTransaction → gmap bytes (vt t);
  wt_base : WriteTransaction → Database → Prop;
}.

Class RedbLaws `{!RedbEngine, !RedbView} : Prop := {
  db_begin_read_law t n db r : db_begin_read db = Ok r → rt_view t n r = db_view t n db;
  rt_open_table_law t n r tab : rt_open_table t n r = Ok tab → tab_view t tab = rt_view t n r;
  rtab_get_law t k (tab : ReadOnlyTable t) o : rtab_get k tab = Ok o → o = tab_view t tab !! k;
  (** an iterator that reports no error yields the entries of its interval, in
      ascending order *)
  rtab_range_law t lo hi (tab : ReadOnlyTable t) items l :
    rtab_range lo hi tab = Ok items → collect items = Ok l →
    l = btree_between lo hi (tab_view t tab);
  rtab_range_from_law t lo (tab : ReadOnlyTable t) items l :
    rtab_range_from lo tab = Ok items → collect items = Ok l → l = btree_from lo (tab_view t tab);
  rtab_iter_law t (tab : ReadOnlyTable t) items l :
    rtab_iter tab = Ok items → collect items = Ok l → l = btree_iter (tab_view t tab);
  db_begin_write_law db w : db_begin_write db = Ok w →
    wt_base w db ∧ ∀ t n, wt_view t n w = db_view t n db;
  wt_open_table_base t n w w' r db :
    wt_open_table t n w = (w', r) → wt_base w db → wt_base w' db;
  wt_open_table_law t n w w' r : wt_open_table t n w = (w', r) →
    ∀ t' n', wt_view t' n' w' = wt_view t' n' w;
  wtab_get_law t n k w o : wtab_get t n k w = Ok o → o = wt_view t n w !! k;
  wtab_range_law t n lo hi w items l :
    wtab_range t n lo hi w = Ok items → collect items = Ok l →
    l = btree_between lo hi (wt_view t n w);
  wtab_insert_base t n k v w w' r db :
    wtab_insert t n k v w = (w', r) → wt_base w db → wt_base w' db;
  wtab_insert_law t n k v w w' o : wtab_insert t n k v w = (w', Ok o) →
    o = wt_view t n w !! k ∧ wt_view t n w' = <[k:=v]> (wt_view t n w) ∧
    ∀ t' n', (t', n') ≠ (t, n) → wt_view t' n' w' = wt_view t' n' w;
  wtab_remove_base t n k w w' r db :
    wtab_remove t n k w = (w', r) → wt_base w db → wt_base w' db;
  wtab_remove_law t n k w w' o : wtab_remove t n k w = (w', Ok o) →
    o = wt_view t n w !! k ∧ wt_view t n w' = delete k (wt_view t n w) ∧
    ∀ t' n', (t', n') ≠ (t, n) → wt_view t' n' w' = wt_view t' n' w;
  wt_commit_law w db db' : wt_commit w db = (db', Ok ()) → wt_base w db →
    ∀ t n, db_view t n db' = wt_view t n w;
  wt_commit_err w db db' e : wt_commit w db = (db', Err e) → ∀ t n, db_view t n db' = db_view t n db;
  wt_abort_law w db db' r : wt_abort w db = (db', r) → ∀ t n, db_view t n db' = db_view t n db;
}.

(** No call fails on tables that exist. *)
Class RedbReliable `{!RedbEngine} := {
  db_has : VT → string → Database → Prop;
  wt_has : VT → string → WriteTransaction → Prop;
  begin_read_ok db : ∃ r, db_begin_read db = Ok r;
  open_read_ok t n db r :
    db_begin_read db = Ok r → db_has t n db → ∃ tab, rt_open_table t n r = Ok tab;
  rtab_get_ok t k (tab : ReadOnlyTable t) : ∃ o, rtab_get k tab = Ok o;
  rtab_range_ok t lo hi (tab : ReadOnlyTable t) :
    ∃ items l, rtab_range lo hi tab = Ok items ∧ collect items = Ok l;
  rtab_range_from_ok t lo (tab : ReadOnlyTable t) :
    ∃ items l, rtab_range_from lo tab = Ok items ∧ collect items = Ok l;
  rtab_iter_ok t (tab : ReadOnlyTable t) :
    ∃ items l, rtab_iter tab = Ok items ∧ collect items = Ok l;
  begin_write_ok db : ∃ w, db_begin_write db = Ok w;
  open_write_ok t n w : ∃ w', wt_open_table t n w = (w', Ok ()) ∧ wt_has t n w' ∧
    ∀ t' n', wt_has t' n' w → wt_has t' n' w';
  wtab_get_ok t n k w : ∃ o, wtab_get t n k w = Ok o;
  wtab_range_ok t n lo hi w : ∃ items l, wtab_range t n lo hi w = Ok items ∧ collect items = Ok l;
  wtab_insert_ok t n k v w : ∃ w' o, wtab_insert t n k v w = (w', Ok o);
  wtab_remove_ok t n k w : ∃ w' o, wtab_remove t n k w = (w', Ok o);
  commit_ok w db : ∃ db', wt_commit w db = (db', Ok ()) ∧
    ∀ t n, db_has t n db ∨ wt_has t n w → db_has t n db';
  abort_ok w db : ∃ db', wt_abort w db = (db', Ok ()) ∧ ∀ t n, db_has t n db → db_has t n db';
}.

(** ** A concrete engine *)
Record MemDb := { mem_bytes : gmap string (gmap bytes bytes); mem_u64 : gmap string (gmap bytes Z) }.

Definition mem_table (t : VT) (n : string) (d : MemDb) : option (gmap bytes (vt t)) :=
  match t return option (gmap bytes (vt t)) with
  | VBytes => mem_bytes d !! n
  | VU64 => mem_u64 d !! n
  end.

Definition mem_contents (t : VT) (n : string) (d : MemDb) : gmap bytes (vt t) :=
  default ∅ (mem_table t n d).

Definition mem_set (t : VT) (n : string) : gmap bytes (vt t) → MemDb → MemDb :=
  match t return gmap bytes (vt t) → MemDb → MemDb with
  | VBytes => λ m d, {| mem_bytes := <[n:=m]> (mem_bytes d); mem_u64 := mem_u64 d |}
  | VU64 => λ m d, {| mem_bytes := mem_bytes d; mem_u64 := <[n:=m]> (mem_u64 d) |}
  end.

Definition mem_empty : MemDb := {| mem_bytes := ∅; mem_u64 := ∅ |}.

(** A table is created by the first write transaction that opens it and must
    exist for a read transaction. *)
#[global] Instance mem_engine : RedbEngine := {|
  Database := MemDb;
  ReadTransaction := MemDb;
  WriteTransaction := MemDb;
  ReadOnlyTable t := gmap bytes (vt t);
  db_begin_read d := Ok d;
  db_begin_write d := Ok d;
  rt_open_table t n d :=
    match mem_table t n d with Some m => Ok m | None => Err "table does not exist"%string end;
  rtab_get t k m := Ok (m !! k);
  rtab_range t lo hi m := Ok (map Ok (btree_between lo hi m));
  rtab_range_from t lo m := Ok (map Ok (btree_from lo m));
  rtab_iter t m := Ok (map Ok (btree_iter m));
  wt_open_table t n d := (mem_set t n (mem_contents t n d) d, Ok ());
  wtab_get t n k d := Ok (mem_contents t n d !! k);
  wtab_range t n lo hi d := Ok (map Ok (btree_between lo hi (mem_contents t n d)));
  wtab_insert t n k v d :=
    (mem_set t n (<[k:=v]> (mem_contents t n d)) d, Ok (mem_contents t n d !! k));
  wtab_remove t n k d :=
    (mem_set t n (delete k (mem_contents t n d)) d, Ok (mem_contents t n d !! k));
  wt_commit w d :=
    ({| mem_bytes := mem_bytes w ∪ mem_bytes d; mem_u64 := mem_u64 w ∪ mem_u64 d |}, Ok ());
  wt_abort w d := (d, Ok ());
|}.

(** Tables are never dropped, so a transaction has the tables of its database. *)
#[global] Instance mem_view : RedbView := {|
  db_view t n d := mem_contents t n d;
  rt_view t n d := mem_contents t n d;
  tab_view t m := m;
  wt_view t n d := mem_contents t n d;
  wt_base w d := ∀ t n, is_Some (mem_table t n d) → is_Some (mem_table t n w);
|}.

Lemma mem_set_same t n m d : mem_table t n (mem_set t n m d) = Some m.
Proof. destruct t; simpl; apply lookup_insert_eq. Qed.

Lemma mem_set_other t n m d t' n' :
  (t', n') ≠ (t, n) → mem_table t' n' (mem_set t n m d) = mem_table t' n' d.
Proof. intros Hne. destruct t, t'; simpl; try done; apply lookup_insert_ne; congruence. Qed.

Lemma mem_set_base t n m w d :
  (∀ t' n', is_Some (mem_table t' n' d) → is_Some (mem_table t' n' w)) →
  ∀ t' n', is_Some (mem_table t' n' d) → is_Some (mem_table t' n' (mem_set t n m w)).
Proof.
  intros H t' n' Hd. destruct (decide ((t', n') = (t, n))) as [[= -> ->]|Hne].
  - rewrite mem_set_same. eauto.
  - rewrite mem_set_other by done. eauto.
Qed.

Lemma mem_set_contents t n m d : mem_contents t n (mem_set t n m d) = m.
Proof. unfold mem_contents. by rewrite mem_set_same. Qed.

Lemma mem_set_contents_other t n m d t' n' :
  (t', n') ≠ (t, n) → mem_contents t' n' (mem_set t n m d) = mem_contents t' n' d.
Proof. intros. unfold mem_contents. by rewrite mem_set_other. Qed.

Lemma mem_union_table t n (w d : MemDb) :
  mem_table t n {| mem_bytes := mem_bytes w ∪ mem_bytes d; mem_u64 := mem_u64 w ∪ mem_u64 d |} =
  union_with (λ x _, Some x) (mem_table t n w) (mem_table t n d).
Proof. destruct t; simpl; apply lookup_union_with. Qed.

Lemma mem_union_contents t n (w d : MemDb) :
  (is_Some (mem_table t n d) → is_Some (mem_table t n w)) →
  mem_contents t n {| mem_bytes := mem_bytes w ∪ mem_bytes d; mem_u64 := mem_u64 w ∪ mem_u64 d |} =
  mem_contents t n w.
Proof.
  intros H. unfold mem_contents. rewrite mem_union_table.
  destruct (mem_table t n w), (mem_table t n d); simpl; try done.
  by destruct H.
Qed.

#[global] Instance mem_laws : RedbLaws.
Proof.
  split; simpl.
  - by intros * [= ->].
  - intros * H. unfold mem_contents. destruct (mem_table t n r); by simplify_eq.
  - by intros * [= ->].
  - intros * [= <-]. rewrite collect_map_Ok. by intros [= ->].
  - intros * [= <-]. rewrite collect_map_Ok. by intros [= ->].
  - intros * [= <-]. rewrite collect_map_Ok. by intros [= ->].
  - by intros * [= ->].
  - intros * [= <- <-] ?. by apply mem_set_base.
  - intros * [= <- <-] t' n'.
    destruct (decide ((t', n') = (t, n))) as [[= -> ->]|].
    + by rewrite mem_set_contents.
    + by rewrite mem_set_contents_other.
  - by intros * [= ->].
  - intros * [= <-]. rewrite collect_map_Ok. by intros [= ->].
  - intros * [= <- <-] ?. by apply mem_set_base.
  - intros * [= <- <-]. split_and!; [done|apply mem_set_contents|]. intros. by apply mem_set_contents_other.
  - intros * [= <- <-] ?. by apply mem_set_base.
  - intros * [= <- <-]. split_and!; [done|apply mem_set_contents|]. intros. by apply mem_set_contents_other.
  - intros * [= <-] Hb t n. apply mem_union_contents, Hb.
  - done.
  - intros w db db' r H t n. congruence.
Qed.

#[global] Instance mem_reliable : RedbReliable.
Proof.
  refine {| db_has t n d := is_Some (mem_table t n d); wt_has t n w := is_Some (mem_table t n w) |}; simpl.
  - eauto.
  - intros * [= ->] [m Hm]. rewrite Hm. eauto.
  - eauto.
  - intros. eexists _, _. split; [done|apply collect_map_Ok].
  - intros. eexists _, _. split; [done|apply collect_map_Ok].
  - intros. eexists _, _. split; [done|apply collect_map_Ok].
  - eauto.
  - intros t n w. eexists. split_and!; [done|rewrite mem_set_same; eauto|]. intros t' n' Hd.
    by apply (mem_set_base t n _ w w).
  - eauto.
  - intros. eexists _, _. split; [done|apply collect_map_Ok].
  - eauto.
  - eauto.
  - intros w db. eexists. split; [done|]. intros t n Hd. rewrite mem_union_table.
    destruct (mem_table t n w), (mem_table t n db); simpl; naive_solver.
  - intros w db. exists db. split; [done|]. done.
Defined.
