(* ===== verification/Redb.v ===== *)
(** * [oxistore-kv-redb]: the [redb] backend

    [RedbStore] keeps two tables in one database: the primary table, whose name
    is configurable, and the sidecar [__ttl__] with the expiry of the keys that
    have one.  Every operation of the [KvStore] implementation, the overlay
    transaction [RedbTxn], the snapshot [RedbSnapshot] and the materialised
    iterators are modelled over the engine interface of [RedbEngine.v].  Operations made of several engine transactions are
    compositions of their phases. *)

From S2P Require Import Prelude Bytes Core StoreSpec RedbEngine.

Definition TTL_TABLE : string := "__ttl__".
Definition DEFAULT_TABLE_NAME : string := "oxistore_kv".

Section RedbModel.
Context `{!RedbEngine}.

(** [write_lock]: a mutex is either healthy or poisoned by a panic; the message is
    the one of [PoisonError]. *)
Record RedbStore := {
  rs_db : Database;
  rs_path : option string;
  rs_poisoned : bool;
  rs_table : string;
}.

Definition set_db (db : Database) (s : RedbStore) : RedbStore :=
  {| rs_db := db; rs_path := rs_path s; rs_poisoned := rs_poisoned s; rs_table := rs_table s |}.

Definition lock_write (s : RedbStore) : store_result unit :=
  if rs_poisoned s
  then Err (Other "lock poisoned: poisoned lock: another task failed inside"%string)
  else Ok ().

(** ** Operations inside a write transaction *)
Abbreviation W A := (WriteTransaction → WriteTransaction * store_result A).

Definition w_ret {A} (a : A) : W A := λ w, (w, Ok a).

Definition w_lift {A} (op : WriteTransaction → WriteTransaction * engine_result A) : W A :=
  λ w, let '(w', r) := op w in (w', other r).

Definition w_open (t : VT) (n : string) : W unit := w_lift (wt_open_table t n).
Definition w_insert (t : VT) (n : string) (k : bytes) (v : vt t) : W (option (vt t)) :=
  w_lift (wtab_insert t n k v).
Definition w_remove (t : VT) (n : string) (k : bytes) : W (option (vt t)) :=
  w_lift (wtab_remove t n k).

(** Lock, begin, body, commit: the frame of every write.  Leaving early drops the
    transaction, which aborts it. *)
Definition redb_write {A} (body : W A) (s : RedbStore) : RedbStore * store_result A :=
  match lock_write s with
  | Err e => (s, Err e)
  | Ok _ =>
      match other (db_begin_write (rs_db s)) with
      | Err e => (s, Err e)
      | Ok txn =>
          match body txn with
          | (_, Err e) => (s, Err e)
          | (txn, Ok a) =>
              match wt_commit txn (rs_db s) with
              | (db, Err e) => (set_db db s, Err (Other e))
              | (db, Ok _) => (set_db db s, Ok a)
              end
          end
      end
  end.

(** ** Opening *)
Definition pre_create_tables (n : string) (db : Database) : Database * store_result unit :=
  match other (db_begin_write db) with
  | Err e => (db, Err e)
  | Ok txn =>
      match (let* _ := w_open VBytes n in w_open VU64 TTL_TABLE) txn with
      | (_, Err e) => (db, Err e)
      | (txn, Ok _) =>
          let '(db, r) := wt_commit txn db in (db, other r)
      end
  end.

(** [from_database] and the tail shared by [open_with_table], [open_in_memory],
    [build] and [build_in_memory]. *)
Definition redb_open_db (path : option string) (n : string) (db : Database) : store_result RedbStore :=
  match pre_create_tables n db with
  | (_, Err e) => Err e
  | (db, Ok _) => Ok {| rs_db := db; rs_path := path; rs_poisoned := false; rs_table := n |}
  end.

(** ** Expiry checks in read transactions *)
Definition is_ttl_expired (now : Z) (ttl_table : ReadOnlyTable VU64) (key : bytes)
    : store_result bool :=
  let? o := other (rtab_get key ttl_table) in
  Ok (match o with Some e => is_expired now e | None => false end).

Definition is_ttl_expired_at (ttl_table : ReadOnlyTable VU64) (key : bytes) (captured_at : Z)
    : store_result bool :=
  let? o := other (rtab_get key ttl_table) in
  Ok (match o with Some e => (e <=? captured_at)%Z | None => false end).

(** [begin_read] and the two [open_table] calls of every read. *)
Definition open_tables (s : RedbStore)
    : store_result (ReadOnlyTable VBytes * ReadOnlyTable VU64) :=
  let? txn := other (db_begin_read (rs_db s)) in
  let? table := other (rt_open_table VBytes (rs_table s) txn) in
  let? ttl_table := other (rt_open_table VU64 TTL_TABLE txn) in
  Ok (table, ttl_table).

(** ** [get], [put], [delete] *)

(** Phase 1 of [get]: value and expiry, in one read transaction. *)
Definition redb_read (key : bytes) (s : RedbStore) : store_result (option bytes * option Z) :=
  let? (table, ttl_table) := open_tables s in
  let? value := other (rtab_get key table) in
  let? expiry := other (rtab_get key ttl_table) in
  Ok (value, expiry).

(** Phase 2: the eviction of an expired key, in its own write transaction. *)
Definition evict_body (n : string) (key : bytes) : W unit :=
  let* _ := w_open VBytes n in
  let* _ := w_open VU64 TTL_TABLE in
  let* _ := w_remove VBytes n key in
  let* _ := w_remove VU64 TTL_TABLE key in
  w_ret ().

Definition redb_evict (key : bytes) (s : RedbStore) : RedbStore * store_result unit :=
  redb_write (evict_body (rs_table s) key) s.

Definition redb_get (now : Z) (key : bytes) (s : RedbStore) : RedbStore * store_result (option bytes) :=
  match redb_read key s with
  | Err e => (s, Err e)
  | Ok (value, Some expiry_millis) =>
      if is_expired now expiry_millis then
        match redb_evict key s with
        | (s, Ok _) => (s, Ok None)
        | (s, Err e) => (s, Err e)
        end
      else (s, Ok value)
  | Ok (value, None) => (s, Ok value)
  end.

Definition put_body (n : string) (key value : bytes) : W unit :=
  let* _ := w_open VBytes n in
  let* _ := w_insert VBytes n key value in
  let* _ := w_open VU64 TTL_TABLE in
  let* _ := w_remove VU64 TTL_TABLE key in
  w_ret ().

Definition redb_put (key value : bytes) (s : RedbStore) : RedbStore * store_result unit :=
  redb_write (put_body (rs_table s) key value) s.

Definition delete_body (n : string) (key : bytes) : W unit :=
  let* _ := w_open VBytes n in
  let* _ := w_remove VBytes n key in
  let* _ := w_open VU64 TTL_TABLE in
  let* _ := w_remove VU64 TTL_TABLE key in
  w_ret ().

Definition redb_delete (key : bytes) (s : RedbStore) : RedbStore * store_result unit :=
  redb_write (delete_body (rs_table s) key) s.

(** ** The variants that return the previous value; they open the primary table
    only. *)
Definition redb_put_returning_old (key value : bytes) (s : RedbStore)
    : RedbStore * store_result (option bytes) :=
  redb_write (let* _ := w_open VBytes (rs_table s) in w_insert VBytes (rs_table s) key value) s.

Definition redb_delete_returning_old (key : bytes) (s : RedbStore)
    : RedbStore * store_result (option bytes) :=
  redb_write (let* _ := w_open VBytes (rs_table s) in w_remove VBytes (rs_table s) key) s.

(** ** Scans *)

Definition redb_range (now : Z) (lo hi : bytes) (s : RedbStore) : store_result (list RangeItem) :=
  let? (table, ttl_table) := open_tables s in
  let? items := other (rtab_range lo hi table) in
  scan_loop (is_ttl_expired now ttl_table) items.

Definition redb_prefix_scan (now : Z) (prefix : bytes) (s : RedbStore)
    : store_result (list RangeItem) :=
  let? (table, ttl_table) := open_tables s in
  match prefix_upper_bound prefix with
  | Some hi =>
      let? items := other (rtab_range prefix hi table) in
      scan_loop (is_ttl_expired now ttl_table) items
  | None =>
      let? items := (if bool_decide (prefix = []) then other (rtab_iter table)
                     else other (rtab_range_from prefix table)) in
      scan_loop (is_ttl_expired now ttl_table) items
  end.

Definition redb_iter (now : Z) (s : RedbStore) : store_result (list RangeItem) :=
  let? (table, ttl_table) := open_tables s in
  let? items := other (rtab_iter table) in
  scan_loop (is_ttl_expired now ttl_table) items.

Definition redb_count (now : Z) (s : RedbStore) : store_result nat :=
  let? (table, ttl_table) := open_tables s in
  let? items := other (rtab_iter table) in
  count_loop (is_ttl_expired now ttl_table) 0 items.

Definition redb_keys (now : Z) (s : RedbStore) : store_result (list (store_result bytes)) :=
  let? (table, ttl_table) := open_tables s in
  match other (rtab_iter table) with
  | Ok it => Ok (keys_loop (is_ttl_expired now ttl_table) it)
  | Err e => Ok [Err e]
  end.

(** ** Batches *)
Fixpoint batch_write_loop (n : string) (pairs : list (bytes * bytes)) : W unit :=
  match pairs with
  | [] => w_ret ()
  | (k, v) :: pairs =>
      let* _ := w_insert VBytes n k v in
      let* _ := w_remove VU64 TTL_TABLE k in
      batch_write_loop n pairs
  end.

Definition redb_batch_write (pairs : list (bytes * bytes)) (s : RedbStore)
    : RedbStore * store_result unit :=
  redb_write (let* _ := w_open VBytes (rs_table s) in
              let* _ := w_open VU64 TTL_TABLE in
              batch_write_loop (rs_table s) pairs) s.

Fixpoint batch_delete_loop (n : string) (keys : list bytes) : W unit :=
  match keys with
  | [] => w_ret ()
  | k :: keys =>
      let* _ := w_remove VBytes n k in
      let* _ := w_remove VU64 TTL_TABLE k in
      batch_delete_loop n keys
  end.

Definition redb_batch_delete (keys : list bytes) (s : RedbStore) : RedbStore * store_result unit :=
  redb_write (let* _ := w_open VBytes (rs_table s) in
              let* _ := w_open VU64 TTL_TABLE in
              batch_delete_loop (rs_table s) keys) s.

(** ** Time to live *)
Definition redb_put_with_ttl (now : Z) (key value : bytes) (ttl : Z) (s : RedbStore)
    : RedbStore * store_result unit :=
  match expiry_epoch_millis now ttl with
  | Err e => (s, Err e)
  | Ok expiry =>
      redb_write (let* _ := w_open VBytes (rs_table s) in
                  let* _ := w_open VU64 TTL_TABLE in
                  let* _ := w_insert VBytes (rs_table s) key value in
                  let* _ := w_insert VU64 TTL_TABLE key expiry in
                  w_ret ()) s
  end.

(** The existence check of [expire]: a read of the primary table alone. *)
Definition redb_exists (key : bytes) (s : RedbStore) : store_result bool :=
  let? txn := other (db_begin_read (rs_db s)) in
  let? table := other (rt_open_table VBytes (rs_table s) txn) in
  let? o := other (rtab_get key table) in
  Ok (bool_decide (is_Some o)).

Definition redb_expire (now : Z) (key : bytes) (ttl : Z) (s : RedbStore)
    : RedbStore * store_result unit :=
  match redb_exists key s with
  | Err e => (s, Err e)
  | Ok false => (s, Err KeyNotFound)
  | Ok true =>
      match expiry_epoch_millis now ttl with
      | Err e => (s, Err e)
      | Ok expiry =>
          redb_write (let* _ := w_open VU64 TTL_TABLE in
                      let* _ := w_insert VU64 TTL_TABLE key expiry in
                      w_ret ()) s
      end
  end.

(** [Duration::from_millis(expiry_millis.saturating_sub(now_millis))], as a number
    of milliseconds. *)
Definition redb_ttl (now : Z) (key : bytes) (s : RedbStore) : RedbStore * store_result (option Z) :=
  match redb_read key s with
  | Err e => (s, Err e)
  | Ok (None, _) => (s, Err KeyNotFound)
  | Ok (Some _, None) => (s, Ok None)
  | Ok (Some _, Some expiry_millis) =>
      if is_expired now expiry_millis then
        match redb_evict key s with
        | (s, Ok _) => (s, Err KeyNotFound)
        | (s, Err e) => (s, Err e)
        end
      else
        match duration_since_epoch now with
        | Err e => (s, Err (Other e))
        | Ok d => (s, Ok (Some (Z.max 0 (expiry_millis - as_millis_u64 d))))
        end
  end.

Definition redb_persist (key : bytes) (s : RedbStore) : RedbStore * store_result bool :=
  match redb_read key s with
  | Err e => (s, Err e)
  | Ok (None, _) => (s, Err KeyNotFound)
  | Ok (Some _, None) => (s, Ok false)
  | Ok (Some _, Some _) =>
      redb_write (let* _ := w_open VU64 TTL_TABLE in
                  let* _ := w_remove VU64 TTL_TABLE key in
                  w_ret true) s
  end.

(** Phase 1 of [purge_expired]: the expired keys of the sidecar table. *)
Fixpoint purge_loop (now : Z) (items : list (engine_result (bytes * Z)))
    : store_result (list bytes) :=
  match items with
  | [] => Ok []
  | item :: items =>
      let? (k, expiry) := other item in
      let? keys := purge_loop now items in
      Ok (if is_expired now expiry then k :: keys else keys)
  end.

Definition redb_expired_keys (now : Z) (s : RedbStore) : store_result (list bytes) :=
  let? txn := other (db_begin_read (rs_db s)) in
  let? ttl_table := other (rt_open_table VU64 TTL_TABLE txn) in
  let? items := other (rtab_iter ttl_table) in
  purge_loop now items.

Definition redb_purge_expired (now : Z) (s : RedbStore) : RedbStore * store_result nat :=
  match redb_expired_keys now s with
  | Err e => (s, Err e)
  | Ok [] => (s, Ok 0)
  | Ok expired_keys =>
      match redb_batch_delete expired_keys s with
      | (s, Ok _) => (s, Ok (length expired_keys))
      | (s, Err e) => (s, Err e)
      end
  end.

(** ** [restore]: the file system is an argument; [None] is a backup file that does
    not exist, [Some (Err e)] one that does not open. *)
Definition redb_restore (path : string) (backup : option (engine_result Database)) (s : RedbStore)
    : RedbStore * store_result unit :=
  match backup with
  | None => (s, Err (Other ("backup file does not exist: " +:+ path)))
  | Some (Err e) => (s, Err (Corruption e))
  | Some (Ok backup_db) =>
      match
        (let? src_txn := other (db_begin_read backup_db) in
         let? src_table := other (rt_open_table VBytes (rs_table s) src_txn) in
         let? it := other (rtab_iter src_table) in
         collect (map other it))
      with
      | Err e => (s, Err e)
      | Ok entries => redb_batch_write entries s
      end
  end.

(** ** [RedbTxn] *)

Record RedbTxn := {
  inner : option WriteTransaction;
  overlay : gmap bytes TxnOp;
  txn_table : string;
}.

Definition redb_transaction (s : RedbStore) : store_result RedbTxn :=
  let? _ := lock_write s in
  let? txn := other (db_begin_write (rs_db s)) in
  Ok {| inner := Some txn; overlay := ∅; txn_table := rs_table s |}.

(** An operation on the inner transaction, if it is still there. *)
Definition with_inner {A} (body : W A) (t : RedbTxn) : RedbTxn * store_result A :=
  match inner t with
  | None => (t, Err (Other "transaction already consumed"%string))
  | Some w =>
      let '(w', r) := body w in
      ({| inner := Some w'; overlay := overlay t; txn_table := txn_table t |}, r)
  end.

Definition w_read {A} (op : WriteTransaction → engine_result A) : W A := λ w, (w, other (op w)).

Definition committed_key_expired (now : Z) (key : bytes) : RedbTxn → RedbTxn * store_result bool :=
  with_inner
    (let* _ := w_open VU64 TTL_TABLE in
     let* expiry := w_read (wtab_get VU64 TTL_TABLE key) in
     w_ret (match (expiry : option Z) with Some e => is_expired now e | None => false end)).

Definition redb_txn_get (now : Z) (key : bytes) (t : RedbTxn) : RedbTxn * store_result (option bytes) :=
  match overlay t !! key with
  | Some (Put v) => (t, Ok (Some v))
  | Some Delete => (t, Ok None)
  | None =>
      (let* ex := committed_key_expired now key in
       if ex : bool then λ t, (t, Ok None)
       else with_inner (let* _ := w_open VBytes (txn_table t) in
                        w_read (wtab_get VBytes (txn_table t) key))) t
  end.

Definition redb_txn_record (key : bytes) (op : TxnOp) (t : RedbTxn) : RedbTxn * store_result unit :=
  ({| inner := inner t; overlay := <[key:=op]> (overlay t); txn_table := txn_table t |}, Ok ()).

Definition redb_txn_put (key value : bytes) (t : RedbTxn) : RedbTxn * store_result unit :=
  (let* _ := with_inner (put_body (txn_table t) key value) in
   redb_txn_record key (Put value)) t.

Definition redb_txn_delete (key : bytes) (t : RedbTxn) : RedbTxn * store_result unit :=
  (let* _ := with_inner (delete_body (txn_table t) key) in
   redb_txn_record key Delete) t.

Definition redb_txn_contains (now : Z) (key : bytes) (t : RedbTxn) : RedbTxn * store_result bool :=
  (let* o := redb_txn_get now key in λ t, (t, Ok (bool_decide (is_Some o)))) t.

(** The committed part of a transactional range, skipping expired keys. *)
Fixpoint txn_range_loop (now : Z) (items : list (engine_result (bytes * bytes)))
    (merged : gmap bytes bytes) : W (gmap bytes bytes) :=
  match items with
  | [] => w_ret merged
  | item :: items =>
      let* (k, v) := (λ w, (w, other item)) in
      let* o := w_read (wtab_get VU64 TTL_TABLE k) in
      if (match (o : option Z) with Some e => is_expired now e | None => false end)
      then txn_range_loop now items merged
      else txn_range_loop now items (<[k:=v]> merged)
  end.

(** [None] is the panic of [BTreeMap::range] on an inverted interval. *)
Definition redb_txn_range (now : Z) (lo hi : bytes) (t : RedbTxn)
    : RedbTxn * option (store_result (list RangeItem)) :=
  match
    with_inner (let* _ := w_open VBytes (txn_table t) in
                let* _ := w_open VU64 TTL_TABLE in
                let* items := w_read (wtab_range VBytes (txn_table t) lo hi) in
                txn_range_loop now items ∅) t
  with
  | (t, Err e) => (t, Some (Err e))
  | (t, Ok merged) =>
      match btree_range lo hi (overlay t) with
      | None => (t, None)
      | Some ops => (t, Some (Ok (map Ok (btree_iter (apply_overlay ops merged)))))
      end
  end.

Definition redb_txn_commit (t : RedbTxn) (s : RedbStore) : RedbStore * store_result unit :=
  match inner t with
  | None => (s, Err (Other "transaction already consumed"%string))
  | Some w => let '(db, r) := wt_commit w (rs_db s) in (set_db db s, other r)
  end.

Definition redb_txn_rollback (t : RedbTxn) (s : RedbStore) : RedbStore * store_result unit :=
  match inner t with
  | None => (s, Ok ())
  | Some w => let '(db, r) := wt_abort w (rs_db s) in (set_db db s, other r)
  end.

(** The [KvStore] instance. *)
#[global] Instance redb_kv : KvStore RedbStore := {|
  kv_get := redb_get;
  kv_put := redb_put;
  kv_delete := redb_delete;
  kv_contains := contains_default redb_get;
  kv_range := redb_range;
  kv_iter := redb_iter;
  kv_Txn := RedbTxn;
  kv_transaction := redb_transaction;
  txn_get := redb_txn_get;
  txn_put := redb_txn_put;
  txn_delete := redb_txn_delete;
  txn_commit := redb_txn_commit;
  txn_rollback := redb_txn_rollback;
|}.

(** ** [RedbSnapshot] *)
Record RedbSnapshot := {
  snap_txn : ReadTransaction;
  snap_table : string;
  captured_at_millis : Z;
}.

Definition redb_snapshot (now : Z) (s : RedbStore) : store_result RedbSnapshot :=
  let? txn := other (db_begin_read (rs_db s)) in
  Ok {| snap_txn := txn; snap_table := rs_table s; captured_at_millis := epoch_millis now |}.

Definition redb_snap_get (key : bytes) (p : RedbSnapshot) : store_result (option bytes) :=
  let? ttl_table := other (rt_open_table VU64 TTL_TABLE (snap_txn p)) in
  let? ex := is_ttl_expired_at ttl_table key (captured_at_millis p) in
  if ex : bool then Ok None
  else
    let? table := other (rt_open_table VBytes (snap_table p) (snap_txn p)) in
    other (rtab_get key table).

Definition redb_snap_range (lo hi : bytes) (p : RedbSnapshot) : store_result (list RangeItem) :=
  let? ttl_table := other (rt_open_table VU64 TTL_TABLE (snap_txn p)) in
  let? table := other (rt_open_table VBytes (snap_table p) (snap_txn p)) in
  let? items := other (rtab_range lo hi table) in
  scan_loop (λ k, is_ttl_expired_at ttl_table k (captured_at_millis p)) items.

#[global] Instance redb_snap : KvSnapshot RedbSnapshot := {|
  snap_get := redb_snap_get;
  snap_range := redb_snap_range;
|}.

(** ** [RedbIter] *)
Record RedbIter := { iter_inner : list RangeItem; remaining : nat }.

Definition redb_iter_new (items : list RangeItem) : RedbIter :=
  {| iter_inner := items; remaining := length items |}.

Definition redb_iter_next (it : RedbIter) : RedbIter * option RangeItem :=
  match iter_inner it with
  | [] => (it, None)
  | x :: l => ({| iter_inner := l; remaining := remaining it - 1 |}, Some x)
  end.

Definition redb_iter_next_back (it : RedbIter) : RedbIter * option RangeItem :=
  match reverse (iter_inner it) with
  | [] => (it, None)
  | x :: l => ({| iter_inner := reverse l; remaining := remaining it - 1 |}, Some x)
  end.

(** [begin_read] and [open_table] of the primary table only. *)
Definition open_data_table (s : RedbStore) : store_result (ReadOnlyTable VBytes) :=
  let? txn := other (db_begin_read (rs_db s)) in
  other (rt_open_table VBytes (rs_table s) txn).

Definition redb_range_iter (lo hi : bytes) (s : RedbStore) : store_result RedbIter :=
  let? table := open_data_table s in
  let? items := other (rtab_range lo hi table) in
  Ok (redb_iter_new (map other items)).

Definition redb_iter_collected (s : RedbStore) : store_result RedbIter :=
  let? table := open_data_table s in
  let? items := other (rtab_iter table) in
  Ok (redb_iter_new (map other items)).

Definition redb_prefix_iter (prefix : bytes) (s : RedbStore) : store_result RedbIter :=
  let? table := open_data_table s in
  let? items :=
    match prefix_upper_bound prefix with
    | Some hi => other (rtab_range prefix hi table)
    | None => if bool_decide (prefix = []) then other (rtab_iter table)
              else other (rtab_range_from prefix table)
    end in
  Ok (redb_iter_new (map other items)).
End RedbModel.
