(* ===== verification/RedbSpec.v ===== *)
(** * The [redb] backend against its specification

    [redb_abs] is the pair of maps of [StoreSpec.v] that a store holds.  The file
    proves that each operation, over a lawful engine, refines [abs_step] on it: a
    transaction that fails changes nothing, and one that succeeds makes the step. *)

From S2P Require Import Prelude Bytes Core StoreSpec RedbEngine Redb.

Section RedbTheory.
Context {RE : RedbEngine} {RV : RedbView} {RL : RedbLaws}.
Implicit Types s : RedbStore.

Definition redb_step (now : Z) (op : StoreOp) (s : RedbStore) : RedbStore * store_result StoreOut :=
  let ret {A} (f : A → StoreOut) (p : RedbStore * store_result A) := (p.1, result_map f p.2) in
  match op with
  | OpGet k => ret OutValue (redb_get now k s)
  | OpPut k v => ret (λ _, OutUnit) (redb_put k v s)
  | OpDelete k => ret (λ _, OutUnit) (redb_delete k s)
  | OpRange lo hi => (s, result_map OutItems (redb_range now lo hi s))
  | OpPrefixScan p => (s, result_map OutItems (redb_prefix_scan now p s))
  | OpIter => (s, result_map OutItems (redb_iter now s))
  | OpKeys => (s, result_map OutKeys (redb_keys now s))
  | OpCount => (s, result_map OutCount (redb_count now s))
  | OpBatchWrite pairs => ret (λ _, OutUnit) (redb_batch_write pairs s)
  | OpBatchDelete keys => ret (λ _, OutUnit) (redb_batch_delete keys s)
  | OpPutWithTtl k v ttl => ret (λ _, OutUnit) (redb_put_with_ttl now k v ttl s)
  | OpExpire k ttl => ret (λ _, OutUnit) (redb_expire now k ttl s)
  | OpTtl k => ret OutTtl (redb_ttl now k s)
  | OpPersist k => ret OutBool (redb_persist k s)
  | OpPurgeExpired => ret OutCount (redb_purge_expired now s)
  end.

(** The abstraction of a store and of a write transaction on it. *)
Definition redb_abs (s : RedbStore) : AbsStore :=
  {| a_data := db_view VBytes (rs_table s) (rs_db s); a_ttl := db_view VU64 TTL_TABLE (rs_db s) |}.
Definition w_abs (n : string) (w : WriteTransaction) : AbsStore :=
  {| a_data := wt_view VBytes n w; a_ttl := wt_view VU64 TTL_TABLE w |}.

#[local] Arguments redb_abs _ : simpl never.
#[local] Arguments a_ttl _ : simpl never.
#[local] Arguments a_data _ : simpl never.

(** ** Specifications of transaction bodies *)
Abbreviation W A := (WriteTransaction → WriteTransaction * store_result A).

Definition w_spec {A} (n : string) (m : W A) (f : AbsStore → AbsStore * A) : Prop :=
  ∀ w w' r, m w = (w', r) →
    (∀ db, wt_base w db → wt_base w' db) ∧ ∀ a, r = Ok a → f (w_abs n w) = (w_abs n w', a).

Lemma w_spec_ret {A} n (a : A) : w_spec n (w_ret a) (λ x, (x, a)).
Proof. intros w w' r [= <- <-]. split; [done|]. intros a' [= ->]. done. Qed.

Lemma w_spec_bind {A B} n (m : W A) (k : A → W B) f g :
  w_spec n m f → (∀ a, w_spec n (k a) (g a)) →
  w_spec n (st_bind m k) (λ x, let '(y, a) := f x in g a y).
Proof.
  intros Hm Hk w w' r. unfold st_bind. destruct (m w) as [w1 [a|e]] eqn:E.
  - intros E2. destruct (Hm _ _ _ E) as [Hb1 Hf]. destruct (Hk a _ _ _ E2) as [Hb2 Hg].
    split; [auto|]. intros b Hr. by rewrite (Hf _ eq_refl), (Hg b Hr).
  - intros [= <- <-]. split; [by apply (Hm _ _ _ E)|done].
Qed.

Lemma w_spec_open t n n' : w_spec n (w_open t n') (λ x, (x, ())).
Proof.
  intros w w' r. unfold w_open, w_lift. destruct (wt_open_table t n' w) as [w1 o] eqn:E.
  intros [= <- <-]. split; [intros db; by eapply wt_open_table_base|].
  intros [] _. f_equal. unfold w_abs. by rewrite !(wt_open_table_law _ _ _ _ _ E).
Qed.

(** The effect of the two table updates on each table. *)
Definition abs_insert (t : VT) (k : bytes) : vt t → AbsStore → AbsStore * option (vt t) :=
  match t return vt t → AbsStore → AbsStore * option (vt t) with
  | VBytes => λ v a, ({| a_data := <[k:=v]> (a_data a); a_ttl := a_ttl a |}, a_data a !! k)
  | VU64 => λ e a, (abs_set_ttl k e a, a_ttl a !! k)
  end.

Definition abs_remove (t : VT) (k : bytes) : AbsStore → AbsStore * option (vt t) :=
  match t return AbsStore → AbsStore * option (vt t) with
  | VBytes => λ a, ({| a_data := delete k (a_data a); a_ttl := a_ttl a |}, a_data a !! k)
  | VU64 => λ a, (abs_del_ttl k a, a_ttl a !! k)
  end.

Definition table_of (t : VT) (n : string) : string := match t with VBytes => n | VU64 => TTL_TABLE end.

Lemma w_spec_insert t n k v : w_spec n (w_insert t (table_of t n) k v) (abs_insert t k v).
Proof.
  intros w w' r. unfold w_insert, w_lift.
  destruct (wtab_insert t (table_of t n) k v w) as [w1 o] eqn:E.
  intros [= <- <-]. split; [intros db; by eapply wtab_insert_base|].
  intros a Ha. destruct o as [o|]; [|done]. simplify_eq/=.
  apply wtab_insert_law in E as (-> & Hv & Hne). unfold w_abs.
  destruct t; simpl in *; unfold abs_set_ttl; simpl; by rewrite Hv, Hne.
Qed.

Lemma w_spec_remove t n k : w_spec n (w_remove t (table_of t n) k) (abs_remove t k).
Proof.
  intros w w' r. unfold w_remove, w_lift.
  destruct (wtab_remove t (table_of t n) k w) as [w1 o] eqn:E.
  intros [= <- <-]. split; [intros db; by eapply wtab_remove_base|].
  intros a Ha. destruct o as [o|]; [|done]. simplify_eq/=.
  apply wtab_remove_law in E as (-> & Hv & Hne). unfold w_abs.
  destruct t; simpl in *; unfold abs_del_ttl; simpl; by rewrite Hv, Hne.
Qed.

Lemma w_spec_ext {A} n (m : W A) f g : w_spec n m f → (∀ a, f a = g a) → w_spec n m g.
Proof. intros Hm Hfg w w' r E. destruct (Hm _ _ _ E) as [? Hf]. split; [done|]. intros. rewrite <-Hfg. auto. Qed.

(** Specifications of a body, assembled from its calls. *)
Ltac w_spec_solve :=
  eapply w_spec_ext;
  [repeat first
    [ apply w_spec_ret
    | apply w_spec_open
    | apply (w_spec_insert VBytes)
    | apply (w_spec_insert VU64)
    | apply (w_spec_remove VBytes)
    | apply (w_spec_remove VU64)
    | eapply w_spec_bind; [|intros ?] ]
  | ].

Lemma evict_body_spec n k : w_spec n (evict_body n k) (λ a, (abs_delete k a, ())).
Proof. w_spec_solve. done. Qed.

Lemma put_body_spec n k v : w_spec n (put_body n k v) (λ a, (abs_put k v a, ())).
Proof. w_spec_solve. done. Qed.

Lemma delete_body_spec n k : w_spec n (delete_body n k) (λ a, (abs_delete k a, ())).
Proof. w_spec_solve. done. Qed.

Lemma batch_write_loop_spec n pairs : w_spec n (batch_write_loop n pairs) (λ a, (abs_puts pairs a, ())).
Proof.
  induction pairs as [|[k v] pairs IH]; simpl; [apply w_spec_ret|].
  eapply w_spec_ext; [eapply w_spec_bind; [apply (w_spec_insert VBytes)|intros ?];
    eapply w_spec_bind; [apply (w_spec_remove VU64)|intros ?; apply IH]|done].
Qed.

Lemma batch_delete_loop_spec n keys : w_spec n (batch_delete_loop n keys) (λ a, (abs_deletes keys a, ())).
Proof.
  induction keys as [|k keys IH]; simpl; [apply w_spec_ret|].
  eapply w_spec_ext; [eapply w_spec_bind; [apply (w_spec_remove VBytes)|intros ?];
    eapply w_spec_bind; [apply (w_spec_remove VU64)|intros ?; apply IH]|done].
Qed.

(** ** The frame of a write *)
Definition same_store (s s' : RedbStore) : Prop :=
  rs_table s' = rs_table s ∧ rs_path s' = rs_path s ∧ rs_poisoned s' = rs_poisoned s.

Lemma redb_write_spec {A} (body : W A) f s s' r :
  w_spec (rs_table s) body f → redb_write body s = (s', r) →
  same_store s s' ∧
  match r with
  | Ok a => f (redb_abs s) = (redb_abs s', a)
  | Err _ => redb_abs s' = redb_abs s
  end.
Proof.
  intros Hb. unfold redb_write.
  destruct (lock_write s) as [[]|]; [|by intros [= <- <-]].
  destruct (db_begin_write (rs_db s)) as [w|] eqn:Ew; simpl; [|by intros [= <- <-]].
  apply db_begin_write_law in Ew as [Hbase Hv].
  destruct (body w) as [w' [a|e]] eqn:Eb; [|by intros [= <- <-]].
  destruct (Hb _ _ _ Eb) as [Hb' Hf]. specialize (Hb' _ Hbase). specialize (Hf _ eq_refl).
  assert (w_abs (rs_table s) w = redb_abs s) as Ha by (unfold w_abs, redb_abs; by rewrite !Hv).
  destruct (wt_commit w' (rs_db s)) as [db [[]|e]] eqn:Ec; intros [= <- <-]; (split; [done|]).
  - rewrite <-Ha, Hf. unfold w_abs, redb_abs. simpl.
    by rewrite !(wt_commit_law _ _ _ Ec Hb').
  - unfold redb_abs. simpl. by rewrite !(wt_commit_err _ _ _ _ Ec).
Qed.

(** ** Reads *)

Lemma open_tables_spec s tab ttl :
  open_tables s = Ok (tab, ttl) →
  tab_view VBytes tab = a_data (redb_abs s) ∧ tab_view VU64 ttl = a_ttl (redb_abs s).
Proof.
  unfold open_tables. intros H.
  destruct (db_begin_read (rs_db s)) as [r|] eqn:Er; simplify_eq/=.
  destruct (rt_open_table VBytes (rs_table s) r) as [t1|] eqn:E1; simplify_eq/=.
  destruct (rt_open_table VU64 TTL_TABLE r) as [t2|] eqn:E2; simplify_eq/=.
  by rewrite (rt_open_table_law _ _ _ _ E1), (rt_open_table_law _ _ _ _ E2),
    !(db_begin_read_law _ _ _ _ Er).
Qed.

Lemma redb_read_spec k s v e :
  redb_read k s = Ok (v, e) → v = a_data (redb_abs s) !! k ∧ e = a_ttl (redb_abs s) !! k.
Proof.
  unfold redb_read. intros H. destruct (open_tables s) as [[tab ttl]|] eqn:E; [|done].
  apply open_tables_spec in E as [<- <-].
  destruct (rtab_get k tab) eqn:E1; simplify_eq/=. destruct (rtab_get k ttl) eqn:E2; simplify_eq/=.
  split; [by apply (rtab_get_law VBytes)|by apply (rtab_get_law VU64)].
Qed.

Lemma is_ttl_expired_spec now ttl k b :
  is_ttl_expired now ttl k = Ok b → b = expired_key now (tab_view VU64 ttl) k.
Proof.
  unfold is_ttl_expired, expired_key. destruct (rtab_get k ttl) as [o|] eqn:E; simpl; [|done].
  apply (rtab_get_law VU64) in E as ->. by intros [= <-].
Qed.

Lemma redb_range_spec now lo hi s l :
  redb_range now lo hi s = Ok l → l = map Ok (btree_between lo hi (visible now (redb_abs s))).
Proof.
  unfold redb_range. destruct (open_tables s) as [[tab ttl]|] eqn:E; [|done].
  apply open_tables_spec in E as [Hd Ht].
  destruct (rtab_range lo hi tab) as [items|] eqn:Er; simpl; [|done]. intros Hs.
  destruct (scan_loop_spec _ _ _ _ (is_ttl_expired_spec now ttl) Hs) as (l' & Hc & ->).
  rewrite (rtab_range_law _ _ _ _ _ _ Er Hc), Hd, Ht. by rewrite btree_between_visible.
Qed.

Lemma redb_iter_spec now s l :
  redb_iter now s = Ok l → l = map Ok (btree_iter (visible now (redb_abs s))).
Proof.
  unfold redb_iter. destruct (open_tables s) as [[tab ttl]|] eqn:E; [|done].
  apply open_tables_spec in E as [Hd Ht].
  destruct (rtab_iter tab) as [items|] eqn:Er; simpl; [|done]. intros Hs.
  destruct (scan_loop_spec _ _ _ _ (is_ttl_expired_spec now ttl) Hs) as (l' & Hc & ->).
  rewrite (rtab_iter_law _ _ _ _ Er Hc), Hd, Ht. by rewrite btree_iter_visible.
Qed.

Lemma redb_prefix_scan_spec now p s l :
  redb_prefix_scan now p s = Ok l → l = map Ok (with_prefix p (visible now (redb_abs s))).
Proof.
  unfold redb_prefix_scan. destruct (open_tables s) as [[tab ttl]|] eqn:E; [|done].
  apply open_tables_spec in E as [Hd Ht]. pose proof (is_ttl_expired_spec now ttl) as Hex.
  destruct (prefix_upper_bound p) as [hi|] eqn:Ep; [|case_bool_decide as Hp].
  - destruct (rtab_range p hi tab) as [items|] eqn:Er; simpl; [|done]. intros Hs.
    destruct (scan_loop_spec _ _ _ _ Hex Hs) as (l' & Hc & ->).
    rewrite (rtab_range_law _ _ _ _ _ _ Er Hc), Hd, Ht.
    rewrite (btree_between_prefix _ _ _ Ep). by rewrite with_prefix_visible.
  - destruct (rtab_iter tab) as [items|] eqn:Er; simpl; [|done]. intros Hs.
    destruct (scan_loop_spec _ _ _ _ Hex Hs) as (l' & Hc & ->).
    rewrite (rtab_iter_law _ _ _ _ Er Hc), Hd, Ht, <-with_prefix_visible. subst p. do 2 f_equal.
    induction (btree_iter _) as [|x l IH]; simpl; by f_equal.
  - destruct (rtab_range_from p tab) as [items|] eqn:Er; simpl; [|done]. intros Hs.
    destruct (scan_loop_spec _ _ _ _ Hex Hs) as (l' & Hc & ->).
    rewrite (rtab_range_from_law _ _ _ _ _ Er Hc), Hd, Ht.
    rewrite (btree_from_prefix _ _ Ep). by rewrite with_prefix_visible.
Qed.

Lemma redb_count_spec now s n : redb_count now s = Ok n → n = size (visible now (redb_abs s)).
Proof.
  unfold redb_count. destruct (open_tables s) as [[tab ttl]|] eqn:E; [|done].
  apply open_tables_spec in E as [Hd Ht].
  destruct (rtab_iter tab) as [items|] eqn:Er; simpl; [|done]. intros Hs.
  destruct (count_loop_spec _ _ _ _ _ (is_ttl_expired_spec now ttl) Hs) as (l' & Hc & ->).
  rewrite (rtab_iter_law _ _ _ _ Er Hc), Hd, Ht, btree_iter_visible. simpl. by rewrite btree_iter_length.
Qed.

Lemma redb_keys_spec now s l :
  redb_keys now s = Ok l →
  l = map Ok (btree_iter (visible now (redb_abs s))).*1 ∨ ∃ e, Err e ∈ l.
Proof.
  unfold redb_keys. destruct (open_tables s) as [[tab ttl]|] eqn:E; [|done].
  apply open_tables_spec in E as [Hd Ht].
  destruct (rtab_iter tab) as [items|] eqn:Er; simpl; intros [= <-]; [|right; exists (Other e); set_solver].
  destruct (keys_loop_spec _ _ items (is_ttl_expired_spec now ttl)) as [(l' & Hc & ->)|]; [left|by right].
  rewrite (rtab_iter_law _ _ _ _ Er Hc), Hd, Ht. by rewrite btree_iter_visible.
Qed.

Lemma purge_loop_spec now items keys :
  purge_loop now items = Ok keys →
  ∃ l, collect items = Ok l ∧ keys = (List.filter (λ ke, is_expired now ke.2) l).*1.
Proof.
  revert keys. induction items as [|[[k e]|e] items IH]; intros keys; simpl; [|intros H|done].
  { intros [= <-]. by exists []. }
  destruct (purge_loop now items) as [keys'|] eqn:El; [|done]. simplify_eq.
  destruct (IH _ eq_refl) as (l & -> & ->). eexists. split; [done|]. simpl. by destruct (is_expired now e).
Qed.

Lemma redb_expired_keys_spec now s keys :
  redb_expired_keys now s = Ok keys → keys = abs_expired now (redb_abs s).
Proof.
  unfold redb_expired_keys, abs_expired. destruct (db_begin_read (rs_db s)) as [r|] eqn:Er; simpl; [|done].
  destruct (rt_open_table VU64 TTL_TABLE r) as [tab|] eqn:Et; simpl; [|done].
  destruct (rtab_iter tab) as [items|] eqn:Ei; simpl; [|done].
  intros (l & Hc & ->)%purge_loop_spec. rewrite (rtab_iter_law _ _ _ _ Ei Hc).
  by rewrite (rt_open_table_law _ _ _ _ Et), (db_begin_read_law _ _ _ _ Er).
Qed.

(** ** Every operation refines the specification or fails without effect *)
Definition step_ok (now : Z) (op : StoreOp) (s s' : RedbStore) (r : store_result StoreOut) : Prop :=
  same_store s s' ∧
  (abs_step now op (redb_abs s) = (redb_abs s', r) ∨ engine_failed r ∧ redb_abs s' = redb_abs s).

Lemma same_store_refl s : same_store s s.
Proof. done. Qed.

(** The common shape of the operations that are one write transaction. *)
Lemma redb_write_step {A} now op (body : W A) f (out : A → StoreOut) s :
  w_spec (rs_table s) body f →
  (abs_step now op (redb_abs s) = let '(a, x) := f (redb_abs s) in (a, Ok (out x))) →
  step_ok now op s (redb_write body s).1 (result_map out (redb_write body s).2).
Proof.
  intros Hb Hf. destruct (redb_write body s) as [s' r] eqn:E.
  destruct (redb_write_spec _ _ _ _ _ Hb E) as [Hs Hr]. split; [done|]. simpl.
  destruct r as [a|e]; simpl; [left|by right]. by rewrite Hf, Hr.
Qed.

Lemma redb_read_step now op s r :
  (∀ out, r = Ok out → abs_step now op (redb_abs s) = (redb_abs s, r) ∨ engine_failed r) →
  step_ok now op s s r.
Proof.
  intros H. split; [done|]. destruct r as [out|e]; [|by right].
  destruct (H _ eq_refl); [by left|by right].
Qed.

Lemma redb_evict_spec k s s' r :
  redb_evict k s = (s', r) →
  same_store s s' ∧
  redb_abs s' = match r with Ok _ => abs_delete k (redb_abs s) | Err _ => redb_abs s end.
Proof.
  intros H. apply (redb_write_spec _ _ _ _ _ (evict_body_spec _ k)) in H as [? Hr].
  split; [done|]. destruct r; [|done]. exact (eq_sym (f_equal fst Hr)).
Qed.

Lemma redb_get_step now k s :
  step_ok now (OpGet k) s (redb_get now k s).1 (result_map OutValue (redb_get now k s).2).
Proof.
  unfold redb_get. destruct (redb_read k s) as [[v [e|]]|] eqn:E; simpl.
  - apply redb_read_spec in E as [-> He].
    destruct (is_expired now e) eqn:Ex.
    + destruct (redb_evict k s) as [s' [[]|e']] eqn:Ev; apply redb_evict_spec in Ev as [? Ha];
        (split; [done|]); simpl; [left|by right].
      unfold expired_key. by rewrite <-He, Ex, Ha.
    + split; [done|]. left. simpl. unfold expired_key. by rewrite <-He, Ex.
  - apply redb_read_spec in E as [-> He]. split; [done|]. left. simpl.
    unfold expired_key. by rewrite <-He.
  - split; [done|by right].
Qed.

Lemma redb_ttl_step now k s :
  (∀ e, a_ttl (redb_abs s) !! k = Some e → is_expired now e = false → (epoch_millis now ≤ e)%Z) →
  step_ok now (OpTtl k) s (redb_ttl now k s).1 (result_map OutTtl (redb_ttl now k s).2).
Proof.
  intros Hle. unfold redb_ttl. destruct (redb_read k s) as [[v o]|] eqn:E; simpl.
  2: { split; [done|by right]. }
  apply redb_read_spec in E as [Hv Ho].
  destruct v as [v|]; [|split; [done|]; left; simpl; by rewrite <-Hv].
  destruct o as [e|]; [|split; [done|]; left; simpl; by rewrite <-Hv, <-Ho].
  destruct (is_expired now e) eqn:Ex.
  - destruct (redb_evict k s) as [s' [[]|e']] eqn:Ev; apply redb_evict_spec in Ev as [? Ha];
      (split; [done|]); simpl; [left|by right]. by rewrite <-Hv, <-Ho, Ex, Ha.
  - split.
    { by destruct (duration_since_epoch now). }
    specialize (Hle _ (eq_sym Ho) Ex). unfold epoch_millis in Hle. simpl. rewrite <-Hv, <-Ho, Ex.
    destruct (duration_since_epoch now) as [d|]; left; simpl; [|done].
    do 4 f_equal. lia.
Qed.

Lemma redb_exists_spec k s b :
  redb_exists k s = Ok b → b = bool_decide (is_Some (a_data (redb_abs s) !! k)).
Proof.
  unfold redb_exists. destruct (db_begin_read (rs_db s)) as [r|] eqn:Er; simpl; [|done].
  destruct (rt_open_table VBytes (rs_table s) r) as [tab|] eqn:Et; simpl; [|done].
  destruct (rtab_get k tab) as [o|] eqn:Eg; simpl; [|done]. intros [= <-].
  apply (rtab_get_law VBytes) in Eg as ->.
  by rewrite (rt_open_table_law _ _ _ _ Et), (db_begin_read_law _ _ _ _ Er).
Qed.

Lemma redb_expire_step now k ttl s :
  step_ok now (OpExpire k ttl) s (redb_expire now k ttl s).1
    (result_map (λ _, OutUnit) (redb_expire now k ttl s).2).
Proof.
  unfold redb_expire. destruct (redb_exists k s) as [b|] eqn:E; simpl; [|split; [done|by right]].
  apply redb_exists_spec in E. destruct (a_data (redb_abs s) !! k) as [v|] eqn:Ed.
  - rewrite bool_decide_eq_true_2 in E by eauto. subst b.
    destruct (expiry_epoch_millis now ttl) as [e|] eqn:Ee.
    + eapply redb_write_step; [w_spec_solve; reflexivity|]. simpl. by rewrite Ed, Ee.
    + split; [done|]. left. simpl. by rewrite Ed, Ee.
  - rewrite bool_decide_eq_false_2 in E by (by intros []). subst b. split; [done|]. left. simpl. by rewrite Ed.
Qed.

Lemma redb_persist_step now k s :
  step_ok now (OpPersist k) s (redb_persist k s).1 (result_map OutBool (redb_persist k s).2).
Proof.
  unfold redb_persist. destruct (redb_read k s) as [[v o]|] eqn:E; simpl; [|split; [done|by right]].
  apply redb_read_spec in E as [Hv Ho].
  destruct v as [v|]; [|split; [done|]; left; simpl; by rewrite <-Hv].
  destruct o as [e|]; [|split; [done|]; left; simpl; by rewrite <-Hv, <-Ho].
  eapply redb_write_step; [w_spec_solve; reflexivity|]. simpl. by rewrite <-Hv, <-Ho.
Qed.

Lemma redb_put_with_ttl_step now k v ttl s :
  step_ok now (OpPutWithTtl k v ttl) s (redb_put_with_ttl now k v ttl s).1
    (result_map (λ _, OutUnit) (redb_put_with_ttl now k v ttl s).2).
Proof.
  unfold redb_put_with_ttl. destruct (expiry_epoch_millis now ttl) as [e|] eqn:Ee.
  - eapply redb_write_step; [w_spec_solve; reflexivity|]. simpl. by rewrite Ee.
  - split; [done|by right].
Qed.

Lemma batch_delete_body_spec n keys :
  w_spec n (let* _ := w_open VBytes n in let* _ := w_open VU64 TTL_TABLE in batch_delete_loop n keys)
    (λ a, (abs_deletes keys a, ())).
Proof.
  eapply w_spec_ext; [eapply w_spec_bind; [apply w_spec_open|intros ?];
    eapply w_spec_bind; [apply w_spec_open|intros ?]; apply batch_delete_loop_spec|done].
Qed.

Lemma batch_write_body_spec n pairs :
  w_spec n (let* _ := w_open VBytes n in let* _ := w_open VU64 TTL_TABLE in batch_write_loop n pairs)
    (λ a, (abs_puts pairs a, ())).
Proof.
  eapply w_spec_ext; [eapply w_spec_bind; [apply w_spec_open|intros ?];
    eapply w_spec_bind; [apply w_spec_open|intros ?]; apply batch_write_loop_spec|done].
Qed.

Lemma redb_purge_step now s :
  step_ok now OpPurgeExpired s (redb_purge_expired now s).1
    (result_map OutCount (redb_purge_expired now s).2).
Proof.
  unfold redb_purge_expired. destruct (redb_expired_keys now s) as [keys|] eqn:E; simpl; [|split; [done|by right]].
  apply redb_expired_keys_spec in E. unfold step_ok. simpl. rewrite <-E.
  destruct keys as [|k keys]; [split; [done|by left]|].
  unfold redb_batch_delete. destruct (redb_write _ s) as [s' r] eqn:Ew.
  destruct (redb_write_spec _ _ _ _ _ (batch_delete_body_spec _ _) Ew) as [Hs Hr].
  destruct r as [[]|e]; (split; [done|]); [left|by right]. f_equal. exact (f_equal fst Hr).
Qed.

Lemma redb_step_ok now op s : step_ok now op s (redb_step now op s).1 (redb_step now op s).2.
Proof.
  destruct op; simpl.
  - apply redb_get_step.
  - by eapply redb_write_step; [apply put_body_spec|].
  - by eapply redb_write_step; [apply delete_body_spec|].
  - apply redb_read_step. destruct (redb_range now lo hi s) eqn:E; [|done].
    intros out _. left. apply redb_range_spec in E. simpl. by rewrite E.
  - apply redb_read_step. destruct (redb_prefix_scan now p s) eqn:E; [|done].
    intros out _. left. apply redb_prefix_scan_spec in E. simpl. by rewrite E.
  - apply redb_read_step. destruct (redb_iter now s) eqn:E; [|done].
    intros out _. left. apply redb_iter_spec in E. simpl. by rewrite E.
  - apply redb_read_step. destruct (redb_keys now s) eqn:E; [|done].
    intros out _. apply redb_keys_spec in E as [->|?]; [by left|by right].
  - apply redb_read_step. destruct (redb_count now s) eqn:E; [|done].
    intros out _. left. apply redb_count_spec in E. simpl. by rewrite E.
  - by eapply redb_write_step; [apply batch_write_body_spec|].
  - by eapply redb_write_step; [apply batch_delete_body_spec|].
  - apply redb_put_with_ttl_step.
  - apply redb_expire_step.
  - apply redb_ttl_step. intros e _. apply unexpired_ahead.
  - apply redb_persist_step.
  - apply redb_purge_step.
Qed.

(** ** Reliable engines: every operation returns *)
Section Reliable.
Context {RR : RedbReliable}.

Definition redb_ready (s : RedbStore) : Prop :=
  rs_poisoned s = false ∧ db_has VBytes (rs_table s) (rs_db s) ∧ db_has VU64 TTL_TABLE (rs_db s).

Definition w_total {A} (m : W A) : Prop := ∀ w, ∃ w' a, m w = (w', Ok a).

Lemma w_total_ret {A} (a : A) : w_total (w_ret a).
Proof. intros w. by eexists _, _. Qed.
Lemma w_total_bind {A B} (m : W A) (k : A → W B) :
  w_total m → (∀ a, w_total (k a)) → w_total (st_bind m k).
Proof.
  intros Hm Hk w. unfold st_bind. destruct (Hm w) as (w1 & a & ->). apply Hk.
Qed.
Lemma w_total_open t n : w_total (w_open t n).
Proof. intros w. unfold w_open, w_lift. destruct (open_write_ok t n w) as (w' & -> & _). by eexists _, _. Qed.
Lemma w_total_insert t n k v : w_total (w_insert t n k v).
Proof. intros w. unfold w_insert, w_lift. destruct (wtab_insert_ok t n k v w) as (w' & o & ->). by eexists _, _. Qed.
Lemma w_total_remove t n k : w_total (w_remove t n k).
Proof. intros w. unfold w_remove, w_lift. destruct (wtab_remove_ok t n k w) as (w' & o & ->). by eexists _, _. Qed.

Ltac w_total_solve :=
  repeat first [ apply w_total_ret | apply w_total_open | apply (w_total_insert VBytes)
    | apply (w_total_insert VU64) | apply (w_total_remove VBytes) | apply (w_total_remove VU64)
    | apply w_total_bind; [|intros ?] ].

Lemma batch_write_loop_total n pairs : w_total (batch_write_loop n pairs).
Proof. induction pairs as [|[k v] pairs IH]; simpl; w_total_solve. apply IH. Qed.
Lemma batch_delete_loop_total n keys : w_total (batch_delete_loop n keys).
Proof. induction keys as [|k keys IH]; simpl; w_total_solve. apply IH. Qed.

Lemma redb_write_total {A} (body : W A) s :
  redb_ready s → w_total body →
  ∃ s' a, redb_write body s = (s', Ok a) ∧ redb_ready s'.
Proof.
  intros (Hp & Hd & Ht) Hb. unfold redb_write, lock_write. rewrite Hp.
  destruct (begin_write_ok (rs_db s)) as (w & ->). simpl. destruct (Hb w) as (w' & a & ->).
  destruct (commit_ok w' (rs_db s)) as (db & -> & Hh). eexists _, _. split; [done|].
  unfold redb_ready. simpl. auto.
Qed.

Lemma open_tables_total s : redb_ready s → ∃ tab ttl, open_tables s = Ok (tab, ttl).
Proof.
  intros (_ & Hd & Ht). unfold open_tables. destruct (begin_read_ok (rs_db s)) as (r & Er). rewrite Er. simpl.
  destruct (open_read_ok _ _ _ _ Er Hd) as (tab & ->). simpl.
  destruct (open_read_ok _ _ _ _ Er Ht) as (ttl & ->). simpl. eauto.
Qed.

Lemma redb_read_total k s : redb_ready s → ∃ v e, redb_read k s = Ok (v, e).
Proof.
  intros H. unfold redb_read. destruct (open_tables_total s H) as (tab & ttl & ->).
  destruct (rtab_get_ok _ k tab) as (v & ->), (rtab_get_ok _ k ttl) as (e & ->). simpl. eauto.
Qed.

Lemma is_ttl_expired_total now ttl k : ∃ b, is_ttl_expired now ttl k = Ok b.
Proof. unfold is_ttl_expired. destruct (rtab_get_ok _ k ttl) as (o & ->). simpl. eauto. Qed.

Lemma purge_loop_total now items l : collect items = Ok l → ∃ keys, purge_loop now items = Ok keys.
Proof.
  revert l. induction items as [|[[k v]|e] items IH]; intros l; simpl; [eauto| |done].
  destruct (collect items) as [l'|]; [|done]. intros _. destruct (IH _ eq_refl) as (keys & ->). eauto.
Qed.

Lemma redb_evict_total k s :
  redb_ready s → ∃ s', redb_evict k s = (s', Ok ()) ∧ redb_ready s' ∧ redb_abs s' = abs_delete k (redb_abs s).
Proof.
  intros H. destruct (redb_write_total (evict_body (rs_table s) k) s H) as (s' & [] & E & Hr).
  { unfold evict_body. w_total_solve. }
  exists s'. split_and!; [done|done|]. by apply redb_evict_spec in E as [_ ?].
Qed.

(** An operation whose outcome cannot be a failure refines the specification. *)
Lemma step_total_write {A} now op (body : W A) (out : A → StoreOut) s :
  redb_ready s → w_total body → (∀ a, ¬ engine_failed (Ok (out a))) →
  redb_step now op s = ((redb_write body s).1, result_map out (redb_write body s).2) →
  ∃ s' r, redb_step now op s = (s', r) ∧ redb_ready s' ∧ abs_step now op (redb_abs s) = (redb_abs s', r).
Proof.
  intros Hr Hb Hout Hstep. destruct (redb_write_total body s Hr Hb) as (s' & a & E & Hr').
  pose proof (redb_step_ok now op s) as [_ Hok]. rewrite Hstep, E in *. simpl in *.
  destruct Hok as [Hok|[Hf _]]; [|by destruct (Hout a)]. eauto.
Qed.

Lemma step_total_read now op s r :
  redb_ready s → ¬ engine_failed r → redb_step now op s = (s, r) →
  ∃ s' r, redb_step now op s = (s', r) ∧ redb_ready s' ∧ abs_step now op (redb_abs s) = (redb_abs s', r).
Proof.
  intros Hr Hf Hstep. pose proof (redb_step_ok now op s) as [_ Hok]. rewrite Hstep in *. simpl in *.
  destruct Hok as [Hok|[? _]]; [|done]. eauto.
Qed.

Lemma redb_scan_total now s :
  redb_ready s → (∃ l, redb_iter now s = Ok l) ∧ (∀ lo hi, ∃ l, redb_range now lo hi s = Ok l) ∧
  (∀ p, ∃ l, redb_prefix_scan now p s = Ok l) ∧ (∃ n, redb_count now s = Ok n) ∧
  (∃ l, redb_keys now s = Ok l ∧ ∀ e, Err e ∉ l).
Proof.
  intros H. unfold redb_iter, redb_range, redb_prefix_scan, redb_count, redb_keys.
  destruct (open_tables_total s H) as (tab & ttl & ->).
  pose proof (is_ttl_expired_total now ttl) as Hex.
  destruct (rtab_iter_ok _ tab) as (it & l & -> & Hit). simpl. split_and!.
  - by eapply scan_loop_total.
  - intros lo hi. destruct (rtab_range_ok _ lo hi tab) as (it' & l' & -> & ?). by eapply scan_loop_total.
  - intros p. destruct (prefix_upper_bound p) as [hi|]; [|case_bool_decide].
    + destruct (rtab_range_ok _ p hi tab) as (it' & l' & -> & ?). by eapply scan_loop_total.
    + by eapply scan_loop_total.
    + destruct (rtab_range_from_ok _ p tab) as (it' & l' & -> & ?). by eapply scan_loop_total.
  - by eapply count_loop_total.
  - eexists. split; [done|]. by eapply keys_loop_total.
Qed.

Lemma redb_get_total now k s :
  redb_ready s → ∃ s' v, redb_get now k s = (s', Ok v) ∧ redb_ready s'.
Proof.
  intros H. unfold redb_get. destruct (redb_read_total k s H) as (v & [e|] & ->); [|eauto].
  destruct (is_expired now e); [|eauto].
  destruct (redb_evict_total k s H) as (s' & -> & ? & _). eauto.
Qed.

Lemma redb_exists_total k s : redb_ready s → ∃ b, redb_exists k s = Ok b.
Proof.
  intros (_ & Hd & _). unfold redb_exists. destruct (begin_read_ok (rs_db s)) as (r & Er). rewrite Er. simpl.
  destruct (open_read_ok _ _ _ _ Er Hd) as (tab & ->). simpl.
  destruct (rtab_get_ok _ k tab) as (o & ->). simpl. eauto.
Qed.

Lemma redb_expired_keys_total now s : redb_ready s → ∃ keys, redb_expired_keys now s = Ok keys.
Proof.
  intros (_ & _ & Ht). unfold redb_expired_keys.
  destruct (begin_read_ok (rs_db s)) as (r & Er). rewrite Er. simpl.
  destruct (open_read_ok _ _ _ _ Er Ht) as (tab & ->). simpl.
  destruct (rtab_iter_ok _ tab) as (it & l & -> & Hit). simpl. by eapply purge_loop_total.
Qed.

Definition step_refines (now : Z) (op : StoreOp) (s : RedbStore) : Prop :=
  ∃ s' r, redb_step now op s = (s', r) ∧ redb_ready s' ∧ abs_step now op (redb_abs s) = (redb_abs s', r).

Lemma redb_expire_total now k ttl s : redb_ready s → step_refines now (OpExpire k ttl) s.
Proof.
  intros H. unfold step_refines. simpl. unfold redb_expire.
  destruct (redb_exists_total k s H) as (b & E). rewrite E. apply redb_exists_spec in E.
  destruct (a_data (redb_abs s) !! k) as [v|] eqn:Ed.
  - rewrite bool_decide_eq_true_2 in E by eauto. subst b.
    destruct (expiry_epoch_millis now ttl) as [e|] eqn:Ee; [|by eexists _, _].
    destruct (redb_write_total (let* _ := w_open VU64 TTL_TABLE in
      let* _ := w_insert VU64 TTL_TABLE k e in w_ret ()) s H) as (s' & [] & Ew & Hr); [w_total_solve|].
    eexists s', _. split; [by rewrite Ew|]. split; [done|].
    eapply redb_write_spec in Ew as [_ Ew]; [|w_spec_solve; reflexivity].
    f_equal. exact (f_equal fst Ew).
  - rewrite bool_decide_eq_false_2 in E by (by intros []). subst b. by eexists _, _.
Qed.

Lemma redb_ttl_total now k s : redb_ready s → step_refines now (OpTtl k) s.
Proof.
  intros H. unfold step_refines. simpl. unfold redb_ttl.
  destruct (redb_read_total k s H) as (v & o & E). rewrite E. apply redb_read_spec in E as [Hv Ho].
  rewrite <-Hv, <-Ho. destruct v as [v|]; [|by eexists _, _]. destruct o as [e|]; [|by eexists _, _].
  destruct (is_expired now e) eqn:Ex.
  - destruct (redb_evict_total k s H) as (s' & -> & Hr & Ha). eexists s', _. rewrite Ha. done.
  - pose proof (unexpired_ahead _ _ Ex) as Hle. unfold epoch_millis in Hle.
    destruct (duration_since_epoch now) as [d|]; eexists _, _; (split; [done|]); (split; [done|]); simpl; [|done].
    do 4 f_equal. lia.
Qed.

Lemma redb_persist_total now k s : redb_ready s → step_refines now (OpPersist k) s.
Proof.
  intros H. unfold step_refines. simpl. unfold redb_persist.
  destruct (redb_read_total k s H) as (v & o & E). rewrite E. apply redb_read_spec in E as [Hv Ho].
  rewrite <-Hv, <-Ho. destruct v as [v|]; [|by eexists _, _]. destruct o as [e|]; [|by eexists _, _].
  destruct (redb_write_total (let* _ := w_open VU64 TTL_TABLE in
    let* _ := w_remove VU64 TTL_TABLE k in w_ret true) s H) as (s' & b & Ew & Hr); [w_total_solve|].
  eexists s', _. split; [by rewrite Ew|]. split; [done|].
  eapply redb_write_spec in Ew as [_ Ew]; [|w_spec_solve; reflexivity].
  assert (b = true) as -> by exact (eq_sym (f_equal snd Ew)). f_equal. exact (f_equal fst Ew).
Qed.

Lemma redb_step_total now op s : redb_ready s → step_refines now op s.
Proof.
  intros H. destruct (redb_scan_total now s H) as ([l1 E1] & E2 & E3 & [n E4] & (l5 & E5 & H5)).
  destruct op; auto using redb_expire_total, redb_ttl_total, redb_persist_total.
  - destruct (redb_get_total now k s H) as (s' & v & E & Hr). unfold step_refines.
    pose proof (redb_step_ok now (OpGet k) s) as [_ Hok]. simpl in *. rewrite E in *.
    destruct Hok as [Hok|[[] _]]. simpl in *. eauto.
  - apply (step_total_write now _ (put_body (rs_table s) k v) (λ _, OutUnit)); auto.
    unfold put_body. w_total_solve.
  - apply (step_total_write now _ (delete_body (rs_table s) k) (λ _, OutUnit)); auto.
    unfold delete_body. w_total_solve.
  - destruct (E2 lo hi) as [l E]. eapply step_total_read; [done| |simpl; by rewrite E]. auto.
  - destruct (E3 p) as [l E]. eapply step_total_read; [done| |simpl; by rewrite E]. auto.
  - eapply step_total_read; [done| |simpl; by rewrite E1]. auto.
  - eapply step_total_read; [done| |simpl; by rewrite E5]. simpl. by intros [e ?%H5].
  - eapply step_total_read; [done| |simpl; by rewrite E4]. auto.
  - eapply step_total_write; [done| | |reflexivity]; [|auto].
    w_total_solve. apply batch_write_loop_total.
  - eapply step_total_write; [done| | |reflexivity]; [|auto].
    w_total_solve. apply batch_delete_loop_total.
  - unfold step_refines. simpl. unfold redb_put_with_ttl.
    destruct (expiry_epoch_millis now ttl) as [e|] eqn:Ee; [|by eexists _, _].
    destruct (redb_write_total (let* _ := w_open VBytes (rs_table s) in let* _ := w_open VU64 TTL_TABLE in
      let* _ := w_insert VBytes (rs_table s) k v in
      let* _ := w_insert VU64 TTL_TABLE k e in w_ret ()) s H) as (s' & [] & Ew & Hr); [w_total_solve|].
    eexists s', _. split; [by rewrite Ew|]. split; [done|].
    eapply redb_write_spec in Ew as [_ Ew]; [|w_spec_solve; reflexivity].
    f_equal. exact (f_equal fst Ew).
  - unfold step_refines. pose proof (redb_step_ok now OpPurgeExpired s) as [_ Hok]. simpl in *.
    unfold redb_purge_expired in *. destruct (redb_expired_keys_total now s H) as (keys & E). rewrite E in *.
    destruct keys as [|k keys].
    + destruct Hok as [Hok|[[] _]]. simpl in *. eauto.
    + unfold redb_batch_delete in *.
      edestruct (redb_write_total (let* _ := w_open VBytes (rs_table s) in let* _ := w_open VU64 TTL_TABLE in
        batch_delete_loop (rs_table s) (k :: keys)) s H) as (s' & [] & Ew & Hr).
      { w_total_solve. apply batch_delete_loop_total. }
      rewrite Ew in *. destruct Hok as [Hok|[[] _]]. simpl in *. eauto.
Qed.
End Reliable.
End RedbTheory.

#[global] Arguments redb_abs {_ _} _ : simpl never.
#[global] Arguments a_ttl _ : simpl never.
#[global] Arguments a_data _ : simpl never.
