(* ===== verification/RedbTxn.v ===== *)
(** * Transactions and snapshots of the [redb] backend

    [RedbTxn] writes through to a write transaction of the engine and keeps an
    overlay of its own operations; [RedbSnapshot] reads from one read
    transaction.  Both are shown to serve a fixed map, which makes [RedbStore] an
    instance of the contract of [KvStore] and [RedbSnapshot] one of the contract of
    [KvSnapshot]: all theorems of [Core.v] on default methods hold for them. *)

From S2P Require Import Prelude Bytes Core StoreSpec RedbEngine Redb RedbSpec.

Section TxnTheory.
Context {RE : RedbEngine} {RV : RedbView} {RL : RedbLaws}.
Implicit Types (s : RedbStore).
Abbreviation W A := (WriteTransaction → WriteTransaction * store_result A).

(** The overlay agrees with what was written through. *)
Definition overlay_ok (ov : gmap bytes TxnOp) (a : AbsStore) : Prop :=
  ∀ k op, ov !! k = Some op →
    a_data a !! k = (match op with Put v => Some v | Delete => None end) ∧ a_ttl a !! k = None.

Definition redb_txn_base (t : RedbTxn) (s : RedbStore) : Prop :=
  ∃ w, inner t = Some w ∧ wt_base w (rs_db s) ∧ txn_table t = rs_table s ∧
    overlay_ok (overlay t) (w_abs (txn_table t) w).

Definition redb_txn_view (now : Z) (t : RedbTxn) : gmap bytes bytes :=
  match inner t with Some w => visible now (w_abs (txn_table t) w) | None => ∅ end.

#[global] Instance redb_view : @KvView RedbStore redb_kv := {|
  kv_view now s := visible now (redb_abs s);
  txn_view := redb_txn_view;
  txn_base := redb_txn_base;
|}.

Lemma with_inner_spec {A} (body : W A) t w t' r :
  inner t = Some w → with_inner body t = (t', r) →
  ∃ w', body w = (w', r) ∧ t' = {| inner := Some w'; overlay := overlay t; txn_table := txn_table t |}.
Proof.
  unfold with_inner. intros ->. destruct (body w) as [w' r'] eqn:E. intros [= <- <-]. eauto.
Qed.

(** A body that leaves the tables as they are leaves the transaction as it is. *)
Definition w_keeps {A} (m : W A) (n : string) : Prop :=
  ∀ w w' r, m w = (w', r) → w_abs n w' = w_abs n w ∧ ∀ db, wt_base w db → wt_base w' db.

Lemma w_keeps_ret {A} n (a : A) : w_keeps (w_ret a) n.
Proof. by intros w w' r [= <- <-]. Qed.
Lemma w_keeps_read {A} n (op : WriteTransaction → engine_result A) : w_keeps (w_read op) n.
Proof. by intros w w' r [= <- <-]. Qed.
Lemma w_keeps_open t n n' : w_keeps (w_open t n') n.
Proof.
  intros w w' r. unfold w_open, w_lift. destruct (wt_open_table t n' w) as [w1 o] eqn:E.
  intros [= <- <-]. split; [|intros db; by eapply wt_open_table_base].
  unfold w_abs. by rewrite !(wt_open_table_law _ _ _ _ _ E).
Qed.
Lemma w_keeps_bind {A B} n (m : W A) (k : A → W B) :
  w_keeps m n → (∀ a, w_keeps (k a) n) → w_keeps (st_bind m k) n.
Proof.
  intros Hm Hk w w' r. unfold st_bind. destruct (m w) as [w1 [a|e]] eqn:E.
  - intros E2. destruct (Hm _ _ _ E) as [H1 H2], (Hk _ _ _ _ E2) as [H3 H4].
    split; [congruence|auto].
  - intros [= <- <-]. by eapply Hm.
Qed.

Lemma with_inner_keeps {A} (m : W A) t t' r s :
  w_keeps m (txn_table t) → with_inner m t = (t', r) → redb_txn_base t s →
  redb_txn_base t' s ∧ ∀ now, redb_txn_view now t' = redb_txn_view now t.
Proof.
  intros Hm E (w & Hw & Hb & Ht & Ho). destruct (with_inner_spec _ _ _ _ _ Hw E) as (w' & Ew & ->).
  destruct (Hm _ _ _ Ew) as [Ha Hb']. split.
  - exists w'. simpl. rewrite Ha. auto.
  - intros now. unfold redb_txn_view. simpl. by rewrite Hw, Ha.
Qed.

Lemma txn_get_committed_expired now k t t' r s :
  committed_key_expired now k t = (t', r) → redb_txn_base t s →
  redb_txn_base t' s ∧ (∀ now', redb_txn_view now' t' = redb_txn_view now' t) ∧
  txn_table t' = txn_table t ∧ overlay t' = overlay t ∧
  ∀ b w, r = Ok b → inner t = Some w → b = expired_key now (a_ttl (w_abs (txn_table t) w)) k.
Proof.
  intros E Hb. unfold committed_key_expired in E.
  destruct (with_inner_keeps _ _ _ _ _ (w_keeps_bind _ _ _ (w_keeps_open _ _ _)
    (λ _, w_keeps_bind _ _ _ (w_keeps_read _ _) (λ _, w_keeps_ret _ _))) E Hb) as [? ?].
  destruct Hb as (w & Hw & _). destruct (with_inner_spec _ _ _ _ _ Hw E) as (w' & Ew & ->).
  split_and!; try done. intros b w0 -> Hw0. simplify_eq.
  unfold st_bind, w_open, w_lift, w_read, w_ret in Ew.
  destruct (wt_open_table VU64 TTL_TABLE w) as [w1 [[]|]] eqn:Eo; simplify_eq/=.
  destruct (wtab_get VU64 TTL_TABLE k w1) as [o|] eqn:Eg; simplify_eq/=.
  apply (wtab_get_law VU64) in Eg as ->. rewrite (wt_open_table_law _ _ _ _ _ Eo). by simplify_eq.
Qed.

Lemma redb_txn_get_law now k t t' r s :
  redb_txn_get now k t = (t', r) → redb_txn_base t s →
  redb_txn_base t' s ∧ (∀ now', redb_txn_view now' t' = redb_txn_view now' t) ∧
  (∀ o, r = Ok o → o = redb_txn_view now t !! k).
Proof.
  intros E Hb. unfold redb_txn_get in E. destruct (overlay t !! k) as [op|] eqn:Eo.
  { assert (t' = t ∧ r = Ok (match op with Put v => Some v | Delete => None end)) as [-> ->]
      by (destruct op; by simplify_eq). split_and!; try done. intros o [= <-].
    destruct Hb as (w & Hw & _ & _ & Ho). destruct (Ho _ _ Eo) as [Hd Ht].
    unfold redb_txn_view. rewrite Hw, visible_lookup. unfold expired_key. by rewrite Ht, Hd. }
  unfold st_bind in E. destruct (committed_key_expired now k t) as [t1 r1] eqn:E1.
  destruct (txn_get_committed_expired _ _ _ _ _ _ E1 Hb) as (Hb1 & Hv1 & Htb & Hov & Hex).
  destruct r1 as [b|e]; [|by simplify_eq]. pose proof Hb as (w & Hw & _).
  specialize (Hex _ _ eq_refl Hw). destruct b.
  - simplify_eq. split_and!; try done. intros o [= <-]. unfold redb_txn_view. rewrite Hw, visible_lookup. by rewrite <-Hex.
  - destruct (with_inner_keeps (let* _ := w_open VBytes (txn_table t) in
      w_read (wtab_get VBytes (txn_table t) k)) t1 t' r s) as [Hb2 Hv2]; [|done|done|].
    { apply w_keeps_bind; [apply w_keeps_open|intros _; apply w_keeps_read]. }
    split_and!; [done|intros; by rewrite Hv2|]. intros o ->.
    pose proof Hb1 as (w1 & Hw1 & _). destruct (with_inner_spec _ _ _ _ _ Hw1 E) as (w2 & Ew & ->).
    rewrite <-Hv1. unfold redb_txn_view. rewrite Hw1, visible_lookup.
    specialize (Hv1 now). unfold st_bind, w_open, w_lift, w_read, w_ret in Ew.
    destruct (wt_open_table VBytes (txn_table t) w1) as [w3 [[]|]] eqn:Eop; simplify_eq/=.
    destruct (wtab_get VBytes (txn_table t) k w2) as [o'|] eqn:Eg; simplify_eq/=.
    apply (wtab_get_law VBytes) in Eg as ->. rewrite (wt_open_table_law _ _ _ _ _ Eop).
    assert (expired_key now (wt_view VU64 TTL_TABLE w1) k = false) as Hexp;
      [|unfold w_abs, a_ttl, a_data; by rewrite Hexp, Htb].
    unfold committed_key_expired in E1.
    destruct (with_inner_spec _ _ _ _ _ Hw E1) as (w4 & Ew4 & ->). simplify_eq/=.
    apply w_keeps_bind with (n := txn_table t) in Ew4 as [Ha _];
      [|apply w_keeps_open|intros _; apply w_keeps_bind; [apply w_keeps_read|intros ?; apply w_keeps_ret]].
    apply (f_equal a_ttl) in Ha. unfold w_abs, a_ttl in Ha, Hex. by rewrite Ha.
Qed.

(** A body with a specification, run inside the transaction and recorded. *)
Lemma redb_txn_write_law (body : W unit) f k op t t' s :
  w_spec (txn_table t) body (λ a, (f a, ())) →
  (∀ a, a_data (f a) = (match op with Put v => <[k:=v]> | Delete => delete k end) (a_data a) ∧
        a_ttl (f a) = delete k (a_ttl a)) →
  (let* _ := with_inner body in redb_txn_record k op) t = (t', Ok ()) → redb_txn_base t s →
  redb_txn_base t' s ∧ ∃ w, inner t = Some w ∧
    ∀ now, redb_txn_view now t' = visible now (f (w_abs (txn_table t) w)).
Proof.
  intros Hb Hf E (w & Hw & Hbase & Ht & Ho). unfold st_bind in E.
  destruct (with_inner body t) as [t1 [[]|e]] eqn:E1; [|done].
  destruct (with_inner_spec _ _ _ _ _ Hw E1) as (w' & Ew & ->).
  destruct (Hb _ _ _ Ew) as [Hb' Ha]. specialize (Ha _ eq_refl). apply (f_equal fst) in Ha. simpl in Ha.
  unfold redb_txn_record in E. simpl in E. injection E as <-. destruct (Hf (w_abs (txn_table t) w)) as [Hd Htl].
  split.
  - exists w'. simpl. rewrite <-Ha. split_and!; auto. intros k' op'. rewrite lookup_insert_Some.
    rewrite Hd, Htl. intros [[<- <-]|[Hne Hov]].
    + rewrite lookup_delete_eq. destruct op; by rewrite ?lookup_insert_eq, ?lookup_delete_eq.
    + destruct (Ho _ _ Hov) as [H1 H2]. rewrite lookup_delete_ne by done.
      destruct op; by rewrite ?lookup_insert_ne, ?lookup_delete_ne.
  - exists w. split; [done|]. intros now. unfold redb_txn_view. simpl. by rewrite <-Ha.
Qed.

#[global] Instance redb_kv_laws : KvLaws RedbStore.
Proof.
  split; simpl.
  - intros now k s s' r E. pose proof (redb_step_ok now (OpGet k) s) as [_ H]. simpl in H.
    rewrite E in H. simpl in H. destruct H as [H|[[] _]]. rewrite visible_lookup.
    destruct (expired_key now (a_ttl (redb_abs s)) k); by injection H.
  - intros now k s s' r t E Ht. pose proof (redb_step_ok now (OpGet k) s) as [_ H]. simpl in H.
    rewrite E in H. simpl in H. destruct H as [H|[_ ->]]; [|done].
    destruct (expired_key now (a_ttl (redb_abs s)) k) eqn:Ex.
    + apply (f_equal fst) in H. cbn [fst] in H. rewrite <-H. by apply (visible_evict now).
    + apply (f_equal fst) in H. cbn [fst] in H. by rewrite <-H.
  - intros k v s s' t E. apply (redb_write_spec _ _ _ _ _ (put_body_spec _ k v)) in E as [_ E].
    apply (f_equal fst) in E. cbn [fst] in E. rewrite <-E. apply visible_put.
  - intros k v s s' e t E. apply (redb_write_spec _ _ _ _ _ (put_body_spec _ k v)) in E as [_ E]. by rewrite E.
  - intros k s s' t E. apply (redb_write_spec _ _ _ _ _ (delete_body_spec _ k)) in E as [_ E].
    apply (f_equal fst) in E. cbn [fst] in E. rewrite <-E. apply visible_delete.
  - intros k s s' e t E. apply (redb_write_spec _ _ _ _ _ (delete_body_spec _ k)) in E as [_ E]. by rewrite E.
  - intros now lo hi s l. apply redb_range_spec.
  - intros now s l. apply redb_iter_spec.
  - intros s t E. unfold redb_transaction in E. destruct (lock_write s); [|done].
    destruct (db_begin_write (rs_db s)) as [w|] eqn:Ew; [|done]. simpl in E. injection E as <-.
    apply db_begin_write_law in Ew as [Hb Hv]. split.
    + exists w. simpl. by split_and!.
    + intros now. unfold redb_txn_view. simpl. f_equal. unfold w_abs, redb_abs. by rewrite !Hv.
  - apply redb_txn_get_law.
  - intros k v t t' s E Hb. eapply redb_txn_write_law in E as [? (w & Hw & Hv)];
      [|apply put_body_spec|done|done]. split; [done|]. intros now. rewrite Hv. unfold redb_txn_view.
    rewrite Hw. apply visible_put.
  - intros k t t' s E Hb. eapply redb_txn_write_law in E as [? (w & Hw & Hv)];
      [|apply delete_body_spec|done|done]. split; [done|]. intros now. rewrite Hv. unfold redb_txn_view.
    rewrite Hw. apply visible_delete.
  - intros t s s' now E (w & Hw & Hb & Ht & _). unfold redb_txn_commit, redb_txn_view in *. rewrite Hw in *.
    destruct (wt_commit w (rs_db s)) as [db [[]|]] eqn:Ec; simplify_eq/=. f_equal.
    unfold redb_abs, w_abs. simpl. by rewrite !(wt_commit_law _ _ _ Ec Hb), Ht.
  - intros t s s' e now E. unfold redb_txn_commit in E. destruct (inner t) as [w|]; [|by simplify_eq].
    destruct (wt_commit w (rs_db s)) as [db [[]|]] eqn:Ec; simplify_eq/=. f_equal.
    unfold redb_abs. simpl. by rewrite !(wt_commit_err _ _ _ _ Ec).
  - intros t s s' r now E. unfold redb_txn_rollback in E. destruct (inner t) as [w|]; [|by simplify_eq].
    destruct (wt_abort w (rs_db s)) as [db r'] eqn:Ec; simplify_eq/=. f_equal.
    unfold redb_abs. simpl. by rewrite !(wt_abort_law _ _ _ _ Ec).
Qed.

#[global] Instance redb_contains_law : KvContainsLaw RedbStore.
Proof. intros now k s s' r. exact (contains_default_law now k s s' r). Qed.

(** ** Ranges of a transaction *)
Lemma txn_range_loop_spec now items m w w' r :
  txn_range_loop now items m w = (w', r) → w' = w ∧ ∀ m', r = Ok m' →
  ∃ l, collect items = Ok l ∧
    m' = foldl (λ m kv, <[kv.1:=kv.2]> m) m
           (List.filter (λ kv, negb (expired_key now (wt_view VU64 TTL_TABLE w) kv.1)) l).
Proof.
  revert m. induction items as [|item items IH]; intros m; simpl.
  { intros [= <- <-]. split; [done|]. intros m' [= <-]. by exists []. }
  unfold st_bind. destruct item as [[k v]|e]; simpl; [|by intros [= <- <-]].
  unfold w_read. destruct (wtab_get VU64 TTL_TABLE k w) as [o|] eqn:Eg; simpl; [|by intros [= <- <-]].
  apply (wtab_get_law VU64) in Eg as ->. intros H.
  change ((if expired_key now (wt_view VU64 TTL_TABLE w) k then txn_range_loop now items m
           else txn_range_loop now items (<[k:=v]> m)) w = (w', r)) in H.
  destruct (expired_key now (wt_view VU64 TTL_TABLE w) k) eqn:Ex;
    destruct (IH _ H) as [-> Hm]; (split; [done|]); intros m' Hr;
    destruct (Hm _ Hr) as (l & -> & ->); eexists; (split; [done|]); simpl; by rewrite Ex.
Qed.

Lemma redb_txn_range_spec now lo hi t t' s r :
  redb_txn_base t s → redb_txn_range now lo hi t = (t', r) →
  match r with
  | None => bytes_ltb hi lo = true
  | Some (Ok l) => bytes_ltb hi lo = false ∧ l = map Ok (btree_between lo hi (redb_txn_view now t))
  | Some (Err _) => True
  end.
Proof.
  intros (w & Hw & _ & _ & Ho). unfold redb_txn_range.
  destruct (with_inner _ t) as [t1 [m|e]] eqn:E; [|by intros [= <- <-]].
  destruct (with_inner_spec _ _ _ _ _ Hw E) as (w' & Ew & ->). simpl. clear E.
  unfold btree_range. destruct (bytes_ltb hi lo) eqn:Elt; intros [= <- <-]; [done|]. split; [done|].
  unfold st_bind, w_open, w_lift, w_read in Ew.
  destruct (wt_open_table VBytes (txn_table t) w) as [w1 [[]|]] eqn:E1; simplify_eq/=.
  destruct (wt_open_table VU64 TTL_TABLE w1) as [w2 [[]|]] eqn:E2; simplify_eq/=.
  destruct (wtab_range VBytes (txn_table t) lo hi w2) as [items|] eqn:Er; simplify_eq/=.
  apply txn_range_loop_spec in Ew as [-> Hm]. destruct (Hm _ eq_refl) as (l & Hc & ->).
  rewrite (wtab_range_law VBytes _ _ _ _ _ _ Er Hc).
  rewrite !(wt_open_table_law _ _ _ _ _ E2), !(wt_open_table_law _ _ _ _ _ E1).
  change (wt_view VBytes (txn_table t) w) with (a_data (w_abs (txn_table t) w)).
  change (wt_view VU64 TTL_TABLE w) with (a_ttl (w_abs (txn_table t) w)).
  rewrite btree_between_visible. unfold redb_txn_view. rewrite Hw.
  set (vis := visible now (w_abs (txn_table t) w)). do 1 f_equal.
  assert (NoDup (btree_between lo hi vis).*1) as Hnd
    by (apply NoDup_fst_filter_bool, btree_iter_NoDup).
  rewrite apply_overlay_id; [by apply btree_iter_foldl; [apply btree_between_sorted|]|].
  intros k op [Hin Hr]%elem_of_btree_between. destruct (Ho _ _ Hin) as [Hd Ht].
  assert (vis !! k = match op with Put v => Some v | Delete => None end) as Hk.
  { subst vis. rewrite visible_lookup. unfold expired_key. by rewrite Ht, Hd. }
  rewrite <-Hk. apply option_eq. intros v.
  rewrite foldl_insert_lookup by (done || (intros; apply lookup_empty)).
  rewrite elem_of_btree_between, Hr, lookup_empty. naive_solver.
Qed.

(** ** Snapshots *)

#[global] Instance redb_snap_view : SnapView RedbSnapshot := λ p,
  filter (λ kv, expired_by (captured_at_millis p) (rt_view VU64 TTL_TABLE (snap_txn p)) kv.1 = false)
    (rt_view VBytes (snap_table p) (snap_txn p)).

Lemma is_ttl_expired_at_spec ttl captured k b :
  is_ttl_expired_at ttl k captured = Ok b → b = expired_by captured (tab_view VU64 ttl) k.
Proof.
  unfold is_ttl_expired_at, expired_by. destruct (rtab_get k ttl) as [o|] eqn:E; simpl; [|done].
  apply (rtab_get_law VU64) in E as ->. by intros [= <-].
Qed.

#[global] Instance redb_snap_laws : SnapLaws RedbSnapshot.
Proof.
  split; simpl; intros *.
  - unfold redb_snap_get, snap_view, redb_snap_view.
    destruct (rt_open_table VU64 TTL_TABLE (snap_txn p)) as [ttl|] eqn:Et; simpl; [|done].
    destruct (is_ttl_expired_at ttl k (captured_at_millis p)) as [b|] eqn:Ex; [|done].
    apply is_ttl_expired_at_spec in Ex. rewrite (rt_open_table_law _ _ _ _ Et) in Ex. intros H.
    assert (∀ m : gmap bytes bytes, filter (λ kv, expired_by (captured_at_millis p)
      (rt_view VU64 TTL_TABLE (snap_txn p)) kv.1 = false) m !! k = if b then None else m !! k) as Hf.
    { intros m. apply option_eq. intros v. rewrite map_lookup_filter_Some. simpl. rewrite <-Ex.
      destruct b; naive_solver. }
    rewrite Hf. destruct b; [congruence|].
    destruct (rt_open_table VBytes (snap_table p) (snap_txn p)) as [tab|] eqn:Ed; simpl in H; [|done].
    apply other_Ok in H. apply (rtab_get_law VBytes) in H. by rewrite <-(rt_open_table_law _ _ _ _ Ed).
  - unfold redb_snap_range, snap_view, redb_snap_view.
    destruct (rt_open_table VU64 TTL_TABLE (snap_txn p)) as [ttl|] eqn:Et; simpl; [|done].
    destruct (rt_open_table VBytes (snap_table p) (snap_txn p)) as [tab|] eqn:Ed; simpl; [|done].
    destruct (rtab_range lo hi tab) as [items|] eqn:Er; simpl; [|done]. intros Hs.
    destruct (scan_loop_spec _ (expired_by (captured_at_millis p) (tab_view VU64 ttl)) _ _
      (λ k b, is_ttl_expired_at_spec ttl _ k b) Hs) as (l' & Hc & ->).
    rewrite (rtab_range_law VBytes _ _ _ _ _ Er Hc), (rt_open_table_law _ _ _ _ Et),
      (rt_open_table_law _ _ _ _ Ed). f_equal. unfold btree_between.
    rewrite filter_comm_bool, btree_iter_filter. do 2 f_equal. apply map_filter_ext.
    intros k v _. simpl. by destruct (expired_by _ _ k).
Qed.

Lemma redb_snapshot_view now s p :
  redb_snapshot now s = Ok p → snap_view p = visible now (redb_abs s).
Proof.
  unfold redb_snapshot. destruct (db_begin_read (rs_db s)) as [r|] eqn:Er; simpl; [|done].
  intros [= <-]. unfold snap_view, redb_snap_view, visible. simpl.
  by rewrite !(db_begin_read_law _ _ _ _ Er).
Qed.
End TxnTheory.
