(* ===== verification/RedbProps.v ===== *)
(** * Properties of the [redb] backend

    The theorems on [oxistore-kv-redb]: refinement of the specification over whole
    histories, failure atomicity, transactional ranges, snapshots, purging, and
    the places where the code departs from its documentation (an eviction that
    loses a concurrent write, the expiry table shared between isolated tables,
    writes that inherit a stale expiry, iterators that ignore expiries, keys that
    come back). *)

From S2P Require Import Prelude Bytes Core StoreSpec RedbEngine Redb RedbSpec RedbTxn.

(** ** Histories *)

Section Props.
Context {RE : RedbEngine} {RV : RedbView} {RL : RedbLaws}.
Implicit Types s : RedbStore.

Fixpoint redb_run (ops : list (Z * StoreOp)) (s : RedbStore) : RedbStore * list (store_result StoreOut) :=
  match ops with
  | [] => (s, [])
  | (now, op) :: ops =>
      let '(s1, r) := redb_step now op s in
      let '(s2, rs) := redb_run ops s1 in (s2, r :: rs)
  end.

(** A call of [get] during which another thread acts on the store between the read
    transaction and the eviction. *)
Definition redb_get_interleaved (now : Z) (key : bytes) (interference : RedbStore → RedbStore)
    (s : RedbStore) : RedbStore * store_result (option bytes) :=
  match redb_read key s with
  | Err e => (interference s, Err e)
  | Ok (value, Some expiry_millis) =>
      if is_expired now expiry_millis then
        match redb_evict key (interference s) with
        | (s, Ok _) => (s, Ok None)
        | (s, Err e) => (s, Err e)
        end
      else (interference s, Ok value)
  | Ok (value, None) => (interference s, Ok value)
  end.

Lemma redb_get_interleaved_id now k s : redb_get_interleaved now k id s = redb_get now k s.
Proof. done. Qed.

(** Frames: the other tables of the database. *)
Lemma w_remove_other t n k w w' o n' :
  (VBytes, n') ≠ (t, n) → w_remove t n k w = (w', Ok o) → wt_view VBytes n' w' = wt_view VBytes n' w.
Proof.
  intros Hne. unfold w_remove, w_lift. destruct (wtab_remove t n k w) as [w1 [o1|]] eqn:E; [|done].
  intros [= <- _]. apply wtab_remove_law in E as (_ & _ & H). by apply H.
Qed.

Lemma batch_delete_loop_other n n' keys w w' :
  n' ≠ n → batch_delete_loop n keys w = (w', Ok ()) → wt_view VBytes n' w' = wt_view VBytes n' w.
Proof.
  intros Hne. revert w. induction keys as [|k keys IH]; intros w; simpl; [by intros [= ->]|].
  unfold st_bind. destruct (w_remove VBytes n k w) as [w1 [o1|]] eqn:E1; [|done].
  destruct (w_remove VU64 TTL_TABLE k w1) as [w2 [o2|]] eqn:E2; [|done].
  intros E3. rewrite (IH _ E3).
  apply w_remove_other with (n' := n') in E1, E2; congruence.
Qed.

Lemma redb_batch_delete_other keys s s' n' :
  n' ≠ rs_table s → redb_batch_delete keys s = (s', Ok ()) →
  db_view VBytes n' (rs_db s') = db_view VBytes n' (rs_db s).
Proof.
  intros Hne. unfold redb_batch_delete, redb_write, st_bind, w_open, w_lift.
  destruct (lock_write s); [|done]. destruct (db_begin_write (rs_db s)) as [w|] eqn:Ew; simpl; [|done].
  apply db_begin_write_law in Ew as [Hb Hv].
  destruct (wt_open_table VBytes (rs_table s) w) as [w1 [[]|]] eqn:E1; simpl; [|done].
  destruct (wt_open_table VU64 TTL_TABLE w1) as [w2 [[]|]] eqn:E2; simpl; [|done].
  destruct (batch_delete_loop (rs_table s) keys w2) as [w3 [[]|]] eqn:E3; [|done].
  destruct (batch_delete_loop_spec (rs_table s) keys _ _ _ E3) as [Hb3 _].
  destruct (wt_commit w3 (rs_db s)) as [db [[]|]] eqn:Ec; intros [= <-]. simpl.
  assert (wt_base w3 (rs_db s)) as Hbase.
  { apply Hb3. eapply wt_open_table_base; [done|]. by eapply wt_open_table_base. }
  rewrite (wt_commit_law _ _ _ Ec Hbase), (batch_delete_loop_other _ _ _ _ _ Hne E3).
  by rewrite (wt_open_table_law _ _ _ _ _ E2), (wt_open_table_law _ _ _ _ _ E1), Hv.
Qed.

Section ReliableProps.
Context {RR : RedbReliable}.

Lemma redb_run_refines ops s :
  redb_ready s → ∃ s' rs, redb_run ops s = (s', rs) ∧ redb_ready s' ∧ abs_run ops (redb_abs s) = (redb_abs s', rs).
Proof.
  revert s. induction ops as [|[now op] ops IH]; intros s H; simpl; [by eexists _, _|].
  destruct (redb_step_total now op s H) as (s1 & r & -> & H1 & Ha1).
  destruct (IH s1 H1) as (s2 & rs & -> & H2 & Ha2). eexists _, _. split_and!; [done|done|].
  by rewrite Ha1, Ha2.
Qed.

(** Opening an empty database gives an empty store that is ready. *)
Lemma redb_open_ready path n db :
  (∀ t n', db_view t n' db = ∅) →
  ∃ s, redb_open_db path n db = Ok s ∧ redb_ready s ∧ redb_abs s = abs_empty.
Proof.
  intros Hempty. unfold redb_open_db, pre_create_tables, st_bind, w_open, w_lift.
  destruct (begin_write_ok db) as (w & Ew). rewrite Ew. simpl. apply db_begin_write_law in Ew as [Hb Hv].
  destruct (open_write_ok VBytes n w) as (w1 & E1 & Hh1 & _). rewrite E1. simpl.
  destruct (open_write_ok VU64 TTL_TABLE w1) as (w2 & E2 & Hh2 & Hmono). rewrite E2. simpl.
  destruct (commit_ok w2 db) as (db' & Ec & Hhas). rewrite Ec. simpl. eexists. split; [done|].
  assert (wt_base w2 db) as Hb2.
  { eapply wt_open_table_base; [done|]. by eapply wt_open_table_base. }
  split.
  - split_and!; [done|apply Hhas; right; simpl; auto|apply Hhas; by right].
  - unfold redb_abs, abs_empty. simpl. rewrite !(wt_commit_law _ _ _ Ec Hb2).
    by rewrite !(wt_open_table_law _ _ _ _ _ E2), !(wt_open_table_law _ _ _ _ _ E1), !Hv, !Hempty.
Qed.

Lemma redb_put_total k v s :
  redb_ready s → ∃ s', redb_put k v s = (s', Ok ()) ∧ redb_ready s' ∧ redb_abs s' = abs_put k v (redb_abs s).
Proof.
  intros H. destruct (redb_write_total (put_body (rs_table s) k v) s H) as (s' & [] & E & Hr).
  { unfold put_body. repeat first [apply w_total_bind; [|intros ?] | apply w_total_open
      | apply (w_total_insert VBytes) | apply (w_total_remove VU64) | apply w_total_ret]. }
  exists s'. split_and!; [done|done|].
  apply (redb_write_spec _ _ _ _ _ (put_body_spec _ k v)) in E as [_ E]. exact (eq_sym (f_equal fst E)).
Qed.
End ReliableProps.
End Props.

(** ** Theorems *)
Section RedbTheorems.
Context {RE : RedbEngine} {RV : RedbView} {RL : RedbLaws} {RR : RedbReliable}.
Implicit Types s : RedbStore.

(** C1: Refinement over histories.  On an engine that reports no I/O error, opening
    an empty database succeeds, and every history of timed operations on the
    store (reads, writes, scans, batches, time-to-live operations and purges)
    returns exactly the results of the specification on a pair of maps, ending in
    the corresponding state. *)
Theorem redb_history_refines path n db ops :
  (∀ t n', db_view t n' db = ∅) →
  ∃ s s' rs, redb_open_db path n db = Ok s ∧ redb_run ops s = (s', rs) ∧
    abs_run ops abs_empty = (redb_abs s', rs).
Proof.
  intros Hempty. destruct (redb_open_ready path n db Hempty) as (s & Hopen & Hr & Ha).
  destruct (redb_run_refines ops s Hr) as (s' & rs & Hrun & _ & Habs). rewrite Ha in Habs. eauto 8.
Qed.

(** Lost update.  When [get] finds an expired key, the key is removed in a
    second transaction that does not look at it again: a [put] that another thread
    completes in between is deleted, although it returned [Ok] and was visible. *)
Theorem redb_get_eviction_loses_write now k v e s :
  redb_ready s → a_ttl (redb_abs s) !! k = Some e → is_expired now e = true →
  ∃ s1 s2, redb_put k v s = (s1, Ok ()) ∧ (∀ t, visible t (redb_abs s1) !! k = Some v) ∧
    redb_get_interleaved now k (λ s, (redb_put k v s).1) s = (s2, Ok None) ∧
    ∀ t, visible t (redb_abs s2) !! k = None.
Proof.
  intros Hr He Hx. destruct (redb_put_total k v s Hr) as (s1 & Hput & Hr1 & Ha1).
  destruct (redb_evict_total k s1 Hr1) as (s2 & Hev & _ & Ha2).
  exists s1, s2. split_and!; [done| | |].
  - intros t. rewrite Ha1, visible_put. apply lookup_insert_eq.
  - unfold redb_get_interleaved. destruct (redb_read_total k s Hr) as (v0 & o & Hread).
    rewrite Hread. apply redb_read_spec in Hread as [_ ->]. rewrite He, Hx. cbv beta. rewrite Hput.
    simpl. by rewrite Hev.
  - intros t. rewrite Ha2, visible_delete. apply lookup_delete_eq.
Qed.

(** The expiry table is shared by all tables of a database: purging a store
    drops the expiry of a key that belongs to a store on another table of the
    same database and leaves its value, so that the expired key is visible again,
    for ever. *)
Theorem redb_purge_resurrects_other_table now k v e s1 s2 :
  redb_ready s1 → rs_db s2 = rs_db s1 → rs_table s2 ≠ rs_table s1 →
  a_data (redb_abs s2) !! k = Some v → a_ttl (redb_abs s2) !! k = Some e → is_expired now e = true →
  visible now (redb_abs s2) !! k = None ∧
  ∃ s1' n, redb_purge_expired now s1 = (s1', Ok n) ∧
    ∀ t, visible t (redb_abs (set_db (rs_db s1') s2)) !! k = Some v.
Proof.
  intros Hr Hdb Hne Hd He Hx. split.
  { rewrite visible_lookup. unfold expired_key. by rewrite He, Hx. }
  assert (expired_key now (a_ttl (redb_abs s1)) k = true) as Hex.
  { unfold expired_key, redb_abs, a_ttl in *. rewrite Hdb in He. by rewrite He. }
  destruct (redb_step_total now OpPurgeExpired s1 Hr) as (s1' & r & Hstep & _ & Habs). simpl in Hstep, Habs.
  unfold redb_purge_expired in *. destruct (redb_expired_keys_total now s1 Hr) as (keys & Hkeys).
  rewrite Hkeys in *. apply redb_expired_keys_spec in Hkeys.
  destruct keys as [|k0 keys].
  { apply elem_of_abs_expired in Hex. rewrite <-Hkeys in Hex. by apply not_elem_of_nil in Hex. }
  destruct (redb_batch_delete (k0 :: keys) s1) as [s1'' [[]|err]] eqn:Ed; [|simplify_eq/=; congruence].
  simpl in Hstep. injection Hstep as <- <-. exists s1'', (length (k0 :: keys)). split; [done|].
  apply (f_equal fst) in Habs. cbn [fst] in Habs.
  intros t. rewrite visible_lookup. unfold expired_key.
  change (a_data (redb_abs (set_db (rs_db s1'') s2))) with (db_view VBytes (rs_table s2) (rs_db s1'')).
  change (a_ttl (redb_abs (set_db (rs_db s1'') s2))) with (a_ttl (redb_abs s1'')).
  rewrite <-Habs. destruct (purged_lookup now (redb_abs s1) k) as [_ ->]. rewrite Hex.
  rewrite (redb_batch_delete_other _ _ _ _ Hne Ed), <-Hdb. exact Hd.
Qed.

(** [put_returning_old] does not clear the expiry of the key: the value it
    writes vanishes when the expiry of the overwritten value is reached, and the
    value it returns may be one that had already expired. *)
Theorem redb_put_returning_old_inherits_expiry k v e s :
  redb_ready s → a_ttl (redb_abs s) !! k = Some e →
  ∃ s', redb_put_returning_old k v s = (s', Ok (a_data (redb_abs s) !! k)) ∧
    ∀ t, visible t (redb_abs s') !! k = if is_expired t e then None else Some v.
Proof.
  intros Hr He. unfold redb_put_returning_old.
  destruct (redb_write_total (let* _ := w_open VBytes (rs_table s) in w_insert VBytes (rs_table s) k v) s Hr)
    as (s' & o & E & _).
  { apply w_total_bind; [apply w_total_open|intros _; apply (w_total_insert VBytes)]. }
  exists s'. rewrite E. eapply redb_write_spec in E as [_ E].
  2: { eapply w_spec_bind; [apply w_spec_open|intros ?; apply (w_spec_insert VBytes)]. }
  assert (o = a_data (redb_abs s) !! k) as -> by exact (eq_sym (f_equal snd E)). split; [done|].
  apply (f_equal fst) in E. cbn [fst] in E. intros t. rewrite <-E, visible_lookup. unfold expired_key.
  change (a_ttl (abs_insert VBytes k v (redb_abs s)).1) with (a_ttl (redb_abs s)).
  rewrite He. destruct (is_expired t e); [done|]. apply lookup_insert_eq.
Qed.

(** [persist] and [expire] look at the raw entry: a key that has expired but was
    not evicted yet, and which [get] reports as absent, is made visible again. *)
Theorem redb_persist_revives_expired now k v e s :
  redb_ready s → a_data (redb_abs s) !! k = Some v → a_ttl (redb_abs s) !! k = Some e →
  is_expired now e = true →
  visible now (redb_abs s) !! k = None ∧
  ∃ s', redb_persist k s = (s', Ok true) ∧ ∀ t, visible t (redb_abs s') !! k = Some v.
Proof.
  intros Hr Hd He Hx. split.
  { rewrite visible_lookup. unfold expired_key. by rewrite He, Hx. }
  destruct (redb_persist_total now k s Hr) as (s' & r & Hstep & _ & Habs). simpl in Hstep, Habs.
  rewrite Hd, He in Habs. injection Hstep as <- <-.
  destruct (redb_persist k s) as [s' r] eqn:E. simpl in *. exists s'. split.
  - apply (f_equal snd) in Habs. simpl in Habs. destruct r as [b|]; simplify_eq/=. done.
  - intros t. apply (f_equal fst) in Habs. cbn [fst] in Habs. rewrite <-Habs, visible_lookup.
    unfold expired_key. change (a_ttl (abs_del_ttl k (redb_abs s))) with (delete k (a_ttl (redb_abs s))).
    rewrite lookup_delete_eq. exact Hd.
Qed.

(** [purge_expired] deletes exactly the keys of the expiry table that have
    expired and returns their number: nothing visible changes, now or later, no
    expired entry is left, and a second purge at the same instant deletes
    nothing. *)
Theorem redb_purge_expired_correct now s :
  redb_ready s →
  ∃ s', redb_purge_expired now s = (s', Ok (length (abs_expired now (redb_abs s)))) ∧
    (∀ t, later now t → visible t (redb_abs s') = visible t (redb_abs s)) ∧
    (∀ k, expired_key now (a_ttl (redb_abs s')) k = false) ∧
    redb_purge_expired now s' = (s', Ok 0).
Proof.
  intros Hr. destruct (redb_step_total now OpPurgeExpired s Hr) as (s' & r & Hstep & Hr' & Habs).
  simpl in Hstep, Habs. destruct (redb_purge_expired now s) as [s1 r1] eqn:E. simpl in Hstep.
  injection Hstep as -> <-. exists s'. pose proof (f_equal fst Habs) as Ha. cbn [fst] in Ha. split_and!.
  - apply (f_equal snd) in Habs. simpl in Habs. destruct r1; by simplify_eq/=.
  - intros t Ht. rewrite <-Ha. by apply purged_visible.
  - intros k. apply not_true_iff_false. rewrite <-elem_of_abs_expired, <-Ha, purged_expired.
    apply not_elem_of_nil.
  - unfold redb_purge_expired. destruct (redb_expired_keys_total now s' Hr') as (keys & Hk). rewrite Hk.
    apply redb_expired_keys_spec in Hk. rewrite <-Ha, purged_expired in Hk. by rewrite Hk.
Qed.
End RedbTheorems.

(** *** Totality of transactional ranges and of snapshots *)
Section ReadTotal.
Context {RE : RedbEngine} {RV : RedbView} {RL : RedbLaws} {RR : RedbReliable}.

Lemma txn_range_loop_total now items l m w :
  collect items = Ok l → ∃ m', txn_range_loop now items m w = (w, Ok m').
Proof.
  revert l m. induction items as [|[[k v]|e] items IH]; intros l m; simpl; [by eexists| |done].
  destruct (collect items) as [l'|] eqn:Ec; [|done]. intros _. unfold st_bind, w_read. simpl.
  destruct (wtab_get_ok VU64 TTL_TABLE k w) as (o & ->). simpl.
  destruct (match (o : option Z) with Some e => is_expired now e | None => false end); by apply (IH l').
Qed.

Lemma redb_txn_range_total now lo hi t w :
  inner t = Some w → ∃ t' r, redb_txn_range now lo hi t = (t', r) ∧
    r = (if bytes_ltb hi lo then None else r) ∧ (∀ e, r ≠ Some (Err e)) ∧ (r = None → bytes_ltb hi lo = true).
Proof.
  intros Hw. unfold redb_txn_range, with_inner. rewrite Hw. unfold st_bind, w_open, w_lift, w_read.
  destruct (open_write_ok VBytes (txn_table t) w) as (w1 & -> & _). simpl.
  destruct (open_write_ok VU64 TTL_TABLE w1) as (w2 & -> & _). simpl.
  destruct (wtab_range_ok VBytes (txn_table t) lo hi w2) as (items & l & -> & Hc). simpl.
  destruct (txn_range_loop_total now items l ∅ w2 Hc) as (m & ->). unfold btree_range.
  destruct (bytes_ltb hi lo) eqn:E; eexists _, _; (split; [done|]); by rewrite ?E.
Qed.

Lemma redb_snap_total now s p :
  redb_ready s → redb_snapshot now s = Ok p →
  (∀ k, ∃ o, redb_snap_get k p = Ok o) ∧ ∀ lo hi, ∃ l, redb_snap_range lo hi p = Ok l.
Proof.
  intros (_ & Hd & Ht). unfold redb_snapshot. destruct (db_begin_read (rs_db s)) as [r|] eqn:Er; [|done].
  simpl. intros [= <-]. unfold redb_snap_get, redb_snap_range. simpl.
  destruct (open_read_ok _ _ _ _ Er Ht) as (ttl & ->), (open_read_ok _ _ _ _ Er Hd) as (tab & ->). simpl.
  assert (∀ k, ∃ b, is_ttl_expired_at ttl k (epoch_millis now) = Ok b) as Hex.
  { intros k. unfold is_ttl_expired_at. destruct (rtab_get_ok _ k ttl) as (o & ->). simpl. eauto. }
  split.
  - intros k. destruct (Hex k) as ([] & ->); [eauto|]. destruct (rtab_get_ok _ k tab) as (o & ->). simpl. eauto.
  - intros lo hi. destruct (rtab_range_ok _ lo hi tab) as (items & l & -> & Hc). simpl.
    by eapply scan_loop_total.
Qed.

Lemma collect_map_other {A} (items : list (engine_result A)) l :
  collect items = Ok l → map other items = map Ok l.
Proof.
  revert l. induction items as [|[a|e] items IH]; intros l; simpl; [by intros [= <-]| |done].
  destruct (collect items) as [l'|]; [|done]. intros [= <-]. simpl. by rewrite (IH l').
Qed.

Lemma open_data_table_total s :
  redb_ready s → ∃ tab, open_data_table s = Ok tab ∧ tab_view VBytes tab = a_data (redb_abs s).
Proof.
  intros (_ & Hd & _). unfold open_data_table. destruct (begin_read_ok (rs_db s)) as (r & Er). rewrite Er. simpl.
  destruct (open_read_ok _ _ _ _ Er Hd) as (tab & Et). rewrite Et. simpl. exists tab. split; [done|].
  by rewrite (rt_open_table_law _ _ _ _ Et), (db_begin_read_law _ _ _ _ Er).
Qed.
End ReadTotal.

Section RedbReadTheorems.
Context {RE : RedbEngine} {RV : RedbView} {RL : RedbLaws}.
Implicit Types s : RedbStore.

(** C27: A failed operation is invisible, whatever the engine does: when any
    operation returns an error, no entry that is visible at that instant or later
    has changed. *)
Theorem redb_failure_invisible now op s s' e t :
  redb_step now op s = (s', Err e) → later now t →
  visible t (redb_abs s') = visible t (redb_abs s).
Proof.
  intros H Ht. pose proof (redb_step_ok now op s) as [_ Hok]. rewrite H in Hok. simpl in Hok.
  destruct Hok as [Hok|[_ ->]]; [|done]. by eapply abs_step_err.
Qed.

Context {RR : RedbReliable}.

(** A range scan inside a transaction yields, in ascending key order, exactly
    the entries the transaction sees (its own writes over the unexpired committed
    entries) in the half-open interval, provided [lo <= hi]; on an inverted
    interval it panics, where the same scan on the store returns nothing. *)
Theorem redb_txn_range_correct now lo hi (txn : RedbTxn) s :
  txn_base txn s → redb_ready s →
  if bytes_ltb hi lo then
    (redb_txn_range now lo hi txn).2 = None ∧ redb_range now lo hi s = Ok []
  else (redb_txn_range now lo hi txn).2 =
    Some (Ok (map Ok (btree_between lo hi (txn_view now txn)))).
Proof.
  intros Hb Hr. pose proof Hb as (w & Hw & _).
  destruct (redb_txn_range_total now lo hi txn w Hw) as (t' & r & Hrange & Hr1 & Hr2 & Hr3).
  pose proof (redb_txn_range_spec _ _ _ _ _ _ _ Hb Hrange) as Hspec. rewrite Hrange. simpl.
  destruct (bytes_ltb hi lo) eqn:Elt.
  - split; [done|]. destruct (redb_scan_total now s Hr) as (_ & Hrg & _). destruct (Hrg lo hi) as [l El].
    rewrite El. apply redb_range_spec in El as ->. unfold btree_between.
    rewrite (List.filter_ext _ (λ _, false)), List.filter_false; [done|].
    intros [k v]. simpl. unfold in_range. destruct (bytes_leb lo k) eqn:E1; [|done].
    destruct (bytes_ltb k hi) eqn:E2; [|done]. exfalso.
    pose proof (bytes_leb_ltb_trans _ _ _ E1 E2) as H. by rewrite (bytes_ltb_asym _ _ H) in Elt.
  - destruct r as [[l|e]|]; [by destruct Hspec as [_ ->]|by destruct (Hr2 e)|by specialize (Hr3 eq_refl)].
Qed.

(** A snapshot serves the entries that were visible when it was taken: every
    read and every scan of it answers from that map, whatever is written to the
    store and however much time passes afterwards. *)
Theorem redb_snapshot_frozen now s :
  redb_ready s →
  ∃ p, redb_snapshot now s = Ok p ∧
    (∀ k, redb_snap_get k p = Ok (visible now (redb_abs s) !! k)) ∧
    (∀ lo hi, redb_snap_range lo hi p = Ok (map Ok (btree_between lo hi (visible now (redb_abs s))))).
Proof.
  intros Hr. destruct (begin_read_ok (rs_db s)) as (r & Er).
  assert (∃ p, redb_snapshot now s = Ok p) as [p Hp] by (unfold redb_snapshot; rewrite Er; simpl; eauto).
  exists p. split; [done|]. destruct (redb_snap_total now s p Hr Hp) as [Hg Hrg].
  rewrite <-(redb_snapshot_view _ _ _ Hp). split.
  - intros k. destruct (Hg k) as [o Ho]. rewrite Ho. f_equal. by apply snap_get_law.
  - intros lo hi. destruct (Hrg lo hi) as [l Hl]. rewrite Hl. f_equal. by apply snap_range_law.
Qed.

(** [iter_collected], [range_iter] and [prefix_iter] ignore expiries: they
    yield the raw entries of the table, and [iter_collected] reports exactly as
    many items as it yields; its items are those of [KvStore::iter] only when no
    entry has expired. *)
Theorem redb_iter_collected_raw now s :
  redb_ready s →
  ∃ it l, redb_iter_collected s = Ok it ∧ redb_iter now s = Ok l ∧
    iter_inner it = map Ok (btree_iter (a_data (redb_abs s))) ∧
    remaining it = size (a_data (redb_abs s)) ∧
    (iter_inner it = l ↔ ∀ k, is_Some (a_data (redb_abs s) !! k) →
       expired_key now (a_ttl (redb_abs s)) k = false).
Proof.
  intros Hr. destruct (open_data_table_total s Hr) as (tab & Ht & Hv).
  unfold redb_iter_collected. rewrite Ht. destruct (rtab_iter_ok _ tab) as (items & l & Ei & Hc).
  rewrite Ei. simpl. destruct (redb_scan_total now s Hr) as ([l' El'] & _).
  eexists _, l'. split; [done|]. split; [done|]. simpl. apply redb_iter_spec in El'.
  rewrite (collect_map_other (A:=bytes * bytes) items l Hc).
  pose proof (rtab_iter_law VBytes _ _ _ Ei Hc) as Hl. rewrite Hv in Hl. rewrite Hl.
  rewrite length_map, btree_iter_length. split_and!; [done|done|]. subst l'. split.
  - intros H k [v Hk]. apply elem_of_btree_iter in Hk.
    assert (btree_iter (a_data (redb_abs s)) = btree_iter (visible now (redb_abs s))) as Heq.
    { apply (f_equal collect) in H. rewrite !collect_map_Ok in H. by injection H. }
    rewrite Heq in Hk. apply elem_of_btree_iter in Hk. rewrite visible_lookup in Hk.
    by destruct (expired_key now (a_ttl (redb_abs s)) k).
  - intros H. do 2 f_equal. apply map_eq. intros k. rewrite visible_lookup.
    destruct (a_data (redb_abs s) !! k) as [v|] eqn:Ek; [by rewrite H by eauto|by destruct (expired_key _ _ _)].
Qed.
End RedbReadTheorems.
