(* ===== verification/RedbWitness.v ===== *)
(** * The [redb] model on concrete inputs

    The theorems on the backend, and the theorems of [Core.v] on the default
    methods, applied to stores on the concrete engine [mem_engine]. *)

From S2P Require Import Prelude Bytes Core StoreSpec RedbEngine Redb RedbSpec RedbTxn RedbProps.

Definition open_or (r : store_result RedbStore) : RedbStore :=
  match r with
  | Ok s => s
  | Err _ => {| rs_db := mem_empty; rs_path := None; rs_poisoned := true; rs_table := "" |}
  end.

Definition kA : bytes := [x61]. (* "a" *)
Definition kB : bytes := [x62]. (* "b" *)
Definition vX : bytes := [x78].
Definition vY : bytes := [x79].

(** An empty store, and one with ["a"] expiring at the second millisecond and ["b"]
    without expiry. *)
Definition demo : RedbStore := open_or (redb_open_db None DEFAULT_TABLE_NAME mem_empty).
Definition demo_ttl : RedbStore :=
  (redb_put kB vY (redb_put_with_ttl 1000000 kA vX 1000000 demo).1).1.

Lemma mem_empty_view t n : db_view t n mem_empty = ∅.
Proof. by destruct t. Qed.

Lemma open_or_ready path n db :
  (∀ t n', db_view t n' db = ∅) → redb_ready (open_or (redb_open_db path n db)).
Proof. intros H. by destruct (redb_open_ready path n db H) as (s & -> & ? & _). Qed.

Lemma redb_step_ready now op s : redb_ready s → redb_ready (redb_step now op s).1.
Proof. intros H. by destruct (redb_step_total now op s H) as (s' & r & -> & ? & _). Qed.

Lemma demo_ready : redb_ready demo.
Proof. apply open_or_ready, mem_empty_view. Qed.
Lemma demo_ttl_ready : redb_ready demo_ttl.
Proof.
  apply (redb_step_ready 0 (OpPut kB vY)), (redb_step_ready 1000000 (OpPutWithTtl kA vX 1000000)), demo_ready.
Qed.

(** Two stores on the tables ["t1"] and ["t2"] of one database; the second holds the
    expiring key. *)
Definition iso1_open : RedbStore := open_or (redb_open_db None "t1" mem_empty).
Definition iso2 : RedbStore :=
  (redb_put_with_ttl 1000000 kA vX 1000000 (open_or (redb_open_db None "t2" (rs_db iso1_open)))).1.
Definition iso1 : RedbStore := set_db (rs_db iso2) iso1_open.

Lemma iso1_ready : redb_ready iso1.
Proof. split_and!; [reflexivity|by eexists|by eexists]. Qed.

Lemma redb_history_refines_witness :
  ∃ s s' rs, redb_open_db None DEFAULT_TABLE_NAME mem_empty = Ok s ∧
    redb_run [(1000000, OpPutWithTtl kA vX 1000000); (3000000, OpGet kA); (3000000, OpCount)]%Z s = (s', rs) ∧
    abs_run [(1000000, OpPutWithTtl kA vX 1000000); (3000000, OpGet kA); (3000000, OpCount)]%Z abs_empty
      = (redb_abs s', rs).
Proof. apply (redb_history_refines (RE:=mem_engine) None DEFAULT_TABLE_NAME mem_empty). apply mem_empty_view. Defined.

Lemma redb_get_eviction_loses_write_witness :
  ∃ s1 s2, redb_put kA vY demo_ttl = (s1, Ok ()) ∧ (∀ t, visible t (redb_abs s1) !! kA = Some vY) ∧
    redb_get_interleaved 3000000 kA (λ s, (redb_put kA vY s).1) demo_ttl = (s2, Ok None) ∧
    ∀ t, visible t (redb_abs s2) !! kA = None.
Proof.
  apply (redb_get_eviction_loses_write 3000000 kA vY 2 demo_ttl);
    [apply demo_ttl_ready|vm_compute; reflexivity..].
Defined.

Lemma redb_purge_resurrects_other_table_witness :
  visible 3000000 (redb_abs iso2) !! kA = None ∧
  ∃ s1' n, redb_purge_expired 3000000 iso1 = (s1', Ok n) ∧
    ∀ t, visible t (redb_abs (set_db (rs_db s1') iso2)) !! kA = Some vX.
Proof.
  apply (redb_purge_resurrects_other_table 3000000 kA vX 2 iso1 iso2);
    [apply iso1_ready|reflexivity|vm_compute; congruence|vm_compute; reflexivity..].
Defined.

Lemma redb_put_returning_old_inherits_expiry_witness :
  ∃ s', redb_put_returning_old kA vY demo_ttl = (s', Ok (a_data (redb_abs demo_ttl) !! kA)) ∧
    ∀ t, visible t (redb_abs s') !! kA = if is_expired t 2 then None else Some vY.
Proof.
  apply (redb_put_returning_old_inherits_expiry kA vY 2 demo_ttl); [apply demo_ttl_ready|vm_compute; reflexivity].
Defined.

Lemma redb_persist_revives_expired_witness :
  visible 3000000 (redb_abs demo_ttl) !! kA = None ∧
  ∃ s', redb_persist kA demo_ttl = (s', Ok true) ∧ ∀ t, visible t (redb_abs s') !! kA = Some vX.
Proof.
  apply (redb_persist_revives_expired 3000000 kA vX 2 demo_ttl);
    [apply demo_ttl_ready|vm_compute; reflexivity..].
Defined.

Lemma redb_purge_expired_correct_witness :
  ∃ s', redb_purge_expired 3000000 demo_ttl = (s', Ok (length (abs_expired 3000000 (redb_abs demo_ttl)))) ∧
    (∀ t, later 3000000 t → visible t (redb_abs s') = visible t (redb_abs demo_ttl)) ∧
    (∀ k, expired_key 3000000 (a_ttl (redb_abs s')) k = false) ∧
    redb_purge_expired 3000000 s' = (s', Ok 0).
Proof. apply (redb_purge_expired_correct 3000000 demo_ttl). apply demo_ttl_ready. Defined.

Lemma redb_failure_invisible_witness :
  visible 5 (redb_abs (redb_step 0 (OpPersist vX) demo).1) = visible 5 (redb_abs demo).
Proof.
  apply (redb_failure_invisible 0 (OpPersist vX) demo (redb_step 0 (OpPersist vX) demo).1 KeyNotFound 5).
  - apply outcome_eq. vm_compute. reflexivity.
  - unfold later. vm_compute. congruence.
Defined.

(** A transaction on the empty store that wrote ["a"]. *)
Definition demo_txn0 : RedbTxn :=
  {| inner := Some (rs_db demo); overlay := ∅; txn_table := DEFAULT_TABLE_NAME |}.
Definition demo_txn : RedbTxn := (redb_txn_put kA vY demo_txn0).1.

Lemma demo_txn_base : txn_base demo_txn demo.
Proof.
  destruct (@kv_transaction_law RedbStore redb_kv redb_view redb_kv_laws demo demo_txn0) as [Hb _]; [reflexivity|].
  apply (@txn_put_law RedbStore redb_kv redb_view redb_kv_laws kA vY demo_txn0 demo_txn demo); [reflexivity|exact Hb].
Qed.

Lemma redb_txn_range_correct_witness :
  (redb_txn_range 0 [] kB demo_txn).2 = Some (Ok (map Ok (btree_between [] kB (txn_view 0 demo_txn)))).
Proof. apply (redb_txn_range_correct 0 [] kB demo_txn demo); [apply demo_txn_base|apply demo_ready]. Defined.

Lemma redb_snapshot_frozen_witness :
  ∃ p, redb_snapshot 3000000 demo_ttl = Ok p ∧
    (∀ k, redb_snap_get k p = Ok (visible 3000000 (redb_abs demo_ttl) !! k)) ∧
    (∀ lo hi, redb_snap_range lo hi p = Ok (map Ok (btree_between lo hi (visible 3000000 (redb_abs demo_ttl))))).
Proof. apply (redb_snapshot_frozen 3000000 demo_ttl). apply demo_ttl_ready. Defined.

Lemma redb_iter_collected_raw_witness :
  ∃ it l, redb_iter_collected demo_ttl = Ok it ∧ redb_iter 3000000 demo_ttl = Ok l ∧
    iter_inner it = map Ok (btree_iter (a_data (redb_abs demo_ttl))) ∧
    remaining it = size (a_data (redb_abs demo_ttl)) ∧
    (iter_inner it = l ↔ ∀ k, is_Some (a_data (redb_abs demo_ttl) !! k) →
       expired_key 3000000 (a_ttl (redb_abs demo_ttl)) k = false).
Proof. apply (redb_iter_collected_raw 3000000 demo_ttl). apply demo_ttl_ready. Defined.

(** ** The default methods of [Core.v] on the [redb] store *)
Lemma kv_prefix_scan_correct_witness :
  [Ok (kB, vY) : RangeItem] = map Ok (with_prefix kB (kv_view 3000000 demo_ttl)).
Proof. apply (kv_prefix_scan_correct 3000000 kB demo_ttl). vm_compute. reflexivity. Defined.

Lemma kv_batch_write_atomic_witness :
  kv_view 0 (kv_batch_write [(kA, vX); (kB, vY); (kA, vY)] demo).1 =
    apply_puts [(kA, vX); (kB, vY); (kA, vY)] (kv_view 0 demo).
Proof.
  apply (kv_batch_write_atomic [(kA, vX); (kB, vY); (kA, vY)] demo _ (Ok ())). apply outcome_eq. vm_compute. reflexivity.
Defined.

Lemma kv_batch_delete_atomic_witness :
  kv_view 3000000 (kv_batch_delete [kB] demo_ttl).1 = apply_deletes [kB] (kv_view 3000000 demo_ttl).
Proof. apply (kv_batch_delete_atomic [kB] demo_ttl _ (Ok ())). apply outcome_eq. vm_compute. reflexivity. Defined.

Lemma kv_compare_and_swap_correct_witness :
  kv_view 3000000 demo_ttl !! kA = None ∧
  ∀ t, kv_view t (kv_compare_and_swap 3000000 kA None vY demo_ttl).1 = <[kA:=vY]> (kv_view t demo_ttl).
Proof.
  apply (kv_compare_and_swap_correct 3000000 kA None vY demo_ttl _ (Ok true)). apply outcome_eq. vm_compute. reflexivity.
Defined.

Lemma kv_read_defaults_witness :
  1 = size (kv_view 3000000 demo_ttl).
Proof. apply (kv_read_defaults 3000000 demo_ttl). vm_compute. reflexivity. Defined.

Definition demo_snap : RedbSnapshot :=
  match redb_snapshot 0 demo_ttl with
  | Ok p => p
  | Err _ => {| snap_txn := mem_empty; snap_table := ""; captured_at_millis := 0 |}
  end.

Lemma snap_prefix_scan_behaviour_witness :
  ([] : list RangeItem) = if prefix_upper_bound [] is Some _ then map Ok (with_prefix [] (snap_view demo_snap)) else [].
Proof. apply (snap_prefix_scan_behaviour [] demo_snap). vm_compute. reflexivity. Defined.
