(* ===== verification/TreeDb.v ===== *)
(** * The interface of the [sled] and [fjall] engines

    [oxistore-kv-sled] and [oxistore-kv-fjall] keep their entries in one named
    ordered map and the expiries, as eight little-endian bytes, in another one
    called [__ttl__].  Both maps are trees of [sled] or keyspaces of [fjall], two
    third-party crates; the calls the backends make are the class [TreeEngine]
    and an error is the text of its [to_string].  [TreeLaws] is what the
    documentation of the crates promises: a tree is an ordered map, a point
    operation touches one key of one tree, a batch is applied entirely or not at
    all.  [TreeReliable] adds that no call reports an error.

    [mem_trees] satisfies all of it, and [faulty] turns any engine into one whose
    writes fail once a budget is spent, lawful but not reliable. *)

From S2P Require Import Prelude Bytes Core StoreSpec.

(** The sidecar tree of both backends. *)
Definition TTL_TREE : string := "__ttl__".

(** One operation of a write batch. *)
Inductive BatchOp :=
| BInsert (n : string) (k v : bytes)
| BRemove (n : string) (k : bytes).

Definition bop_tree (op : BatchOp) : string :=
  match op with BInsert n _ _ | BRemove n _ => n end.

Definition bop_apply (op : BatchOp) (m : gmap bytes bytes) : gmap bytes bytes :=
  match op with BInsert _ k v => <[k:=v]> m | BRemove _ k => delete k m end.

(** The effect of a batch on the tree [n]. *)
Definition batch_view (n : string) (ops : list BatchOp) (m : gmap bytes bytes) : gmap bytes bytes :=
  foldl (λ m op, if decide (bop_tree op = n) then bop_apply op m else m) m ops.

Abbreviation engine_items := (list (engine_result (bytes * bytes))).

Class TreeEngine := {
  TreeDb : Type;
  (** open or create a tree *)
  td_open : string → TreeDb → TreeDb * engine_result unit;
  td_get : string → bytes → TreeDb → engine_result (option bytes);
  td_range : string → bytes → bytes → TreeDb → engine_items;
  td_prefix : string → bytes → TreeDb → engine_items;
  td_iter : string → TreeDb → engine_items;
  td_insert : string → bytes → bytes → TreeDb → TreeDb * engine_result unit;
  (** the result is the previous value *)
  td_remove : string → bytes → TreeDb → TreeDb * engine_result (option bytes);
  td_batch : list BatchOp → TreeDb → TreeDb * engine_result unit;
  (** [sled]'s [Tree::compare_and_swap] to a new value; the inner error is a
      mismatch *)
  td_cas : string → bytes → option bytes → bytes → TreeDb →
    TreeDb * engine_result (result unit (option bytes));
}.

Class TreeView `{!TreeEngine} := td_view : string → TreeDb → gmap bytes bytes.

Class TreeLaws `{!TreeEngine, !TreeView} : Prop := {
  td_open_law n d d' r : td_open n d = (d', r) → ∀ n', td_view n' d' = td_view n' d;
  td_get_law n k d o : td_get n k d = Ok o → o = td_view n d !! k;
  td_range_law n lo hi d l : collect (td_range n lo hi d) = Ok l → l = btree_between lo hi (td_view n d);
  td_prefix_law n p d l : collect (td_prefix n p d) = Ok l → l = with_prefix p (td_view n d);
  td_iter_law n d l : collect (td_iter n d) = Ok l → l = btree_iter (td_view n d);
  (** an item is an entry of the tree, also when other items are errors *)
  td_iter_item n d k v : Ok (k, v) ∈ td_iter n d → td_view n d !! k = Some v;
  td_insert_law n k v d d' r : td_insert n k v d = (d', r) →
    td_view n d' = (if r is Ok _ then <[k:=v]> (td_view n d) else td_view n d) ∧
    ∀ n', n' ≠ n → td_view n' d' = td_view n' d;
  td_remove_law n k d d' r : td_remove n k d = (d', r) →
    td_view n d' = (if r is Ok _ then delete k (td_view n d) else td_view n d) ∧
    (∀ o, r = Ok o → o = td_view n d !! k) ∧
    ∀ n', n' ≠ n → td_view n' d' = td_view n' d;
  td_batch_law ops d d' r : td_batch ops d = (d', r) →
    ∀ n, td_view n d' = (if r is Ok _ then batch_view n ops (td_view n d) else td_view n d);
  td_cas_law n k expected v d d' r : td_cas n k expected v d = (d', r) →
    td_view n d' = (if r is Ok (Ok _) then <[k:=v]> (td_view n d) else td_view n d) ∧
    (r = Ok (Ok ()) → td_view n d !! k = expected) ∧
    (∀ o, r = Ok (Err o) → o = td_view n d !! k ∧ o ≠ expected) ∧
    ∀ n', n' ≠ n → td_view n' d' = td_view n' d;
}.

Class TreeReliable `{!TreeEngine} : Prop := {
  td_open_ok n d : is_Ok (td_open n d).2;
  td_get_ok n k d : is_Ok (td_get n k d);
  td_range_ok n lo hi d : is_Ok (collect (td_range n lo hi d));
  td_prefix_ok n p d : is_Ok (collect (td_prefix n p d));
  td_iter_ok n d : is_Ok (collect (td_iter n d));
  td_insert_ok n k v d : is_Ok (td_insert n k v d).2;
  td_remove_ok n k d : is_Ok (td_remove n k d).2;
  td_batch_ok ops d : is_Ok (td_batch ops d).2;
  td_cas_ok n k expected v d : is_Ok (td_cas n k expected v d).2;
}.

(** ** Concrete engines *)
Definition mem_tree (n : string) (d : gmap string (gmap bytes bytes)) : gmap bytes bytes :=
  default ∅ (d !! n).

Definition mem_bop (op : BatchOp) (d : gmap string (gmap bytes bytes)) : gmap string (gmap bytes bytes) :=
  <[bop_tree op := bop_apply op (mem_tree (bop_tree op) d)]> d.

#[global] Instance mem_trees : TreeEngine := {|
  TreeDb := gmap string (gmap bytes bytes);
  td_open n d := (d, Ok ());
  td_get n k d := Ok (mem_tree n d !! k);
  td_range n lo hi d := map Ok (btree_between lo hi (mem_tree n d));
  td_prefix n p d := map Ok (with_prefix p (mem_tree n d));
  td_iter n d := map Ok (btree_iter (mem_tree n d));
  td_insert n k v d := (mem_bop (BInsert n k v) d, Ok ());
  td_remove n k d := (mem_bop (BRemove n k) d, Ok (mem_tree n d !! k));
  td_batch ops d := (foldl (flip mem_bop) d ops, Ok ());
  td_cas n k expected v d :=
    if decide (mem_tree n d !! k = expected) then (mem_bop (BInsert n k v) d, Ok (Ok ()))
    else (d, Ok (Err (mem_tree n d !! k)));
|}.

#[global] Instance mem_trees_view : TreeView := mem_tree.

Lemma mem_bop_view op n d :
  mem_tree n (mem_bop op d) = if decide (bop_tree op = n) then bop_apply op (mem_tree n d) else mem_tree n d.
Proof.
  unfold mem_bop, mem_tree. case_decide as H; [subst; by rewrite lookup_insert_eq|by rewrite lookup_insert_ne].
Qed.

#[global] Instance mem_trees_laws : TreeLaws.
Proof.
  split; unfold td_view, mem_trees_view; simpl.
  - by intros n d d' r [= <- <-] n'.
  - by intros * [= ->].
  - intros *. rewrite collect_map_Ok. by intros [= ->].
  - intros *. rewrite collect_map_Ok. by intros [= ->].
  - intros *. rewrite collect_map_Ok. by intros [= ->].
  - intros *. rewrite list_elem_of_fmap. intros ([k' v'] & [= <- <-] & H). by apply elem_of_btree_iter.
  - intros * [= <- <-]. split; [by rewrite mem_bop_view, decide_True|].
    intros n' Hn. by rewrite mem_bop_view, decide_False by (simpl; congruence).
  - intros * [= <- <-]. split_and!; [by rewrite mem_bop_view, decide_True|by intros o [= ->]|].
    intros n' Hn. by rewrite mem_bop_view, decide_False by (simpl; congruence).
  - intros ops d d' r [= <- <-] n. revert d. unfold batch_view.
    induction ops as [|op ops IH]; intros d; simpl; [done|]. by rewrite IH, mem_bop_view.
  - intros *. case_decide as H; intros [= <- <-].
    + split_and!; [by rewrite mem_bop_view, decide_True|done|by intros o ?; simplify_eq|].
      intros n' Hn. by rewrite mem_bop_view, decide_False by (simpl; congruence).
    + split_and!; [done|by intros ?; simplify_eq|by intros o [= <-]|done].
Qed.

#[global] Instance mem_trees_reliable : TreeReliable.
Proof.
  split; simpl; intros; try (case_decide); rewrite ?collect_map_Ok; unfold is_Ok; simpl; eauto.
Qed.

(** An engine whose writes fail once [n] of them are done. *)
Section Faulty.
Context `{!TreeEngine}.

Definition spend {A} (op : TreeDb → TreeDb * engine_result A) (d : TreeDb * nat)
    : (TreeDb * nat) * engine_result A :=
  match d.2 with
  | 0 => (d, Err "no space left on device"%string)
  | S n => let '(d', r) := op d.1 in ((d', n), r)
  end.

Definition faulty : TreeEngine := {|
  TreeDb := TreeDb * nat;
  td_open n := spend (td_open n);
  td_get n k d := td_get n k d.1;
  td_range n lo hi d := td_range n lo hi d.1;
  td_prefix n p d := td_prefix n p d.1;
  td_iter n d := td_iter n d.1;
  td_insert n k v := spend (td_insert n k v);
  td_remove n k := spend (td_remove n k);
  td_batch ops := spend (td_batch ops);
  td_cas n k expected v := spend (td_cas n k expected v);
|}.

Definition faulty_view `{!TreeView} : @TreeView faulty := λ n d, td_view n d.1.

Lemma spend_spec {A} (op : TreeDb → TreeDb * engine_result A) d d' r :
  spend op d = (d', r) → (d' = d ∧ ∃ e, r = Err e) ∨ op d.1 = (d'.1, r).
Proof.
  unfold spend. destruct d as [d [|n]]; simpl; [intros [= <- <-]; left; eauto|].
  destruct (op d) as [d1 r1]. intros [= <- <-]. by right.
Qed.

Lemma faulty_laws `{!TreeView, !TreeLaws} : @TreeLaws faulty faulty_view.
Proof.
  split; unfold td_view, faulty_view; simpl.
  - intros n d d' r [(-> & e & ->)|Hop]%spend_spec n'; [done|]. apply (td_open_law _ _ _ _ Hop).
  - intros *. apply td_get_law.
  - intros *. apply td_range_law.
  - intros *. apply td_prefix_law.
  - intros *. apply td_iter_law.
  - intros *. apply td_iter_item.
  - intros * [(-> & e & ->)|Hop]%spend_spec; [done|]. by apply td_insert_law in Hop.
  - intros * [(-> & e & ->)|Hop]%spend_spec; [done|]. by apply td_remove_law in Hop.
  - intros ops d d' r [(-> & e & ->)|Hop]%spend_spec n; [done|]. apply (td_batch_law _ _ _ _ Hop).
  - intros * [(-> & e & ->)|Hop]%spend_spec; [done|]. by apply td_cas_law in Hop.
Qed.
End Faulty.
