(* ===== verification/TreeSpec.v ===== *)
(** * Stores over two trees

    What [Sled.v] and [Fjall.v] have in common: the encoding of an expiry, the
    abstraction of a pair of trees to the specification of [StoreSpec.v], and two
    relations between a program on the engine and a program on the abstract
    state.  [refines] says that they agree, [atomic] that they agree or the
    engine reported an error and nothing changed; both are closed under
    sequencing, so that the specification of an operation is assembled from
    those of its calls. *)

From S2P Require Import Prelude Bytes Core StoreSpec TreeDb.

(** ** Expiries *)
Definition encode_expiry (millis : Z) : bytes := to_le_bytes 8 millis.

Definition decode_expiry (b : bytes) : option Z :=
  if decide (length b = 8) then Some (from_le_bytes b) else None.

Lemma decode_encode_expiry e : u64_ok e → decode_expiry (encode_expiry e) = Some e.
Proof.
  intros He. unfold decode_expiry, encode_expiry. rewrite length_to_le_bytes, decide_True by done.
  rewrite from_to_le_bytes. f_equal. by apply Z.mod_small.
Qed.

Lemma expiry_epoch_millis_u64 now ttl e : expiry_epoch_millis now ttl = Ok e → u64_ok e.
Proof.
  unfold expiry_epoch_millis. destruct (duration_since_epoch now); [|done]. intros [= <-]. apply wrap64_range.
Qed.

Section TreeSpec.
Context {TE : TreeEngine} {TV : TreeView} {TL : TreeLaws}.

Abbreviation D A := (TreeDb → TreeDb * store_result A).

(** ** The calls, with their errors mapped *)
Definition d_lift {A} (op : TreeDb → TreeDb * engine_result A) : D A :=
  λ d, let '(d', r) := op d in (d', other r).
Definition d_ret {A} (r : store_result A) : D A := λ d, (d, r).
Definition d_get (n : string) (k : bytes) : D (option bytes) := λ d, (d, other (td_get n k d)).
Definition d_insert (n : string) (k v : bytes) : D unit := d_lift (td_insert n k v).
Definition d_remove (n : string) (k : bytes) : D (option bytes) := d_lift (td_remove n k).
Definition d_batch (ops : list BatchOp) : D unit := d_lift (td_batch ops).

(** ** The abstraction *)
Definition tree_ttl (d : TreeDb) : gmap bytes Z := omap decode_expiry (td_view TTL_TREE d).
Definition tree_abs (n : string) (d : TreeDb) : AbsStore :=
  {| a_data := td_view n d; a_ttl := tree_ttl d |}.

(** Every expiry in the sidecar tree decodes. *)
Definition ttl_wf (d : TreeDb) : Prop :=
  map_Forall (λ _ b, is_Some (decode_expiry b)) (td_view TTL_TREE d).

Abbreviation P A := (AbsStore → AbsStore * store_result A).

(** Most operations do not need the expiries to decode: [w] says whether the
    relations assume it.  It is preserved in any case. *)
Context {w : Prop}.

Definition refines {A} (n : string) (m : D A) (f : P A) : Prop :=
  ∀ d d' r, m d = (d', r) → (w → ttl_wf d) →
    (ttl_wf d → ttl_wf d') ∧ f (tree_abs n d) = (tree_abs n d', r).

Definition atomic {A} (n : string) (m : D A) (f : P A) : Prop :=
  ∀ d d' r, m d = (d', r) → (w → ttl_wf d) → (ttl_wf d → ttl_wf d') ∧
    (f (tree_abs n d) = (tree_abs n d', r) ∨
     (¬ TreeReliable ∧ (∃ e, r = Err (Other e)) ∧ tree_abs n d' = tree_abs n d)).

(** A program that only reads. *)
Definition pure_prog {A} (f : P A) : Prop := ∀ a, (f a).1 = a.

Lemma atomic_refines {A} `{!TreeReliable} n (m : D A) f : atomic n m f → refines n m f.
Proof. intros Hm d d' r E Hw. destruct (Hm _ _ _ E Hw) as [? [?|[? _]]]; [done|contradiction]. Qed.

Lemma refines_ext {A} n (m : D A) f g : refines n m f → (∀ a, f a = g a) → refines n m g.
Proof. intros H Hfg d d' r E Hw. destruct (H _ _ _ E Hw). by rewrite <-Hfg. Qed.

Lemma atomic_ext {A} n (m : D A) f g : atomic n m f → (∀ a, f a = g a) → atomic n m g.
Proof. intros H Hfg d d' r E Hw. destruct (H _ _ _ E Hw). by rewrite <-Hfg. Qed.

Lemma refines_ret {A} n (r : store_result A) : refines n (d_ret r) (λ a, (a, r)).
Proof. by intros d d' r' [= <- <-]. Qed.

Lemma atomic_ret {A} n (r : store_result A) : atomic n (d_ret r) (λ a, (a, r)).
Proof. intros d d' r' [= <- <-] Hw. by split; [|left]. Qed.

Lemma d_bind_ret {A B} (a : A) (k : A → D B) : st_bind (d_ret (Ok a)) k = k a.
Proof. done. Qed.

Lemma refines_bind {A B} n (m : D A) (k : A → D B) f g :
  refines n m f → (∀ a, refines n (k a) (g a)) → refines n (st_bind m k) (st_bind f g).
Proof.
  intros Hm Hk d d' r. unfold st_bind. destruct (m d) as [d1 [a|e]] eqn:E; intros E2 Hw;
    destruct (Hm _ _ _ E Hw) as [Hw1 ->].
  - destruct (Hk a _ _ _ E2) as [? ->]; auto.
  - by simplify_eq.
Qed.

(** Only the last step of an atomic program may write. *)
Lemma atomic_bind {A B} n (m : D A) (k : A → D B) f g :
  atomic n m f → pure_prog f → (∀ a, atomic n (k a) (g a)) → atomic n (st_bind m k) (st_bind f g).
Proof.
  intros Hm Hpure Hk d d' r. unfold st_bind. destruct (m d) as [d1 [a|e]] eqn:E; intros E2 Hw;
    destruct (Hm _ _ _ E Hw) as [Hw1 [Hf|(Hr & [e' He] & Ha)]]; simplify_eq.
  - rewrite Hf. assert (tree_abs n d1 = tree_abs n d) as Ha.
    { specialize (Hpure (tree_abs n d)). by rewrite Hf in Hpure. }
    rewrite <-Ha. destruct (Hk a _ _ _ E2) as [? ?]; auto.
  - rewrite Hf. by split; [|left].
  - split; [done|right]. unfold tree_abs. rewrite Ha, H. eauto.
Qed.

(** A last step that only returns cannot fail. *)
Lemma atomic_bind_ret {A B} n (m : D A) (g : A → store_result B) f :
  atomic n m f → atomic n (st_bind m (λ a, d_ret (g a))) (st_bind f (λ a s, (s, g a))).
Proof.
  intros Hm d d' r. unfold st_bind, d_ret. destruct (m d) as [d1 [a|e]] eqn:E; intros [= <- <-] Hw;
    destruct (Hm _ _ _ E Hw) as [? [->|(Hr & [e' He] & Ha)]]; try done; (split; [done|]); auto.
  right. injection He as ->. eauto.
Qed.

Lemma atomic_map {A B} n (h : A → B) (m : D A) f :
  atomic n m f → atomic n (λ d, let '(d', r) := m d in (d', result_map h r))
                          (λ a, let '(a', r) := f a in (a', result_map h r)).
Proof.
  intros Hm d d' r. destruct (m d) as [d1 r1] eqn:E. intros [= <- <-] Hw.
  destruct (Hm _ _ _ E Hw) as [? [->|(Hr & [e' ->] & Ha)]]; (split; [done|]); [by left|right]. eauto.
Qed.

(** ** Specifications of the calls on the two trees *)
Lemma reliable_other {A} (r : engine_result A) (f : store_result A → Prop) :
  (TreeReliable → is_Ok r) → (∀ a, r = Ok a → f (Ok a)) →
  f (other r) ∨ ¬ TreeReliable ∧ ∃ e, other r = Err (Other e).
Proof.
  intros Hr Hf. destruct r as [a|e]; simpl; [left; auto|right]. split; [|eauto].
  intros H. by destruct (Hr H).
Qed.

Lemma atomic_get n k : atomic n (d_get n k) (λ a, (a, Ok (a_data a !! k))).
Proof.
  intros d d' r [= <- <-] Hw. split; [done|].
  destruct (reliable_other (td_get n k d) (λ r, r = Ok (td_view n d !! k))) as [->|[? ?]]; auto.
  - intros. apply td_get_ok.
  - intros o Ho. by rewrite (td_get_law _ _ _ _ Ho).
Qed.

Lemma tree_ttl_lookup d k : tree_ttl d !! k = td_view TTL_TREE d !! k ≫= decode_expiry.
Proof. apply lookup_omap. Qed.

(** Reading the sidecar tree: the rest of the program may look at the raw bytes,
    which decode. *)
Lemma atomic_bind_ttl {B} n key (k : option bytes → D B) (g : option Z → P B) :
  (∀ o, (w → ∀ b, o = Some b → is_Some (decode_expiry b)) → atomic n (k o) (g (o ≫= decode_expiry))) →
  atomic n (st_bind (d_get TTL_TREE key) k) (λ a, g (a_ttl a !! key) a).
Proof.
  intros Hk d d' r. unfold st_bind, d_get. destruct (td_get TTL_TREE key d) as [o|e] eqn:E; simpl.
  - intros E2 Hw. pose proof (td_get_law _ _ _ _ E) as ->. rewrite tree_ttl_lookup.
    eapply Hk; [|done|done]. intros Hb b Hb'. by apply (Hw Hb key).
  - intros [= <- <-] Hw. split; [done|right]. split; [|eauto].
    intros Hr. destruct (td_get_ok TTL_TREE key d). congruence.
Qed.

Lemma refines_bind_ttl {B} `{!TreeReliable} n key (k : option bytes → D B) (g : option Z → P B) :
  (∀ o, (w → ∀ b, o = Some b → is_Some (decode_expiry b)) → refines n (k o) (g (o ≫= decode_expiry))) →
  refines n (st_bind (d_get TTL_TREE key) k) (λ a, g (a_ttl a !! key) a).
Proof.
  intros Hk d d' r. unfold st_bind, d_get. destruct (td_get_ok TTL_TREE key d) as [o E]. rewrite E. simpl.
  intros E2 Hw. pose proof (td_get_law _ _ _ _ E) as ->. rewrite tree_ttl_lookup.
  eapply Hk; [|done|done]. intros Hb b Hb'. by apply (Hw Hb key).
Qed.

Lemma ttl_wf_delete d d' k : td_view TTL_TREE d' = delete k (td_view TTL_TREE d) → ttl_wf d → ttl_wf d'.
Proof. unfold ttl_wf. intros ->. apply map_Forall_delete. Qed.

Lemma ttl_wf_same d d' : td_view TTL_TREE d' = td_view TTL_TREE d → ttl_wf d → ttl_wf d'.
Proof. unfold ttl_wf. by intros ->. Qed.

Lemma refines_insert `{!TreeReliable} n k v :
  n ≠ TTL_TREE → refines n (d_insert n k v) (λ a, ({| a_data := <[k:=v]> (a_data a); a_ttl := a_ttl a |}, Ok ())).
Proof.
  intros Hn d d' r. unfold d_insert, d_lift. destruct (td_insert_ok n k v d) as [[] E].
  destruct (td_insert n k v d) as [d1 r1] eqn:Ei. simpl in E. subst r1. intros [= <- <-] Hw.
  apply td_insert_law in Ei as [Hv Hne].
  split; [apply ttl_wf_same; by rewrite Hne by done|].
  unfold tree_abs, tree_ttl. simpl. by rewrite Hv, (Hne TTL_TREE) by done.
Qed.

Lemma refines_remove `{!TreeReliable} n k :
  n ≠ TTL_TREE →
  refines n (d_remove n k) (λ a, ({| a_data := delete k (a_data a); a_ttl := a_ttl a |}, Ok (a_data a !! k))).
Proof.
  intros Hn d d' r. unfold d_remove, d_lift. destruct (td_remove_ok n k d) as [o E].
  destruct (td_remove n k d) as [d1 r1] eqn:Ei. simpl in E. subst r1. intros [= <- <-] Hw.
  apply td_remove_law in Ei as (Hv & Ho & Hne).
  split; [apply ttl_wf_same; by rewrite Hne by done|].
  unfold tree_abs, tree_ttl. simpl. by rewrite Hv, (Hne TTL_TREE), (Ho _ eq_refl) by done.
Qed.

Lemma atomic_insert_ttl n k e :
  n ≠ TTL_TREE → u64_ok e →
  atomic n (d_insert TTL_TREE k (encode_expiry e)) (λ a, (abs_set_ttl k e a, Ok ())).
Proof.
  intros Hn He d d' r. unfold d_insert, d_lift. pose proof (decode_encode_expiry e He) as Hd.
  destruct (td_insert TTL_TREE k (encode_expiry e) d) as [d1 r1] eqn:Ei. intros [= <- <-] Hw.
  pose proof (td_insert_law _ _ _ _ _ _ Ei) as [Hv Hne]. unfold tree_abs, abs_set_ttl, tree_ttl, ttl_wf. simpl.
  rewrite (Hne n Hn), Hv. destruct r1 as [[]|err]; simpl.
  - split; [|left]; [intros Hwf; apply map_Forall_insert_2; [by rewrite Hd; eauto|done]|].
    by rewrite (omap_insert_Some decode_expiry _ k _ e) by done.
  - split; [done|right]. split; [|eauto]. intros Hr. destruct (td_insert_ok TTL_TREE k (encode_expiry e) d).
    rewrite Ei in *. done.
Qed.

(** Removing an expiry returns the raw bytes. *)
Lemma refines_bind_remove_ttl {B} `{!TreeReliable} n key (k : option bytes → D B) (g : option Z → P B) :
  n ≠ TTL_TREE →
  (∀ o, (w → ∀ b, o = Some b → is_Some (decode_expiry b)) → refines n (k o) (g (o ≫= decode_expiry))) →
  refines n (st_bind (d_remove TTL_TREE key) k) (λ a, g (a_ttl a !! key) (abs_del_ttl key a)).
Proof.
  intros Hn Hk d d' r. unfold st_bind, d_remove, d_lift. destruct (td_remove_ok TTL_TREE key d) as [o E].
  destruct (td_remove TTL_TREE key d) as [d1 r1] eqn:Ei. simpl in E. subst r1. simpl. intros E2 Hw.
  apply td_remove_law in Ei as (Hv & Ho & Hne). rewrite (Ho _ eq_refl) in *.
  assert (abs_del_ttl key (tree_abs n d) = tree_abs n d1) as Ha.
  { unfold abs_del_ttl, tree_abs, tree_ttl. simpl. by rewrite Hv, Hne, omap_delete by done. }
  simpl. rewrite tree_ttl_lookup, Ha. pose proof (ttl_wf_delete d d1 key Hv) as Hwf.
  destruct (Hk (td_view TTL_TREE d !! key)) with d1 d' r as [? ->]; auto.
  intros Hb b Hb'. by apply (Hw Hb key).
Qed.

Lemma atomic_batch n ops f :
  (∀ d,
     (ttl_wf d → map_Forall (λ _ b, is_Some (decode_expiry b)) (batch_view TTL_TREE ops (td_view TTL_TREE d))) ∧
     f (tree_abs n d) = {| a_data := batch_view n ops (td_view n d);
                           a_ttl := omap decode_expiry (batch_view TTL_TREE ops (td_view TTL_TREE d)) |}) →
  atomic n (d_batch ops) (λ a, (f a, Ok ())).
Proof.
  intros Hf d d' r. unfold d_batch, d_lift. destruct (td_batch ops d) as [d1 r1] eqn:Eb.
  intros [= <- <-] Hw. destruct (Hf d) as [Hw' ->]. pose proof (td_batch_law _ _ _ _ Eb) as Hv.
  unfold tree_abs, tree_ttl, ttl_wf. rewrite !Hv. destruct r1 as [[]|err]; simpl; [by split; [|left]|].
  split; [done|right]. split; [|eauto]. intros Hr. destruct (td_batch_ok ops d). rewrite Eb in *. done.
Qed.

(** ** Reads *)

(** Whether the sidecar tree says that a key has expired; bytes that do not
    decode say it has not. *)
Definition tree_expired (now : Z) (d : TreeDb) (key : bytes) : store_result bool :=
  let? o := other (td_get TTL_TREE key d) in
  Ok (match o with
      | Some b => match decode_expiry b with Some e => is_expired now e | None => false end
      | None => false
      end).

Lemma tree_expired_spec now d k b : tree_expired now d k = Ok b → b = expired_key now (tree_ttl d) k.
Proof.
  unfold tree_expired, expired_key. rewrite tree_ttl_lookup.
  destruct (td_get TTL_TREE k d) as [o|] eqn:E; simpl; [|done].
  apply td_get_law in E as ->. intros [= <-]. by destruct (td_view TTL_TREE d !! k).
Qed.

Lemma tree_expired_total `{!TreeReliable} now d k : ∃ b, tree_expired now d k = Ok b.
Proof. unfold tree_expired. destruct (td_get_ok TTL_TREE k d) as [o ->]. simpl. eauto. Qed.

(** A read that agrees with [v], or fails because the engine does. *)
Definition reads {A} (r : store_result A) (v : A) : Prop :=
  r = Ok v ∨ ¬ TreeReliable ∧ ∃ e, r = Err (Other e).

Lemma reads_intro {A} (r : store_result A) (v : A) :
  (∀ a, r = Ok a → a = v) → (∀ e, r = Err e → ∃ m, e = Other m) → (TreeReliable → is_Ok r) → reads r v.
Proof.
  intros Hok Herr Hrel. destruct r as [a|e]; [left; by rewrite (Hok a eq_refl)|right].
  split; [intros H; by destruct (Hrel H)|]. destruct (Herr e eq_refl) as [m ->]. eauto.
Qed.

Lemma reads_Ok {A} (r : store_result A) v a : reads r v → r = Ok a → a = v.
Proof. intros [->|[_ [e ->]]]; congruence. Qed.

Lemma tree_expired_err now d k e : tree_expired now d k = Err e → ∃ m, e = Other m.
Proof. unfold tree_expired. destruct (td_get TTL_TREE k d); simpl; [done|]. intros [= <-]. eauto. Qed.

Lemma scan_loop_err ex items e :
  (∀ k e, ex k = Err e → ∃ m, e = Other m) → scan_loop ex items = Err e → ∃ m, e = Other m.
Proof.
  intros Hex. revert e. induction items as [|[[k v]|err] items IH]; intros e; simpl; [done| |].
  - destruct (ex k) as [[]|] eqn:E; [auto| |intros [= <-]; eauto].
    destruct (scan_loop ex items); [done|]. intros [= <-]. auto.
  - intros [= <-]. eauto.
Qed.

Lemma count_loop_err ex n items e :
  (∀ k e, ex k = Err e → ∃ m, e = Other m) → count_loop ex n items = Err e → ∃ m, e = Other m.
Proof.
  intros Hex. revert n e. induction items as [|[[k v]|err] items IH]; intros n e; simpl; [done| |].
  - destruct (ex k) as [[]|] eqn:E; [eauto|eauto|intros [= <-]; eauto].
  - intros [= <-]. eauto.
Qed.

(** A scan of the data tree that skips the expired keys. *)
Lemma reads_scan now d items l :
  (∀ l', collect items = Ok l' → l' = l) → (TreeReliable → is_Ok (collect items)) →
  reads (scan_loop (tree_expired now d) items)
    (map Ok (List.filter (λ kv, negb (expired_key now (tree_ttl d) kv.1)) l)).
Proof.
  intros Hl Hrel. apply reads_intro.
  - intros out Hs. destruct (scan_loop_spec _ _ _ _ (tree_expired_spec now d) Hs) as (l' & Hc & ->).
    by rewrite (Hl _ Hc).
  - intros e. apply scan_loop_err. apply tree_expired_err.
  - intros H. destruct (Hrel H) as [l' Hc].
    apply (scan_loop_total _ _ l'); [intros; by apply tree_expired_total|done].
Qed.

Lemma reads_range n now lo hi d :
  reads (scan_loop (tree_expired now d) (td_range n lo hi d))
    (map Ok (btree_between lo hi (visible now (tree_abs n d)))).
Proof.
  rewrite <-btree_between_visible. apply reads_scan; [apply td_range_law|intros; apply td_range_ok].
Qed.

Lemma reads_prefix n now p d :
  reads (scan_loop (tree_expired now d) (td_prefix n p d))
    (map Ok (with_prefix p (visible now (tree_abs n d)))).
Proof.
  rewrite <-with_prefix_visible. apply reads_scan; [apply td_prefix_law|intros; apply td_prefix_ok].
Qed.

Lemma reads_iter n now d :
  reads (scan_loop (tree_expired now d) (td_iter n d))
    (map Ok (btree_iter (visible now (tree_abs n d)))).
Proof.
  rewrite <-btree_iter_visible. apply reads_scan; [apply td_iter_law|intros; apply td_iter_ok].
Qed.

Lemma reads_count n now d :
  reads (count_loop (tree_expired now d) 0 (td_iter n d)) (size (visible now (tree_abs n d))).
Proof.
  apply reads_intro.
  - intros m Hm. destruct (count_loop_spec _ _ _ _ _ (tree_expired_spec now d) Hm) as (l & Hc & ->).
    rewrite (td_iter_law _ _ _ Hc), <-btree_iter_length, <-btree_iter_visible. done.
  - intros e. apply count_loop_err. apply tree_expired_err.
  - intros H. destruct (td_iter_ok n d) as [l Hc].
    apply (count_loop_total _ _ _ l); [intros; by apply tree_expired_total|done].
Qed.

Lemma reads_keys n now d :
  keys_loop (tree_expired now d) (td_iter n d) = map Ok (btree_iter (visible now (tree_abs n d))).*1 ∨
  ¬ TreeReliable ∧ ∃ e, Err e ∈ keys_loop (tree_expired now d) (td_iter n d).
Proof.
  destruct (keys_loop_spec _ _ (td_iter n d) (tree_expired_spec now d)) as [(l & Hc & ->)|[e He]].
  - left. rewrite (td_iter_law _ _ _ Hc). by rewrite <-btree_iter_visible.
  - right. split; [|eauto]. intros H. destruct (td_iter_ok n d) as [l Hc].
    eapply keys_loop_total; [intros; by apply tree_expired_total|done|done].
Qed.

Lemma reads_atomic {A} n (g : TreeDb → store_result A) (v : AbsStore → A) :
  (∀ d, reads (g d) (v (tree_abs n d))) → atomic n (λ d, (d, g d)) (λ a, (a, Ok (v a))).
Proof.
  intros H d d' r [= <- <-] Hw. split; [done|]. destruct (H d) as [->|[? ?]]; [by left|right]. auto.
Qed.

(** ** Purging *)

(** The expired keys of the sidecar tree, from its entries. *)
Definition expired_entries (now : Z) (l : list (bytes * bytes)) : list bytes :=
  (List.filter (λ kb, match decode_expiry kb.2 with Some e => is_expired now e | None => false end) l).*1.

Lemma btree_iter_omap {A B} (f : A → option B) (m : gmap bytes A) :
  btree_iter (omap f m) = omap (λ ka, (ka.1,.) <$> f ka.2) (btree_iter m).
Proof.
  symmetry. apply btree_iter_unique.
  - pose proof (btree_iter_sorted m) as Hs. induction Hs as [|[k a] l Hs IH Hall]; simpl; [constructor|].
    destruct (f a) as [b0|]; simpl; [|done]. constructor; [done|]. apply Forall_forall. intros [k' b] Hin.
    apply list_elem_of_omap in Hin as ([k'' a'] & Hin & Ho). rewrite Forall_forall in Hall.
    specialize (Hall _ Hin). simpl in Ho. by destruct (f a'); simplify_eq/=.
  - pose proof (btree_iter_NoDup m) as Hnd. induction (btree_iter m) as [|[k a] l IH]; simpl; [constructor|].
    apply NoDup_cons in Hnd as [Hk Hnd]. destruct (f a) as [b0|]; simpl; [|auto]. csimpl. constructor; [|auto].
    contradict Hk. apply list_elem_of_fmap in Hk as ([k' b] & -> & Hin).
    apply list_elem_of_omap in Hin as ([k'' a'] & Hin & Ho). simpl in *.
    destruct (f a'); simplify_eq/=. apply list_elem_of_fmap. by exists (k', a').
  - intros k b. rewrite lookup_omap, list_elem_of_omap. split.
    + intros ([k' a] & Hin & Ho). apply elem_of_btree_iter in Hin. simpl in *.
      destruct (f a) eqn:E; simplify_eq/=. rewrite Hin. done.
    + destruct (m !! k) as [a|] eqn:E; simpl; [|done]. intros Hf. exists (k, a).
      rewrite elem_of_btree_iter. simpl. by rewrite Hf.
Qed.

Lemma expired_entries_spec n now d :
  expired_entries now (btree_iter (td_view TTL_TREE d)) = abs_expired now (tree_abs n d).
Proof.
  unfold abs_expired, tree_abs, tree_ttl, expired_entries. simpl. rewrite btree_iter_omap.
  induction (btree_iter _) as [|[k b] l IH]; simpl; [done|].
  destruct (decode_expiry b) as [e|]; simpl; [|done]. destruct (is_expired now e); [csimpl; by f_equal|exact IH].
Qed.
End TreeSpec.

#[global] Arguments refines {_ _} w {_} n m f : assert.
#[global] Arguments atomic {_ _} w {_} n m f : assert.
