(* ===== verification/Sled.v ===== *)
(** * [oxistore-kv-sled]: the [sled] backend

    [SledStore] keeps its entries in the tree [default] and the expiries in the
    tree [__ttl__] of one [sled] database.  The handles are names here and the
    database is the state: an operation is a sequence of calls on it, each atomic
    on its own, with the state kept when a later call fails.  [SledTxn] buffers
    its writes in a list and an overlay and reads the live trees; [SledSnapshot] is
    a copy. *)

From S2P Require Import Prelude Bytes Core StoreSpec TreeDb TreeSpec.

Definition DEFAULT_TREE : string := "default".

Section SledModel.
Context {TE : TreeEngine}.

Abbreviation D A := (TreeDb → TreeDb * store_result A).

Record SledStore := { sl_db : TreeDb }.

(** An operation of the store is one on its database. *)
Definition on_db {A} (m : D A) (s : SledStore) : SledStore * store_result A :=
  let '(d, r) := m (sl_db s) in ({| sl_db := d |}, r).

(** The tail of [open], [open_temporary] and [build]: the two trees of a database that
    was opened. *)
Definition sled_open_trees (d : TreeDb) : store_result SledStore :=
  match td_open DEFAULT_TREE d with
  | (_, Err e) => Err (Other e)
  | (d, Ok _) =>
      match td_open TTL_TREE d with
      | (_, Err e) => Err (Other e)
      | (d, Ok _) => Ok {| sl_db := d |}
      end
  end.

Definition sled_is_ttl_expired (now : Z) (d : TreeDb) (key : bytes) : store_result bool :=
  let? o := other (td_get TTL_TREE key d) in
  match o with
  | Some expiry_bytes =>
      match decode_expiry expiry_bytes with
      | Some expiry_millis => Ok (is_expired now expiry_millis)
      | None => Ok false
      end
  | None => Ok false
  end.

(** ** Point operations *)

(** The removal from both trees of the lazy evictions. *)
Definition sled_evict (key : bytes) : D unit :=
  let* _ := d_remove DEFAULT_TREE key in
  let* _ := d_remove TTL_TREE key in
  d_ret (Ok ()).

(** [if let Some(bytes) = .. { if let Some(millis) = decode_expiry(..) { .. } }] *)
Definition sled_get (now : Z) (key : bytes) : D (option bytes) :=
  let* expiry_bytes := d_get TTL_TREE key in
  match expiry_bytes ≫= decode_expiry with
  | Some expiry_millis =>
      if is_expired now expiry_millis then
        let* _ := sled_evict key in d_ret (Ok None)
      else d_get DEFAULT_TREE key
  | None => d_get DEFAULT_TREE key
  end.

Definition sled_put (key value : bytes) : D unit :=
  let* _ := d_insert DEFAULT_TREE key value in
  let* _ := d_remove TTL_TREE key in
  d_ret (Ok ()).

Definition sled_delete (key : bytes) : D unit :=
  let* _ := d_remove DEFAULT_TREE key in
  let* _ := d_remove TTL_TREE key in
  d_ret (Ok ()).

(** ** Scans *)
Definition sled_range (now : Z) (lo hi : bytes) (d : TreeDb) : store_result (list RangeItem) :=
  scan_loop (sled_is_ttl_expired now d) (td_range DEFAULT_TREE lo hi d).

Definition sled_prefix_scan (now : Z) (prefix : bytes) (d : TreeDb) : store_result (list RangeItem) :=
  scan_loop (sled_is_ttl_expired now d) (td_prefix DEFAULT_TREE prefix d).

Definition sled_count (now : Z) (d : TreeDb) : store_result nat :=
  count_loop (sled_is_ttl_expired now d) 0 (td_iter DEFAULT_TREE d).

Definition sled_iter (now : Z) (d : TreeDb) : store_result (list RangeItem) :=
  scan_loop (sled_is_ttl_expired now d) (td_iter DEFAULT_TREE d).

Definition sled_keys (now : Z) (d : TreeDb) : store_result (list (store_result bytes)) :=
  Ok (keys_loop (sled_is_ttl_expired now d) (td_iter DEFAULT_TREE d)).

(** ** Batches: one per tree, one after the other *)
Definition sled_batch_write (pairs : list (bytes * bytes)) : D unit :=
  let* _ := d_batch (map (λ kv, BInsert DEFAULT_TREE kv.1 kv.2) pairs) in
  let* _ := d_batch (map (λ kv, BRemove TTL_TREE kv.1) pairs) in
  d_ret (Ok ()).

Definition sled_batch_delete (keys : list bytes) : D unit :=
  let* _ := d_batch (map (BRemove DEFAULT_TREE) keys) in
  let* _ := d_batch (map (BRemove TTL_TREE) keys) in
  d_ret (Ok ()).

(** ** [compare_and_swap], on the data tree alone *)
Definition sled_compare_and_swap (key : bytes) (expected : option bytes) (new_value : bytes) : D bool :=
  let* r := d_lift (td_cas DEFAULT_TREE key expected new_value) in
  match (r : result unit (option bytes)) with
  | Ok _ => let* _ := d_remove TTL_TREE key in d_ret (Ok true)
  | Err _ => d_ret (Ok false)
  end.

(** ** Time to live *)
Definition sled_put_with_ttl (now : Z) (key value : bytes) (ttl : Z) : D unit :=
  let* expiry := d_ret (expiry_epoch_millis now ttl) in
  let* _ := d_insert DEFAULT_TREE key value in
  let* _ := d_insert TTL_TREE key (encode_expiry expiry) in
  d_ret (Ok ()).

(** [contains_key] *)
Definition d_contains_key (n : string) (key : bytes) : D bool :=
  let* o := d_get n key in d_ret (Ok (bool_decide (is_Some o))).

Definition sled_expire (now : Z) (key : bytes) (ttl : Z) : D unit :=
  let* exists_ := d_contains_key DEFAULT_TREE key in
  if negb exists_ then d_ret (Err KeyNotFound)
  else
    let* expiry := d_ret (expiry_epoch_millis now ttl) in
    let* _ := d_insert TTL_TREE key (encode_expiry expiry) in
    d_ret (Ok ()).

(** The remaining time in milliseconds; the clock is read again, as zero before
    the epoch. *)
Definition sled_ttl (now : Z) (key : bytes) : D (option Z) :=
  let* data_exists := d_contains_key DEFAULT_TREE key in
  if negb data_exists then d_ret (Err KeyNotFound)
  else
    let* o := d_get TTL_TREE key in
    match o with
    | None => d_ret (Ok None)
    | Some expiry_bytes =>
        match decode_expiry expiry_bytes with
        | None => d_ret (Err (Other "invalid TTL encoding"%string))
        | Some expiry_millis =>
            if is_expired now expiry_millis then
              let* _ := sled_evict key in d_ret (Err KeyNotFound)
            else d_ret (Ok (Some (Z.max 0 (expiry_millis - epoch_millis now))))
        end
    end.

Definition sled_persist (key : bytes) : D bool :=
  let* data_exists := d_contains_key DEFAULT_TREE key in
  if negb data_exists then d_ret (Err KeyNotFound)
  else
    let* had_ttl := d_remove TTL_TREE key in
    d_ret (Ok (bool_decide (is_Some had_ttl))).

(** The loop of [purge_expired]; the iterator is ordered and the loop removes the
    entry it stands on, which leaves the entries after it. *)
Fixpoint sled_purge_loop (now : Z) (count : nat) (items : engine_items) : D nat :=
  match items with
  | [] => d_ret (Ok count)
  | item :: items =>
      let* (key, expiry_bytes) := d_ret (other item) in
      match decode_expiry expiry_bytes with
      | Some expiry_millis =>
          if is_expired now expiry_millis then
            let* _ := sled_evict key in sled_purge_loop now (count + 1) items
          else sled_purge_loop now count items
      | None => sled_purge_loop now count items
      end
  end.

Definition sled_purge_expired (now : Z) : D nat :=
  λ d, sled_purge_loop now 0 (td_iter TTL_TREE d) d.

(** ** [SledTxn] *)
Inductive SledOp := SPut (k v : bytes) | SDelete (k : bytes).

Record SledTxn := {
  st_ops : list SledOp;
  st_overlay : gmap bytes TxnOp;
  rolled_back : bool;
}.

Definition sled_transaction : SledTxn :=
  {| st_ops := []; st_overlay := ∅; rolled_back := false |}.

Definition sled_committed_key_expired (now : Z) (d : TreeDb) (key : bytes) : store_result bool :=
  let? o := other (td_get TTL_TREE key d) in
  match o with
  | Some b => Ok (default false (is_expired now <$> decode_expiry b))
  | None => Ok false
  end.

(** The overlay first, then the live trees. *)
Definition sled_txn_get (now : Z) (key : bytes) (d : TreeDb) (t : SledTxn) : store_result (option bytes) :=
  match st_overlay t !! key with
  | Some (Put v) => Ok (Some v)
  | Some Delete => Ok None
  | None =>
      let? ex := sled_committed_key_expired now d key in
      if ex : bool then Ok None else other (td_get DEFAULT_TREE key d)
  end.

Definition sled_txn_put (key value : bytes) (t : SledTxn) : SledTxn * store_result unit :=
  ({| st_ops := st_ops t ++ [SPut key value]; st_overlay := <[key:=Put value]> (st_overlay t);
      rolled_back := rolled_back t |}, Ok ()).

Definition sled_txn_delete (key : bytes) (t : SledTxn) : SledTxn * store_result unit :=
  ({| st_ops := st_ops t ++ [SDelete key]; st_overlay := <[key:=Delete]> (st_overlay t);
      rolled_back := rolled_back t |}, Ok ()).

Definition sled_txn_contains (now : Z) (key : bytes) (d : TreeDb) (t : SledTxn) : store_result bool :=
  let? o := sled_txn_get now key d t in Ok (bool_decide (is_Some o)).

(** [None] is the panic of [BTreeMap::range] on an inverted interval. *)
Definition sled_txn_range (now : Z) (lo hi : bytes) (d : TreeDb) (t : SledTxn)
    : option (store_result (list RangeItem)) :=
  match merge_loop (sled_committed_key_expired now d) (td_range DEFAULT_TREE lo hi d) ∅ with
  | Err e => Some (Err e)
  | Ok merged =>
      match btree_range lo hi (st_overlay t) with
      | None => None
      | Some ops => Some (Ok (map Ok (btree_iter (apply_overlay ops merged))))
      end
  end.

Definition sled_bop (op : SledOp) : BatchOp :=
  match op with SPut k v => BInsert DEFAULT_TREE k v | SDelete k => BRemove DEFAULT_TREE k end.

Definition sled_op_key (op : SledOp) : bytes := match op with SPut k _ | SDelete k => k end.

(** The removal of the expiries, key by key, after the data is committed. *)
Fixpoint sled_clear_ttl (keys : list bytes) : D unit :=
  match keys with
  | [] => d_ret (Ok ())
  | k :: keys => let* _ := d_remove TTL_TREE k in sled_clear_ttl keys
  end.

(** The closure given to [Tree::transaction] replays the operations and never
    aborts, so the transaction is their atomic application. *)
Definition sled_txn_commit (t : SledTxn) : D unit :=
  if rolled_back t then d_ret (Ok ())
  else
    let* _ := d_batch (map sled_bop (st_ops t)) in
    sled_clear_ttl (map sled_op_key (st_ops t)).

Definition sled_txn_rollback (t : SledTxn) : SledTxn * store_result unit :=
  ({| st_ops := st_ops t; st_overlay := st_overlay t; rolled_back := true |}, Ok ()).

(** ** [SledSnapshot] *)
Fixpoint snap_expired_loop (now : Z) (items : engine_items) (expired : gset bytes)
    : store_result (gset bytes) :=
  match items with
  | [] => Ok expired
  | item :: items =>
      let? (key, expiry_bytes) := other item in
      match decode_expiry expiry_bytes with
      | Some expiry_millis =>
          if is_expired now expiry_millis then snap_expired_loop now items ({[key]} ∪ expired)
          else snap_expired_loop now items expired
      | None => snap_expired_loop now items expired
      end
  end.

Definition SledSnapshot : Type := gmap bytes bytes.

Definition sled_snapshot (now : Z) (d : TreeDb) : store_result SledSnapshot :=
  let? expired := snap_expired_loop now (td_iter TTL_TREE d) ∅ in
  merge_loop (λ key, Ok (bool_decide (key ∈ expired))) (td_iter DEFAULT_TREE d) ∅.

Definition sled_snap_get (key : bytes) (p : SledSnapshot) : store_result (option bytes) := Ok (p !! key).

(** [None] is the panic of [BTreeMap::range] on an inverted interval. *)
Definition sled_snap_range (lo hi : bytes) (p : SledSnapshot) : option (store_result (list RangeItem)) :=
  match btree_range lo hi p with
  | None => None
  | Some l => Some (Ok (map Ok l))
  end.

(** ** The [KvStore] instance

    A transaction of the instance is used while nobody else writes: it carries the
    database its reads look at. *)
#[global] Instance sled_kv : KvStore SledStore := {|
  kv_get now k := on_db (sled_get now k);
  kv_put k v := on_db (sled_put k v);
  kv_delete k := on_db (sled_delete k);
  kv_contains := contains_default (λ now k, on_db (sled_get now k));
  kv_range now lo hi s := sled_range now lo hi (sl_db s);
  kv_iter now s := sled_iter now (sl_db s);
  kv_Txn := SledTxn * TreeDb;
  kv_transaction s := Ok (sled_transaction, sl_db s);
  txn_get now k t := (t, sled_txn_get now k t.2 t.1);
  txn_put k v t := let '(t', r) := sled_txn_put k v t.1 in ((t', t.2), r);
  txn_delete k t := let '(t', r) := sled_txn_delete k t.1 in ((t', t.2), r);
  txn_commit t := on_db (sled_txn_commit t.1);
  txn_rollback t s := (s, (sled_txn_rollback t.1).2);
|}.

(** ** One call of the trait *)
Definition sled_step (now : Z) (op : StoreOp) : D StoreOut :=
  let ret {A} (f : A → StoreOut) (m : D A) : D StoreOut := λ d, let '(d', r) := m d in (d', result_map f r) in
  match op with
  | OpGet k => ret OutValue (sled_get now k)
  | OpPut k v => ret (λ _, OutUnit) (sled_put k v)
  | OpDelete k => ret (λ _, OutUnit) (sled_delete k)
  | OpRange lo hi => λ d, (d, result_map OutItems (sled_range now lo hi d))
  | OpPrefixScan p => λ d, (d, result_map OutItems (sled_prefix_scan now p d))
  | OpIter => λ d, (d, result_map OutItems (sled_iter now d))
  | OpKeys => λ d, (d, result_map OutKeys (sled_keys now d))
  | OpCount => λ d, (d, result_map OutCount (sled_count now d))
  | OpBatchWrite pairs => ret (λ _, OutUnit) (sled_batch_write pairs)
  | OpBatchDelete keys => ret (λ _, OutUnit) (sled_batch_delete keys)
  | OpPutWithTtl k v ttl => ret (λ _, OutUnit) (sled_put_with_ttl now k v ttl)
  | OpExpire k ttl => ret (λ _, OutUnit) (sled_expire now k ttl)
  | OpTtl k => ret OutTtl (sled_ttl now k)
  | OpPersist k => ret OutBool (sled_persist k)
  | OpPurgeExpired => ret OutCount (sled_purge_expired now)
  end.
End SledModel.
