(* ===== verification/SledSpec.v ===== *)
(** * The [sled] backend against its specification

    On an engine that reports no error every operation of [Sled.v] is the
    corresponding step of [abs_step], and the store discharges the contract of
    [Core.v] with its transactions.  The operations are sequences of independent
    calls, so the error-free case is the one in which the contract holds. *)

From S2P Require Import Prelude Bytes Core StoreSpec TreeDb TreeSpec Sled.

Section SledTheory.
Context {TE : TreeEngine} {TV : TreeView} {TL : TreeLaws} {TR : TreeReliable}.

Abbreviation D A := (TreeDb → TreeDb * store_result A).
Context {w : Prop}.
Abbreviation ref := (refines w DEFAULT_TREE).
Abbreviation sled_abs := (tree_abs DEFAULT_TREE).

Lemma default_not_ttl : DEFAULT_TREE ≠ TTL_TREE.
Proof. done. Qed.

Lemma sled_is_ttl_expired_eq now d k : sled_is_ttl_expired now d k = tree_expired now d k.
Proof.
  unfold sled_is_ttl_expired, tree_expired. destruct (td_get TTL_TREE k d) as [[b|]|]; simpl; [|done|done].
  by destruct (decode_expiry b).
Qed.

Lemma sled_committed_key_expired_eq now d k : sled_committed_key_expired now d k = tree_expired now d k.
Proof.
  unfold sled_committed_key_expired, tree_expired.
  destruct (td_get TTL_TREE k d) as [[b|]|]; simpl; [|done|done]. by destruct (decode_expiry b).
Qed.

(** ** The writes *)
Lemma ref_get_data k : ref (d_get DEFAULT_TREE k) (λ a, (a, Ok (a_data a !! k))).
Proof. apply atomic_refines, atomic_get. Qed.

Lemma ref_clear {A} k (m : D A) f :
  ref m f → ref (let* _ := d_remove TTL_TREE k in m) (λ a, f (abs_del_ttl k a)).
Proof. intros Hm. apply (refines_bind_remove_ttl _ _ _ (λ _, f)); [done|]. auto. Qed.

Lemma ref_write_ttl k e :
  u64_ok e → ref (d_insert TTL_TREE k (encode_expiry e)) (λ a, (abs_set_ttl k e a, Ok ())).
Proof. intros. by apply atomic_refines, atomic_insert_ttl. Qed.

Ltac ref_steps :=
  repeat first
    [ apply refines_ret
    | apply ref_get_data
    | refine (ref_clear _ _ _ _)
    | apply (refines_insert DEFAULT_TREE); [done]
    | apply (refines_remove DEFAULT_TREE); [done]
    | eapply refines_bind; [|intros ?] ].

Lemma sled_evict_ref k : ref (sled_evict k) (λ a, (abs_delete k a, Ok ())).
Proof. eapply refines_ext; [unfold sled_evict; ref_steps|done]. Qed.

Lemma sled_put_ref k v : ref (sled_put k v) (λ a, (abs_put k v a, Ok ())).
Proof. eapply refines_ext; [unfold sled_put; ref_steps|done]. Qed.

Lemma sled_delete_ref k : ref (sled_delete k) (λ a, (abs_delete k a, Ok ())).
Proof. apply sled_evict_ref. Qed.

Lemma sled_get_ref now k :
  ref (sled_get now k) (λ a, if expired_key now (a_ttl a) k then (abs_delete k a, Ok None)
                              else (a, Ok (a_data a !! k))).
Proof.
  unfold sled_get.
  eapply refines_ext; [apply (refines_bind_ttl _ _ _ (λ o a,
    if (if o is Some e then is_expired now e else false) then (abs_delete k a, Ok None)
    else (a, Ok (a_data a !! k))))|].
  - intros o _. destruct (o ≫= decode_expiry) as [e|]; [|apply ref_get_data].
    destruct (is_expired now e); [|apply ref_get_data].
    eapply refines_ext; [eapply refines_bind; [apply sled_evict_ref|intros ?; apply refines_ret]|done].
  - intros a. unfold expired_key. by destruct (a_ttl a !! k).
Qed.

(** A batch on the data tree and one on the sidecar tree. *)
Lemma batch_view_data_puts pairs m :
  batch_view DEFAULT_TREE (map (λ kv, BInsert DEFAULT_TREE kv.1 kv.2) pairs) m =
  foldl (λ m kv, <[kv.1:=kv.2]> m) m pairs.
Proof. revert m. induction pairs as [|[k v] pairs IH]; intros m; [done|apply IH]. Qed.

Lemma batch_view_removes n keys m : batch_view n (map (BRemove n) keys) m = foldl (flip delete) m keys.
Proof.
  unfold batch_view. revert m. induction keys as [|k keys IH]; intros m; simpl; [done|].
  rewrite decide_True by done. apply IH.
Qed.

Lemma batch_view_other n n' ops m :
  Forall (λ op, bop_tree op = n) ops → n' ≠ n → batch_view n' ops m = m.
Proof.
  intros Hops Hn. unfold batch_view. revert m. induction Hops as [|op ops Hop _ IH]; intros m; simpl; [done|].
  rewrite decide_False by congruence. apply IH.
Qed.

Lemma foldl_delete_wf (keys : list bytes) (m : gmap bytes bytes) Pr :
  map_Forall Pr m → map_Forall Pr (foldl (flip delete) m keys).
Proof.
  revert m. induction keys as [|k keys IH]; intros m Hm; simpl; [done|]. by apply IH, map_Forall_delete.
Qed.

Lemma omap_foldl_delete {A B} (f : A → option B) (keys : list bytes) (m : gmap bytes A) :
  omap f (foldl (flip delete) m keys) = foldl (flip delete) (omap f m) keys.
Proof.
  revert m. induction keys as [|k keys IH]; intros m; simpl; [done|]. by rewrite IH, omap_delete.
Qed.

(** Data operations as one batch. *)
Lemma ref_data_batch ops g :
  Forall (λ op, bop_tree op = DEFAULT_TREE) ops → (∀ m, batch_view DEFAULT_TREE ops m = g m) →
  ref (d_batch ops) (λ a, ({| a_data := g (a_data a); a_ttl := a_ttl a |}, Ok ())).
Proof.
  intros Hops Hg. apply atomic_refines, (atomic_batch _ _ (λ a, {| a_data := g (a_data a); a_ttl := a_ttl a |})).
  intros d. rewrite !(batch_view_other DEFAULT_TREE TTL_TREE), Hg by done. done.
Qed.

Lemma ref_ttl_batch keys :
  ref (d_batch (map (BRemove TTL_TREE) keys))
    (λ a, ({| a_data := a_data a; a_ttl := foldl (flip delete) (a_ttl a) keys |}, Ok ())).
Proof.
  apply atomic_refines, (atomic_batch _ _ (λ a, {| a_data := a_data a; a_ttl := foldl (flip delete) (a_ttl a) keys |})).
  intros d. rewrite !batch_view_removes. rewrite (batch_view_other TTL_TREE DEFAULT_TREE); [|by apply Forall_map, Forall_true|done].
  split; [intros; by apply foldl_delete_wf|]. by rewrite omap_foldl_delete.
Qed.

Lemma sled_batch_write_ref pairs : ref (sled_batch_write pairs) (λ a, (abs_puts pairs a, Ok ())).
Proof.
  unfold sled_batch_write.
  replace (map (λ kv : bytes * bytes, BRemove TTL_TREE kv.1) pairs) with (map (BRemove TTL_TREE) pairs.*1)
    by (rewrite <-list_fmap_compose; done).
  eapply refines_ext; [eapply refines_bind; [eapply ref_data_batch|intros ?; eapply refines_bind;
    [apply ref_ttl_batch|intros ?; apply refines_ret]]|].
  - by apply Forall_map, Forall_true.
  - apply batch_view_data_puts.
  - intros a. by rewrite abs_puts_foldl.
Qed.

Lemma sled_batch_delete_ref keys : ref (sled_batch_delete keys) (λ a, (abs_deletes keys a, Ok ())).
Proof.
  unfold sled_batch_delete.
  eapply refines_ext; [eapply refines_bind; [eapply ref_data_batch|intros ?; eapply refines_bind;
    [apply ref_ttl_batch|intros ?; apply refines_ret]]|].
  - by apply Forall_map, Forall_true.
  - apply batch_view_removes.
  - intros a. by rewrite abs_deletes_foldl.
Qed.

(** ** Time to live *)
Lemma sled_put_with_ttl_ref now k v ttl :
  ref (sled_put_with_ttl now k v ttl)
    (λ a, match expiry_epoch_millis now ttl with
          | Ok e => (abs_put_ttl k v e a, Ok ())
          | Err e => (a, Err e)
          end).
Proof.
  unfold sled_put_with_ttl. destruct (expiry_epoch_millis now ttl) as [e|err] eqn:E.
  - eapply (refines_ext _ (let* _ := d_insert DEFAULT_TREE k v in
      let* _ := d_insert TTL_TREE k (encode_expiry e) in d_ret (Ok ()))).
    + eapply refines_bind; [by apply refines_insert|intros ?].
      eapply refines_bind; [apply ref_write_ttl; by eapply expiry_epoch_millis_u64|intros ?; apply refines_ret].
    + done.
  - apply (refines_ret _ (Err err)).
Qed.

Lemma d_contains_key_ref k :
  ref (d_contains_key DEFAULT_TREE k) (λ a, (a, Ok (bool_decide (is_Some (a_data a !! k))))).
Proof. eapply refines_ext; [unfold d_contains_key; ref_steps|done]. Qed.

Lemma sled_expire_ref now k ttl :
  ref (sled_expire now k ttl)
    (λ a, match a_data a !! k, expiry_epoch_millis now ttl with
          | None, _ => (a, Err KeyNotFound)
          | Some _, Ok e => (abs_set_ttl k e a, Ok ())
          | Some _, Err e => (a, Err e)
          end).
Proof.
  unfold sled_expire. eapply refines_ext; [eapply (refines_bind _ _ _ _ (λ (b : bool) a,
    if b then match expiry_epoch_millis now ttl with
              | Ok e => (abs_set_ttl k e a, Ok ()) | Err e => (a, Err e) end
    else (a, Err KeyNotFound))); [apply d_contains_key_ref|intros []; simpl; [|apply refines_ret]]|].
  - destruct (expiry_epoch_millis now ttl) as [e|err] eqn:E; [|apply (refines_ret _ (Err err))].
    eapply (refines_ext _ (let* _ := d_insert TTL_TREE k (encode_expiry e) in d_ret (Ok ()))).
    + eapply refines_bind; [apply ref_write_ttl; by eapply expiry_epoch_millis_u64|intros ?; apply refines_ret].
    + done.
  - intros a. unfold st_bind. simpl. destruct (a_data a !! k); [rewrite bool_decide_true by eauto|]; done.
Qed.

Lemma sled_ttl_ref now k :
  w → (0 ≤ now)%Z →
  ref (sled_ttl now k)
    (λ a, match a_data a !! k, a_ttl a !! k with
          | None, _ => (a, Err KeyNotFound)
          | Some _, None => (a, Ok None)
          | Some _, Some e =>
              if is_expired now e then (abs_delete k a, Err KeyNotFound)
              else match duration_since_epoch now with
                   | Ok d => (a, Ok (Some (e - as_millis_u64 d)%Z))
                   | Err e => (a, Err (Other e))
                   end
          end).
Proof.
  intros Hwf Hnow. unfold sled_ttl. eapply refines_ext; [eapply (refines_bind _ _ _ _ (λ (b : bool) a,
    if b then match a_ttl a !! k with
              | None => (a, Ok None)
              | Some e => if is_expired now e then (abs_delete k a, Err KeyNotFound)
                          else (a, Ok (Some (Z.max 0 (e - epoch_millis now)%Z)))
              end
    else (a, Err KeyNotFound))); [apply d_contains_key_ref|intros []; simpl; [|apply refines_ret]]|].
  - apply (refines_bind_ttl _ k _ (λ o a, match o with
              | None => (a, Ok None)
              | Some e => if is_expired now e then (abs_delete k a, Err KeyNotFound)
                          else (a, Ok (Some (Z.max 0 (e - epoch_millis now)%Z))) end)).
    intros [b|] Hb; [|apply refines_ret]. destruct (Hb Hwf b eq_refl) as [e He]. simpl. rewrite He.
    destruct (is_expired now e); [|apply refines_ret].
    eapply refines_ext; [eapply refines_bind; [apply sled_evict_ref|intros ?; apply refines_ret]|done].
  - intros a. unfold st_bind. simpl. destruct (a_data a !! k); [rewrite bool_decide_true by eauto|done].
    destruct (a_ttl a !! k) as [e|]; [|done]. destruct (is_expired now e) eqn:Ex; [done|].
    apply unexpired_ahead in Ex. unfold epoch_millis, duration_since_epoch in *.
    destruct (Z.ltb_spec now 0); [lia|]. by rewrite Z.max_r by lia.
Qed.

Lemma sled_persist_ref k :
  w → ref (sled_persist k)
    (λ a, match a_data a !! k, a_ttl a !! k with
          | None, _ => (a, Err KeyNotFound)
          | Some _, None => (a, Ok false)
          | Some _, Some _ => (abs_del_ttl k a, Ok true)
          end).
Proof.
  intros Hwf. unfold sled_persist. eapply refines_ext; [eapply (refines_bind _ _ _ _ (λ (b : bool) a,
    if b then (abs_del_ttl k a, Ok (bool_decide (is_Some (a_ttl a !! k)))) else (a, Err KeyNotFound)));
    [apply d_contains_key_ref|intros []; simpl; [|apply refines_ret]]|].
  - apply (refines_bind_remove_ttl _ k _ (λ o a, (a, Ok (@bool_decide _ (is_Some_dec o))))); [done|].
    intros [b|] Hb; [|apply refines_ret]. destruct (Hb Hwf b eq_refl) as [e He]. simpl. rewrite He.
    rewrite !bool_decide_true by eauto. apply refines_ret.
  - intros a. unfold st_bind. simpl. destruct (a_data a !! k); [rewrite bool_decide_true by eauto|done].
    destruct (a_ttl a !! k) eqn:E; [done|]. simpl. unfold abs_del_ttl. rewrite delete_id by done. by destruct a.
Qed.

Lemma sled_purge_loop_ref now count items l :
  collect items = Ok l →
  ref (sled_purge_loop now count items)
    (λ a, (abs_deletes (expired_entries now l) a, Ok (count + length (expired_entries now l)))).
Proof.
  revert count l. induction items as [|[[k b]|e] items IH]; intros count l; simpl; [| |done].
  { intros [= <-]. simpl. rewrite Nat.add_0_r. apply refines_ret. }
  destruct (collect items) as [l'|] eqn:Ec; [|done]. intros [= <-].
  unfold expired_entries. rewrite d_bind_ret. cbn [List.filter snd]. destruct (decode_expiry b) as [e|]; [|by apply IH].
  destruct (is_expired now e); [|by apply IH]. csimpl.
  eapply refines_ext; [apply (refines_bind _ (sled_evict k)
    (λ _, sled_purge_loop now (count + 1) items)); [apply sled_evict_ref|intros ?; by apply IH]|].
  intros a. unfold st_bind. rewrite <-Nat.add_assoc. done.
Qed.

Lemma sled_purge_expired_ref now :
  ref (sled_purge_expired now)
    (λ a, (abs_deletes (abs_expired now a) a, Ok (length (abs_expired now a)))).
Proof.
  intros d d' r E Hw. unfold sled_purge_expired in E. destruct (td_iter_ok TTL_TREE d) as [l Hl].
  destruct (sled_purge_loop_ref now 0 _ _ Hl _ _ _ E Hw) as [? H]. split; [done|].
  rewrite (td_iter_law _ _ _ Hl), (expired_entries_spec DEFAULT_TREE) in H. done.
Qed.

(** ** Every call of the trait *)
Lemma refines_map {A B} (f : A → B) (m : D A) g :
  ref m g → ref (λ d, let '(d', r) := m d in (d', result_map f r))
                (λ a, let '(a', r) := g a in (a', result_map f r)).
Proof.
  intros Hm d d' r. destruct (m d) as [d1 r1] eqn:E. intros [= <- <-] Hw.
  destruct (Hm _ _ _ E Hw) as [? ->]. done.
Qed.

Lemma ref_read {A} (f : A → StoreOut) (g : TreeDb → store_result A) (v : AbsStore → A) :
  (∀ d, reads (g d) (v (sled_abs d))) → ref (λ d, (d, result_map f (g d))) (λ a, (a, Ok (f (v a)))).
Proof.
  intros Hg d d' r [= <- <-] Hw. split; [done|]. destruct (Hg d) as [->|[? _]]; [done|contradiction].
Qed.

Lemma sled_step_ref now op : w → (0 ≤ now)%Z → ref (sled_step now op) (abs_step now op).
Proof.
  intros Hwf Hnow. destruct op; cbn [sled_step abs_step].
  - eapply refines_ext; [apply refines_map, sled_get_ref|]. intros a. cbn [abs_step]. by destruct (expired_key now (a_ttl a) k).
  - eapply refines_ext; [apply refines_map, sled_put_ref|done].
  - eapply refines_ext; [apply refines_map, sled_delete_ref|done].
  - apply (ref_read _ _ (λ a, map Ok (btree_between lo hi (visible now a)))). intros d. unfold sled_range.
    rewrite (scan_loop_ext _ _ _ (sled_is_ttl_expired_eq now d)). apply reads_range.
  - apply (ref_read _ _ (λ a, map Ok (with_prefix p (visible now a)))). intros d. unfold sled_prefix_scan.
    rewrite (scan_loop_ext _ _ _ (sled_is_ttl_expired_eq now d)). apply reads_prefix.
  - apply (ref_read _ _ (λ a, map Ok (btree_iter (visible now a)))). intros d. unfold sled_iter.
    rewrite (scan_loop_ext _ _ _ (sled_is_ttl_expired_eq now d)). apply reads_iter.
  - intros d d' r [= <- <-] Hw. split; [done|].
    rewrite (keys_loop_ext _ _ _ (sled_is_ttl_expired_eq now d)).
    destruct (reads_keys DEFAULT_TREE now d) as [->|[? _]]; [done|contradiction].
  - apply (ref_read _ _ (λ a, size (visible now a))). intros d. unfold sled_count.
    rewrite (count_loop_ext _ _ _ _ (sled_is_ttl_expired_eq now d)). apply reads_count.
  - eapply refines_ext; [apply refines_map, sled_batch_write_ref|done].
  - eapply refines_ext; [apply refines_map, sled_batch_delete_ref|done].
  - eapply refines_ext; [apply refines_map, sled_put_with_ttl_ref|]. intros a. cbn [abs_step]. by destruct (expiry_epoch_millis now ttl).
  - eapply refines_ext; [apply refines_map, sled_expire_ref|]. intros a. cbn [abs_step].
    by destruct (a_data a !! k), (expiry_epoch_millis now ttl).
  - eapply refines_ext; [apply refines_map, sled_ttl_ref; done|]. intros a. cbn [abs_step].
    destruct (a_data a !! k), (a_ttl a !! k) as [e|]; try done.
    destruct (is_expired now e); [done|]. by destruct (duration_since_epoch now).
  - eapply refines_ext; [apply refines_map, sled_persist_ref, Hwf|]. intros a. cbn [abs_step].
    by destruct (a_data a !! k), (a_ttl a !! k).
  - eapply refines_ext; [apply refines_map, sled_purge_expired_ref|done].
Qed.

Fixpoint sled_run (ops : list (Z * StoreOp)) (d : TreeDb) : TreeDb * list (store_result StoreOut) :=
  match ops with
  | [] => (d, [])
  | (now, op) :: ops =>
      let '(d1, r) := sled_step now op d in
      let '(d2, rs) := sled_run ops d1 in (d2, r :: rs)
  end.

Lemma sled_run_ref ops d d' rs :
  w → Forall (λ x, 0 ≤ x.1)%Z ops → sled_run ops d = (d', rs) → ttl_wf d →
  ttl_wf d' ∧ abs_run ops (sled_abs d) = (sled_abs d', rs).
Proof.
  intros Hwf Hops. revert d rs. induction Hops as [|[now op] ops Hnow _ IH]; intros d rs; simpl.
  { by intros [= <- <-]. }
  destruct (sled_step now op d) as [d1 r] eqn:E1. destruct (sled_run ops d1) as [d2 rs'] eqn:E2.
  intros [= <- <-] Hw. destruct (sled_step_ref now op Hwf Hnow _ _ _ E1 (λ _, Hw)) as [Hw1 ->].
  destruct (IH _ _ E2 (Hw1 Hw)) as [? ->]. done.
Qed.

(** ** Transactions *)
Definition sled_log (op : SledOp) : bytes * TxnOp :=
  match op with SPut k v => (k, Put v) | SDelete k => (k, Delete) end.

Definition sled_txn_ok (t : SledTxn) : Prop :=
  rolled_back t = false ∧ st_overlay t = overlay_of (map sled_log (st_ops t)).

(** What a transaction over a database sees. *)
Definition sled_txn_view (now : Z) (d : TreeDb) (t : SledTxn) : gmap bytes bytes :=
  overlay_view (st_overlay t) (visible now (sled_abs d)).

Lemma sled_txn_get_spec now k d t : sled_txn_get now k d t = Ok (sled_txn_view now d t !! k).
Proof.
  unfold sled_txn_get, sled_txn_view. rewrite overlay_view_lookup.
  destruct (st_overlay t !! k) as [[v|]|]; [done|done|]. rewrite visible_lookup, sled_committed_key_expired_eq.
  destruct (tree_expired_total now d k) as [b Hb]. rewrite Hb. apply tree_expired_spec in Hb. simpl.
  rewrite <-Hb. destruct b; [done|]. destruct (td_get_ok DEFAULT_TREE k d) as [o Ho]. rewrite Ho.
  by apply td_get_law in Ho as ->.
Qed.

Lemma sled_txn_put_spec k v t t' r :
  sled_txn_put k v t = (t', r) → sled_txn_ok t → sled_txn_ok t' ∧ st_overlay t' = <[k:=Put v]> (st_overlay t).
Proof.
  intros [= <- <-] [Hr Ho]. split; [|done]. split; [done|]. simpl. rewrite Ho, map_app. unfold overlay_of.
  by rewrite foldl_app.
Qed.

Lemma sled_txn_delete_spec k t t' r :
  sled_txn_delete k t = (t', r) → sled_txn_ok t → sled_txn_ok t' ∧ st_overlay t' = <[k:=Delete]> (st_overlay t).
Proof.
  intros [= <- <-] [Hr Ho]. split; [|done]. split; [done|]. simpl. rewrite Ho, map_app. unfold overlay_of.
  by rewrite foldl_app.
Qed.

Lemma sled_clear_ttl_ref keys :
  ref (sled_clear_ttl keys)
    (λ a, ({| a_data := a_data a; a_ttl := foldl (flip delete) (a_ttl a) keys |}, Ok ())).
Proof.
  induction keys as [|k keys IH]; simpl.
  - eapply refines_ext; [apply refines_ret|by intros []].
  - eapply refines_ext; [refine (ref_clear _ _ _ IH)|done].
Qed.

Lemma abs_writes_foldl ops a :
  abs_writes (map sled_log ops) a =
  {| a_data := batch_view DEFAULT_TREE (map sled_bop ops) (a_data a);
     a_ttl := foldl (flip delete) (a_ttl a) (map sled_op_key ops) |}.
Proof. revert a. induction ops as [|[k v|k] ops IH]; intros a; [by destruct a|apply IH|apply IH]. Qed.

Lemma sled_txn_commit_ref t :
  rolled_back t = false → ref (sled_txn_commit t) (λ a, (abs_writes (map sled_log (st_ops t)) a, Ok ())).
Proof.
  intros Hr. unfold sled_txn_commit. rewrite Hr.
  eapply refines_ext; [eapply refines_bind; [eapply ref_data_batch|intros ?; apply sled_clear_ttl_ref]|].
  - apply Forall_map, Forall_forall. by intros [] _.
  - done.
  - intros a. by rewrite abs_writes_foldl.
Qed.

Lemma sled_txn_range_spec now lo hi d t :
  sled_txn_range now lo hi d t =
  if bytes_ltb hi lo then None else Some (Ok (map Ok (btree_between lo hi (sled_txn_view now d t)))).
Proof.
  unfold sled_txn_range. destruct (td_range_ok DEFAULT_TREE lo hi d) as [l Hl].
  destruct (merge_loop_total (sled_committed_key_expired now d) _ _ ∅
    (λ k, ltac:(rewrite sled_committed_key_expired_eq; apply tree_expired_total)) Hl) as [m Hm].
  rewrite Hm. apply (merge_loop_spec _ (expired_key now (tree_ttl d))) in Hm as (l' & Hc & ->).
  2: { intros k b. rewrite sled_committed_key_expired_eq. apply tree_expired_spec. }
  unfold btree_range. destruct (bytes_ltb hi lo); [done|]. do 3 f_equal.
  rewrite (td_range_law _ _ _ _ _ Hc).
  change (tree_ttl d) with (a_ttl (sled_abs d)). change (td_view DEFAULT_TREE d) with (a_data (sled_abs d)).
  rewrite btree_between_visible. apply overlay_range.
Qed.

(** ** Snapshots *)
Lemma snap_expired_loop_spec now items l s :
  collect items = Ok l →
  ∃ s', snap_expired_loop now items s = Ok s' ∧ ∀ k, k ∈ s' ↔ k ∈ s ∨ k ∈ expired_entries now l.
Proof.
  revert l s. induction items as [|[[k b]|e] items IH]; intros l s; simpl; [| |done].
  { intros [= <-]. exists s. split; [done|]. set_solver. }
  destruct (collect items) as [l'|] eqn:Ec; [|done]. intros [= <-]. unfold expired_entries. cbn [List.filter snd].
  destruct (decode_expiry b) as [e|]; [|by apply IH]. destruct (is_expired now e); [|by apply IH].
  destruct (IH _ ({[k]} ∪ s) eq_refl) as (s' & -> & Hs'). exists s'. split; [done|].
  intros k'. rewrite Hs'. csimpl. unfold expired_entries. set_solver.
Qed.

Lemma sled_snapshot_spec now d : sled_snapshot now d = Ok (visible now (sled_abs d)).
Proof.
  unfold sled_snapshot. destruct (td_iter_ok TTL_TREE d) as [lt Hlt].
  destruct (snap_expired_loop_spec now _ _ ∅ Hlt) as (ex & -> & Hex).
  rewrite (td_iter_law _ _ _ Hlt), (expired_entries_spec DEFAULT_TREE) in Hex.
  destruct (td_iter_ok DEFAULT_TREE d) as [l Hl].
  destruct (merge_loop_total (λ key, Ok (bool_decide (key ∈ ex))) _ _ ∅ ltac:(eauto) Hl) as [m Hm].
  rewrite Hm. f_equal.
  apply (merge_loop_spec _ (expired_key now (a_ttl (sled_abs d)))) in Hm as (l' & Hc & ->).
  - rewrite (td_iter_law _ _ _ Hc). change (td_view DEFAULT_TREE d) with (a_data (sled_abs d)).
    rewrite btree_iter_visible. apply foldl_btree_iter.
  - intros k b [= <-]. specialize (Hex k). rewrite elem_of_abs_expired in Hex.
    destruct (expired_key now (a_ttl (sled_abs d)) k); [rewrite bool_decide_true|rewrite bool_decide_false]; set_solver.
Qed.
End SledTheory.
