(* ===== verification/SledProps.v ===== *)
(** * Properties of the [sled] backend

    Refinement over whole histories, transactions, snapshots, and the two places
    where the code departs from its documentation: a failure between the two trees
    leaves a write behind that keeps the old expiry, and [compare_and_swap] looks
    at entries that have expired.  The witnesses run on the in-memory engine and
    on one whose writes fail after a while. *)

From S2P Require Import Prelude Bytes Core StoreSpec TreeDb TreeSpec Sled SledSpec.

Section SledProps.
Context {TE : TreeEngine} {TV : TreeView} {TL : TreeLaws}.

Abbreviation sled_abs := (tree_abs DEFAULT_TREE).

(** ** The contract of [Core.v] *)
#[global] Instance sled_view : KvView SledStore := {|
  kv_view now s := visible now (sled_abs (sl_db s));
  txn_view now t := sled_txn_view now (t : SledTxn * TreeDb).2 t.1;
  txn_base t s := sled_txn_ok (t : SledTxn * TreeDb).1 ∧ t.2 = sl_db s;
|}.

Lemma on_db_ref {A} (m : TreeDb → TreeDb * store_result A) f s s' r :
  refines False DEFAULT_TREE m f → on_db m s = (s', r) → f (sled_abs (sl_db s)) = (sled_abs (sl_db s'), r).
Proof.
  intros Hm. unfold on_db. destruct (m (sl_db s)) as [d r1] eqn:E. intros [= <- <-].
  by destruct (Hm _ _ _ E) as [_ ->].
Qed.

#[global] Instance sled_kv_laws {TR : TreeReliable} : KvLaws SledStore.
Proof.
  split; simpl.
  - intros now k s s' r E. apply (on_db_ref _ _ _ _ _ (sled_get_ref now k)) in E. rewrite visible_lookup.
    destruct (expired_key _ _ k); by simplify_eq.
  - intros now k s s' r t E Ht. apply (on_db_ref _ _ _ _ _ (sled_get_ref now k)) in E. cbv beta in E.
    destruct (expired_key now (a_ttl (sled_abs (sl_db s))) k) eqn:Ex; apply (f_equal fst) in E; cbn [fst] in E;
      rewrite <-E; [by apply (visible_evict now)|done].
  - intros k v s s' t E. apply (on_db_ref _ _ _ _ _ (sled_put_ref k v)), (f_equal fst) in E. cbn [fst] in E.
    rewrite <-E. apply visible_put.
  - intros k v s s' e t E. by apply (on_db_ref _ _ _ _ _ (sled_put_ref k v)) in E.
  - intros k s s' t E. apply (on_db_ref _ _ _ _ _ (sled_delete_ref k)), (f_equal fst) in E. cbn [fst] in E.
    rewrite <-E. apply visible_delete.
  - intros k s s' e t E. by apply (on_db_ref _ _ _ _ _ (sled_delete_ref k)) in E.
  - intros now lo hi s l E. unfold sled_range in E.
    rewrite (scan_loop_ext _ _ _ (sled_is_ttl_expired_eq now _)) in E.
    destruct (reads_range DEFAULT_TREE now lo hi (sl_db s)) as [Hr|[? _]]; [congruence|contradiction].
  - intros now s l E. unfold sled_iter in E.
    rewrite (scan_loop_ext _ _ _ (sled_is_ttl_expired_eq now _)) in E.
    destruct (reads_iter DEFAULT_TREE now (sl_db s)) as [Hr|[? _]]; [congruence|contradiction].
  - intros s t [= <-]. split; [done|]. intros now. apply overlay_view_empty.
  - intros now k t t' r s [= <- <-] Hb. split; [done|]. split; [done|]. intros o Ho.
    rewrite sled_txn_get_spec in Ho. congruence.
  - intros k v [t d] t' s [= <-] [Hok Hd]. destruct (sled_txn_put_spec k v t _ _ eq_refl Hok) as [H1 H2].
    split; [done|]. intros now. unfold sled_txn_view. simpl. apply overlay_view_record.
  - intros k [t d] t' s [= <-] [Hok Hd]. destruct (sled_txn_delete_spec k t _ _ eq_refl Hok) as [H1 H2].
    split; [done|]. intros now. unfold sled_txn_view. simpl. apply overlay_view_record.
  - intros [t d] s s' now E [[Hr Ho] Hd]. simpl in *. subst d.
    apply (on_db_ref _ _ _ _ _ (sled_txn_commit_ref t Hr)), (f_equal fst) in E. cbn [fst] in E.
    rewrite <-E. unfold sled_txn_view. by rewrite visible_writes, Ho.
  - intros [t d] s s' e now E. simpl in E. destruct (rolled_back t) eqn:Hr.
    + unfold on_db, sled_txn_commit in E. rewrite Hr in E. simplify_eq.
    + by apply (on_db_ref _ _ _ _ _ (sled_txn_commit_ref t Hr)) in E.
  - by intros t s s' r now [= <- _].
Qed.

#[global] Instance sled_contains_law {TR : TreeReliable} : KvContainsLaw SledStore.
Proof. intros now k s s' r. exact (contains_default_law now k s s' r). Qed.

(** The writes of a transaction, as calls. *)
Definition sled_txn_run (ws : list (bytes * TxnOp)) : SledTxn :=
  foldl (λ t w, match w.2 with
                | Put v => (sled_txn_put w.1 v t).1
                | Delete => (sled_txn_delete w.1 t).1
                end) sled_transaction ws.

Lemma sled_txn_run_log ws :
  rolled_back (sled_txn_run ws) = false ∧ map sled_log (st_ops (sled_txn_run ws)) = ws ∧
  st_overlay (sled_txn_run ws) = overlay_of ws.
Proof.
  unfold sled_txn_run. induction ws as [|[k [v|]] ws (IH1 & IH2 & IH3)] using rev_ind; [done| |];
    unfold overlay_of in *; rewrite !foldl_snoc;
    match type of IH1 with rolled_back ?x = _ => generalize dependent x; intros t IH1 IH2 IH3 end;
    simpl; rewrite map_app, IH2, IH3; done.
Qed.

(** [compare_and_swap] compares the raw entry. *)
Lemma sled_cas_spec {TR : TreeReliable} k expected v d d' r :
  sled_compare_and_swap k expected v d = (d', r) →
  r = Ok (bool_decide (a_data (sled_abs d) !! k = expected)) ∧
  sled_abs d' = if decide (a_data (sled_abs d) !! k = expected) then abs_put k v (sled_abs d) else sled_abs d.
Proof.
  unfold sled_compare_and_swap, st_bind, d_lift.
  destruct (td_cas_ok DEFAULT_TREE k expected v d) as [o Ho].
  destruct (td_cas DEFAULT_TREE k expected v d) as [d1 r1] eqn:Ec. simpl in Ho. subst r1. simpl.
  apply td_cas_law in Ec as (Hv & Hok & Herr & Hne). destruct o as [[]|cur].
  - unfold d_remove, d_lift. destruct (td_remove_ok TTL_TREE k d1) as [o Ho].
    destruct (td_remove TTL_TREE k d1) as [d2 r2] eqn:Er. simpl in Ho. subst r2. simpl. intros [= <- <-].
    apply td_remove_law in Er as (Hv' & _ & Hne'). specialize (Hok eq_refl).
    change (a_data (sled_abs d)) with (td_view DEFAULT_TREE d).
    rewrite bool_decide_true, decide_True by done. split; [done|]. unfold sled_abs, tree_ttl, abs_put. simpl.
    rewrite Hne', Hv, Hv', (Hne TTL_TREE) by done. unfold tree_ttl. by rewrite omap_delete.
  - intros [= <- <-]. destruct (Herr _ eq_refl) as [-> Hne'].
    change (a_data (sled_abs d)) with (td_view DEFAULT_TREE d).
    rewrite bool_decide_false, decide_False by done. split; [done|]. unfold sled_abs, tree_ttl.
    by rewrite Hv, (Hne TTL_TREE) by done.
Qed.
End SledProps.

(** ** Theorems *)
Section SledTheorems.
Context {TE : TreeEngine} {TV : TreeView} {TL : TreeLaws}.

(** C3: Refinement over histories.  On an engine that reports no error and an empty
    database, every history of timed operations on the [sled] store returns the
    results of the specification on a pair of maps and ends in the corresponding
    state, although every write is two calls on two trees. *)
Theorem sled_history_refines {TR : TreeReliable} ops d :
  td_view DEFAULT_TREE d = ∅ → td_view TTL_TREE d = ∅ → Forall (λ x, 0 ≤ x.1)%Z ops →
  ∃ d' rs, sled_run ops d = (d', rs) ∧ abs_run ops abs_empty = (tree_abs DEFAULT_TREE d', rs).
Proof.
  intros Hd Ht Hops. destruct (sled_run ops d) as [d' rs] eqn:E. exists d', rs. split; [done|].
  assert (tree_abs DEFAULT_TREE d = abs_empty) as <-.
  { unfold tree_abs, tree_ttl, abs_empty. by rewrite Hd, Ht, omap_empty. }
  apply (sled_run_ref (w := True)); [done|done|done|]. unfold ttl_wf. rewrite Ht. apply map_Forall_empty.
Qed.

(** A transaction on the [sled] store.  Point reads and ranges inside it see the
    committed entries with the writes made so far applied in order, a range with
    inverted bounds panics, and [commit] leaves the store as if the writes had been
    made one after the other, clearing the expiry of every key it touched. *)
Theorem sled_txn_correct {TR : TreeReliable} now ws k lo hi d :
  let t := sled_txn_run ws in
  let seen := visible now (abs_writes ws (tree_abs DEFAULT_TREE d)) in
  sled_txn_get now k d t = Ok (seen !! k) ∧
  sled_txn_range now lo hi d t =
    (if bytes_ltb hi lo then None else Some (Ok (map Ok (btree_between lo hi seen)))) ∧
  ∃ d', sled_txn_commit t d = (d', Ok ()) ∧
    tree_abs DEFAULT_TREE d' = abs_writes ws (tree_abs DEFAULT_TREE d).
Proof.
  simpl. destruct (sled_txn_run_log ws) as (Hr & Hlog & Hov).
  rewrite visible_writes, sled_txn_get_spec, sled_txn_range_spec. unfold sled_txn_view. rewrite Hov.
  split_and!; [done|done|]. destruct (sled_txn_commit (sled_txn_run ws) d) as [d' r] eqn:E.
  destruct (sled_txn_commit_ref (w := False) _ Hr _ _ _ E) as [_ H]; [done|]. rewrite Hlog in H.
  exists d'. injection H as H1 <-. by rewrite H1.
Qed.

(** A failed [put] is not undone.  The two trees are written one after the
    other: when the removal of the expiry fails, [put] returns an error, the new
    value is already in the store, and it inherits the expiry of the value it
    replaced. *)
Theorem sled_put_not_atomic k v e msg d d1 d2 :
  td_insert DEFAULT_TREE k v d = (d1, Ok ()) → td_remove TTL_TREE k d1 = (d2, Err msg) →
  a_ttl (tree_abs DEFAULT_TREE d) !! k = Some e →
  sled_put k v d = (d2, Err (Other msg)) ∧
  ∀ t, visible t (tree_abs DEFAULT_TREE d2) !! k = if is_expired t e then None else Some v.
Proof.
  intros E1 E2 He. split.
  { unfold sled_put, st_bind, d_insert, d_remove, d_lift. by rewrite E1, E2. }
  apply td_insert_law in E1 as [Hv1 Hne1]. apply td_remove_law in E2 as (Hv2 & _ & Hne2).
  intros t. rewrite visible_lookup. unfold expired_key, tree_abs, a_ttl, a_data, tree_ttl in *.
  rewrite Hv2, (Hne1 TTL_TREE), He, (Hne2 DEFAULT_TREE), Hv1 by done. by rewrite lookup_insert_eq.
Qed.

(** [compare_and_swap] of the [sled] store is correct on keys that have not
    expired, and on expired ones it contradicts [get]: the key reads as absent, yet
    a swap that expects it absent is refused and one that expects the expired value
    succeeds. *)
Theorem sled_compare_and_swap_on_expiry {TR : TreeReliable} now k expected v d :
  let a := tree_abs DEFAULT_TREE d in
  ∃ d' b, sled_compare_and_swap k expected v d = (d', Ok b) ∧
    (∀ t, visible t (tree_abs DEFAULT_TREE d') = if b then <[k:=v]> (visible t a) else visible t a) ∧
    (expired_key now (a_ttl a) k = false → b = bool_decide (visible now a !! k = expected)) ∧
    (expired_key now (a_ttl a) k = true → is_Some (a_data a !! k) →
       visible now a !! k = None ∧ b = bool_decide (a_data a !! k = expected) ∧ (b = true → expected ≠ None)).
Proof.
  cbv zeta. set (a := tree_abs DEFAULT_TREE d).
  destruct (sled_compare_and_swap k expected v d) as [d' r] eqn:E. apply sled_cas_spec in E as [-> Ha].
  fold a in Ha |- *. exists d', (bool_decide (a_data a !! k = expected)). split_and!; [done| | |].
  - intros t. rewrite Ha. destruct (decide (a_data a !! k = expected)) as [H|H].
    + rewrite bool_decide_true by done. apply visible_put.
    + by rewrite bool_decide_false.
  - intros Hx. by rewrite visible_lookup, Hx.
  - intros Hx [old Hold]. rewrite visible_lookup, Hx. split_and!; [done|done|].
    rewrite bool_decide_eq_true, Hold. by intros <-.
Qed.

(** A snapshot of the [sled] store is the map of the entries visible when it was
    taken; it answers reads and ranges from that map whatever is written later. *)
Theorem sled_snapshot_correct {TR : TreeReliable} now k lo hi d :
  ∃ p, sled_snapshot now d = Ok p ∧ p = visible now (tree_abs DEFAULT_TREE d) ∧
    sled_snap_get k p = Ok (visible now (tree_abs DEFAULT_TREE d) !! k) ∧
    sled_snap_range lo hi p = if bytes_ltb hi lo then None
      else Some (Ok (map Ok (btree_between lo hi (visible now (tree_abs DEFAULT_TREE d))))).
Proof.
  exists (visible now (tree_abs DEFAULT_TREE d)). rewrite sled_snapshot_spec. split_and!; [done|done|done|].
  unfold sled_snap_range, btree_range. by destruct (bytes_ltb hi lo).
Qed.
End SledTheorems.
