(* ===== verification/SledWitness.v ===== *)
(** * Concrete runs of the [sled] backend

    The theorems of [SledProps.v] applied on the in-memory engine, and on one with
    room for a single write. *)

From S2P Require Import Prelude Bytes Core StoreSpec TreeDb TreeSpec Sled SledSpec SledProps.

Definition sk1 : bytes := [x61].
Definition sk2 : bytes := [x62].
Definition sv1 : bytes := [x31].
Definition sv2 : bytes := [x32].

(** [sk1] expires after a millisecond, [sk2] never; the clock is in nanoseconds. *)
Definition sled_demo_ops : list (Z * StoreOp) :=
  [(0%Z, OpPutWithTtl sk1 sv1 1000000); (0%Z, OpPut sk2 sv2)].

Definition sled_demo : TreeDb (TreeEngine := mem_trees) := (sled_run sled_demo_ops ∅).1.

Lemma sled_history_refines_witness :
  let ops := sled_demo_ops ++ [(500000%Z, OpTtl sk1); (2000000%Z, OpIter); (2000000%Z, OpPurgeExpired)] in
  ∃ d' rs, sled_run ops (∅ : TreeDb (TreeEngine := mem_trees)) = (d', rs) ∧
    abs_run ops abs_empty = (tree_abs DEFAULT_TREE d', rs).
Proof. apply sled_history_refines; [done|done|]. repeat constructor; simpl; lia. Defined.

Lemma sled_txn_correct_witness :
  let ws := [(sk1, Put sv2); (sk2, Delete)] in
  let t := sled_txn_run ws in
  let seen := visible 2000000 (abs_writes ws (tree_abs DEFAULT_TREE sled_demo)) in
  sled_txn_get 2000000 sk1 sled_demo t = Ok (seen !! sk1) ∧
  sled_txn_range 2000000 sk1 sk2 sled_demo t =
    (if bytes_ltb sk2 sk1 then None else Some (Ok (map Ok (btree_between sk1 sk2 seen)))) ∧
  ∃ d', sled_txn_commit t sled_demo = (d', Ok ()) ∧
    tree_abs DEFAULT_TREE d' = abs_writes ws (tree_abs DEFAULT_TREE sled_demo).
Proof. exact (sled_txn_correct 2000000 [(sk1, Put sv2); (sk2, Delete)] sk1 sk1 sk2 sled_demo). Defined.

(** One write is left: the insertion succeeds, the removal of the expiry fails. *)
#[local] Existing Instance faulty_laws.
Definition sled_full : TreeDb (TreeEngine := @faulty mem_trees) := (sled_demo, 1).

Lemma sled_put_not_atomic_witness :
  let d2 := (@sled_put (@faulty mem_trees) sk1 sv2 sled_full).1 in
  @sled_put (@faulty mem_trees) sk1 sv2 sled_full = (d2, Err (Other "no space left on device"%string)) ∧
  ∀ t, visible t (@tree_abs (@faulty mem_trees) faulty_view DEFAULT_TREE d2) !! sk1 =
       if is_expired t 1 then None else Some sv2.
Proof.
  refine (@sled_put_not_atomic (@faulty mem_trees) faulty_view faulty_laws sk1 sv2 1
    "no space left on device"%string sled_full
    (@td_insert (@faulty mem_trees) DEFAULT_TREE sk1 sv2 sled_full).1 _ _ _ _).
  - apply outcome_eq. reflexivity.
  - reflexivity.
  - vm_compute. reflexivity.
Defined.

Lemma sled_compare_and_swap_on_expiry_witness :
  let a := tree_abs DEFAULT_TREE sled_demo in
  ∃ d' b, sled_compare_and_swap sk1 (Some sv1) sv2 sled_demo = (d', Ok b) ∧
    (∀ t, visible t (tree_abs DEFAULT_TREE d') = if b then <[sk1:=sv2]> (visible t a) else visible t a) ∧
    (expired_key 2000000 (a_ttl a) sk1 = false → b = bool_decide (visible 2000000 a !! sk1 = Some sv1)) ∧
    (expired_key 2000000 (a_ttl a) sk1 = true → is_Some (a_data a !! sk1) →
       visible 2000000 a !! sk1 = None ∧ b = bool_decide (a_data a !! sk1 = Some sv1) ∧ (b = true → Some sv1 ≠ None)).
Proof. exact (sled_compare_and_swap_on_expiry 2000000 sk1 (Some sv1) sv2 sled_demo). Defined.

Lemma sled_snapshot_correct_witness :
  ∃ p, sled_snapshot 2000000 sled_demo = Ok p ∧ p = visible 2000000 (tree_abs DEFAULT_TREE sled_demo) ∧
    sled_snap_get sk1 p = Ok (visible 2000000 (tree_abs DEFAULT_TREE sled_demo) !! sk1) ∧
    sled_snap_range sk1 sk2 p = if bytes_ltb sk2 sk1 then None
      else Some (Ok (map Ok (btree_between sk1 sk2 (visible 2000000 (tree_abs DEFAULT_TREE sled_demo))))).
Proof. exact (sled_snapshot_correct 2000000 sk1 sk1 sk2 sled_demo). Defined.

(** The store reads the expired key as absent and refuses the swap that expects it
    absent. *)
Example sled_cas_refused :
  (sled_get 2000000 sk1 sled_demo).2 = Ok None ∧
  (sled_compare_and_swap sk1 None sv2 sled_demo).2 = Ok false.
Proof. split; vm_compute; reflexivity. Qed.
