(* ===== verification/Fjall.v ===== *)
(** * [oxistore-kv-fjall]: the [fjall] backend

    [FjallStore] keeps its entries in a named keyspace and the expiries in the
    keyspace [__ttl__] of one [fjall] database; a write is one batch over both.
    The name of the keyspace is fixed when the store is opened and is a parameter
    of its type.  [FjallTxn] buffers a batch and an overlay under a lock and reads
    the live keyspaces; [FjallSnap] reads a snapshot of the database, which is its
    state at capture.  Also here: the length-prefixed backup format, the
    rate-limited writer and the builder. *)

From S2P Require Import Prelude Bytes Core StoreSpec TreeDb TreeSpec.

(** ** Errors *)
Inductive FjallStoreError :=
| FOpen (s : string)
| FRead (s : string)
| FWrite (s : string)
| FPersist (s : string)
| FCompaction (s : string)
| FBatchOverflow (s : string).

Definition fjall_error_display (e : FjallStoreError) : string :=
  match e with
  | FOpen s => "fjall open error: " +:+ s
  | FRead s => "fjall read error: " +:+ s
  | FWrite s => "fjall write error: " +:+ s
  | FPersist s => "fjall persist error: " +:+ s
  | FCompaction s => "fjall compaction error: " +:+ s
  | FBatchOverflow s => "fjall batch overflow: " +:+ s
  end.

Definition fjall_error_from (e : FjallStoreError) : StoreError := Other (fjall_error_display e).

Definition now_epoch_millis (now : Z) : Z :=
  match duration_since_epoch now with Ok d => as_millis_u64 d | Err _ => 0%Z end.

Section FjallModel.
Context {TE : TreeEngine}.

Abbreviation D A := (TreeDb → TreeDb * store_result A).

(** [txn_lock] is a mutex that is healthy or poisoned by a panic. *)
Record FjallStore (keyspace : string) := {
  fj_db : TreeDb;
  fj_path : string;
  fj_poisoned : bool;
}.
#[global] Arguments fj_db {_} _.
#[global] Arguments fj_path {_} _.
#[global] Arguments fj_poisoned {_} _.

Definition fj_set_db {n} (d : TreeDb) (s : FjallStore n) : FjallStore n :=
  {| fj_db := d; fj_path := fj_path s; fj_poisoned := fj_poisoned s |}.

(** An operation of the store is one on its database. *)
Definition fj_on {n A} (m : D A) (s : FjallStore n) : FjallStore n * store_result A :=
  let '(d, r) := m (fj_db s) in (fj_set_db d s, r).

(** [from_database], and the tail of [open] and [build]. *)
Definition fjall_from_database (n : string) (path : string) (d : TreeDb)
    : result (FjallStore n) FjallStoreError :=
  match td_open n d with
  | (_, Err e) => Err (FOpen e)
  | (d, Ok _) =>
      match td_open TTL_TREE d with
      | (_, Err e) => Err (FOpen e)
      | (d, Ok _) => Ok {| fj_db := d; fj_path := path; fj_poisoned := false |}
      end
  end.

Definition fjall_open_partition (name : string) (d : TreeDb) : TreeDb * result unit FjallStoreError :=
  let '(d, r) := td_open name d in (d, map_err FOpen r).

Section Keyspace.
Context (n : string).

Definition fjall_is_ttl_expired (now : Z) (d : TreeDb) (key : bytes) : store_result bool :=
  let? o := other (td_get TTL_TREE key d) in
  match o with
  | Some expiry_bytes =>
      match decode_expiry expiry_bytes with
      | Some expiry_millis => Ok (is_expired now expiry_millis)
      | None => Ok false
      end
  | None => Ok false
  end.

(** ** Point operations *)

(** The batch of the lazy evictions. *)
Definition fjall_evict (key : bytes) : D unit := d_batch [BRemove n key; BRemove TTL_TREE key].

Definition fjall_get (now : Z) (key : bytes) : D (option bytes) :=
  let* expiry_bytes := d_get TTL_TREE key in
  match expiry_bytes ≫= decode_expiry with
  | Some expiry_millis =>
      if is_expired now expiry_millis then
        let* _ := fjall_evict key in d_ret (Ok None)
      else d_get n key
  | None => d_get n key
  end.

Definition fjall_put (key value : bytes) : D unit :=
  d_batch [BInsert n key value; BRemove TTL_TREE key].

Definition fjall_delete (key : bytes) : D unit :=
  d_batch [BRemove n key; BRemove TTL_TREE key].

Definition fjall_put_returning (now : Z) (key value : bytes) : D (option bytes) :=
  let* prev := fjall_get now key in
  let* _ := fjall_put key value in
  d_ret (Ok prev).

Definition fjall_delete_returning (now : Z) (key : bytes) : D (option bytes) :=
  let* prev := fjall_get now key in
  let* _ := (if bool_decide (is_Some prev) then fjall_delete key else d_ret (Ok ())) in
  d_ret (Ok prev).

(** ** Scans *)
Definition fjall_range (now : Z) (lo hi : bytes) (d : TreeDb) : store_result (list RangeItem) :=
  scan_loop (fjall_is_ttl_expired now d) (td_range n lo hi d).

Definition fjall_prefix_scan (now : Z) (prefix : bytes) (d : TreeDb) : store_result (list RangeItem) :=
  scan_loop (fjall_is_ttl_expired now d) (td_prefix n prefix d).

Definition fjall_count (now : Z) (d : TreeDb) : store_result nat :=
  count_loop (fjall_is_ttl_expired now d) 0 (td_iter n d).

Definition fjall_iter (now : Z) (d : TreeDb) : store_result (list RangeItem) :=
  scan_loop (fjall_is_ttl_expired now d) (td_iter n d).

Definition fjall_keys (now : Z) (d : TreeDb) : store_result (list (store_result bytes)) :=
  Ok (keys_loop (fjall_is_ttl_expired now d) (td_iter n d)).

(** ** Batches *)
Fixpoint batch_write_ops (pairs : list (bytes * bytes)) : list BatchOp :=
  match pairs with
  | [] => []
  | (k, v) :: pairs => BInsert n k v :: BRemove TTL_TREE k :: batch_write_ops pairs
  end.

Definition fjall_batch_write (pairs : list (bytes * bytes)) : D unit := d_batch (batch_write_ops pairs).

Fixpoint batch_delete_ops (keys : list bytes) : list BatchOp :=
  match keys with
  | [] => []
  | k :: keys => BRemove n k :: BRemove TTL_TREE k :: batch_delete_ops keys
  end.

Definition fjall_batch_delete (keys : list bytes) : D unit := d_batch (batch_delete_ops keys).

(** ** Time to live *)
Definition fjall_put_with_ttl (now : Z) (key value : bytes) (ttl : Z) : D unit :=
  let* expiry := d_ret (expiry_epoch_millis now ttl) in
  d_batch [BInsert n key value; BInsert TTL_TREE key (encode_expiry expiry)].

Definition fjall_expire (now : Z) (key : bytes) (ttl : Z) : D unit :=
  let* o := d_get n key in
  if negb (bool_decide (is_Some o)) then d_ret (Err KeyNotFound)
  else
    let* expiry := d_ret (expiry_epoch_millis now ttl) in
    d_insert TTL_TREE key (encode_expiry expiry).

Definition fjall_ttl (now : Z) (key : bytes) : D (option Z) :=
  let* o := d_get n key in
  if negb (bool_decide (is_Some o)) then d_ret (Err KeyNotFound)
  else
    let* o := d_get TTL_TREE key in
    match o with
    | None => d_ret (Ok None)
    | Some expiry_bytes =>
        match decode_expiry expiry_bytes with
        | None => d_ret (Err (Other "invalid TTL encoding"%string))
        | Some expiry_millis =>
            if is_expired now expiry_millis then
              let* _ := fjall_evict key in d_ret (Err KeyNotFound)
            else d_ret (Ok (Some (Z.max 0 (expiry_millis - now_epoch_millis now))))
        end
    end.

Definition fjall_persist (key : bytes) : D bool :=
  let* o := d_get n key in
  if negb (bool_decide (is_Some o)) then d_ret (Err KeyNotFound)
  else
    let* o := d_get TTL_TREE key in
    if bool_decide (is_Some o) then
      let* _ := d_remove TTL_TREE key in d_ret (Ok true)
    else d_ret (Ok false).

(** The [filter_map] of [purge_expired]: items that are errors or do not decode are
    skipped. *)
Fixpoint fjall_expired_keys (now : Z) (items : engine_items) : list bytes :=
  match items with
  | [] => []
  | Ok (k, v) :: items =>
      match decode_expiry v with
      | Some expiry_millis =>
          if is_expired now expiry_millis then k :: fjall_expired_keys now items
          else fjall_expired_keys now items
      | None => fjall_expired_keys now items
      end
  | Err _ :: items => fjall_expired_keys now items
  end.

Definition fjall_purge_expired (now : Z) : D nat := λ d,
  match fjall_expired_keys now (td_iter TTL_TREE d) with
  | [] => (d, Ok 0)
  | expired_keys =>
      (let* _ := d_batch (batch_delete_ops expired_keys) in d_ret (Ok (length expired_keys))) d
  end.

(** ** [FjallTxn] *)
Record FjallTxn := {
  fx_batch : option (list BatchOp);
  fx_overlay : gmap bytes TxnOp;
}.

Definition fjall_transaction (s : FjallStore n) : store_result FjallTxn :=
  if fj_poisoned s
  then Err (Other "lock poisoned: poisoned lock: another task failed inside"%string)
  else Ok {| fx_batch := Some []; fx_overlay := ∅ |}.

Definition fjall_committed_key_expired (now : Z) (d : TreeDb) (key : bytes) : store_result bool :=
  let? o := other (td_get TTL_TREE key d) in
  match o with
  | Some b => Ok (default false (is_expired now <$> decode_expiry b))
  | None => Ok false
  end.

Definition fjall_txn_get (now : Z) (key : bytes) (d : TreeDb) (t : FjallTxn) : store_result (option bytes) :=
  match fx_overlay t !! key with
  | Some (Put v) => Ok (Some v)
  | Some Delete => Ok None
  | None =>
      let? ex := fjall_committed_key_expired now d key in
      if ex : bool then Ok None else other (td_get n key d)
  end.

Definition fjall_txn_put (key value : bytes) (t : FjallTxn) : FjallTxn * store_result unit :=
  match fx_batch t with
  | None => (t, Err (Other "transaction already consumed"%string))
  | Some batch =>
      ({| fx_batch := Some (batch ++ [BInsert n key value; BRemove TTL_TREE key]);
          fx_overlay := <[key:=Put value]> (fx_overlay t) |}, Ok ())
  end.

Definition fjall_txn_delete (key : bytes) (t : FjallTxn) : FjallTxn * store_result unit :=
  match fx_batch t with
  | None => (t, Err (Other "transaction already consumed"%string))
  | Some batch =>
      ({| fx_batch := Some (batch ++ [BRemove n key; BRemove TTL_TREE key]);
          fx_overlay := <[key:=Delete]> (fx_overlay t) |}, Ok ())
  end.

Definition fjall_txn_contains (now : Z) (key : bytes) (d : TreeDb) (t : FjallTxn) : store_result bool :=
  let? o := fjall_txn_get now key d t in Ok (bool_decide (is_Some o)).

(** [None] is the panic of [BTreeMap::range] on an inverted interval. *)
Definition fjall_txn_range (now : Z) (lo hi : bytes) (d : TreeDb) (t : FjallTxn)
    : option (store_result (list RangeItem)) :=
  match merge_loop (fjall_committed_key_expired now d) (td_range n lo hi d) ∅ with
  | Err e => Some (Err e)
  | Ok merged =>
      match btree_range lo hi (fx_overlay t) with
      | None => None
      | Some ops => Some (Ok (map Ok (btree_iter (apply_overlay ops merged))))
      end
  end.

Definition fjall_txn_commit (t : FjallTxn) : D unit :=
  match fx_batch t with
  | None => d_ret (Err (Other "transaction already consumed"%string))
  | Some batch => d_batch batch
  end.

Definition fjall_txn_rollback (t : FjallTxn) : FjallTxn * store_result unit :=
  ({| fx_batch := None; fx_overlay := fx_overlay t |}, Ok ()).

(** ** [FjallSnap] *)
Record FjallSnap := { fs_snap : TreeDb; fs_captured_at_millis : Z }.

Definition fjall_snapshot (now : Z) (d : TreeDb) : store_result FjallSnap :=
  Ok {| fs_snap := d; fs_captured_at_millis := now_epoch_millis now |}.

Definition expired_at_capture (p : FjallSnap) (key : bytes) : store_result bool :=
  let? o := other (td_get TTL_TREE key (fs_snap p)) in
  match o with
  | Some expiry_bytes =>
      match decode_expiry expiry_bytes with
      | Some expiry_millis => Ok (expiry_millis <=? fs_captured_at_millis p)%Z
      | None => Ok false
      end
  | None => Ok false
  end.

Definition fjall_snap_get (key : bytes) (p : FjallSnap) : store_result (option bytes) :=
  let? ex := expired_at_capture p key in
  if ex : bool then Ok None else other (td_get n key (fs_snap p)).

Definition fjall_snap_range (lo hi : bytes) (p : FjallSnap) : store_result (list RangeItem) :=
  scan_loop (expired_at_capture p) (td_range n lo hi (fs_snap p)).
End Keyspace.

(** ** [batch_write_across] *)

(** Open every partition, stopping at the first error. *)
Fixpoint open_partitions (names : list string) : D unit :=
  match names with
  | [] => d_ret (Ok ())
  | name :: names => let* _ := d_lift (td_open name) in open_partitions names
  end.

Fixpoint partition_ops (writes : list (string * list (bytes * bytes))) : list BatchOp :=
  match writes with
  | [] => []
  | (name, pairs) :: writes => map (λ kv, BInsert name kv.1 kv.2) pairs ++ partition_ops writes
  end.

Definition fjall_batch_write_across (writes : list (string * list (bytes * bytes))) : D unit :=
  let* _ := open_partitions (map fst writes) in
  d_batch (partition_ops writes).

(** ** Backup and restore *)

(** [len() as u32], four little-endian bytes. *)
Definition len_u32 (b : bytes) : bytes := to_le_bytes 4 (Z.of_nat (length b)).

Definition backup_record (k v : bytes) : bytes := len_u32 k ++ k ++ len_u32 v ++ v.

(** The loop of [backup] over the raw keyspace, and the bytes it writes. *)
Fixpoint backup_loop (items : engine_items) : store_result bytes :=
  match items with
  | [] => Ok []
  | item :: items =>
      let? (k, v) := other item in
      let? rest := backup_loop items in
      Ok (backup_record k v ++ rest)
  end.

Definition fjall_backup {n} (s : FjallStore n) : store_result bytes := backup_loop (td_iter n (fj_db s)).

(** [Read::read_exact]: [None] is [UnexpectedEof]. *)
Definition read_exact (len : nat) (file : bytes) : option (bytes * bytes) :=
  if length file <? len then None else Some (take len file, drop len file).

Definition eof_error : StoreError := Io "failed to fill whole buffer"%string.

(** The loop of [restore_from_backup]; [None] is a loop that needs more than [fuel]
    iterations. *)
Fixpoint restore_loop (n : string) (fuel : nat) (file : bytes) (s : FjallStore n)
    : option (FjallStore n * store_result unit) :=
  match fuel with
  | 0 => None
  | S fuel =>
      match read_exact 4 file with
      | None => Some (s, Ok ())
      | Some (len_buf, file) =>
          match read_exact (Z.to_nat (from_le_bytes len_buf)) file with
          | None => Some (s, Err eof_error)
          | Some (key, file) =>
              match read_exact 4 file with
              | None => Some (s, Err eof_error)
              | Some (len_buf, file) =>
                  match read_exact (Z.to_nat (from_le_bytes len_buf)) file with
                  | None => Some (s, Err eof_error)
                  | Some (val, file) =>
                      match fj_on (fjall_put n key val) s with
                      | (s, Err e) => Some (s, Err e)
                      | (s, Ok _) => restore_loop n fuel file s
                      end
                  end
              end
          end
      end
  end.

(** Every iteration but the last consumes at least eight bytes. *)
Definition restore_fuel (file : bytes) : nat := length file / 8 + 1.

Definition fjall_restore_from_backup {n} (file : bytes) (dest : FjallStore n)
    : option (FjallStore n * store_result unit) :=
  restore_loop n (restore_fuel file) file dest.

(** ** [RateLimitedWriter]; [rl_sleeps] counts the calls of [thread::sleep]. *)
Record RateLimitedWriter (n : string) := {
  rl_store : FjallStore n;
  rl_writes_per_period : nat;
  rl_period : Z;
  rl_counter : nat;
  rl_sleeps : nat;
}.
#[global] Arguments rl_store {_} _.
#[global] Arguments rl_writes_per_period {_} _.
#[global] Arguments rl_period {_} _.
#[global] Arguments rl_counter {_} _.
#[global] Arguments rl_sleeps {_} _.

Definition fjall_rate_limiter {n} (writes_per_period : nat) (period : Z) (s : FjallStore n)
    : RateLimitedWriter n :=
  {| rl_store := s; rl_writes_per_period := writes_per_period; rl_period := period;
     rl_counter := 0; rl_sleeps := 0 |}.

(** The bookkeeping after a successful write. *)
Definition rl_tick {n} (s : FjallStore n) (x : RateLimitedWriter n) : RateLimitedWriter n :=
  let counter := rl_counter x + 1 in
  let sleep := (0 <? rl_writes_per_period x) && (rl_writes_per_period x <=? counter) in
  {| rl_store := s; rl_writes_per_period := rl_writes_per_period x; rl_period := rl_period x;
     rl_counter := if sleep then 0 else counter;
     rl_sleeps := if sleep then rl_sleeps x + 1 else rl_sleeps x |}.

Definition rl_write {n} (m : D unit) (x : RateLimitedWriter n) : RateLimitedWriter n * store_result unit :=
  match fj_on m (rl_store x) with
  | (s, Err e) =>
      ({| rl_store := s; rl_writes_per_period := rl_writes_per_period x; rl_period := rl_period x;
          rl_counter := rl_counter x; rl_sleeps := rl_sleeps x |}, Err e)
  | (s, Ok _) => (rl_tick s x, Ok ())
  end.

Definition rl_put {n} (key value : bytes) (x : RateLimitedWriter n) : RateLimitedWriter n * store_result unit :=
  rl_write (fjall_put n key value) x.

Definition rl_delete {n} (key : bytes) (x : RateLimitedWriter n) : RateLimitedWriter n * store_result unit :=
  rl_write (fjall_delete n key) x.

(** ** The [KvStore] instance *)
#[global] Instance fjall_kv (n : string) : KvStore (FjallStore n) := {|
  kv_get now k := fj_on (fjall_get n now k);
  kv_put k v := fj_on (fjall_put n k v);
  kv_delete k := fj_on (fjall_delete n k);
  kv_contains := contains_default (λ now k, fj_on (fjall_get n now k));
  kv_range now lo hi s := fjall_range n now lo hi (fj_db s);
  kv_iter now s := fjall_iter n now (fj_db s);
  kv_Txn := FjallTxn * TreeDb;
  kv_transaction s := result_map (λ t, (t, fj_db s)) (fjall_transaction n s);
  txn_get now k t := (t, fjall_txn_get n now k t.2 t.1);
  txn_put k v t := let '(t', r) := fjall_txn_put n k v t.1 in ((t', t.2), r);
  txn_delete k t := let '(t', r) := fjall_txn_delete n k t.1 in ((t', t.2), r);
  txn_commit t := fj_on (fjall_txn_commit t.1);
  txn_rollback t s := (s, (fjall_txn_rollback t.1).2);
|}.

(** ** One call of the trait *)
Definition fjall_step (n : string) (now : Z) (op : StoreOp) : D StoreOut :=
  let ret {A} (f : A → StoreOut) (m : D A) : D StoreOut := λ d, let '(d', r) := m d in (d', result_map f r) in
  match op with
  | OpGet k => ret OutValue (fjall_get n now k)
  | OpPut k v => ret (λ _, OutUnit) (fjall_put n k v)
  | OpDelete k => ret (λ _, OutUnit) (fjall_delete n k)
  | OpRange lo hi => λ d, (d, result_map OutItems (fjall_range n now lo hi d))
  | OpPrefixScan p => λ d, (d, result_map OutItems (fjall_prefix_scan n now p d))
  | OpIter => λ d, (d, result_map OutItems (fjall_iter n now d))
  | OpKeys => λ d, (d, result_map OutKeys (fjall_keys n now d))
  | OpCount => λ d, (d, result_map OutCount (fjall_count n now d))
  | OpBatchWrite pairs => ret (λ _, OutUnit) (fjall_batch_write n pairs)
  | OpBatchDelete keys => ret (λ _, OutUnit) (fjall_batch_delete n keys)
  | OpPutWithTtl k v ttl => ret (λ _, OutUnit) (fjall_put_with_ttl n now k v ttl)
  | OpExpire k ttl => ret (λ _, OutUnit) (fjall_expire n now k ttl)
  | OpTtl k => ret OutTtl (fjall_ttl n now k)
  | OpPersist k => ret OutBool (fjall_persist n k)
  | OpPurgeExpired => ret OutCount (fjall_purge_expired n now)
  end.
End FjallModel.
