(* ===== verification/FjallSpec.v ===== *)
(** * The [fjall] backend against its specification

    Every operation of [Fjall.v] is the corresponding step of [abs_step], or the
    engine reported an error and nothing changed: a write is one atomic batch over
    the two keyspaces.  The store discharges the contract of [Core.v] on every
    lawful engine, also on one that fails. *)

From S2P Require Import Prelude Bytes Core StoreSpec TreeDb TreeSpec Fjall.

Section FjallTheory.
Context {TE : TreeEngine} {TV : TreeView} {TL : TreeLaws}.
Context (n : string) (Hn : n ≠ TTL_TREE).
Context {w : Prop}.

Abbreviation D A := (TreeDb → TreeDb * store_result A).
Abbreviation at_ := (atomic w n).
Abbreviation fj_abs := (tree_abs n).

Lemma fjall_is_ttl_expired_eq now d k : fjall_is_ttl_expired now d k = tree_expired now d k.
Proof.
  unfold fjall_is_ttl_expired, tree_expired. destruct (td_get TTL_TREE k d) as [[b|]|]; simpl; [|done|done].
  by destruct (decode_expiry b).
Qed.

Lemma fjall_committed_key_expired_eq now d k : fjall_committed_key_expired now d k = tree_expired now d k.
Proof.
  unfold fjall_committed_key_expired, tree_expired.
  destruct (td_get TTL_TREE k d) as [[b|]|]; simpl; [|done|done]. by destruct (decode_expiry b).
Qed.

(** ** Batches of writes *)
Definition write_op (x : bytes * TxnOp) : list BatchOp :=
  [match x.2 with Put v => BInsert n x.1 v | Delete => BRemove n x.1 end; BRemove TTL_TREE x.1].

Definition write_ops (ws : list (bytes * TxnOp)) : list BatchOp := concat (map write_op ws).

Lemma batch_view_app t ops ops' m : batch_view t (ops ++ ops') m = batch_view t ops' (batch_view t ops m).
Proof. apply foldl_app. Qed.

Lemma write_op_view x m mt :
  batch_view n (write_op x) m = (match x.2 with Put v => <[x.1:=v]> m | Delete => delete x.1 m end) ∧
  batch_view TTL_TREE (write_op x) mt = delete x.1 mt.
Proof.
  unfold batch_view, write_op. destruct x as [k [v|]]; cbn [foldl bop_tree fst snd];
    repeat case_decide; done || congruence.
Qed.

Lemma write_ops_view ws m mt :
  {| a_data := batch_view n (write_ops ws) m;
     a_ttl := omap decode_expiry (batch_view TTL_TREE (write_ops ws) mt) |} =
  abs_writes ws {| a_data := m; a_ttl := omap decode_expiry mt |} ∧
  (map_Forall (λ _ b, is_Some (decode_expiry b)) mt →
   map_Forall (λ _ b, is_Some (decode_expiry b)) (batch_view TTL_TREE (write_ops ws) mt)).
Proof.
  revert m mt. induction ws as [|x ws IH]; intros m mt; [done|]. unfold write_ops in *. simpl map.
  rewrite !concat_cons, !batch_view_app. destruct (write_op_view x m mt) as [-> ->].
  destruct (IH (match x.2 with Put v => <[x.1:=v]> m | Delete => delete x.1 m end) (delete x.1 mt)) as [-> Hw].
  split; [|intros; by apply Hw, map_Forall_delete].
  unfold abs_writes. simpl. f_equal. unfold abs_write, abs_put, abs_delete. simpl.
  rewrite omap_delete. by destruct x.2.
Qed.

Lemma atomic_writes ws : at_ (d_batch (write_ops ws)) (λ a, (abs_writes ws a, Ok ())).
Proof.
  apply (atomic_batch n _ (abs_writes ws)). intros d.
  destruct (write_ops_view ws (td_view n d) (td_view TTL_TREE d)) as [Ha Hw]. by split; [|rewrite Ha].
Qed.

Lemma fjall_evict_at k : at_ (fjall_evict n k) (λ a, (abs_delete k a, Ok ())).
Proof. apply (atomic_writes [(k, Delete)]). Qed.

Lemma fjall_put_at k v : at_ (fjall_put n k v) (λ a, (abs_put k v a, Ok ())).
Proof. apply (atomic_writes [(k, Put v)]). Qed.

Lemma fjall_delete_at k : at_ (fjall_delete n k) (λ a, (abs_delete k a, Ok ())).
Proof. apply (atomic_writes [(k, Delete)]). Qed.

Lemma batch_write_ops_eq pairs : batch_write_ops n pairs = write_ops (map (λ kv, (kv.1, Put kv.2)) pairs).
Proof. induction pairs as [|[k v] pairs IH]; simpl; [done|]. by rewrite IH. Qed.

Lemma batch_delete_ops_eq keys : batch_delete_ops n keys = write_ops (map (λ k, (k, Delete)) keys).
Proof. induction keys as [|k keys IH]; simpl; [done|]. by rewrite IH. Qed.

Lemma fjall_batch_write_at pairs : at_ (fjall_batch_write n pairs) (λ a, (abs_puts pairs a, Ok ())).
Proof.
  unfold fjall_batch_write. rewrite batch_write_ops_eq.
  eapply atomic_ext; [apply atomic_writes|]. intros a. by rewrite abs_puts_writes.
Qed.

Lemma fjall_batch_delete_at keys : at_ (fjall_batch_delete n keys) (λ a, (abs_deletes keys a, Ok ())).
Proof.
  unfold fjall_batch_delete. rewrite batch_delete_ops_eq.
  eapply atomic_ext; [apply atomic_writes|]. intros a. by rewrite abs_deletes_writes.
Qed.

(** An eviction followed by a constant answer. *)
Lemma fjall_evict_then {A} k (r : store_result A) :
  at_ (let* _ := fjall_evict n k in d_ret r) (λ a, (abs_delete k a, r)).
Proof. eapply atomic_ext; [apply atomic_bind_ret, fjall_evict_at|done]. Qed.

Lemma fjall_get_at now k :
  at_ (fjall_get n now k) (λ a, if expired_key now (a_ttl a) k then (abs_delete k a, Ok None)
                                else (a, Ok (a_data a !! k))).
Proof.
  unfold fjall_get.
  eapply atomic_ext; [apply (atomic_bind_ttl _ _ _ (λ o a,
    if (if o is Some e then is_expired now e else false) then (abs_delete k a, Ok None)
    else (a, Ok (a_data a !! k))))|].
  - intros o _. destruct (o ≫= decode_expiry) as [e|]; [|apply atomic_get].
    destruct (is_expired now e); [apply fjall_evict_then|apply atomic_get].
  - intros a. unfold expired_key. by destruct (a_ttl a !! k).
Qed.

(** ** Time to live *)
Lemma fjall_put_with_ttl_at now k v ttl :
  at_ (fjall_put_with_ttl n now k v ttl)
    (λ a, match expiry_epoch_millis now ttl with
          | Ok e => (abs_put_ttl k v e a, Ok ())
          | Err e => (a, Err e)
          end).
Proof.
  unfold fjall_put_with_ttl. destruct (expiry_epoch_millis now ttl) as [e|err] eqn:E.
  - apply (atomic_batch n _ (abs_put_ttl k v e)). intros d. unfold batch_view. cbn [foldl bop_tree].
    repeat (case_decide; try congruence).
    pose proof (decode_encode_expiry e (expiry_epoch_millis_u64 _ _ _ E)) as Hd. split.
    + intros Hw. apply map_Forall_insert_2; [rewrite Hd; eauto|done].
    + unfold abs_put_ttl, tree_ttl. simpl. by rewrite (omap_insert_Some decode_expiry _ k _ e).
  - apply (atomic_ret _ (Err err)).
Qed.

(** A read of the data keyspace followed by a case analysis on its presence. *)
Lemma atomic_bind_exists {B} k (m : D B) f :
  at_ m f →
  at_ (let* o := d_get n k in if negb (bool_decide (is_Some o)) then d_ret (Err KeyNotFound) else m)
      (λ a, match a_data a !! k with Some _ => f a | None => (a, Err KeyNotFound) end).
Proof.
  intros Hm. eapply atomic_ext; [eapply (atomic_bind _ _ _ _ (λ (o : option bytes) a,
    match o with Some _ => f a | None => (a, Err KeyNotFound) end)); [apply atomic_get|done|]|].
  - intros [v|]; [rewrite bool_decide_true by eauto; apply Hm|apply atomic_ret].
  - done.
Qed.

Lemma fjall_expire_at now k ttl :
  at_ (fjall_expire n now k ttl)
    (λ a, match a_data a !! k, expiry_epoch_millis now ttl with
          | None, _ => (a, Err KeyNotFound)
          | Some _, Ok e => (abs_set_ttl k e a, Ok ())
          | Some _, Err e => (a, Err e)
          end).
Proof.
  unfold fjall_expire. eapply atomic_ext; [apply (atomic_bind_exists _ _ (λ a,
    match expiry_epoch_millis now ttl with
    | Ok e => (abs_set_ttl k e a, Ok ()) | Err e => (a, Err e) end))|].
  - destruct (expiry_epoch_millis now ttl) as [e|err] eqn:E; [|apply (atomic_ret _ (Err err))].
    apply atomic_insert_ttl; [done|]. by eapply expiry_epoch_millis_u64.
  - done.
Qed.

Lemma fjall_ttl_at now k :
  w → (0 ≤ now)%Z →
  at_ (fjall_ttl n now k)
    (λ a, match a_data a !! k, a_ttl a !! k with
          | None, _ => (a, Err KeyNotFound)
          | Some _, None => (a, Ok None)
          | Some _, Some e =>
              if is_expired now e then (abs_delete k a, Err KeyNotFound)
              else match duration_since_epoch now with
                   | Ok d => (a, Ok (Some (e - as_millis_u64 d)%Z))
                   | Err e => (a, Err (Other e))
                   end
          end).
Proof.
  intros Hwf Hnow. unfold fjall_ttl. eapply atomic_ext; [apply (atomic_bind_exists _ _ (λ a,
    match a_ttl a !! k with
    | None => (a, Ok None)
    | Some e => if is_expired now e then (abs_delete k a, Err KeyNotFound)
                else (a, Ok (Some (Z.max 0 (e - now_epoch_millis now)%Z)))
    end))|].
  - apply (atomic_bind_ttl _ k _ (λ o a, match o with
              | None => (a, Ok None)
              | Some e => if is_expired now e then (abs_delete k a, Err KeyNotFound)
                          else (a, Ok (Some (Z.max 0 (e - now_epoch_millis now)%Z))) end)).
    intros [b|] Hb; [|apply atomic_ret]. destruct (Hb Hwf b eq_refl) as [e He]. simpl. rewrite He.
    destruct (is_expired now e); [apply fjall_evict_then|apply atomic_ret].
  - intros a. cbv beta. destruct (a_data a !! k); [|done]. destruct (a_ttl a !! k) as [e|]; [|done].
    destruct (is_expired now e) eqn:Ex; [done|]. apply unexpired_ahead in Ex.
    unfold now_epoch_millis, epoch_millis, duration_since_epoch in *.
    destruct (Z.ltb_spec now 0); [lia|]. by rewrite Z.max_r by lia.
Qed.

Lemma atomic_remove_ttl_then {A} k (r : store_result A) :
  at_ (let* _ := d_remove TTL_TREE k in d_ret r) (λ a, (abs_del_ttl k a, r)).
Proof.
  intros d d' r'. unfold st_bind, d_remove, d_lift. destruct (td_remove TTL_TREE k d) as [d1 r1] eqn:E.
  pose proof (td_remove_law _ _ _ _ _ E) as (Hv & _ & Hne).
  destruct r1 as [o|e]; simpl; intros [= <- <-] Hw.
  - split; [by eapply ttl_wf_delete|left]. unfold abs_del_ttl, tree_abs, tree_ttl. simpl.
    by rewrite Hv, Hne, omap_delete.
  - split; [by apply ttl_wf_same|right]. split; [|split; [eauto|]].
    + intros H. destruct (td_remove_ok TTL_TREE k d) as [o Ho]. rewrite E in Ho. done.
    + unfold tree_abs, tree_ttl. by rewrite Hv, Hne.
Qed.

Lemma fjall_persist_at k :
  w → at_ (fjall_persist n k)
    (λ a, match a_data a !! k, a_ttl a !! k with
          | None, _ => (a, Err KeyNotFound)
          | Some _, None => (a, Ok false)
          | Some _, Some _ => (abs_del_ttl k a, Ok true)
          end).
Proof.
  intros Hwf. unfold fjall_persist. eapply atomic_ext; [apply (atomic_bind_exists _ _ (λ a,
    match a_ttl a !! k with None => (a, Ok false) | Some _ => (abs_del_ttl k a, Ok true) end))|done].
  apply (atomic_bind_ttl _ k _ (λ o a,
    match o with None => (a, Ok false) | Some _ => (abs_del_ttl k a, Ok true) end)).
  intros [b|] Hb; [|apply atomic_ret]. destruct (Hb Hwf b eq_refl) as [e He].
  rewrite bool_decide_true by eauto. simpl. rewrite He. apply atomic_remove_ttl_then.
Qed.

(** ** Purging *)
Lemma fjall_expired_keys_collect now items l :
  collect items = Ok l → fjall_expired_keys now items = expired_entries now l.
Proof.
  revert l. induction items as [|[[k b]|e] items IH]; intros l; simpl; [by intros [= <-]| |done].
  destruct (collect items) as [l'|]; [|done]. intros [= <-]. rewrite (IH _ eq_refl).
  unfold expired_entries. simpl. destruct (decode_expiry b) as [e|]; [|done]. by destruct (is_expired now e).
Qed.

(** Also when some items are errors, only expired keys are collected. *)
Lemma fjall_expired_keys_sound now d :
  Forall (λ k, expired_key now (a_ttl (fj_abs d)) k = true) (fjall_expired_keys now (td_iter TTL_TREE d)).
Proof.
  assert (∀ k b, Ok (k, b) ∈ td_iter TTL_TREE d → td_view TTL_TREE d !! k = Some b) as Hit by apply td_iter_item.
  induction (td_iter TTL_TREE d) as [|[[k b]|e] items IH]; simpl; [done| |].
  - destruct (decode_expiry b) as [e|] eqn:Ed; [destruct (is_expired now e) eqn:Ex|]; [constructor| |];
      try (apply IH; intros; apply Hit; set_solver).
    unfold expired_key. simpl. rewrite tree_ttl_lookup, (Hit k b) by set_solver. simpl. by rewrite Ed.
  - apply IH. intros. apply Hit. set_solver.
Qed.

Lemma fjall_purge_spec now d d' r :
  fjall_purge_expired n now d = (d', r) → (w → ttl_wf d) →
  (ttl_wf d → ttl_wf d') ∧ ∃ keys, Forall (λ k, expired_key now (a_ttl (fj_abs d)) k = true) keys ∧
    (TreeReliable → keys = abs_expired now (fj_abs d)) ∧
    (r = Ok (length keys) ∧ fj_abs d' = abs_deletes keys (fj_abs d) ∨
     ¬ TreeReliable ∧ (∃ e, r = Err (Other e)) ∧ fj_abs d' = fj_abs d).
Proof.
  unfold fjall_purge_expired. pose proof (fjall_expired_keys_sound now d) as Hs.
  assert (TreeReliable → fjall_expired_keys now (td_iter TTL_TREE d) = abs_expired now (fj_abs d)) as Hr.
  { intros Hr. destruct (td_iter_ok TTL_TREE d) as [l Hl].
    by rewrite (fjall_expired_keys_collect _ _ _ Hl), (td_iter_law _ _ _ Hl), <-expired_entries_spec. }
  destruct (fjall_expired_keys now (td_iter TTL_TREE d)) as [|k keys] eqn:Ek.
  { intros [= <- <-] _. split; [done|]. exists []. split_and!; auto. }
  intros E Hw. assert (at_ (let* _ := fjall_batch_delete n (k :: keys) in d_ret (Ok (length (k :: keys))))
    (λ a, (abs_deletes (k :: keys) a, Ok (length (k :: keys))))) as Hat.
  { eapply atomic_ext; [apply atomic_bind_ret, fjall_batch_delete_at|done]. }
  destruct (Hat _ _ _ E Hw) as [? [H|H]]; (split; [done|]); exists (k :: keys); split_and!; auto.
  left. apply pair_eq in H as [<- <-]. done.
Qed.

(** ** Every call of the trait *)
Lemma at_read {A} (f : A → StoreOut) (g : TreeDb → store_result A) (v : AbsStore → A) :
  (∀ d, reads (g d) (v (fj_abs d))) → at_ (λ d, (d, result_map f (g d))) (λ a, (a, Ok (f (v a)))).
Proof.
  intros Hg d d' r [= <- <-] Hw. split; [done|]. destruct (Hg d) as [->|[? [e ->]]]; [by left|right]. eauto.
Qed.

(** A step agrees with the specification, or the engine failed and nothing changed. *)
Definition fjall_step_ok (now : Z) (op : StoreOp) : Prop :=
  ∀ d d' r, fjall_step n now op d = (d', r) → (w → ttl_wf d) → (ttl_wf d → ttl_wf d') ∧
    (abs_step now op (fj_abs d) = (fj_abs d', r) ∨
     ¬ TreeReliable ∧ engine_failed r ∧ fj_abs d' = fj_abs d).

Lemma step_ok_atomic now op f :
  at_ (fjall_step n now op) f → (∀ a, f a = abs_step now op a) → fjall_step_ok now op.
Proof.
  intros Hat Hf d d' r E Hw. destruct (Hat _ _ _ E Hw) as [? [H|(? & [e ->] & ?)]]; (split; [done|]).
  - left. by rewrite <-Hf.
  - right. done.
Qed.

Lemma fjall_step_spec now op :
  w → (0 ≤ now)%Z → op ≠ OpPurgeExpired → fjall_step_ok now op.
Proof.
  intros Hwf Hnow Hp. destruct op; try done.
  - eapply step_ok_atomic; [apply atomic_map, fjall_get_at|]. intros a. cbn [abs_step].
    by destruct (expired_key now (a_ttl a) k).
  - eapply step_ok_atomic; [apply atomic_map, fjall_put_at|done].
  - eapply step_ok_atomic; [apply atomic_map, fjall_delete_at|done].
  - eapply step_ok_atomic; [apply (at_read _ _ (λ a, map Ok (btree_between lo hi (visible now a))))|done].
    intros d. unfold fjall_range. rewrite (scan_loop_ext _ _ _ (fjall_is_ttl_expired_eq now d)). apply reads_range.
  - eapply step_ok_atomic; [apply (at_read _ _ (λ a, map Ok (with_prefix p (visible now a))))|done].
    intros d. unfold fjall_prefix_scan. rewrite (scan_loop_ext _ _ _ (fjall_is_ttl_expired_eq now d)). apply reads_prefix.
  - eapply step_ok_atomic; [apply (at_read _ _ (λ a, map Ok (btree_iter (visible now a))))|done].
    intros d. unfold fjall_iter. rewrite (scan_loop_ext _ _ _ (fjall_is_ttl_expired_eq now d)). apply reads_iter.
  - intros d d' r [= <- <-] Hw. split; [done|].
    rewrite (keys_loop_ext _ _ _ (fjall_is_ttl_expired_eq now d)).
    destruct (reads_keys n now d) as [->|[? ?]]; [by left|right; done].
  - eapply step_ok_atomic; [apply (at_read _ _ (λ a, size (visible now a)))|done].
    intros d. unfold fjall_count. rewrite (count_loop_ext _ _ _ _ (fjall_is_ttl_expired_eq now d)). apply reads_count.
  - eapply step_ok_atomic; [apply atomic_map, fjall_batch_write_at|done].
  - eapply step_ok_atomic; [apply atomic_map, fjall_batch_delete_at|done].
  - eapply step_ok_atomic; [apply atomic_map, fjall_put_with_ttl_at|]. intros a. cbn [abs_step].
    by destruct (expiry_epoch_millis now ttl).
  - eapply step_ok_atomic; [apply atomic_map, fjall_expire_at|]. intros a. cbn [abs_step].
    by destruct (a_data a !! k), (expiry_epoch_millis now ttl).
  - eapply step_ok_atomic; [apply atomic_map, fjall_ttl_at; done|]. intros a. cbn [abs_step].
    destruct (a_data a !! k), (a_ttl a !! k) as [e|]; try done.
    destruct (is_expired now e); [done|]. by destruct (duration_since_epoch now).
  - eapply step_ok_atomic; [apply atomic_map, fjall_persist_at, Hwf|]. intros a. cbn [abs_step].
    by destruct (a_data a !! k), (a_ttl a !! k).
Qed.

Lemma fjall_step_refines {TR : TreeReliable} now op d d' r :
  w → (0 ≤ now)%Z → fjall_step n now op d = (d', r) → ttl_wf d →
  ttl_wf d' ∧ abs_step now op (fj_abs d) = (fj_abs d', r).
Proof.
  intros Hwf Hnow E Hw. destruct (decide (op = OpPurgeExpired)) as [->|Hne].
  - simpl in E. destruct (fjall_purge_expired n now d) as [d1 r1] eqn:Ep. injection E as <- <-.
    destruct (fjall_purge_spec _ _ _ _ Ep (λ _, Hw)) as (Hw' & keys & _ & Hk & [[-> Ha]|[? _]]); [|contradiction].
    split; [auto|]. simpl. by rewrite <-(Hk TR), Ha.
  - destruct (fjall_step_spec now op Hwf Hnow Hne _ _ _ E (λ _, Hw)) as [Hw' [?|[? _]]]; [auto|contradiction].
Qed.

Fixpoint fjall_run (ops : list (Z * StoreOp)) (d : TreeDb) : TreeDb * list (store_result StoreOut) :=
  match ops with
  | [] => (d, [])
  | (now, op) :: ops =>
      let '(d1, r) := fjall_step n now op d in
      let '(d2, rs) := fjall_run ops d1 in (d2, r :: rs)
  end.

Lemma fjall_run_refines {TR : TreeReliable} ops d d' rs :
  w → Forall (λ x, 0 ≤ x.1)%Z ops → fjall_run ops d = (d', rs) → ttl_wf d →
  ttl_wf d' ∧ abs_run ops (fj_abs d) = (fj_abs d', rs).
Proof.
  intros Hwf Hops. revert d rs. induction Hops as [|[now op] ops Hnow _ IH]; intros d rs; simpl.
  { by intros [= <- <-]. }
  destruct (fjall_step n now op d) as [d1 r] eqn:E1. destruct (fjall_run ops d1) as [d2 rs'] eqn:E2.
  intros [= <- <-] Hw. destruct (fjall_step_refines now op _ _ _ Hwf Hnow E1 Hw) as [Hw1 ->].
  destruct (IH _ _ E2 Hw1) as [? ->]. done.
Qed.

(** ** Transactions *)
Definition fjall_txn_ok (ws : list (bytes * TxnOp)) (t : FjallTxn) : Prop :=
  fx_batch t = Some (write_ops ws) ∧ fx_overlay t = overlay_of ws.

Definition fjall_txn_view (now : Z) (d : TreeDb) (t : FjallTxn) : gmap bytes bytes :=
  overlay_view (fx_overlay t) (visible now (fj_abs d)).

Lemma write_ops_snoc ws x : write_ops (ws ++ [x]) = write_ops ws ++ write_op x.
Proof. unfold write_ops. rewrite map_app, concat_app. done. Qed.

Lemma fjall_txn_put_spec ws k v t :
  fjall_txn_ok ws t → ∃ t', fjall_txn_put n k v t = (t', Ok ()) ∧ fjall_txn_ok (ws ++ [(k, Put v)]) t'.
Proof.
  intros [Hb Ho]. unfold fjall_txn_put. rewrite Hb. eexists. split; [done|].
  split; simpl; [by rewrite write_ops_snoc|]. unfold overlay_of. by rewrite Ho, foldl_snoc.
Qed.

Lemma fjall_txn_delete_spec ws k t :
  fjall_txn_ok ws t → ∃ t', fjall_txn_delete n k t = (t', Ok ()) ∧ fjall_txn_ok (ws ++ [(k, Delete)]) t'.
Proof.
  intros [Hb Ho]. unfold fjall_txn_delete. rewrite Hb. eexists. split; [done|].
  split; simpl; [by rewrite write_ops_snoc|]. unfold overlay_of. by rewrite Ho, foldl_snoc.
Qed.

Lemma fjall_txn_get_reads now k d t : reads (fjall_txn_get n now k d t) (fjall_txn_view now d t !! k).
Proof.
  unfold fjall_txn_get, fjall_txn_view. rewrite overlay_view_lookup.
  destruct (fx_overlay t !! k) as [[v|]|]; [by left|by left|].
  rewrite visible_lookup, fjall_committed_key_expired_eq.
  destruct (tree_expired now d k) as [b|e] eqn:Hb.
  - apply tree_expired_spec in Hb. change (a_ttl (fj_abs d)) with (tree_ttl d). rewrite <-Hb.
    destruct b; [by left|]. destruct (td_get n k d) as [o|e] eqn:Ho.
    + left. simpl. by apply td_get_law in Ho as ->.
    + right. split; [|eauto]. intros H. destruct (td_get_ok n k d). congruence.
  - right. split; [|].
    + intros H. destruct (tree_expired_total now d k). congruence.
    + apply tree_expired_err in Hb as [m ->]. eauto.
Qed.

Lemma fjall_txn_range_spec now lo hi d t :
  match fjall_txn_range n now lo hi d t with
  | None => bytes_ltb hi lo = true
  | Some (Ok l) => bytes_ltb hi lo = false ∧ l = map Ok (btree_between lo hi (fjall_txn_view now d t))
  | Some (Err _) => ¬ TreeReliable
  end.
Proof.
  unfold fjall_txn_range.
  destruct (merge_loop (fjall_committed_key_expired now d) (td_range n lo hi d) ∅) as [m|e] eqn:Hm.
  - apply (merge_loop_spec _ (expired_key now (tree_ttl d))) in Hm as (l' & Hc & ->).
    2: { intros k b. rewrite fjall_committed_key_expired_eq. apply tree_expired_spec. }
    unfold btree_range. destruct (bytes_ltb hi lo); [done|]. split; [done|]. f_equal.
    rewrite (td_range_law _ _ _ _ _ Hc).
    change (tree_ttl d) with (a_ttl (fj_abs d)). change (td_view n d) with (a_data (fj_abs d)).
    rewrite btree_between_visible. apply overlay_range.
  - intros H. destruct (td_range_ok n lo hi d) as [l Hl].
    destruct (merge_loop_total (fjall_committed_key_expired now d) _ _ ∅
      (λ k, ltac:(rewrite fjall_committed_key_expired_eq; by apply tree_expired_total)) Hl). congruence.
Qed.

Lemma fjall_txn_commit_at ws t :
  fjall_txn_ok ws t → at_ (fjall_txn_commit t) (λ a, (abs_writes ws a, Ok ())).
Proof. intros [Hb _]. unfold fjall_txn_commit. rewrite Hb. apply atomic_writes. Qed.
End FjallTheory.
