(* ===== verification/FjallProps.v ===== *)
(** * Properties of the [fjall] backend

    Refinement over histories, failure atomicity on engines that fail, the contract
    of [Core.v], transactions and snapshots; the backup format, its round trip and
    what it forgets; the rate limiter. *)

From S2P Require Import Prelude Bytes Core StoreSpec TreeDb TreeSpec Fjall FjallSpec.

Section FjallLaws.
Context {TE : TreeEngine} {TV : TreeView} {TL : TreeLaws}.
Context (n : string) (Hn : n ≠ TTL_TREE).

Abbreviation fj_abs := (tree_abs n).

(** ** The contract of [Core.v] *)
#[global] Instance fjall_view : KvView (FjallStore n) := {|
  kv_view now s := visible now (fj_abs (fj_db s));
  txn_view now t := fjall_txn_view n now (t : FjallTxn * TreeDb).2 t.1;
  txn_base t s := (∃ ws, fjall_txn_ok n ws (t : FjallTxn * TreeDb).1) ∧ t.2 = fj_db s;
|}.

Lemma fj_on_at {A} (m : TreeDb → TreeDb * store_result A) f (s s' : FjallStore n) r :
  atomic False n m f → fj_on m s = (s', r) →
  f (fj_abs (fj_db s)) = (fj_abs (fj_db s'), r) ∨ (∃ e, r = Err (Other e)) ∧ fj_abs (fj_db s') = fj_abs (fj_db s).
Proof.
  intros Hm. unfold fj_on. destruct (m (fj_db s)) as [d r1] eqn:E. intros [= <- <-].
  destruct (Hm _ _ _ E (False_ind _)) as [_ [?|(_ & ? & ?)]]; auto.
Qed.

(** A write that succeeded did what it says; one that failed did nothing. *)
Lemma fj_on_write (m : TreeDb → TreeDb * store_result unit) g (s s' : FjallStore n) r :
  atomic False n m (λ a, (g a, Ok ())) → fj_on m s = (s', r) →
  fj_abs (fj_db s') = (if r is Ok _ then g (fj_abs (fj_db s)) else fj_abs (fj_db s)).
Proof.
  intros Hm E. destruct (fj_on_at _ _ _ _ _ Hm E) as [H|[[e ->] H]]; [|done].
  apply pair_eq in H as [<- <-]. done.
Qed.

Lemma fjall_kv_laws : KvLaws (FjallStore n).
Proof.
  split; simpl.
  - intros now k s s' r E. rewrite visible_lookup.
    destruct (fj_on_at _ _ _ _ _ (fjall_get_at n Hn now k) E) as [H|[[e ?] _]]; [|done].
    cbv beta in H. destruct (expired_key now (a_ttl (fj_abs (fj_db s))) k); by apply pair_eq in H as [_ [= <-]].
  - intros now k s s' r t E Ht.
    destruct (fj_on_at _ _ _ _ _ (fjall_get_at n Hn now k) E) as [H|[_ ->]]; [|done]. cbv beta in H.
    destruct (expired_key now (a_ttl (fj_abs (fj_db s))) k) eqn:Ex; apply pair_eq in H as [<- _]; [|done].
    by apply (visible_evict now).
  - intros k v s s' t E. rewrite (fj_on_write _ _ _ _ _ (fjall_put_at n Hn k v) E). apply visible_put.
  - intros k v s s' e t E. by rewrite (fj_on_write _ _ _ _ _ (fjall_put_at n Hn k v) E).
  - intros k s s' t E. rewrite (fj_on_write _ _ _ _ _ (fjall_delete_at n Hn k) E). apply visible_delete.
  - intros k s s' e t E. by rewrite (fj_on_write _ _ _ _ _ (fjall_delete_at n Hn k) E).
  - intros now lo hi s l. unfold fjall_range. rewrite (scan_loop_ext _ _ _ (fjall_is_ttl_expired_eq now _)).
    apply reads_Ok, reads_range.
  - intros now s l. unfold fjall_iter. rewrite (scan_loop_ext _ _ _ (fjall_is_ttl_expired_eq now _)).
    apply reads_Ok, reads_iter.
  - intros s t. unfold fjall_transaction. destruct (fj_poisoned s); [done|]. intros [= <-]. split.
    + split; [|done]. by exists [].
    + intros now. apply overlay_view_empty.
  - intros now k t t' r s [= <- <-] Hb. split; [done|]. split; [done|]. intros o.
    apply reads_Ok, fjall_txn_get_reads.
  - intros k v [t d] t' s E [[ws Hok] Hd]. simpl in *. destruct (fjall_txn_put_spec n ws k v t Hok) as (t1 & E1 & Hok1).
    rewrite E1 in E. injection E as <-. split; [by split; [eexists|]|]. intros now. unfold fjall_txn_view. simpl.
    destruct Hok as [_ ->], Hok1 as [_ ->]. unfold overlay_of. rewrite foldl_snoc. apply overlay_view_record.
  - intros k [t d] t' s E [[ws Hok] Hd]. simpl in *. destruct (fjall_txn_delete_spec n ws k t Hok) as (t1 & E1 & Hok1).
    rewrite E1 in E. injection E as <-. split; [by split; [eexists|]|]. intros now. unfold fjall_txn_view. simpl.
    destruct Hok as [_ ->], Hok1 as [_ ->]. unfold overlay_of. rewrite foldl_snoc. apply overlay_view_record.
  - intros [t d] s s' now E [[ws Hok] Hd]. simpl in *. subst d.
    rewrite (fj_on_write _ _ _ _ _ (fjall_txn_commit_at n Hn ws t Hok) E).
    unfold fjall_txn_view. destruct Hok as [_ ->]. apply visible_writes.
  - intros [t d] s s' e now E. simpl in *. unfold fjall_txn_commit in E. destruct (fx_batch t) as [ops|].
    + unfold fj_on, d_batch, d_lift in E. destruct (td_batch ops (fj_db s)) as [d1 r1] eqn:Eb.
      injection E as <- E. destruct r1 as [[]|]; [done|].
      pose proof (td_batch_law _ _ _ _ Eb) as Hv. unfold tree_abs, tree_ttl. simpl. by rewrite !Hv.
    + by injection E as <- _.
  - by intros t s s' r now [= <- _].
Qed.

Lemma fjall_contains_law : KvContainsLaw (FjallStore n).
Proof. pose proof fjall_kv_laws as Hlaws. intros now k s s' r. exact (contains_default_law now k s s' r). Qed.

(** ** Restoring *)
Lemma read_exact_spec len file a b : read_exact len file = Some (a, b) → length a = len ∧ file = a ++ b.
Proof.
  unfold read_exact. destruct (Nat.ltb_spec (length file) len); [done|]. intros [= <- <-].
  rewrite length_take, take_drop. split; [lia|done].
Qed.

Lemma read_exact_app a b : read_exact (length a) (a ++ b) = Some (a, b).
Proof.
  unfold read_exact. rewrite length_app. destruct (Nat.ltb_spec (length a + length b) (length a)); [lia|].
  by rewrite take_app_length, drop_app_length.
Qed.

Lemma restore_loop_total fuel file (s : FjallStore n) :
  length file < 8 * fuel → is_Some (restore_loop n fuel file s).
Proof.
  revert file s. induction fuel as [|fuel IH]; intros file s Hf; [lia|]. simpl.
  destruct (read_exact 4 file) as [[lb f1]|] eqn:E1; [|eauto].
  destruct (read_exact _ f1) as [[key f2]|] eqn:E2; [|eauto].
  destruct (read_exact 4 f2) as [[lb2 f3]|] eqn:E3; [|eauto].
  destruct (read_exact _ f3) as [[val f4]|] eqn:E4; [|eauto].
  destruct (fj_on (fjall_put n key val) s) as [s1 [[]|e]]; [|eauto]. apply IH.
  apply read_exact_spec in E1 as [? ->], E2 as [? ->], E3 as [? ->], E4 as [? ->].
  rewrite !length_app in Hf. lia.
Qed.

Lemma restore_fuel_enough file : length file < 8 * restore_fuel file.
Proof. unfold restore_fuel. pose proof (Nat.div_mod_eq (length file) 8). pose proof (Nat.mod_upper_bound (length file) 8). lia. Qed.

(** More fuel than needed changes nothing. *)
Lemma restore_loop_mono fuel fuel' file (s : FjallStore n) r :
  restore_loop n fuel file s = Some r → fuel ≤ fuel' → restore_loop n fuel' file s = Some r.
Proof.
  revert fuel' file s. induction fuel as [|fuel IH]; intros fuel' file s; [done|].
  destruct fuel' as [|fuel']; [lia|]. simpl. intros H Hle. repeat case_match; try done. apply IH; [done|lia].
Qed.

Lemma restore_enough fuel file (s : FjallStore n) r :
  restore_loop n fuel file s = Some r → fjall_restore_from_backup file s = Some r.
Proof.
  intros H. unfold fjall_restore_from_backup.
  destruct (restore_loop_total (restore_fuel file) file s (restore_fuel_enough file)) as [r' Hr'].
  destruct (Nat.le_ge_cases fuel (restore_fuel file)) as [Hle|Hle]; [by eapply restore_loop_mono|].
  rewrite Hr'. by rewrite <-(restore_loop_mono _ _ _ _ _ Hr' Hle), <-H.
Qed.

Definition fits_u32 (b : bytes) : Prop := (Z.of_nat (length b) < 4294967296)%Z.

Lemma len_u32_read b : fits_u32 b → Z.to_nat (from_le_bytes (len_u32 b)) = length b.
Proof.
  unfold fits_u32, len_u32. intros H. rewrite from_to_le_bytes. rewrite Z.mod_small; [lia|]. simpl. lia.
Qed.

Lemma read_len_u32 b rest : read_exact 4 (len_u32 b ++ rest) = Some (len_u32 b, rest).
Proof.
  assert (length (len_u32 b) = 4) as <- by apply length_to_le_bytes. apply read_exact_app.
Qed.

(** The records of a backup. *)
Definition backup_bytes (l : list (bytes * bytes)) : bytes := concat (map (λ kv, backup_record kv.1 kv.2) l).

Lemma backup_loop_collect items l : collect items = Ok l → backup_loop items = Ok (backup_bytes l).
Proof.
  revert l. induction items as [|[[k v]|e] items IH]; intros l; simpl; [by intros [= <-]| |done].
  destruct (collect items) as [l'|]; [|done]. intros [= <-]. by rewrite (IH _ eq_refl).
Qed.

Lemma fj_put_reliable {TR : TreeReliable} k v (s : FjallStore n) :
  ∃ s', fj_on (fjall_put n k v) s = (s', Ok ()) ∧ fj_abs (fj_db s') = abs_put k v (fj_abs (fj_db s)).
Proof.
  unfold fj_on. destruct (fjall_put n k v (fj_db s)) as [d r] eqn:E.
  destruct (atomic_refines _ _ _ (fjall_put_at (w := False) n Hn k v) _ _ _ E) as [_ H]; [done|].
  apply pair_eq in H as [H <-]. eexists. by split.
Qed.

(** A file made of records and at most three more bytes restores the records. *)
Lemma restore_loop_records {TR : TreeReliable} l tail (s : FjallStore n) :
  Forall (λ kv, fits_u32 kv.1 ∧ fits_u32 kv.2) l → length tail < 4 →
  ∃ s', restore_loop n (S (length l)) (backup_bytes l ++ tail) s = Some (s', Ok ()) ∧
    fj_abs (fj_db s') = abs_puts l (fj_abs (fj_db s)).
Proof.
  intros Hl Ht. revert s. induction Hl as [|[k v] l [Hk Hv] _ IH]; intros s.
  - exists s. simpl. unfold read_exact. by destruct (Nat.ltb_spec (length tail) 4); [|lia].
  - simpl in Hk, Hv. cbn [length restore_loop].
    change (backup_bytes ((k, v) :: l)) with ((len_u32 k ++ k ++ len_u32 v ++ v) ++ backup_bytes l).
    rewrite <-!app_assoc. rewrite read_len_u32, len_u32_read, read_exact_app by done.
    rewrite read_len_u32, len_u32_read, read_exact_app by done.
    destruct (fj_put_reliable k v s) as (s1 & -> & Ha). destruct (IH s1) as (s' & Hs' & Ha').
    exists s'. split; [done|]. by rewrite Ha', Ha.
Qed.
End FjallLaws.

(** The writes of a transaction, as calls. *)
Definition fjall_txn_run `{!TreeEngine} (n : string) (ws : list (bytes * TxnOp)) : FjallTxn :=
  foldl (λ t x, match x.2 with
                | Put v => (fjall_txn_put n x.1 v t).1
                | Delete => (fjall_txn_delete n x.1 t).1
                end) {| fx_batch := Some []; fx_overlay := ∅ |} ws.

Lemma fjall_txn_run_ok `{!TreeEngine} n ws : fjall_txn_ok n ws (fjall_txn_run n ws).
Proof.
  unfold fjall_txn_run. induction ws as [|[k [v|]] ws IH] using rev_ind; [done| |]; rewrite foldl_snoc; simpl.
  - destruct (fjall_txn_put_spec n ws k v _ IH) as (t & -> & ?). done.
  - destruct (fjall_txn_delete_spec n ws k _ IH) as (t & -> & ?). done.
Qed.

(** Successive successful writes through a rate limiter. *)
Section RateLimiter.
Context {TE : TreeEngine} {n : string}.

Definition rl_step (w : bytes * TxnOp) : RateLimitedWriter n → RateLimitedWriter n * store_result unit :=
  match w.2 with Put v => rl_put w.1 v | Delete => rl_delete w.1 end.

Fixpoint rl_run (ws : list (bytes * TxnOp)) (x : RateLimitedWriter n) : RateLimitedWriter n * list (store_result unit) :=
  match ws with
  | [] => (x, [])
  | w :: ws => let '(x1, r) := rl_step w x in let '(x2, rs) := rl_run ws x1 in (x2, r :: rs)
  end.

Definition successes (rs : list (store_result unit)) : nat :=
  length (List.filter (λ r, if r is Ok _ then true else false) rs).

(** The number of successful writes so far is what the counter and the sleeps say. *)
Definition rl_inv (done : nat) (x : RateLimitedWriter n) : Prop :=
  let p := rl_writes_per_period x in
  if decide (p = 0) then rl_sleeps x = 0 ∧ rl_counter x = done
  else done = rl_sleeps x * p + rl_counter x ∧ rl_counter x < p.

Lemma rl_step_inv w x x' r done :
  rl_step w x = (x', r) → rl_inv done x →
  rl_writes_per_period x' = rl_writes_per_period x ∧
  rl_inv (if r is Ok _ then done + 1 else done) x'.
Proof.
  assert (∀ m, rl_write m x = (x', r) → rl_inv done x →
    rl_writes_per_period x' = rl_writes_per_period x ∧ rl_inv (if r is Ok _ then done + 1 else done) x') as H.
  { intros m. unfold rl_write. destruct (fj_on m (rl_store x)) as [s [[]|e]]; intros [= <- <-]; [|done].
    unfold rl_inv, rl_tick. simpl. intros Hi. split; [done|].
    destruct (Nat.ltb_spec 0 (rl_writes_per_period x)), (Nat.leb_spec (rl_writes_per_period x) (rl_counter x + 1));
      simpl; case_decide; lia. }
  unfold rl_step. destruct w as [k [v|]]; apply H.
Qed.

Lemma rl_run_inv ws x x' rs done :
  rl_run ws x = (x', rs) → rl_inv done x →
  rl_writes_per_period x' = rl_writes_per_period x ∧ rl_inv (done + successes rs) x'.
Proof.
  revert x rs done. induction ws as [|w ws IH]; intros x rs done; simpl.
  { intros [= <- <-] Hi. split; [done|]. by rewrite Nat.add_0_r. }
  destruct (rl_step w x) as [x1 r] eqn:E1. destruct (rl_run ws x1) as [x2 rs'] eqn:E2. intros [= <- <-] Hi.
  destruct (rl_step_inv _ _ _ _ _ E1 Hi) as [Hp Hi1]. destruct (IH _ _ _ E2 Hi1) as [Hp2 Hi2].
  split; [congruence|]. unfold successes in *. destruct r as [[]|]; simpl; [|done].
  by replace (done + S _) with (done + 1 + length (List.filter (λ r, if r is Ok _ then true else false) rs')) by lia.
Qed.
End RateLimiter.

(** ** Theorems *)
Section FjallTheorems.
Context {TE : TreeEngine} {TV : TreeView} {TL : TreeLaws}.

(** C2: Refinement over histories.  On an engine that reports no error and empty
    keyspaces, every history of timed operations on the [fjall] store returns the
    results of the specification on a pair of maps and ends in the corresponding
    state. *)
Theorem fjall_history_refines {TR : TreeReliable} n ops d :
  n ≠ TTL_TREE → td_view n d = ∅ → td_view TTL_TREE d = ∅ → Forall (λ x, 0 ≤ x.1)%Z ops →
  ∃ d' rs, fjall_run n ops d = (d', rs) ∧ abs_run ops abs_empty = (tree_abs n d', rs).
Proof.
  intros Hn Hd Ht Hops. destruct (fjall_run n ops d) as [d' rs] eqn:E. exists d', rs. split; [done|].
  assert (tree_abs n d = abs_empty) as <-.
  { unfold tree_abs, tree_ttl, abs_empty. by rewrite Hd, Ht, omap_empty. }
  apply (fjall_run_refines (w := True) n Hn); [done|done|done|]. unfold ttl_wf. rewrite Ht. apply map_Forall_empty.
Qed.

(** Failures are invisible.  Whatever calls of the engine fail, an operation that
    reports an error, or a purge whatever it reports, leaves every entry that readers
    see from then on as it was, and an operation that reports success did what the
    specification says. *)
Theorem fjall_failure_invisible n now op d d' r t :
  n ≠ TTL_TREE → ttl_wf d → (0 ≤ now)%Z → later now t → fjall_step n now op d = (d', r) →
  (engine_failed r ∨ op = OpPurgeExpired → visible t (tree_abs n d') = visible t (tree_abs n d)) ∧
  (¬ engine_failed r → op ≠ OpPurgeExpired → abs_step now op (tree_abs n d) = (tree_abs n d', r)).
Proof.
  intros Hn Hw Hnow Ht E. destruct (decide (op = OpPurgeExpired)) as [->|Hne].
  - split; [intros _|done]. simpl in E. destruct (fjall_purge_expired n now d) as [d1 r1] eqn:Ep.
    injection E as <- _.
    destruct (fjall_purge_spec (w := True) n Hn _ _ _ _ Ep (λ _, Hw)) as (_ & keys & Hk & _ & [[_ ->]|(_ & _ & ->)]);
      [|done]. by apply (visible_deletes_expired now).
  - destruct (fjall_step_spec (w := True) n Hn now op I Hnow Hne _ _ _ E (λ _, Hw)) as [_ [Ha|(_ & Hf & Ha)]].
    + split; [|done]. intros [Hf|?]; [|done]. destruct r as [out|e]; [|by apply abs_step_err with (t := t) in Ha].
      simpl in Hf. destruct out; try done. destruct Hf as [e He].
      destruct op; simpl in Ha; repeat case_match; simplify_eq/=;
        exfalso; apply list_elem_of_fmap in He as (? & ? & _); done.
    + split; [by rewrite Ha|done].
Qed.

(** A transaction on the [fjall] store, on an engine that may fail.  A point read
    or a range that succeeds sees the committed entries with the writes made so far
    applied in order; a range panics exactly when its bounds are inverted and the
    keyspace could be read; [commit] applies all the writes or none. *)
Theorem fjall_txn_correct n now ws k lo hi d d' r :
  n ≠ TTL_TREE →
  let t := fjall_txn_run n ws in
  let seen := visible now (abs_writes ws (tree_abs n d)) in
  fjall_txn_commit t d = (d', r) →
  (∀ o, fjall_txn_get n now k d t = Ok o → o = seen !! k) ∧
  match fjall_txn_range n now lo hi d t with
  | None => bytes_ltb hi lo = true
  | Some (Ok l) => bytes_ltb hi lo = false ∧ l = map Ok (btree_between lo hi seen)
  | Some (Err _) => ¬ TreeReliable
  end ∧
  tree_abs n d' = (if r is Ok _ then abs_writes ws (tree_abs n d) else tree_abs n d).
Proof.
  intros Hn t seen E. pose proof (fjall_txn_run_ok n ws) as Hok. fold t in Hok.
  assert (fjall_txn_view n now d t = seen) as Hview.
  { unfold fjall_txn_view, seen. destruct Hok as [_ ->]. by rewrite visible_writes. }
  split_and!.
  - intros o. rewrite <-Hview. apply reads_Ok, fjall_txn_get_reads.
  - rewrite <-Hview. apply fjall_txn_range_spec.
  - destruct (fjall_txn_commit_at (w := False) n Hn ws t Hok _ _ _ E) as [_ [H|(_ & [e ->] & ->)]]; [done| |done].
    by apply pair_eq in H as [<- <-].
Qed.

(** A snapshot of the [fjall] store answers with the entries that were visible when
    it was taken, whatever the clock says later: reads and ranges that succeed return
    exactly them. *)
Theorem fjall_snapshot_correct n now k lo hi d p :
  fjall_snapshot now d = Ok p →
  (∀ o, fjall_snap_get n k p = Ok o → o = visible now (tree_abs n d) !! k) ∧
  (∀ l, fjall_snap_range n lo hi p = Ok l → l = map Ok (btree_between lo hi (visible now (tree_abs n d)))).
Proof.
  intros [= <-]. set (p := {| fs_snap := d; fs_captured_at_millis := now_epoch_millis now |}).
  assert (∀ k, expired_at_capture p k = tree_expired now d k) as Hex.
  { intros k'. unfold expired_at_capture, tree_expired. simpl.
    destruct (td_get TTL_TREE k' d) as [[b|]|]; simpl; [|done|done]. by destruct (decode_expiry b). }
  split.
  - intros o. unfold fjall_snap_get. rewrite Hex, visible_lookup.
    destruct (tree_expired now d k) as [b|] eqn:Hb; [|done]. apply tree_expired_spec in Hb.
    change (a_ttl (tree_abs n d)) with (tree_ttl d). rewrite <-Hb. destruct b; [by intros [= <-]|].
    intros Ho%other_Ok. by apply td_get_law in Ho.
  - intros l. unfold fjall_snap_range. rewrite (scan_loop_ext _ _ _ Hex). apply reads_Ok, reads_range.
Qed.

(** C22: Backup and restore.  The backup of a store, restored into an empty one, holds
    the same entries byte for byte as long as keys and values are shorter than four
    gigabytes; the expiries are not part of it, so that an entry that had expired, and
    that no reader of the source saw, is back and never expires. *)
Theorem fjall_backup_restore_roundtrip {TR : TreeReliable} n n' (s : FjallStore n) (dest : FjallStore n') :
  n' ≠ TTL_TREE → tree_abs n' (fj_db dest) = abs_empty →
  Forall (λ kv, fits_u32 kv.1 ∧ fits_u32 kv.2) (btree_iter (td_view n (fj_db s))) →
  ∃ file dest', fjall_backup s = Ok file ∧ fjall_restore_from_backup file dest = Some (dest', Ok ()) ∧
    ∀ t, visible t (tree_abs n' (fj_db dest')) = a_data (tree_abs n (fj_db s)).
Proof.
  intros Hn He Hl. unfold fjall_backup. destruct (td_iter_ok n (fj_db s)) as [l Hc].
  rewrite (backup_loop_collect _ _ Hc). apply td_iter_law in Hc as ->. exists (backup_bytes (btree_iter (td_view n (fj_db s)))).
  destruct (restore_loop_records n' Hn _ [] dest Hl) as (dest' & Hr & Ha); [simpl; lia|].
  rewrite app_nil_r in Hr. exists dest'. split; [done|]. split.
  - by eapply restore_enough.
  - intros t. rewrite Ha, He, abs_puts_foldl. apply map_eq. intros k. rewrite visible_lookup. simpl.
    assert (∀ keys, foldl (flip delete) (∅ : gmap bytes Z) keys = ∅) as Hnil.
    { intros keys. induction keys as [|k0 keys IH]; simpl; [done|]. by rewrite delete_empty. }
    unfold a_ttl, a_data, abs_empty. rewrite Hnil. unfold expired_key. rewrite lookup_empty.
    by rewrite foldl_btree_iter.
Qed.

(** [restore_from_backup] terminates on every file, whatever it contains: the
    lengths it reads never make the loop run past the end. *)
Theorem fjall_restore_terminates n file (dest : FjallStore n) :
  ∃ dest' r, fjall_restore_from_backup file dest = Some (dest', r).
Proof.
  destruct (restore_loop_total n (restore_fuel file) file dest (restore_fuel_enough file)) as [[dest' r] H].
  eauto.
Qed.

(** A backup whose last record lost everything but one to three bytes of its
    first length restores without an error, as if the record had never been there. *)
Theorem fjall_restore_accepts_truncated {TR : TreeReliable} n l tail (dest : FjallStore n) :
  n ≠ TTL_TREE → Forall (λ kv, fits_u32 kv.1 ∧ fits_u32 kv.2) l → length tail < 4 →
  ∃ dest', fjall_restore_from_backup (backup_bytes l ++ tail) dest = Some (dest', Ok ()) ∧
    tree_abs n (fj_db dest') = abs_puts l (tree_abs n (fj_db dest)).
Proof.
  intros Hn Hl Ht. destruct (restore_loop_records n Hn l tail dest Hl Ht) as (dest' & Hr & Ha).
  exists dest'. split; [by eapply restore_enough|done].
Qed.

(** [batch_write_across] leaves the expiries alone: a value it writes to the
    keyspace of the store inherits the expiry of the value it replaced. *)
Theorem fjall_batch_write_across_inherits_expiry {TR : TreeReliable} n k v e d :
  n ≠ TTL_TREE → a_ttl (tree_abs n d) !! k = Some e →
  ∃ d', fjall_batch_write_across [(n, [(k, v)])] d = (d', Ok ()) ∧
    ∀ t, visible t (tree_abs n d') !! k = if is_expired t e then None else Some v.
Proof.
  intros Hn He. unfold fjall_batch_write_across. simpl. unfold st_bind, d_lift.
  destruct (td_open_ok n d) as [[] Ho]. destruct (td_open n d) as [d1 r1] eqn:E1. simpl in Ho. subst r1. simpl.
  unfold d_batch, d_lift. destruct (td_batch_ok [BInsert n k v] d1) as [[] Hb].
  destruct (td_batch [BInsert n k v] d1) as [d2 r2] eqn:E2. simpl in Hb. subst r2. exists d2. split; [done|].
  intros t. rewrite visible_lookup. unfold expired_key, a_ttl, a_data, tree_abs, tree_ttl in *.
  rewrite !(td_batch_law _ _ _ _ E2), !(td_open_law _ _ _ _ E1). unfold batch_view. cbn [foldl bop_tree].
  rewrite (decide_False (P := n = TTL_TREE)), He, decide_True by done. simpl. by rewrite lookup_insert_eq.
Qed.

(** The rate limiter sleeps exactly once per [writes_per_period] successful
    writes; writes that fail are not counted, and with a period of zero writes it
    never sleeps. *)
Theorem rate_limiter_sleeps n p period ws (s : FjallStore n) x rs :
  rl_run ws (fjall_rate_limiter p period s) = (x, rs) →
  rl_sleeps x = (if decide (p = 0) then 0 else successes rs / p) ∧
  rl_counter x = (if decide (p = 0) then successes rs else successes rs mod p).
Proof.
  intros E. assert (rl_inv 0 (fjall_rate_limiter p period s)) as Hi.
  { unfold rl_inv. simpl. case_decide; [done|lia]. }
  destruct (rl_run_inv _ _ _ _ _ E Hi) as [Hp H]. unfold rl_inv in H. rewrite Hp in H. simpl in H.
  case_decide as Hz; [lia|]. destruct H as [Hs Hlt]. rewrite Hs.
  rewrite Nat.div_add_l, Nat.div_small, Nat.add_0_r by lia.
  rewrite Nat.add_comm, Nat.Div0.mod_add, Nat.mod_small by lia. done.
Qed.
End FjallTheorems.
