(* ===== verification/FjallWitness.v ===== *)
(** * Concrete runs of the [fjall] backend

    The theorems of [FjallProps.v] applied on the in-memory engine, and on one with
    no room for a write. *)

From S2P Require Import Prelude Bytes Core StoreSpec TreeDb TreeSpec Fjall FjallSpec FjallProps.

Definition fk1 : bytes := [x61].
Definition fk2 : bytes := [x62].
Definition fv1 : bytes := [x31].
Definition fv2 : bytes := [x32; x33].
Definition ks : string := "default".

Lemma ks_not_ttl : ks ≠ TTL_TREE.
Proof. done. Qed.

(** [fk1] expires after a millisecond, [fk2] never. *)
Definition fjall_demo_ops : list (Z * StoreOp) :=
  [(0%Z, OpPutWithTtl fk1 fv1 1000000); (0%Z, OpPut fk2 fv2)].

Definition fjall_demo : TreeDb (TreeEngine := mem_trees) := (fjall_run ks fjall_demo_ops ∅).1.

Definition fjall_demo_store : FjallStore (TE := mem_trees) ks :=
  {| fj_db := fjall_demo; fj_path := ""; fj_poisoned := false |}.

Definition fjall_empty_store : FjallStore (TE := mem_trees) "copy" :=
  {| fj_db := (∅ : TreeDb (TreeEngine := mem_trees)); fj_path := ""; fj_poisoned := false |}.

Lemma fjall_history_refines_witness :
  let ops := fjall_demo_ops ++ [(500000%Z, OpTtl fk1); (2000000%Z, OpIter); (2000000%Z, OpPurgeExpired)] in
  ∃ d' rs, fjall_run ks ops (∅ : TreeDb (TreeEngine := mem_trees)) = (d', rs) ∧
    abs_run ops abs_empty = (tree_abs ks d', rs).
Proof. apply fjall_history_refines; [done|done|done|]. repeat constructor; simpl; lia. Defined.

(** No write succeeds any more. *)
Definition fjall_full : TreeDb (TreeEngine := @faulty mem_trees) := (fjall_demo, 0).

Lemma mem_wf_run ops : Forall (λ x, 0 ≤ x.1)%Z ops →
  ttl_wf (TE := mem_trees) (fjall_run ks ops (∅ : TreeDb (TreeEngine := mem_trees))).1.
Proof.
  intros H. destruct (fjall_run ks ops _) as [d' rs] eqn:E.
  apply (fjall_run_refines (w := True) ks ks_not_ttl _ _ _ _ I H E), map_Forall_empty.
Qed.

Lemma fjall_demo_wf : ttl_wf (TE := mem_trees) fjall_demo.
Proof. apply mem_wf_run. repeat constructor; simpl; lia. Qed.

Lemma fjall_failure_invisible_witness :
  let '(d', r) := @fjall_step (@faulty mem_trees) ks 0 (OpPut fk1 fv2) fjall_full in
  engine_failed r ∧
  visible 0 (@tree_abs (@faulty mem_trees) faulty_view ks d') =
  visible 0 (@tree_abs (@faulty mem_trees) faulty_view ks fjall_full).
Proof.
  split; [exact I|].
  refine (proj1 (@fjall_failure_invisible (@faulty mem_trees) faulty_view faulty_laws ks 0 (OpPut fk1 fv2)
    fjall_full _ _ 0 ks_not_ttl fjall_demo_wf _ _ eq_refl) (or_introl I)).
  - lia.
  - unfold later. lia.
Defined.

Lemma fjall_txn_correct_witness :
  let ws := [(fk1, Put fv2); (fk2, Delete)] in
  let t := fjall_txn_run ks ws in
  let seen := visible 2000000 (abs_writes ws (tree_abs ks fjall_demo)) in
  let d' := (fjall_txn_commit t fjall_demo).1 in
  (∀ o, fjall_txn_get ks 2000000 fk1 fjall_demo t = Ok o → o = seen !! fk1) ∧
  match fjall_txn_range ks 2000000 fk1 fk2 fjall_demo t with
  | None => bytes_ltb fk2 fk1 = true
  | Some (Ok l) => bytes_ltb fk2 fk1 = false ∧ l = map Ok (btree_between fk1 fk2 seen)
  | Some (Err _) => ¬ TreeReliable
  end ∧
  tree_abs ks d' = abs_writes ws (tree_abs ks fjall_demo).
Proof.
  refine (fjall_txn_correct ks 2000000 [(fk1, Put fv2); (fk2, Delete)] fk1 fk1 fk2 fjall_demo _ (Ok ()) ks_not_ttl _).
  apply outcome_eq. reflexivity.
Defined.

Lemma fjall_snapshot_correct_witness :
  let p := {| fs_snap := fjall_demo; fs_captured_at_millis := now_epoch_millis 2000000 |} in
  (∀ o, fjall_snap_get ks fk1 p = Ok o → o = visible 2000000 (tree_abs ks fjall_demo) !! fk1) ∧
  (∀ l, fjall_snap_range ks fk1 fk2 p = Ok l →
     l = map Ok (btree_between fk1 fk2 (visible 2000000 (tree_abs ks fjall_demo)))).
Proof. exact (fjall_snapshot_correct ks 2000000 fk1 fk1 fk2 fjall_demo _ eq_refl). Defined.

Lemma fjall_backup_restore_roundtrip_witness :
  ∃ file dest', fjall_backup fjall_demo_store = Ok file ∧
    fjall_restore_from_backup file fjall_empty_store = Some (dest', Ok ()) ∧
    ∀ t, visible t (tree_abs "copy" (fj_db dest')) = a_data (tree_abs ks (fj_db fjall_demo_store)).
Proof.
  refine (fjall_backup_restore_roundtrip ks "copy" fjall_demo_store fjall_empty_store _ _ _).
  - done.
  - reflexivity.
  - assert (btree_iter (td_view ks (fj_db fjall_demo_store)) = [(fk1, fv1); (fk2, fv2)]) as ->
      by (vm_compute; reflexivity).
    repeat constructor.
Defined.

(** The backup of the demo store, and the entry of [fk1] in the copy, which had
    expired. *)
Example fjall_backup_demo :
  fjall_backup fjall_demo_store =
    Ok ([x01; x00; x00; x00; x61; x01; x00; x00; x00; x31] ++
        [x01; x00; x00; x00; x62; x02; x00; x00; x00; x32; x33]) ∧
  visible 2000000 (tree_abs ks fjall_demo) !! fk1 = None.
Proof. split; vm_compute; reflexivity. Qed.

Lemma fjall_restore_terminates_witness :
  ∃ dest' r, fjall_restore_from_backup [xff; xff; xff; xff; x00] fjall_empty_store = Some (dest', r).
Proof. exact (fjall_restore_terminates "copy" [xff; xff; xff; xff; x00] fjall_empty_store). Defined.

Lemma fjall_restore_accepts_truncated_witness :
  ∃ dest', fjall_restore_from_backup (backup_bytes [(fk1, fv1)] ++ [x01; x00]) fjall_empty_store = Some (dest', Ok ()) ∧
    tree_abs "copy" (fj_db dest') = abs_puts [(fk1, fv1)] (tree_abs "copy" (fj_db fjall_empty_store)).
Proof.
  refine (fjall_restore_accepts_truncated "copy" [(fk1, fv1)] [x01; x00] fjall_empty_store _ _ _).
  - done.
  - repeat constructor.
  - simpl. lia.
Defined.

Lemma fjall_batch_write_across_inherits_expiry_witness :
  ∃ d', fjall_batch_write_across [(ks, [(fk1, fv2)])] fjall_demo = (d', Ok ()) ∧
    ∀ t, visible t (tree_abs ks d') !! fk1 = if is_expired t 1 then None else Some fv2.
Proof.
  refine (fjall_batch_write_across_inherits_expiry ks fk1 fv2 1 fjall_demo ks_not_ttl _).
  vm_compute. reflexivity.
Defined.

Lemma rate_limiter_sleeps_witness :
  let ws := replicate 5 (fk1, Put fv1) in
  let x := (rl_run ws (fjall_rate_limiter 2 1000 fjall_demo_store)).1 in
  let rs := (rl_run ws (fjall_rate_limiter 2 1000 fjall_demo_store)).2 in
  rl_sleeps x = successes rs / 2 ∧ rl_counter x = successes rs mod 2.
Proof.
  exact (rate_limiter_sleeps ks 2 1000 (replicate 5 (fk1, Put fv1)) fjall_demo_store _ _ (surjective_pairing _)).
Defined.
