(* ===== verification/Encrypt.v ===== *)
(** * [oxistore-encrypt]: ciphers, keys and cells

    The AEAD layer of [aead.rs], the key providers of [keys.rs] and the cell
    encryption of [cell.rs].  The primitives come from the third-party crate
    [oxicrypto] and are the class [Crypto]: the two AEAD schemes, BLAKE3, Argon2id
    and the random generator of the operating system, whose state is passed
    explicitly.  [CryptoLaws] is their functional contract: opening inverts
    sealing, what opens was sealed, and lengths are as documented.  Nothing here
    speaks about secrecy.  [toy_crypto] satisfies the contract. *)

From stdpp Require Import pretty.
From S2P Require Import Prelude Bytes Core.

(** ** Errors *)
Inductive EncryptError :=
| InvalidKeyLength (got : nat)
| KeyringUnavailable (label : string)
| CiphertextTooShort (min_expected got : nat)
| AuthenticationFailed
| RngFailed
| StoreFailed (msg : string)
| KeyDerivationFailed (msg : string)
| MissingKekVersion (v : Z)
| EncryptionFailed (msg : string)
| LockPoisoned
| KeyringEmpty
| KeyRotation (old_version new_version : Z) (reason : string)
| KeyProviderFailed (msg : string).

Abbreviation crypt_result A := (result A EncryptError).

Definition store_error_display (e : StoreError) : string :=
  match e with
  | Io e => "I/O error: " +:+ e
  | Corruption s => "corruption: " +:+ s
  | NotFound => "not found"
  | AlreadyExists => "already exists"
  | TxnConflict => "transaction conflict"
  | ReadOnly => "store is read-only"
  | Timeout => "operation timed out"
  | CapacityExceeded => "capacity exceeded"
  | CasMismatch => "compare-and-swap mismatch"
  | KeyNotFound => "key not found"
  | Unsupported s => "unsupported: " +:+ s
  | Other s => "error: " +:+ s
  end.

Definition encrypt_error_display (e : EncryptError) : string :=
  match e with
  | InvalidKeyLength got => "invalid key length: expected 32 bytes, got " +:+ pretty got
  | KeyringUnavailable label => "OS keyring unavailable for label '" +:+ label +:+ "'"
  | CiphertextTooShort min_expected got =>
      "ciphertext too short: expected at least " +:+ pretty min_expected +:+ " bytes, got " +:+ pretty got
  | AuthenticationFailed => "AEAD authentication tag verification failed"
  | RngFailed => "CSPRNG initialization or fill failed"
  | StoreFailed msg => "underlying store error: " +:+ msg
  | KeyDerivationFailed msg => "key derivation failed: " +:+ msg
  | MissingKekVersion v => "keyring has no entry for KEK version " +:+ pretty v
  | EncryptionFailed msg => "AEAD encryption failed: " +:+ msg
  | LockPoisoned => "internal RwLock was poisoned (a thread panicked while holding it)"
  | KeyringEmpty => "keyring contains no KEK versions (invariant violation)"
  | KeyRotation old_version new_version reason =>
      "key rotation from version " +:+ pretty old_version +:+ " to " +:+ pretty new_version
        +:+ " failed: " +:+ reason
  | KeyProviderFailed msg => "external key provider failed: " +:+ msg
  end.

Definition encrypt_error_from (e : StoreError) : EncryptError := StoreFailed (store_error_display e).
Definition store_error_from (e : EncryptError) : StoreError := Other (encrypt_error_display e).

(** [map_err(StoreError::from)] *)
Definition to_store {A} (r : crypt_result A) : store_result A := map_err store_error_from r.

(** ** The primitives *)
Inductive AeadKind := XChaCha20Poly1305 | AesGcmSiv256.

#[global] Instance AeadKind_eq_dec : EqDecision AeadKind.
Proof. solve_decision. Defined.

Record Argon2Params := { m_cost : Z; t_cost : Z; p_cost : Z }.

Class Crypto := {
  (** key, nonce, additional data, text; the result is the ciphertext with its tag *)
  raw_seal : AeadKind → bytes → bytes → bytes → bytes → result bytes string;
  raw_open : AeadKind → bytes → bytes → bytes → bytes → result bytes string;
  blake3 : bytes → bytes;
  argon2id_derive : bytes → bytes → Argon2Params → result bytes string;
  Rng : Type;
  rng_fill : nat → Rng → Rng * result bytes string;
}.

Definition kind_nonce_len (k : AeadKind) : nat := match k with XChaCha20Poly1305 => 24 | AesGcmSiv256 => 12 end.

Class CryptoLaws `{!Crypto} : Prop := {
  raw_open_seal kind key nonce aad pt ct :
    raw_seal kind key nonce aad pt = Ok ct → raw_open kind key nonce aad ct = Ok pt;
  raw_seal_open kind key nonce aad pt ct :
    raw_open kind key nonce aad ct = Ok pt → raw_seal kind key nonce aad pt = Ok ct;
  raw_seal_length kind key nonce aad pt ct :
    raw_seal kind key nonce aad pt = Ok ct → length ct = length pt + 16;
  rng_fill_length n g g' b : rng_fill n g = (g', Ok b) → length b = n;
}.

(** Operations that draw random bytes. *)
Abbreviation R A := (Rng → Rng * crypt_result A).

Section Ciphers.
Context `{!Crypto}.

Definition r_ret {A} (r : crypt_result A) : R A := λ g, (g, r).

(** [new_rng()?] and [fill(..)?], both mapped to [RngFailed] *)
Definition r_fill (n : nat) : R bytes := λ g,
  let '(g, r) := rng_fill n g in (g, map_err (λ _, RngFailed) r).

Definition derive_cell_id (key_bytes : bytes) : bytes := blake3 key_bytes.

(** ** The [Aead] trait *)
Record Aead := {
  nonce_len : nat;
  tag_len : nat;
  aead_seal : bytes → bytes → bytes → bytes → crypt_result bytes;
  aead_open : bytes → bytes → bytes → bytes → crypt_result bytes;
}.

(** [nonce.try_into()], then the primitive; the sum of the text length and the tag
    length fits in a [usize]. *)
Definition kind_seal (kind : AeadKind) (n : nat) (key nonce aad pt : bytes) : crypt_result bytes :=
  if decide (length nonce = n) then map_err (λ _, AuthenticationFailed) (raw_seal kind key nonce aad pt)
  else Err (CiphertextTooShort n (length nonce)).

Definition kind_open (kind : AeadKind) (n : nat) (tag : nat) (key nonce aad ct : bytes) : crypt_result bytes :=
  if length ct <? tag then Err (CiphertextTooShort tag (length ct))
  else if decide (length nonce = n) then map_err (λ _, AuthenticationFailed) (raw_open kind key nonce aad ct)
  else Err (CiphertextTooShort n (length nonce)).

Definition XChaCha20Poly1305Aead : Aead := {|
  nonce_len := 24;
  tag_len := 16;
  aead_seal := kind_seal XChaCha20Poly1305 24;
  aead_open := kind_open XChaCha20Poly1305 24 16;
|}.

Definition AesGcmSiv256Aead : Aead := {|
  nonce_len := 12;
  tag_len := 16;
  aead_seal := kind_seal AesGcmSiv256 12;
  aead_open := kind_open AesGcmSiv256 12 16;
|}.

(** [impl Aead for AeadKind] *)
Definition aead_of (kind : AeadKind) : Aead :=
  match kind with
  | XChaCha20Poly1305 => XChaCha20Poly1305Aead
  | AesGcmSiv256 => AesGcmSiv256Aead
  end.

(** Nonce, then ciphertext and tag. *)
Definition encrypt_with_aead (a : Aead) (key aad pt : bytes) : R bytes :=
  let* nonce := r_fill (nonce_len a) in
  let* ct_with_tag := r_ret (aead_seal a key nonce aad pt) in
  r_ret (Ok (nonce ++ ct_with_tag)).

Definition decrypt_with_aead (a : Aead) (key aad wire : bytes) : crypt_result bytes :=
  let min_len := nonce_len a + tag_len a in
  if length wire <? min_len then Err (CiphertextTooShort min_len (length wire))
  else aead_open a key (take (nonce_len a) wire) aad (drop (nonce_len a) wire).

(** ** Key providers *)
Class KeyProvider (K : Type) := get_key : K → crypt_result bytes.

Definition key32 {K} `{!KeyProvider K} (k : K) : crypt_result bytes :=
  let? raw := get_key k in
  if decide (length raw = 32) then Ok raw else Err (InvalidKeyLength (length raw)).

Record StaticKey := { sk_bytes : bytes }.

#[global] Instance static_key_provider : KeyProvider StaticKey := λ k,
  if decide (length (sk_bytes k) = 32) then Ok (sk_bytes k) else Err (InvalidKeyLength (length (sk_bytes k))).

(** ** Cells *)
Record CellId := { table_id : Z; row_id : Z; col_id : Z }.

Definition to_aad_bytes (c : CellId) : bytes :=
  to_le_bytes 8 (table_id c) ++ to_le_bytes 8 (row_id c) ++ to_le_bytes 4 (col_id c).

Definition NONCE_LEN : nat := 24.
Definition TAG_LEN : nat := 16.
Definition MIN_CIPHERTEXT_LEN : nat := NONCE_LEN + TAG_LEN.

Definition encrypt_cell {K} `{!KeyProvider K} (k : K) (cell_id : CellId) (plaintext : bytes) : R bytes :=
  let* key := r_ret (key32 k) in
  let* nonce := r_fill NONCE_LEN in
  let* ct := r_ret (map_err (λ _, AuthenticationFailed)
                     (raw_seal XChaCha20Poly1305 key nonce (to_aad_bytes cell_id) plaintext)) in
  r_ret (Ok (nonce ++ ct)).

Definition decrypt_cell {K} `{!KeyProvider K} (k : K) (cell_id : CellId) (ciphertext : bytes)
    : crypt_result bytes :=
  if length ciphertext <? MIN_CIPHERTEXT_LEN
  then Err (CiphertextTooShort MIN_CIPHERTEXT_LEN (length ciphertext))
  else
    let? key := key32 k in
    map_err (λ _, AuthenticationFailed)
      (raw_open XChaCha20Poly1305 key (take NONCE_LEN ciphertext) (to_aad_bytes cell_id)
         (drop NONCE_LEN ciphertext)).
End Ciphers.

(** ** Hexadecimal keys of the OS keyring, on ASCII text *)
Definition hex_char (n : Z) : byte := if (n <? 10)%Z then Z_byte (48 + n) else Z_byte (87 + n).

Definition encode_hex (b : bytes) : bytes :=
  flat_map (λ x, [hex_char (Z.shiftr (byte_Z x) 4); hex_char (Z.land (byte_Z x) 15)]) b.

Definition hex_nibble (c : byte) : option Z :=
  let b := byte_Z c in
  if ((48 <=? b) && (b <=? 57))%Z then Some (b - 48)%Z
  else if ((97 <=? b) && (b <=? 102))%Z then Some (b - 97 + 10)%Z
  else if ((65 <=? b) && (b <=? 70))%Z then Some (b - 65 + 10)%Z
  else None.

Definition is_ascii_space (c : byte) : bool :=
  let b := byte_Z c in ((b =? 32) || ((9 <=? b) && (b <=? 13)))%Z.

Fixpoint trim_start (s : bytes) : bytes :=
  match s with
  | c :: rest => if is_ascii_space c then trim_start rest else s
  | [] => []
  end.

Definition trim (s : bytes) : bytes := reverse (trim_start (reverse (trim_start s))).

(** The loop over [chunks(2)]. *)
Fixpoint decode_hex_chunks (s : bytes) : option bytes :=
  match s with
  | hi :: lo :: rest =>
      hi ← hex_nibble hi; lo ← hex_nibble lo; out ← decode_hex_chunks rest;
      Some (Z_byte (Z.lor (Z.shiftl hi 4) lo) :: out)
  | _ => Some []
  end.

Definition decode_hex32 (s : bytes) : option bytes :=
  let s := trim s in
  if decide (length s = 64) then decode_hex_chunks s else None.

(** ** A concrete instance: the text in the clear with a constant tag *)
Definition toy_tag : bytes := replicate 16 x00.

Definition toy_open (ct : bytes) : result bytes string :=
  if decide (16 ≤ length ct ∧ drop (length ct - 16) ct = toy_tag) then Ok (take (length ct - 16) ct)
  else Err "tag mismatch"%string.

#[global] Instance toy_crypto : Crypto := {|
  raw_seal _ _ _ _ pt := Ok (pt ++ toy_tag);
  raw_open _ _ _ _ ct := toy_open ct;
  blake3 b := take 32 (b ++ replicate 32 x00);
  argon2id_derive p salt _ := Ok (take 32 (p ++ salt ++ replicate 32 x00));
  Rng := nat;
  rng_fill n g := (S g, Ok (replicate n (Z_byte (Z.of_nat g))));
|}.

#[global] Instance toy_crypto_laws : CryptoLaws.
Proof.
  split; simpl.
  - intros _ _ _ _ pt ct [= <-]. unfold toy_open. rewrite length_app. replace (length pt + length toy_tag - 16) with (length pt) by (simpl; lia).
    rewrite decide_True; [by rewrite take_app_length|]. split; [simpl; lia|]. by rewrite drop_app_length.
  - intros _ _ _ _ pt ct. unfold toy_open. case_decide as H; [|done]. intros [= <-]. f_equal.
    destruct H as [_ <-]. by rewrite take_drop.
  - intros _ _ _ _ pt ct [= <-]. rewrite length_app. done.
  - intros n g g' b [= <- <-]. apply length_replicate.
Qed.
