(* ===== verification/EncryptedKv.v ===== *)
(** * [EncryptedKv]: a store that encrypts its values

    The decorator of [decorator.rs], its transactions ([txn.rs]) and snapshots
    ([snapshot.rs]) over any store with the contract of [Core.v].  The state is the
    inner store, the key provider and the random generator.  The theorems say that
    the decorator has the contract itself, on the plaintexts, where every entry
    authenticates; its [contains] asks the inner store and decrypts nothing. *)

From S2P Require Import Prelude Bytes Core Encrypt.

(** ** Round trips of the ciphers *)
Section CipherTheory.
Context `{!Crypto, !CryptoLaws}.

Lemma aead_seal_spec kind key nonce aad pt ct :
  aead_seal (aead_of kind) key nonce aad pt = Ok ct →
  length nonce = nonce_len (aead_of kind) ∧ raw_seal kind key nonce aad pt = Ok ct.
Proof.
  destruct kind; simpl; unfold kind_seal; case_decide; [|done| |done];
    match goal with |- map_err _ ?r = _ → _ => destruct r end; simpl; intros; by simplify_eq.
Qed.

Lemma decrypt_encrypt kind key aad pt g g' wire :
  encrypt_with_aead (aead_of kind) key aad pt g = (g', Ok wire) →
  decrypt_with_aead (aead_of kind) key aad wire = Ok pt.
Proof.
  unfold encrypt_with_aead, st_bind, r_fill, r_ret. destruct (rng_fill _ g) as [g1 [nonce|]]; simpl; [|done].
  destruct (aead_seal (aead_of kind) key nonce aad pt) as [ct|] eqn:Es; [|done]. intros [= <- <-].
  apply aead_seal_spec in Es as [Hn Hs]. pose proof (raw_seal_length _ _ _ _ _ _ Hs) as Hl.
  unfold decrypt_with_aead. rewrite length_app, Hl.
  assert (tag_len (aead_of kind) = 16) as Ht by by destruct kind.
  rewrite Hn, Ht. destruct (Nat.ltb_spec (nonce_len (aead_of kind) + (length pt + 16)) (nonce_len (aead_of kind) + 16)); [lia|].
  rewrite <-Hn, take_app_length, drop_app_length.
  assert (aead_open (aead_of kind) key nonce aad ct = kind_open kind (nonce_len (aead_of kind)) 16 key nonce aad ct) as ->
    by by destruct kind.
  unfold kind_open. rewrite Hl. destruct (Nat.ltb_spec (length pt + 16) 16); [lia|].
  rewrite decide_True by done. by rewrite (raw_open_seal _ _ _ _ _ _ Hs).
Qed.

(** What decrypts was sealed with the same key and for the same additional data. *)
Lemma decrypt_authentic kind key aad wire pt :
  decrypt_with_aead (aead_of kind) key aad wire = Ok pt →
  ∃ nonce ct, wire = nonce ++ ct ∧ length nonce = kind_nonce_len kind ∧
    raw_seal kind key nonce aad pt = Ok ct.
Proof.
  unfold decrypt_with_aead. destruct (Nat.ltb_spec (length wire) (nonce_len (aead_of kind) + tag_len (aead_of kind))); [done|].
  intros Ho. exists (take (nonce_len (aead_of kind)) wire), (drop (nonce_len (aead_of kind)) wire).
  rewrite take_drop. split; [done|].
  assert (aead_open (aead_of kind) key (take (nonce_len (aead_of kind)) wire) aad (drop (nonce_len (aead_of kind)) wire) =
    kind_open kind (kind_nonce_len kind) 16 key (take (nonce_len (aead_of kind)) wire) aad (drop (nonce_len (aead_of kind)) wire)) as E
    by by destruct kind.
  rewrite E in Ho. unfold kind_open in Ho. case_match; [done|]. case_decide as Hn; [|done]. split; [done|].
  apply raw_seal_open. destruct (raw_open _ _ _ _ _); simpl in Ho; by simplify_eq.
Qed.

Lemma decrypt_encrypt_cell {K} `{!KeyProvider K} (k : K) cell pt g g' wire :
  encrypt_cell k cell pt g = (g', Ok wire) → decrypt_cell k cell wire = Ok pt.
Proof.
  unfold encrypt_cell, st_bind, r_ret, r_fill. destruct (key32 k) as [key|] eqn:Ek; [|done].
  destruct (rng_fill NONCE_LEN g) as [g1 [nonce|]] eqn:Er; simpl; [|done]. apply rng_fill_length in Er.
  destruct (raw_seal XChaCha20Poly1305 key nonce (to_aad_bytes cell) pt) as [ct|] eqn:Es; simpl; [|done].
  intros [= <- <-]. pose proof (raw_seal_length _ _ _ _ _ _ Es) as Hl. unfold decrypt_cell.
  rewrite length_app, Er, Hl. destruct (Nat.ltb_spec (NONCE_LEN + (length pt + 16)) MIN_CIPHERTEXT_LEN) as [Hlt|].
  { unfold MIN_CIPHERTEXT_LEN, TAG_LEN in Hlt. lia. }
  rewrite Ek, <-Er, take_app_length, drop_app_length. by rewrite (raw_open_seal _ _ _ _ _ _ Es).
Qed.
End CipherTheory.

(** ** Maps and scans of encoded values

    [dec k ct] is the value under the key [k] whose stored form is [ct]. *)
Section Decoding.
Context (dec : bytes → bytes → crypt_result bytes).

Definition decode_map (m : gmap bytes bytes) : gmap bytes bytes :=
  map_imap (λ k ct, match dec k ct with Ok pt => Some pt | Err _ => None end) m.

(** The loop of [range] and [iter], which stops at the first error. *)
Fixpoint decode_items (items : list RangeItem) : store_result (list RangeItem) :=
  match items with
  | [] => Ok []
  | item :: items =>
      let? (k, ct) := item in
      let? pt := to_store (dec k ct) in
      let? rest := decode_items items in
      Ok (Ok (k, pt) :: rest)
  end.

Lemma decode_map_lookup m k :
  decode_map m !! k = m !! k ≫= λ ct, match dec k ct with Ok pt => Some pt | Err _ => None end.
Proof. apply map_lookup_imap. Qed.

Lemma decode_map_insert m k ct pt :
  dec k ct = Ok pt → decode_map (<[k:=ct]> m) = <[k:=pt]> (decode_map m).
Proof. intros H. apply map_imap_insert_Some. by rewrite H. Qed.

Lemma decode_map_delete m k : decode_map (delete k m) = delete k (decode_map m).
Proof. apply map_imap_delete. Qed.

(** The map of stored forms [mi] is exactly that of the values [m]: nothing is missing on
    either side, and everything decrypts. *)
Definition sealed_by (mi m : gmap bytes bytes) : Prop := map_Forall2 (λ k ct pt, dec k ct = Ok pt) mi m.

Lemma sealed_by_empty : sealed_by ∅ ∅.
Proof. intros k. constructor. Qed.

Lemma sealed_by_insert mi m k ct pt : sealed_by mi m → dec k ct = Ok pt → sealed_by (<[k:=ct]> mi) (<[k:=pt]> m).
Proof. intros Hs Hd. by apply map_Forall2_insert_2. Qed.

Lemma sealed_by_delete mi m k : sealed_by mi m → sealed_by (delete k mi) (delete k m).
Proof. apply map_Forall2_delete. Qed.

Lemma sealed_by_lookup mi m k : sealed_by mi m →
  match mi !! k with Some ct => ∃ pt, dec k ct = Ok pt ∧ m !! k = Some pt | None => m !! k = None end.
Proof. intros Hs. specialize (Hs k). inversion Hs as [ct pt Hd|]; eauto. Qed.

Lemma sealed_by_decode mi m : sealed_by mi m → decode_map mi = m.
Proof.
  intros Hs. apply map_eq. intros k. rewrite decode_map_lookup. pose proof (sealed_by_lookup _ _ k Hs) as H.
  destruct (mi !! k) as [ct|]; simpl; [|done]. destruct H as (pt & -> & Hm). done.
Qed.

Lemma sealed_by_filter (P : bytes → bool) mi m :
  sealed_by mi m → sealed_by (filter (λ kv, P kv.1 = true) mi) (filter (λ kv, P kv.1 = true) m).
Proof.
  intros Hs k. rewrite !map_lookup_filter. specialize (Hs k). inversion Hs as [ct pt Hd|]; simpl; [|constructor].
  case_guard; simpl; by constructor.
Qed.

(** Membership needs no decryption. *)
Lemma sealed_by_member mi m k : sealed_by mi m → bool_decide (is_Some (mi !! k)) = bool_decide (is_Some (m !! k)).
Proof. intros Hs. specialize (Hs k). apply bool_decide_ext. inversion Hs; split; intros [? ?]; simplify_eq; by eexists. Qed.

(** A point read of the stored form, decrypted. *)
Lemma sealed_by_read mi m k o : sealed_by mi m → o = mi !! k →
  ∀ o', match o with None => Ok None | Some ct => let? pt := to_store (dec k ct) in Ok (Some pt) end = Ok o' → o' = m !! k.
Proof.
  intros Hs -> o'. pose proof (sealed_by_lookup _ _ k Hs) as Hk. destruct (mi !! k) as [ct|].
  - destruct Hk as (pt & -> & ->). simpl. congruence.
  - rewrite Hk. congruence.
Qed.

Definition decodes (x y : bytes * bytes) : Prop := y.1 = x.1 ∧ dec x.1 x.2 = Ok y.2.

Lemma decode_items_spec (l : list (bytes * bytes)) out :
  decode_items (map Ok l) = Ok out → ∃ l', out = map Ok l' ∧ Forall2 decodes l l'.
Proof.
  revert out. induction l as [|[k ct] l IH]; intros out; simpl; [intros [= <-]; by exists []|].
  destruct (dec k ct) as [pt|] eqn:Ed; simpl; [|done].
  destruct (decode_items (map Ok l)) as [rest|]; [|done]. intros [= <-].
  destruct (IH _ eq_refl) as (l' & -> & Hl'). exists ((k, pt) :: l'). split; [done|]. by constructor.
Qed.

Lemma sorted_fst {A} (l : list (bytes * A)) : StronglySorted kv_le l ↔ StronglySorted bytes_le l.*1.
Proof.
  induction l as [|x l IH]; csimpl; [split; constructor|]. split; intros [Hl Hx]%StronglySorted_inv; constructor;
    try (by apply IH).
  - by apply Forall_fmap.
  - exact (proj1 (Forall_fmap fst _ l) Hx).
Qed.

(** The decoded list is the scan of the decoded map. *)
Lemma decoded_iter (l l' : list (bytes * bytes)) (m : gmap bytes bytes) :
  l = btree_iter m → Forall2 decodes l l' → l' = btree_iter (decode_map m).
Proof.
  intros -> Hd. assert (l'.*1 = (btree_iter m).*1) as Hk.
  { induction Hd as [|x y l l' [Hxy _] _ IH]; csimpl; [done|]. by f_equal. }
  apply btree_iter_unique.
  - apply sorted_fst. rewrite Hk. apply sorted_fst, btree_iter_sorted.
  - rewrite Hk. apply btree_iter_NoDup.
  - intros k v. rewrite decode_map_lookup. split.
    + intros Hin. destruct (list_elem_of_lookup_1 _ _ Hin) as [i Hi].
      destruct (Forall2_lookup_r _ _ _ _ _ Hd Hi) as ([k' ct] & Hx & Hk' & Hdec). simpl in *. subst k'.
      apply list_elem_of_lookup_2, elem_of_btree_iter in Hx. rewrite Hx. simpl. by rewrite Hdec.
    + destruct (m !! k) as [ct|] eqn:Em; simpl; [|done]. apply elem_of_btree_iter, list_elem_of_lookup_1 in Em as [i Hi].
      destruct (Forall2_lookup_l _ _ _ _ _ Hd Hi) as ([k' v'] & Hy & Hk' & Hdec). simpl in *. subst k'.
      rewrite Hdec. intros [= <-]. by apply list_elem_of_lookup_2 in Hy.
Qed.

Lemma decode_map_filter (P : bytes → bool) m :
  decode_map (filter (λ kv, P kv.1 = true) m) = filter (λ kv, P kv.1 = true) (decode_map m).
Proof.
  apply map_eq. intros k. rewrite decode_map_lookup. apply option_eq. intros v.
  rewrite map_lookup_filter_Some, decode_map_lookup, map_lookup_filter. destruct (m !! k) as [ct|]; simpl; [|naive_solver].
  case_guard as HP; simpl; [naive_solver|]. naive_solver.
Qed.

Lemma btree_between_filter {A} (lo hi : bytes) (m : gmap bytes A) :
  btree_between lo hi m = btree_iter (filter (λ kv, in_range lo hi kv.1 = true) m).
Proof. apply btree_iter_filter. Qed.

Lemma decode_scan_iter m out :
  decode_items (map Ok (btree_iter m)) = Ok out → out = map Ok (btree_iter (decode_map m)).
Proof. intros (l' & -> & Hd)%decode_items_spec. f_equal. by eapply decoded_iter. Qed.

Lemma decode_scan_between lo hi m out :
  decode_items (map Ok (btree_between lo hi m)) = Ok out → out = map Ok (btree_between lo hi (decode_map m)).
Proof. rewrite !btree_between_filter, <-decode_map_filter. apply decode_scan_iter. Qed.

Lemma sealed_by_iter mi m out : sealed_by mi m → decode_items (map Ok (btree_iter mi)) = Ok out → out = map Ok (btree_iter m).
Proof. intros Hs H%decode_scan_iter. by rewrite <-(sealed_by_decode _ _ Hs). Qed.

Lemma sealed_by_between lo hi mi m out :
  sealed_by mi m → decode_items (map Ok (btree_between lo hi mi)) = Ok out → out = map Ok (btree_between lo hi m).
Proof. intros Hs H%decode_scan_between. by rewrite <-(sealed_by_decode _ _ Hs). Qed.
End Decoding.

(** ** The decorator *)
Section Decorator.
Context `{!Crypto} {S K : Type} `{!KvStore S} `{!KeyProvider K}.

Record EncryptedKv (a : Aead) := { ek_inner : S; ek_key : K; ek_rng : Rng }.
#[global] Arguments ek_inner {_} _.
#[global] Arguments ek_key {_} _.
#[global] Arguments ek_rng {_} _.

Section Ops.
Context {a : Aead}.
Implicit Types s : EncryptedKv a.

Definition ek_set_inner (i : S) s : EncryptedKv a := {| ek_inner := i; ek_key := ek_key s; ek_rng := ek_rng s |}.

Definition encrypt_value (aad plaintext : bytes) s : R bytes :=
  let* key := r_ret (key32 (ek_key s)) in
  encrypt_with_aead a key aad plaintext.

Definition decrypt_value (aad ciphertext : bytes) s : crypt_result bytes :=
  let? key := key32 (ek_key s) in
  decrypt_with_aead a key aad ciphertext.

Definition ek_get (now : Z) (key : bytes) s : EncryptedKv a * store_result (option bytes) :=
  let aad := derive_cell_id key in
  match kv_get now key (ek_inner s) with
  | (i, Err e) => (ek_set_inner i s, Err e)
  | (i, Ok None) => (ek_set_inner i s, Ok None)
  | (i, Ok (Some ct)) =>
      (ek_set_inner i s, let? pt := to_store (decrypt_value aad ct s) in Ok (Some pt))
  end.

Definition ek_put (key value : bytes) s : EncryptedKv a * store_result unit :=
  let aad := derive_cell_id key in
  match encrypt_value aad value s (ek_rng s) with
  | (g, Err e) => ({| ek_inner := ek_inner s; ek_key := ek_key s; ek_rng := g |}, Err (store_error_from e))
  | (g, Ok ct) =>
      let '(i, r) := kv_put key ct (ek_inner s) in
      ({| ek_inner := i; ek_key := ek_key s; ek_rng := g |}, r)
  end.

Definition ek_delete (key : bytes) s : EncryptedKv a * store_result unit :=
  let '(i, r) := kv_delete key (ek_inner s) in (ek_set_inner i s, r).

(** [contains] asks the inner store: no decryption. *)
Definition ek_contains (now : Z) (key : bytes) s : EncryptedKv a * store_result bool :=
  let '(i, r) := kv_contains now key (ek_inner s) in (ek_set_inner i s, r).

Definition ek_range (now : Z) (lo hi : bytes) s : store_result (list RangeItem) :=
  let? key_bytes := to_store (key32 (ek_key s)) in
  let? raw_items := kv_range now lo hi (ek_inner s) in
  decode_items (λ k ct, decrypt_with_aead a key_bytes (derive_cell_id k) ct) raw_items.

Definition ek_iter (now : Z) s : store_result (list RangeItem) :=
  let? key_bytes := to_store (key32 (ek_key s)) in
  let? raw_items := kv_iter now (ek_inner s) in
  decode_items (λ k ct, decrypt_with_aead a key_bytes (derive_cell_id k) ct) raw_items.

(** [put_cell] and [get_cell] *)
Definition ek_put_cell (key : bytes) (cell_id : CellId) (value : bytes) s : EncryptedKv a * crypt_result unit :=
  match encrypt_cell (ek_key s) cell_id value (ek_rng s) with
  | (g, Err e) => ({| ek_inner := ek_inner s; ek_key := ek_key s; ek_rng := g |}, Err e)
  | (g, Ok ct) =>
      let '(i, r) := kv_put key ct (ek_inner s) in
      ({| ek_inner := i; ek_key := ek_key s; ek_rng := g |}, map_err encrypt_error_from r)
  end.

Definition ek_get_cell (now : Z) (key : bytes) (cell_id : CellId) s : EncryptedKv a * crypt_result (option bytes) :=
  match kv_get now key (ek_inner s) with
  | (i, Err e) => (ek_set_inner i s, Err (encrypt_error_from e))
  | (i, Ok None) => (ek_set_inner i s, Ok None)
  | (i, Ok (Some ct)) =>
      (ek_set_inner i s, let? pt := decrypt_cell (ek_key s) cell_id ct in Ok (Some pt))
  end.
End Ops.

(** ** [EncryptedTxn] *)
Record EncryptedTxn := { et_inner : kv_Txn (S := S); et_key : bytes; et_aead : AeadKind; et_rng : Rng }.

Definition et_set_inner (i : kv_Txn) (t : EncryptedTxn) : EncryptedTxn :=
  {| et_inner := i; et_key := et_key t; et_aead := et_aead t; et_rng := et_rng t |}.

(** The transaction carries one of the two built-in ciphers, chosen by the length of
    the nonce. *)
Definition ek_kind (a : Aead) : AeadKind := if nonce_len a =? 12 then AesGcmSiv256 else XChaCha20Poly1305.

Definition ek_transaction {a} (s : EncryptedKv a) : store_result EncryptedTxn :=
  let? inner_txn := kv_transaction (ek_inner s) in
  let? key := to_store (key32 (ek_key s)) in
  Ok {| et_inner := inner_txn; et_key := key; et_aead := ek_kind a; et_rng := ek_rng s |}.

Definition et_get (now : Z) (key : bytes) (t : EncryptedTxn) : EncryptedTxn * store_result (option bytes) :=
  let aad := derive_cell_id key in
  match txn_get now key (et_inner t) with
  | (i, Err e) => (et_set_inner i t, Err e)
  | (i, Ok None) => (et_set_inner i t, Ok None)
  | (i, Ok (Some ct)) =>
      (et_set_inner i t,
       let? pt := to_store (decrypt_with_aead (aead_of (et_aead t)) (et_key t) aad ct) in Ok (Some pt))
  end.

Definition et_put (key value : bytes) (t : EncryptedTxn) : EncryptedTxn * store_result unit :=
  let aad := derive_cell_id key in
  match encrypt_with_aead (aead_of (et_aead t)) (et_key t) aad value (et_rng t) with
  | (g, Err e) =>
      ({| et_inner := et_inner t; et_key := et_key t; et_aead := et_aead t; et_rng := g |}, Err (store_error_from e))
  | (g, Ok ct) =>
      let '(i, r) := txn_put key ct (et_inner t) in
      ({| et_inner := i; et_key := et_key t; et_aead := et_aead t; et_rng := g |}, r)
  end.

Definition et_delete (key : bytes) (t : EncryptedTxn) : EncryptedTxn * store_result unit :=
  let '(i, r) := txn_delete key (et_inner t) in (et_set_inner i t, r).

Definition et_commit {a} (t : EncryptedTxn) (s : EncryptedKv a) : EncryptedKv a * store_result unit :=
  let '(i, r) := txn_commit (et_inner t) (ek_inner s) in
  ({| ek_inner := i; ek_key := ek_key s; ek_rng := et_rng t |}, r).

Definition et_rollback {a} (t : EncryptedTxn) (s : EncryptedKv a) : EncryptedKv a * store_result unit :=
  let '(i, r) := txn_rollback (et_inner t) (ek_inner s) in
  ({| ek_inner := i; ek_key := ek_key s; ek_rng := et_rng t |}, r).

#[global] Instance ek_kv (a : Aead) : KvStore (EncryptedKv a) := {|
  kv_get := ek_get;
  kv_put := ek_put;
  kv_delete := ek_delete;
  kv_contains := ek_contains;
  kv_range := ek_range;
  kv_iter := ek_iter;
  kv_Txn := EncryptedTxn;
  kv_transaction := ek_transaction;
  txn_get := et_get;
  txn_put := et_put;
  txn_delete := et_delete;
  txn_commit := et_commit;
  txn_rollback := et_rollback;
|}.

(** ** [EncryptedSnapshot] *)
Section Snapshot.
Context {P : Type} `{!KvSnapshot P}.

Record EncryptedSnapshot := { es_inner : P; es_key : bytes; es_aead : AeadKind }.

Definition es_get (key : bytes) (p : EncryptedSnapshot) : store_result (option bytes) :=
  let aad := derive_cell_id key in
  let? o := snap_get key (es_inner p) in
  match o with
  | None => Ok None
  | Some ct =>
      let? pt := to_store (decrypt_with_aead (aead_of (es_aead p)) (es_key p) aad ct) in Ok (Some pt)
  end.

Definition es_range (lo hi : bytes) (p : EncryptedSnapshot) : store_result (list RangeItem) :=
  let? raw_items := snap_range lo hi (es_inner p) in
  decode_items (λ k ct, decrypt_with_aead (aead_of (es_aead p)) (es_key p) (derive_cell_id k) ct) raw_items.

#[global] Instance es_snap : KvSnapshot EncryptedSnapshot := {| snap_get := es_get; snap_range := es_range |}.
End Snapshot.
End Decorator.

#[global] Arguments EncryptedKv {_} S K a.
#[global] Arguments EncryptedTxn {_} S {_}.
#[global] Arguments EncryptedSnapshot P : clear implicits.
