(* ===== verification/EncryptedProps.v ===== *)
(** * Correctness of [EncryptedKv]

    The decorator, its transactions and its snapshots have the contract of [Core.v]
    whenever the wrapped store has it: the visible entries are the plaintexts of the
    entries of the wrapped store that authenticate under their own key. *)

From S2P Require Import Prelude Bytes Core KvHistory Encrypt EncryptedKv.

(** ** The contract on plaintexts *)
Section Laws.
Context `{CR : !Crypto, CL : !CryptoLaws} {S K : Type} `{KS : !KvStore S, KV : !KvView S, SL : !KvLaws S, KP : !KeyProvider K}.
Context (kind : AeadKind).
Abbreviation Enc := (EncryptedKv S K (aead_of kind)).
Implicit Types (s : Enc).

(** What a stored value stands for under a key provider, and under a key. *)
Definition open_with (key : bytes) (k ct : bytes) : crypt_result bytes :=
  decrypt_with_aead (aead_of kind) key (derive_cell_id k) ct.
Definition open_for (p : K) (k ct : bytes) : crypt_result bytes := let? key := key32 p in open_with key k ct.

#[export] Instance ek_view : KvView Enc := {|
  kv_view now s := decode_map (open_for (ek_key s)) (kv_view now (ek_inner s));
  txn_view now t := decode_map (open_with (et_key t)) (txn_view now (et_inner t));
  txn_base t s := txn_base (et_inner t) (ek_inner s) ∧ key32 (ek_key s) = Ok (et_key t) ∧ et_aead t = kind;
|}.

Lemma open_for_key p key : key32 p = Ok key → open_for p = open_with key.
Proof. intros H. unfold open_for. by rewrite H. Qed.

Lemma ek_kind_of : ek_kind (aead_of kind) = kind.
Proof. by destruct kind. Qed.

Lemma ek_get_law now k s s' r : ek_get now k s = (s', Ok r) → r = kv_view now s !! k.
Proof.
  unfold ek_get. destruct (kv_get now k (ek_inner s)) as [i [[ct|]|e]] eqn:Eg; [| |done];
    pose proof (kv_get_law _ _ _ _ _ Eg) as Hv; simpl; rewrite decode_map_lookup, <-Hv; simpl; [|congruence].
  unfold decrypt_value, open_for, open_with. destruct (key32 (ek_key s)); simpl; [|done].
  destruct (decrypt_with_aead _ _ _ _); simpl; congruence.
Qed.

Lemma ek_get_inner now k s s' r : ek_get now k s = (s', r) →
  s' = ek_set_inner (kv_get now k (ek_inner s)).1 s.
Proof. unfold ek_get. destruct (kv_get now k (ek_inner s)) as [i [[ct|]|e]]; simpl; congruence. Qed.

Lemma ek_put_law k v s s' r : ek_put k v s = (s', r) →
  ∀ now, kv_view now s' = match r with Ok _ => <[k:=v]> (kv_view now s) | Err _ => kv_view now s end.
Proof.
  unfold ek_put, encrypt_value, st_bind, r_ret. intros H now. destruct (key32 (ek_key s)) as [key|] eqn:Ek; [|by simplify_eq/=].
  destruct (encrypt_with_aead _ _ _ _ _) as [g [ct|]] eqn:Ee; [|by simplify_eq/=].
  destruct (kv_put k ct (ek_inner s)) as [i [[]|]] eqn:Ep; simplify_eq/=.
  - rewrite (kv_put_law _ _ _ _ now Ep). apply decode_map_insert. rewrite (open_for_key _ key) by done.
    by apply decrypt_encrypt in Ee.
  - by rewrite (kv_put_err _ _ _ _ _ now Ep).
Qed.

Lemma ek_delete_law k s s' r : ek_delete k s = (s', r) →
  ∀ now, kv_view now s' = match r with Ok _ => delete k (kv_view now s) | Err _ => kv_view now s end.
Proof.
  unfold ek_delete. intros H now. destruct (kv_delete k (ek_inner s)) as [i [[]|]] eqn:Ed; simplify_eq/=.
  - by rewrite (kv_delete_law _ _ _ now Ed), decode_map_delete.
  - by rewrite (kv_delete_err _ _ _ _ now Ed).
Qed.

Lemma ek_scan_laws now s :
  (∀ lo hi l, ek_range now lo hi s = Ok l → l = map Ok (btree_between lo hi (kv_view now s))) ∧
  (∀ l, ek_iter now s = Ok l → l = map Ok (btree_iter (kv_view now s))).
Proof.
  unfold ek_range, ek_iter. simpl. destruct (key32 (ek_key s)) as [key|] eqn:Ek; [|done].
  rewrite (open_for_key _ key) by done. simpl. split.
  - intros lo hi l. destruct (kv_range now lo hi (ek_inner s)) as [items|] eqn:Er; [|done].
    apply kv_range_law in Er as ->. apply decode_scan_between.
  - intros l. destruct (kv_iter now (ek_inner s)) as [items|] eqn:Er; [|done].
    apply kv_iter_law in Er as ->. apply decode_scan_iter.
Qed.

Lemma ek_transaction_law s (t : EncryptedTxn S) : ek_transaction s = Ok t → txn_base (S := Enc) t s ∧ ∀ now, txn_view (S := Enc) now t = kv_view now s.
Proof.
  unfold ek_transaction. destruct (kv_transaction (ek_inner s)) as [i|] eqn:Et; [|done].
  destruct (key32 (ek_key s)) as [key|] eqn:Ek; simpl; [|done]. intros [= <-]. simpl.
  destruct (kv_transaction_law _ _ Et) as [Hb Hv]. rewrite ek_kind_of. split; [done|].
  intros now. by rewrite Hv, (open_for_key _ key).
Qed.

Lemma et_get_law now k (t t' : EncryptedTxn S) r s : et_get now k t = (t', r) → txn_base (S := Enc) t s →
  txn_base (S := Enc) t' s ∧ (∀ now', txn_view (S := Enc) now' t' = txn_view (S := Enc) now' t) ∧
  (∀ o, r = Ok o → o = txn_view (S := Enc) now t !! k).
Proof.
  unfold et_get. intros H (Hb & Hk & Ha). rewrite Ha in H. destruct (txn_get now k (et_inner t)) as [i [[ct|]|e]] eqn:Eg; simplify_eq/=;
    destruct (txn_get_law _ _ _ _ _ _ Eg Hb) as (Hb' & Hv & Ho); rewrite decode_map_lookup, <-?(Ho _ eq_refl); simpl;
    (split_and!; [done|done|done|intros now'; by rewrite Hv|]); try (by intros o [= <-]).
  intros o. unfold open_with. destruct (decrypt_with_aead _ _ _ _); simpl; congruence.
Qed.

Lemma et_put_law k v (t t' : EncryptedTxn S) s : et_put k v t = (t', Ok ()) → txn_base (S := Enc) t s →
  txn_base (S := Enc) t' s ∧ ∀ now, txn_view (S := Enc) now t' = <[k:=v]> (txn_view (S := Enc) now t).
Proof.
  unfold et_put. intros H (Hb & Hk & Ha). rewrite Ha in H. destruct (encrypt_with_aead _ _ _ _ _) as [g [ct|]] eqn:Ee; [|done].
  destruct (txn_put k ct (et_inner t)) as [i [[]|]] eqn:Ep; simplify_eq/=.
  destruct (txn_put_law _ _ _ _ _ Ep Hb) as [Hb' Hv]. split; [done|]. intros now. rewrite Hv.
  apply decode_map_insert. unfold open_with. by apply decrypt_encrypt in Ee.
Qed.

Lemma et_delete_law k (t t' : EncryptedTxn S) s : et_delete k t = (t', Ok ()) → txn_base (S := Enc) t s →
  txn_base (S := Enc) t' s ∧ ∀ now, txn_view (S := Enc) now t' = delete k (txn_view (S := Enc) now t).
Proof.
  unfold et_delete. intros H (Hb & Hk & Ha). destruct (txn_delete k (et_inner t)) as [i [[]|]] eqn:Ep; simplify_eq/=.
  destruct (txn_delete_law _ _ _ _ Ep Hb) as [Hb' Hv]. split; [done|]. intros now. by rewrite Hv, decode_map_delete.
Qed.

#[export] Instance ek_laws : KvLaws Enc.
Proof.
  split.
  - apply ek_get_law.
  - intros now k s s' r u H Hu. apply ek_get_inner in H as ->. simpl.
    destruct (kv_get now k (ek_inner s)) as [i r'] eqn:Eg. simpl. by rewrite (kv_get_view _ _ _ _ _ _ Eg Hu).
  - intros k v s s' u H. exact (ek_put_law _ _ _ _ _ H u).
  - intros k v s s' e u H. exact (ek_put_law _ _ _ _ _ H u).
  - intros k s s' u H. exact (ek_delete_law _ _ _ _ H u).
  - intros k s s' e u H. exact (ek_delete_law _ _ _ _ H u).
  - intros now lo hi s. apply ek_scan_laws.
  - intros now s. apply ek_scan_laws.
  - apply ek_transaction_law.
  - apply et_get_law.
  - apply et_put_law.
  - apply et_delete_law.
  - simpl. unfold et_commit. intros t s s' now H (Hb & Hk & _). destruct (txn_commit (et_inner t) (ek_inner s)) as [i r] eqn:Ec.
    simplify_eq/=. by rewrite (txn_commit_law _ _ _ now Ec Hb), (open_for_key _ (et_key t)).
  - simpl. unfold et_commit. intros t s s' e now H. destruct (txn_commit (et_inner t) (ek_inner s)) as [i r] eqn:Ec.
    simplify_eq/=. by rewrite (txn_commit_err _ _ _ _ now Ec).
  - simpl. unfold et_rollback. intros t s s' r now H. destruct (txn_rollback (et_inner t) (ek_inner s)) as [i r'] eqn:Ec.
    simplify_eq/=. by rewrite (txn_rollback_law _ _ _ _ now Ec).
Qed.

(** ** Reads of sound entries succeed *)

(** Every stored entry authenticates under its own key. *)
Definition ek_intact (now : Z) s : Prop :=
  is_Ok (key32 (ek_key s)) ∧ map_Forall (λ k ct, is_Ok (open_for (ek_key s) k ct)) (kv_view now (ek_inner s)).

Lemma decode_items_total (dec : bytes → bytes → crypt_result bytes) (l : list (bytes * bytes)) :
  Forall (λ kv, is_Ok (dec kv.1 kv.2)) l → is_Ok (decode_items dec (map Ok l)).
Proof.
  induction 1 as [|[k ct] l [pt Hd] _ [out IH]]; simpl in *; [by eexists|]. rewrite Hd. simpl.
  rewrite IH. by eexists.
Qed.

Lemma intact_forall (P : bytes → bytes → Prop) (m : gmap bytes bytes) l :
  map_Forall P m → (∀ k v, (k, v) ∈ l → m !! k = Some v) → Forall (λ kv, P kv.1 kv.2) l.
Proof. intros Hm Hl. apply Forall_forall. intros [k v] Hin. by apply Hm, Hl. Qed.

Lemma ek_intact_range now lo hi s :
  ek_intact now s → is_Ok (kv_range now lo hi (ek_inner s)) → is_Ok (ek_range now lo hi s).
Proof.
  intros [[key Hk] Hi] [l Hl]. unfold ek_range. rewrite Hk, Hl. simpl. apply kv_range_law in Hl as ->.
  rewrite (open_for_key _ key Hk) in Hi. apply decode_items_total, (intact_forall _ _ _ Hi).
  intros k v Hin. by apply elem_of_btree_between in Hin as [? _].
Qed.

Lemma ek_intact_iter now s : ek_intact now s → is_Ok (kv_iter now (ek_inner s)) → is_Ok (ek_iter now s).
Proof.
  intros [[key Hk] Hi] [l Hl]. unfold ek_iter. rewrite Hk, Hl. simpl. apply kv_iter_law in Hl as ->.
  rewrite (open_for_key _ key Hk) in Hi. apply decode_items_total, (intact_forall _ _ _ Hi).
  intros k v. by rewrite elem_of_btree_iter.
Qed.

Lemma ek_intact_get now k s :
  ek_intact now s → is_Ok (kv_get now k (ek_inner s)).2 → is_Ok (ek_get now k s).2.
Proof.
  intros [[key Hk] Hi] [o Ho]. unfold ek_get. destruct (kv_get now k (ek_inner s)) as [i r] eqn:Eg. simpl in Ho. subst r.
  pose proof (kv_get_law _ _ _ _ _ Eg) as Hv. destruct o as [ct|]; [|by eexists].
  destruct (Hi _ _ (eq_sym Hv)) as [pt Hp]. unfold open_for, open_with in Hp. unfold decrypt_value. simpl.
  rewrite Hk in *. rewrite Hp. by eexists.
Qed.

Lemma ek_put_inner k v s : ∃ i g, (ek_put k v s).1 = {| ek_inner := i; ek_key := ek_key s; ek_rng := g |} ∧
  ∀ now, kv_view now i = kv_view now (ek_inner s) ∨
    ∃ ct, kv_view now i = <[k:=ct]> (kv_view now (ek_inner s)) ∧ open_for (ek_key s) k ct = Ok v.
Proof.
  unfold ek_put, encrypt_value, st_bind, r_ret. destruct (key32 (ek_key s)) as [key|] eqn:Ek; [|by eauto 6].
  destruct (encrypt_with_aead _ _ _ _ _) as [g [ct|]] eqn:Ee; [|by eauto 6].
  destruct (kv_put k ct (ek_inner s)) as [i [[]|]] eqn:Ep; simpl; exists i, g; (split; [done|]); intros now.
  - right. exists ct. rewrite (kv_put_law _ _ _ _ now Ep), (open_for_key _ key) by done. split; [done|].
    by apply decrypt_encrypt in Ee.
  - left. by rewrite (kv_put_err _ _ _ _ _ now Ep).
Qed.

Lemma ek_intact_put now k v s : ek_intact now s → ek_intact now (ek_put k v s).1.
Proof.
  intros [Hk Hi]. destruct (ek_put_inner k v s) as (i & g & -> & H). split; [done|]. simpl.
  destruct (H now) as [->|(ct & -> & Hct)]; [done|]. apply map_Forall_insert_2; [by eexists|done].
Qed.

Lemma ek_intact_delete now k s : ek_intact now s → ek_intact now (ek_delete k s).1.
Proof.
  intros [Hk Hi]. unfold ek_delete. destruct (kv_delete k (ek_inner s)) as [i [[]|]] eqn:Ed; (split; [done|]); simpl.
  - rewrite (kv_delete_law _ _ _ now Ed). by apply map_Forall_delete.
  - by rewrite (kv_delete_err _ _ _ _ now Ed).
Qed.

(** ** Theorems *)

(** Encryption adds no failure of its own to reads: as long as every stored
    value was sealed for its key, a read fails only if the wrapped store fails; and a
    write through the decorator keeps it that way, whether it succeeds or not. *)
Theorem encrypted_reads_total now s :
  ek_intact now s →
  (∀ k, is_Ok (kv_get now k (ek_inner s)).2 → is_Ok (ek_get now k s).2) ∧
  (∀ lo hi, is_Ok (kv_range now lo hi (ek_inner s)) → is_Ok (ek_range now lo hi s)) ∧
  (is_Ok (kv_iter now (ek_inner s)) → is_Ok (ek_iter now s)) ∧
  (∀ k v, ek_intact now (ek_put k v s).1) ∧ (∀ k, ek_intact now (ek_delete k s).1).
Proof.
  intros Hi. split_and!.
  - intros k. by apply ek_intact_get.
  - intros lo hi. by apply ek_intact_range.
  - by apply ek_intact_iter.
  - intros k v. by apply ek_intact_put.
  - intros k. by apply ek_intact_delete.
Qed.

(** A value read from an encrypted store was sealed under the current key for
    the very key it is read at: a ciphertext moved to another key, or altered, or
    sealed under another key, is never returned as a value.  The additional data that
    binds it is the BLAKE3 hash of the key. *)
Theorem encrypted_get_authentic now k s s' v :
  ek_get now k s = (s', Ok (Some v)) →
  ∃ key nonce ct, key32 (ek_key s) = Ok key ∧ kv_view now (ek_inner s) !! k = Some (nonce ++ ct) ∧
    length nonce = kind_nonce_len kind ∧ raw_seal kind key nonce (blake3 k) v = Ok ct.
Proof.
  intros H%ek_get_law. simpl in H. rewrite decode_map_lookup in H.
  destruct (kv_view now (ek_inner s) !! k) as [w|] eqn:Ew; [|done]. simpl in H. unfold open_for in H.
  destruct (key32 (ek_key s)) as [key|]; [|done]. unfold open_with in H.
  destruct (decrypt_with_aead _ _ _ _) as [pt|] eqn:Ed; [|done]. injection H as <-.
  destruct (decrypt_authentic _ _ _ _ _ Ed) as (nonce & ct & -> & Hn & Hs). by exists key, nonce, ct.
Qed.
End Laws.

(** ** Histories

    [contains] asks the wrapped store and decrypts nothing, so the map that a history sees is
    exact only while every stored value decrypts: the relation below says so, and every call
    of the decorator keeps it. *)
Section Sim.
Context `{CR : !Crypto, CL : !CryptoLaws} {S K : Type} `{KS : !KvStore S, KP : !KeyProvider K} (kind : AeadKind).
Context {irel : Z → S → gmap bytes bytes → Prop} {itrel : Z → kv_Txn (S := S) → S → gmap bytes bytes → Prop}.
Context (inner : KvSim irel itrel).
Abbreviation Enc := (EncryptedKv S K (aead_of kind)).
Implicit Types (s : Enc) (t : EncryptedTxn S) (m mi : gmap bytes bytes).

(** The stored values are those of [m] under the provider [p]; for a transaction, under the
    key it carries, which is that of the store. *)
Definition ek_rel (p : K) (now : Z) s m : Prop :=
  ek_key s = p ∧ ∃ mi, irel now (ek_inner s) mi ∧ sealed_by (open_for kind p) mi m.

Definition ek_trel (p : K) (now : Z) t s m : Prop :=
  key32 p = Ok (et_key t) ∧ et_aead t = kind ∧
  ∃ mi, itrel now (et_inner t) (ek_inner s) mi ∧ sealed_by (open_with kind (et_key t)) mi m.

Context (p : K).

Lemma ek_rel_set now s m mi i : ek_key s = p → irel now i mi → sealed_by (open_for kind p) mi m → ek_rel p now (ek_set_inner i s) m.
Proof. intros. by split; [|exists mi]. Qed.

Lemma ek_sim_get now k s s' r m : ek_rel p now s m → ek_get now k s = (s', r) →
  ek_rel p now s' m ∧ ∀ o, r = Ok o → o = m !! k.
Proof.
  intros (Hk & mi & Hi & Hs). unfold ek_get, decrypt_value. destruct (kv_get now k (ek_inner s)) as [i r'] eqn:Eg.
  destruct (sim_get _ _ inner _ _ _ _ _ _ Hi Eg) as [Hi' Ho]. pose proof (ek_rel_set now s m mi i Hk Hi' Hs).
  destruct r' as [o|e]; [|by intros [= <- <-]]. pose proof (sealed_by_read _ _ _ k o Hs (Ho o eq_refl)) as Hr. rewrite Hk.
  destruct o; intros [= <- <-]; split; [done|done|done|]. intros o' [= <-]. by apply Hr.
Qed.

Lemma ek_sim_put now k v s s' r m : ek_rel p now s m → ek_put k v s = (s', r) →
  ek_rel p now s' (match r with Ok _ => <[k:=v]> m | Err _ => m end).
Proof.
  intros (Hk & mi & Hi & Hs). unfold ek_put, encrypt_value, st_bind, r_ret. rewrite Hk.
  destruct (key32 p) as [key|] eqn:Ek; [|intros [= <- <-]; by split; [|exists mi]].
  destruct (encrypt_with_aead _ _ _ _ _) as [g [ct|]] eqn:Ee; [|intros [= <- <-]; by split; [|exists mi]].
  destruct (kv_put k ct (ek_inner s)) as [i r'] eqn:Ep. pose proof (sim_put _ _ inner _ _ _ _ _ _ _ Hi Ep) as Hi'.
  intros [= <- <-]. split; [done|]. destruct r' as [[]|e]; simpl; [|by exists mi].
  exists (<[k:=ct]> mi). split; [done|]. apply sealed_by_insert; [done|]. rewrite (open_for_key _ _ key) by done.
  by apply decrypt_encrypt in Ee.
Qed.

Lemma ek_sim_delete now k s s' r m : ek_rel p now s m → ek_delete k s = (s', r) →
  ek_rel p now s' (match r with Ok _ => delete k m | Err _ => m end).
Proof.
  intros (Hk & mi & Hi & Hs). unfold ek_delete. destruct (kv_delete k (ek_inner s)) as [i r'] eqn:Ed.
  pose proof (sim_delete _ _ inner _ _ _ _ _ _ Hi Ed) as Hi'. intros [= <- <-].
  destruct r' as [[]|e]; simpl; (eapply ek_rel_set; [done|done|]); [by apply sealed_by_delete|done].
Qed.

Lemma ek_sim_contains now k s s' r m : ek_rel p now s m → ek_contains now k s = (s', r) →
  ek_rel p now s' m ∧ ∀ b, r = Ok b → b = bool_decide (is_Some (m !! k)).
Proof.
  intros (Hk & mi & Hi & Hs). unfold ek_contains. destruct (kv_contains now k (ek_inner s)) as [i r'] eqn:Ec.
  destruct (sim_contains _ _ inner _ _ _ _ _ _ Hi Ec) as [Hi' Hb]. intros [= <- <-].
  split; [by eapply ek_rel_set|]. intros b Hr. by rewrite (Hb b Hr), (sealed_by_member _ _ _ _ Hs).
Qed.

Lemma ek_sim_txn_get now k t t' r s m : ek_trel p now t s m → et_get now k t = (t', r) →
  ek_trel p now t' s m ∧ ∀ o, r = Ok o → o = m !! k.
Proof.
  intros (Hk & Ha & mi & Hi & Hs). unfold et_get. rewrite Ha. destruct (txn_get now k (et_inner t)) as [i r'] eqn:Eg.
  destruct (sim_txn_get _ _ inner _ _ _ _ _ _ _ Hi Eg) as [Hi' Ho].
  assert (ek_trel p now (et_set_inner i t) s m) by (by split_and!; [..|exists mi]).
  destruct r' as [o|e]; [|by intros [= <- <-]]. pose proof (sealed_by_read _ _ _ k o Hs (Ho o eq_refl)) as Hr.
  destruct o; intros [= <- <-]; split; [done|done|done|]. intros o' [= <-]. by apply Hr.
Qed.

Lemma ek_sim_txn_put now k v t t' s m : ek_trel p now t s m → et_put k v t = (t', Ok ()) → ek_trel p now t' s (<[k:=v]> m).
Proof.
  intros (Hk & Ha & mi & Hi & Hs). unfold et_put. rewrite Ha. destruct (encrypt_with_aead _ _ _ _ _) as [g [ct|]] eqn:Ee; [|done].
  destruct (txn_put k ct (et_inner t)) as [i r'] eqn:Ep. intros [= <- ->].
  pose proof (sim_txn_put _ _ inner _ _ _ _ _ _ _ Hi Ep) as Hi'. split_and!; [done|done|].
  exists (<[k:=ct]> mi). split; [done|]. apply sealed_by_insert; [done|]. unfold open_with. by apply decrypt_encrypt in Ee.
Qed.

Lemma ek_sim_txn_delete now k t t' s m : ek_trel p now t s m → et_delete k t = (t', Ok ()) → ek_trel p now t' s (delete k m).
Proof.
  intros (Hk & Ha & mi & Hi & Hs). unfold et_delete. destruct (txn_delete k (et_inner t)) as [i r'] eqn:Ed. intros [= <- ->].
  pose proof (sim_txn_delete _ _ inner _ _ _ _ _ _ Hi Ed) as Hi'. split_and!; [done|done|].
  exists (delete k mi). split; [done|]. by apply sealed_by_delete.
Qed.

Lemma ek_sim_commit now t s s' r m m' : ek_rel p now s m → ek_trel p now t s m' → et_commit t s = (s', r) →
  ek_rel p now s' (match r with Ok _ => m' | Err _ => m end).
Proof.
  intros (Hk & mi & Hi & Hs) (Hkt & _ & mi' & Hi' & Hs'). unfold et_commit.
  destruct (txn_commit (et_inner t) (ek_inner s)) as [i r'] eqn:Ec.
  pose proof (sim_commit _ _ inner _ _ _ _ _ _ _ Hi Hi' Ec) as Hi''. intros [= <- <-]. split; [done|].
  destruct r' as [[]|e]; simpl; [exists mi'|by exists mi]. by rewrite (open_for_key _ _ _ Hkt).
Qed.

Lemma ek_sim : KvSim (S := Enc) (ek_rel p) (ek_trel p).
Proof.
  split.
  - intros now u s m (Hk & mi & Hi & Hs) Hu. split; [done|]. exists mi. split; [|done]. by apply (sim_later _ _ inner now).
  - apply ek_sim_get.
  - apply ek_sim_put.
  - apply ek_sim_delete.
  - apply ek_sim_contains.
  - intros now lo hi s l m (Hk & mi & Hi & Hs). simpl. unfold ek_range. rewrite Hk.
    destruct (key32 p) as [key|] eqn:Ek; [|done]. simpl. destruct (kv_range now lo hi (ek_inner s)) as [items|] eqn:Er; [|done].
    rewrite (sim_range _ _ inner _ _ _ _ _ _ Hi Er). rewrite (open_for_key _ _ key) in Hs by done. by apply sealed_by_between.
  - intros now s l m (Hk & mi & Hi & Hs). simpl. unfold ek_iter. rewrite Hk.
    destruct (key32 p) as [key|] eqn:Ek; [|done]. simpl. destruct (kv_iter now (ek_inner s)) as [items|] eqn:Er; [|done].
    rewrite (sim_iter _ _ inner _ _ _ _ Hi Er). rewrite (open_for_key _ _ key) in Hs by done. by apply sealed_by_iter.
  - intros now s t m (Hk & mi & Hi & Hs). simpl. unfold ek_transaction. rewrite Hk.
    destruct (kv_transaction (ek_inner s)) as [i|] eqn:Et; [|done]. destruct (key32 p) as [key|] eqn:Ek; simpl; [|done].
    intros [= <-]. split_and!; [done|apply ek_kind_of|]. exists mi. rewrite (open_for_key _ _ key) in Hs by done. split; [|done].
    by apply (sim_transaction _ _ inner _ _ _ _ Hi).
  - apply ek_sim_txn_get.
  - apply ek_sim_txn_put.
  - apply ek_sim_txn_delete.
  - apply ek_sim_commit.
  - intros now t s s' r m (Hk & mi & Hi & Hs). simpl. unfold et_rollback.
    destruct (txn_rollback (et_inner t) (ek_inner s)) as [i r'] eqn:Er. intros [= <- <-]. split; [done|]. exists mi.
    split; [|done]. by apply (sim_rollback _ _ inner _ _ _ _ _ _ Hi Er).
Qed.

(** C4: An encrypted store is a map of plaintexts.  Over any store that is a map, and as
    long as every value it holds decrypts under the key of its provider (none, in a new
    store), every history of calls of [EncryptedKv] (point reads and writes, membership
    tests, scans, batches, compare-and-swap) answers as a finite map from keys to
    plaintexts does, a call that fails changes nothing, and at the end the entries of the
    wrapped store decrypt, every one of them, to exactly that map. *)
Theorem encrypted_history_refines_map now script s m s' trace :
  ek_rel p now s m → kv_clock_ok now script → kv_run script s = (s', trace) →
  kv_accepts m trace ∧ ∃ now', ek_rel p now' s' (kv_final m trace).
Proof. intros Hs Hc Hr. exact (kv_run_sim ek_sim _ _ _ _ _ _ Hs Hc Hr). Qed.
End Sim.

(** A value that does not decrypt is present for [contains] and an error for [get]. *)
Theorem contains_without_decryption `{CR : !Crypto} {S K : Type} `{KS : !KvStore S, KV : !KvView S, SL : !KvLaws S, KC : !KvContainsLaw S, KP : !KeyProvider K}
    kind now k (s s1 s2 : EncryptedKv S K (aead_of kind)) r b ct e :
  kv_view now (ek_inner s) !! k = Some ct → open_for kind (ek_key s) k ct = Err e →
  kv_contains now k s = (s1, Ok b) → kv_get now k s = (s2, r) → b = true ∧ ∃ e', r = Err e'.
Proof.
  intros Hct Ho. simpl. unfold ek_contains, ek_get, decrypt_value.
  destruct (kv_contains now k (ek_inner s)) as [i r'] eqn:Ec. destruct (kv_contains_law _ _ _ _ _ Ec) as [_ Hb].
  intros [= _ ->]. rewrite (Hb b eq_refl), Hct. intros Hg. split; [done|].
  destruct (kv_get now k (ek_inner s)) as [j [o|e']] eqn:Eg; [|injection Hg as _ <-; by eexists].
  apply kv_get_law in Eg. rewrite Hct in Eg. subst o. injection Hg as _ <-. unfold open_for in Ho.
  destruct (key32 (ek_key s)) as [key|]; simpl in *; [|by eexists]. unfold open_with in Ho. rewrite Ho. by eexists.
Qed.

(** ** Snapshots *)
Section SnapshotLaws.
Context `{CR : !Crypto, CL : !CryptoLaws} {P : Type} `{PS : !KvSnapshot P, PV : !SnapView P, PL : !SnapLaws P}.

Definition es_open (p : EncryptedSnapshot P) (k ct : bytes) : crypt_result bytes :=
  decrypt_with_aead (aead_of (es_aead p)) (es_key p) (derive_cell_id k) ct.

#[export] Instance es_view : SnapView (EncryptedSnapshot P) := λ p, decode_map (es_open p) (snap_view (es_inner p)).

#[export] Instance es_laws : SnapLaws (EncryptedSnapshot P).
Proof.
  split.
  - intros k p r. simpl. unfold es_get, snap_view, es_view. rewrite decode_map_lookup.
    destruct (snap_get k (es_inner p)) as [o|] eqn:Eg; [|done]. apply snap_get_law in Eg as ->.
    unfold snap_view. destruct (_ !! k) as [ct|]; simpl; [|congruence]. unfold es_open.
    destruct (decrypt_with_aead _ _ _ _); simpl; congruence.
  - intros lo hi p l. simpl. unfold es_range. destruct (snap_range lo hi (es_inner p)) as [items|] eqn:Er; [|done].
    apply snap_range_law in Er as ->. apply decode_scan_between.
Qed.
End SnapshotLaws.

(** ** Cells *)

(** The fields are a [u64], a [u64] and a [u32]. *)
Definition cell_ok (c : CellId) : Prop :=
  u64_ok (table_id c) ∧ u64_ok (row_id c) ∧ (0 ≤ col_id c < 4294967296)%Z.

Lemma to_le_bytes_inj n a b : (0 ≤ a < 256 ^ Z.of_nat n)%Z → (0 ≤ b < 256 ^ Z.of_nat n)%Z →
  to_le_bytes n a = to_le_bytes n b → a = b.
Proof.
  intros Ha Hb H. apply (f_equal from_le_bytes) in H. rewrite !from_to_le_bytes in H. by rewrite !Z.mod_small in H.
Qed.

Lemma to_aad_bytes_inj c c' : cell_ok c → cell_ok c' → to_aad_bytes c = to_aad_bytes c' → c = c'.
Proof.
  destruct c as [t r k], c' as [t' r' k']. intros (Ht & Hr & Hk) (Ht' & Hr' & Hk') H. unfold to_aad_bytes in H.
  cbn [table_id row_id col_id] in *.
  apply app_inj_1 in H as [H1 H]; [|by rewrite !length_to_le_bytes]. apply app_inj_1 in H as [H2 H3]; [|by rewrite !length_to_le_bytes].
  apply to_le_bytes_inj in H1 as ->; [|done..]. apply to_le_bytes_inj in H2 as ->; [|done..].
  by apply to_le_bytes_inj in H3 as ->.
Qed.

Section CellTheory.
Context `{CR : !Crypto, CL : !CryptoLaws} {K : Type} `{KP : !KeyProvider K}.

End CellTheory.
