(* ===== verification/Keys.v ===== *)
(** * Keys of [oxistore-encrypt]: OS keyring, versioned keyring, builder, hardware tokens

    [KeyringKey] of [keys.rs] (feature [os-keyring]) over an abstract credential
    store, the versioned [Keyring] of [keyring.rs], and the key resolution of
    [cipher_builder.rs].  The crate [keyring-core] is the class [Credentials], with its
    laws in [CredentialLaws]; a PKCS#11 token is the class [Pkcs11]. *)

From stdpp Require Import pretty.
From S2P Require Import Prelude Bytes Core Encrypt EncryptedKv.

(** ** The credential store *)
Inductive CredError := NoEntry | CredFailed (msg : string).

Class Credentials := {
  Creds : Type;
  entry_new : string → string → Creds → result unit CredError;
  set_password : string → string → bytes → Creds → Creds * result unit CredError;
  get_password : string → string → Creds → result bytes CredError;
  delete_credential : string → string → Creds → Creds * result unit CredError;
  cred_error_display : CredError → string;
}.

Class CredentialLaws `{!Credentials} : Prop := {
  get_set_password svc user pw c c' : set_password svc user pw c = (c', Ok ()) → get_password svc user c' = Ok pw;
  get_delete_credential svc user c c' pw :
    delete_credential svc user c = (c', Ok ()) → get_password svc user c' ≠ Ok pw;
}.

(** ** [KeyringKey] *)
Record KeyringKey := { kr_label : string; kr_cached : option bytes }.

Definition keyring_key_new (label : string) : KeyringKey := {| kr_label := label; kr_cached := None |}.

(** A clone fetches the key again. *)
Definition keyring_key_clone (k : KeyringKey) : KeyringKey := keyring_key_new (kr_label k).

(** The cached bytes are zeroed on drop. *)
Definition keyring_key_drop (k : KeyringKey) : KeyringKey :=
  {| kr_label := kr_label k; kr_cached := (λ b, replicate (length b) x00) <$> kr_cached k |}.

Section KeyringKey.
Context `{!Credentials}.

Definition keyring_error (k : KeyringKey) (e : CredError) : EncryptError :=
  KeyringUnavailable (kr_label k +:+ ": " +:+ cred_error_display e).

Definition store_key (k : KeyringKey) (key : bytes) (c : Creds) : Creds * crypt_result unit :=
  let hex := encode_hex key in
  match entry_new "oxistore" (kr_label k) c with
  | Err e => (c, Err (keyring_error k e))
  | Ok _ =>
      let '(c, r) := set_password "oxistore" (kr_label k) hex c in (c, map_err (keyring_error k) r)
  end.

Definition delete_entry (k : KeyringKey) (c : Creds) : Creds * crypt_result unit :=
  match entry_new "oxistore" (kr_label k) c with
  | Err e => (c, Err (keyring_error k e))
  | Ok _ =>
      match delete_credential "oxistore" (kr_label k) c with
      | (c, Ok _) => (c, Ok ())
      | (c, Err NoEntry) => (c, Ok ())
      | (c, Err e) => (c, Err (keyring_error k e))
      end
  end.

(** The key is cached on first use. *)
Definition keyring_get_key (c : Creds) (k : KeyringKey) : KeyringKey * crypt_result bytes :=
  match kr_cached k with
  | Some bytes => (k, Ok bytes)
  | None =>
      match entry_new "oxistore" (kr_label k) c with
      | Err e => (k, Err (keyring_error k e))
      | Ok _ =>
          match get_password "oxistore" (kr_label k) c with
          | Err e => (k, Err (keyring_error k e))
          | Ok hex =>
              match decode_hex32 hex with
              | None => (k, Err (InvalidKeyLength (length (trim hex) / 2)))
              | Some key32 => ({| kr_label := kr_label k; kr_cached := Some key32 |}, Ok key32)
              end
          end
      end
  end.
End KeyringKey.

(** ** [Keyring]: versioned key-encrypting keys *)
Definition two32 : Z := 4294967296.

Record KeyVersion := { kv_version : Z; kv_kek : bytes }.
Record Keyring := { versions : list KeyVersion }.

Definition ring_new (kek : bytes) : Keyring := {| versions := [{| kv_version := 1; kv_kek := kek |}] |}.

Definition ring_active_version (r : Keyring) : crypt_result Z :=
  match last (versions r) with Some v => Ok (kv_version v) | None => Err KeyringEmpty end.

Definition ring_active_kek (r : Keyring) : crypt_result bytes :=
  match last (versions r) with Some v => Ok (kv_kek v) | None => Err KeyringEmpty end.

Definition kek_for_version (version : Z) (r : Keyring) : option bytes :=
  kv_kek <$> List.find (λ v, (kv_version v =? version)%Z) (versions r).

(** The [u32] addition wraps around, as it does in release builds. *)
Definition rotate (new_kek : bytes) (r : Keyring) : Keyring * crypt_result Z :=
  match ring_active_version r with
  | Err e => (r, Err e)
  | Ok v =>
      let next_version := ((v + 1) mod two32)%Z in
      ({| versions := versions r ++ [{| kv_version := next_version; kv_kek := new_kek |}] |}, Ok next_version)
  end.

Definition version_numbers (r : Keyring) : list Z := kv_version <$> versions r.

Section Derivation.
Context `{!Crypto}.

Definition DEFAULT_ARGON2 : Argon2Params := {| m_cost := 65536; t_cost := 3; p_cost := 1 |}.

Definition from_passphrase_with_params (passphrase salt : bytes) (params : Argon2Params) : crypt_result Keyring :=
  let? kek := map_err KeyDerivationFailed (argon2id_derive passphrase salt params) in
  Ok (ring_new kek).

Definition from_passphrase (passphrase salt : bytes) : crypt_result Keyring :=
  from_passphrase_with_params passphrase salt DEFAULT_ARGON2.

Definition generate_salt : R bytes := r_fill 32.
Definition generate_dek : R bytes := r_fill 32.

(** ** [CipherBuilder] *)
Inductive KeySource := Raw (k : bytes) | Passphrase (passphrase salt : bytes).

Record CipherBuilder := { cb_aead : AeadKind; cb_key_source : option KeySource }.

Definition builder_new : CipherBuilder := {| cb_aead := XChaCha20Poly1305; cb_key_source := None |}.
Definition builder_aead (a : AeadKind) (b : CipherBuilder) : CipherBuilder :=
  {| cb_aead := a; cb_key_source := cb_key_source b |}.
Definition builder_key (k : bytes) (b : CipherBuilder) : CipherBuilder :=
  {| cb_aead := cb_aead b; cb_key_source := Some (Raw k) |}.
Definition builder_passphrase (p salt : bytes) (b : CipherBuilder) : CipherBuilder :=
  {| cb_aead := cb_aead b; cb_key_source := Some (Passphrase p salt) |}.

(** [TEST_PARAMS] is a constant of the crypto crate. *)
Definition resolve_key (TEST_PARAMS : Argon2Params) (b : CipherBuilder) (use_test_params : bool) : crypt_result bytes :=
  match cb_key_source b with
  | None => Err (InvalidKeyLength 0)
  | Some (Raw k) => Ok k
  | Some (Passphrase passphrase salt) =>
      let params := if use_test_params then TEST_PARAMS else DEFAULT_ARGON2 in
      map_err KeyDerivationFailed (argon2id_derive passphrase salt params)
  end.

Definition builder_build {S} `{!KvStore S} (TEST_PARAMS : Argon2Params) (use_test_params : bool) (g : Rng)
    (store : S) (b : CipherBuilder) : crypt_result (EncryptedKv S StaticKey (aead_of (cb_aead b))) :=
  let? raw_key := resolve_key TEST_PARAMS b use_test_params in
  Ok {| ek_inner := store; ek_key := {| sk_bytes := raw_key |}; ek_rng := g |}.
End Derivation.

(** ** Hexadecimal round trip *)
Definition is_space_free (s : bytes) : Prop := Forall (λ c, is_ascii_space c = false) s.

Lemma trim_start_id s : is_space_free s → trim_start s = s.
Proof. destruct s as [|c s]; [done|]. intros [H _]%Forall_cons. simpl. by rewrite H. Qed.

Lemma trim_start_spaces sp s :
  Forall (λ c, is_ascii_space c = true) sp → trim_start (sp ++ s) = trim_start s.
Proof. induction 1 as [|c sp Hc _ IH]; simpl; [done|]. by rewrite Hc. Qed.

Lemma trim_around sp1 s sp2 :
  Forall (λ c, is_ascii_space c = true) sp1 → Forall (λ c, is_ascii_space c = true) sp2 →
  is_space_free s → trim (sp1 ++ s ++ sp2) = s.
Proof.
  intros H1 H2 Hs. unfold trim. rewrite trim_start_spaces by done. destruct s as [|c s].
  { simpl. assert (trim_start sp2 = []) as ->; [|done]. pose proof (trim_start_spaces sp2 [] H2) as H.
    by rewrite app_nil_r in H. }
  rewrite <-app_comm_cons. pose proof Hs as [Hc _]%Forall_cons. simpl. rewrite Hc.
  rewrite app_comm_cons, reverse_app, trim_start_spaces by by apply Forall_reverse.
  rewrite trim_start_id; [apply reverse_involutive|]. by apply Forall_reverse.
Qed.

(** Every property of a byte that evaluates can be checked on the 256 bytes. *)
Lemma byte_forall (P : byte → Prop) `{!∀ b, Decision (P b)} :
  forallb (λ b, bool_decide (P b)) (map Z_byte (seqZ 0 256)) = true → ∀ b, P b.
Proof.
  intros Hall b. rewrite forallb_forall in Hall. apply (bool_decide_eq_true (P b)), Hall. apply in_map_iff. exists (byte_Z b).
  pose proof (byte_Z_range b). split; [|apply list_elem_of_In, elem_of_seqZ; lia].
  apply byte_Z_inj. rewrite byte_Z_byte. apply Z.mod_small. lia.
Qed.

Lemma hex_digits (b : byte) :
  hex_nibble (hex_char (Z.shiftr (byte_Z b) 4)) = Some (Z.shiftr (byte_Z b) 4) ∧
  hex_nibble (hex_char (Z.land (byte_Z b) 15)) = Some (Z.land (byte_Z b) 15) ∧
  Z_byte (Z.lor (Z.shiftl (Z.shiftr (byte_Z b) 4) 4) (Z.land (byte_Z b) 15)) = b ∧
  is_ascii_space (hex_char (Z.shiftr (byte_Z b) 4)) = false ∧
  is_ascii_space (hex_char (Z.land (byte_Z b) 15)) = false.
Proof.
  revert b. eapply byte_forall. vm_compute. done.
Qed.

Lemma encode_hex_length b : length (encode_hex b) = 2 * length b.
Proof. induction b as [|x b IH]; simpl; [done|]. rewrite IH. lia. Qed.

Lemma encode_hex_space_free b : is_space_free (encode_hex b).
Proof. induction b as [|x b IH]; simpl; [constructor|]. by repeat constructor; try apply hex_digits. Qed.

Lemma decode_encode_chunks b : decode_hex_chunks (encode_hex b) = Some b.
Proof.
  induction b as [|x b IH]; [done|]. change (encode_hex (x :: b)) with
    (hex_char (Z.shiftr (byte_Z x) 4) :: hex_char (Z.land (byte_Z x) 15) :: encode_hex b).
  cbn [decode_hex_chunks]. destruct (hex_digits x) as (-> & -> & Hx & _). rewrite IH. simpl. by rewrite Hx.
Qed.

Lemma decode_encode_hex sp1 key sp2 :
  Forall (λ c, is_ascii_space c = true) sp1 → Forall (λ c, is_ascii_space c = true) sp2 → length key = 32 →
  decode_hex32 (sp1 ++ encode_hex key ++ sp2) = Some key.
Proof.
  intros H1 H2 Hk. unfold decode_hex32. rewrite trim_around by (done || apply encode_hex_space_free).
  rewrite decide_True by (rewrite encode_hex_length, Hk; done). apply decode_encode_chunks.
Qed.

(** ** The keyring *)
Definition ring_wf (r : Keyring) : Prop :=
  version_numbers r = Z.of_nat <$> seq 1 (length (versions r)) ∧ versions r ≠ [] ∧
  Forall (λ v, length (kv_kek v) = 32) (versions r).

(** [r'] extends [r] with newer versions. *)
Definition ring_extends (r r' : Keyring) : Prop := versions r `prefix_of` versions r'.

Lemma ring_new_wf kek : length kek = 32 → ring_wf (ring_new kek).
Proof. intros H. by repeat constructor. Qed.

Lemma find_snoc {A} (f : A → bool) l x :
  (∀ y, y ∈ l → f y = false) → f x = true → List.find f (l ++ [x]) = Some x.
Proof.
  intros Hl Hx. induction l as [|y l IH]; simpl; [by rewrite Hx|]. rewrite Hl by by left.
  apply IH. intros z Hz. apply Hl. by right.
Qed.

Lemma ring_active r : ring_wf r → ∃ kek, length kek = 32 ∧
  ring_active_version r = Ok (Z.of_nat (length (versions r))) ∧ ring_active_kek r = Ok kek ∧
  kek_for_version (Z.of_nat (length (versions r))) r = Some kek.
Proof.
  destruct r as [l]. intros (Hv & Hne & Hf). unfold version_numbers in Hv. simpl in *.
  destruct (exists_last Hne) as (l0 & v & ->).
  unfold ring_active_version, ring_active_kek, kek_for_version. simpl. rewrite last_snoc.
  rewrite fmap_app, length_app, seq_app, fmap_app in Hv. simpl in Hv.
  apply app_inj_2 in Hv as [Hv0 [= Hn]]; [|done]. apply Forall_app in Hf as [_ [Hk _]%Forall_cons].
  assert (kv_version v = Z.of_nat (length (l0 ++ [v]))) as Hvv by (rewrite length_app; simpl; lia).
  exists (kv_kek v). rewrite Hvv. split_and!; [done|done|done|].
  rewrite find_snoc; [done| |by rewrite Hvv, Z.eqb_refl]. intros x Hx.
  assert (kv_version x ∈ Z.of_nat <$> seq 1 (length l0)) as (n & -> & Hin)%list_elem_of_fmap.
  { rewrite <-Hv0. by apply list_elem_of_fmap_2. }
  apply elem_of_seq in Hin. apply Z.eqb_neq. rewrite length_app. simpl. lia.
Qed.

Lemma find_prefix {A} (f : A → bool) (l l' : list A) x :
  l `prefix_of` l' → List.find f l = Some x → List.find f l' = Some x.
Proof.
  intros [k ->]. induction l as [|y l IH]; simpl; [done|]. destruct (f y); [done|apply IH].
Qed.

Lemma kek_extends r r' version kek :
  ring_extends r r' → kek_for_version version r = Some kek → kek_for_version version r' = Some kek.
Proof.
  intros Hext. unfold kek_for_version. destruct (List.find _ (versions r)) as [v|] eqn:E; [|done].
  by rewrite (find_prefix _ _ _ _ Hext E).
Qed.

Lemma rotate_spec new_kek r :
  ring_wf r → length new_kek = 32 → (Z.of_nat (length (versions r)) < two32 - 1)%Z →
  ∃ r', rotate new_kek r = (r', Ok (Z.of_nat (length (versions r) + 1))) ∧ ring_wf r' ∧ ring_extends r r' ∧
    length (versions r') = length (versions r) + 1 ∧ ring_active_kek r' = Ok new_kek.
Proof.
  intros Hwf Hk Hlt. destruct (ring_active r Hwf) as (kek & _ & Hv & _). unfold rotate. rewrite Hv.
  rewrite Z.mod_small by (unfold two32 in *; lia). replace (Z.of_nat (length (versions r)) + 1)%Z with
    (Z.of_nat (length (versions r) + 1)) by lia. eexists. split; [done|]. destruct Hwf as (Hn & Hne & Hf). split_and!.
  - unfold ring_wf, version_numbers in *. simpl. split_and!.
    + rewrite fmap_app, length_app, seq_app, fmap_app, Hn. simpl. do 2 f_equal. lia.
    + by destruct (versions r).
    + apply Forall_app. by repeat constructor.
  - by exists [{| kv_version := Z.of_nat (length (versions r) + 1); kv_kek := new_kek |}].
  - simpl. by rewrite length_app.
  - unfold ring_active_kek. simpl. by rewrite last_snoc.
Qed.

(** ** Theorems *)

Section KeyringKeyTheory.
Context `{CR : !Credentials, CL : !CredentialLaws}.

(** A key stored in the OS keyring is the key read back.  After a successful
    [store_key] of 32 bytes, every provider with that label that has not cached a key
    yet either reports the keyring unavailable or returns exactly those bytes; and a
    provider that has cached a key returns the cached bytes whatever the keyring
    holds, until it is cloned. *)
Theorem keyring_key_roundtrip k key c c' :
  length key = 32 → store_key k key c = (c', Ok ()) →
  (∀ k', kr_label k' = kr_label k → kr_cached k' = None →
    (keyring_get_key c' k').2 = match entry_new "oxistore" (kr_label k) c' with
                                | Ok _ => Ok key
                                | Err e => Err (keyring_error k' e)
                                end) ∧
  (∀ k' old, kr_cached k' = Some old → keyring_get_key c' k' = (k', Ok old)) ∧
  (∀ k', kr_label k' = kr_label k → is_Ok (entry_new "oxistore" (kr_label k) c') →
    (keyring_get_key c' (keyring_key_clone k')).2 = Ok key).
Proof.
  intros Hk Hst. unfold store_key in Hst. destruct (entry_new _ _ c); [|done].
  destruct (set_password "oxistore" (kr_label k) (encode_hex key) c) as [c1 [[]|]] eqn:Es; [|done]. injection Hst as <-.
  apply get_set_password in Es. pose proof (decode_encode_hex [] key []) as Hd. rewrite app_nil_r in Hd. simpl in Hd.
  assert (∀ k', kr_label k' = kr_label k → kr_cached k' = None →
    (keyring_get_key c1 k').2 = match entry_new "oxistore" (kr_label k) c1 with
                                | Ok _ => Ok key | Err e => Err (keyring_error k' e) end) as Hfresh.
  { intros k' Hl Hn. unfold keyring_get_key. rewrite Hn, Hl, Es. destruct (entry_new _ _ c1); [|done].
    by rewrite Hd. }
  split_and!; [done| |].
  - intros k' old Ho. unfold keyring_get_key. by rewrite Ho.
  - intros k' Hl [[] Hn]. rewrite Hfresh by done. by rewrite Hn.
Qed.
End KeyringKeyTheory.

(** A credential store that is a map. *)
Definition map_credentials : Credentials := {|
  Creds := gmap (string * string) bytes;
  entry_new _ _ _ := Ok ();
  set_password svc user pw c := (<[(svc, user) := pw]> c, Ok ());
  get_password svc user c := match c !! (svc, user) with Some pw => Ok pw | None => Err NoEntry end;
  delete_credential svc user c :=
    match c !! (svc, user) with
    | Some _ => (delete (svc, user) c, Ok ())
    | None => (c, Err NoEntry)
    end;
  cred_error_display e := match e with NoEntry => "no entry" | CredFailed m => m end;
|}.

Lemma map_credential_laws : @CredentialLaws map_credentials.
Proof.
  split; simpl.
  - intros svc user pw c c' [= <-]. by rewrite lookup_insert_eq.
  - intros svc user c c' pw. destruct (c !! (svc, user)) eqn:E; [|done]. intros [= <-]. by rewrite lookup_delete_eq.
Qed.

Lemma keyring_key_roundtrip_witness :
  (@keyring_get_key map_credentials {[ ("oxistore", "db") := encode_hex (replicate 32 xab) ]} (keyring_key_new "db")).2
    = Ok (replicate 32 xab).
Proof.
  exact (proj1 (@keyring_key_roundtrip map_credentials map_credential_laws (keyring_key_new "db") (replicate 32 xab) ∅ _
    eq_refl eq_refl) (keyring_key_new "db") eq_refl eq_refl).
Defined.

(** ** Keys on a hardware token

    [Pkcs11KeyProvider] of [pkcs11.rs] over an interface to the token: the key is found by
    its label, read and validated at the first use and cached in a [OnceLock].  Threads
    that share a provider are a transition system whose steps are the accesses to the
    cell and to the token. *)

(** [oxicrypto_adapter_pkcs11]; errors are what they display. *)
Class Pkcs11 := {
  Token : Type;
  Handle : Type;
  find_secret_key : string → Token → result Handle string;
  extract_key_value : Handle → Token → result bytes string;
}.

Definition validate_pkcs11_key (raw : bytes) : crypt_result bytes :=
  let got := length raw in
  if decide (got = 32) then Ok raw else Err (InvalidKeyLength got).

Record Pkcs11KeyProvider := { pk_label : string; pk_cached : option bytes }.

Definition pkcs11_new (label : string) : Pkcs11KeyProvider := {| pk_label := label; pk_cached := None |}.

(** [OnceLock::get_or_init] *)
Definition get_or_init (key : bytes) (k : Pkcs11KeyProvider) : Pkcs11KeyProvider * bytes :=
  match pk_cached k with
  | Some stored => (k, stored)
  | None => ({| pk_label := pk_label k; pk_cached := Some key |}, key)
  end.

(** The cached bytes are zeroed on drop. *)
Definition pkcs11_drop (k : Pkcs11KeyProvider) : Pkcs11KeyProvider :=
  {| pk_label := pk_label k; pk_cached := (λ b, replicate (length b) x00) <$> pk_cached k |}.

Section Provider.
Context `{PK : !Pkcs11}.

Definition pkcs11_load (tok : Token) (k : Pkcs11KeyProvider) : crypt_result bytes :=
  let? handle := map_err KeyProviderFailed (find_secret_key (pk_label k) tok) in
  let? raw := map_err KeyProviderFailed (extract_key_value handle tok) in
  validate_pkcs11_key raw.

Definition pkcs11_get_key (tok : Token) (k : Pkcs11KeyProvider) : Pkcs11KeyProvider * crypt_result bytes :=
  match pk_cached k with
  | Some bytes => (k, Ok bytes)
  | None =>
      match pkcs11_load tok k with
      | Err e => (k, Err e)
      | Ok key => let '(k, stored) := get_or_init key k in (k, Ok stored)
      end
  end.

(** A thread in [get_key]: before it looks at the cell, after it found it empty, with a
    key from the token, and returned. *)
Inductive PkThread := PkStart | PkMissed | PkLoaded (key : bytes) | PkReturned (r : crypt_result bytes).

Definition pk_advance (tok : Token) (t : PkThread) (k : Pkcs11KeyProvider) : PkThread * Pkcs11KeyProvider :=
  match t with
  | PkStart => match pk_cached k with Some bytes => (PkReturned (Ok bytes), k) | None => (PkMissed, k) end
  | PkMissed => match pkcs11_load tok k with Err e => (PkReturned (Err e), k) | Ok key => (PkLoaded key, k) end
  | PkLoaded key => let '(k, stored) := get_or_init key k in (PkReturned (Ok stored), k)
  | PkReturned r => (PkReturned r, k)
  end.

Fixpoint pk_run (schedule : list (nat * Token)) (ts : list PkThread) (k : Pkcs11KeyProvider) : list PkThread * Pkcs11KeyProvider :=
  match schedule with
  | [] => (ts, k)
  | (i, tok) :: schedule =>
      match ts !! i with
      | Some t => let '(t, k) := pk_advance tok t k in pk_run schedule (<[i:=t]> ts) k
      | None => pk_run schedule ts k
      end
  end.

Lemma pkcs11_load_length tok k key : pkcs11_load tok k = Ok key → length key = 32.
Proof.
  unfold pkcs11_load. destruct (find_secret_key _ _) as [h|]; [|done]. simpl. destruct (extract_key_value h tok) as [raw|]; [|done].
  simpl. unfold validate_pkcs11_key. case_decide; [|done]. by intros [= <-].
Qed.

(** A call that no other thread disturbs is the run of one thread. *)
Lemma pkcs11_get_key_alone tok k : pk_run [(0, tok); (0, tok); (0, tok)] [PkStart] k = ([PkReturned (pkcs11_get_key tok k).2], (pkcs11_get_key tok k).1).
Proof.
  unfold pkcs11_get_key, get_or_init. destruct k as [l [c|]]; [done|]. simpl.
  destruct (pkcs11_load tok _) as [key|e] eqn:E; [done|]. done.
Qed.

(** What a thread may know: a key it loaded has 32 bytes, a key it returned is cached. *)
Definition pk_thread_ok (k : Pkcs11KeyProvider) (t : PkThread) : Prop :=
  match t with
  | PkLoaded key => length key = 32
  | PkReturned (Ok key) => pk_cached k = Some key
  | _ => True
  end.

Definition pk_ok (k : Pkcs11KeyProvider) (ts : list PkThread) : Prop :=
  (∀ key, pk_cached k = Some key → length key = 32) ∧ Forall (pk_thread_ok k) ts.

Definition pk_grows (k k' : Pkcs11KeyProvider) : Prop :=
  pk_label k' = pk_label k ∧ ∀ key, pk_cached k = Some key → pk_cached k' = Some key.

Lemma pk_thread_grows k k' t : pk_grows k k' → pk_thread_ok k t → pk_thread_ok k' t.
Proof. intros [_ Hg]. destruct t as [| |key|[key|]]; simpl; auto. Qed.

Lemma pk_advance_ok tok t k ts i t' k' : pk_ok k ts → ts !! i = Some t → pk_advance tok t k = (t', k') →
  pk_grows k k' ∧ pk_ok k' (<[i:=t']> ts).
Proof.
  intros [Hk Hts] Hi Hs. pose proof (Forall_lookup_1 _ _ _ _ Hts Hi) as Ht.
  assert (pk_grows k k' ∧ (∀ key, pk_cached k' = Some key → length key = 32) ∧ pk_thread_ok k' t') as (Hg & Hk' & Ht').
  { destruct t as [| |key|r]; simpl in Hs, Ht.
    - destruct (pk_cached k) as [c|] eqn:Ec; simplify_eq/=; split_and!; rewrite ?Ec; try done; by split.
    - destruct (pkcs11_load tok k) as [key|e] eqn:El; simplify_eq/=; split_and!; try done; by eapply pkcs11_load_length.
    - unfold get_or_init in Hs. destruct (pk_cached k) as [c|] eqn:Ec; simplify_eq/=; (split; [by split; [|naive_solver]|]); (split; [|done]); naive_solver.
    - simplify_eq. by split_and!. }
  split; [done|]. split; [done|]. apply Forall_insert; [|done]. eapply Forall_impl; [done|]. intros x. by apply pk_thread_grows.
Qed.

(** However the threads that share a provider are interleaved, and whatever the token
    answers in between, all calls that succeed return one key, of 32 bytes, which is
    cached from then on; a call that fails leaves the cell as it is, so that a later call
    may succeed. *)
Theorem pkcs11_threads_agree schedule ts label ts' k' :
  (∀ i, ts !! i ≠ None → ts !! i = Some PkStart) → pk_run schedule ts (pkcs11_new label) = (ts', k') →
  (∀ i key, ts' !! i = Some (PkReturned (Ok key)) → pk_cached k' = Some key ∧ length key = 32) ∧
  (∀ tok, match pk_cached k' with
          | Some key => pkcs11_get_key tok k' = (k', Ok key)
          | None => (pkcs11_get_key tok k').2 = pkcs11_load tok (pkcs11_new label)
          end).
Proof.
  intros Hts Hrun.
  assert (∀ k0, pk_ok k0 ts → pk_run schedule ts k0 = (ts', k') → pk_ok k' ts' ∧ pk_grows k0 k') as Hgen.
  { clear. revert ts. induction schedule as [|[i tok] schedule IH]; intros ts k0 Hok H; simpl in H; [by simplify_eq|].
    destruct (ts !! i) as [t|] eqn:Hi; [|by apply (IH ts)]. destruct (pk_advance tok t k0) as [t1 k1] eqn:Es.
    destruct (pk_advance_ok _ _ _ _ _ _ _ Hok Hi Es) as [[Hl1 Hg1] Hok1]. destruct (IH _ _ Hok1 H) as [Hok' [Hl' Hg']].
    split; [done|]. split; [congruence|auto]. }
  destruct (Hgen (pkcs11_new label)) as [[Hk' Hts'] [Hl _]]; [|done|].
  { split; [done|]. apply Forall_lookup. intros i t Hi. rewrite Hts in Hi by by rewrite Hi. by injection Hi as <-. }
  split.
  - intros i key Hi. pose proof (Forall_lookup_1 _ _ _ _ Hts' Hi) as Hc. simpl in Hc. split; [done|by apply Hk'].
  - intros tok. unfold pkcs11_get_key, get_or_init. destruct (pk_cached k') as [key|] eqn:Ec; [done|].
    assert (pkcs11_load tok k' = pkcs11_load tok (pkcs11_new label)) as -> by (unfold pkcs11_load; by rewrite Hl).
    by destruct (pkcs11_load tok _).
Qed.
End Provider.

(** ** Two threads on a token whose key is replaced *)
#[local] Instance toy_token : Pkcs11 := {|
  Token := option bytes;
  Handle := unit;
  find_secret_key _ t := match t with Some _ => Ok () | None => Err "no such key"%string end;
  extract_key_value _ t := match t with Some k => Ok k | None => Err "no such key"%string end;
|}.

Definition token_schedule : list (nat * Token) :=
  [(0, Some (replicate 32 x01)); (1, None); (0, Some (replicate 32 x01)); (1, Some (replicate 32 x02)); (1, None); (0, None); (2, None); (2, None)].

Lemma pkcs11_threads_agree_witness :
  (pk_run token_schedule [PkStart; PkStart; PkStart] (pkcs11_new "db")).1 !! 0 = Some (PkReturned (Ok (replicate 32 x02))) ∧
  pk_cached (pk_run token_schedule [PkStart; PkStart; PkStart] (pkcs11_new "db")).2 = Some (replicate 32 x02) ∧
  length (replicate 32 x02) = 32.
Proof.
  split; [reflexivity|]. apply (proj1 (pkcs11_threads_agree token_schedule [PkStart; PkStart; PkStart] "db"
    (pk_run token_schedule [PkStart; PkStart; PkStart] (pkcs11_new "db")).1 (pk_run token_schedule [PkStart; PkStart; PkStart] (pkcs11_new "db")).2
    ltac:(intros [|[|[|i]]] H; [reflexivity|reflexivity|reflexivity|by destruct H]) (surjective_pairing _)) 0). reflexivity.
Defined.
