(* ===== verification/Envelope.v ===== *)
(** * Envelope encryption: [envelope.rs], [envelope_txn.rs], [envelope_snapshot.rs]

    A value is sealed under a fresh data key, the data key is wrapped under the active
    key of a versioned keyring, and both are stored in one envelope.  The keyring sits
    behind a lock that transactions and snapshots share with the store; a transaction
    here carries the keyring it was opened with, and every theorem about envelopes
    holds for later keyrings too. *)

From S2P Require Import Prelude Bytes Core KvHistory Encrypt EncryptedKv Keys.

(** ** Layout *)
Definition KEK_VERSION_LEN : nat := 4.
Definition WRAP_NONCE_LEN : nat := 24.
Definition WRAPPED_DEK_LEN : nat := 48.
Definition DATA_NONCE_LEN : nat := 24.
Definition DATA_TAG_LEN : nat := 16.
Definition WRAP_NONCE_OFFSET : nat := KEK_VERSION_LEN.
Definition WRAPPED_DEK_OFFSET : nat := WRAP_NONCE_OFFSET + WRAP_NONCE_LEN.
Definition DATA_NONCE_OFFSET : nat := WRAPPED_DEK_OFFSET + WRAPPED_DEK_LEN.
Definition DATA_CT_OFFSET : nat := DATA_NONCE_OFFSET + DATA_NONCE_LEN.
Definition MIN_ENVELOPE_LEN : nat := DATA_CT_OFFSET + DATA_TAG_LEN.

(** [b[lo..hi]] within bounds *)
Definition slice (lo hi : nat) (b : bytes) : bytes := take (hi - lo) (drop lo b).

(** ** [EnvelopeCipher] *)
Record EnvelopeCipher := { ec_keyring : Keyring; ec_poisoned : bool }.

Definition cipher_new (r : Keyring) : EnvelopeCipher := {| ec_keyring := r; ec_poisoned := false |}.

(** [self.keyring.read()] and [write()] *)
Definition with_ring (c : EnvelopeCipher) : crypt_result Keyring :=
  if ec_poisoned c then Err LockPoisoned else Ok (ec_keyring c).

Definition cipher_active_version (c : EnvelopeCipher) : crypt_result Z :=
  let? ring := with_ring c in ring_active_version ring.

Definition add_kek_version (new_kek : bytes) (c : EnvelopeCipher) : EnvelopeCipher * crypt_result Z :=
  match with_ring c with
  | Err e => (c, Err e)
  | Ok ring =>
      let '(ring, r) := rotate new_kek ring in
      ({| ec_keyring := ring; ec_poisoned := ec_poisoned c |}, r)
  end.

Section Cipher.
Context `{!Crypto}.

Definition random_nonce_24 : R bytes := r_fill 24.

Definition seal_with (key nonce aad pt : bytes) : crypt_result bytes :=
  map_err EncryptionFailed (raw_seal XChaCha20Poly1305 key nonce aad pt).
Definition open_xchacha (key nonce aad ct : bytes) : crypt_result bytes :=
  map_err (λ _, AuthenticationFailed) (raw_open XChaCha20Poly1305 key nonce aad ct).

Definition env_encrypt (c : EnvelopeCipher) (plaintext aad : bytes) : R bytes :=
  let* ring := r_ret (with_ring c) in
  let* kek_version := r_ret (ring_active_version ring) in
  let* kek := r_ret (ring_active_kek ring) in
  let* dek := generate_dek in
  let* wrap_nonce := random_nonce_24 in
  let* data_nonce := random_nonce_24 in
  let version_aad := to_le_bytes 4 kek_version in
  let* wrapped_dek := r_ret (seal_with kek wrap_nonce version_aad dek) in
  let* data_ct := r_ret (seal_with dek data_nonce aad plaintext) in
  r_ret (Ok (to_le_bytes 4 kek_version ++ wrap_nonce ++ wrapped_dek ++ data_nonce ++ data_ct)).

Definition env_decrypt (c : EnvelopeCipher) (ciphertext aad : bytes) : crypt_result bytes :=
  if length ciphertext <? MIN_ENVELOPE_LEN then Err (CiphertextTooShort MIN_ENVELOPE_LEN (length ciphertext))
  else
    let kek_version := from_le_bytes (take KEK_VERSION_LEN ciphertext) in
    let wrap_nonce := slice WRAP_NONCE_OFFSET WRAPPED_DEK_OFFSET ciphertext in
    let wrapped_dek_bytes := slice WRAPPED_DEK_OFFSET DATA_NONCE_OFFSET ciphertext in
    let data_nonce := slice DATA_NONCE_OFFSET DATA_CT_OFFSET ciphertext in
    let data_ct := drop DATA_CT_OFFSET ciphertext in
    let? ring := with_ring c in
    match kek_for_version kek_version ring with
    | None => Err (MissingKekVersion kek_version)
    | Some kek =>
        let version_aad := to_le_bytes 4 kek_version in
        let? dek := open_xchacha kek wrap_nonce version_aad wrapped_dek_bytes in
        open_xchacha dek data_nonce aad data_ct
    end.

Definition rewrap_envelope (c : EnvelopeCipher) (envelope : bytes) : R bytes :=
  if length envelope <? MIN_ENVELOPE_LEN then r_ret (Err (CiphertextTooShort MIN_ENVELOPE_LEN (length envelope)))
  else
    let old_version := from_le_bytes (take KEK_VERSION_LEN envelope) in
    let old_wrap_nonce := slice WRAP_NONCE_OFFSET WRAPPED_DEK_OFFSET envelope in
    let old_wrapped_dek := slice WRAPPED_DEK_OFFSET DATA_NONCE_OFFSET envelope in
    let* ring := r_ret (with_ring c) in
    match kek_for_version old_version ring with
    | None => r_ret (Err (MissingKekVersion old_version))
    | Some old_kek =>
        let* new_kek_version := r_ret (ring_active_version ring) in
        let* new_kek := r_ret (ring_active_kek ring) in
        let* dek := r_ret (open_xchacha old_kek old_wrap_nonce (to_le_bytes 4 old_version) old_wrapped_dek) in
        let* new_wrap_nonce := random_nonce_24 in
        let* new_wrapped_dek := r_ret (seal_with new_kek new_wrap_nonce (to_le_bytes 4 new_kek_version) dek) in
        r_ret (Ok (to_le_bytes 4 new_kek_version ++ new_wrap_nonce ++ new_wrapped_dek ++ drop DATA_NONCE_OFFSET envelope))
    end.

(** ** Rotation of a store *)
Section Store.
Context {S : Type} `{!KvStore S}.

(** The loop of both rotations; [f] and [h] report a failure to rewrap and to write. *)
Fixpoint rewrap_entries {E} (f : EncryptError → E) (h : StoreError → E) (c : EnvelopeCipher) (count : Z)
    (entries : list (bytes * bytes)) (s : S) (g : Rng) : S * Rng * result Z E :=
  match entries with
  | [] => (s, g, Ok count)
  | (key, old_envelope) :: entries =>
      match rewrap_envelope c old_envelope g with
      | (g, Err e) => (s, g, Err (f e))
      | (g, Ok new_envelope) =>
          match kv_put key new_envelope s with
          | (s, Err e) => (s, g, Err (h e))
          | (s, Ok _) => rewrap_entries f h c (count + 1) entries s g
          end
      end
  end.

(** [rotate_all_keys] adds the key first, then reads the entries. *)
Definition rotate_all_keys (now : Z) (new_kek : bytes) (s : S) (c : EnvelopeCipher) (g : Rng)
    : S * EnvelopeCipher * Rng * crypt_result Z :=
  match add_kek_version new_kek c with
  | (c, Err e) => (s, c, g, Err e)
  | (c, Ok _) =>
      match map_err encrypt_error_from (kv_iter now s) with
      | Err e => (s, c, g, Err e)
      | Ok items =>
          match collect (map (map_err encrypt_error_from) items) with
          | Err e => (s, c, g, Err e)
          | Ok entries =>
              let '(s, g, r) := rewrap_entries id encrypt_error_from c 0 entries s g in (s, c, g, r)
          end
      end
  end.

(** ** [EncryptedKvEnvelope] *)
Record EncryptedKvEnvelope := { ev_inner : S; ev_cipher : EnvelopeCipher; ev_rng : Rng }.
Implicit Types s : EncryptedKvEnvelope.

Definition ev_set_inner (i : S) s : EncryptedKvEnvelope :=
  {| ev_inner := i; ev_cipher := ev_cipher s; ev_rng := ev_rng s |}.

(** [StoreError::Other(e.to_string())] *)
Definition other_from (e : StoreError) : StoreError := Other (store_error_display e).

(** [rotate_kek] reads the entries first, then adds the key. *)
Definition rotate_kek (now : Z) (new_kek : bytes) s : EncryptedKvEnvelope * store_result Z :=
  match map_err other_from (kv_iter now (ev_inner s)) with
  | Err e => (s, Err e)
  | Ok items =>
      match collect (map (map_err other_from) items) with
      | Err e => (s, Err e)
      | Ok entries =>
          match add_kek_version new_kek (ev_cipher s) with
          | (c, Err e) => ({| ev_inner := ev_inner s; ev_cipher := c; ev_rng := ev_rng s |}, Err (store_error_from e))
          | (c, Ok _) =>
              let '(i, g, r) := rewrap_entries store_error_from id c 0 entries (ev_inner s) (ev_rng s) in
              ({| ev_inner := i; ev_cipher := c; ev_rng := g |}, r)
          end
      end
  end.

Definition ev_get (now : Z) (key : bytes) s : EncryptedKvEnvelope * store_result (option bytes) :=
  match kv_get now key (ev_inner s) with
  | (i, Err e) => (ev_set_inner i s, Err e)
  | (i, Ok None) => (ev_set_inner i s, Ok None)
  | (i, Ok (Some ct)) =>
      (ev_set_inner i s, let? pt := to_store (env_decrypt (ev_cipher s) ct key) in Ok (Some pt))
  end.

Definition ev_put (key value : bytes) s : EncryptedKvEnvelope * store_result unit :=
  match env_encrypt (ev_cipher s) value key (ev_rng s) with
  | (g, Err e) => ({| ev_inner := ev_inner s; ev_cipher := ev_cipher s; ev_rng := g |}, Err (store_error_from e))
  | (g, Ok ct) =>
      let '(i, r) := kv_put key ct (ev_inner s) in
      ({| ev_inner := i; ev_cipher := ev_cipher s; ev_rng := g |}, r)
  end.

Definition ev_delete (key : bytes) s : EncryptedKvEnvelope * store_result unit :=
  let '(i, r) := kv_delete key (ev_inner s) in (ev_set_inner i s, r).

Definition ev_contains (now : Z) (key : bytes) s : EncryptedKvEnvelope * store_result bool :=
  let '(i, r) := kv_contains now key (ev_inner s) in (ev_set_inner i s, r).

(** The closure of [range] and [iter]: an item that does not decrypt is an error item. *)
Definition decode_item (c : EnvelopeCipher) (item : RangeItem) : RangeItem :=
  let? (k, ct) := item in
  let? pt := to_store (env_decrypt c ct k) in
  Ok (k, pt).

Definition ev_range (now : Z) (lo hi : bytes) s : store_result (list RangeItem) :=
  let? raw_iter := kv_range now lo hi (ev_inner s) in
  Ok (map (decode_item (ev_cipher s)) raw_iter).

Definition ev_iter (now : Z) s : store_result (list RangeItem) :=
  let? raw_iter := kv_iter now (ev_inner s) in
  Ok (map (decode_item (ev_cipher s)) raw_iter).

(** ** [EnvelopeTxn] *)
Record EnvelopeTxn := { vt_inner : kv_Txn (S := S); vt_cipher : EnvelopeCipher; vt_rng : Rng }.

Definition vt_set_inner (i : kv_Txn) (t : EnvelopeTxn) : EnvelopeTxn :=
  {| vt_inner := i; vt_cipher := vt_cipher t; vt_rng := vt_rng t |}.

Definition ev_transaction s : store_result EnvelopeTxn :=
  let? inner := kv_transaction (ev_inner s) in
  Ok {| vt_inner := inner; vt_cipher := ev_cipher s; vt_rng := ev_rng s |}.

Definition vt_get (now : Z) (key : bytes) (t : EnvelopeTxn) : EnvelopeTxn * store_result (option bytes) :=
  match txn_get now key (vt_inner t) with
  | (i, Err e) => (vt_set_inner i t, Err e)
  | (i, Ok None) => (vt_set_inner i t, Ok None)
  | (i, Ok (Some ct)) =>
      (vt_set_inner i t, let? pt := to_store (env_decrypt (vt_cipher t) ct key) in Ok (Some pt))
  end.

Definition vt_put (key value : bytes) (t : EnvelopeTxn) : EnvelopeTxn * store_result unit :=
  match env_encrypt (vt_cipher t) value key (vt_rng t) with
  | (g, Err e) => ({| vt_inner := vt_inner t; vt_cipher := vt_cipher t; vt_rng := g |}, Err (store_error_from e))
  | (g, Ok ct) =>
      let '(i, r) := txn_put key ct (vt_inner t) in
      ({| vt_inner := i; vt_cipher := vt_cipher t; vt_rng := g |}, r)
  end.

Definition vt_delete (key : bytes) (t : EnvelopeTxn) : EnvelopeTxn * store_result unit :=
  let '(i, r) := txn_delete key (vt_inner t) in (vt_set_inner i t, r).

Definition vt_commit (t : EnvelopeTxn) s : EncryptedKvEnvelope * store_result unit :=
  let '(i, r) := txn_commit (vt_inner t) (ev_inner s) in
  ({| ev_inner := i; ev_cipher := ev_cipher s; ev_rng := vt_rng t |}, r).

Definition vt_rollback (t : EnvelopeTxn) s : EncryptedKvEnvelope * store_result unit :=
  let '(i, r) := txn_rollback (vt_inner t) (ev_inner s) in
  ({| ev_inner := i; ev_cipher := ev_cipher s; ev_rng := vt_rng t |}, r).

#[global] Instance ev_kv : KvStore EncryptedKvEnvelope := {|
  kv_get := ev_get;
  kv_put := ev_put;
  kv_delete := ev_delete;
  kv_contains := ev_contains;
  kv_range := ev_range;
  kv_iter := ev_iter;
  kv_Txn := EnvelopeTxn;
  kv_transaction := ev_transaction;
  txn_get := vt_get;
  txn_put := vt_put;
  txn_delete := vt_delete;
  txn_commit := vt_commit;
  txn_rollback := vt_rollback;
|}.
End Store.

(** ** [EnvelopeSnapshot] *)
Section Snapshot.
Context {P : Type} `{!KvSnapshot P}.

Record EnvelopeSnapshot := { vs_inner : P; vs_cipher : EnvelopeCipher }.

Definition vs_get (key : bytes) (p : EnvelopeSnapshot) : store_result (option bytes) :=
  let? o := snap_get key (vs_inner p) in
  match o with
  | None => Ok None
  | Some ct => let? pt := to_store (env_decrypt (vs_cipher p) ct key) in Ok (Some pt)
  end.

Definition vs_range (lo hi : bytes) (p : EnvelopeSnapshot) : store_result (list RangeItem) :=
  let? raw_items := snap_range lo hi (vs_inner p) in
  decode_items (λ k ct, env_decrypt (vs_cipher p) ct k) raw_items.

#[global] Instance vs_snap : KvSnapshot EnvelopeSnapshot := {| snap_get := vs_get; snap_range := vs_range |}.
End Snapshot.
End Cipher.

#[global] Arguments EncryptedKvEnvelope {_} S.
#[global] Arguments EnvelopeTxn {_} S {_}.
#[global] Arguments EnvelopeSnapshot P : clear implicits.
