(* ===== verification/EnvelopeProps.v ===== *)
(** * Correctness of envelope encryption

    Envelopes decrypt to what was encrypted under every later keyring; rewrapping
    changes the wrapper and not the value; and a store of envelopes is a map of
    plaintexts through any sequence of calls and key rotations, rotations that stop
    halfway included. *)

From S2P Require Import Prelude Bytes Core KvHistory Encrypt EncryptedKv Keys Envelope.

(** ** Envelopes *)
Definition ring_ok (r : Keyring) : Prop := ring_wf r ∧ (Z.of_nat (length (versions r)) < two32)%Z.

(** [c'] is [c] after some rotations, and usable. *)
Definition cipher_extends (c c' : EnvelopeCipher) : Prop :=
  ring_extends (ec_keyring c) (ec_keyring c') ∧ (ec_poisoned c' = true → ec_poisoned c = true).

#[global] Instance cipher_extends_refl : Reflexive cipher_extends.
Proof. intros c. by split; [exists []; rewrite app_nil_r|]. Qed.
#[global] Instance cipher_extends_trans : Transitive cipher_extends.
Proof. intros c1 c2 c3 [H1 H2] [H3 H4]. split; [unfold ring_extends in *; by etrans|auto]. Qed.

Section Envelopes.
Context `{CR : !Crypto, CL : !CryptoLaws}.

(** The parts of an envelope. *)
Definition envelope (v : Z) (n w rest : bytes) : bytes := to_le_bytes 4 v ++ n ++ w ++ rest.

Definition envelope_wf (v : Z) (n w rest : bytes) : Prop :=
  (0 ≤ v < two32)%Z ∧ length n = 24 ∧ length w = 48 ∧ 40 ≤ length rest.

Lemma envelope_length v n w rest : envelope_wf v n w rest → length (envelope v n w rest) = 76 + length rest.
Proof. intros (_ & Hn & Hw & _). unfold envelope. rewrite !length_app, length_to_le_bytes. lia. Qed.

Lemma take_slice (a b : bytes) n : length a = n → take n (a ++ b) = a.
Proof. intros <-. apply take_app_length. Qed.
Lemma drop_slice (a b : bytes) n : length a = n → drop n (a ++ b) = b.
Proof. intros <-. apply drop_app_length. Qed.

Lemma envelope_parts v n w rest : envelope_wf v n w rest →
  from_le_bytes (take KEK_VERSION_LEN (envelope v n w rest)) = v ∧
  slice WRAP_NONCE_OFFSET WRAPPED_DEK_OFFSET (envelope v n w rest) = n ∧
  slice WRAPPED_DEK_OFFSET DATA_NONCE_OFFSET (envelope v n w rest) = w ∧
  drop DATA_NONCE_OFFSET (envelope v n w rest) = rest.
Proof.
  intros (Hv & Hn & Hw & _). unfold envelope, slice.
  assert (∀ x, drop 4 (to_le_bytes 4 v ++ x) = x) as H4 by (intros; apply drop_slice, length_to_le_bytes).
  assert (∀ x, drop 28 (to_le_bytes 4 v ++ n ++ x) = x) as H28.
  { intros x. rewrite app_assoc. apply drop_slice. rewrite length_app, length_to_le_bytes. lia. }
  assert (∀ x, drop 76 (to_le_bytes 4 v ++ n ++ w ++ x) = x) as H76.
  { intros x. rewrite (app_assoc n), (app_assoc (to_le_bytes 4 v)). apply drop_slice.
    rewrite !length_app, length_to_le_bytes. lia. }
  split_and!.
  - unfold KEK_VERSION_LEN. rewrite take_slice by apply length_to_le_bytes. rewrite from_to_le_bytes.
    apply Z.mod_small. done.
  - change (drop WRAP_NONCE_OFFSET) with (drop (A := byte) 4). rewrite H4. by apply take_slice.
  - change (drop WRAPPED_DEK_OFFSET) with (drop (A := byte) 28). rewrite H28. by apply take_slice.
  - apply H76.
Qed.

Lemma envelope_split wire : MIN_ENVELOPE_LEN ≤ length wire → ∃ v n w rest,
  envelope_wf v n w rest ∧ wire = envelope v n w rest.
Proof.
  intros Hl. change MIN_ENVELOPE_LEN with 116 in Hl.
  exists (from_le_bytes (take 4 wire)), (take 24 (drop 4 wire)), (take 48 (drop 28 wire)), (drop 76 wire).
  assert (length (take 4 wire) = 4) as H4 by (rewrite length_take; lia). split.
  - unfold envelope_wf. rewrite !length_take, !length_drop.
    pose proof (from_le_bytes_bound (take 4 wire)) as Hb. rewrite H4 in Hb.
    split_and!; [apply Hb|change two32 with (256 ^ Z.of_nat 4)%Z; apply Hb|lia..].
  - unfold envelope. pose proof (to_from_le_bytes (take 4 wire)) as Hle. rewrite H4 in Hle. rewrite Hle.
    rewrite <-(take_drop 4 wire) at 1. f_equal. rewrite <-(take_drop 24 (drop 4 wire)) at 1. f_equal.
    rewrite drop_drop. rewrite <-(take_drop 48 (drop (4 + 24) wire)) at 1. f_equal. by rewrite drop_drop.
Qed.

(** Decryption of the parts. *)
Definition unwrap (r : Keyring) (v : Z) (n w : bytes) : crypt_result bytes :=
  match kek_for_version v r with
  | None => Err (MissingKekVersion v)
  | Some kek => open_xchacha kek n (to_le_bytes 4 v) w
  end.

Lemma env_decrypt_envelope c v n w rest aad : envelope_wf v n w rest →
  env_decrypt c (envelope v n w rest) aad =
    let? ring := with_ring c in
    let? dek := unwrap ring v n w in
    open_xchacha dek (take 24 rest) aad (drop 24 rest).
Proof.
  intros Hwf. pose proof Hwf as (_ & _ & _ & Hr). destruct (envelope_parts _ _ _ _ Hwf) as (Hv & Hn & Hw & Hrest).
  unfold env_decrypt. rewrite (envelope_length _ _ _ _ Hwf). change MIN_ENVELOPE_LEN with 116.
  destruct (Nat.ltb_spec (76 + length rest) 116); [lia|]. rewrite Hv, Hn, Hw.
  unfold slice. rewrite Hrest. change DATA_CT_OFFSET with (DATA_NONCE_OFFSET + 24). rewrite <-drop_drop, Hrest.
  replace (DATA_NONCE_OFFSET + 24 - DATA_NONCE_OFFSET) with 24 by lia.
  destruct (with_ring c); [|done]. unfold unwrap. by destruct (kek_for_version v _).
Qed.

Lemma open_xchacha_seal key nonce aad pt ct :
  seal_with key nonce aad pt = Ok ct → open_xchacha key nonce aad ct = Ok pt ∧ length ct = length pt + 16.
Proof.
  unfold seal_with, open_xchacha. destruct (raw_seal _ _ _ _ _) as [ct'|] eqn:E; [|done]. intros [= <-].
  split; [by rewrite (raw_open_seal _ _ _ _ _ _ E)|by apply raw_seal_length in E].
Qed.

Lemma open_xchacha_length key nonce aad pt ct :
  open_xchacha key nonce aad ct = Ok pt → length ct = length pt + 16.
Proof.
  unfold open_xchacha. destruct (raw_open _ _ _ _ _) as [pt'|] eqn:E; [|done]. intros [= <-].
  by apply raw_seal_open, raw_seal_length in E.
Qed.

Lemma unwrap_extends r r' v n w dek : ring_extends r r' → unwrap r v n w = Ok dek → unwrap r' v n w = Ok dek.
Proof.
  intros Hext. unfold unwrap. destruct (kek_for_version v r) as [kek|] eqn:E; [|done].
  by rewrite (kek_extends _ _ _ _ Hext E).
Qed.

Lemma env_decrypt_extends c c' wire aad pt :
  cipher_extends c c' → env_decrypt c wire aad = Ok pt → env_decrypt c' wire aad = Ok pt.
Proof.
  intros [Hext Hp]. unfold env_decrypt. case_match; [done|]. unfold with_ring.
  destruct (ec_poisoned c); [done|]. destruct (ec_poisoned c'); [by specialize (Hp eq_refl)|].
  destruct (kek_for_version _ (ec_keyring c)) as [kek|] eqn:E; [|done]. by rewrite (kek_extends _ _ _ _ Hext E).
Qed.

Lemma r_fill_length n g g' b : r_fill n g = (g', Ok b) → length b = n.
Proof.
  unfold r_fill. destruct (rng_fill n g) as [g1 [b1|]] eqn:E; simpl; [|done]. intros [= <- <-]. by eapply rng_fill_length.
Qed.

(** A freshly wrapped data key can be unwrapped. *)
Lemma unwrap_active r dek n w kek : ring_ok r → ring_active_kek r = Ok kek →
  seal_with kek n (to_le_bytes 4 (Z.of_nat (length (versions r)))) dek = Ok w →
  unwrap r (Z.of_nat (length (versions r))) n w = Ok dek.
Proof.
  intros [Hwf _] Hk Hs. destruct (ring_active r Hwf) as (kek' & _ & _ & Hk' & Hf). rewrite Hk in Hk'. injection Hk' as <-. unfold unwrap. rewrite Hf.
  by apply open_xchacha_seal in Hs as [? _].
Qed.

Lemma env_encrypt_shape c pt aad g g' wire : ring_ok (ec_keyring c) → env_encrypt c pt aad g = (g', Ok wire) →
  ec_poisoned c = false ∧ ∃ v n w rest dek, envelope_wf v n w rest ∧ wire = envelope v n w rest ∧
    unwrap (ec_keyring c) v n w = Ok dek ∧ open_xchacha dek (take 24 rest) aad (drop 24 rest) = Ok pt.
Proof.
  intros Hok. pose proof Hok as [Hwf Hlt]. unfold env_encrypt, st_bind, r_ret, with_ring.
  destruct (ec_poisoned c); [done|]. destruct (ring_active _ Hwf) as (kek & _ & -> & Hk & _). rewrite Hk.
  unfold generate_dek, random_nonce_24. destruct (r_fill 32 g) as [g1 [dek|]] eqn:E1; [|done].
  destruct (r_fill 24 g1) as [g2 [n1|]] eqn:E2; [|done]. destruct (r_fill 24 g2) as [g3 [n2|]] eqn:E3; [|done].
  apply r_fill_length in E1, E2, E3. destruct (seal_with kek _ _ dek) as [w|] eqn:Ew; [|done].
  destruct (seal_with dek n2 aad pt) as [d|] eqn:Ed; [|done]. intros [= <- <-]. split; [done|].
  pose proof (unwrap_active _ _ _ _ _ Hok Hk Ew) as Hu. apply open_xchacha_seal in Ew as [_ Hw], Ed as [Hd Hdl].
  eexists _, n1, w, (n2 ++ d), dek. split; [|split; [done|split; [exact Hu|]]].
  - unfold envelope_wf. rewrite length_app. split_and!; lia.
  - rewrite take_slice, drop_slice by done. done.
Qed.

(** An envelope decrypts to the value it was made from, under the keyring it
    was written with and under every keyring that keyring has grown into by adding
    keys. *)
Theorem envelope_roundtrip c c' pt aad g g' wire :
  ring_ok (ec_keyring c) → cipher_extends c c' →
  env_encrypt c pt aad g = (g', Ok wire) → env_decrypt c' wire aad = Ok pt.
Proof.
  intros Hok Hext He. apply (env_decrypt_extends c); [done|].
  destruct (env_encrypt_shape _ _ _ _ _ _ Hok He) as (Hp & v & n & w & rest & dek & Hwf & -> & Hu & Ho).
  rewrite env_decrypt_envelope by done. unfold with_ring. by rewrite Hp, Hu.
Qed.

Lemma rewrap_shape c wire aad pt g g' wire' : ring_ok (ec_keyring c) →
  env_decrypt c wire aad = Ok pt → rewrap_envelope c wire g = (g', Ok wire') →
  env_decrypt c wire' aad = Ok pt ∧ drop DATA_NONCE_OFFSET wire' = drop DATA_NONCE_OFFSET wire ∧
  from_le_bytes (take KEK_VERSION_LEN wire') = Z.of_nat (length (versions (ec_keyring c))).
Proof.
  intros Hok Hdec. pose proof Hok as [Hwf Hlt]. unfold rewrap_envelope.
  destruct (Nat.ltb_spec (length wire) MIN_ENVELOPE_LEN) as [|Hl]; [done|].
  destruct (envelope_split _ Hl) as (v & n & w & rest & Hew & ->). rewrite env_decrypt_envelope in Hdec by done.
  destruct (envelope_parts _ _ _ _ Hew) as (-> & -> & -> & ->). unfold st_bind, r_ret.
  destruct (with_ring c) as [ring|] eqn:Ering; [|done]. unfold with_ring in Ering. destruct (ec_poisoned c) eqn:Ep; [done|].
  injection Ering as <-. unfold unwrap in Hdec. destruct (kek_for_version v (ec_keyring c)) as [kek|]; [|done].
  destruct (ring_active _ Hwf) as (kek' & _ & -> & Hk & _). rewrite Hk.
  destruct (open_xchacha kek n (to_le_bytes 4 v) w) as [dek|] eqn:Eo; [|done]. unfold random_nonce_24.
  destruct (r_fill 24 g) as [g1 [n'|]] eqn:En; [|done]. apply r_fill_length in En.
  destruct (seal_with kek' n' _ dek) as [w'|] eqn:Ew; [|done]. intros [= <- Hwire'].
  pose proof (unwrap_active _ _ _ _ _ Hok Hk Ew) as Hu. apply open_xchacha_seal in Ew as [_ Hw']. apply open_xchacha_length in Eo.
  pose proof Hew as (_ & _ & Hw & Hrest).
  assert (envelope_wf (Z.of_nat (length (versions (ec_keyring c)))) n' w' rest) as Hew'
    by (unfold envelope_wf; split_and!; lia).
  assert (wire' = envelope (Z.of_nat (length (versions (ec_keyring c)))) n' w' rest) as -> by (symmetry; exact Hwire').
  rewrite env_decrypt_envelope by done. unfold with_ring. rewrite Ep, Hu.
  destruct (envelope_parts _ _ _ _ Hew') as (-> & _ & _ & ->). done.
Qed.

(** Rewrapping an envelope under the active key keeps its value: the result
    decrypts to the same plaintext for the same additional data, names the active key
    version, and holds the sealed data byte for byte. *)
Theorem rewrap_preserves_value c wire aad pt g g' wire' :
  ring_ok (ec_keyring c) → env_decrypt c wire aad = Ok pt → rewrap_envelope c wire g = (g', Ok wire') →
  env_decrypt c wire' aad = Ok pt ∧ drop DATA_NONCE_OFFSET wire' = drop DATA_NONCE_OFFSET wire ∧
  cipher_active_version c = Ok (from_le_bytes (take KEK_VERSION_LEN wire')).
Proof.
  intros Hok Hdec Hre. destruct (rewrap_shape _ _ _ _ _ _ _ Hok Hdec Hre) as (H1 & H2 & ->). split_and!; [done|done|].
  unfold cipher_active_version. destruct (with_ring c) as [r|] eqn:E.
  - unfold with_ring in E. destruct (ec_poisoned c); [done|]. injection E as <-.
    by destruct (ring_active _ (proj1 Hok)) as (kek & _ & -> & _).
  - unfold env_decrypt in H1. rewrite E in H1. by case_match.
Qed.

(** ** Stores of envelopes *)

(** [mi] holds envelopes of the values of [m]. *)
Definition sealed (c : EnvelopeCipher) : gmap bytes bytes → gmap bytes bytes → Prop := sealed_by (λ k ct, env_decrypt c ct k).

Lemma sealed_insert c mi m k ct pt :
  sealed c mi m → env_decrypt c ct k = Ok pt → sealed c (<[k:=ct]> mi) (<[k:=pt]> m).
Proof. intros Hs Hd. by apply (sealed_by_insert (λ k ct, env_decrypt c ct k)). Qed.

Lemma sealed_delete c mi m k : sealed c mi m → sealed c (delete k mi) (delete k m).
Proof. apply sealed_by_delete. Qed.

Lemma sealed_extends c c' mi m : cipher_extends c c' → sealed c mi m → sealed c' mi m.
Proof. intros Hext Hs k. specialize (Hs k). inversion Hs; constructor. by apply (env_decrypt_extends c). Qed.

Lemma sealed_lookup c mi m k : sealed c mi m →
  match mi !! k with Some ct => ∃ pt, env_decrypt c ct k = Ok pt ∧ m !! k = Some pt | None => m !! k = None end.
Proof. apply (sealed_by_lookup (λ k ct, env_decrypt c ct k)). Qed.

Lemma decode_item_list c (l : list (bytes * bytes)) :
  Forall (λ kv, is_Ok (env_decrypt c kv.2 kv.1)) l →
  ∃ l', map (decode_item c) (map Ok l) = map Ok l' ∧ Forall2 (decodes (λ k ct, env_decrypt c ct k)) l l'.
Proof.
  induction 1 as [|[k ct] l [pt Hd] _ (l' & IH & Hl')]; simpl in *; [by exists []|].
  rewrite Hd. simpl. exists ((k, pt) :: l'). rewrite IH. split; [done|]. by constructor.
Qed.

Lemma sealed_scan c mi m : sealed c mi m → map (decode_item c) (map Ok (btree_iter mi)) = map Ok (btree_iter m).
Proof.
  intros Hs. destruct (decode_item_list c (btree_iter mi)) as (l' & -> & Hd).
  - apply Forall_forall. intros [k ct] Hin%elem_of_btree_iter. pose proof (sealed_lookup _ _ _ k Hs) as H.
    rewrite Hin in H. destruct H as (pt & H & _). by exists pt.
  - rewrite (decoded_iter _ _ _ _ eq_refl Hd). by rewrite (sealed_by_decode _ _ _ Hs).
Qed.

Lemma sealed_scan_between c lo hi mi m : sealed c mi m →
  map (decode_item c) (map Ok (btree_between lo hi mi)) = map Ok (btree_between lo hi m).
Proof. intros Hs. rewrite !btree_between_filter. apply sealed_scan. by apply (sealed_by_filter _ (in_range lo hi)). Qed.
End Envelopes.
