(* ===== verification/EnvelopeStore.v ===== *)
(** * [EncryptedKvEnvelope] is a map of plaintexts

    Over any store that simulates a map ([KvSim] of [KvHistory.v]), the envelope store
    simulates the map of plaintexts, through key rotations as well. *)

From S2P Require Import Prelude Bytes Core KvHistory Encrypt EncryptedKv Keys Envelope EnvelopeProps.

Section Store.
Context `{CR : !Crypto, CL : !CryptoLaws} {S : Type} `{KS : !KvStore S}.
Context {irel : Z → S → gmap bytes bytes → Prop} {itrel : Z → kv_Txn (S := S) → S → gmap bytes bytes → Prop}.
Context (inner : KvSim irel itrel).
Implicit Types (s : EncryptedKvEnvelope S) (t : EnvelopeTxn S) (m mi : gmap bytes bytes).

(** The stored envelopes are those of [m] under the cipher [c]. *)
Definition ev_rel (c : EnvelopeCipher) (now : Z) s m : Prop :=
  ev_cipher s = c ∧ ∃ mi, irel now (ev_inner s) mi ∧ sealed c mi m.

Definition ev_trel (c : EnvelopeCipher) (now : Z) (t : EnvelopeTxn S) s m : Prop :=
  vt_cipher t = c ∧ ∃ mi, itrel now (vt_inner t) (ev_inner s) mi ∧ sealed c mi m.

Lemma env_encrypt_sealed c mi m k v g g' ct : ring_ok (ec_keyring c) → sealed c mi m →
  env_encrypt c v k g = (g', Ok ct) → sealed c (<[k:=ct]> mi) (<[k:=v]> m).
Proof.
  intros Hok Hs He. apply sealed_insert; [done|].
  destruct (env_encrypt_shape _ _ _ _ _ _ Hok He) as (Hp & v' & n & w & rest & dek & Hwf & -> & Hu & Ho).
  rewrite env_decrypt_envelope by done. unfold with_ring. by rewrite Hp, Hu.
Qed.

Section Sim.
Context (c : EnvelopeCipher) (Hok : ring_ok (ec_keyring c)).

Lemma ev_rel_set now s m mi i : ev_cipher s = c → irel now i mi → sealed c mi m → ev_rel c now (ev_set_inner i s) m.
Proof. intros. by split; [|exists mi]. Qed.

Lemma ev_sim_get now k s s' r m : ev_rel c now s m → ev_get now k s = (s', r) →
  ev_rel c now s' m ∧ ∀ o, r = Ok o → o = m !! k.
Proof.
  intros (Hc & mi & Hi & Hs). unfold ev_get. rewrite Hc. destruct (kv_get now k (ev_inner s)) as [i r'] eqn:Eg.
  destruct (sim_get _ _ inner _ _ _ _ _ _ Hi Eg) as [Hi' Ho]. pose proof (ev_rel_set now s m mi i Hc Hi' Hs).
  destruct r' as [o|e]; [|by intros [= <- <-]]. pose proof (sealed_by_read _ _ _ k o Hs (Ho o eq_refl)) as Hr.
  destruct o; intros [= <- <-]; split; [done|done|done|]. intros o' [= <-]. by apply Hr.
Qed.

Lemma ev_sim_put now k v s s' r m : ev_rel c now s m → ev_put k v s = (s', r) →
  ev_rel c now s' (match r with Ok _ => <[k:=v]> m | Err _ => m end).
Proof.
  intros (Hc & mi & Hi & Hs). unfold ev_put. rewrite Hc.
  destruct (env_encrypt c v k (ev_rng s)) as [g [ct|e]] eqn:Ee; [|intros [= <- <-]; by split; [|exists mi]].
  destruct (kv_put k ct (ev_inner s)) as [i r'] eqn:Ep. pose proof (sim_put _ _ inner _ _ _ _ _ _ _ Hi Ep) as Hi'.
  intros [= <- <-]. split; [done|]. destruct r' as [[]|e]; simpl; [|by exists mi].
  exists (<[k:=ct]> mi). split; [done|]. by apply (env_encrypt_sealed _ _ _ _ _ _ _ _ Hok Hs Ee).
Qed.

Lemma ev_sim_delete now k s s' r m : ev_rel c now s m → ev_delete k s = (s', r) →
  ev_rel c now s' (match r with Ok _ => delete k m | Err _ => m end).
Proof.
  intros (Hc & mi & Hi & Hs). unfold ev_delete. destruct (kv_delete k (ev_inner s)) as [i r'] eqn:Ed.
  pose proof (sim_delete _ _ inner _ _ _ _ _ _ Hi Ed) as Hi'. intros [= <- <-].
  destruct r' as [[]|e]; simpl; (eapply ev_rel_set; [done|done|]); [by apply sealed_delete|done].
Qed.

Lemma ev_sim_contains now k s s' r m : ev_rel c now s m → ev_contains now k s = (s', r) →
  ev_rel c now s' m ∧ ∀ b, r = Ok b → b = bool_decide (is_Some (m !! k)).
Proof.
  intros (Hc & mi & Hi & Hs). unfold ev_contains. destruct (kv_contains now k (ev_inner s)) as [i r'] eqn:Ec.
  destruct (sim_contains _ _ inner _ _ _ _ _ _ Hi Ec) as [Hi' Hb]. intros [= <- <-].
  split; [by eapply ev_rel_set|]. intros b Hr. by rewrite (Hb b Hr), (sealed_by_member _ _ _ _ Hs).
Qed.

Lemma ev_sim_txn_get now k (t t' : EnvelopeTxn S) r s m : ev_trel c now t s m → vt_get now k t = (t', r) →
  ev_trel c now t' s m ∧ ∀ o, r = Ok o → o = m !! k.
Proof.
  intros (Hc & mi & Hi & Hs). unfold vt_get. rewrite Hc. destruct (txn_get now k (vt_inner t)) as [i r'] eqn:Eg.
  destruct (sim_txn_get _ _ inner _ _ _ _ _ _ _ Hi Eg) as [Hi' Ho].
  assert (ev_trel c now (vt_set_inner i t) s m) by by split; [|exists mi].
  destruct r' as [o|e]; [|by intros [= <- <-]]. pose proof (sealed_by_read _ _ _ k o Hs (Ho o eq_refl)) as Hr.
  destruct o; intros [= <- <-]; split; [done|done|done|]. intros o' [= <-]. by apply Hr.
Qed.

Lemma ev_sim_txn_put now k v (t t' : EnvelopeTxn S) s m : ev_trel c now t s m → vt_put k v t = (t', Ok ()) →
  ev_trel c now t' s (<[k:=v]> m).
Proof.
  intros (Hc & mi & Hi & Hs). unfold vt_put. rewrite Hc.
  destruct (env_encrypt c v k (vt_rng t)) as [g [ct|e]] eqn:Ee; [|done].
  destruct (txn_put k ct (vt_inner t)) as [i r'] eqn:Ep. intros [= <- ->].
  pose proof (sim_txn_put _ _ inner _ _ _ _ _ _ _ Hi Ep) as Hi'. split; [done|].
  exists (<[k:=ct]> mi). split; [done|]. by apply (env_encrypt_sealed _ _ _ _ _ _ _ _ Hok Hs Ee).
Qed.

Lemma ev_sim_txn_delete now k (t t' : EnvelopeTxn S) s m : ev_trel c now t s m → vt_delete k t = (t', Ok ()) →
  ev_trel c now t' s (delete k m).
Proof.
  intros (Hc & mi & Hi & Hs). unfold vt_delete. destruct (txn_delete k (vt_inner t)) as [i r'] eqn:Ed. intros [= <- ->].
  pose proof (sim_txn_delete _ _ inner _ _ _ _ _ _ Hi Ed) as Hi'. split; [done|].
  exists (delete k mi). split; [done|]. by apply sealed_delete.
Qed.

Lemma ev_sim_commit now (t : EnvelopeTxn S) s s' r m m' :
  ev_rel c now s m → ev_trel c now t s m' → vt_commit t s = (s', r) →
  ev_rel c now s' (match r with Ok _ => m' | Err _ => m end).
Proof.
  intros (Hc & mi & Hi & Hs) (_ & mi' & Hi' & Hs'). unfold vt_commit.
  destruct (txn_commit (vt_inner t) (ev_inner s)) as [i r'] eqn:Ec.
  pose proof (sim_commit _ _ inner _ _ _ _ _ _ _ Hi Hi' Ec) as Hi''. intros [= <- <-]. split; [done|].
  destruct r' as [[]|e]; simpl; [by exists mi'|by exists mi].
Qed.

Lemma ev_sim : KvSim (ev_rel c) (ev_trel c).
Proof.
  split.
  - intros now u s m (Hc & mi & Hi & Hs) Hu. split; [done|]. exists mi. split; [|done]. by apply (sim_later _ _ inner now).
  - apply ev_sim_get.
  - apply ev_sim_put.
  - apply ev_sim_delete.
  - apply ev_sim_contains.
  - intros now lo hi s l m (Hc & mi & Hi & Hs). simpl. unfold ev_range. rewrite Hc.
    destruct (kv_range now lo hi (ev_inner s)) as [items|] eqn:Er; [|done]. intros [= <-].
    rewrite (sim_range _ _ inner _ _ _ _ _ _ Hi Er). by apply sealed_scan_between.
  - intros now s l m (Hc & mi & Hi & Hs). simpl. unfold ev_iter. rewrite Hc.
    destruct (kv_iter now (ev_inner s)) as [items|] eqn:Er; [|done]. intros [= <-].
    rewrite (sim_iter _ _ inner _ _ _ _ Hi Er). by apply sealed_scan.
  - intros now s t m (Hc & mi & Hi & Hs). simpl. unfold ev_transaction.
    destruct (kv_transaction (ev_inner s)) as [i|] eqn:Et; [|done]. intros [= <-]. split; [done|].
    exists mi. split; [|done]. by apply (sim_transaction _ _ inner _ _ _ _ Hi).
  - apply ev_sim_txn_get.
  - apply ev_sim_txn_put.
  - apply ev_sim_txn_delete.
  - apply ev_sim_commit.
  - intros now t s s' r m (Hc & mi & Hi & Hs). simpl. unfold vt_rollback.
    destruct (txn_rollback (vt_inner t) (ev_inner s)) as [i r'] eqn:Er. intros [= <- <-]. split; [done|]. exists mi.
    split; [|done]. by apply (sim_rollback _ _ inner _ _ _ _ _ _ Hi Er).
Qed.
End Sim.

(** ** Rotation *)
Definition ring_room (n : nat) (c : EnvelopeCipher) : Prop :=
  ring_wf (ec_keyring c) ∧ (Z.of_nat (length (versions (ec_keyring c)) + n) < two32)%Z.

Lemma ring_room_ok n c : ring_room n c → ring_ok (ec_keyring c).
Proof. intros [Hwf Hn]. split; [done|]. lia. Qed.

Lemma add_kek_spec n new_kek c c' r : ring_room (1 + n) c → length new_kek = 32 → add_kek_version new_kek c = (c', r) →
  ring_room n c' ∧ cipher_extends c c' ∧ (ec_poisoned c = false → is_Ok r).
Proof.
  intros [Hwf Hn] Hk. unfold add_kek_version, with_ring. destruct (ec_poisoned c) eqn:Ep.
  - intros [= <- <-]. split; [by split; [|lia]|by split].
  - destruct (rotate_spec new_kek (ec_keyring c) Hwf Hk) as (ring & Hr & Hwf' & Hext & Hl & _); [unfold two32 in *; lia|].
    rewrite Hr. intros [= <- <-]. split; [split; simpl; [done|lia]|]. split; [by split|by eexists].
Qed.

Lemma rewrap_entries_spec {E} (f : EncryptError → E) (h : StoreError → E) now c count entries (i i' : S) g g' r mi m :
  ring_ok (ec_keyring c) → irel now i mi → sealed c mi m →
  Forall (λ kv, ∃ pt, env_decrypt c kv.2 kv.1 = Ok pt ∧ m !! kv.1 = Some pt) entries →
  rewrap_entries f h c count entries i g = (i', g', r) →
  (∃ mi', irel now i' mi' ∧ sealed c mi' m) ∧ ∀ n, r = Ok n → n = (count + Z.of_nat (length entries))%Z.
Proof.
  intros Hok. revert count i g mi. induction entries as [|[k old] entries IH]; intros count i g mi Hi Hs Hf; simpl.
  { intros [= <- <- <-]. split; [by exists mi|]. intros n [= <-]. lia. }
  apply Forall_cons in Hf as [(pt & Hd & Hm) Hf]. simpl in *. destruct (rewrap_envelope c old g) as [g1 [new|e]] eqn:Er.
  2:{ intros [= <- <- <-]. split; [by exists mi|done]. }
  destruct (rewrap_shape _ _ _ _ _ _ _ Hok Hd Er) as (Hd' & _).
  destruct (kv_put k new i) as [i1 r1] eqn:Ep. pose proof (sim_put _ _ inner _ _ _ _ _ _ _ Hi Ep) as Hi1.
  destruct r1 as [[]|e]; [|intros [= <- <- <-]; split; [by exists mi|done]].
  intros Hrun. assert (sealed c (<[k:=new]> mi) m) as Hs1.
  { rewrite <-(insert_id m k pt) by done. by apply sealed_insert. }
  destruct (IH _ _ _ _ Hi1 Hs1 Hf Hrun) as [Hex Hcount]. split; [done|]. intros n Hn. rewrite (Hcount n Hn). lia.
Qed.

Lemma sealed_entries c mi m : sealed c mi m →
  Forall (λ kv, ∃ pt, env_decrypt c kv.2 kv.1 = Ok pt ∧ m !! kv.1 = Some pt) (btree_iter mi).
Proof.
  intros Hs. apply Forall_forall. intros [k ct] Hin%elem_of_btree_iter. pose proof (sealed_lookup _ _ _ k Hs) as H.
  by rewrite Hin in H.
Qed.

Lemma sealed_size c mi m : sealed c mi m → size mi = size m.
Proof.
  intros Hs. rewrite <-!btree_iter_length. pose proof (sealed_scan _ _ _ Hs) as H.
  apply (f_equal length) in H. by rewrite !length_map in H.
Qed.

Lemma map_map_err_Ok {A E F} (f : E → F) (l : list A) : map (map_err f) (map Ok l) = map Ok l.
Proof. rewrite map_map. done. Qed.

Lemma rotate_kek_spec n now new_kek s s' r m :
  ev_rel (ev_cipher s) now s m → ring_room (1 + n) (ev_cipher s) → length new_kek = 32 →
  rotate_kek now new_kek s = (s', r) →
  ev_rel (ev_cipher s') now s' m ∧ ring_room n (ev_cipher s') ∧ ∀ c, r = Ok c → c = Z.of_nat (size m).
Proof.
  intros (_ & mi & Hi & Hs) Hroom Hk. unfold rotate_kek.
  assert (ring_room n (ev_cipher s)) as Hroom' by (destruct Hroom; split; [done|lia]).
  destruct (kv_iter now (ev_inner s)) as [items|e] eqn:Ei; simpl.
  2:{ intros [= <- <-]. split; [by split; [|exists mi]|by split]. }
  rewrite (sim_iter _ _ inner _ _ _ _ Hi Ei), map_map_err_Ok, collect_map_Ok.
  destruct (add_kek_version new_kek (ev_cipher s)) as [c ra] eqn:Ea.
  destruct (add_kek_spec _ _ _ _ _ Hroom Hk Ea) as (Hroom1 & Hext & _). pose proof (ring_room_ok _ _ Hroom1) as Hok1.
  pose proof (sealed_extends _ _ _ _ Hext Hs) as Hs1. destruct ra as [v|e].
  2:{ intros [= <- <-]. split; [by split; [|exists mi]|by split]. }
  destruct (rewrap_entries _ _ c 0 _ _ _) as [[i g] r'] eqn:Er. intros [= <- <-].
  destruct (rewrap_entries_spec _ _ _ _ _ _ _ _ _ _ _ _ _ Hok1 Hi Hs1 (sealed_entries _ _ _ Hs1) Er) as [Hex Hcount].
  split; [by split|]. split; [done|]. intros c' Hc. rewrite (Hcount _ Hc), btree_iter_length, (sealed_size _ _ _ Hs). lia.
Qed.

(** ** Histories with rotations *)
Inductive EvOp := EvKv (op : KvOp) | EvRotate (new_kek : bytes) | EvAddKek (new_kek : bytes).

Inductive EvOut := EvAnswer (r : store_result KvOut) | EvRotated (r : store_result Z) | EvAdded (r : crypt_result Z).

Definition ev_step (now : Z) (op : EvOp) s : EncryptedKvEnvelope S * EvOut :=
  match op with
  | EvKv op => let '(s, r) := kv_step now op s in (s, EvAnswer r)
  | EvRotate new_kek => let '(s, r) := rotate_kek now new_kek s in (s, EvRotated r)
  | EvAddKek new_kek =>
      let '(c, r) := add_kek_version new_kek (ev_cipher s) in
      ({| ev_inner := ev_inner s; ev_cipher := c; ev_rng := ev_rng s |}, EvAdded r)
  end.

Fixpoint ev_run (script : list (Z * EvOp)) s : EncryptedKvEnvelope S * list (EvOp * EvOut) :=
  match script with
  | [] => (s, [])
  | (now, op) :: script =>
      let '(s, r) := ev_step now op s in
      let '(s, trace) := ev_run script s in (s, (op, r) :: trace)
  end.

(** The map accepts a trace: rotations leave it as it is, failed or not, and report
    the number of its entries. *)
Fixpoint ev_accepts (m : gmap bytes bytes) (trace : list (EvOp * EvOut)) : Prop :=
  match trace with
  | [] => True
  | (EvKv op, EvAnswer (Ok r)) :: trace => r = (map_step op m).2 ∧ ev_accepts (map_step op m).1 trace
  | (EvKv op, EvAnswer (Err _)) :: trace => ev_accepts m trace
  | (EvRotate _, EvRotated r) :: trace => (∀ n, r = Ok n → n = Z.of_nat (size m)) ∧ ev_accepts m trace
  | (EvAddKek _, EvAdded _) :: trace => ev_accepts m trace
  | _ => False
  end.

Fixpoint ev_final (m : gmap bytes bytes) (trace : list (EvOp * EvOut)) : gmap bytes bytes :=
  match trace with
  | [] => m
  | (EvKv op, EvAnswer (Ok r)) :: trace => ev_final (map_step op m).1 trace
  | _ :: trace => ev_final m trace
  end.

Fixpoint ev_clock_ok (now : Z) (script : list (Z * EvOp)) : Prop :=
  match script with
  | [] => True
  | (t, _) :: script => later now t ∧ ev_clock_ok t script
  end.

(** Keys are arrays of 32 bytes. *)
Definition ev_op_ok (op : EvOp) : Prop :=
  match op with EvKv _ => True | EvRotate kek | EvAddKek kek => length kek = 32 end.

Lemma ev_step_sim n now op s s' out m :
  ev_rel (ev_cipher s) now s m → ring_room (1 + n) (ev_cipher s) → ev_op_ok op → ev_step now op s = (s', out) →
  ev_rel (ev_cipher s') now s' (ev_final m [(op, out)]) ∧ ring_room n (ev_cipher s') ∧ ev_accepts m [(op, out)].
Proof.
  intros Hrel Hroom Hop. pose proof (ring_room_ok _ _ Hroom) as Hok.
  assert (ring_room n (ev_cipher s)) as Hroom' by (destruct Hroom; split; [done|lia]).
  destruct op as [op|kek|kek]; simpl.
  - pose proof (kv_step_sim (ev_sim _ Hok) now op s m Hrel) as Hstep. destruct (kv_step now op s) as [s1 r].
    intros [= <- <-]. unfold step_ok in Hstep. simpl in Hstep. destruct r as [a|e].
    + destruct Hstep as [-> Hrel1]. pose proof Hrel1 as [-> _]. by split.
    + pose proof Hstep as [-> _]. by split.
  - destruct (rotate_kek now kek s) as [s1 r] eqn:Er. intros [= <- <-].
    destruct (rotate_kek_spec _ _ _ _ _ _ _ Hrel Hroom Hop Er) as (Hrel1 & Hroom1 & Hn). by split.
  - destruct (add_kek_version kek (ev_cipher s)) as [c r] eqn:Ea. intros [= <- <-].
    destruct (add_kek_spec _ _ _ _ _ Hroom Hop Ea) as (Hroom1 & Hext & _). destruct Hrel as (_ & mi & Hi & Hs).
    split; [|by split]. split; [done|]. exists mi. split; [done|]. by apply (sealed_extends (ev_cipher s)).
Qed.

(** C5: An envelope store is a map of plaintexts through key rotations.  Over any
    store that is a map, every history of trait calls, additions of keys and
    rotations answers as a finite map of plaintexts does: rotations change no value,
    report the number of entries when they succeed, and when one stops halfway every
    value can still be read; at the end the stored envelopes decrypt to exactly that
    map. *)
Theorem envelope_history_refines_map now script s m s' trace :
  ev_rel (ev_cipher s) now s m → ring_room (length script) (ev_cipher s) →
  Forall (λ top, ev_op_ok top.2) script → ev_clock_ok now script → ev_run script s = (s', trace) →
  ev_accepts m trace ∧ ∃ now', ev_rel (ev_cipher s') now' s' (ev_final m trace).
Proof.
  revert now s m trace. induction script as [|[t op] script IH]; intros now s m trace Hrel Hroom Hops Hck; simpl.
  { intros [= <- <-]. simpl. eauto. }
  destruct Hck as [Hlt Hck]. apply Forall_cons in Hops as [Hop Hops]. simpl in Hop.
  assert (ev_rel (ev_cipher s) t s m) as Hrel' by by apply (sim_later _ _ (ev_sim _ (ring_room_ok _ _ Hroom)) now).
  destruct (ev_step t op s) as [s1 out] eqn:Es. destruct (ev_run script s1) as [s2 tr] eqn:Er. intros [= <- <-].
  destruct (ev_step_sim _ _ _ _ _ _ _ Hrel' Hroom Hop Es) as (Hrel1 & Hroom1 & Hacc).
  destruct (IH _ _ _ _ Hrel1 Hroom1 Hops Hck Er) as [Htr Hfin]. split.
  - destruct op, out as [[]| |]; simpl in *; naive_solver.
  - destruct op, out as [[]| |]; simpl in *; naive_solver.
Qed.
End Store.

(** ** Rotation and expiry *)
Section Expiry.
Context `{CR : !Crypto, CL : !CryptoLaws} {S : Type} `{KS : !KvStore S, KV : !KvView S, SL : !KvLaws S}.

(** The key holds an envelope of [pt] at the instant [t]. *)
Definition holds (c : EnvelopeCipher) (t : Z) (i : S) (k pt : bytes) : Prop :=
  ∃ ct, kv_view t i !! k = Some ct ∧ env_decrypt c ct k = Ok pt.

Lemma rewrap_entries_permanent {E : Type} (m : gmap bytes bytes) (f : EncryptError → E) (h : StoreError → E) c count entries
    (i i' : S) g g' n t k pt :
  ring_ok (ec_keyring c) →
  Forall (λ kv, ∃ pt, env_decrypt c kv.2 kv.1 = Ok pt ∧ m !! kv.1 = Some pt) entries →
  rewrap_entries f h c count entries i g = (i', g', Ok n) → m !! k = Some pt →
  k ∈ entries.*1 ∨ holds c t i k pt → holds c t i' k pt.
Proof.
  intros Hok. revert count i g. induction entries as [|[key old] entries IH]; intros count i g Hf; csimpl.
  { intros [= -> _ _] _ [Hin|?]; [by apply elem_of_nil in Hin|done]. }
  apply Forall_cons in Hf as [(pt' & Hd & Hm') Hf]. simpl in *. destruct (rewrap_envelope c old g) as [g1 [new|]] eqn:Er; [|done].
  destruct (kv_put key new i) as [i1 [[]|]] eqn:Ep; [|done]. intros Hrun Hm Hk. apply (IH _ _ _ Hf Hrun Hm).
  destruct (rewrap_shape _ _ _ _ _ _ _ Hok Hd Er) as (Hd' & _). unfold holds. rewrite (kv_put_law _ _ _ _ t Ep).
  destruct (decide (k = key)) as [->|Hne].
  - right. exists new. rewrite lookup_insert_eq. split; [done|]. congruence.
  - rewrite lookup_insert_ne by done. destruct Hk as [[->|Hin]%elem_of_cons|Hh]; [done|by left|by right].
Qed.

(** Rotation makes entries permanent.  A successful rotation rewrites every
    visible entry with [put], which has no deadline: a value that was visible at the
    rotation, also one written with a time-to-live, is visible at every instant
    afterwards. *)
Theorem rotation_erases_expiry (m : gmap bytes bytes) now new_kek (s s' : EncryptedKvEnvelope S) n :
  sealed (ev_cipher s) (kv_view now (ev_inner s)) m → ring_room 1 (ev_cipher s) → length new_kek = 32 →
  rotate_kek now new_kek s = (s', Ok n) →
  ∀ t k pt, m !! k = Some pt → holds (ev_cipher s') t (ev_inner s') k pt.
Proof.
  intros Hs Hroom Hk Hrot t k pt Hm. unfold rotate_kek in Hrot.
  destruct (kv_iter now (ev_inner s)) as [items|e] eqn:Ei; [|done]. simpl in Hrot. apply kv_iter_law in Ei as ->.
  rewrite map_map_err_Ok, collect_map_Ok in Hrot. destruct (add_kek_version new_kek (ev_cipher s)) as [c [v|e]] eqn:Ea; [|done].
  destruct (add_kek_spec 0 _ _ _ _ Hroom Hk Ea) as (Hroom1 & Hext & _). pose proof (sealed_extends _ _ _ _ Hext Hs) as Hs1.
  destruct (rewrap_entries _ _ c 0 _ _ _) as [[i g] r'] eqn:Er. injection Hrot as <- ->. simpl.
  eapply (rewrap_entries_permanent m);
    [by eapply ring_room_ok|by eapply sealed_entries|exact Er|done|]. left.
  pose proof (sealed_lookup _ _ _ k Hs1) as Hl. destruct (kv_view now (ev_inner s) !! k) as [ct|] eqn:Ev; [|congruence].
  apply (list_elem_of_fmap_2' fst _ (k, ct)); [by apply elem_of_btree_iter|done].
Qed.
End Expiry.
