(* ===== verification/EncryptWitness.v ===== *)
(** * Encrypted stores on concrete inputs

    The theorems on [EncryptedKv] and on envelopes applied with the toy primitives of
    [Encrypt.v], over the in-memory store, and over [sled] where deadlines matter. *)

From S2P Require Import Prelude Bytes Core KvHistory StoreSpec TreeDb TreeSpec Sled SledSpec SledProps.
From S2P Require Import Encrypt EncryptedKv EncryptedProps Keys Envelope EnvelopeProps EnvelopeStore.

Definition demo_key : StaticKey := {| sk_bytes := replicate 32 x2a |}.
Definition ek1 : bytes := [x61].
Definition ek2 : bytes := [x62].
Definition plain1 : bytes := [x31; x32].
Definition plain2 : bytes := [x33].

(** ** [EncryptedKv] *)
Abbreviation DemoEnc := (EncryptedKv (gmap bytes bytes) StaticKey (aead_of AesGcmSiv256)).

Definition enc_empty : DemoEnc := {| ek_inner := (∅ : gmap bytes bytes); ek_key := demo_key; ek_rng := (0 : Rng) |}.

Definition enc_script : list (Z * KvOp) :=
  [(0%Z, KvPut ek1 plain1); (1%Z, KvGet ek1); (1%Z, KvBatchWrite [(ek2, plain2); (ek1, plain2)]); (2%Z, KvIter);
   (2%Z, KvCas ek1 (Some plain2) plain1); (3%Z, KvCount); (3%Z, KvDelete ek2); (3%Z, KvContains ek2); (3%Z, KvContains ek1);
   (3%Z, KvRange ek1 ek2)].

(** Every call of the script succeeds. *)
Example enc_script_ok :
  forallb (λ e, match e.2 with Ok _ => true | Err _ => false end) (kv_run enc_script enc_empty).2 = true.
Proof. vm_compute. done. Qed.

Lemma enc_empty_rel : ek_rel (irel := kv_settled) AesGcmSiv256 demo_key 0 enc_empty ∅.
Proof. split; [done|]. exists ∅. split; [by intros t _|apply sealed_by_empty]. Qed.

Lemma encrypted_history_refines_map_witness :
  kv_accepts ∅ (kv_run enc_script enc_empty).2 ∧
  ∃ now', ek_rel (irel := kv_settled) AesGcmSiv256 demo_key now' (kv_run enc_script enc_empty).1 (kv_final ∅ (kv_run enc_script enc_empty).2).
Proof.
  refine (encrypted_history_refines_map AesGcmSiv256 lawful_sim demo_key 0 enc_script enc_empty ∅ _ _ enc_empty_rel _ (surjective_pairing _)).
  repeat split; unfold later; vm_compute; congruence.
Defined.

Definition enc_one : DemoEnc := (ek_put ek1 plain1 enc_empty).1.

Lemma enc_one_get : ek_get 0 ek1 enc_one = (enc_one, Ok (Some plain1)).
Proof. reflexivity. Qed.

Lemma encrypted_get_authentic_witness :
  ∃ key nonce ct, key32 (ek_key enc_one) = Ok key ∧ kv_view 0 (ek_inner enc_one) !! ek1 = Some (nonce ++ ct) ∧
    length nonce = kind_nonce_len AesGcmSiv256 ∧ raw_seal AesGcmSiv256 key nonce (blake3 ek1) plain1 = Ok ct.
Proof. exact (encrypted_get_authentic AesGcmSiv256 0 ek1 enc_one enc_one plain1 enc_one_get). Defined.

Lemma encrypted_reads_total_witness :
  (∀ k, is_Ok (kv_get 0 k (ek_inner enc_empty)).2 → is_Ok (ek_get 0 k enc_empty).2) ∧
  (∀ lo hi, is_Ok (kv_range 0 lo hi (ek_inner enc_empty)) → is_Ok (ek_range 0 lo hi enc_empty)) ∧
  (is_Ok (kv_iter 0 (ek_inner enc_empty)) → is_Ok (ek_iter 0 enc_empty)) ∧
  (∀ k v, ek_intact AesGcmSiv256 0 (ek_put k v enc_empty).1) ∧ (∀ k, ek_intact AesGcmSiv256 0 (ek_delete k enc_empty).1).
Proof.
  apply (encrypted_reads_total AesGcmSiv256 0 enc_empty). split; [by eexists|]. apply map_Forall_empty.
Defined.

(** ** Cells *)
Definition cell1 : CellId := {| table_id := 7; row_id := 300; col_id := 2 |}.
Definition cell_wire : bytes := match (encrypt_cell demo_key cell1 plain1 (0 : Rng)).2 with Ok w => w | Err _ => [] end.


(** ** Envelopes *)
Definition kek1 : bytes := replicate 32 x11.
Definition kek2 : bytes := replicate 32 x22.
Definition cipher1 : EnvelopeCipher := cipher_new (ring_new kek1).
Definition cipher2 : EnvelopeCipher := (add_kek_version kek2 cipher1).1.

Lemma cipher1_ok : ring_ok (ec_keyring cipher1).
Proof. split; [by apply ring_new_wf|]. vm_compute. done. Qed.

Lemma cipher12 : cipher_extends cipher1 cipher2.
Proof. split; [|done]. by exists [{| kv_version := 2; kv_kek := kek2 |}]. Qed.

Definition wire1 : bytes :=
  match (env_encrypt cipher1 plain1 ek1 (0 : Rng)).2 with Ok w => w | Err _ => [] end.

Lemma wire1_eq : env_encrypt cipher1 plain1 ek1 (0 : Rng) = (3, Ok wire1).
Proof. vm_compute. done. Qed.

Lemma envelope_roundtrip_witness : env_decrypt cipher2 wire1 ek1 = Ok plain1.
Proof. exact (envelope_roundtrip cipher1 cipher2 plain1 ek1 0 3 wire1 cipher1_ok cipher12 wire1_eq). Defined.

Lemma cipher2_room : ring_room 100 cipher2.
Proof.
  destruct (add_kek_spec 100 kek2 cipher1 cipher2 (Ok 2%Z)) as (H & _); [|done|done|done].
  split; [by apply ring_new_wf|]. vm_compute. done.
Qed.

Definition rewrapped1 : bytes := match (rewrap_envelope cipher2 wire1 (9 : Rng)).2 with Ok w => w | Err _ => [] end.

Lemma wire1_dec : env_decrypt cipher2 wire1 ek1 = Ok plain1.
Proof. vm_compute. done. Qed.

Lemma rewrapped1_eq : rewrap_envelope cipher2 wire1 (9 : Rng) = (10, Ok rewrapped1).
Proof. vm_compute. done. Qed.

Lemma rewrap_preserves_value_witness :
  env_decrypt cipher2 rewrapped1 ek1 = Ok plain1 ∧
  drop DATA_NONCE_OFFSET rewrapped1 = drop DATA_NONCE_OFFSET wire1 ∧
  cipher_active_version cipher2 = Ok (from_le_bytes (take KEK_VERSION_LEN rewrapped1)).
Proof.
  exact (rewrap_preserves_value cipher2 wire1 ek1 plain1 9 10 rewrapped1 (ring_room_ok _ _ cipher2_room) wire1_dec rewrapped1_eq).
Defined.

Definition env_empty : EncryptedKvEnvelope (gmap bytes bytes) :=
  {| ev_inner := (∅ : gmap bytes bytes); ev_cipher := cipher2; ev_rng := (0 : Rng) |}.

Definition env_script : list (Z * EvOp) :=
  [(0%Z, EvKv (KvPut ek1 plain1)); (0%Z, EvKv (KvPut ek2 plain2)); (1%Z, EvRotate kek1); (1%Z, EvKv (KvGet ek1));
   (2%Z, EvAddKek kek2); (2%Z, EvKv KvIter); (3%Z, EvKv (KvCas ek2 (Some plain2) plain1)); (3%Z, EvKv KvCount)].

Example env_script_rotates :
  omap (λ e, match e.2 with EvRotated r => Some r | _ => None end) (ev_run env_script env_empty).2 = [Ok 2%Z].
Proof. vm_compute. done. Qed.

Lemma envelope_history_refines_map_witness :
  ev_accepts ∅ (ev_run env_script env_empty).2 ∧
  ∃ now', ev_rel (irel := kv_settled) (ev_cipher (ev_run env_script env_empty).1) now' (ev_run env_script env_empty).1
    (ev_final ∅ (ev_run env_script env_empty).2).
Proof.
  refine (envelope_history_refines_map lawful_sim 0 env_script env_empty ∅ _ _ _ _ _ _ (surjective_pairing _)).
  - split; [done|]. exists ∅. split; [done|]. intros k. constructor.
  - destruct cipher2_room as [Hwf Hl]. split; [exact Hwf|]. vm_compute. done.
  - by repeat constructor.
  - repeat split; unfold later; vm_compute; congruence.
Defined.

(** ** A deadline lost by a rotation, over [sled] *)
Definition ttl_inner : SledStore :=
  {| sl_db := (sled_put_with_ttl 0 ek1 wire1 1000000 (∅ : TreeDb (TreeEngine := mem_trees))).1 |}.
Definition ttl_env : EncryptedKvEnvelope SledStore :=
  {| ev_inner := ttl_inner; ev_cipher := cipher2; ev_rng := (20 : Rng) |}.

Example ttl_expires : (kv_view 0 ttl_inner !! ek1, kv_view 2000000 ttl_inner !! ek1) = (Some wire1, None).
Proof. vm_compute. done. Qed.

Lemma ttl_view : kv_view 0 ttl_inner = {[ ek1 := wire1 ]}.
Proof. apply (bool_decide_eq_true _). vm_compute. done. Qed.

Lemma ttl_sealed : sealed (ev_cipher ttl_env) (kv_view 0 (ev_inner ttl_env)) {[ ek1 := plain1 ]}.
Proof.
  change (ev_inner ttl_env) with ttl_inner. rewrite ttl_view. apply map_Forall2_insert_2; [apply wire1_dec|].
  intros k. constructor.
Qed.

Lemma ttl_rotates : (rotate_kek 0 kek1 ttl_env).2 = Ok 1%Z.
Proof. vm_compute. done. Qed.

Lemma rotation_erases_expiry_witness :
  holds (ev_cipher (rotate_kek 0 kek1 ttl_env).1) 2000000 (ev_inner (rotate_kek 0 kek1 ttl_env).1) ek1 plain1.
Proof.
  refine (rotation_erases_expiry {[ ek1 := plain1 ]} 0 kek1 ttl_env _ _ ttl_sealed _ _
    (outcome_eq _ _ ttl_rotates) 2000000 ek1 plain1 _).
  - destruct cipher2_room as [Hwf Hl]. split; [exact Hwf|]. vm_compute. done.
  - done.
  - apply lookup_singleton_eq.
Defined.
