(* ===== verification/TxnScan.v ===== *)
(** * Ranges and membership inside transactions

    [KvTxn::contains] and [KvTxn::range] of every transaction type, as a class over the
    one of [KvStore], with the law that ties them to the entries the transaction sees.
    [redb], [sled] and [fjall] discharge it.  Transactions that simulate a map that
    changes with the clock are then those of any store with the laws, and those of the two
    encrypting decorators over any such store, so that one theorem says what a scan and a
    membership test inside a transaction return for all of them. *)

From S2P Require Import Prelude Bytes Core KvHistory StoreSpec RedbEngine Redb RedbSpec RedbTxn TreeDb TreeSpec.
From S2P Require Import Sled SledSpec SledProps Fjall FjallSpec FjallProps Encrypt EncryptedKv EncryptedProps Keys Envelope EnvelopeProps EnvelopeStore.

(** A range panics ([None]) where [BTreeMap::range] does. *)
Class KvTxnScan (S : Type) `{!KvStore S} := {
  txn_contains : Z → bytes → kv_Txn (S := S) → kv_Txn (S := S) * store_result bool;
  txn_range : Z → bytes → bytes → kv_Txn (S := S) → kv_Txn (S := S) * option (store_result (list RangeItem));
}.

Class KvTxnScanLaws (S : Type) `{!KvStore S, !KvView S, !KvTxnScan S} : Prop := {
  txn_contains_law now k t t' r s : txn_contains now k t = (t', r) → txn_base t s →
    txn_base t' s ∧ (∀ now', txn_view now' t' = txn_view now' t) ∧ (∀ b, r = Ok b → b = bool_decide (is_Some (txn_view now t !! k)));
  txn_range_law now lo hi t t' r s : txn_range now lo hi t = (t', r) → txn_base t s →
    txn_base t' s ∧ (∀ now', txn_view now' t' = txn_view now' t) ∧
    (∀ l, r = Some (Ok l) → l = map Ok (btree_between lo hi (txn_view now t))) ∧ (r = None → bytes_ltb hi lo = true);
}.

(** ** Default methods of [KvTxn] *)
Section Defaults.
Context {S : Type} `{!KvStore S}.

Definition txn_contains_default (now : Z) (key : bytes) (t : kv_Txn (S := S)) : kv_Txn (S := S) * store_result bool :=
  (let* o := txn_get now key in λ t, (t, Ok (bool_decide (is_Some o)))) t.

Definition txn_range_default (_ : Z) (_ _ : bytes) (t : kv_Txn (S := S)) : kv_Txn (S := S) * option (store_result (list RangeItem)) :=
  (t, Some (Err (Other "range not supported within this transaction type"))).

Lemma txn_contains_default_law `{!KvView S, !KvLaws S} now k t t' r s : txn_contains_default now k t = (t', r) → txn_base t s →
  txn_base t' s ∧ (∀ now', txn_view now' t' = txn_view now' t) ∧ (∀ b, r = Ok b → b = bool_decide (is_Some (txn_view now t !! k))).
Proof.
  unfold txn_contains_default, st_bind. destruct (txn_get now k t) as [t1 [o|e]] eqn:Eg; intros [= <- <-] Hb;
    destruct (txn_get_law _ _ _ _ _ _ Eg Hb) as (Hb' & Hv & Ho); split_and!; try done. intros b [= <-]. by rewrite (Ho o eq_refl).
Qed.
End Defaults.

(** ** The backends *)
Section RedbScan.
Context {RE : RedbEngine} {RV : RedbView} {RL : RedbLaws}.

#[global] Instance redb_txn_scan : KvTxnScan RedbStore := @Build_KvTxnScan RedbStore redb_kv redb_txn_contains redb_txn_range.

Lemma txn_range_loop_keeps now items m n : w_keeps (txn_range_loop now items m) n.
Proof.
  intros w w' r H. apply txn_range_loop_spec in H as [-> _]. done.
Qed.

#[global] Instance redb_txn_scan_laws : KvTxnScanLaws RedbStore.
Proof.
  split.
  - intros now k t t' r s. exact (txn_contains_default_law (S := RedbStore) now k t t' r s).
  - intros now lo hi t t' r s H Hb. pose proof (redb_txn_range_spec _ _ _ _ _ _ _ Hb H) as Hspec.
    simpl in H. unfold redb_txn_range in H.
    destruct (with_inner _ t) as [t1 r1] eqn:E. apply with_inner_keeps with (s := s) in E as [Hb1 Hv1]; [| |done].
    2: { repeat (apply w_keeps_bind; [first [apply w_keeps_open|apply w_keeps_read]|intros ?]). apply txn_range_loop_keeps. }
    assert (t' = t1) as -> by (destruct r1; [destruct (btree_range lo hi (overlay t1))|]; by simplify_eq).
    split_and!; [done|done| |].
    + intros l ->. apply Hspec.
    + by intros ->.
Qed.
End RedbScan.

Section TreeScan.
Context {TE : TreeEngine} {TV : TreeView} {TL : TreeLaws}.

#[global] Instance sled_txn_scan : KvTxnScan SledStore :=
  @Build_KvTxnScan SledStore sled_kv
    (λ now k (t : SledTxn * TreeDb), (t, sled_txn_contains now k t.2 t.1))
    (λ now lo hi (t : SledTxn * TreeDb), (t, sled_txn_range now lo hi t.2 t.1)).

#[global] Instance sled_txn_scan_laws {TR : TreeReliable} : KvTxnScanLaws SledStore.
Proof.
  split; intros now.
  - intros k t t' r s [= <- <-] Hb. split_and!; [done|done|]. intros b. unfold sled_txn_contains. rewrite sled_txn_get_spec.
    by intros [= <-].
  - intros lo hi t t' r s [= <- <-] Hb. rewrite sled_txn_range_spec.
    split_and!; [done|done| |]; destruct (bytes_ltb hi lo); try done. by intros l [= <-].
Qed.

#[global] Instance fjall_txn_scan n : KvTxnScan (FjallStore n) :=
  @Build_KvTxnScan (FjallStore n) (fjall_kv n)
    (λ now k (t : FjallTxn * TreeDb), (t, fjall_txn_contains n now k t.2 t.1))
    (λ now lo hi (t : FjallTxn * TreeDb), (t, fjall_txn_range n now lo hi t.2 t.1)).

#[global] Instance fjall_txn_scan_laws n : KvTxnScanLaws (FjallStore n).
Proof.
  split; intros now.
  - intros k t t' r s [= <- <-] Hb. split_and!; [done|done|]. intros b. unfold fjall_txn_contains.
    destruct (fjall_txn_get n now k t.2 t.1) as [o|] eqn:Eg; [|done]. apply (reads_Ok _ _ _ (fjall_txn_get_reads n now k t.2 t.1)) in Eg as ->.
    by intros [= <-].
  - intros lo hi t t' r s [= <- <-] Hb. pose proof (fjall_txn_range_spec n now lo hi t.2 t.1) as H.
    split_and!; [done|done| |].
    + intros l E. rewrite E in H. apply H.
    + intros E. by rewrite E in H.
Qed.
End TreeScan.

(** ** [EncryptedTxn] and [EnvelopeTxn] *)
Section EncryptedScan.
Context `{CR : !Crypto} {S K : Type} `{KS : !KvStore S, KT : !KvTxnScan S, KP : !KeyProvider K}.

Definition et_contains (now : Z) (key : bytes) (t : EncryptedTxn S) : EncryptedTxn S * store_result bool :=
  let '(i, r) := txn_contains now key (et_inner t) in (et_set_inner i t, r).

Definition et_range (now : Z) (lo hi : bytes) (t : EncryptedTxn S) : EncryptedTxn S * option (store_result (list RangeItem)) :=
  match txn_range now lo hi (et_inner t) with
  | (i, None) => (et_set_inner i t, None)
  | (i, Some r) =>
      (et_set_inner i t,
       Some (let? raw_items := r in
             decode_items (λ k ct, decrypt_with_aead (aead_of (et_aead t)) (et_key t) (derive_cell_id k) ct) raw_items))
  end.

#[global] Instance et_scan kind : KvTxnScan (EncryptedKv S K (aead_of kind)) :=
  @Build_KvTxnScan (EncryptedKv S K (aead_of kind)) (ek_kv (aead_of kind)) et_contains et_range.

Definition vt_contains (now : Z) (key : bytes) (t : EnvelopeTxn S) : EnvelopeTxn S * store_result bool :=
  let '(i, r) := txn_contains now key (vt_inner t) in (vt_set_inner i t, r).

Definition vt_range (now : Z) (lo hi : bytes) (t : EnvelopeTxn S) : EnvelopeTxn S * option (store_result (list RangeItem)) :=
  match txn_range now lo hi (vt_inner t) with
  | (i, None) => (vt_set_inner i t, None)
  | (i, Some r) =>
      (vt_set_inner i t, Some (let? raw_items := r in decode_items (λ k ct, env_decrypt (vt_cipher t) ct k) raw_items))
  end.

#[global] Instance vt_scan : KvTxnScan (EncryptedKvEnvelope S) :=
  @Build_KvTxnScan (EncryptedKvEnvelope S) ev_kv vt_contains vt_range.
End EncryptedScan.

(** ** Transactions that simulate a map

    [rel s v]: at every instant [u] the store shows [v u]; [trel t s v]: the transaction [t],
    opened on [s], shows [v u]. *)
Record TxnSim {S} `{!KvStore S, !KvTxnScan S} (rel : S → (Z → gmap bytes bytes) → Prop)
    (trel : kv_Txn (S := S) → S → (Z → gmap bytes bytes) → Prop) : Prop := {
  ts_begin s t v : rel s v → kv_transaction s = Ok t → trel t s v;
  ts_get now k t t' r s v : trel t s v → txn_get now k t = (t', r) → trel t' s v ∧ ∀ o, r = Ok o → o = v now !! k;
  ts_put k x t t' s v : trel t s v → txn_put k x t = (t', Ok ()) → trel t' s (λ u, <[k:=x]> (v u));
  ts_delete k t t' s v : trel t s v → txn_delete k t = (t', Ok ()) → trel t' s (λ u, delete k (v u));
  ts_contains now k t t' r s v : trel t s v → txn_contains now k t = (t', r) →
    trel t' s v ∧ ∀ b, r = Ok b → b = bool_decide (is_Some (v now !! k));
  ts_range now lo hi t t' r s v : trel t s v → txn_range now lo hi t = (t', r) →
    trel t' s v ∧ (∀ l, r = Some (Ok l) → l = map Ok (btree_between lo hi (v now))) ∧ (r = None → bytes_ltb hi lo = true);
  ts_commit t s s' v : trel t s v → txn_commit t s = (s', Ok ()) → rel s' v;
}.

(** *** Of a store with the laws *)
Section LawfulScan.
Context {S : Type} `{KS : !KvStore S, KV : !KvView S, KL : !KvLaws S, KT : !KvTxnScan S, KTL : !KvTxnScanLaws S}.

Definition shows (s : S) (v : Z → gmap bytes bytes) : Prop := ∀ u, kv_view u s = v u.
Definition txn_shows (t : kv_Txn (S := S)) (s : S) (v : Z → gmap bytes bytes) : Prop := txn_base t s ∧ ∀ u, txn_view u t = v u.

Lemma lawful_txn_sim : TxnSim (S := S) shows txn_shows.
Proof.
  split.
  - intros s t v Hs H. destruct (kv_transaction_law _ _ H) as [Hb Hv]. split; [done|]. intros u. by rewrite Hv.
  - intros now k t t' r s v [Hb Hv] H. destruct (txn_get_law _ _ _ _ _ _ H Hb) as (Hb' & Hv' & Ho). rewrite <-Hv.
    split; [split; [done|]; intros u; by rewrite Hv'|done].
  - intros k x t t' s v [Hb Hv] H. destruct (txn_put_law _ _ _ _ _ H Hb) as [Hb' Hv']. split; [done|]. intros u. by rewrite Hv', Hv.
  - intros k t t' s v [Hb Hv] H. destruct (txn_delete_law _ _ _ _ H Hb) as [Hb' Hv']. split; [done|]. intros u. by rewrite Hv', Hv.
  - intros now k t t' r s v [Hb Hv] H. destruct (txn_contains_law _ _ _ _ _ _ H Hb) as (Hb' & Hv' & Hc). rewrite <-Hv.
    split; [split; [done|]; intros u; by rewrite Hv'|done].
  - intros now lo hi t t' r s v [Hb Hv] H. destruct (txn_range_law _ _ _ _ _ _ _ H Hb) as (Hb' & Hv' & Hl). rewrite <-Hv.
    split; [split; [done|]; intros u; by rewrite Hv'|done].
  - intros t s s' v [Hb Hv] H u. by rewrite (txn_commit_law _ _ _ u H Hb).
Qed.
End LawfulScan.

(** *** Of [EncryptedTxn] *)
Section EncryptedSim.
Context `{CR : !Crypto, CL : !CryptoLaws} {S K : Type} `{KS : !KvStore S, KT : !KvTxnScan S, KP : !KeyProvider K} (kind : AeadKind).
Context {irel : S → (Z → gmap bytes bytes) → Prop} {itrel : kv_Txn (S := S) → S → (Z → gmap bytes bytes) → Prop}.
Context (inner : TxnSim irel itrel).
Implicit Types (s : EncryptedKv S K (aead_of kind)) (t : EncryptedTxn S) (v vi : Z → gmap bytes bytes).

Definition ek_shows s v : Prop := ∃ vi, irel (ek_inner s) vi ∧ ∀ u, sealed_by (open_for kind (ek_key s)) (vi u) (v u).
Definition et_shows t s v : Prop :=
  key32 (ek_key s) = Ok (et_key t) ∧ et_aead t = kind ∧
  ∃ vi, itrel (et_inner t) (ek_inner s) vi ∧ ∀ u, sealed_by (open_with kind (et_key t)) (vi u) (v u).

Lemma et_shows_set t s v vi i : key32 (ek_key s) = Ok (et_key t) → et_aead t = kind → itrel i (ek_inner s) vi →
  (∀ u, sealed_by (open_with kind (et_key t)) (vi u) (v u)) → et_shows (et_set_inner i t) s v.
Proof. intros. split_and!; [done|done|]. by exists vi. Qed.

Lemma encrypted_txn_sim : TxnSim (S := EncryptedKv S K (aead_of kind)) ek_shows et_shows.
Proof.
  split; simpl.
  - intros s t v (vi & Hi & Hs). unfold ek_transaction. destruct (kv_transaction (ek_inner s)) as [i|] eqn:Et; [|done].
    destruct (key32 (ek_key s)) as [key|] eqn:Ek; simpl; [|done]. intros [= <-]. split_and!; [done|apply ek_kind_of|].
    exists vi. rewrite (open_for_key _ _ key Ek) in Hs. split; [|done]. exact (ts_begin _ _ inner _ _ _ Hi Et).
  - intros now k t t' r s v (Hk & Ha & vi & Hi & Hs). unfold et_get. rewrite Ha. destruct (txn_get now k (et_inner t)) as [i r'] eqn:Eg.
    destruct (ts_get _ _ inner _ _ _ _ _ _ _ Hi Eg) as [Hi' Ho]. pose proof (et_shows_set _ _ _ _ _ Hk Ha Hi' Hs).
    destruct r' as [o|e]; [|by intros [= <- <-]]. pose proof (sealed_by_read _ _ _ k o (Hs now) (Ho o eq_refl)) as Hr.
    destruct o; intros [= <- <-]; split; [done|done|done|]. intros o' [= <-]. by apply Hr.
  - intros k x t t' s v (Hk & Ha & vi & Hi & Hs). unfold et_put. rewrite Ha. destruct (encrypt_with_aead _ _ _ _ _) as [g [ct|]] eqn:Ee; [|done].
    destruct (txn_put k ct (et_inner t)) as [i r'] eqn:Ep. intros [= <- ->]. split_and!; [done|done|]. exists (λ u, <[k:=ct]> (vi u)).
    split; [exact (ts_put _ _ inner _ _ _ _ _ _ Hi Ep)|]. intros u. apply sealed_by_insert; [done|]. unfold open_with. by apply decrypt_encrypt in Ee.
  - intros k t t' s v (Hk & Ha & vi & Hi & Hs). unfold et_delete. destruct (txn_delete k (et_inner t)) as [i r'] eqn:Ed. intros [= <- ->].
    split_and!; [done|done|]. exists (λ u, delete k (vi u)). split; [exact (ts_delete _ _ inner _ _ _ _ _ Hi Ed)|]. intros u. by apply sealed_by_delete.
  - intros now k t t' r s v (Hk & Ha & vi & Hi & Hs). unfold et_contains. destruct (txn_contains now k (et_inner t)) as [i r'] eqn:E.
    destruct (ts_contains _ _ inner _ _ _ _ _ _ _ Hi E) as [Hi' Hb]. intros [= <- <-]. split; [by eapply et_shows_set|].
    intros b Hr. by rewrite (Hb b Hr), (sealed_by_member _ _ _ _ (Hs now)).
  - intros now lo hi t t' r s v (Hk & Ha & vi & Hi & Hs). unfold et_range. destruct (txn_range now lo hi (et_inner t)) as [i r'] eqn:E.
    destruct (ts_range _ _ inner _ _ _ _ _ _ _ _ Hi E) as (Hi' & Hl & Hn). pose proof (et_shows_set _ _ _ _ _ Hk Ha Hi' Hs).
    destruct r' as [r'|]; intros [= <- <-]; (split; [done|]); [|by split; [|intros _; apply Hn]]. split; [|done]. intros l.
    destruct r' as [raw|]; [|done]. rewrite (Hl raw eq_refl), Ha. intros [= Hd]. by apply (sealed_by_between _ _ _ _ _ _ (Hs now)) in Hd.
  - intros t s s' v (Hk & Ha & vi & Hi & Hs). unfold et_commit. destruct (txn_commit (et_inner t) (ek_inner s)) as [i r'] eqn:Ec.
    intros [= <- ->]. exists vi. split; [exact (ts_commit _ _ inner _ _ _ _ Hi Ec)|]. simpl. by rewrite (open_for_key _ _ _ Hk).
Qed.
End EncryptedSim.

(** A new encrypting store shows nothing, and a value put through it is shown. *)
Section EncryptedShows.
Context `{CR : !Crypto, CL : !CryptoLaws} {S K : Type} `{KS : !KvStore S, KV : !KvView S, KL : !KvLaws S, KP : !KeyProvider K} (kind : AeadKind).
Implicit Types (s : EncryptedKv S K (aead_of kind)) (v : Z → gmap bytes bytes).

Lemma ek_shows_empty s : shows (ek_inner s) (λ _, ∅) → ek_shows (irel := shows) kind s (λ _, ∅).
Proof. intros H. exists (λ _, ∅). split; [done|]. intros u. apply sealed_by_empty. Qed.

Lemma ek_shows_put k x s v : ek_shows (irel := shows) kind s v → (ek_put k x s).2 = Ok () →
  ek_shows (irel := shows) kind (ek_put k x s).1 (λ u, <[k:=x]> (v u)).
Proof.
  intros (vi & Hi & Hs). unfold ek_put, encrypt_value, st_bind, r_ret. destruct (key32 (ek_key s)) as [key|] eqn:Ek; [|done].
  destruct (encrypt_with_aead _ _ _ _ _) as [g [ct|]] eqn:Ee; [|done].
  destruct (kv_put k ct (ek_inner s)) as [i r'] eqn:Ep. simpl. intros ->. exists (λ u, <[k:=ct]> (vi u)). simpl. split.
  - intros u. by rewrite (kv_put_law _ _ _ _ u Ep), Hi.
  - intros u. apply sealed_by_insert; [done|]. rewrite (open_for_key _ _ key) by done. by apply decrypt_encrypt in Ee.
Qed.
End EncryptedShows.

(** *** Of [EnvelopeTxn] *)
Section EnvelopeSim.
Context `{CR : !Crypto, CL : !CryptoLaws} {S : Type} `{KS : !KvStore S, KT : !KvTxnScan S}.
Context {irel : S → (Z → gmap bytes bytes) → Prop} {itrel : kv_Txn (S := S) → S → (Z → gmap bytes bytes) → Prop}.
Context (inner : TxnSim irel itrel) (c : EnvelopeCipher) (Hok : ring_ok (ec_keyring c)).
Implicit Types (s : EncryptedKvEnvelope S) (t : EnvelopeTxn S) (v vi : Z → gmap bytes bytes).

Definition ev_shows s v : Prop := ev_cipher s = c ∧ ∃ vi, irel (ev_inner s) vi ∧ ∀ u, sealed c (vi u) (v u).
Definition vt_shows t s v : Prop := ev_cipher s = c ∧ vt_cipher t = c ∧ ∃ vi, itrel (vt_inner t) (ev_inner s) vi ∧ ∀ u, sealed c (vi u) (v u).

Lemma vt_shows_set t s v vi i : ev_cipher s = c → vt_cipher t = c → itrel i (ev_inner s) vi → (∀ u, sealed c (vi u) (v u)) → vt_shows (vt_set_inner i t) s v.
Proof. intros. split_and!; [done|done|]. by exists vi. Qed.

Lemma envelope_txn_sim : TxnSim (S := EncryptedKvEnvelope S) ev_shows vt_shows.
Proof.
  split; simpl.
  - intros s t v (Hc & vi & Hi & Hs). unfold ev_transaction. destruct (kv_transaction (ev_inner s)) as [i|] eqn:Et; [|done]. intros [= <-].
    split_and!; [done|done|]. exists vi. split; [|done]. exact (ts_begin _ _ inner _ _ _ Hi Et).
  - intros now k t t' r s v (Hs0 & Hc & vi & Hi & Hs). unfold vt_get. rewrite Hc. destruct (txn_get now k (vt_inner t)) as [i r'] eqn:Eg.
    destruct (ts_get _ _ inner _ _ _ _ _ _ _ Hi Eg) as [Hi' Ho]. pose proof (vt_shows_set _ _ _ _ _ Hs0 Hc Hi' Hs).
    destruct r' as [o|e]; [|by intros [= <- <-]]. pose proof (sealed_by_read _ _ _ k o (Hs now) (Ho o eq_refl)) as Hr.
    destruct o; intros [= <- <-]; split; [done|done|done|]. intros o' [= <-]. by apply Hr.
  - intros k x t t' s v (Hs0 & Hc & vi & Hi & Hs). unfold vt_put. rewrite Hc. destruct (env_encrypt c x k (vt_rng t)) as [g [ct|e]] eqn:Ee; [|done].
    destruct (txn_put k ct (vt_inner t)) as [i r'] eqn:Ep. intros [= <- ->]. split_and!; [done|done|]. exists (λ u, <[k:=ct]> (vi u)).
    split; [exact (ts_put _ _ inner _ _ _ _ _ _ Hi Ep)|]. intros u. by apply (env_encrypt_sealed _ _ _ _ _ _ _ _ Hok (Hs u) Ee).
  - intros k t t' s v (Hs0 & Hc & vi & Hi & Hs). unfold vt_delete. destruct (txn_delete k (vt_inner t)) as [i r'] eqn:Ed. intros [= <- ->].
    split_and!; [done|done|]. exists (λ u, delete k (vi u)). split; [exact (ts_delete _ _ inner _ _ _ _ _ Hi Ed)|]. intros u. by apply sealed_delete.
  - intros now k t t' r s v (Hs0 & Hc & vi & Hi & Hs). unfold vt_contains. destruct (txn_contains now k (vt_inner t)) as [i r'] eqn:E.
    destruct (ts_contains _ _ inner _ _ _ _ _ _ _ Hi E) as [Hi' Hb]. intros [= <- <-]. split; [by eapply vt_shows_set|].
    intros b Hr. by rewrite (Hb b Hr), (sealed_by_member _ _ _ _ (Hs now)).
  - intros now lo hi t t' r s v (Hs0 & Hc & vi & Hi & Hs). unfold vt_range. destruct (txn_range now lo hi (vt_inner t)) as [i r'] eqn:E.
    destruct (ts_range _ _ inner _ _ _ _ _ _ _ _ Hi E) as (Hi' & Hl & Hn). pose proof (vt_shows_set _ _ _ _ _ Hs0 Hc Hi' Hs).
    destruct r' as [r'|]; intros [= <- <-]; (split; [done|]); [|by split; [|intros _; apply Hn]]. split; [|done]. intros l.
    destruct r' as [raw|]; [|done]. rewrite (Hl raw eq_refl), Hc. intros [= Hd]. by apply (sealed_by_between _ _ _ _ _ _ (Hs now)) in Hd.
  - intros t s s' v (Hs0 & Hc & vi & Hi & Hs). unfold vt_commit. destruct (txn_commit (vt_inner t) (ev_inner s)) as [i r'] eqn:Ec.
    intros [= <- ->]. split; [done|]. exists vi. split; [exact (ts_commit _ _ inner _ _ _ _ Hi Ec)|done].
Qed.
End EnvelopeSim.

(** ** Histories of a transaction *)
Section History.
Context {S : Type} `{KS : !KvStore S, KT : !KvTxnScan S}.

Inductive TxnCall := TcPut (k v : bytes) | TcDelete (k : bytes) | TcGet (now : Z) (k : bytes) | TcContains (now : Z) (k : bytes)
  | TcRange (now : Z) (lo hi : bytes).

(** A history stops at the first write that fails; failing reads do not stop it. *)
Fixpoint txn_calls (calls : list TxnCall) (t : kv_Txn (S := S)) : option (kv_Txn (S := S)) :=
  match calls with
  | [] => Some t
  | TcPut k v :: calls => match txn_put k v t with (t, Ok _) => txn_calls calls t | _ => None end
  | TcDelete k :: calls => match txn_delete k t with (t, Ok _) => txn_calls calls t | _ => None end
  | TcGet now k :: calls => txn_calls calls (txn_get now k t).1
  | TcContains now k :: calls => txn_calls calls (txn_contains now k t).1
  | TcRange now lo hi :: calls => txn_calls calls (txn_range now lo hi t).1
  end.

Definition call_effect (m : gmap bytes bytes) (c : TxnCall) : gmap bytes bytes :=
  match c with TcPut k v => <[k:=v]> m | TcDelete k => delete k m | _ => m end.

Context {rel : S → (Z → gmap bytes bytes) → Prop} {trel : kv_Txn (S := S) → S → (Z → gmap bytes bytes) → Prop} (sim : TxnSim rel trel).

Lemma txn_calls_shows calls t t' s v : trel t s v → txn_calls calls t = Some t' → trel t' s (λ u, foldl call_effect (v u) calls).
Proof.
  revert t v. induction calls as [|c calls IH]; intros t v Ht; [by intros [= <-]|]. destruct c as [k x|k|now k|now k|now lo hi]; simpl.
  - destruct (txn_put k x t) as [t1 [[]|]] eqn:E; [|done]. exact (IH _ _ (ts_put _ _ sim _ _ _ _ _ _ Ht E)).
  - destruct (txn_delete k t) as [t1 [[]|]] eqn:E; [|done]. exact (IH _ _ (ts_delete _ _ sim _ _ _ _ _ Ht E)).
  - destruct (txn_get now k t) as [t1 r] eqn:E. exact (IH _ _ (proj1 (ts_get _ _ sim _ _ _ _ _ _ _ Ht E))).
  - destruct (txn_contains now k t) as [t1 r] eqn:E. exact (IH _ _ (proj1 (ts_contains _ _ sim _ _ _ _ _ _ _ Ht E))).
  - destruct (txn_range now lo hi t) as [t1 r] eqn:E. exact (IH _ _ (proj1 (ts_range _ _ sim _ _ _ _ _ _ _ _ Ht E))).
Qed.

End History.

(** ** An encrypted transaction on [sled] *)
Module ToyScan.
#[local] Existing Instances mem_trees mem_trees_view mem_trees_laws mem_trees_reliable toy_crypto toy_crypto_laws.

Abbreviation Store := (EncryptedKv SledStore StaticKey (aead_of AesGcmSiv256)).

Definition scan_empty : Store :=
  {| ek_inner := {| sl_db := (∅ : TreeDb) |}; ek_key := {| sk_bytes := replicate 32 x2a |}; ek_rng := (0 : Rng) |}.
Definition scan_store : Store := (ek_put [x62] [x32] (ek_put [x61] [x31] scan_empty).1).1.
Definition scan_calls : list TxnCall := [TcPut [x63] [x33]; TcDelete [x61]; TcRange 5 [] [xff]; TcPut [x62] [x34]; TcGet 5 [x61]].

Definition scan_opened : EncryptedTxn SledStore :=
  match ek_transaction scan_store with
  | Ok t => t
  | Err _ => @Build_EncryptedTxn toy_crypto SledStore sled_kv (sled_transaction, (∅ : TreeDb)) [] AesGcmSiv256 (0 : Rng)
  end.
Definition scan_txn : EncryptedTxn SledStore := default scan_opened (txn_calls (S := Store) scan_calls scan_opened).
Definition scan_ranged : EncryptedTxn SledStore * option (store_result (list RangeItem)) := et_range 6 [x61] [x64] scan_txn.
(** The key the transaction deleted is not found, and reads as absent. *)
Definition scan_found : EncryptedTxn SledStore * store_result bool := et_contains 6 [x61] scan_ranged.1.
Definition scan_read : EncryptedTxn SledStore * store_result (option bytes) := et_get 6 [x61] scan_found.1.
Definition scan_shown (_ : Z) : gmap bytes bytes := <[[x62]:=[x32]]> (<[[x61]:=[x31]]> ∅).

Lemma calls_default {A} (x : option A) d : (match x with Some _ => true | None => false end) = true → x = Some (default d x).
Proof. by destruct x. Qed.
Lemma pair_ok {A B} (x : A * B) b : x.2 = b → x = (x.1, b).
Proof. by destruct x as [? ?]; intros [= ->]. Qed.

Lemma scan_store_shows : ek_shows (irel := shows) AesGcmSiv256 scan_store scan_shown.
Proof.
  apply (ek_shows_put AesGcmSiv256 [x62] [x32] _ (λ _, <[[x61]:=[x31]]> ∅)); [|vm_compute; reflexivity].
  apply (ek_shows_put AesGcmSiv256 [x61] [x31] _ (λ _, ∅)); [|vm_compute; reflexivity].
  apply ek_shows_empty. intros u. apply map_filter_empty.
Qed.

End ToyScan.
