(* ===== verification/Blob.v ===== *)
(** * [oxistore-blob]: the blob trait, its helpers and the in-memory store

    The trait [BlobStore] of [lib.rs] as a class, its provided methods on top of it,
    [ChunkedUpload], [MemoryBlobStore] of [memory.rs] and the digests of [cas.rs].
    Asynchronous calls are modelled as run to completion; keys are the UTF-8 bytes of
    the strings, which compare as the strings do.  SHA-256 is the class [Sha256]. *)

From stdpp Require Import pretty.
From S2P Require Import Prelude Bytes Core Encrypt.

(** ** Errors *)
Inductive BlobError :=
| BlobNotFound (key : bytes)
| BlobAlreadyExists (key : bytes)
| BlobIo (e : string)
| ChecksumMismatch (expected actual : bytes)
| BlobOther (msg : string)
| QuotaExceeded (limit_bytes needed_bytes : Z)
| MultipartError (msg : string)
| RetryExhausted (attempts : Z) (last_error : string).

Abbreviation blob_result A := (result A BlobError).

(** Text of a key in a message. *)
Definition key_string (k : bytes) : string := String.string_of_list_byte k.

(** ** Metadata *)
Record BlobMeta := { meta_key : bytes; meta_size : Z; content_type : option bytes; checksum : option bytes }.

Definition meta_new (key : bytes) (size : Z) : BlobMeta :=
  {| meta_key := key; meta_size := size; content_type := None; checksum := None |}.

#[global] Instance BlobMeta_eq_dec : EqDecision BlobMeta.
Proof. solve_decision. Defined.

(** ** [ChunkedUpload] *)
Record ChunkedUpload := { chunks : list bytes }.
Definition upload_new : ChunkedUpload := {| chunks := [] |}.
Definition push_chunk (chunk : bytes) (u : ChunkedUpload) : ChunkedUpload := {| chunks := chunks u ++ [chunk] |}.
Definition assemble (u : ChunkedUpload) : bytes := foldl (λ out chunk, out ++ chunk) [] (chunks u).

(** ** Digests *)
Class Sha256 := { sha256 : bytes → bytes; sha256_length b : length (sha256 b) = 32 }.

Definition to_hex (digest : bytes) : bytes := encode_hex digest.

(** The message names the offending byte as a character. *)
Fixpoint from_hex_chunks (s : bytes) : blob_result bytes :=
  match s with
  | hi :: lo :: rest =>
      match hex_nibble hi, hex_nibble lo with
      | None, _ => Err (BlobOther ("invalid hex character '" +:+ key_string [hi] +:+ "'"))
      | _, None => Err (BlobOther ("invalid hex character '" +:+ key_string [lo] +:+ "'"))
      | Some h, Some l =>
          let? out := from_hex_chunks rest in
          Ok (Z_byte (Z.lor (Z.shiftl h 4) l) :: out)
      end
  | _ => Ok []
  end.

Definition from_hex (s : bytes) : blob_result bytes :=
  if decide (length s = 64) then from_hex_chunks s
  else Err (BlobOther ("invalid digest hex length: expected 64, got " +:+ pretty (length s))).

(** [sha256_streaming] over the reads of a reader: an empty read is the end. *)
Fixpoint read_all (reads : list (result bytes string)) (data : bytes) : blob_result bytes :=
  match reads with
  | [] => Ok data
  | Err e :: _ => Err (BlobIo e)
  | Ok [] :: _ => Ok data
  | Ok buf :: reads => read_all reads (data ++ buf)
  end.

Definition sha256_streaming `{!Sha256} (reads : list (result bytes string)) : blob_result bytes :=
  let? data := read_all reads [] in Ok (sha256 data).

(** ** The trait *)
Class BlobStore (B : Type) := {
  blob_put : bytes → bytes → B → B * blob_result unit;
  blob_get : bytes → B → B * blob_result bytes;
  blob_delete : bytes → B → B * blob_result unit;
  blob_head : bytes → B → B * blob_result BlobMeta;
  blob_list : bytes → B → B * blob_result (list bytes);
}.

Section Provided.
Context {B : Type} `{!BlobStore B}.

Definition blob_ret {A} (r : blob_result A) (b : B) : B * blob_result A := (b, r).

Definition blob_exists (key : bytes) (b : B) : B * blob_result bool :=
  match blob_head key b with
  | (b, Ok _) => (b, Ok true)
  | (b, Err (BlobNotFound _)) => (b, Ok false)
  | (b, Err e) => (b, Err e)
  end.

Definition blob_copy (src_key dst_key : bytes) : B → B * blob_result unit :=
  let* data := blob_get src_key in blob_put dst_key data.

Definition blob_rename (old_key new_key : bytes) : B → B * blob_result unit :=
  let* data := blob_get old_key in
  let* _ := blob_put new_key data in
  blob_delete old_key.

Fixpoint blob_delete_many (keys : list bytes) (b : B) : B * blob_result unit :=
  match keys with
  | [] => (b, Ok ())
  | key :: keys =>
      match blob_delete key b with
      | (b, Ok _) => blob_delete_many keys b
      | (b, Err (BlobNotFound _)) => blob_delete_many keys b
      | (b, Err e) => (b, Err e)
      end
  end.

Fixpoint delete_counting (count : Z) (keys : list bytes) (b : B) : B * blob_result Z :=
  match keys with
  | [] => (b, Ok count)
  | key :: keys =>
      match blob_delete key b with
      | (b, Ok _) => delete_counting (count + 1) keys b
      | (b, Err (BlobNotFound _)) => delete_counting count keys b
      | (b, Err e) => (b, Err e)
      end
  end.

Definition blob_delete_prefix (prefix : bytes) : B → B * blob_result Z :=
  let* keys := blob_list prefix in delete_counting 0 keys.

Definition blob_put_if_absent (key data : bytes) (b : B) : B * blob_result unit :=
  match blob_head key b with
  | (b, Ok _) => (b, Err (BlobAlreadyExists key))
  | (b, Err (BlobNotFound _)) => blob_put key data b
  | (b, Err e) => (b, Err e)
  end.

Definition blob_put_chunked (key : bytes) (upload : ChunkedUpload) : B → B * blob_result unit :=
  blob_put key (assemble upload).

Fixpoint head_all (keys : list bytes) : B → B * blob_result (list BlobMeta) :=
  match keys with
  | [] => blob_ret (Ok [])
  | key :: keys =>
      let* meta := blob_head key in
      let* metas := head_all keys in
      blob_ret (Ok (meta :: metas))
  end.

Definition blob_list_meta (prefix : bytes) : B → B * blob_result (list BlobMeta) :=
  let* keys := blob_list prefix in head_all keys.

(** The loop of [list_meta_page]; [n] entries are still to be taken. *)
Fixpoint head_page (start_after : option bytes) (n : nat) (keys : list bytes) : B → B * blob_result (list BlobMeta) :=
  match keys with
  | [] => blob_ret (Ok [])
  | key :: keys =>
      if match start_after with Some sa => bytes_leb key sa | None => false end then head_page start_after n keys
      else
        match n with
        | 0 => blob_ret (Ok [])
        | S n =>
            let* meta := blob_head key in
            let* metas := head_page start_after n keys in
            blob_ret (Ok (meta :: metas))
        end
  end.

Definition blob_list_meta_page (prefix : bytes) (start_after : option bytes) (limit : nat)
    : B → B * blob_result (list BlobMeta) :=
  let* keys := blob_list prefix in head_page start_after limit keys.

Section Cas.
Context `{!Sha256}.

Definition blob_delete_if_matches (key digest : bytes) (b : B) : B * blob_result bool :=
  match blob_get key b with
  | (b, Err (BlobNotFound _)) => (b, Ok false)
  | (b, Err e) => (b, Err e)
  | (b, Ok data) =>
      if decide (sha256 data = digest) then (let* _ := blob_delete key in blob_ret (Ok true)) b
      else (b, Ok false)
  end.

(** [Ok(()) | Err(AlreadyExists(_)) => Ok(digest)] *)
Definition put_at_digest (digest data : bytes) (b : B) : B * blob_result bytes :=
  match blob_put_if_absent (to_hex digest) data b with
  | (b, Ok _) => (b, Ok digest)
  | (b, Err (BlobAlreadyExists _)) => (b, Ok digest)
  | (b, Err e) => (b, Err e)
  end.

Definition blob_put_cas (data : bytes) : B → B * blob_result bytes := put_at_digest (sha256 data) data.

Definition blob_get_cas (digest : bytes) : B → B * blob_result bytes :=
  let* data := blob_get (to_hex digest) in
  if decide (sha256 data = digest) then blob_ret (Ok data)
  else blob_ret (Err (ChecksumMismatch digest (sha256 data))).

Definition blob_exists_cas (digest : bytes) : B → B * blob_result bool := blob_exists (to_hex digest).

Definition blob_put_streaming (reads : list (result bytes string)) (b : B) : B * blob_result bytes :=
  match read_all reads [] with
  | Err e => (b, Err e)
  | Ok data => put_at_digest (sha256 data) data b
  end.

Definition blob_get_verified (digest : bytes) : B → B * blob_result bytes := blob_get_cas digest.
End Cas.
End Provided.

(** ** [MemoryBlobStore] *)
Record MemoryState := { mem_map : gmap bytes bytes; used_bytes : Z; capacity_bytes : option Z }.

Definition memory_new : MemoryState := {| mem_map := ∅; used_bytes := 0; capacity_bytes := None |}.
Definition memory_with_capacity (cap : Z) : MemoryState := {| mem_map := ∅; used_bytes := 0; capacity_bytes := Some cap |}.

(** [BlobStoreBuilder::build_memory] *)
Definition build_memory (capacity : option Z) : MemoryState :=
  match capacity with Some cap => memory_with_capacity cap | None => memory_new end.

Definition blob_len (b : bytes) : Z := Z.of_nat (length b).

Definition memory_put (key data : bytes) (s : MemoryState) : MemoryState * blob_result unit :=
  let displaced := match mem_map s !! key with Some b => blob_len b | None => 0%Z end in
  let new_len := blob_len data in
  let would_be := (used_bytes s - displaced + new_len)%Z in
  let stored := {| mem_map := <[key:=data]> (mem_map s); used_bytes := would_be; capacity_bytes := capacity_bytes s |} in
  match capacity_bytes s with
  | Some cap => if (cap <? would_be)%Z then (s, Err (QuotaExceeded cap would_be)) else (stored, Ok ())
  | None => (stored, Ok ())
  end.

Definition memory_get (key : bytes) (s : MemoryState) : MemoryState * blob_result bytes :=
  (s, match mem_map s !! key with Some data => Ok data | None => Err (BlobNotFound key) end).

Definition memory_delete (key : bytes) (s : MemoryState) : MemoryState * blob_result unit :=
  match mem_map s !! key with
  | Some removed =>
      ({| mem_map := delete key (mem_map s); used_bytes := (used_bytes s - blob_len removed)%Z;
          capacity_bytes := capacity_bytes s |}, Ok ())
  | None => (s, Err (BlobNotFound key))
  end.

Definition memory_head (key : bytes) (s : MemoryState) : MemoryState * blob_result BlobMeta :=
  (s, match mem_map s !! key with
      | Some data => Ok (meta_new key (blob_len data))
      | None => Err (BlobNotFound key)
      end).

Definition memory_list (prefix : bytes) (s : MemoryState) : MemoryState * blob_result (list bytes) :=
  (s, Ok (List.filter (λ k, starts_with k prefix) (btree_iter (mem_map s)).*1)).

Definition entry_meta (kv : bytes * bytes) : BlobMeta := meta_new kv.1 (blob_len kv.2).

(** Overrides of the provided methods. *)
Definition memory_list_meta (prefix : bytes) (s : MemoryState) : MemoryState * blob_result (list BlobMeta) :=
  (s, Ok (entry_meta <$> List.filter (λ kv, starts_with kv.1 prefix) (btree_iter (mem_map s)))).

Definition after (start_after : option bytes) (k : bytes) : bool :=
  match start_after with Some sa => bytes_ltb sa k | None => true end.

Definition memory_list_meta_page (prefix : bytes) (start_after : option bytes) (limit : nat) (s : MemoryState)
    : MemoryState * blob_result (list BlobMeta) :=
  (s, Ok (entry_meta <$> take limit (List.filter (λ kv, after start_after kv.1)
                                      (List.filter (λ kv, starts_with kv.1 prefix) (btree_iter (mem_map s)))))).

#[global] Instance memory_blob : BlobStore MemoryState := {|
  blob_put := memory_put;
  blob_get := memory_get;
  blob_delete := memory_delete;
  blob_head := memory_head;
  blob_list := memory_list;
|}.

(** ** The contract *)
Class BlobView (B : Type) := blob_view : B → gmap bytes bytes.

(** Reads answer for the stored blobs, writes change the named key, and a call that
    fails changes nothing. *)
Class BlobLaws (B : Type) `{!BlobStore B, !BlobView B} : Prop := {
  blob_get_law k b b' r : blob_get k b = (b', r) → blob_view b' = blob_view b ∧
    match r with
    | Ok v => blob_view b !! k = Some v
    | Err (BlobNotFound _) => blob_view b !! k = None
    | Err _ => True
    end;
  blob_head_law k b b' r : blob_head k b = (b', r) → blob_view b' = blob_view b ∧
    match r with
    | Ok m => ∃ v, blob_view b !! k = Some v ∧ meta_key m = k ∧ meta_size m = blob_len v
    | Err (BlobNotFound _) => blob_view b !! k = None
    | Err (BlobAlreadyExists _) => False
    | Err _ => True
    end;
  blob_list_law p b b' r : blob_list p b = (b', r) → blob_view b' = blob_view b ∧
    ∀ l, r = Ok l → l = List.filter (λ k, starts_with k p) (btree_iter (blob_view b)).*1;
  blob_put_law k v b b' r : blob_put k v b = (b', r) →
    match r with
    | Ok _ => blob_view b' = <[k:=v]> (blob_view b)
    | Err (BlobNotFound _) | Err (BlobAlreadyExists _) => False
    | Err _ => blob_view b' = blob_view b
    end;
  blob_delete_law k b b' r : blob_delete k b = (b', r) →
    match r with
    | Ok _ => is_Some (blob_view b !! k) ∧ blob_view b' = delete k (blob_view b)
    | Err (BlobNotFound _) => blob_view b !! k = None ∧ blob_view b' = blob_view b
    | Err _ => blob_view b' = blob_view b
    end;
}.
