(* ===== verification/BlobProps.v ===== *)
(** * Correctness of the blob helpers and of the in-memory store *)

From S2P Require Import Prelude Bytes Core Encrypt Keys Blob.

(** ** The in-memory store *)
#[export] Instance memory_view : BlobView MemoryState := mem_map.

Lemma memory_put_cases key data s :
  let would_be := (used_bytes s - match mem_map s !! key with Some b => blob_len b | None => 0 end + blob_len data)%Z in
  (∃ cap, capacity_bytes s = Some cap ∧ (cap < would_be)%Z ∧ memory_put key data s = (s, Err (QuotaExceeded cap would_be))) ∨
  (∀ cap, capacity_bytes s = Some cap → (would_be ≤ cap)%Z) ∧
  memory_put key data s =
    ({| mem_map := <[key:=data]> (mem_map s); used_bytes := would_be; capacity_bytes := capacity_bytes s |}, Ok ()).
Proof.
  simpl. unfold memory_put. destruct (capacity_bytes s) as [cap|] eqn:Ec; [|by right].
  destruct (Z.ltb_spec cap (used_bytes s - match mem_map s !! key with Some b => blob_len b | None => 0 end + blob_len data));
    [left; by exists cap|right]. split; [by intros ? [= <-]|done].
Qed.

#[export] Instance memory_laws : BlobLaws MemoryState.
Proof.
  split; simpl.
  - unfold memory_get, blob_view, memory_view. intros k b b' r [= <- <-]. split; [done|]. by destruct (mem_map b !! k).
  - unfold memory_head, blob_view, memory_view. intros k b b' r [= <- <-]. split; [done|].
    destruct (mem_map b !! k) as [v|] eqn:E; [|done]. by exists v.
  - unfold memory_list, blob_view, memory_view. intros p b b' r [= <- <-]. split; [done|]. by intros l [= <-].
  - unfold blob_view, memory_view. intros k v b b' r.
    destruct (memory_put_cases k v b) as [(cap & _ & _ & ->)|[_ ->]]; by intros [= <- <-].
  - unfold memory_delete, blob_view, memory_view. intros k b b' r. destruct (mem_map b !! k) eqn:E; intros [= <- <-]; by split.
Qed.

(** Sum of the sizes. *)
Definition total_size (m : gmap bytes bytes) : Z := map_fold (λ _ v n, (blob_len v + n)%Z) 0%Z m.

Lemma total_size_insert_fresh m k v : m !! k = None → total_size (<[k:=v]> m) = (blob_len v + total_size m)%Z.
Proof. intros Hk. unfold total_size. rewrite map_fold_insert_L; [done| |done]. intros. lia. Qed.

Lemma total_size_delete m k v : m !! k = Some v → total_size (delete k m) = (total_size m - blob_len v)%Z.
Proof.
  intros Hk. rewrite <-(insert_delete_id m k v Hk) at 2. rewrite total_size_insert_fresh by apply lookup_delete_eq. lia.
Qed.

Lemma total_size_insert m k v : total_size (<[k:=v]> m) =
  (total_size m - match m !! k with Some b => blob_len b | None => 0 end + blob_len v)%Z.
Proof.
  destruct (m !! k) as [b|] eqn:E; [|rewrite total_size_insert_fresh by done; lia].
  rewrite <-insert_delete_eq, total_size_insert_fresh by apply lookup_delete_eq. rewrite (total_size_delete _ _ b) by done. lia.
Qed.

Lemma total_size_nonneg m : (0 ≤ total_size m)%Z.
Proof.
  induction m as [|k v m Hk IH] using map_ind; [done|]. rewrite total_size_insert_fresh by done. unfold blob_len. lia.
Qed.

Definition memory_wf (s : MemoryState) : Prop :=
  used_bytes s = total_size (mem_map s) ∧ ∀ cap, capacity_bytes s = Some cap → (used_bytes s ≤ cap)%Z.

Inductive MemOp := MemPut (k v : bytes) | MemDelete (k : bytes).
Definition mem_step (op : MemOp) (s : MemoryState) : MemoryState :=
  match op with MemPut k v => (memory_put k v s).1 | MemDelete k => (memory_delete k s).1 end.

Lemma mem_step_wf op s : memory_wf s → memory_wf (mem_step op s) ∧ capacity_bytes (mem_step op s) = capacity_bytes s.
Proof.
  intros [Hu Hc]. destruct op as [k v|k]; simpl.
  - destruct (memory_put_cases k v s) as [(cap & _ & _ & ->)|[Hle ->]]; [done|].
    split; [|done]. split; simpl; [|done]. by rewrite total_size_insert, Hu.
  - unfold memory_delete. destruct (mem_map s !! k) as [b|] eqn:E; [|done]. split; [|done]. split; simpl.
    + by rewrite (total_size_delete _ _ b), Hu.
    + intros cap Hcap. specialize (Hc cap Hcap). unfold blob_len. lia.
Qed.

(** C33: The byte quota of the in-memory store.  After any sequence of puts and
    deletes the recorded usage is the sum of the sizes of the stored blobs, so the
    subtraction of a displaced blob cannot underflow, and it is within the configured
    capacity; a put is refused exactly when the blobs stored afterwards would exceed
    the capacity, and then changes nothing. *)
Theorem memory_quota_exact capacity ops k v :
  (∀ cap, capacity = Some cap → (0 ≤ cap)%Z) →
  let s := foldl (λ s op, mem_step op s) (build_memory capacity) ops in
  used_bytes s = total_size (mem_map s) ∧
  (∀ cap, capacity = Some cap → (used_bytes s ≤ cap)%Z) ∧
  (∀ b, mem_map s !! k = Some b → (blob_len b ≤ used_bytes s)%Z) ∧
  match memory_put k v s with
  | (s', Ok _) => mem_map s' = <[k:=v]> (mem_map s) ∧ ∀ cap, capacity = Some cap → (total_size (<[k:=v]> (mem_map s)) ≤ cap)%Z
  | (s', Err e) => s' = s ∧ ∃ cap, capacity = Some cap ∧ (cap < total_size (<[k:=v]> (mem_map s)))%Z ∧
      e = QuotaExceeded cap (total_size (<[k:=v]> (mem_map s)))
  end.
Proof.
  intros Hcap s. assert (memory_wf s ∧ capacity_bytes s = capacity) as [[Hu Hc] Hcs].
  { unfold s. clear s. assert (memory_wf (build_memory capacity) ∧ capacity_bytes (build_memory capacity) = capacity) as H0.
    { split; [|by destruct capacity]. split; [by destruct capacity|].
      destruct capacity as [cap|]; simpl; [|done]. intros ? [= <-]. by apply Hcap. }
    revert H0. generalize (build_memory capacity). induction ops as [|op ops IH]; intros s [Hwf Hc]; simpl; [done|].
    apply IH. destruct (mem_step_wf op s Hwf). split; [done|congruence]. }
  rewrite Hcs in Hc. split_and!; [done|done| |].
  - intros b Hb. pose proof (total_size_delete _ _ _ Hb). pose proof (total_size_nonneg (delete k (mem_map s))). lia.
  - pose proof (memory_put_cases k v s) as Hp. simpl in Hp. rewrite Hu, <-total_size_insert, Hcs in Hp.
    destruct Hp as [(cap & Hcp & Hlt & ->)|[Hle ->]]; [|done]. split; [done|]. by exists cap.
Qed.

Lemma memory_quota_exact_witness :
  let s := foldl (λ s op, mem_step op s) (build_memory (Some 5%Z)) [MemPut [x61] [x01; x02; x03]; MemPut [x61] [x01]] in
  used_bytes s = total_size (mem_map s).
Proof.
  refine (proj1 (memory_quota_exact (Some 5%Z) [MemPut [x61] [x01; x02; x03]; MemPut [x61] [x01]] [x62] [] _)).
  intros cap [= <-]. lia.
Defined.

(** ** Provided methods over any lawful store *)
Section Provided.
Context {B : Type} `{BS : !BlobStore B, BV : !BlobView B, BL : !BlobLaws B}.
Implicit Types b : B.

(** [rename] moves a blob when the two keys differ.  When they are the same it
    deletes the blob it has just written: the call succeeds and the data is gone. *)
Theorem blob_rename_behaviour old_key new_key b b' :
  blob_rename old_key new_key b = (b', Ok ()) →
  ∃ data, blob_view b !! old_key = Some data ∧
    if decide (old_key = new_key) then blob_view b' = delete old_key (blob_view b)
    else blob_view b' = <[new_key:=data]> (delete old_key (blob_view b)).
Proof.
  unfold blob_rename, st_bind. destruct (blob_get old_key b) as [b1 [data|e]] eqn:Eg; [|done].
  destruct (blob_get_law _ _ _ _ Eg) as [Hv1 Hd]. destruct (blob_put new_key data b1) as [b2 [[]|e]] eqn:Ep; [|done].
  pose proof (blob_put_law _ _ _ _ _ Ep) as Hv2. intros Hdel%blob_delete_law. destruct Hdel as [_ Hv3]. exists data. split; [done|].
  rewrite Hv3, Hv2, Hv1. case_decide as Heq.
  - subst new_key. by rewrite delete_insert_eq.
  - by rewrite delete_insert_ne.
Qed.

Lemma delete_counting_spec count keys b b' n : NoDup keys → delete_counting count keys b = (b', Ok n) →
  (∀ k, blob_view b' !! k = if decide (k ∈ keys) then None else blob_view b !! k) ∧
  n = (count + Z.of_nat (length (List.filter (λ k, bool_decide (is_Some (blob_view b !! k))) keys)))%Z.
Proof.
  revert count b. induction keys as [|key keys IH]; intros count b Hnd; simpl.
  { intros [= <- <-]. by split; [|lia]. }
  apply NoDup_cons in Hnd as [Hnin Hnd]. destruct (blob_delete key b) as [b1 r1] eqn:Ed. apply blob_delete_law in Ed.
  assert (∀ b1 c, (∀ k, blob_view b1 !! k = if decide (k = key) then None else blob_view b !! k) →
    delete_counting c keys b1 = (b', Ok n) →
    (∀ k, blob_view b' !! k = if decide (k ∈ key :: keys) then None else blob_view b !! k) ∧
    n = (c + Z.of_nat (length (List.filter (λ k, bool_decide (is_Some (blob_view b !! k))) keys)))%Z) as Hstep.
  { intros b2 c Hb2 Hrun. destruct (IH c b2 Hnd Hrun) as [Hv ->]. split.
    - intros k. rewrite Hv, Hb2. repeat case_decide; try done; set_solver.
    - do 3 f_equal. clear -Hb2 Hnin. induction keys as [|k keys IH]; simpl; [done|].
      rewrite Hb2, (decide_False (P := k = key)) by set_solver. rewrite IH by set_solver. done. }
  destruct r1 as [[]|[]]; try done.
  - destruct Ed as [Hsome Hv]. rewrite (bool_decide_eq_true_2 _ Hsome). intros Hrun.
    destruct (Hstep b1 (count + 1)%Z) as [H1 ->]; [|done|].
    + intros k. rewrite Hv. case_decide as Hk; [by rewrite Hk, lookup_delete_eq|by rewrite lookup_delete_ne].
    + split; [done|]. simpl. lia.
  - destruct Ed as [Hnone Hv]. rewrite (bool_decide_eq_false_2 (is_Some (blob_view b !! key))) by by rewrite Hnone; intros [].
    intros Hrun. apply (Hstep b1 count); [|done]. intros k. rewrite Hv. case_decide as Hk; by rewrite ?Hk.
Qed.

Lemma filter_prefix_keys (p : bytes) (m : gmap bytes bytes) (k : bytes) :
  k ∈ List.filter (λ k, starts_with k p) (btree_iter m).*1 ↔ is_Some (m !! k) ∧ starts_with k p = true.
Proof.
  rewrite elem_of_list_filter_bool, list_elem_of_fmap. split.
  - intros [([k' v] & -> & Hin%elem_of_btree_iter) Hp]. by split; [exists v|].
  - intros [[v Hv] Hp]. split; [|done]. exists (k, v). split; [done|]. by apply elem_of_btree_iter.
Qed.

Lemma NoDup_filter_bool {A} (f : A → bool) l : NoDup l → NoDup (List.filter f l).
Proof.
  induction 1 as [|x l Hx Hl IH]; simpl; [constructor|]. destruct (f x); [|done]. constructor; [|done].
  intros Hin%elem_of_list_filter_bool. tauto.
Qed.

(** [delete_prefix] removes exactly the blobs whose key starts with the prefix
    and reports how many there were. *)
Theorem blob_delete_prefix_correct prefix b b' n :
  blob_delete_prefix prefix b = (b', Ok n) →
  (∀ k, blob_view b' !! k = if starts_with k prefix then None else blob_view b !! k) ∧
  n = Z.of_nat (length (List.filter (λ k, starts_with k prefix) (btree_iter (blob_view b)).*1)).
Proof.
  unfold blob_delete_prefix, st_bind. destruct (blob_list prefix b) as [b1 [keys|e]] eqn:El; [|done].
  destruct (blob_list_law _ _ _ _ El) as [Hv1 Hk]. rewrite (Hk keys eq_refl). intros Hrun.
  apply delete_counting_spec in Hrun as [Hv ->]; [|apply NoDup_filter_bool, btree_iter_NoDup]. split.
  - intros k. rewrite Hv, Hv1. case_decide as Hin.
    + apply filter_prefix_keys in Hin as [_ ->]. done.
    + destruct (starts_with k prefix) eqn:Ep; [|done]. destruct (blob_view b !! k) eqn:Eb; [|done].
      exfalso. apply Hin, filter_prefix_keys. by rewrite Eb.
  - rewrite filter_all; [lia|]. intros k [Hin _]%filter_prefix_keys. rewrite Hv1. by apply bool_decide_eq_true.
Qed.
End Provided.

(** ** Content addressing *)
Section Cas.
Context {B : Type} `{BS : !BlobStore B, BV : !BlobView B, BL : !BlobLaws B, SH : !Sha256}.
Implicit Types b : B.

Lemma from_hex_to_hex d : length d = 32 → from_hex (to_hex d) = Ok d.
Proof.
  intros Hd. unfold from_hex. rewrite decide_True by (unfold to_hex; rewrite encode_hex_length; lia). clear Hd.
  induction d as [|x d IH]; [done|]. change (to_hex (x :: d)) with
    (hex_char (Z.shiftr (byte_Z x) 4) :: hex_char (Z.land (byte_Z x) 15) :: to_hex d).
  cbn [from_hex_chunks]. destruct (hex_digits x) as (-> & -> & Hx & _). rewrite IH. by rewrite Hx.
Qed.

Lemma to_hex_inj d d' : length d = 32 → length d' = 32 → to_hex d = to_hex d' → d = d'.
Proof. intros H1 H2 H. pose proof (from_hex_to_hex d H1) as E. rewrite H, from_hex_to_hex in E by done. congruence. Qed.

(** Every blob stored under the text of a digest has that digest. *)
Definition cas_intact b : Prop :=
  ∀ d v, length d = 32 → blob_view b !! to_hex d = Some v → sha256 v = d.

Lemma put_if_absent_spec key data b b' r : blob_put_if_absent key data b = (b', r) →
  match r with
  | Ok _ => blob_view b !! key = None ∧ blob_view b' = <[key:=data]> (blob_view b)
  | Err (BlobAlreadyExists _) => True
  | Err _ => blob_view b' = blob_view b
  end.
Proof.
  unfold blob_put_if_absent. destruct (blob_head key b) as [b1 r1] eqn:Eh. apply blob_head_law in Eh as [Hv Hh].
  destruct r1 as [m|[]]; try (by intros [= <- <-]).
  intros Hp. apply blob_put_law in Hp. rewrite Hv in Hp. by destruct r as [[]|[]].
Qed.

Lemma put_cas_spec data b b' d : blob_put_cas data b = (b', Ok d) → d = sha256 data ∧
  blob_view b' = match blob_view b !! to_hex d with Some _ => blob_view b | None => <[to_hex d:=data]> (blob_view b) end.
Proof.
  unfold blob_put_cas, put_at_digest, blob_put_if_absent. destruct (blob_head (to_hex (sha256 data)) b) as [b1 r1] eqn:Eh.
  apply blob_head_law in Eh as [Hv Hh]. destruct r1 as [m|e].
  - intros [= <- <-]. split; [done|]. destruct Hh as (v & -> & _). done.
  - destruct e; try done. destruct (blob_put _ data b1) as [b2 r2] eqn:Ep. apply blob_put_law in Ep.
    destruct r2 as [[]|[]]; try done. intros [= <- <-]. by rewrite Hh, <-Hv.
Qed.

Lemma get_cas_spec dg b b' r : blob_get_cas dg b = (b', r) →
  blob_view b' = blob_view b ∧
  match r with
  | Ok v => blob_view b !! to_hex dg = Some v ∧ sha256 v = dg
  | Err e => (∃ v, blob_view b !! to_hex dg = Some v ∧ sha256 v ≠ dg ∧ e = ChecksumMismatch dg (sha256 v)) ∨ (blob_get (to_hex dg) b).2 = Err e
  end.
Proof.
  unfold blob_get_cas, st_bind. destruct (blob_get (to_hex dg) b) as [b1 [v|e]] eqn:Eg; apply blob_get_law in Eg as [Hv Hg];
    [|intros [= <- <-]; by split; [|right]].
  case_decide as Hd; intros [= <- <-]; (split; [done|]); [done|]. left. by exists v.
Qed.

Lemma exists_cas_spec dg b b' r : blob_exists_cas dg b = (b', r) →
  blob_view b' = blob_view b ∧ ∀ x, r = Ok x → x = bool_decide (is_Some (blob_view b !! to_hex dg)).
Proof.
  unfold blob_exists_cas, blob_exists. destruct (blob_head (to_hex dg) b) as [b1 r1] eqn:Eh. apply blob_head_law in Eh as [Hv Hh].
  destruct r1 as [m|[]]; intros [= <- <-]; (split; [done|]); intros x; try done; intros [= <-].
  - destruct Hh as (v & -> & _). done.
  - by rewrite Hh.
Qed.

(** C34: Content-addressed storage.  In every store, intact or not, a blob read by its
    digest is the one stored under the text of the digest and has that digest; if the one
    stored there has another, the read reports the two digests and nothing else; and the
    membership test tells whether there is one.  [put_cas] returns the digest of the data,
    stores it under the text of the digest unless that key is taken, and keeps an intact
    store intact; afterwards the key is present, and in an intact store whatever blob is
    returned for it passes the check of [get_cas], with the digest of the data. *)
Theorem blob_cas_roundtrip data b b' d :
  blob_put_cas data b = (b', Ok d) →
  (∀ dg c c' r, blob_get_cas dg c = (c', r) →
     blob_view c' = blob_view c ∧
     match r with
     | Ok v => blob_view c !! to_hex dg = Some v ∧ sha256 v = dg
     | Err e => (∃ v, blob_view c !! to_hex dg = Some v ∧ sha256 v ≠ dg ∧ e = ChecksumMismatch dg (sha256 v)) ∨ (blob_get (to_hex dg) c).2 = Err e
     end) ∧
  (∀ dg c c' r, blob_exists_cas dg c = (c', r) →
     blob_view c' = blob_view c ∧ ∀ x, r = Ok x → x = bool_decide (is_Some (blob_view c !! to_hex dg))) ∧
  d = sha256 data ∧ (cas_intact b → cas_intact b') ∧
  blob_view b' = match blob_view b !! to_hex d with Some _ => blob_view b | None => <[to_hex d:=data]> (blob_view b) end ∧
  (blob_exists_cas d b').2 ≠ Ok false ∧
  (cas_intact b → ∀ v, (blob_get (to_hex d) b').2 = Ok v → (blob_get_cas d b').2 = Ok v ∧ sha256 v = sha256 data).
Proof.
  intros Hput. destruct (put_cas_spec _ _ _ _ Hput) as [Hd Hv]. pose proof (sha256_length data) as Hl. rewrite <-Hd in Hl.
  assert (is_Some (blob_view b' !! to_hex d)) as Hsome.
  { rewrite Hv. destruct (blob_view b !! to_hex d) eqn:E; [by rewrite E|]. rewrite lookup_insert_eq. by eexists. }
  assert (cas_intact b → cas_intact b') as Hi'.
  { intros Hi d' v Hl'. rewrite Hv. destruct (blob_view b !! to_hex d); [by apply Hi|].
    destruct (decide (to_hex d' = to_hex d)) as [Heq|Hne].
    - rewrite Heq, lookup_insert_eq. intros [= <-]. rewrite <-Hd. symmetry. by apply to_hex_inj.
    - rewrite lookup_insert_ne by done. by apply Hi. }
  split; [intros *; apply get_cas_spec|]. split; [intros *; apply exists_cas_spec|]. split_and!; [done..| |].
  - destruct (blob_exists_cas d b') as [b2 r] eqn:Ee. destruct (exists_cas_spec _ _ _ _ Ee) as [_ Hx]. simpl. intros ->.
    specialize (Hx false eq_refl). symmetry in Hx. by apply bool_decide_eq_false in Hx.
  - intros Hi v. destruct (blob_get (to_hex d) b') as [b2 r] eqn:Eg. pose proof (blob_get_law _ _ _ _ Eg) as [_ Hg].
    intros Hr. simpl in Hr. subst r. pose proof (Hi' Hi _ _ Hl Hg) as Hsha. unfold blob_get_cas, st_bind. rewrite Eg, Hsha.
    rewrite decide_True by done. by rewrite Hd.
Qed.

Lemma get_cas_verified d b b' v : blob_get_cas d b = (b', Ok v) → sha256 v = d.
Proof.
  unfold blob_get_cas, st_bind. destruct (blob_get (to_hex d) b) as [b1 [v1|e]]; [|done].
  case_decide; [|done]. by intros [= <- <-].
Qed.
End Cas.

(** ** Listing in pages *)
Lemma filter_fst {A} (f : bytes → bool) (l : list (bytes * A)) :
  List.filter f l.*1 = (List.filter (λ kv, f kv.1) l).*1.
Proof. induction l as [|[k v] l IH]; csimpl; [done|]. destruct (f k); csimpl; by rewrite IH. Qed.

Definition stored_in (s : MemoryState) (l : list (bytes * bytes)) : Prop := Forall (λ kv, mem_map s !! kv.1 = Some kv.2) l.

Lemma head_all_memory s l : stored_in s l → head_all l.*1 s = (s, Ok (entry_meta <$> l)).
Proof.
  induction 1 as [|[k v] l Hk _ IH]; csimpl; [done|]. unfold st_bind at 1. simpl. unfold memory_head. simpl in Hk. rewrite Hk.
  unfold st_bind. by rewrite IH.
Qed.

Lemma head_page_memory s sa n l : stored_in s l →
  head_page sa n l.*1 s = (s, Ok (entry_meta <$> take n (List.filter (λ kv, after sa kv.1) l))).
Proof.
  intros Hl. revert n. induction Hl as [|[k v] l Hk _ IH]; intros n; csimpl; [by rewrite take_nil|].
  assert ((match sa with Some sa => bytes_leb k sa | None => false end) = negb (after sa k)) as ->
    by by destruct sa. destruct (after sa k); simpl; [|apply IH]. destruct n as [|n]; [done|].
  unfold st_bind at 1. simpl. unfold memory_head. simpl in Hk. rewrite Hk. unfold st_bind. by rewrite IH.
Qed.

Lemma stored_filter s (f : bytes * bytes → bool) : stored_in s (List.filter f (btree_iter (mem_map s))).
Proof. apply Forall_forall. intros [k v] [Hin _]%elem_of_list_filter_bool. by apply elem_of_btree_iter in Hin. Qed.

Lemma memory_page_default prefix start limit s :
  memory_list_meta_page prefix start limit s = blob_list_meta_page prefix start limit s.
Proof.
  unfold blob_list_meta_page, st_bind. simpl. unfold memory_list. rewrite (filter_fst (λ k, starts_with k prefix)).
  by rewrite head_page_memory by apply stored_filter.
Qed.

(** The listings that [MemoryBlobStore] overrides for efficiency, full and
    paged, answer exactly as the provided definitions of the trait do. *)
Theorem memory_listing_equiv prefix start limit s :
  memory_list_meta prefix s = blob_list_meta prefix s ∧
  memory_list_meta_page prefix start limit s = blob_list_meta_page prefix start limit s.
Proof.
  split; [|apply memory_page_default]. unfold blob_list_meta, st_bind. simpl. unfold memory_list.
  rewrite (filter_fst (λ k, starts_with k prefix)). by rewrite head_all_memory by apply stored_filter.
Qed.

(** A client that reads pages until one is empty, each starting after the last key of
    the page before. *)
Fixpoint read_pages (fuel : nat) (prefix : bytes) (start : option bytes) (limit : nat) (s : MemoryState)
    : list (list BlobMeta) :=
  match fuel with
  | 0 => []
  | S fuel =>
      match (memory_list_meta_page prefix start limit s).2 with
      | Err _ => []
      | Ok page =>
          match last page with
          | None => []
          | Some m => page :: read_pages fuel prefix (Some (meta_key m)) limit s
          end
      end
  end.

Lemma bytes_lt_sorted (l1 l2 : list (bytes * bytes)) k v :
  StronglySorted kv_le (l1 ++ (k, v) :: l2) → NoDup (l1 ++ (k, v) :: l2).*1 →
  List.filter (λ kv, after (Some k) kv.1) (l1 ++ (k, v) :: l2) = l2.
Proof.
  intros Hs Hn. assert (∀ l : list (bytes * bytes), (∀ x, x ∈ l → bytes_le x.1 k) → List.filter (λ kv, after (Some k) kv.1) l = []) as Hlow.
  { intros l Hl. induction l as [|x l IH]; csimpl; [done|]. pose proof (Hl x ltac:(by left)) as Hx. unfold bytes_le, bytes_leb in Hx.
    apply negb_true_iff in Hx. rewrite Hx. apply IH. intros y Hy. apply Hl. by right. }
  rewrite List.filter_app. csimpl. rewrite bytes_ltb_irrefl, Hlow; simpl.
  - apply filter_all. intros x Hx. simpl. apply StronglySorted_app in Hs as (_ & _ & Hs%StronglySorted_inv). destruct Hs as [_ Hle].
    rewrite Forall_forall in Hle. specialize (Hle x Hx). unfold kv_le, bytes_le in Hle. simpl in Hle.
    rewrite fmap_app in Hn. csimpl in Hn. apply NoDup_app in Hn as (_ & _ & [Hnin _]%NoDup_cons).
    destruct (bytes_ltb_trichotomy k x.1) as [H|[H|H]]; [done| |].
    + exfalso. apply Hnin. rewrite H. by apply list_elem_of_fmap_2.
    + unfold bytes_leb in Hle. by rewrite H in Hle.
  - intros x Hx. apply StronglySorted_app in Hs as (Hle & _). by apply (Hle x (k, v) Hx); left.
Qed.

Lemma read_pages_spec fuel prefix limit s L1 L2 start :
  let L := List.filter (λ kv, starts_with kv.1 prefix) (btree_iter (mem_map s)) in
  0 < limit → L = L1 ++ L2 → start = fst <$> last L1 → length L2 < fuel →
  concat (read_pages fuel prefix start limit s) = entry_meta <$> L2.
Proof.
  intros L Hlim HL Hstart. assert (StronglySorted kv_le L) as Hs by by apply StronglySorted_filter_bool, btree_iter_sorted.
  assert (NoDup L.*1) as Hn by by apply NoDup_fst_filter_bool, btree_iter_NoDup.
  revert L1 L2 start HL Hstart. induction fuel as [|fuel IH]; intros L1 L2 start HL Hstart Hf; [lia|].
  assert (List.filter (λ kv, after start kv.1) L = L2) as Hafter.
  { destruct L1 as [|kv L1 _] using rev_ind; simpl in Hstart; subst start; simpl.
    - rewrite HL. by apply filter_all.
    - rewrite last_snoc. destruct kv as [k v]. rewrite HL, <-app_assoc in *. by apply bytes_lt_sorted. }
  simpl. fold L. rewrite Hafter. destruct (decide (L2 = [])) as [->|Hne]; [by rewrite take_nil|].
  destruct limit as [|lim]; [lia|]. pose proof (take_drop (S lim) L2) as Htd.
  assert (take (S lim) L2 ≠ []) as Hp by by destruct L2.
  destruct (take (S lim) L2) as [|kv p _] eqn:Et using rev_ind; [done|].
  assert (last (entry_meta <$> (p ++ [kv])) = Some (entry_meta kv)) as -> by (rewrite fmap_app; apply last_snoc).
  cbn [concat]. rewrite (IH (L1 ++ p ++ [kv]) (drop (S lim) L2)).
  - by rewrite <-fmap_app, <-Et, take_drop.
  - rewrite HL, <-app_assoc. f_equal. by rewrite <-Et, take_drop.
  - rewrite app_assoc, last_snoc. done.
  - rewrite length_drop. destruct L2; [done|]. simpl in *. lia.
Qed.

(** Paging is complete.  For any positive page size, a client that reads pages
    until an empty one, each starting after the last key of the page before, receives
    the metadata of every blob with the prefix exactly once and in key order, in at
    most one page per blob and a final empty one. *)
Theorem read_pages_complete prefix limit s :
  0 < limit →
  Ok (concat (read_pages (S (size (mem_map s))) prefix None limit s)) = (memory_list_meta prefix s).2.
Proof.
  intros Hl. unfold memory_list_meta. cbn [snd]. f_equal. apply (read_pages_spec _ prefix limit s [] _); [done|done|done|].
  apply Nat.lt_succ_r. rewrite <-btree_iter_length. apply List.filter_length_le.
Qed.

Lemma read_pages_complete_witness :
  let s := foldl (λ s op, mem_step op s) memory_new [MemPut [x61] []; MemPut [x62] [x01]; MemPut [x61; x62] [x02]] in
  Ok (concat (read_pages (S (size (mem_map s))) [x61] None 1 s)) = (memory_list_meta [x61] s).2.
Proof. apply (read_pages_complete [x61] 1). lia. Defined.
