(* ===== verification/LocalBlob.v ===== *)
(** * [oxistore-blob/src/local.rs]: blobs in a directory

    The file system is a map from absolute paths, lists of names, to files and
    directories, with the calls the store makes: they fail when a name is missing or of
    the wrong kind, and otherwise succeed (no permissions, no full disk, no symbolic
    links).  Paths are those of Unix; names are UTF-8.  The order of [read_dir] is a
    parameter. *)

From S2P Require Import Prelude Bytes Core Encrypt Blob.

(** ** Paths *)
Abbreviation path := (list bytes).

Definition SLASH : Byte.byte := "/"%byte.
Definition DOT : Byte.byte := "."%byte.
Definition TMP : bytes := String.list_byte_of_string "tmp".

Fixpoint split_slash (s : bytes) : list bytes :=
  match s with
  | [] => [[]]
  | c :: s =>
      if decide (c = SLASH) then [] :: split_slash s
      else match split_slash s with p :: ps => (c :: p) :: ps | [] => [[c]] end
  end.

Fixpoint join_slash (p : path) : bytes :=
  match p with
  | [] => []
  | [n] => n
  | n :: p => n ++ SLASH :: join_slash p
  end.

(** [Path::components], without the root: empty components and [.] are dropped. *)
Definition components (s : bytes) : path := List.filter (λ c, bool_decide (c ≠ []) && bool_decide (c ≠ [DOT])) (split_slash s).

(** A path that ends in [/] or [/.] names a directory. *)
Definition names_dir (s : bytes) : bool :=
  match last (split_slash s) with Some c => bool_decide (c = []) || bool_decide (c = [DOT]) | None => false end.

Definition parent (p : path) : path := take (length p - 1) p.

(** A name cut at its last dot; [None] when there is none. *)
Fixpoint split_dot (n : bytes) : option (bytes * bytes) :=
  match n with
  | [] => None
  | c :: n =>
      match split_dot n with
      | Some (before, after) => Some (c :: before, after)
      | None => if decide (c = DOT) then Some ([], n) else None
      end
  end.

(** [Path::file_stem] and [Path::extension] of a name. *)
Definition file_stem (n : bytes) : bytes :=
  match split_dot n with Some ([], _) => n | Some (before, _) => before | None => n end.

Definition extension (n : bytes) : option bytes :=
  match split_dot n with Some ([], _) => None | Some (_, after) => Some after | None => None end.

Definition is_tmp (n : bytes) : bool := bool_decide (extension n = Some TMP).

(** [Path::with_extension("tmp")] *)
Definition tmp_path (p : path) : path :=
  match last p with Some n => parent p ++ [file_stem n ++ DOT :: TMP] | None => p end.

(** ** The file system *)
Inductive Node := NFile (data : bytes) | NDir.
Inductive IoKind := IoNotFound | IoNotADirectory | IoIsADirectory | IoAlreadyExists | IoInvalid.
Abbreviation Fs := (gmap path Node).
Abbreviation io_result A := (result A IoKind).

Definition io_message (e : IoKind) : string :=
  match e with
  | IoNotFound => "No such file or directory"
  | IoNotADirectory => "Not a directory"
  | IoIsADirectory => "Is a directory"
  | IoAlreadyExists => "File exists"
  | IoInvalid => "Invalid argument"
  end.

Definition io_error (e : IoKind) : BlobError := BlobIo (io_message e).

(** What a path leads to: every name but the last must be a directory. *)
Fixpoint fs_walk (fs : Fs) (dir rest : path) : io_result Node :=
  match rest with
  | [] => Ok NDir
  | n :: rest =>
      match fs !! (dir ++ [n]) with
      | None => Err IoNotFound
      | Some node =>
          match rest, node with
          | [], _ => Ok node
          | _, NDir => fs_walk fs (dir ++ [n]) rest
          | _, NFile _ => Err IoNotADirectory
          end
      end
  end.

Definition fs_read (fs : Fs) (p : path) (slash : bool) : io_result bytes :=
  match fs_walk fs [] p with
  | Err e => Err e
  | Ok NDir => Err IoIsADirectory
  | Ok (NFile d) => if slash then Err IoNotADirectory else Ok d
  end.

(** A file can be made at [p]. *)
Definition fs_can_create (fs : Fs) (p : path) : io_result unit :=
  if decide (p = []) then Err IoIsADirectory
  else
    match fs_walk fs [] (parent p) with
    | Err e => Err e
    | Ok (NFile _) => Err IoNotADirectory
    | Ok NDir => match fs !! p with Some NDir => Err IoIsADirectory | _ => Ok () end
    end.

Definition fs_write (p : path) (data : bytes) (fs : Fs) : Fs * io_result unit :=
  match fs_can_create fs p with
  | Err e => (fs, Err e)
  | Ok _ => (<[p := NFile data]> fs, Ok ())
  end.

Fixpoint fs_create_dirs (dir rest : path) (fs : Fs) : Fs * io_result unit :=
  match rest with
  | [] => (fs, Ok ())
  | n :: rest =>
      match fs !! (dir ++ [n]) with
      | None => fs_create_dirs (dir ++ [n]) rest (<[dir ++ [n] := NDir]> fs)
      | Some NDir => fs_create_dirs (dir ++ [n]) rest fs
      | Some (NFile _) => (fs, Err (if rest is [] then IoAlreadyExists else IoNotADirectory))
      end
  end.

(** [rename] of a file; it replaces a file at [dst]. *)
Definition fs_rename (src dst : path) (slash : bool) (fs : Fs) : Fs * io_result unit :=
  match fs_walk fs [] src with
  | Err e => (fs, Err e)
  | Ok NDir => (fs, Err IoInvalid)
  | Ok (NFile d) =>
      if slash then (fs, Err IoNotADirectory)
      else
        match fs_can_create fs dst with
        | Err e => (fs, Err e)
        | Ok _ => (<[dst := NFile d]> (delete src fs), Ok ())
        end
  end.

Definition fs_remove_file (p : path) (slash : bool) (fs : Fs) : Fs * io_result unit :=
  match fs_walk fs [] p with
  | Err e => (fs, Err e)
  | Ok NDir => (fs, Err IoIsADirectory)
  | Ok (NFile _) => if slash then (fs, Err IoNotADirectory) else (delete p fs, Ok ())
  end.

(** The size of a directory is up to the file system. *)
Definition fs_metadata (dir_size : Z) (fs : Fs) (p : path) (slash : bool) : io_result Z :=
  match fs_walk fs [] p with
  | Err e => Err e
  | Ok NDir => Ok dir_size
  | Ok (NFile d) => if slash then Err IoNotADirectory else Ok (Z.of_nat (length d))
  end.

Definition child_of (dir : path) (e : path * Node) : option (bytes * Node) :=
  match last e.1 with
  | Some n => if decide (e.1 = dir ++ [n]) then Some (n, e.2) else None
  | None => None
  end.

Definition fs_read_dir (fs : Fs) (p : path) : io_result (list (bytes * Node)) :=
  match fs_walk fs [] p with
  | Err e => Err e
  | Ok (NFile _) => Err IoNotADirectory
  | Ok NDir => Ok (omap (child_of p) (map_to_list fs))
  end.

(** ** The store *)
Record LocalBlobStore := { base : path; verify_checksum : bool }.

Definition local_new (b : path) : LocalBlobStore := {| base := b; verify_checksum := false |}.
Definition with_checksum_verification (b : path) : LocalBlobStore := {| base := b; verify_checksum := true |}.

Definition validate_key (key : bytes) : blob_result unit :=
  if decide (key = []) then Err (BlobOther "key must not be empty")
  else if existsb (λ c, bool_decide (c = [DOT; DOT])) (components key) then Err (BlobOther "key must not contain '..' path component")
  else Ok ().

(** [self.base.join(key)]: a key that starts with [/] replaces the base. *)
Definition resolve (st : LocalBlobStore) (key : bytes) : blob_result (path * bool) :=
  let? _ := validate_key key in
  let p := if bool_decide (head key = Some SLASH) then components key else base st ++ components key in
  Ok (p, names_dir key).

(** The three steps of [put]. *)
Definition put_prepare (p : path) : Fs → Fs * io_result unit := fs_create_dirs [] (parent p).
Definition put_stage (p : path) (data : bytes) : Fs → Fs * io_result unit := fs_write (tmp_path p) data.
Definition put_publish (p : path) (slash : bool) : Fs → Fs * io_result unit := fs_rename (tmp_path p) p slash.

Definition local_put (st : LocalBlobStore) (key data : bytes) (fs : Fs) : Fs * blob_result unit :=
  match resolve st key with
  | Err e => (fs, Err e)
  | Ok (p, slash) =>
      let '(fs, r) := (let* _ := put_prepare p in let* _ := put_stage p data in put_publish p slash) fs in
      (fs, map_err io_error r)
  end.

Definition is_hexdigit (b : Byte.byte) : bool := if hex_nibble b is Some _ then true else false.

(** [key_from_path]: the last name of the path. *)
Definition key_from_path (p : path) : bytes := default (String.list_byte_of_string "<unknown>") (last p).

Definition local_get `{!Sha256} (st : LocalBlobStore) (key : bytes) (fs : Fs) : Fs * blob_result bytes :=
  match resolve st key with
  | Err e => (fs, Err e)
  | Ok (p, slash) =>
      match fs_read fs p slash with
      | Err IoNotFound => (fs, Err (BlobNotFound (key_from_path p)))
      | Err e => (fs, Err (io_error e))
      | Ok data =>
          if verify_checksum st && bool_decide (length key = 64) && forallb is_hexdigit key && negb (bool_decide (to_hex (sha256 data) = key))
          then (fs, Err (ChecksumMismatch key (to_hex (sha256 data))))
          else (fs, Ok data)
      end
  end.

Definition local_delete (st : LocalBlobStore) (key : bytes) (fs : Fs) : Fs * blob_result unit :=
  match resolve st key with
  | Err e => (fs, Err e)
  | Ok (p, slash) =>
      match fs_remove_file p slash fs with
      | (fs, Ok _) => (fs, Ok ())
      | (fs, Err IoNotFound) => (fs, Err (BlobNotFound key))
      | (fs, Err e) => (fs, Err (io_error e))
      end
  end.

Definition local_head (dir_size : Z) (st : LocalBlobStore) (key : bytes) (fs : Fs) : Fs * blob_result BlobMeta :=
  match resolve st key with
  | Err e => (fs, Err e)
  | Ok (p, slash) =>
      match fs_metadata dir_size fs p slash with
      | Ok size => (fs, Ok (meta_new key size))
      | Err IoNotFound => (fs, Err (BlobNotFound key))
      | Err e => (fs, Err (io_error e))
      end
  end.

(** ** Listing *)
Section Listing.
Context (read_order : list (bytes * Node) → list (bytes * Node)).

(** The loop over the entries of a directory; [below] lists a subdirectory. *)
Fixpoint collect_loop (below : path → option (blob_result (list bytes))) (rel : path) (prefix : bytes) (entries : list (bytes * Node))
    : option (blob_result (list bytes)) :=
  match entries with
  | [] => Some (Ok [])
  | (n, NDir) :: entries =>
      sub ← below (rel ++ [n]);
      match sub with
      | Err e => Some (Err e)
      | Ok sub => rest ← collect_loop below rel prefix entries; Some (let? rest := rest in Ok (sub ++ rest))
      end
  | (n, NFile _) :: entries =>
      rest ← collect_loop below rel prefix entries;
      Some (let? rest := rest in
            let key := join_slash (rel ++ [n]) in
            if is_tmp n then Ok rest else if starts_with key prefix then Ok (key :: rest) else Ok rest)
  end.

(** The keys of the files below [base ++ rel]; [None] when the fuel runs out. *)
Fixpoint collect_entries (fuel : nat) (fs : Fs) (base rel : path) (prefix : bytes) : option (blob_result (list bytes)) :=
  match fuel with
  | 0 => None
  | S fuel =>
      match fs_read_dir fs (base ++ rel) with
      | Err IoNotFound => Some (Ok [])
      | Err e => Some (Err (io_error e))
      | Ok entries => collect_loop (λ rel, collect_entries fuel fs base rel prefix) rel prefix (read_order entries)
      end
  end.

(** One level more than the longest path. *)
Definition depth (fs : Fs) : nat := S (foldr max 0 (length <$> (map_to_list fs).*1)).

Definition local_list (st : LocalBlobStore) (prefix : bytes) (fs : Fs) : Fs * blob_result (list bytes) :=
  (fs, match collect_entries (depth fs) fs (base st) [] prefix with
       | Some r => let? keys := r in Ok (merge_sort bytes_le keys)
       | None => Err (BlobIo "out of fuel")
       end).

(** The loop of [list_meta] and [list_meta_page]: a blob that is gone is skipped. *)
Fixpoint stat_all (dir_size : Z) (st : LocalBlobStore) (start_after : option bytes) (limit : option nat) (fs : Fs) (keys : list bytes)
    : blob_result (list BlobMeta) :=
  match keys with
  | [] => Ok []
  | key :: keys =>
      if negb (after start_after key) then stat_all dir_size st start_after limit fs keys
      else
        match limit with
        | Some 0 => Ok []
        | _ =>
            match fs_metadata dir_size fs (base st ++ components key) false with
            | Ok size =>
                let? rest := stat_all dir_size st start_after (pred <$> limit) fs keys in
                Ok (meta_new key size :: rest)
            | Err IoNotFound => stat_all dir_size st start_after limit fs keys
            | Err e => Err (io_error e)
            end
        end
  end.

Definition local_list_meta (dir_size : Z) (st : LocalBlobStore) (prefix : bytes) (fs : Fs) : Fs * blob_result (list BlobMeta) :=
  (fs, let? keys := (local_list st prefix fs).2 in stat_all dir_size st None None fs keys).

Definition local_list_meta_page (dir_size : Z) (st : LocalBlobStore) (prefix : bytes) (start_after : option bytes) (limit : nat) (fs : Fs)
    : Fs * blob_result (list BlobMeta) :=
  (fs, let? keys := (local_list st prefix fs).2 in stat_all dir_size st start_after (Some limit) fs keys).

(** [cleanup_tmp_files_sync]: errors below the top directory are ignored. *)
Fixpoint cleanup_loop (below : path → Fs → Fs * io_result Z) (dir : path) (entries : list (bytes * Node)) (count : Z) (fs : Fs)
    : Fs * io_result Z :=
  match entries with
  | [] => (fs, Ok count)
  | (n, NDir) :: entries =>
      let '(fs, r) := below (dir ++ [n]) fs in
      cleanup_loop below dir entries (count + (if r is Ok k then k else 0))%Z fs
  | (n, NFile _) :: entries =>
      if is_tmp n then
        match fs_remove_file (dir ++ [n]) false fs with
        | (fs, Ok _) => cleanup_loop below dir entries (count + 1)%Z fs
        | (fs, Err _) => cleanup_loop below dir entries count fs
        end
      else cleanup_loop below dir entries count fs
  end.

Fixpoint cleanup_tmp_files (fuel : nat) (dir : path) (fs : Fs) : Fs * io_result Z :=
  match fuel with
  | 0 => (fs, Ok 0%Z)
  | S fuel =>
      match fs_read_dir fs dir with
      | Err IoNotFound => (fs, Ok 0%Z)
      | Err e => (fs, Err e)
      | Ok entries => cleanup_loop (cleanup_tmp_files fuel) dir (read_order entries) 0%Z fs
      end
  end.

Definition cleanup_temp_files (st : LocalBlobStore) (fs : Fs) : Fs * io_result Z := cleanup_tmp_files (depth fs) (base st) fs.

Definition with_temp_cleanup (b : path) (fs : Fs) : Fs * io_result LocalBlobStore :=
  match fs_walk fs [] b with
  | Err _ => (fs, Ok (local_new b))
  | Ok _ =>
      match cleanup_tmp_files (depth fs) b fs with
      | (fs, Ok _) => (fs, Ok (local_new b))
      | (fs, Err e) => (fs, Err e)
      end
  end.
End Listing.
