(* ===== verification/LocalProps.v ===== *)
(** * Correctness of the local blob store

    On a well-formed file system, for keys made of ordinary names whose last name does
    not end in [.tmp], the store is a map; a [put] that is interrupted at any point
    leaves every blob as it was.  Keys outside this class do escape: a key that starts
    with a slash leaves the base directory, and temporary files share one name per stem. *)

From S2P Require Import Prelude Bytes Core Encrypt Blob LocalBlob.

(** ** Names *)
Definition name_ok (n : bytes) : Prop := n ≠ [] ∧ n ≠ [DOT] ∧ n ≠ [DOT; DOT] ∧ SLASH ∉ n.
Definition plain (rel : path) : Prop := rel ≠ [] ∧ Forall name_ok rel.

Lemma split_slash_app n s : SLASH ∉ n → split_slash (n ++ SLASH :: s) = n :: split_slash s.
Proof.
  induction n as [|c n IH]; intros Hn; cbn [app split_slash]; [by rewrite decide_True|]. rewrite decide_False by set_solver.
  rewrite IH by set_solver. done.
Qed.

Lemma split_slash_free n : SLASH ∉ n → split_slash n = [n].
Proof. induction n as [|c n IH]; intros Hn; cbn [split_slash]; [done|]. rewrite decide_False by set_solver. rewrite IH by set_solver. done. Qed.

Lemma split_join rel : plain rel → split_slash (join_slash rel) = rel.
Proof.
  intros [Hne Hrel]. induction Hrel as [|n rel (_ & _ & _ & Hn) Hrel IH]; [done|]. destruct rel as [|m rel]; [by apply split_slash_free|].
  change (join_slash (n :: m :: rel)) with (n ++ SLASH :: join_slash (m :: rel)). rewrite split_slash_app by done. by rewrite IH.
Qed.

Lemma join_slash_inj rel rel' : plain rel → plain rel' → join_slash rel = join_slash rel' → rel = rel'.
Proof. intros H H' Heq. rewrite <-(split_join rel H), <-(split_join rel' H'). by rewrite Heq. Qed.

Lemma components_join rel : plain rel → components (join_slash rel) = rel.
Proof.
  intros Hp. unfold components. rewrite split_join by done. apply filter_all. intros n Hn. destruct Hp as [_ Hp].
  rewrite Forall_forall in Hp. destruct (Hp n Hn) as (? & ? & _). by rewrite !bool_decide_true.
Qed.

Lemma names_dir_last s rel : plain rel → last (split_slash s) = last rel → names_dir s = false.
Proof.
  intros [Hne Hp] Hs. unfold names_dir. rewrite Hs. destruct (last rel) as [n|] eqn:Hl; [|done].
  apply last_Some_elem_of in Hl. rewrite Forall_forall in Hp. destruct (Hp n Hl) as (? & ? & _). by rewrite !bool_decide_false.
Qed.

Lemma no_dots rel : Forall name_ok rel → existsb (λ c, bool_decide (c = [DOT; DOT])) rel = false.
Proof. induction 1 as [|n rel (_ & _ & Hn & _) _ IH]; [done|]. simpl. by rewrite bool_decide_false. Qed.

Lemma join_head rel : plain rel → head (join_slash rel) ≠ Some SLASH ∧ join_slash rel ≠ [].
Proof.
  intros [Hne Hp]. destruct Hp as [|n rel (Hn & _ & _ & Hs) _]; [done|]. destruct n as [|c n]; [done|].
  destruct rel; simpl; split; try done; intros [= ->]; set_solver.
Qed.

Lemma resolve_plain st rel : plain rel → resolve st (join_slash rel) = Ok (base st ++ rel, false).
Proof.
  intros Hp. destruct (join_head rel Hp) as [Hh Hne]. unfold resolve, validate_key. rewrite decide_False by done.
  rewrite components_join, no_dots by (done || apply Hp). rewrite bool_decide_false by done.
  rewrite (names_dir_last _ rel); [done|done|by rewrite split_join].
Qed.

(** ** Temporary names *)
Lemma split_dot_tmp s : split_dot (s ++ DOT :: TMP) = Some (s, TMP).
Proof. induction s as [|c s IH]; [done|]. simpl. by rewrite IH. Qed.

Lemma file_stem_ne n : n ≠ [] → file_stem n ≠ [].
Proof. intros Hn. unfold file_stem. by destruct (split_dot n) as [[[|] ?]|]. Qed.

Lemma is_tmp_stem n : n ≠ [] → is_tmp (file_stem n ++ DOT :: TMP) = true.
Proof.
  intros Hn. apply file_stem_ne in Hn. unfold is_tmp, extension. rewrite split_dot_tmp. destruct (file_stem n); [done|]. by apply bool_decide_true.
Qed.

Lemma split_dot_app n a b : split_dot n = Some (a, b) → n = a ++ DOT :: b.
Proof.
  revert a. induction n as [|c n IH]; intros a; simpl; [done|]. destruct (split_dot n) as [[a' b']|].
  - intros [= <- <-]. simpl. f_equal. by apply IH.
  - case_decide; [|done]. by intros [= <- <-]; subst.
Qed.

Lemma file_stem_slash n : SLASH ∉ n → SLASH ∉ file_stem n.
Proof.
  intros Hn. unfold file_stem. destruct (split_dot n) as [[[|c a] b]|] eqn:E; try done. apply split_dot_app in E. subst. set_solver.
Qed.

Lemma tmp_name_ok n : name_ok n → name_ok (file_stem n ++ DOT :: TMP).
Proof.
  intros (Hn & _ & _ & Hs). apply file_stem_slash in Hs. apply file_stem_ne in Hn. destruct (file_stem n) as [|c m]; [done|].
  split; [done|]. split; [by destruct m|]. split; [by destruct m as [|? []]|]. rewrite not_elem_of_app. split; [done|].
  by apply (bool_decide_eq_false_1 (SLASH ∈ DOT :: TMP)).
Qed.

Lemma parent_snoc p n : parent (p ++ [n]) = p.
Proof. unfold parent. rewrite length_app. simpl. by rewrite Nat.add_sub, take_app_length. Qed.

Lemma tmp_path_snoc p n : tmp_path (p ++ [n]) = p ++ [file_stem n ++ DOT :: TMP].
Proof. unfold tmp_path. by rewrite last_snoc, parent_snoc. Qed.

(** ** Well-formed file systems *)
Definition dir_at (fs : Fs) (p : path) : Prop := p = [] ∨ fs !! p = Some NDir.

Definition fs_wf (fs : Fs) : Prop :=
  fs !! [] = None ∧ ∀ p n node, fs !! (p ++ [n]) = Some node → name_ok n ∧ dir_at fs p.

Lemma wf_prefix fs p q node : fs_wf fs → fs !! (p ++ q) = Some node → q ≠ [] → dir_at fs p.
Proof.
  intros Hwf. revert node. induction q as [|n q IH] using rev_ind; intros node Hq Hne; [done|].
  rewrite app_assoc in Hq. apply Hwf in Hq as [_ [Hd|Hd]].
  - left. by apply app_nil in Hd as [? _].
  - destruct q as [|m q]; [rewrite app_nil_r in Hd; by right|]. by apply (IH NDir).
Qed.

Lemma walk_Ok fs dir rest node : fs_walk fs dir rest = Ok node → (rest = [] ∧ node = NDir) ∨ fs !! (dir ++ rest) = Some node.
Proof.
  revert dir. induction rest as [|n rest IH]; intros dir; simpl; [intros [= <-]; by left|].
  destruct (fs !! (dir ++ [n])) as [node'|] eqn:Hn; [|done]. destruct rest as [|m rest].
  - intros [= ->]. by right.
  - destruct node'; [done|]. intros Hw. apply IH in Hw as [[? _]|Hw]; [done|]. right. by rewrite <-app_assoc in Hw.
Qed.

Lemma walk_Some fs dir rest node : fs_wf fs → fs !! (dir ++ rest) = Some node → rest ≠ [] → fs_walk fs dir rest = Ok node.
Proof.
  intros Hwf. revert dir. induction rest as [|n rest IH]; intros dir Hr Hne; [done|]. cbn [fs_walk].
  destruct rest as [|m rest]; [by rewrite Hr|]. rewrite (cons_middle n dir (m :: rest)), app_assoc in Hr.
  destruct (wf_prefix _ _ _ _ Hwf Hr) as [?|Hd]; [done|by destruct dir|]. rewrite Hd. by apply IH.
Qed.

Lemma walk_root fs p : fs_wf fs → p ≠ [] →
  match fs_walk fs [] p with Ok node => fs !! p = Some node | Err _ => fs !! p = None end.
Proof.
  intros Hwf Hp. destruct (fs_walk fs [] p) as [node|e] eqn:Hw.
  - by apply walk_Ok in Hw as [[? _]|Hw].
  - destruct (fs !! p) as [node|] eqn:Hn; [|done]. by rewrite (walk_Some fs [] p node) in Hw.
Qed.

Lemma walk_dir fs p : fs_walk fs [] p = Ok NDir → dir_at fs p.
Proof. intros [[-> _]|?]%walk_Ok; [by left|by right]. Qed.

Lemma dir_at_insert fs p q node : dir_at fs q → p ≠ q → dir_at (<[p:=node]> fs) q.
Proof. intros [->|Hd] Hne; [by left|right]. by rewrite lookup_insert_ne. Qed.

(** Entries may be added in directories, and files replaced. *)
Lemma wf_insert fs p n node : fs_wf fs → dir_at fs p → name_ok n → (fs !! (p ++ [n]) = Some NDir → node = NDir) →
  fs_wf (<[p ++ [n] := node]> fs).
Proof.
  intros [Hnil Hwf] Hp Hn Hdir. split; [rewrite lookup_insert_ne; [done|by destruct p]|]. intros q m node' Hq.
  destruct (decide (q ++ [m] = p ++ [n])) as [[-> ->]%app_inj_tail|Hne].
  - split; [done|]. apply dir_at_insert; [done|]. intros Heq. by apply (f_equal length) in Heq; rewrite length_app in Heq; simpl in Heq; lia.
  - rewrite lookup_insert_ne in Hq by done. destruct (Hwf _ _ _ Hq) as [Hm [->|Hd]]; split; try done; [by left|].
    right. destruct (decide (p ++ [n] = q)) as [<-|?]; [|by rewrite lookup_insert_ne]. rewrite lookup_insert_eq. f_equal. by apply Hdir.
Qed.

Lemma wf_delete fs p d : fs_wf fs → fs !! p = Some (NFile d) → fs_wf (delete p fs).
Proof.
  intros [Hnil Hwf] Hp. split; [by apply lookup_delete_None; right|]. intros q n node [Hne Hq]%lookup_delete_Some.
  destruct (Hwf _ _ _ Hq) as [Hn [->|Hd]]; split; try done; [by left|]. right. rewrite lookup_delete_ne; [done|]. congruence.
Qed.

(** ** Files seen and unseen

    [seen fs fs'] says that only directories and temporary files differ. *)
Definition tmp_at (p : path) : bool := if last p is Some n then is_tmp n else false.

Definition seen (fs fs' : Fs) : Prop :=
  ∀ p d, tmp_at p = false → fs !! p = Some (NFile d) ↔ fs' !! p = Some (NFile d).

#[global] Instance seen_refl : Reflexive seen.
Proof. by intros fs p d. Qed.

#[global] Instance seen_trans : Transitive seen.
Proof. intros a b c H1 H2 p d Hp. by rewrite (H1 p d Hp), (H2 p d Hp). Qed.

Lemma seen_insert fs p node : (∀ d, tmp_at p = false → fs !! p = Some (NFile d) ↔ node = NFile d) → seen fs (<[p:=node]> fs).
Proof.
  intros Hp q d Hq. destruct (decide (p = q)) as [<-|Hne]; [|by rewrite lookup_insert_ne]. rewrite lookup_insert_eq, (Hp d Hq). 
  split; [by intros ->|by intros [= ->]].
Qed.

Lemma create_dirs_spec dir rest fs fs' r : fs_wf fs → dir_at fs dir → Forall name_ok rest →
  fs_create_dirs dir rest fs = (fs', r) → fs_wf fs' ∧ seen fs fs' ∧ (r = Ok () → dir_at fs' (dir ++ rest)).
Proof.
  revert dir fs. induction rest as [|n rest IH]; intros dir fs Hwf Hd Hr; cbn [fs_create_dirs].
  { intros [= <- <-]. rewrite app_nil_r. done. }
  apply Forall_cons in Hr as [Hn Hr]. rewrite (cons_middle n dir rest), app_assoc. destruct (fs !! (dir ++ [n])) as [[d|]|] eqn:E.
  - by intros [= <- <-].
  - intros Hc. apply (IH (dir ++ [n]) fs) in Hc; [done|done|by right|done].
  - intros Hc. apply IH in Hc as (Hwf' & Hs & Hd'); [|apply wf_insert; try done; by rewrite E|right; apply lookup_insert_eq|done].
    split; [done|]. split; [|done]. etrans; [|exact Hs]. apply seen_insert. intros d _. rewrite E. done.
Qed.

Lemma can_create_spec fs p n : fs_wf fs → fs_can_create fs (p ++ [n]) = Ok () → dir_at fs p ∧ fs !! (p ++ [n]) ≠ Some NDir.
Proof.
  intros Hwf. unfold fs_can_create. rewrite decide_False by (by destruct p). rewrite parent_snoc.
  destruct (fs_walk fs [] p) as [[]|] eqn:Hw; try done. apply walk_dir in Hw. by destruct (fs !! (p ++ [n])) as [[]|].
Qed.

Lemma can_create_ok fs p n : fs_wf fs → dir_at fs p → fs !! (p ++ [n]) ≠ Some NDir → fs_can_create fs (p ++ [n]) = Ok ().
Proof.
  intros Hwf Hp Hn. unfold fs_can_create. rewrite decide_False by (by destruct p). rewrite parent_snoc.
  assert (fs_walk fs [] p = Ok NDir) as ->.
  { destruct Hp as [->|Hp]; [done|]. apply walk_Some; [done|done|]. intros ->. by destruct Hwf as [? _]; simplify_eq. }
  by destruct (fs !! (p ++ [n])) as [[]|].
Qed.

Lemma tmp_at_snoc p n : tmp_at (p ++ [n]) = is_tmp n.
Proof. unfold tmp_at. by rewrite last_snoc. Qed.

(** Staging touches the temporary file only. *)
Lemma stage_spec p n data fs fs' r : fs_wf fs → name_ok n → put_stage (p ++ [n]) data fs = (fs', r) →
  fs_wf fs' ∧ seen fs fs' ∧ (r = Ok () → fs' = <[tmp_path (p ++ [n]) := NFile data]> fs ∧ dir_at fs p).
Proof.
  intros Hwf Hn. unfold put_stage, fs_write. rewrite tmp_path_snoc. destruct (fs_can_create fs _) as [[]|] eqn:Hc; [|by intros [= <- <-]].
  apply can_create_spec in Hc as [Hd Hnd]; [|done]. intros [= <- <-]. split_and!; try done.
  - apply wf_insert; try done. by apply tmp_name_ok.
  - apply seen_insert. intros d. rewrite tmp_at_snoc, is_tmp_stem by apply Hn. done.
Qed.

(** Publishing moves the temporary file into place. *)
Lemma publish_spec p n fs fs' r : fs_wf fs → name_ok n → is_tmp n = false → put_publish (p ++ [n]) false fs = (fs', r) →
  fs_wf fs' ∧
  match r with
  | Ok _ => ∃ data, fs !! tmp_path (p ++ [n]) = Some (NFile data) ∧ fs' = <[p ++ [n] := NFile data]> (delete (tmp_path (p ++ [n])) fs)
  | Err _ => fs' = fs
  end.
Proof.
  intros Hwf Hn Ht. unfold put_publish, fs_rename. rewrite tmp_path_snoc. set (t := p ++ [file_stem n ++ DOT :: TMP]).
  pose proof (walk_root fs t Hwf) as Hw. destruct (fs_walk fs [] t) as [[d|]|]; [|by intros [= <- <-]..].
  destruct (fs_can_create fs (p ++ [n])) as [[]|] eqn:Hc; [|by intros [= <- <-]]. apply can_create_spec in Hc as [Hd Hnd]; [|done].
  intros [= <- <-]. specialize (Hw ltac:(by destruct p)). split; [|by exists d]. apply wf_insert; [by apply (wf_delete _ _ d)| |done|].
  - destruct Hd as [->|Hd]; [by left|right]. rewrite lookup_delete_ne; [done|]. intros Heq. rewrite Heq in Hw. by simplify_eq.
  - intros [_ ?]%lookup_delete_Some. done.
Qed.

(** ** The store as a map *)
Definition local_view (st : LocalBlobStore) (fs : Fs) (rel : path) : option bytes :=
  match fs !! (base st ++ rel) with Some (NFile d) => if tmp_at rel then None else Some d | _ => None end.

Lemma tmp_at_app b rel : rel ≠ [] → tmp_at (b ++ rel) = tmp_at rel.
Proof. intros Hne. unfold tmp_at. rewrite last_app. by destruct (last rel) eqn:E; [|apply last_None in E]. Qed.

Lemma local_view_Some st fs rel d : rel ≠ [] →
  local_view st fs rel = Some d ↔ fs !! (base st ++ rel) = Some (NFile d) ∧ tmp_at (base st ++ rel) = false.
Proof.
  intros Hne. rewrite tmp_at_app by done. unfold local_view. destruct (fs !! _) as [[?|]|], (tmp_at rel); naive_solver.
Qed.

Lemma view_seen st fs fs' rel : seen fs fs' → rel ≠ [] → local_view st fs rel = local_view st fs' rel.
Proof.
  intros Hs Hne. apply option_eq. intros d. rewrite !local_view_Some by done. split; intros [? ?]; split; try done; by apply (Hs _ d).
Qed.

Definition local_ok (st : LocalBlobStore) (fs : Fs) : Prop := fs_wf fs ∧ Forall name_ok (base st).
Definition blob_key (rel : path) : Prop := plain rel ∧ tmp_at rel = false.

(** A key in the directory it is in. *)
Lemma blob_key_snoc st rel : Forall name_ok (base st) → blob_key rel →
  ∃ p n, base st ++ rel = p ++ [n] ∧ Forall name_ok p ∧ name_ok n ∧ is_tmp n = false.
Proof.
  intros Hb [[Hne Hr] Ht]. destruct rel as [|n rel _] using rev_ind; [done|]. rewrite tmp_at_snoc in Ht.
  apply Forall_app in Hr as [Hr Hn]. apply Forall_cons in Hn as [Hn _]. exists (base st ++ rel), n. rewrite app_assoc. split; [done|].
  split; [by apply Forall_app|]. split; [exact Hn|exact Ht].
Qed.

(** Directories are missing only below a file, and nothing else changes. *)
Lemma create_dirs_err dir rest fs fs' e : fs_create_dirs dir rest fs = (fs', Err e) →
  ∃ q m d, rest = q ++ m ∧ fs !! (dir ++ q) = Some (NFile d).
Proof.
  revert dir fs. induction rest as [|n rest IH]; intros dir fs; cbn [fs_create_dirs]; [done|].
  destruct (fs !! (dir ++ [n])) as [[d|]|] eqn:E; [intros _; by exists [n], rest, d|..]; intros (q & m & d & -> & Hq)%IH; rewrite <-app_assoc in Hq.
  - by exists (n :: q), m, d.
  - exists (n :: q), m, d. split; [done|]. apply lookup_insert_Some in Hq as [[_ ?]|[_ Hq]]; [done|exact Hq].
Qed.

Lemma create_dirs_below dir rest fs fs' r q : fs_create_dirs dir rest fs = (fs', r) → length (dir ++ rest) < length q → fs' !! q = fs !! q.
Proof.
  revert dir fs. induction rest as [|n rest IH]; intros dir fs; cbn [fs_create_dirs]; [by intros [= <- _]|]. intros Hc Hlen.
  rewrite (cons_middle n dir rest), app_assoc in Hlen. destruct (fs !! (dir ++ [n])) as [[d|]|] eqn:E; [by injection Hc as <- _|by apply (IH (dir ++ [n]) fs)|].
  rewrite (IH _ _ Hc Hlen). apply lookup_insert_ne. intros <-. rewrite length_app in Hlen. lia.
Qed.

#[global] Instance is_dir_dec (o : option Node) : Decision (o = Some NDir).
Proof. refine (match o with Some NDir => left _ | _ => right _ end); by subst. Defined.

(** A file where a directory is needed, or a directory where a file is. *)
Definition obstructed (fs : Fs) (p : path) : Prop :=
  (∃ q m d, parent p = q ++ m ∧ fs !! q = Some (NFile d)) ∨ fs !! p = Some NDir ∨ fs !! tmp_path p = Some NDir.

Lemma put_obstructed p n data fs fs' e : fs_wf fs → Forall name_ok p → name_ok n → is_tmp n = false →
  (let* _ := put_prepare (p ++ [n]) in let* _ := put_stage (p ++ [n]) data in put_publish (p ++ [n]) false) fs = (fs', Err e) → obstructed fs (p ++ [n]).
Proof.
  intros Hwf Hp Hn Ht. unfold st_bind, put_prepare, obstructed. rewrite parent_snoc, tmp_path_snoc. set (t := p ++ [file_stem n ++ DOT :: TMP]).
  destruct (fs_create_dirs [] p fs) as [fs1 [[]|e1]] eqn:H1; [|left; by apply (create_dirs_err [] p fs fs1 e1)].
  pose proof (create_dirs_spec [] p fs fs1 (Ok ()) Hwf ltac:(by left) Hp H1) as (Hwf1 & _ & Hd). specialize (Hd eq_refl). cbn [app] in Hd.
  assert (∀ m, fs1 !! (p ++ [m]) = fs !! (p ++ [m])) as Hbelow by (intros m; apply (create_dirs_below _ _ _ _ _ _ H1); rewrite !length_app; simpl; lia).
  destruct (decide (fs1 !! t = Some NDir)) as [Hdir|Hdir]; [intros _; right; right; unfold t in *; by rewrite <-Hbelow|].
  unfold put_stage at 1, fs_write. rewrite tmp_path_snoc. fold t. rewrite (can_create_ok fs1 p _ Hwf1 Hd Hdir : fs_can_create fs1 t = Ok ()).
  unfold put_publish, fs_rename. rewrite tmp_path_snoc. fold t. set (fs2 := <[t:=_]> fs1).
  assert (fs_wf fs2) as Hwf2 by (apply wf_insert; try done; by apply tmp_name_ok).
  assert (fs2 !! t = Some (NFile data)) as Ht2 by apply lookup_insert_eq. rewrite (walk_Some fs2 [] t (NFile data) Hwf2 Ht2) by (by destruct p).
  assert (t ≠ p ++ [n]) as Hne by (intros [_ Heq]%app_inj_tail; rewrite <-Heq, is_tmp_stem in Ht by apply Hn; done).
  destruct (decide (fs2 !! (p ++ [n]) = Some NDir)) as [Hd2|Hd2].
  - intros _. right. left. unfold fs2 in Hd2. rewrite lookup_insert_ne in Hd2 by done. by rewrite <-Hbelow.
  - rewrite can_create_ok; [done|done| |done]. apply dir_at_insert; [done|]. intros Heq. apply (f_equal length) in Heq. unfold t in Heq.
    rewrite length_app in Heq. simpl in Heq. lia.
Qed.

(** What [put] does to the files that are seen. *)
Lemma put_steps p n data fs fs' r : fs_wf fs → Forall name_ok p → name_ok n → is_tmp n = false →
  (let* _ := put_prepare (p ++ [n]) in let* _ := put_stage (p ++ [n]) data in put_publish (p ++ [n]) false) fs = (fs', r) →
  fs_wf fs' ∧
  match r with
  | Ok _ => ∃ fs1, seen fs fs1 ∧ seen (<[p ++ [n] := NFile data]> fs1) fs' ∧ fs' !! (p ++ [n]) = Some (NFile data)
  | Err _ => seen fs fs'
  end.
Proof.
  intros Hwf Hp Hn Ht. unfold st_bind, put_prepare. rewrite parent_snoc.
  destruct (fs_create_dirs [] p fs) as [fs1 r1] eqn:H1. apply create_dirs_spec in H1 as (Hwf1 & Hs1 & _); [|done|by left|done].
  destruct r1 as [[]|]; [|by intros [= <- <-]].
  destruct (put_stage (p ++ [n]) data fs1) as [fs2 r2] eqn:H2. apply stage_spec in H2 as (Hwf2 & Hs2 & H2); [|done..].
  destruct r2 as [[]|]; [|intros [= <- <-]; split; [done|by etrans]]. destruct (H2 eq_refl) as [-> Hd]. clear H2.
  intros H3. apply publish_spec in H3 as (Hwf3 & H3); [|done..]. split; [done|]. destruct r as [[]|]; [|subst; by etrans].
  destruct H3 as (d & Hd' & ->). rewrite lookup_insert_eq in Hd'. simplify_eq. exists fs1. split; [done|].
  split; [|apply lookup_insert_eq]. intros q d' Hq. destruct (decide (p ++ [n] = q)) as [<-|Hne]; [by rewrite !lookup_insert_eq|].
  rewrite !(lookup_insert_ne _ (p ++ [n])) by done. rewrite delete_insert_eq, lookup_delete_ne; [done|].
  intros <-. by rewrite tmp_path_snoc, tmp_at_snoc, is_tmp_stem in Hq by apply Hn.
Qed.

