(* ===== verification/LocalList.v ===== *)
(** * Reads, listings and misuse of the local blob store

    Point reads and deletions on ordinary keys, completeness of the recursive listing,
    the cleaning of temporary files, and what happens with keys the store should have
    refused. *)

From S2P Require Import Prelude Bytes Core Encrypt Blob LocalBlob LocalProps.

(** ** Directories *)
Lemma elem_of_children fs p n node : (n, node) ∈ omap (child_of p) (map_to_list fs) ↔ fs !! (p ++ [n]) = Some node.
Proof.
  rewrite list_elem_of_omap. split.
  - intros ([q node'] & Hq & Hc). apply elem_of_map_to_list in Hq. unfold child_of in Hc. simpl in Hc.
    destruct (last q) as [m|]; [|done]. case_decide; simplify_eq. done.
  - intros Hn. exists (p ++ [n], node). split; [by apply elem_of_map_to_list|]. unfold child_of. simpl. rewrite last_snoc. by rewrite decide_True.
Qed.

Lemma NoDup_children_aux p (l : list (path * Node)) : NoDup l.*1 → NoDup (omap (child_of p) l).*1.
Proof.
  induction l as [|[q node] l IH]; [constructor|]. simpl. intros [Hq Hl]%NoDup_cons. specialize (IH Hl).
  destruct (child_of p (q, node)) as [[n nd]|] eqn:Hc; [|done]. simpl. apply NoDup_cons. split; [|done].
  intros ([m nd'] & Hm & Hin)%list_elem_of_fmap. simpl in Hm. subst m. apply list_elem_of_omap in Hin as ([q' node'] & Hq' & Hc').
  unfold child_of in Hc, Hc'. simpl in *. repeat case_match; simplify_eq. apply Hq. apply list_elem_of_fmap. by exists (p ++ [n], nd').
Qed.

Lemma NoDup_children fs p : NoDup (omap (child_of p) (map_to_list fs)).*1.
Proof. apply NoDup_children_aux, NoDup_fst_map_to_list. Qed.

Section Listing.
Context (read_order : list (bytes * Node) → list (bytes * Node)).
Hypothesis read_order_perm : ∀ l, read_order l ≡ₚ l.

(** The keys below [rel], and those below the entries [es] of [rel]. *)
Definition listed (fs : Fs) (b rel : path) (prefix : bytes) (head : bytes → Prop) (key : bytes) : Prop :=
  ∃ n q d, head n ∧ fs !! (b ++ rel ++ n :: q) = Some (NFile d) ∧ tmp_at (n :: q) = false ∧
    key = join_slash (rel ++ n :: q) ∧ starts_with key prefix = true.

Definition lists (fs : Fs) (b rel : path) (prefix : bytes) (head : bytes → Prop) (l : list bytes) : Prop :=
  NoDup l ∧ ∀ key, key ∈ l ↔ listed fs b rel prefix head key.

Lemma wf_names fs p q node : fs_wf fs → fs !! (p ++ q) = Some node → Forall name_ok q.
Proof.
  intros Hwf. revert node. induction q as [|n q IH] using rev_ind; intros node Hq; [constructor|]. rewrite app_assoc in Hq.
  pose proof Hq as [Hn Hd]%(proj2 Hwf). apply Forall_app. split; [|by apply Forall_singleton].
  destruct Hd as [Hd|Hd]; [apply app_nil in Hd as [_ ->]; constructor|by apply (IH NDir)].
Qed.

Lemma listed_inj fs b rel prefix P Q key : fs_wf fs → Forall name_ok rel →
  listed fs b rel prefix P key → listed fs b rel prefix Q key → ∃ n, P n ∧ Q n.
Proof.
  intros Hwf Hrel (n & q & d & Hn & Hf & _ & -> & _) (n' & q' & d' & Hn' & Hf' & _ & Heq & _).
  apply join_slash_inj in Heq; [apply app_inv_head in Heq; injection Heq as <- <-; eauto| |].
  - split; [by destruct rel|]. apply Forall_app. split; [done|]. rewrite app_assoc in Hf. by apply wf_names in Hf.
  - split; [by destruct rel|]. apply Forall_app. split; [done|]. rewrite app_assoc in Hf'. by apply wf_names in Hf'.
Qed.

Lemma lists_nil fs b rel prefix : lists fs b rel prefix (λ _, False) [].
Proof. split; [constructor|]. intros key. rewrite elem_of_nil. by split; [|intros (? & ? & ? & [] & _)]. Qed.

Lemma lists_ext fs b rel prefix P Q l : (∀ n, P n ↔ Q n) → lists fs b rel prefix P l → lists fs b rel prefix Q l.
Proof. intros HPQ [Hnd Hl]. split; [done|]. intros key. rewrite Hl. unfold listed. by setoid_rewrite HPQ. Qed.

Lemma lists_app fs b rel prefix P Q l l' : fs_wf fs → Forall name_ok rel → (∀ n, P n → Q n → False) →
  lists fs b rel prefix P l → lists fs b rel prefix Q l' → lists fs b rel prefix (λ n, P n ∨ Q n) (l ++ l').
Proof.
  intros Hwf Hrel Hd [Hnd Hl] [Hnd' Hl']. split.
  - apply NoDup_app. split; [done|]. split; [|done]. intros key Hk%Hl Hk'%Hl'.
    destruct (listed_inj _ _ _ _ _ _ _ Hwf Hrel Hk Hk') as (n & ? & ?). eauto.
  - intros key. rewrite elem_of_app, Hl, Hl'. unfold listed. naive_solver.
Qed.

(** A subdirectory, and a file. *)
Lemma lists_dir fs b rel prefix n l : lists fs b (rel ++ [n]) prefix (λ _, True) l → fs !! (b ++ rel ++ [n]) = Some NDir →
  lists fs b rel prefix (λ m, m = n) l.
Proof.
  intros [Hnd Hl] Hdir. split; [done|]. intros key. rewrite Hl. split.
  - intros (m & q & d & _ & Hf & Ht & -> & Hs). exists n, (m :: q), d. rewrite <-!app_assoc in Hf, Hs |- *. simpl in *.
    split_and!; try done.
  - intros (? & q & d & -> & Hf & Ht & -> & Hs). destruct q as [|m q]; [congruence|]. exists m, q, d. rewrite <-!app_assoc. simpl. done.
Qed.

Lemma lists_file fs b rel prefix n d : fs !! (b ++ rel ++ [n]) = Some (NFile d) → fs_wf fs →
  lists fs b rel prefix (λ m, m = n)
    (if is_tmp n then [] else if starts_with (join_slash (rel ++ [n])) prefix then [join_slash (rel ++ [n])] else []).
Proof.
  intros Hf Hwf.
  assert (∀ key, listed fs b rel prefix (λ m, m = n) key ↔
    is_tmp n = false ∧ key = join_slash (rel ++ [n]) ∧ starts_with key prefix = true) as Hl.
  { intros key. split.
    - intros (? & q & d' & -> & Hf' & Ht & -> & Hs). destruct q as [|m q]; [done|].
      rewrite (cons_middle n rel (m :: q)), !app_assoc in Hf'. rewrite app_assoc in Hf.
      destruct (wf_prefix _ _ _ _ Hwf Hf') as [?|?]; [done|by destruct (b ++ rel)|congruence].
    - intros (Ht & -> & Hs). by exists n, [], d. }
  split; [destruct (is_tmp n), (starts_with (join_slash (rel ++ [n])) prefix); repeat constructor; set_solver|]. intros key. rewrite Hl.
  destruct (is_tmp n); [rewrite elem_of_nil; naive_solver|].
  destruct (starts_with (join_slash (rel ++ [n])) prefix) eqn:E; [rewrite list_elem_of_singleton|rewrite elem_of_nil]; naive_solver congruence.
Qed.

Lemma collect_loop_spec fs b rel prefix below es : fs_wf fs → Forall name_ok rel →
  NoDup es.*1 → (∀ n node, (n, node) ∈ es → fs !! (b ++ rel ++ [n]) = Some node) →
  (∀ n, (n, NDir) ∈ es → ∃ l, below (rel ++ [n]) = Some (Ok l) ∧ lists fs b (rel ++ [n]) prefix (λ _, True) l) →
  ∃ l, collect_loop below rel prefix es = Some (Ok l) ∧ lists fs b rel prefix (λ n, n ∈ es.*1) l.
Proof.
  intros Hwf Hrel. induction es as [|[n node] es IH]; intros Hnd Hes Hbelow.
  { exists []. split; [done|]. apply (lists_ext _ _ _ _ (λ _, False)); [set_solver|]. apply lists_nil. }
  apply NoDup_cons in Hnd as [Hn Hnd]. destruct IH as (l & Hc & Hl); [done|set_solver..|].
  assert (∀ l', lists fs b rel prefix (λ m, m = n) l' → lists fs b rel prefix (λ m, m ∈ n :: es.*1) (l' ++ l)) as Happ.
  { intros l' Hl'. apply (lists_ext _ _ _ _ (λ m, m = n ∨ m ∈ es.*1)); [set_solver|].
    apply lists_app; try done. intros m -> Hm. exact (Hn Hm). }
  pose proof (Hes n node ltac:(set_solver)) as Hnode. cbn [collect_loop]. destruct node as [d|].
  - rewrite Hc. cbn [mbind option_bind]. specialize (Happ _ (lists_file fs b rel prefix n d Hnode Hwf)).
    destruct (is_tmp n); [by eexists|]. destruct (starts_with _ prefix); by eexists.
  - destruct (Hbelow n ltac:(set_solver)) as (sub & -> & Hsub). cbn [mbind option_bind]. rewrite Hc. cbn [mbind option_bind].
    eexists. split; [done|]. by apply Happ, lists_dir.
Qed.

Lemma collect_entries_spec fs b prefix fuel rel : fs_wf fs → Forall name_ok rel → 0 < fuel →
  (∀ q node, fs !! q = Some node → length q < length (b ++ rel) + fuel) → dir_at fs (b ++ rel) →
  ∃ l, collect_entries read_order fuel fs b rel prefix = Some (Ok l) ∧ lists fs b rel prefix (λ _, True) l.
Proof.
  intros Hwf. revert rel. induction fuel as [|fuel IH]; intros rel Hrel Hf Hdepth Hdir; [lia|]. cbn [collect_entries].
  assert (fs_read_dir fs (b ++ rel) = Ok (omap (child_of (b ++ rel)) (map_to_list fs))) as ->.
  { unfold fs_read_dir. destruct Hdir as [->|Hd]; [done|]. rewrite (walk_Some fs [] (b ++ rel) NDir); [done|done|done|].
    intros Hnil. rewrite Hnil in Hd. destruct Hwf. congruence. }
  set (es := read_order _).
  assert (∀ n node, (n, node) ∈ es ↔ fs !! (b ++ rel ++ [n]) = Some node) as Hes.
  { intros n node. unfold es. by rewrite read_order_perm, elem_of_children, app_assoc. }
  edestruct (collect_loop_spec fs b rel prefix (λ rel, collect_entries read_order fuel fs b rel prefix) es) as (l & Hl & Hlist); [done|done|..].
  - unfold es. rewrite read_order_perm. apply NoDup_children.
  - intros n node. by rewrite Hes.
  - intros n Hn%Hes. pose proof (Hdepth _ _ Hn) as Hlt. rewrite !length_app in Hlt. simpl in Hlt. apply IH.
    + apply Forall_app. split; [done|]. rewrite app_assoc in Hn. apply (wf_names fs (b ++ rel) [n] NDir) in Hn; done.
    + lia.
    + intros q node Hq. specialize (Hdepth q node Hq). rewrite !length_app in *. simpl. lia.
    + by right.
  - exists l. split; [done|]. destruct Hlist as [Hnd Hk]. split; [done|]. intros key. rewrite Hk. split.
    + intros (n & q & d & _ & Hq). by exists n, q, d.
    + intros (n & q & d & _ & Hq & Hrest). exists n, q, d. split; [|done].
      rewrite (cons_middle n rel q), !app_assoc in Hq.
      assert (∃ node, fs !! (b ++ rel ++ [n]) = Some node) as [node Hnode].
      { rewrite !app_assoc. destruct q as [|m q]; [rewrite app_nil_r in Hq; eauto|].
        destruct (wf_prefix _ _ _ _ Hwf Hq) as [?|?]; [done|by destruct (b ++ rel)|eauto]. }
      apply list_elem_of_fmap. exists (n, node). split; [done|]. by apply Hes.
Qed.

Lemma depth_spec fs q (node : Node) : fs !! q = Some node → length q < depth fs.
Proof.
  intros Hq%elem_of_map_to_list%(list_elem_of_fmap_2 fst). simpl in Hq. unfold depth. induction (map_to_list fs).*1 as [|x l IH]; [set_solver|].
  cbn [fmap list_fmap foldr]. apply elem_of_cons in Hq as [->|Hq]; [lia|]. specialize (IH Hq). lia.
Qed.


(** ** Cleaning *)
(** From [fs] to [fs'] exactly the [k] temporary files in [D] were removed. *)
Definition cleaned (D : path → Prop) (fs fs' : Fs) (k : Z) : Prop :=
  fs_wf fs' ∧ fs' ⊆ fs ∧ Z.of_nat (size fs) = (k + Z.of_nat (size fs'))%Z ∧
  (∀ q node, fs !! q = Some node → fs' !! q = None → D q ∧ tmp_at q = true ∧ node ≠ NDir) ∧
  (∀ q d, D q → tmp_at q = true → fs' !! q ≠ Some (NFile d)).

Lemma cleaned_trans D1 D2 a b c k1 k2 : cleaned D1 a b k1 → cleaned D2 b c k2 → cleaned (λ q, D1 q ∨ D2 q) a c (k1 + k2).
Proof.
  intros (Hwf1 & Hs1 & Hk1 & Hr1 & Hg1) (Hwf2 & Hs2 & Hk2 & Hr2 & Hg2). split; [done|]. split; [by etrans|]. split; [lia|]. split.
  - intros q node Ha Hc. destruct (b !! q) as [node'|] eqn:Hb.
    + pose proof (lookup_weaken _ _ _ _ Hb Hs1). simplify_eq. destruct (Hr2 _ _ Hb Hc) as (? & ? & ?). auto.
    + destruct (Hr1 _ _ Ha Hb) as (? & ? & ?). auto.
  - intros q d [Hd|Hd] Ht Hq; [|by apply (Hg2 q d)]. apply (Hg1 q d); try done. by apply (lookup_weaken _ _ _ _ Hq).
Qed.

Lemma cleaned_ext D D' fs fs' k : (∀ q, D q ↔ D' q) → cleaned D fs fs' k → cleaned D' fs fs' k.
Proof.
  intros HD (Hwf & Hs & Hk & Hr & Hg). split; [done|]. split; [done|]. split; [done|]. split.
  - intros q node H1 H2. rewrite <-HD. by apply (Hr q).
  - intros q d. rewrite <-HD. apply Hg.
Qed.

Lemma cleaned_none D fs : fs_wf fs → (∀ q d, D q → tmp_at q = true → fs !! q ≠ Some (NFile d)) → cleaned D fs fs 0.
Proof. intros Hwf HD. split; [done|]. split; [done|]. split; [lia|]. split; [congruence|done]. Qed.

Lemma cleaned_file D fs p d : fs_wf fs → fs !! p = Some (NFile d) → tmp_at p = true → D p →
  (∀ q d', D q → fs !! q = Some (NFile d') → q = p) → cleaned D fs (delete p fs) 1.
Proof.
  intros Hwf Hp Ht HD Honly. split; [by apply (wf_delete _ _ d)|]. split; [apply delete_subseteq|]. split; [|split].
  - rewrite map_size_delete_Some by eauto. assert (size fs ≠ 0); [|lia]. intros Hz%map_size_empty_inv. by rewrite Hz, lookup_empty in Hp.
  - intros q node Hq [->|?]%lookup_delete_None; [|congruence]. split; [done|]. split; [done|]. congruence.
  - intros q d' Hq _ [Hne Hl]%lookup_delete_Some. apply Hne. symmetry. eauto.
Qed.

Definition below_name (dir : path) (n : bytes) (q : path) : Prop := ∃ r, q = dir ++ n :: r.

Lemma cleanup_loop_spec below dir es count fs : fs_wf fs →
  NoDup es.*1 → (∀ n node, (n, node) ∈ es → fs !! (dir ++ [n]) = Some node) →
  (∀ n fs0, (n, NDir) ∈ es → fs0 ⊆ fs → fs_wf fs0 → fs0 !! (dir ++ [n]) = Some NDir →
    ∃ fs' k, below (dir ++ [n]) fs0 = (fs', Ok k) ∧ cleaned (λ q, ∃ m, below_name (dir ++ [n]) m q) fs0 fs' k) →
  ∃ fs' k, cleanup_loop below dir es count fs = (fs', Ok (count + k)%Z) ∧ cleaned (λ q, ∃ n, n ∈ es.*1 ∧ below_name dir n q) fs fs' k.
Proof.
  revert count fs. induction es as [|[n node] es IH]; intros count fs Hwf Hnd Hes Hbelow.
  { exists fs, 0%Z. rewrite Z.add_0_r. split; [done|]. apply cleaned_none; [done|]. intros q d (n & []%elem_of_nil & _). }
  apply NoDup_cons in Hnd as [Hn Hnd].
  (* one entry, and the others after it *)
  assert (∀ fs1 k1 count1, cleaned (below_name dir n) fs fs1 k1 → count1 = (count + k1)%Z →
    ∃ fs' k, cleanup_loop below dir es count1 fs1 = (fs', Ok (count + k)%Z) ∧
      cleaned (λ q, ∃ n', n' ∈ ((n, node) :: es).*1 ∧ below_name dir n' q) fs fs' k) as Hrest.
  { intros fs1 k1 ? Hc ->. destruct (IH (count + k1)%Z fs1) as (fs' & k & Hl & Hcl); [apply Hc|done|..].
    - intros m nd Hm. pose proof (Hes m nd ltac:(set_solver)) as Hnode. destruct (fs1 !! (dir ++ [m])) as [nd'|] eqn:E.
      + destruct Hc as (_ & Hs & _). by rewrite <-Hnode, (lookup_weaken _ _ _ _ E Hs).
      + destruct Hc as (_ & _ & _ & Hr & _). destruct (Hr _ _ Hnode E) as ([r Hr'] & _). apply app_inv_head in Hr'. injection Hr' as -> _.
        destruct Hn. apply list_elem_of_fmap. by exists (n, nd).
    - intros m fs0 Hm Hsub. apply Hbelow; [set_solver|]. etrans; [exact Hsub|apply Hc].
    - exists fs', (k1 + k)%Z. rewrite Z.add_assoc. split; [done|]. apply (cleaned_ext (λ q, below_name dir n q ∨ ∃ n', n' ∈ es.*1 ∧ below_name dir n' q)).
      + intros q. split; [intros [?|(m & ? & ?)]; [exists n|exists m]; set_solver|]. intros (m & [->|Hm]%elem_of_cons & ?); eauto.
      + by apply (cleaned_trans _ _ fs fs1). }
  pose proof (Hes n node ltac:(set_solver)) as Hnode. cbn [cleanup_loop]. destruct node as [d|].
  - assert (∀ q d', below_name dir n q → fs !! q = Some (NFile d') → q = dir ++ [n]) as Honly.
    { intros q d' [r ->] Hq. destruct r as [|m r]; [done|]. rewrite (cons_middle n dir (m :: r)), app_assoc in Hq.
      destruct (wf_prefix _ _ _ _ Hwf Hq) as [?|?]; [done|by destruct dir|congruence]. }
    destruct (is_tmp n) eqn:Ht.
    + unfold fs_remove_file. rewrite (walk_Some fs [] _ (NFile d)); [|done..|by destruct dir].
      apply (Hrest _ 1%Z); [|done]. apply (cleaned_file _ _ _ d); [done|done|by rewrite tmp_at_snoc|by exists []|done].
    + apply (Hrest _ 0%Z); [|lia]. apply cleaned_none; [done|]. intros q d' Hq Htq Hf. rewrite (Honly q d' Hq Hf), tmp_at_snoc in Htq. congruence.
  - destruct (Hbelow n fs ltac:(set_solver) ltac:(done) Hwf Hnode) as (fs1 & k1 & -> & Hc). apply (Hrest _ k1); [|done].
    apply (cleaned_ext (λ q, (∃ m, below_name (dir ++ [n]) m q) ∨ q = dir ++ [n])).
    + intros q. split; [intros [(m & r & ->)| ->]; [exists (m :: r); by rewrite <-app_assoc|by exists []]|].
      intros [[|m r] ->]; [by right|]. left. exists m, r. by rewrite <-app_assoc.
    + rewrite <-(Z.add_0_r k1). apply (cleaned_trans _ _ _ fs1); [done|]. apply cleaned_none; [apply Hc|].
      intros q d -> _ Hq. destruct Hc as (_ & Hs & _). pose proof (lookup_weaken _ _ _ _ Hq Hs). congruence.
Qed.

Lemma cleanup_spec fuel dir fs : fs_wf fs → dir_at fs dir → 0 < fuel →
  (∀ q node, fs !! q = Some node → length q < length dir + fuel) →
  ∃ fs' k, cleanup_tmp_files read_order fuel dir fs = (fs', Ok k) ∧ cleaned (λ q, ∃ n, below_name dir n q) fs fs' k.
Proof.
  revert dir fs. induction fuel as [|fuel IH]; intros dir fs Hwf Hdir Hf Hdepth; [lia|]. cbn [cleanup_tmp_files].
  assert (fs_read_dir fs dir = Ok (omap (child_of dir) (map_to_list fs))) as ->.
  { unfold fs_read_dir. destruct Hdir as [->|Hd]; [done|]. rewrite (walk_Some fs [] dir NDir); [done|done|done|].
    intros Hnil. rewrite Hnil in Hd. destruct Hwf. congruence. }
  set (es := read_order _).
  assert (∀ n node, (n, node) ∈ es ↔ fs !! (dir ++ [n]) = Some node) as Hes.
  { intros n node. unfold es. by rewrite read_order_perm, elem_of_children. }
  destruct (cleanup_loop_spec (cleanup_tmp_files read_order fuel) dir es 0 fs) as (fs' & k & Hl & Hc); [done|..].
  - unfold es. rewrite read_order_perm. apply NoDup_children.
  - intros n node. by rewrite Hes.
  - intros n fs0 Hn Hsub Hwf0 Hd0. pose proof (Hdepth _ _ (lookup_weaken _ _ _ _ Hd0 Hsub)) as Hlt. rewrite length_app in Hlt. simpl in Hlt.
    apply IH; [done|by right|lia|]. intros q node Hq. pose proof (Hdepth _ _ (lookup_weaken _ _ _ _ Hq Hsub)). rewrite length_app. simpl. lia.
  - exists fs', k. split; [done|]. destruct Hc as (Hwf' & Hs & Hk & Hr & Hg). split; [done|]. split; [done|]. split; [done|]. split.
    + intros q node Hq Hq'. destruct (Hr _ _ Hq Hq') as ((n & _ & ?) & ?). eauto.
    + intros q d (n & r & ->) Ht Hq. apply (Hg (dir ++ n :: r) d); try done. exists n. split; [|by exists r].
      pose proof (lookup_weaken _ _ _ _ Hq Hs) as Hq'. rewrite (cons_middle n dir r), app_assoc in Hq'.
      assert (∃ node, fs !! (dir ++ [n]) = Some node) as [node Hnode].
      { destruct r as [|m r]; [rewrite app_nil_r in Hq'; eauto|]. destruct (wf_prefix _ _ _ _ Hwf Hq') as [?|?]; [done|by destruct dir|eauto]. }
      apply list_elem_of_fmap. exists (n, node). split; [done|]. by apply Hes.
Qed.

(** Cleaning removes exactly the temporary files below the base directory, at any
    depth, and reports how many there were; no blob changes. *)
Theorem local_cleanup_exact st fs : local_ok st fs → fs_walk fs [] (base st) = Ok NDir →
  ∃ fs' k, cleanup_temp_files read_order st fs = (fs', Ok k) ∧
    Z.of_nat (size fs) = (k + Z.of_nat (size fs'))%Z ∧
    (∀ rel d, rel ≠ [] → tmp_at rel = true → fs' !! (base st ++ rel) ≠ Some (NFile d)) ∧
    (∀ p, (∃ d rel, rel ≠ [] ∧ p = base st ++ rel ∧ tmp_at rel = true ∧ fs !! p = Some (NFile d)) ∨ fs' !! p = fs !! p) ∧
    ∀ rel, rel ≠ [] → local_view st fs' rel = local_view st fs rel.
Proof.
  intros [Hwf Hb] Hw. apply walk_dir in Hw.
  destruct (cleanup_spec (depth fs) (base st) fs Hwf Hw) as (fs' & k & Hc & Hwf' & Hs & Hk & Hr & Hg); [unfold depth; lia| |].
  { intros q node Hq%depth_spec. lia. }
  assert (∀ p, (∃ d rel, rel ≠ [] ∧ p = base st ++ rel ∧ tmp_at rel = true ∧ fs !! p = Some (NFile d)) ∨ fs' !! p = fs !! p) as Hkeep.
  { intros p. destruct (fs' !! p) as [node|] eqn:E; [right; symmetry; by apply (lookup_weaken _ _ _ _ E)|].
    destruct (fs !! p) as [node|] eqn:E'; [|by right]. left. destruct (Hr _ _ E' E) as ((n & r & ->) & Ht & Hnd).
    destruct node as [d|]; [|done]. exists d, (n :: r). rewrite tmp_at_app in Ht by done. done. }
  exists fs', k. split; [done|]. split; [done|]. split; [|split; [done|]].
  - intros rel d Hne Ht. destruct rel as [|n r]; [done|]. apply (Hg _ d); [by exists n, r|by rewrite tmp_at_app].
  - intros rel Hne. unfold local_view. destruct (Hkeep (base st ++ rel)) as [(d & rel' & _ & ->%app_inv_head & Ht & Hd)| ->]; [|done].
    rewrite Hd, Ht. destruct (fs' !! _) as [[]|]; done.
Qed.
End Listing.
