(* ===== verification/LocalCalls.v ===== *)
(** * Point calls of the local blob store, its misuse, and instances

    Reads, deletions and metadata on ordinary keys; keys that leave the base directory;
    temporary files that several blobs share. *)

From S2P Require Import Prelude Bytes Core Encrypt Blob LocalBlob LocalProps LocalList.

Lemma app_ne_nil {A} (b l : list A) : l ≠ [] → b ++ l ≠ [].
Proof. by destruct b. Qed.

Lemma walk_in_dir fs dir p n : fs_wf fs → dir_at fs (dir ++ p) →
  fs_walk fs dir (p ++ [n]) = match fs !! (dir ++ p ++ [n]) with Some node => Ok node | None => Err IoNotFound end.
Proof.
  intros Hwf. revert dir. induction p as [|m p IH]; intros dir Hd; [cbn [app fs_walk]; by destruct (fs !! _)|].
  rewrite (cons_middle m dir p), app_assoc in Hd. rewrite <-app_comm_cons, (cons_middle m dir (p ++ [n])), app_assoc. cbn [fs_walk].
  assert (fs !! (dir ++ [m]) = Some NDir) as ->.
  { destruct p as [|m' p]; [rewrite app_nil_r in Hd; destruct Hd as [Hd|Hd]; [by destruct dir|done]|].
    destruct Hd as [Hd|Hd]; [by destruct dir|]. destruct (wf_prefix _ _ _ _ Hwf Hd) as [?|?]; [done|by destruct dir|done]. }
  rewrite <-IH by done. by destruct p.
Qed.

Lemma dir_at_delete fs p q : dir_at fs q → fs !! p ≠ Some NDir → dir_at (delete p fs) q.
Proof. intros [->|Hd] Hp; [by left|right]. rewrite lookup_delete_ne; congruence. Qed.

Section Calls.
Context `{!Sha256}.

(** Point calls on ordinary keys.  [get] returns exactly the blob of the key, a
    store with verification refuses a blob exactly when its key is a digest that is not
    its own, and [delete] removes the blob and nothing else; a missing blob is an
    error. *)
Theorem local_calls_correct st rel fs : local_ok st fs → blob_key rel →
  let key := join_slash rel in
  (local_get st key fs).1 = fs ∧
  match local_view st fs rel with
  | Some d =>
      (local_get st key fs).2 =
        (if verify_checksum st && bool_decide (length key = 64) && forallb is_hexdigit key && negb (bool_decide (to_hex (sha256 d) = key))
         then Err (ChecksumMismatch key (to_hex (sha256 d))) else Ok d) ∧
      ∃ fs', local_delete st key fs = (fs', Ok ()) ∧ local_ok st fs' ∧
        ∀ rel', rel' ≠ [] → local_view st fs' rel' = if decide (rel' = rel) then None else local_view st fs rel'
  | None =>
      (∃ e, (local_get st key fs).2 = Err e) ∧ ∃ e, local_delete st key fs = (fs, Err e)
  end.
Proof.
  intros [Hwf Hb] [Hp Ht]. cbn zeta. unfold local_get, local_delete, fs_read, fs_remove_file. rewrite resolve_plain by done.
  destruct Hp as [Hne Hp]. pose proof (walk_root fs (base st ++ rel) Hwf (app_ne_nil _ _ Hne)) as Hw. unfold local_view at 1.
  destruct (fs_walk fs [] (base st ++ rel)) as [[d|]|e]; rewrite Hw.
  - rewrite Ht. split; [by destruct (_ && _)|]. split; [by destruct (_ && _)|]. eexists. split; [done|].
    split; [split; [by apply (wf_delete _ _ d)|done]|]. intros rel' Hne'. unfold local_view. case_decide as Heq.
    + subst. by rewrite lookup_delete_eq.
    + rewrite lookup_delete_ne; [done|]. intros ?%app_inv_head. done.
  - split; [done|]. split; eauto.
  - destruct e; split; try done; split; eauto.
Qed.

(** A key that starts with a slash leaves the base directory.  Such keys pass the
    check of [resolve]: [get] returns any file of the system, and a [put] that succeeds
    has written it. *)
Theorem local_absolute_key_escapes st rel data fs : fs_wf fs → blob_key rel → verify_checksum st = false →
  let key := SLASH :: join_slash rel in
  (∀ d, fs !! rel = Some (NFile d) → local_get st key fs = (fs, Ok d)) ∧
  ∀ fs', local_put st key data fs = (fs', Ok ()) → fs' !! rel = Some (NFile data).
Proof.
  intros Hwf [Hp Ht] Hv. cbn zeta.
  assert (resolve st (SLASH :: join_slash rel) = Ok (rel, false)) as Hres.
  { assert (split_slash (SLASH :: join_slash rel) = [] :: rel) as Hsplit by (pose proof (split_slash_app [] (join_slash rel)) as Hs; simpl app in Hs; rewrite Hs, split_join by (done || apply not_elem_of_nil); done).
    assert (components (SLASH :: join_slash rel) = rel) as Hc.
    { unfold components. rewrite Hsplit. rewrite <-(components_join rel Hp) at 2. unfold components. by rewrite split_join. }
    unfold resolve, validate_key. rewrite decide_False by done. rewrite Hc, no_dots by apply Hp.
    rewrite (names_dir_last _ rel Hp); [done|]. rewrite Hsplit. by destruct Hp, rel. }
  split.
  - intros d Hd. unfold local_get, fs_read. rewrite Hres. rewrite (walk_Some fs [] rel (NFile d)); [|done..|apply Hp]. by rewrite Hv.
  - intros fs'. unfold local_put. rewrite Hres. destruct ((let* _ := _ in _) fs) as [fs1 r] eqn:Hput. intros [= <- Hr].
    destruct (blob_key_snoc {| base := []; verify_checksum := false |} rel) as (p & n & Hpn & Hp' & Hn & Htn); [constructor|done|].
    simpl in Hpn. rewrite Hpn in Hput |- *. apply put_steps in Hput as [_ Hput]; try done. destruct r as [[]|]; [|done].
    by destruct Hput as (? & _ & _ & ?).
Qed.

(** Blobs whose names have the same stem share one temporary file.  When two puts
    overlap, the first to publish publishes the data of the other, and the other one
    fails. *)
Theorem local_put_overlap p n1 n2 d1 d2 fs :
  fs_wf fs → dir_at fs p → name_ok n1 → name_ok n2 → is_tmp n1 = false → is_tmp n2 = false → file_stem n1 = file_stem n2 →
  fs !! (p ++ [n1]) ≠ Some NDir → fs !! tmp_path (p ++ [n1]) ≠ Some NDir →
  let staged := (put_stage (p ++ [n2]) d2 (put_stage (p ++ [n1]) d1 fs).1).1 in
  ∃ fs1, put_publish (p ++ [n1]) false staged = (fs1, Ok ()) ∧
    fs1 !! (p ++ [n1]) = Some (NFile d2) ∧
    put_publish (p ++ [n2]) false fs1 = (fs1, Err IoNotFound).
Proof.
  intros Hwf Hd Hn1 Hn2 Ht1 Ht2 Hstem Hnd Hndt. cbn zeta. unfold put_stage, put_publish, fs_write. rewrite !tmp_path_snoc in *. rewrite <-Hstem.
  set (t := p ++ [file_stem n1 ++ DOT :: TMP]) in *.
  assert (t ≠ p ++ [n1]) as Hne.
  { intros Heq. apply (f_equal tmp_at) in Heq. unfold t in Heq. rewrite !tmp_at_snoc, is_tmp_stem in Heq by apply Hn1. congruence. }
  assert (fs_can_create fs t = Ok ()) as -> by (by apply can_create_ok). cbn [fst].
  assert (fs_wf (<[t := NFile d1]> fs)) as Hwf1 by (apply wf_insert; try done; by apply tmp_name_ok).
  assert (∀ d, dir_at (<[t := NFile d]> fs) p) as Hd1.
  { intros d. apply dir_at_insert; [done|]. intros Heq. apply (f_equal length) in Heq. unfold t in Heq. rewrite length_app in Heq. simpl in Heq. lia. }
  assert (fs_can_create (<[t := NFile d1]> fs) t = Ok ()) as -> by (apply can_create_ok; [done|done|by rewrite lookup_insert_eq]). cbn [fst]. rewrite insert_insert_eq.
  assert (fs_wf (<[t := NFile d2]> fs)) as Hwf2 by (apply wf_insert; try done; by apply tmp_name_ok).
  unfold fs_rename. rewrite (walk_Some _ [] t (NFile d2)); [|done|by rewrite lookup_insert_eq|by unfold t; destruct p].
  rewrite (can_create_ok _ p); [|done|done|by rewrite lookup_insert_ne]. eexists. split; [done|]. split; [by rewrite lookup_insert_eq|].
  rewrite delete_insert_eq. set (fs1 := <[p ++ [n1] := NFile d2]> (delete t fs)).
  assert (fs1 !! t = None) as Hnone by (unfold fs1; rewrite lookup_insert_ne by done; by rewrite lookup_delete_eq).
  enough (fs_walk fs1 [] t = Err IoNotFound) as -> by done. unfold t at 1. rewrite (walk_in_dir fs1 [] p); [simpl; fold t; by rewrite Hnone| |].
  - apply wf_insert; [|by apply (dir_at_delete _ _ _ Hd)|done|]; [|intros [_ ?]%lookup_delete_Some; done].
    rewrite <-(delete_insert_eq fs t (NFile d2)). apply (wf_delete _ _ d2); [done|apply lookup_insert_eq].
  - apply dir_at_insert; [by apply (dir_at_delete _ _ _ Hd)|]. intros Heq%(f_equal length). rewrite length_app in Heq. simpl in Heq. lia.
Qed.
End Calls.

(** ** An instance *)
Definition name_okb (n : bytes) : bool :=
  bool_decide (n ≠ []) && bool_decide (n ≠ [DOT]) && bool_decide (n ≠ [DOT; DOT]) && bool_decide (SLASH ∉ n).

Lemma name_okb_sound n : name_okb n = true → name_ok n.
Proof. unfold name_okb. rewrite !andb_true_iff, !bool_decide_eq_true. by intros [[[? ?] ?] ?]. Qed.

Lemma names_okb_sound p : forallb name_okb p = true → Forall name_ok p.
Proof. induction p as [|n p IH]; simpl; [done|]. intros [? ?]%andb_prop. constructor; [by apply name_okb_sound|auto]. Qed.

Definition fs_wfb (fs : Fs) : bool :=
  forallb (λ e, match last e.1 with
                | Some n => name_okb n && (bool_decide (parent e.1 = []) || if fs !! parent e.1 is Some NDir then true else false)
                | None => false
                end) (map_to_list fs).

Lemma fs_wfb_sound fs : fs_wfb fs = true → fs_wf fs.
Proof.
  intros Hb. unfold fs_wfb in Hb. rewrite forallb_forall in Hb. split.
  - destruct (fs !! []) as [node|] eqn:E; [|done]. apply elem_of_map_to_list, list_elem_of_In, Hb in E. done.
  - intros p n node Hn. apply elem_of_map_to_list, list_elem_of_In, Hb in Hn. simpl in Hn. rewrite last_snoc, parent_snoc in Hn.
    apply andb_prop in Hn as [Hn Hd]. split; [by apply name_okb_sound|]. apply orb_prop in Hd as [Hd%bool_decide_eq_true|Hd]; [by left|right].
    by destruct (fs !! p) as [[]|].
Qed.

Definition nm (s : string) : bytes := String.list_byte_of_string s.

Definition demo_local : LocalBlobStore := local_new [nm "srv"].
Definition demo_tree : Fs := list_to_map [
  ([nm "srv"], NDir); ([nm "srv"; nm "img"], NDir); ([nm "etc"], NDir);
  ([nm "srv"; nm "a.txt"], NFile (nm "old")); ([nm "srv"; nm "img"; nm "b.png"], NFile (nm "pixels"));
  ([nm "srv"; nm "img"; nm "c.tmp"], NFile (nm "left")); ([nm "etc"; nm "passwd"], NFile (nm "root"))].

Lemma demo_tree_wf : fs_wf demo_tree.
Proof. apply fs_wfb_sound. vm_compute. reflexivity. Qed.

Lemma demo_local_ok : local_ok demo_local demo_tree.
Proof. split; [apply demo_tree_wf|]. by apply names_okb_sound. Qed.

Lemma blob_key_dec rel : rel ≠ [] → forallb name_okb rel = true → tmp_at rel = false → blob_key rel.
Proof. intros Hne Hp Ht. split; [split; [done|by apply names_okb_sound]|done]. Qed.



Lemma local_cleanup_exact_witness :
  ∃ fs' k, cleanup_temp_files id demo_local demo_tree = (fs', Ok k) ∧
    fs' !! [nm "srv"; nm "img"; nm "c.tmp"] ≠ Some (NFile (nm "left")) ∧
    local_view demo_local fs' [nm "a.txt"] = Some (nm "old").
Proof.
  destruct (local_cleanup_exact id (λ l, Permutation_refl l) demo_local demo_tree demo_local_ok eq_refl) as (fs' & k & Hc & _ & Hg & _ & Hv).
  exists fs', k. split; [exact Hc|]. split; [apply (Hg [nm "img"; nm "c.tmp"]); done|]. rewrite Hv by done. reflexivity.
Defined.

#[local] Instance toy_sha256 : Sha256 := {| sha256 _ := replicate 32 DOT; sha256_length _ := eq_refl |}.

Lemma local_calls_correct_witness : (local_get demo_local (nm "a.txt") demo_tree).2 = Ok (nm "old").
Proof.
  pose proof (local_calls_correct demo_local [nm "a.txt"] demo_tree demo_local_ok (blob_key_dec [nm "a.txt"] ltac:(done) eq_refl eq_refl)) as [_ H].
  change (local_view demo_local demo_tree [nm "a.txt"]) with (Some (nm "old")) in H. exact (proj1 H).
Defined.

Lemma local_absolute_key_escapes_witness : local_get demo_local (nm "/etc/passwd") demo_tree = (demo_tree, Ok (nm "root")).
Proof.
  refine (proj1 (local_absolute_key_escapes demo_local [nm "etc"; nm "passwd"] [] demo_tree demo_tree_wf _ eq_refl) _ eq_refl).
  by apply blob_key_dec.
Defined.

Lemma local_put_overlap_witness :
  let staged := (put_stage [nm "srv"; nm "p.jpg"] (nm "J") (put_stage [nm "srv"; nm "p.png"] (nm "P") demo_tree).1).1 in
  ∃ fs1, put_publish [nm "srv"; nm "p.png"] false staged = (fs1, Ok ()) ∧ fs1 !! [nm "srv"; nm "p.png"] = Some (NFile (nm "J")) ∧
    put_publish [nm "srv"; nm "p.jpg"] false fs1 = (fs1, Err IoNotFound).
Proof.
  refine (local_put_overlap [nm "srv"] (nm "p.png") (nm "p.jpg") (nm "P") (nm "J") demo_tree demo_tree_wf
    (or_intror eq_refl) _ _ eq_refl eq_refl eq_refl _ _); [by apply name_okb_sound..|done|done].
Defined.
