(* ===== verification/StoreFiles.v ===== *)
(** * Files of the stores

    [ensure_parent_dir] of [oxistore-core], the recursive [dir_size] behind the disk usage
    of the fjall backend, and the maintenance methods of the [KvStore] trait with their
    defaults: [compact], [backup] and [restore].  The file system is the one of
    [LocalBlob.v]; a world that contains one is an instance of [HasFs]. *)

From S2P Require Import Prelude Bytes Core Blob LocalBlob LocalProps LocalList.

(** A world with a file system in it. *)
Class HasFs (W : Type) := { get_fs : W → Fs; set_fs : Fs → W → W }.
#[global] Instance fs_has_fs : HasFs Fs := {| get_fs fs := fs; set_fs fs _ := fs |}.

Definition fs_is_file (fs : Fs) (p : path) : bool := match fs_walk fs [] p with Ok (NFile _) => true | _ => false end.
Definition fs_is_dir (fs : Fs) (p : path) : bool := match fs_walk fs [] p with Ok NDir => true | _ => false end.
Definition io_store {A} (r : io_result A) : store_result A := map_err (λ e, Io (io_message e)) r.

(** The text of a path, for backends that keep it as text. *)
Definition path_string (p : path) : string := key_string (join_slash p).

(** The parent of a path of one name is the current directory, which exists. *)
Definition ensure_parent_dir {W} `{!HasFs W} (p : path) (w : W) : W * store_result unit :=
  if decide (parent p = []) then (w, Ok ())
  else let '(fs, r) := fs_create_dirs [] (parent p) (get_fs w) in (set_fs fs w, io_store r).

(** ** The maintenance methods of the trait *)

(** [None] is a panic.  A method may change the store and the world around it. *)
Class KvMaintenance (S W : Type) := {
  kv_compact : S → W → S * W * store_result unit;
  kv_backup : path → S → W → option (W * store_result unit);
  kv_restore : path → S → W → option (S * W * store_result unit);
  kv_flush : S → W → S * W * store_result unit;
}.

Definition default_compact {S W} (s : S) (w : W) : S * W * store_result unit := (s, w, Ok ()).
Definition default_backup {S W} (_ : path) (_ : S) (w : W) : option (W * store_result unit) :=
  Some (w, Err (Other "backup not supported for this backend")).
Definition default_restore {S W} (_ : path) (s : S) (w : W) : option (S * W * store_result unit) :=
  Some (s, w, Err (Other "restore not supported for this backend")).

(** ** Disk usage *)
Section DirSize.
Context (read_order : list (bytes * Node) → list (bytes * Node)).

(** The loop over the entries of a directory; [below] measures a subdirectory. *)
Fixpoint dir_size_loop (below : path → option (io_result Z)) (p : path) (entries : list (bytes * Node)) (total : Z) : option (io_result Z) :=
  match entries with
  | [] => Some (Ok total)
  | (n, NFile d) :: entries => dir_size_loop below p entries (total + Z.of_nat (length d))
  | (n, NDir) :: entries =>
      sub ← below (p ++ [n]);
      match sub with
      | Err e => Some (Err e)
      | Ok size => dir_size_loop below p entries (total + size)
      end
  end.

Fixpoint dir_size_fuel (fuel : nat) (fs : Fs) (p : path) : option (io_result Z) :=
  match fuel with
  | 0 => None
  | S fuel =>
      if fs_is_dir fs p then
        match fs_read_dir fs p with
        | Err e => Some (Err e)
        | Ok entries => dir_size_loop (dir_size_fuel fuel fs) p (read_order entries) 0
        end
      else Some (Ok 0%Z)
  end.

Definition dir_size (fs : Fs) (p : path) : option (io_result Z) := dir_size_fuel (depth fs + 1) fs p.
End DirSize.

(** ** What it measures *)
Definition node_size (node : Node) : Z := match node with NFile d => Z.of_nat (length d) | NDir => 0 end.

(** The bytes of the files of a tree. *)
Definition tree_size (fs : Fs) : Z := map_fold (λ _ node acc, (node_size node + acc)%Z) 0%Z fs.

(** The name below [p] that a path goes through. *)
Definition child_name (p q : path) : option bytes := if decide (p `prefix_of` q) then head (drop (length p) q) else None.
Definition under (p : path) (ns : list bytes) (q : path) : bool := match child_name p q with Some n => bool_decide (n ∈ ns) | None => false end.
Definition inside (p q : path) : bool := bool_decide (is_Some (child_name p q)).
Definition part (P : path → bool) (fs : Fs) : Fs := filter (λ kv : path * Node, P kv.1 = true) fs.

Lemma tree_size_empty : tree_size ∅ = 0%Z.
Proof. apply map_fold_empty. Qed.

Lemma tree_size_insert fs q node : fs !! q = None → tree_size (<[q:=node]> fs) = (node_size node + tree_size fs)%Z.
Proof. intros Hq. unfold tree_size. by rewrite map_fold_insert_L by (done || (intros; lia)). Qed.

Lemma tree_size_union (m1 m2 : Fs) : m1 ##ₘ m2 → tree_size (m1 ∪ m2) = (tree_size m1 + tree_size m2)%Z.
Proof.
  induction m1 as [|q node m1 Hq IH] using map_ind; intros Hd; [by rewrite map_empty_union, tree_size_empty|].
  apply map_disjoint_insert_l in Hd as [Hq2 Hd]. rewrite <-insert_union_l, !tree_size_insert by (done || by apply lookup_union_None). rewrite IH by done. lia.
Qed.

Lemma part_split P P1 P2 fs : (∀ q, P q = P1 q || P2 q) → (∀ q, P1 q = true → P2 q = true → False) →
  tree_size (part P fs) = (tree_size (part P1 fs) + tree_size (part P2 fs))%Z.
Proof.
  intros HP Hd. assert (part P fs = part P1 fs ∪ part P2 fs) as ->.
  { apply map_eq. intros q. apply option_eq. intros node. unfold part. rewrite lookup_union_Some_raw, !map_lookup_filter_Some, map_lookup_filter_None. cbn [fst].
    rewrite HP. destruct (P1 q) eqn:E1, (P2 q) eqn:E2; simpl; naive_solver. }
  apply tree_size_union, map_disjoint_spec. intros q n1 n2 [_ H1]%map_lookup_filter_Some [_ H2]%map_lookup_filter_Some. by apply (Hd q).
Qed.

Lemma part_none P fs : (∀ q node, fs !! q = Some node → P q = false) → tree_size (part P fs) = 0%Z.
Proof.
  intros HP. assert (part P fs = ∅) as ->; [|apply tree_size_empty]. apply map_empty. intros q. apply map_lookup_filter_None_2. right.
  intros node Hq. simpl. by rewrite (HP q node Hq).
Qed.

Lemma part_ext P Q fs : (∀ q node, fs !! q = Some node → P q = Q q) → tree_size (part P fs) = tree_size (part Q fs).
Proof. intros HPQ. f_equal. apply map_filter_ext. intros q node Hq. simpl. by rewrite (HPQ q node Hq). Qed.

Lemma part_one p fs node : fs !! p = Some node → tree_size (part (λ q, bool_decide (q = p)) fs) = node_size node.
Proof.
  intros Hp. assert (part (λ q, bool_decide (q = p)) fs = {[p := node]}) as ->.
  { apply map_eq. intros q. apply option_eq. intros nd. unfold part. rewrite map_lookup_filter_Some, lookup_singleton_Some. simpl.
    rewrite bool_decide_eq_true. naive_solver. }
  unfold tree_size. rewrite map_fold_singleton. lia.
Qed.

Lemma child_name_Some p q n : child_name p q = Some n ↔ ∃ r, q = p ++ n :: r.
Proof.
  unfold child_name. split.
  - case_decide as Hp; [|done]. destruct Hp as [r ->]. rewrite drop_app_length. destruct r as [|m r]; [done|]. intros [= ->]. by exists r.
  - intros [r ->]. rewrite decide_True by (by exists (n :: r)). by rewrite drop_app_length.
Qed.

Lemma under_true p ns q : under p ns q = true ↔ ∃ n r, n ∈ ns ∧ q = p ++ n :: r.
Proof.
  unfold under. destruct (child_name p q) as [n|] eqn:Hc.
  - apply child_name_Some in Hc as [r ->]. rewrite bool_decide_eq_true. split; [by eauto|]. intros (n' & r' & Hn & Heq). by simplify_list_eq.
  - split; [done|]. intros (n & r & _ & Hq). assert (child_name p q = Some n) as Hs by (apply child_name_Some; eauto). congruence.
Qed.

Lemma inside_true p q : inside p q = true ↔ ∃ n r, q = p ++ n :: r.
Proof. unfold inside. rewrite bool_decide_eq_true. setoid_rewrite <-child_name_Some. done. Qed.

(** A path below [p ++ [n]], or that path itself. *)
Lemma under_one p n q : under p [n] q = bool_decide (q = p ++ [n]) || inside (p ++ [n]) q.
Proof.
  apply Bool.eq_true_iff_eq. rewrite orb_true_iff, bool_decide_eq_true, inside_true, under_true. split.
  - intros (m & r & ->%list_elem_of_singleton & ->). destruct r as [|m r]; [by left|]. right. exists m, r. by rewrite <-app_assoc.
  - intros [->|(m & r & ->)]; exists n; [exists []|exists (m :: r); rewrite <-app_assoc]; split; set_solver.
Qed.

Lemma under_size fs p n node : fs_wf fs → fs !! (p ++ [n]) = Some node →
  tree_size (part (under p [n]) fs) = (node_size node + if node is NDir then tree_size (part (inside (p ++ [n])) fs) else 0)%Z.
Proof.
  intros Hwf Hn. rewrite (part_split _ _ _ fs (under_one p n)).
  - rewrite (part_one _ _ _ Hn). destruct node as [d|]; [|done]. rewrite part_none; [done|]. intros q nd Hq. apply not_true_is_false. intros (m & r & ->)%inside_true.
    destruct (wf_prefix fs (p ++ [n]) (m :: r) nd Hwf Hq ltac:(done)) as [?|?]; [by destruct p|congruence].
  - intros q ->%bool_decide_eq_true (m & r & Heq)%inside_true. apply (f_equal length) in Heq. rewrite !length_app in Heq. simpl in Heq. lia.
Qed.

Section DirSizeSpec.
Context (read_order : list (bytes * Node) → list (bytes * Node)) (read_order_perm : ∀ l, read_order l ≡ₚ l).

Lemma dir_size_loop_spec fs p below es total : fs_wf fs → NoDup es.*1 → (∀ n node, (n, node) ∈ es → fs !! (p ++ [n]) = Some node) →
  (∀ n, (n, NDir) ∈ es → below (p ++ [n]) = Some (Ok (tree_size (part (inside (p ++ [n])) fs)))) →
  dir_size_loop below p es total = Some (Ok (total + tree_size (part (under p es.*1) fs))%Z).
Proof.
  intros Hwf. revert total. induction es as [|[n node] es IH]; intros total Hnd Hes Hbelow.
  - cbn [dir_size_loop fmap list_fmap]. rewrite part_none, Z.add_0_r; [done|]. intros q nd _. apply not_true_is_false. intros (m & r & Hm & _)%under_true. by apply elem_of_nil in Hm.
  - apply NoDup_cons in Hnd as [Hn Hnd]. pose proof (Hes n node ltac:(left)) as Hnode.
    assert (tree_size (part (under p (n :: es.*1)) fs) = tree_size (part (under p [n]) fs) + tree_size (part (under p es.*1) fs))%Z as Hsplit.
    { apply part_split.
      - intros q. apply Bool.eq_true_iff_eq. rewrite orb_true_iff, !under_true. set_solver.
      - intros q (m & r & ->%list_elem_of_singleton & ->)%under_true (m' & r' & Hm & Heq)%under_true. simplify_list_eq. done. }
    assert (∀ total, dir_size_loop below p es total = Some (Ok (total + tree_size (part (under p es.*1) fs))%Z)) as Hrest.
    { intros t. apply IH; [done| |]; intros; [apply Hes|apply Hbelow]; by right. }
    cbn [fmap list_fmap fst]. change (list_fmap _ _ fst es) with (es.*1). rewrite Hsplit, (under_size fs p n node Hwf Hnode).
    cbn [dir_size_loop]. destruct node as [d|]; cbn [node_size].
    + rewrite Hrest. do 2 f_equal. lia.
    + rewrite (Hbelow n) by left. cbn [mbind option_bind]. rewrite Hrest. do 2 f_equal. lia.
Qed.

Lemma children_under fs p q node : fs_wf fs → fs !! q = Some node → inside p q = under p (omap (child_of p) (map_to_list fs)).*1 q.
Proof.
  intros Hwf Hq. apply Bool.eq_true_iff_eq. rewrite inside_true, under_true. split; [|by intros (n & r & _ & ->); eauto].
  intros (n & r & ->). exists n, r. split; [|done]. rewrite (cons_middle n p r), app_assoc in Hq.
  assert (∃ nd, fs !! (p ++ [n]) = Some nd) as [nd Hnd].
  { destruct r as [|m r]; [rewrite app_nil_r in Hq; eauto|]. destruct (wf_prefix _ _ _ _ Hwf Hq) as [?|?]; [done|by destruct p|eauto]. }
  apply list_elem_of_fmap. exists (n, nd). split; [done|]. by apply elem_of_children.
Qed.

Lemma dir_size_fuel_spec fs fuel p : fs_wf fs → 0 < fuel → (∀ q node, fs !! q = Some node → length q < length p + fuel) →
  dir_size_fuel read_order fuel fs p = Some (Ok (if fs_is_dir fs p then tree_size (part (inside p) fs) else 0%Z)).
Proof.
  intros Hwf. revert p. induction fuel as [|fuel IH]; intros p Hf Hdepth; [lia|]. cbn [dir_size_fuel].
  destruct (fs_is_dir fs p) eqn:Hdir; [|done]. unfold fs_read_dir. unfold fs_is_dir in Hdir. destruct (fs_walk fs [] p) as [[d|]|] eqn:Hw; try done.
  rewrite dir_size_loop_spec with (fs := fs); [|done|..].
  - rewrite Z.add_0_l. do 2 f_equal. apply part_ext. intros q node Hq. rewrite (children_under fs p q node Hwf Hq).
    apply Bool.eq_true_iff_eq. rewrite !under_true. setoid_rewrite (read_order_perm (omap (child_of p) (map_to_list fs))). done.
  - rewrite read_order_perm. apply NoDup_children.
  - intros n node. by rewrite read_order_perm, elem_of_children.
  - intros n Hn. rewrite read_order_perm, elem_of_children in Hn. pose proof (Hdepth _ _ Hn) as Hlt. rewrite length_app in Hlt. simpl in Hlt.
    rewrite IH; [|lia|].
    + unfold fs_is_dir. rewrite (walk_Some fs [] (p ++ [n]) NDir Hwf Hn) by (by destruct p). done.
    + intros q node Hq. specialize (Hdepth q node Hq). rewrite length_app. simpl. lia.
Qed.

(** The size of a directory is the number of bytes in the files anywhere below it,
    however deep they are and in whatever order directories are listed; the call returns
    for every tree, and a path that is not a directory has size zero. *)
Theorem dir_size_exact fs p : fs_wf fs →
  dir_size read_order fs p = Some (Ok (if fs_is_dir fs p then tree_size (part (inside p) fs) else 0%Z)).
Proof. intros Hwf. apply dir_size_fuel_spec; [done|lia|]. intros q node Hq. pose proof (depth_spec read_order read_order_perm fs q node Hq). lia. Qed.
End DirSizeSpec.
