(* ===== verification/SledFiles.v ===== *)
(** * [oxistore-kv-sled]: opening, the builder, merging, backup and restore

    What the backend adds to the [KvStore] operations of [Sled.v].  Database files,
    export and import, merge operators and subscriptions belong to sled: they are the
    class [SledFiles] over a world [W], with the documented behaviour as [SledFilesLaws].
    A configuration is the list of the calls made on [sled::Config::new()]. *)

From S2P Require Import Prelude Bytes Core StoreSpec TreeDb TreeSpec Sled SledSpec SledProps LocalBlob StoreFiles.

(** [sled::Mode], and the builder's own copy of it *)
Inductive Mode := ModeLowSpace | ModeHighThroughput.
Inductive SledMode := LowSpace | HighThroughput.
Definition sled_mode_default : SledMode := LowSpace.
Definition sled_mode_into (m : SledMode) : Mode := match m with LowSpace => ModeLowSpace | HighThroughput => ModeHighThroughput end.

Inductive SledSetting :=
| SetPath (p : path)
| SetCacheCapacity (n : Z)
| SetFlushEveryMs (ms : option Z)
| SetUseCompression (b : bool)
| SetMode (m : Mode)
| SetSegmentSize (n : Z)
| SetTemporary (b : bool).

Abbreviation MergeOperator := (bytes → option bytes → bytes → option bytes).

(** The collections of a database with their entries, as [Db::export] returns them. *)
Abbreviation SledExport := (list (string * list (bytes * bytes))).

Class SledFiles (W : Type) `{!TreeEngine} := {
  sf_open : list SledSetting → W → W * engine_result TreeDb;
  (** closing the database at a path *)
  sf_drop : path → TreeDb → W → W;
  sf_export : TreeDb → SledExport;
  (** [None] is a panic *)
  sf_import : SledExport → TreeDb → option TreeDb;
  sf_flush : TreeDb → TreeDb * engine_result unit;
  sf_size_on_disk : TreeDb → engine_result Z;
  sf_set_merge_operator : string → MergeOperator → TreeDb → TreeDb;
  sf_merge : string → bytes → bytes → TreeDb → TreeDb * engine_result (option bytes);
  Subscriber : Type;
  sf_watch_prefix : string → bytes → TreeDb → TreeDb * Subscriber;
}.

(** The entries of an export that belong to one tree. *)
Fixpoint export_view (n : string) (e : SledExport) : gmap bytes bytes :=
  match e with
  | [] => ∅
  | (m, kvs) :: e => if decide (m = n) then list_to_map kvs ∪ export_view n e else export_view n e
  end.

(** Nothing of the export is in the database already. *)
Definition import_fresh `{!TreeEngine, !TreeView} (e : SledExport) (d : TreeDb) : Prop := ∀ n, export_view n e ##ₘ td_view n d.

(** Every tree and every key of it occurs once. *)
Definition export_wf (e : SledExport) : Prop := NoDup e.*1 ∧ Forall (λ t : string * list (bytes * bytes), NoDup t.2.*1) e.

Class SledOperators `{!TreeEngine} := sf_operator : string → TreeDb → option MergeOperator.

Class SledFilesLaws (W : Type) `{!TreeEngine, !TreeView, !SledFiles W, !SledOperators} : Prop := {
  (** what was flushed is found again *)
  sf_reopen_law p d0 d w w' d' : sf_flush d0 = (d, Ok ()) → sf_open [SetPath p] (sf_drop p d w) = (w', Ok d') → ∀ n, td_view n d' = td_view n d;
  sf_export_law d n : export_view n (sf_export d) = td_view n d;
  sf_export_wf d : export_wf (sf_export d);
  sf_import_law e d : export_wf e → import_fresh e d → ∃ d', sf_import e d = Some d' ∧ ∀ n, td_view n d' = export_view n e ∪ td_view n d;
  sf_flush_law d d' r n : sf_flush d = (d', r) → td_view n d' = td_view n d;
  sf_set_merge_law n f d : sf_operator n (sf_set_merge_operator n f d) = Some f ∧ ∀ n', td_view n' (sf_set_merge_operator n f d) = td_view n' d;
  sf_merge_law n k v d d' r : sf_merge n k v d = (d', r) →
    sf_operator n d' = sf_operator n d ∧ (∀ n', n' ≠ n → td_view n' d' = td_view n' d) ∧
    match r with
    | Ok _ => ∃ f, sf_operator n d = Some f ∧ td_view n d' = partial_alter (λ old, f k old v) k (td_view n d)
    | Err _ => td_view n d' = td_view n d
    end;
}.

Section Files.
Context {W : Type} {TE : TreeEngine} {SF : SledFiles W} {HF : HasFs W}.

(** ** Opening *)
Definition sled_open (p : path) (w : W) : W * store_result SledStore :=
  match ensure_parent_dir p w with
  | (w, Err e) => (w, Err e)
  | (w, Ok _) => let '(w, r) := sf_open [SetPath p] w in (w, let? db := other r in sled_open_trees db)
  end.

Definition sled_open_temporary (w : W) : W * store_result SledStore :=
  let '(w, r) := sf_open [SetTemporary true] w in (w, let? db := other r in sled_open_trees db).

(** ** Other trees, merging and watching *)
Definition sled_open_tree (name : string) (s : SledStore) : SledStore * store_result unit := on_db (d_lift (td_open name)) s.

Definition set_merge_operator (f : MergeOperator) (s : SledStore) : SledStore := {| sl_db := sf_set_merge_operator DEFAULT_TREE f (sl_db s) |}.

Definition sled_merge (key value : bytes) (s : SledStore) : SledStore * store_result unit :=
  let '(d, r) := sf_merge DEFAULT_TREE key value (sl_db s) in ({| sl_db := d |}, result_map (λ _, ()) (other r)).

Definition watch_prefix (prefix : bytes) (s : SledStore) : SledStore * Subscriber :=
  let '(d, sub) := sf_watch_prefix DEFAULT_TREE prefix (sl_db s) in ({| sl_db := d |}, sub).

(** ** Flushing and sizes *)
Definition flush_sync (s : SledStore) : SledStore * store_result unit :=
  let '(d, r) := sf_flush (sl_db s) in ({| sl_db := d |}, map_err Io r).

Definition sled_size_on_disk (s : SledStore) : store_result Z := other (sf_size_on_disk (sl_db s)).

Definition flush_with_reclaim (s : SledStore) : SledStore * store_result Z :=
  match flush_sync s with
  | (s, Err e) => (s, Err e)
  | (s, Ok _) => (s, sled_size_on_disk s)
  end.

(** [KvStore::flush] and [KvStore::compact] *)
Definition sled_flush (s : SledStore) : SledStore * store_result unit :=
  let '(d, r) := sf_flush (sl_db s) in ({| sl_db := d |}, other r).
Definition sled_compact (s : SledStore) : SledStore * store_result unit :=
  let '(d, r) := sf_flush (sl_db s) in ({| sl_db := d |}, other r).

(** ** Backup and restore *)
Definition sled_backup (dest : path) (s : SledStore) (w : W) : option (W * store_result unit) :=
  match ensure_parent_dir dest w with
  | (w, Err e) => Some (w, Err e)
  | (w, Ok _) =>
      let export := sf_export (sl_db s) in
      match sf_open [SetPath dest] w with
      | (w, Err e) => Some (w, Err (Other e))
      | (w, Ok dest_db) =>
          dest_db ← sf_import export dest_db;
          let '(dest_db, r) := sf_flush dest_db in
          Some (sf_drop dest dest_db w, other r)
      end
  end.

Definition sled_restore (src : path) (s : SledStore) (w : W) : option (SledStore * W * store_result unit) :=
  match sf_open [SetPath src] w with
  | (w, Err e) => Some (s, w, Err (Other e))
  | (w, Ok src_db) =>
      let export := sf_export src_db in
      d ← sf_import export (sl_db s);
      let '(d, r) := sf_flush d in
      Some ({| sl_db := d |}, sf_drop src src_db w, other r)
  end.

#[global] Instance sled_maintenance : KvMaintenance SledStore W := {|
  kv_compact s w := let '(s, r) := sled_compact s in (s, w, r);
  kv_backup := sled_backup;
  kv_restore := sled_restore;
  kv_flush s w := let '(s, r) := sled_flush s in (s, w, r);
|}.

(** ** The builder *)
Record SledStoreBuilder := {
  sb_cache_capacity : option Z;
  sb_flush_every_ms : option Z;
  sb_use_compression : bool;
  sb_temporary : bool;
  sb_mode : SledMode;
  sb_segment_size : option Z;
}.

Definition sled_builder_new : SledStoreBuilder :=
  {| sb_cache_capacity := None; sb_flush_every_ms := None; sb_use_compression := false; sb_temporary := false; sb_mode := sled_mode_default; sb_segment_size := None |}.

Definition sb_set_cache_capacity (n : Z) (b : SledStoreBuilder) : SledStoreBuilder :=
  {| sb_cache_capacity := Some n; sb_flush_every_ms := sb_flush_every_ms b; sb_use_compression := sb_use_compression b;
     sb_temporary := sb_temporary b; sb_mode := sb_mode b; sb_segment_size := sb_segment_size b |}.
Definition sb_set_flush_every_ms (ms : Z) (b : SledStoreBuilder) : SledStoreBuilder :=
  {| sb_cache_capacity := sb_cache_capacity b; sb_flush_every_ms := Some ms; sb_use_compression := sb_use_compression b;
     sb_temporary := sb_temporary b; sb_mode := sb_mode b; sb_segment_size := sb_segment_size b |}.
Definition sb_set_use_compression (e : bool) (b : SledStoreBuilder) : SledStoreBuilder :=
  {| sb_cache_capacity := sb_cache_capacity b; sb_flush_every_ms := sb_flush_every_ms b; sb_use_compression := e;
     sb_temporary := sb_temporary b; sb_mode := sb_mode b; sb_segment_size := sb_segment_size b |}.
Definition sb_set_temporary (t : bool) (b : SledStoreBuilder) : SledStoreBuilder :=
  {| sb_cache_capacity := sb_cache_capacity b; sb_flush_every_ms := sb_flush_every_ms b; sb_use_compression := sb_use_compression b;
     sb_temporary := t; sb_mode := sb_mode b; sb_segment_size := sb_segment_size b |}.
Definition sb_set_mode (m : SledMode) (b : SledStoreBuilder) : SledStoreBuilder :=
  {| sb_cache_capacity := sb_cache_capacity b; sb_flush_every_ms := sb_flush_every_ms b; sb_use_compression := sb_use_compression b;
     sb_temporary := sb_temporary b; sb_mode := m; sb_segment_size := sb_segment_size b |}.
Definition sb_set_segment_size (n : Z) (b : SledStoreBuilder) : SledStoreBuilder :=
  {| sb_cache_capacity := sb_cache_capacity b; sb_flush_every_ms := sb_flush_every_ms b; sb_use_compression := sb_use_compression b;
     sb_temporary := sb_temporary b; sb_mode := sb_mode b; sb_segment_size := Some n |}.

(** The configuration that [build] opens. *)
Definition sled_build_config (b : SledStoreBuilder) (p : path) : list SledSetting :=
  let config := [SetPath p] in
  let config := match sb_cache_capacity b with Some cc => config ++ [SetCacheCapacity cc] | None => config end in
  let config := match sb_flush_every_ms b with Some fms => config ++ [SetFlushEveryMs (Some fms)] | None => config end in
  let config := config ++ [SetUseCompression (sb_use_compression b)] in
  let config := config ++ [SetMode (sled_mode_into (sb_mode b))] in
  let config := match sb_segment_size b with Some seg => config ++ [SetSegmentSize seg] | None => config end in
  if sb_temporary b then config ++ [SetTemporary true] else config.

Definition sled_build (b : SledStoreBuilder) (p : path) (w : W) : W * store_result SledStore :=
  let '(w, r) := sf_open (sled_build_config b p) w in (w, let? db := map_err Corruption r in sled_open_trees db).
End Files.

(** ** What the files keep *)
Section FilesProps.
Context {W : Type} {TE : TreeEngine} {TV : TreeView} {TL : TreeLaws} {SF : SledFiles W} {HF : HasFs W} {SO : SledOperators} {SL : SledFilesLaws W}.

(** A flushed import into a fresh database. *)
Lemma import_flushed e d d1 d2 r : export_wf e → import_fresh e d → sf_import e d = Some d1 → sf_flush d1 = (d2, r) → ∀ n, td_view n d2 = export_view n e ∪ td_view n d.
Proof.
  intros Hw Hf Hi Hfl n. destruct (sf_import_law e d Hw Hf) as (d1' & Hi' & Hv). rewrite Hi' in Hi. injection Hi as ->. by rewrite (sf_flush_law _ _ _ n Hfl).
Qed.

Lemma sled_backup_spec dest s w : (∀ w' d n, sf_open [SetPath dest] (ensure_parent_dir dest w).1 = (w', Ok d) → td_view n d = ∅) →
  ∃ w1 r, sled_backup dest s w = Some (w1, r) ∧
    (r = Ok () → ∃ d0 d w0, sf_flush d0 = (d, Ok ()) ∧ w1 = sf_drop dest d w0 ∧ ∀ n, td_view n d = td_view n (sl_db s)).
Proof.
  intros Hdest. unfold sled_backup. destruct (ensure_parent_dir dest w) as [w0 [[]|e]]; cbn [fst] in Hdest; [|by eexists _, _].
  destruct (sf_open [SetPath dest] w0) as [w1 [db|e]] eqn:Ho; [|by eexists _, _].
  assert (import_fresh (sf_export (sl_db s)) db) as Hfresh by (intros n; rewrite (Hdest w1 db n eq_refl); apply map_disjoint_empty_r).
  destruct (sf_import_law _ _ (sf_export_wf _) Hfresh) as (d1 & Hi & _). rewrite Hi. cbn [mbind option_bind]. destruct (sf_flush d1) as [d2 r] eqn:Hfl.
  eexists _, _. split; [done|]. intros Hr. destruct r as [[]|]; [|done]. exists d1, d2, w1. split; [done|]. split; [done|]. intros n.
  by rewrite (import_flushed _ _ _ _ _ (sf_export_wf _) Hfresh Hi Hfl), sf_export_law, (Hdest w1 db n eq_refl), map_union_empty.
Qed.

(** C28: Backup and restore.  A backup to a place that holds no database yet does not panic,
    and restoring it into a store that shares no key with it in any tree (the import
    panics on a shared one) adds exactly the backed-up entries of every tree to those of the store, or leaves the store as it was; into an
    empty store, it is then the same store at every instant: expiries are kept, and what
    had expired stays expired. *)
Theorem sled_backup_restore_roundtrip dest (s s2 : SledStore) w :
  (∀ w' d n, sf_open [SetPath dest] (ensure_parent_dir dest w).1 = (w', Ok d) → td_view n d = ∅) →
  (∀ n, td_view n (sl_db s) ##ₘ td_view n (sl_db s2)) →
  ∃ w1 r1, sled_backup dest s w = Some (w1, r1) ∧
    (r1 = Ok () → ∃ s2' w2 r2, sled_restore dest s2 w1 = Some (s2', w2, r2) ∧
       ((r2 ≠ Ok () ∧ s2' = s2) ∨ ∀ n, td_view n (sl_db s2') = td_view n (sl_db s) ∪ td_view n (sl_db s2)) ∧
       (r2 = Ok () → (∀ n, td_view n (sl_db s2) = ∅) → ∀ now, kv_view now s2' = kv_view now s)).
Proof.
  intros Hdest Hdisj. destruct (sled_backup_spec dest s w Hdest) as (w1 & r1 & Hb & Hr1). exists w1, r1. split; [exact Hb|]. intros Hok.
  destruct (Hr1 Hok) as (d0 & d & w0 & Hfl & -> & Hd). unfold sled_restore.
  destruct (sf_open [SetPath dest] (sf_drop dest d w0)) as [w2 [src|e]] eqn:Ho; [|eexists _, _, _; split; [done|]; split; [by left|done]].
  assert (∀ n, td_view n src = td_view n (sl_db s)) as Hsrc by (intros n; by rewrite (sf_reopen_law dest d0 d w0 w2 src Hfl Ho n)).
  assert (import_fresh (sf_export src) (sl_db s2)) as Hfresh by (intros n; rewrite sf_export_law, Hsrc; apply Hdisj).
  destruct (sf_import_law _ _ (sf_export_wf _) Hfresh) as (d1 & Hi & _). rewrite Hi. cbn [mbind option_bind]. destruct (sf_flush d1) as [d2 r] eqn:Hfl2.
  assert (∀ n, td_view n d2 = td_view n (sl_db s) ∪ td_view n (sl_db s2)) as Hv by (intros n; by rewrite (import_flushed _ _ _ _ _ (sf_export_wf _) Hfresh Hi Hfl2), sf_export_law, Hsrc).
  eexists _, _, _. split; [done|]. split; [by right|]. intros _ Hempty now. cbn [kv_view sled_view sl_db]. f_equal.
  unfold tree_abs, tree_ttl. by rewrite !Hv, !Hempty, !map_union_empty.
Qed.

(** ** Merging *)

(** The merges of a list of values into one key. *)
Fixpoint merge_all (key : bytes) (values : list bytes) (s : SledStore) : SledStore * store_result unit :=
  match values with
  | [] => (s, Ok ())
  | v :: values => match sled_merge key v s with (s, Ok _) => merge_all key values s | (s, Err e) => (s, Err e) end
  end.

Lemma merge_all_spec f key values (s s' : SledStore) : sf_operator DEFAULT_TREE (sl_db s) = Some f → merge_all key values s = (s', Ok ()) →
  (∀ k, td_view DEFAULT_TREE (sl_db s') !! k =
    if decide (k = key) then foldl (f key) (td_view DEFAULT_TREE (sl_db s) !! key) values else td_view DEFAULT_TREE (sl_db s) !! k) ∧
  ∀ n, n ≠ DEFAULT_TREE → td_view n (sl_db s') = td_view n (sl_db s).
Proof.
  revert s. induction values as [|v values IH]; intros s Hop.
  - intros [= <-]. split; [|done]. intros k. by case_decide; subst.
  - cbn [merge_all]. unfold sled_merge. destruct (sf_merge DEFAULT_TREE key v (sl_db s)) as [d1 [o|e]] eqn:Hm; [|done]. cbn [other map_err result_map].
    destruct (sf_merge_law _ _ _ _ _ _ Hm) as (Hop1 & Hother & f' & Hf' & Hd1). rewrite Hop in Hf'. injection Hf' as <-.
    intros Hrest. destruct (IH {| sl_db := d1 |}) as [Hk Hn]; [cbn [sl_db]; congruence|exact Hrest|]. cbn [sl_db] in *. split.
    + intros k. rewrite Hk, Hd1. case_decide as Hkey; [by rewrite lookup_partial_alter_eq|by rewrite lookup_partial_alter_ne].
    + intros n Hne. by rewrite Hn, Hother.
Qed.

(** Once an operator is set, merging values into a key folds the operator over them,
    starting from the stored value; other keys, other trees and in particular the
    expiries keep what they have. *)
Theorem sled_merge_folds f key values (s s' : SledStore) : merge_all key values (set_merge_operator f s) = (s', Ok ()) →
  (∀ k, td_view DEFAULT_TREE (sl_db s') !! k =
    if decide (k = key) then foldl (f key) (td_view DEFAULT_TREE (sl_db s) !! key) values else td_view DEFAULT_TREE (sl_db s) !! k) ∧
  ∀ n, n ≠ DEFAULT_TREE → td_view n (sl_db s') = td_view n (sl_db s).
Proof.
  intros Hm. destruct (sf_set_merge_law DEFAULT_TREE f (sl_db s)) as [Hop Hview].
  destruct (merge_all_spec f key values (set_merge_operator f s) s' Hop Hm) as [Hk Hn]. unfold set_merge_operator in Hk, Hn. cbn [sl_db] in Hk, Hn. split.
  - intros k. by rewrite Hk, Hview.
  - intros n Hne. by rewrite Hn, Hview.
Qed.

(** A merge does not look at expiries: into a key that has expired, it combines the
    expired value with the new one and succeeds, and the next read discards both. *)
Theorem sled_merge_expired_lost {TR : TreeReliable} now key value f (s s' : SledStore) :
  expired_key now (tree_ttl (sl_db s)) key = true → sled_merge key value (set_merge_operator f s) = (s', Ok ()) →
  td_view DEFAULT_TREE (sl_db s') !! key = f key (td_view DEFAULT_TREE (sl_db s) !! key) value ∧
  ∃ s2, kv_get now key s' = (s2, Ok None) ∧ td_view DEFAULT_TREE (sl_db s2) !! key = None.
Proof.
  intros Hexp Hm. destruct (sf_set_merge_law DEFAULT_TREE f (sl_db s)) as [Hop Hview].
  destruct (merge_all_spec f key [value] (set_merge_operator f s) s' Hop) as [Hk Hn]; [cbn [merge_all]; by rewrite Hm|]. unfold set_merge_operator in Hk, Hn. cbn [sl_db] in Hk, Hn.
  split; [rewrite Hk, decide_True by done; by rewrite Hview|]. assert (tree_ttl (sl_db s') = tree_ttl (sl_db s)) as Httl by (unfold tree_ttl; by rewrite Hn, Hview).
  cbn [kv_get sled_kv]. destruct (on_db (sled_get now key) s') as [s2 r] eqn:Hg. apply (on_db_ref _ _ _ _ _ (sled_get_ref now key)) in Hg. cbv beta in Hg.
  cbn [a_ttl tree_abs] in Hg. rewrite Httl, Hexp in Hg. injection Hg as Hd Ht <-. exists s2. split; [done|]. by rewrite <-Hd, lookup_delete_eq.
Qed.
End FilesProps.

(** ** The builder *)
Inductive SbCall :=
| SbCacheCapacity (n : Z)
| SbFlushEveryMs (ms : Z)
| SbUseCompression (b : bool)
| SbTemporary (b : bool)
| SbMode (m : SledMode)
| SbSegmentSize (n : Z).

Definition sb_call (c : SbCall) : SledStoreBuilder → SledStoreBuilder :=
  match c with
  | SbCacheCapacity n => sb_set_cache_capacity n
  | SbFlushEveryMs ms => sb_set_flush_every_ms ms
  | SbUseCompression b => sb_set_use_compression b
  | SbTemporary b => sb_set_temporary b
  | SbMode m => sb_set_mode m
  | SbSegmentSize n => sb_set_segment_size n
  end.

(** The last call that gives a value of some sort. *)
Definition last_call {A} (f : SbCall → option A) (calls : list SbCall) : option A := last (omap f calls).

Lemma last_call_snoc {A} (f : SbCall → option A) calls c : last_call f (calls ++ [c]) = match f c with Some a => Some a | None => last_call f calls end.
Proof. unfold last_call. rewrite omap_app. cbn [omap list_omap]. destruct (f c); [by rewrite last_snoc|by rewrite app_nil_r]. Qed.

(** The configuration a builder opens is determined by the last call of each of its
    methods, in whatever order they are made; what was not asked for is not passed on,
    except compression, which is off, and the mode, which is [LowSpace]. *)
Theorem sled_builder_last_call_wins calls p :
  sled_build_config (foldl (λ b c, sb_call c b) sled_builder_new calls) p =
  SetPath p ::
    from_option (λ n, [SetCacheCapacity n]) [] (last_call (λ c, if c is SbCacheCapacity n then Some n else None) calls) ++
    from_option (λ ms, [SetFlushEveryMs (Some ms)]) [] (last_call (λ c, if c is SbFlushEveryMs ms then Some ms else None) calls) ++
    [SetUseCompression (default false (last_call (λ c, if c is SbUseCompression b then Some b else None) calls));
     SetMode (sled_mode_into (default LowSpace (last_call (λ c, if c is SbMode m then Some m else None) calls)))] ++
    from_option (λ n, [SetSegmentSize n]) [] (last_call (λ c, if c is SbSegmentSize n then Some n else None) calls) ++
    (if default false (last_call (λ c, if c is SbTemporary b then Some b else None) calls) then [SetTemporary true] else []).
Proof.
  set (b := foldl _ _ _).
  assert (b = {| sb_cache_capacity := last_call (λ c, if c is SbCacheCapacity n then Some n else None) calls;
    sb_flush_every_ms := last_call (λ c, if c is SbFlushEveryMs ms then Some ms else None) calls;
    sb_use_compression := default false (last_call (λ c, if c is SbUseCompression b then Some b else None) calls);
    sb_temporary := default false (last_call (λ c, if c is SbTemporary b then Some b else None) calls);
    sb_mode := default LowSpace (last_call (λ c, if c is SbMode m then Some m else None) calls);
    sb_segment_size := last_call (λ c, if c is SbSegmentSize n then Some n else None) calls |}) as ->.
  { unfold b. clear. induction calls as [|c calls IH] using rev_ind; [done|]. rewrite foldl_app. cbn [foldl]. rewrite IH, !last_call_snoc. by destruct c. }
  unfold sled_build_config. cbn. repeat case_match; simplify_eq/=; done.
Qed.

(** ** An instance: databases in memory, with operators *)
Module ToySled.
Abbreviation Trees := (gmap string (gmap bytes bytes)).

(** An engine whose databases carry merge operators. *)
Definition lift_op {A} (op : Trees → Trees * A) (d : Trees * (string → option MergeOperator)) : (Trees * (string → option MergeOperator)) * A :=
  let '(t, r) := op d.1 in ((t, d.2), r).

#[local] Instance toy_trees : TreeEngine := {|
  TreeDb := Trees * (string → option MergeOperator);
  td_open n := lift_op (td_open (TreeEngine := mem_trees) n);
  td_get n k d := td_get (TreeEngine := mem_trees) n k d.1;
  td_range n lo hi d := td_range (TreeEngine := mem_trees) n lo hi d.1;
  td_prefix n p d := td_prefix (TreeEngine := mem_trees) n p d.1;
  td_iter n d := td_iter (TreeEngine := mem_trees) n d.1;
  td_insert n k v := lift_op (td_insert (TreeEngine := mem_trees) n k v);
  td_remove n k := lift_op (td_remove (TreeEngine := mem_trees) n k);
  td_batch ops := lift_op (td_batch (TreeEngine := mem_trees) ops);
  td_cas n k e v := lift_op (td_cas (TreeEngine := mem_trees) n k e v);
|}.
#[local] Instance toy_tree_view : TreeView := λ n (d : TreeDb), mem_tree n d.1.

Lemma lift_op_spec {A} (op : Trees → Trees * A) d d' r : lift_op op d = (d', r) → op d.1 = (d'.1, r).
Proof. unfold lift_op. destruct (op d.1) as [t r1]. by intros [= <- <-]. Qed.

#[local] Instance toy_tree_laws : TreeLaws.
Proof.
  split; unfold td_view, toy_tree_view; cbn [td_open td_get td_range td_prefix td_iter td_insert td_remove td_batch td_cas toy_trees].
  - intros n d d' r Hop%lift_op_spec. apply (@td_open_law mem_trees _ _ _ _ _ _ Hop).
  - intros n k d o. apply (@td_get_law mem_trees _ _).
  - intros n lo hi d l. apply (@td_range_law mem_trees _ _).
  - intros n p d l. apply (@td_prefix_law mem_trees _ _).
  - intros n d l. apply (@td_iter_law mem_trees _ _).
  - intros n d k v. apply (@td_iter_item mem_trees _ _).
  - intros n k v d d' r Hop%lift_op_spec. apply (@td_insert_law mem_trees _ _ _ _ _ _ _ _ Hop).
  - intros n k d d' r Hop%lift_op_spec. apply (@td_remove_law mem_trees _ _ _ _ _ _ _ Hop).
  - intros ops d d' r Hop%lift_op_spec. apply (@td_batch_law mem_trees _ _ _ _ _ _ Hop).
  - intros n k e v d d' r Hop%lift_op_spec. apply (@td_cas_law mem_trees _ _ _ _ _ _ _ _ _ Hop).
Qed.

#[local] Instance toy_tree_reliable : TreeReliable.
Proof. split; intros; unfold is_Ok; cbn; unfold lift_op; cbn; try case_decide; cbn; rewrite ?collect_map_Ok; eauto. Qed.

(** A disk: directories, and the databases that were closed. *)
Abbreviation Disk := (Fs * gmap path Trees)%type.
#[local] Instance disk_fs : HasFs Disk := {| get_fs := fst; set_fs fs w := (fs, w.2) |}.

Fixpoint config_path (config : list SledSetting) : path :=
  match config with SetPath p :: _ => p | _ :: config => config_path config | [] => [] end.

Definition import_pair (n : string) (t : option Trees) (kv : bytes * bytes) : option Trees :=
  t ← t; match mem_tree n t !! kv.1 with Some _ => None | None => Some (mem_bop (BInsert n kv.1 kv.2) t) end.
Definition import_tree (t : option Trees) (tree : string * list (bytes * bytes)) : option Trees := foldl (import_pair tree.1) t tree.2.
(** Inserts the entries one by one, and panics when one is there already. *)
Definition import_trees (e : SledExport) (t : Trees) : option Trees := foldl import_tree (Some t) e.

#[local] Instance toy_files : SledFiles Disk := {|
  sf_open config w := (w, Ok (default ∅ (w.2 !! config_path config), λ _, None));
  sf_drop p d w := (w.1, <[p := d.1]> w.2);
  sf_export d := (λ t, (t.1, btree_iter t.2)) <$> map_to_list d.1;
  sf_import e d := (λ t, (t, d.2)) <$> import_trees e d.1;
  sf_flush d := (d, Ok ());
  sf_size_on_disk _ := Ok 0%Z;
  sf_set_merge_operator n f d := (d.1, λ m, if decide (m = n) then Some f else d.2 m);
  sf_merge n k v d := match d.2 n with
    | None => (d, Err "Unsupported: must set a merge operator on this Tree"%string)
    | Some f => ((<[n := partial_alter (λ old, f k old v) k (mem_tree n d.1)]> d.1, d.2), Ok (f k (mem_tree n d.1 !! k) v))
    end;
  Subscriber := unit;
  sf_watch_prefix _ _ d := (d, ());
|}.
#[local] Instance toy_operators : SledOperators := λ n d, d.2 n.

Lemma import_tree_spec n kvs t : NoDup kvs.*1 → (∀ k, k ∈ kvs.*1 → mem_tree n t !! k = None) →
  ∃ t', import_tree (Some t) (n, kvs) = Some t' ∧ mem_tree n t' = list_to_map kvs ∪ mem_tree n t ∧ ∀ n', n' ≠ n → mem_tree n' t' = mem_tree n' t.
Proof.
  unfold import_tree. cbn [fst snd]. revert t. induction kvs as [|[k v] kvs IH]; intros t Hnd Hfree.
  - exists t. split; [done|]. split; [by rewrite list_to_map_nil, map_empty_union|done].
  - apply NoDup_cons in Hnd as [Hk Hnd]. cbn [foldl]. unfold import_pair at 2. cbn [mbind option_bind fst snd]. rewrite (Hfree k) by left.
    destruct (IH (mem_bop (BInsert n k v) t)) as (t' & Hi & Hv & Ho); [done| |].
    { intros k' Hk'. rewrite mem_bop_view, decide_True by done. cbn [bop_apply]. rewrite lookup_insert_ne by (intros ->; done). apply Hfree. by right. }
    exists t'. split; [exact Hi|]. split.
    + rewrite Hv, mem_bop_view, decide_True by done. cbn [bop_apply]. rewrite list_to_map_cons. apply map_eq. intros k'. destruct (decide (k' = k)) as [->|Hne].
      * rewrite (lookup_union_r (list_to_map kvs)) by (by apply not_elem_of_list_to_map_1). by rewrite lookup_insert_eq, lookup_union, lookup_insert_eq, union_Some_l.
      * by rewrite !lookup_union, !lookup_insert_ne.
    + intros n' Hn'. rewrite Ho by done. by rewrite mem_bop_view, decide_False by (cbn; congruence).
Qed.

Lemma import_trees_spec e t : export_wf e → (∀ n, export_view n e ##ₘ mem_tree n t) →
  ∃ t', import_trees e t = Some t' ∧ ∀ n, mem_tree n t' = export_view n e ∪ mem_tree n t.
Proof.
  unfold import_trees. revert t. induction e as [|[n kvs] e IH]; intros t [Hnames Hkeys] Hfresh.
  - exists t. split; [done|]. intros n. cbn [export_view]. by rewrite map_empty_union.
  - apply NoDup_cons in Hnames as [Hn Hnames]. apply Forall_cons in Hkeys as [Hkvs Hkeys]. cbn [fst snd fmap list_fmap] in *.
    assert (export_view n e = ∅) as Hnone.
    { clear -Hn. induction e as [|[m kvs'] e IH]; [done|]. cbn [export_view]. cbn in Hn. apply not_elem_of_cons in Hn as [Hn He]. rewrite decide_False by congruence. auto. }
    pose proof (Hfresh n) as Hfn. cbn [export_view] in Hfn. rewrite decide_True, Hnone, map_union_empty in Hfn by done.
    destruct (import_tree_spec n kvs t Hkvs) as (t1 & Hi & Hv & Ho).
    { intros k ([k' v] & -> & Hk)%list_elem_of_fmap. apply (map_disjoint_Some_l _ _ _ v Hfn). by apply elem_of_list_to_map. }
    cbn [foldl]. rewrite Hi. destruct (IH t1) as (t' & Ht' & Hv'); [done| |].
    { intros m. destruct (decide (m = n)) as [->|Hm]; [rewrite Hnone; apply map_disjoint_empty_l|]. rewrite Ho by done. specialize (Hfresh m). cbn [export_view] in Hfresh.
      by rewrite decide_False in Hfresh. }
    exists t'. split; [done|]. intros m. rewrite Hv'. cbn [export_view]. destruct (decide (n = m)) as [<-|Hm].
    + by rewrite Hnone, map_empty_union, map_union_empty, Hv.
    + by rewrite Ho.
Qed.

#[local] Instance toy_files_laws : SledFilesLaws Disk.
Proof.
  split.
  - intros p d0 d w w' d' [= <-] Ho n. cbn in Ho. injection Ho as <- <-. unfold td_view, toy_tree_view. cbn. by rewrite lookup_insert_eq.
  - intros [t ops] n. unfold td_view, toy_tree_view, mem_tree. cbn [fst sf_export toy_files].
    destruct (t !! n) as [m|] eqn:Hn.
    + apply elem_of_map_to_list in Hn. pose proof (NoDup_fst_map_to_list t) as Hnd. revert Hnd Hn. induction (map_to_list t) as [|[n' m'] l IH]; [set_solver|].
      cbn [fmap list_fmap fst snd export_view]. intros [Hn' Hnd]%NoDup_cons Hin. case_decide as Hd.
      * subst n'. apply elem_of_cons in Hin as [[= <-]|Hin]; [|by destruct Hn'; apply (list_elem_of_fmap_2 fst) in Hin].
        assert (list_to_map (btree_iter m) = m) as Hm.
        { apply map_eq. intros k. apply option_eq. intros v. rewrite <-elem_of_list_to_map by apply btree_iter_NoDup. apply elem_of_btree_iter. }
        rewrite Hm. cbn. assert (export_view n ((λ t0, (t0.1, btree_iter t0.2)) <$> l) = ∅) as ->; [|apply map_union_empty].
        clear -Hn'. induction l as [|[n2 m2] l IH]; [done|]. cbn in Hn'. apply not_elem_of_cons in Hn' as [??]. cbn [fmap list_fmap fst snd export_view]. rewrite decide_False by congruence. auto.
      * apply elem_of_cons in Hin as [?|Hin]; [by simplify_eq|]. by apply IH.
    + cbn. assert (n ∉ (map_to_list t).*1) as Hno.
      { intros ([n' m] & -> & Hin%elem_of_map_to_list)%list_elem_of_fmap. cbn in Hn. congruence. }
      induction (map_to_list t) as [|[n' m'] l IH]; [done|]. cbn in Hno. apply not_elem_of_cons in Hno as [??]. cbn [fmap list_fmap fst snd export_view]. rewrite decide_False by congruence. auto.
  - intros [t ops]. split; cbn [sf_export toy_files fst].
    + rewrite <-list_fmap_compose. apply NoDup_fst_map_to_list.
    + apply Forall_fmap, Forall_true. intros [n m]. cbn. apply btree_iter_NoDup.
  - intros e [t ops] Hw Hf. destruct (import_trees_spec e t Hw Hf) as (t' & Hi & Hv). exists (t', ops). cbn [sf_import toy_files fst snd]. by rewrite Hi.
  - by intros d d' r n [= <- _].
  - intros n f d. unfold sf_operator, toy_operators. cbn. split; [by rewrite decide_True|done].
  - intros n k v [t ops] d' r. cbn [sf_merge toy_files fst snd]. unfold sf_operator, toy_operators. cbn [snd]. destruct (ops n) as [f|] eqn:Hop; intros [= <- <-]; cbn [snd]; [|done].
    split; [done|]. unfold td_view, toy_tree_view, mem_tree. cbn [fst]. split; [intros n' Hne; by rewrite lookup_insert_ne|]. exists f. split; [done|]. by rewrite lookup_insert_eq.
Qed.

Definition empty_disk : Disk := (∅, ∅).
Definition empty_store : SledStore := {| sl_db := (∅, λ _, None) |}.
Definition backup_dir : path := [[x62]; [x63]].
(** Two entries, one of which expires after five milliseconds. *)
Definition full_store : SledStore := (on_db (sled_put_with_ttl 0 [x62] [x02] 5) (on_db (sled_put [x61] [x01]) empty_store).1).1.

Definition is_done {A} (r : option (A * store_result unit)) : bool := match r with Some (_, Ok _) => true | _ => false end.

Lemma fresh_disk w' d n : sf_open [SetPath backup_dir] (ensure_parent_dir backup_dir empty_disk).1 = (w', Ok d) → td_view n d = ∅.
Proof. intros Ho. cbn in Ho. injection Ho as _ <-. done. Qed.

Lemma fresh_store n : td_view n (sl_db full_store) ##ₘ td_view n (sl_db empty_store).
Proof. apply map_disjoint_empty_r. Qed.

Lemma sled_backup_restore_roundtrip_witness :
  ∃ w1 s2' w2, sled_backup backup_dir full_store empty_disk = Some (w1, Ok ()) ∧ sled_restore backup_dir empty_store w1 = Some (s2', w2, Ok ()) ∧
    ∀ now, kv_view now s2' = kv_view now full_store.
Proof.
  destruct (sled_backup_restore_roundtrip backup_dir full_store empty_store empty_disk fresh_disk fresh_store) as (w1 & r1 & Hb & Hr).
  assert (is_done (sled_backup backup_dir full_store empty_disk) = true) as Hd1 by (vm_compute; reflexivity). rewrite Hb in Hd1. destruct r1 as [[]|]; [|discriminate Hd1].
  destruct (Hr eq_refl) as (s2' & w2 & r2 & Hres & _ & Hsame).
  assert ((w ← sled_backup backup_dir full_store empty_disk; Some (is_done (sled_restore backup_dir empty_store w.1))) = Some true) as Hd2 by (vm_compute; reflexivity).
  rewrite Hb in Hd2. cbn [mbind option_bind fst] in Hd2. rewrite Hres in Hd2. destruct r2 as [[]|]; [|discriminate Hd2].
  exists w1, s2', w2. split; [exact Hb|]. split; [exact Hres|]. apply (Hsame eq_refl). intros n. reflexivity.
Defined.

(** The operator of the documentation: append. *)
Definition append_operator : MergeOperator := λ _ old new, Some (default [] old ++ new).

Lemma sled_merge_folds_witness :
  ∃ s', merge_all [x61] [[x02]; [x03]] (set_merge_operator append_operator full_store) = (s', Ok ()) ∧ td_view DEFAULT_TREE (sl_db s') !! [x61] = Some [x01; x02; x03].
Proof.
  destruct (merge_all [x61] [[x02]; [x03]] (set_merge_operator append_operator full_store)) as [s' r] eqn:Hm.
  assert (r = Ok ()) as -> by (change r with (s', r).2; rewrite <-Hm; vm_compute; reflexivity).
  exists s'. split; [reflexivity|]. rewrite (proj1 (sled_merge_folds append_operator [x61] [[x02]; [x03]] full_store s' Hm) [x61]). vm_compute. reflexivity.
Defined.

Lemma sled_merge_expired_lost_witness :
  ∃ s' s2, sled_merge [x62] [x03] (set_merge_operator append_operator full_store) = (s', Ok ()) ∧ td_view DEFAULT_TREE (sl_db s') !! [x62] = Some [x02; x03] ∧
    kv_get (10 * 1000000) [x62] s' = (s2, Ok None) ∧ td_view DEFAULT_TREE (sl_db s2) !! [x62] = None.
Proof.
  destruct (sled_merge [x62] [x03] (set_merge_operator append_operator full_store)) as [s' r] eqn:Hm.
  assert (r = Ok ()) as -> by (change r with (s', r).2; rewrite <-Hm; vm_compute; reflexivity).
  assert (expired_key (10 * 1000000) (tree_ttl (sl_db full_store)) [x62] = true) as Hx by (vm_compute; reflexivity).
  destruct (sled_merge_expired_lost (10 * 1000000) [x62] [x03] append_operator full_store s' Hx Hm) as (Hv & s2 & Hg & Hn).
  exists s', s2. split; [reflexivity|]. split; [rewrite Hv; vm_compute; reflexivity|]. split; [exact Hg|exact Hn].
Defined.
End ToySled.
