(* ===== verification/Adapters.v ===== *)
(** * [oxistore-cache/src/write_adapter.rs]: caches in front of a store

    [WriteThroughCache], [WriteBackCache] and [CacheableKvStore] over any store and
    any cache, proved against the contracts [KvLaws] of [Core.v] and [CacheLaws] of
    [Cache.v].  The specification of all three is one map: a trace of calls and
    results is accepted when every successful call answered as the map does and a
    failed call changed nothing.  Every call reads two clocks, the monotonic one of
    the cache ([inst]) and the wall clock of the store ([now]).  The iteration order
    of the dirty [HashSet] is a parameter. *)

From S2P Require Import Prelude Bytes Core KvHistory Hashlink Cache Lru Arc.

(** ** The specification *)
Inductive AdOp := AdGet (k : bytes) | AdPut (k v : bytes) | AdRemove (k : bytes) | AdFlush.
Inductive AdRes := AdValue (o : option bytes) | AdUnit.

Definition ad_abs (op : AdOp) (m : gmap bytes bytes) : gmap bytes bytes * AdRes :=
  match op with
  | AdGet k => (m, AdValue (m !! k))
  | AdPut k v => (<[k:=v]> m, AdUnit)
  | AdRemove k => (delete k m, AdUnit)
  | AdFlush => (m, AdUnit)
  end.

Fixpoint ad_accepts (m : gmap bytes bytes) (trace : list (AdOp * store_result AdRes)) : Prop :=
  match trace with
  | [] => True
  | (op, Ok r) :: trace => (ad_abs op m).2 = r ∧ ad_accepts (ad_abs op m).1 trace
  | (op, Err _) :: trace => ad_accepts m trace
  end.

(** The map after a trace. *)
Fixpoint ad_final (m : gmap bytes bytes) (trace : list (AdOp * store_result AdRes)) : gmap bytes bytes :=
  match trace with
  | [] => m
  | (op, Ok _) :: trace => ad_final (ad_abs op m).1 trace
  | (_, Err _) :: trace => ad_final m trace
  end.

Definition ad_value {A} (f : A → AdRes) (r : store_result A) : store_result AdRes := result_map f r.

(** A script of calls, each with the readings of the two clocks; the wall clock does
    not go back. *)
Fixpoint clock_ok (now : Z) (script : list (Z * Z * AdOp)) : Prop :=
  match script with
  | [] => True
  | (_, t, _) :: script => later now t ∧ clock_ok t script
  end.

(** Running a script with a step function. *)
Fixpoint ad_run {X} (step : Z → Z → AdOp → X → X * store_result AdRes) (script : list (Z * Z * AdOp)) (x : X)
    : X * list (AdOp * store_result AdRes) :=
  match script with
  | [] => (x, [])
  | (inst, now, op) :: script =>
      let '(x, r) := step inst now op x in
      let '(x, trace) := ad_run step script x in (x, (op, r) :: trace)
  end.

(** ** [WriteThroughCache] *)
Section WriteThrough.
Context {S C : Type} `{!KvStore S, !Cache bytes bytes C}.

Record WriteThroughCache := { wt_store : S; wt_cache : C }.

Definition wt_new (store : S) (cache : C) : WriteThroughCache := {| wt_store := store; wt_cache := cache |}.

Definition wt_get (inst now : Z) (key : bytes) (w : WriteThroughCache)
    : WriteThroughCache * store_result (option bytes) :=
  match cache_get inst key (wt_cache w) with
  | (cache, Some v) => ({| wt_store := wt_store w; wt_cache := cache |}, Ok (Some v))
  | (cache, None) =>
      match kv_get now key (wt_store w) with
      | (store, Err e) => ({| wt_store := store; wt_cache := cache |}, Err e)
      | (store, Ok (Some v)) => ({| wt_store := store; wt_cache := (cache_put key v cache).1 |}, Ok (Some v))
      | (store, Ok None) => ({| wt_store := store; wt_cache := cache |}, Ok None)
      end
  end.

Definition wt_put (key v : bytes) (w : WriteThroughCache) : WriteThroughCache * store_result unit :=
  match kv_put key v (wt_store w) with
  | (store, Err e) => ({| wt_store := store; wt_cache := wt_cache w |}, Err e)
  | (store, Ok _) => ({| wt_store := store; wt_cache := (cache_put key v (wt_cache w)).1 |}, Ok ())
  end.

Definition wt_remove (key : bytes) (w : WriteThroughCache) : WriteThroughCache * store_result unit :=
  let cache := (cache_remove key (wt_cache w)).1 in
  match kv_delete key (wt_store w) with
  | (store, Err e) => ({| wt_store := store; wt_cache := cache |}, Err e)
  | (store, Ok _) => ({| wt_store := store; wt_cache := cache |}, Ok ())
  end.

Definition wt_cache_len (w : WriteThroughCache) : nat := cache_len (wt_cache w).

(** The adapter has no [flush]; in a script it is a step that does nothing. *)
Definition wt_step (inst now : Z) (op : AdOp) (w : WriteThroughCache) : WriteThroughCache * store_result AdRes :=
  match op with
  | AdGet k => let '(w, r) := wt_get inst now k w in (w, ad_value AdValue r)
  | AdPut k v => let '(w, r) := wt_put k v w in (w, ad_value (λ _, AdUnit) r)
  | AdRemove k => let '(w, r) := wt_remove k w in (w, ad_value (λ _, AdUnit) r)
  | AdFlush => (w, Ok AdUnit)
  end.
End WriteThrough.
Arguments WriteThroughCache : clear implicits.

(** ** [WriteBackCache] *)
Section WriteBack.
Context {S C : Type} `{!KvStore S, !Cache bytes bytes C} (dirty_iter : gset bytes → list bytes).

Record WriteBackCache := { wb_store : S; wb_cache : C; wb_dirty : gset bytes }.

Definition wb_new (store : S) (cache : C) : WriteBackCache :=
  {| wb_store := store; wb_cache := cache; wb_dirty := ∅ |}.

Definition wb_dirty_count (w : WriteBackCache) : nat := size (wb_dirty w).

(** [for key in keys { if let Some(val) = self.cache.peek(&key) { self.store.put(&key, val)?; } }] *)
Fixpoint wb_flush_keys (inst : Z) (keys : list bytes) (cache : C) (store : S) : S * store_result unit :=
  match keys with
  | [] => (store, Ok ())
  | key :: keys =>
      match cache_peek inst key cache with
      | Some val => st_bind (kv_put key val) (λ _, wb_flush_keys inst keys cache) store
      | None => wb_flush_keys inst keys cache store
      end
  end.

Definition wb_set_store (store : S) (w : WriteBackCache) : WriteBackCache :=
  {| wb_store := store; wb_cache := wb_cache w; wb_dirty := wb_dirty w |}.

Definition wb_flush_if_eviction_imminent (inst : Z) (incoming_key : bytes) (w : WriteBackCache)
    : WriteBackCache * store_result unit :=
  if cache_contains_key inst incoming_key (wb_cache w) then (w, Ok ())
  else if bool_decide (cache_len (wb_cache w) < cache_cap (wb_cache w)) then (w, Ok ())
  else
    let '(store, r) := wb_flush_keys inst (dirty_iter (wb_dirty w)) (wb_cache w) (wb_store w) in
    (wb_set_store store w, r).

Definition wb_get (inst now : Z) (key : bytes) (w : WriteBackCache)
    : WriteBackCache * store_result (option bytes) :=
  match cache_get inst key (wb_cache w) with
  | (cache, Some v) => ({| wb_store := wb_store w; wb_cache := cache; wb_dirty := wb_dirty w |}, Ok (Some v))
  | (cache, None) =>
      let '(store, r) := kv_get now key (wb_store w) in
      ({| wb_store := store; wb_cache := cache; wb_dirty := wb_dirty w |}, r)
  end.

Definition wb_put (inst : Z) (key v : bytes) (w : WriteBackCache) : WriteBackCache * store_result unit :=
  match wb_flush_if_eviction_imminent inst key w with
  | (w, Err e) => (w, Err e)
  | (w, Ok _) =>
      ({| wb_store := wb_store w; wb_cache := (cache_put key v (wb_cache w)).1;
          wb_dirty := {[key]} ∪ wb_dirty w |}, Ok ())
  end.

Definition wb_remove (key : bytes) (w : WriteBackCache) : WriteBackCache * store_result unit :=
  let cache := (cache_remove key (wb_cache w)).1 in
  let dirty := wb_dirty w ∖ {[key]} in
  match kv_delete key (wb_store w) with
  | (store, Err e) => ({| wb_store := store; wb_cache := cache; wb_dirty := dirty |}, Err e)
  | (store, Ok _) => ({| wb_store := store; wb_cache := cache; wb_dirty := dirty |}, Ok ())
  end.

Definition wb_flush (inst : Z) (w : WriteBackCache) : WriteBackCache * store_result unit :=
  match wb_flush_keys inst (dirty_iter (wb_dirty w)) (wb_cache w) (wb_store w) with
  | (store, Err e) => (wb_set_store store w, Err e)
  | (store, Ok _) => ({| wb_store := store; wb_cache := wb_cache w; wb_dirty := ∅ |}, Ok ())
  end.

Definition wb_step (inst now : Z) (op : AdOp) (w : WriteBackCache) : WriteBackCache * store_result AdRes :=
  match op with
  | AdGet k => let '(w, r) := wb_get inst now k w in (w, ad_value AdValue r)
  | AdPut k v => let '(w, r) := wb_put inst k v w in (w, ad_value (λ _, AdUnit) r)
  | AdRemove k => let '(w, r) := wb_remove k w in (w, ad_value (λ _, AdUnit) r)
  | AdFlush => let '(w, r) := wb_flush inst w in (w, ad_value (λ _, AdUnit) r)
  end.
End WriteBack.
Arguments WriteBackCache : clear implicits.

(** ** [CacheableKvStore] *)
Section Cacheable.
Context {S C : Type} `{!KvStore S, !Cache bytes bytes C}.

Record CacheableKvStore := { ck_store : S; ck_cache : C; ck_poisoned : bool }.

Definition ck_new (store : S) (cache : C) : CacheableKvStore :=
  {| ck_store := store; ck_cache := cache; ck_poisoned := false |}.

Definition ck_set_store (store : S) (x : CacheableKvStore) : CacheableKvStore :=
  {| ck_store := store; ck_cache := ck_cache x; ck_poisoned := ck_poisoned x |}.
Definition ck_set_cache (cache : C) (x : CacheableKvStore) : CacheableKvStore :=
  {| ck_store := ck_store x; ck_cache := cache; ck_poisoned := ck_poisoned x |}.

(** One critical section on the cache, [self.cache.lock().map_err(..)?]. *)
Definition ck_locked {A} (f : C → C * A) (x : CacheableKvStore) : CacheableKvStore * store_result A :=
  if ck_poisoned x then (x, Err (Other "cache lock poisoned: poisoned lock: another task failed inside"))
  else let '(cache, a) := f (ck_cache x) in (ck_set_cache cache x, Ok a).

(** The three phases of [get]: the lookup, the read of the store without the lock,
    and the insertion of what was read. *)
Definition ck_lookup (inst : Z) (key : bytes) (x : CacheableKvStore) : CacheableKvStore * store_result (option bytes) :=
  ck_locked (cache_get inst key) x.

Definition ck_fetch (now : Z) (key : bytes) (x : CacheableKvStore) : CacheableKvStore * store_result (option bytes) :=
  let '(store, r) := kv_get now key (ck_store x) in (ck_set_store store x, r).

Definition ck_fill (key : bytes) (from_store : option bytes) (x : CacheableKvStore)
    : CacheableKvStore * store_result (option bytes) :=
  match from_store with
  | Some v => st_bind (ck_locked (cache_put key v)) (λ _ x, (x, Ok from_store)) x
  | None => (x, Ok from_store)
  end.

(** [get], with what other threads do between the read of the store and the
    insertion. *)
Definition ck_get_interleaved (inst now : Z) (key : bytes) (interference : CacheableKvStore → CacheableKvStore)
    : CacheableKvStore → CacheableKvStore * store_result (option bytes) :=
  let* cached := ck_lookup inst key in
  match cached with
  | Some v => λ x, (x, Ok (Some v))
  | None => let* from_store := ck_fetch now key in λ x, ck_fill key from_store (interference x)
  end.

Definition ck_get (inst now : Z) (key : bytes) : CacheableKvStore → CacheableKvStore * store_result (option bytes) :=
  let* cached := ck_lookup inst key in
  match cached with
  | Some v => λ x, (x, Ok (Some v))
  | None => let* from_store := ck_fetch now key in ck_fill key from_store
  end.

(** [put] and [delete]: the store first, then the invalidation. *)
Definition ck_write (f : S → S * store_result unit) (key : bytes) : CacheableKvStore → CacheableKvStore * store_result unit :=
  let* _ := (λ x, let '(store, r) := f (ck_store x) in (ck_set_store store x, r)) in
  let* _ := ck_locked (cache_remove key) in
  λ x, (x, Ok ()).

Definition ck_put (key v : bytes) := ck_write (kv_put key v) key.
Definition ck_delete (key : bytes) := ck_write (kv_delete key) key.

(** The other methods delegate to the store; the transaction of the store does not
    know the cache.  The two clocks are read together. *)
#[global] Instance ck_kv : KvStore CacheableKvStore := {|
  kv_get now k := ck_get now now k;
  kv_put := ck_put;
  kv_delete := ck_delete;
  kv_contains := contains_default (λ now k, ck_get now now k);
  kv_range now lo hi x := kv_range now lo hi (ck_store x);
  kv_iter now x := kv_iter now (ck_store x);
  kv_Txn := kv_Txn (S:=S);
  kv_transaction x := kv_transaction (ck_store x);
  txn_get := txn_get (S:=S);
  txn_put := txn_put (S:=S);
  txn_delete := txn_delete (S:=S);
  txn_commit t x := let '(store, r) := txn_commit t (ck_store x) in (ck_set_store store x, r);
  txn_rollback t x := let '(store, r) := txn_rollback t (ck_store x) in (ck_set_store store x, r);
|}.

(** [flush] goes to the store; it changes no entry. *)
Definition ck_step (inst now : Z) (op : AdOp) (x : CacheableKvStore) : CacheableKvStore * store_result AdRes :=
  match op with
  | AdGet k => let '(x, r) := ck_get inst now k x in (x, ad_value AdValue r)
  | AdPut k v => let '(x, r) := ck_put k v x in (x, ad_value (λ _, AdUnit) r)
  | AdRemove k => let '(x, r) := ck_delete k x in (x, ad_value (λ _, AdUnit) r)
  | AdFlush => (x, Ok AdUnit)
  end.
End Cacheable.
Arguments CacheableKvStore : clear implicits.

(** ** A step that simulates the map gives traces the map accepts *)
Section Simulation.
Context {X : Type} (step : Z → Z → AdOp → X → X * store_result AdRes) (rel : Z → X → gmap bytes bytes → Prop).
Context (ok_event : AdOp * store_result AdRes → Prop).
Hypothesis rel_later : ∀ now t x m, rel now x m → later now t → rel t x m.
Hypothesis rel_step : ∀ inst now op x x' r m, rel now x m → step inst now op x = (x', r) → ok_event (op, r) →
  match r with
  | Ok a => (ad_abs op m).2 = a ∧ rel now x' (ad_abs op m).1
  | Err _ => rel now x' m
  end.

Lemma ad_run_simulates now script x m x' trace :
  rel now x m → clock_ok now script → ad_run step script x = (x', trace) → Forall ok_event trace →
  ad_accepts m trace ∧ ∃ now', rel now' x' (ad_final m trace).
Proof.
  revert now x m x' trace. induction script as [|[[inst t] op] script IH]; intros now x m x' trace Hrel Hck Hrun Hev.
  { injection Hrun as <- <-. simpl. eauto. }
  simpl in Hrun, Hck. destruct Hck as [Hlt Hck]. destruct (step inst t op x) as [x1 r] eqn:Es.
  destruct (ad_run step script x1) as [x2 tr] eqn:Er. injection Hrun as <- <-. apply Forall_cons in Hev as [Hop Hev].
  pose proof (rel_step inst t op x x1 r m (rel_later _ _ _ _ Hrel Hlt) Es Hop) as Hs.
  destruct r as [a|e]; simpl.
  - destruct Hs as [Ha Hrel1]. destruct (IH _ _ _ _ _ Hrel1 Hck Er Hev). by split_and!.
  - by apply (IH _ _ _ _ _ Hs Hck Er Hev).
Qed.
End Simulation.

(** ** Read-through coherence: the cache holds only what the store holds *)
Section Coherence.
Context {C : Type} `{!Cache bytes bytes C, !CacheWf C, !CacheLaws bytes bytes C}.
Implicit Types (c : C) (m : gmap bytes bytes).

Definition coherent_with (m : gmap bytes bytes) (c : C) : Prop :=
  cache_wf c ∧ ∀ i k v, cache_peek i k c = Some v → m !! k = Some v.

Lemma coherent_get m c c' inst k r :
  coherent_with m c → cache_get inst k c = (c', r) →
  coherent_with m c' ∧ ∀ v, r = Some v → m !! k = Some v.
Proof.
  intros [Hwf Hc] Hg. split.
  - split; [by pose proof (cache_get_wf inst k c Hwf) as Hw; rewrite Hg in Hw|].
    intros i k' v Hv. apply (Hc i). apply (cache_get_sub inst i k k' c v Hwf). by rewrite Hg.
  - intros v ->. apply (Hc inst). apply cache_get_hit; [done|]. by rewrite Hg.
Qed.

Lemma coherent_put m c k v : coherent_with m c → coherent_with (<[k:=v]> m) (cache_put k v c).1.
Proof.
  intros [Hwf Hc]. split; [by apply cache_put_wf|]. intros i k' v' Hv.
  destruct (cache_put_sub i k v k' v' c Hwf Hv) as [[-> ->]|[Hne Hv']].
  - apply lookup_insert_eq.
  - rewrite lookup_insert_ne by done. eauto.
Qed.

Lemma coherent_remove m m' c k :
  coherent_with m c → (∀ k', k' ≠ k → m' !! k' = m !! k') → coherent_with m' (cache_remove k c).1.
Proof.
  intros [Hwf Hc] Hm. split; [by apply cache_remove_wf|]. intros i k' v' Hv.
  destruct (cache_remove_peek i k k' c Hwf) as [H1 H2]. destruct (decide (k' = k)) as [->|Hne].
  - by rewrite H1 in Hv.
  - rewrite H2 in Hv by done. rewrite Hm by done. eauto.
Qed.
End Coherence.

Section WriteThroughTheory.
Context {S C : Type} `{!KvStore S, !KvView S, !KvLaws S}.
Context `{!Cache bytes bytes C, !CacheWf C, !CacheLaws bytes bytes C}.

Definition wt_rel (now : Z) (w : WriteThroughCache S C) (m : gmap bytes bytes) : Prop :=
  kv_settled now (wt_store w) m ∧ coherent_with m (wt_cache w).

Lemma wt_rel_step inst now op (w w' : WriteThroughCache S C) r m :
  wt_rel now w m → wt_step inst now op w = (w', r) →
  match r with
  | Ok a => (ad_abs op m).2 = a ∧ wt_rel now w' (ad_abs op m).1
  | Err _ => wt_rel now w' m
  end.
Proof.
  intros [Hs Hc]. destruct op as [k|k v|k|]; simpl.
  - unfold wt_get. destruct (cache_get inst k (wt_cache w)) as [c' [v|]] eqn:Eg.
    + intros [= <- <-]. destruct (coherent_get _ _ _ _ _ _ Hc Eg) as [? Hv]. simpl. by rewrite (Hv v).
    + destruct (coherent_get _ _ _ _ _ _ Hc Eg) as [Hc' _].
      destruct (kv_get now k (wt_store w)) as [s' [[v|]|e]] eqn:Ek; intros [= <- <-];
        destruct (settled_get _ _ _ _ _ _ Hs Ek) as [Hs' Hv]; simpl.
      * rewrite <-(Hv (Some v)) by done. split; [done|]. split; [done|]. simpl.
        rewrite <-(insert_id m k v) by (by rewrite <-(Hv (Some v))). by apply coherent_put.
      * rewrite <-(Hv None) by done. by split.
      * by split.
  - unfold wt_put. destruct (kv_put k v (wt_store w)) as [s' [[]|e]] eqn:Ep; intros [= <- <-]; simpl.
    + split; [done|]. split; [by apply (settled_put _ _ _ _ _ _ _ Hs Ep)|by apply coherent_put].
    + split; [by apply (settled_put _ _ _ _ _ _ _ Hs Ep)|done].
  - unfold wt_remove. destruct (kv_delete k (wt_store w)) as [s' [[]|e]] eqn:Ed; intros [= <- <-]; simpl.
    + split; [done|]. split; [by apply (settled_delete _ _ _ _ _ _ Hs Ed)|].
      eapply coherent_remove; [done|]. intros k' ?. by rewrite lookup_delete_ne.
    + split; [by apply (settled_delete _ _ _ _ _ _ Hs Ed)|]. by eapply coherent_remove.
  - by intros [= <- <-].
Qed.

(** A write-through cache over any store and any cache behaves as one map:
    for a store whose entries carry no pending deadline and a cache that starts
    empty, every successful call of every history answers as the map does, and a
    call the store fails leaves the map as it was; at the end the store itself
    holds the map. *)
Theorem write_through_refines_map now script (s : S) (c : C) m w' trace :
  kv_settled now s m → cache_wf c → (∀ i k, cache_peek i k c = None) → clock_ok now script →
  ad_run wt_step script (wt_new s c) = (w', trace) →
  ad_accepts m trace ∧ ∃ now', kv_settled now' (wt_store w') (ad_final m trace).
Proof.
  intros Hs Hwf He Hck Hrun.
  destruct (ad_run_simulates wt_step wt_rel (λ _, True)) with (1:=λ n t w m (H : wt_rel n w m) Ht,
    conj (settled_later n t (wt_store w) m (proj1 H) Ht) (proj2 H)) (now:=now) (script:=script) (x:=wt_new s c)
    (m:=m) (x':=w') (trace:=trace) as [Ha (now' & [Hs' _])]; try done.
  - intros. by eapply wt_rel_step.
  - split; [done|]. split; [done|]. intros i k v. by rewrite He.
  - by apply Forall_true.
  - eauto.
Qed.
End WriteThroughTheory.

Section WriteBackTheory.
Context {S C : Type} `{!KvStore S, !KvView S, !KvLaws S}.
Context `{!Cache bytes bytes C, !CacheWf C, !CacheLaws bytes bytes C, !CacheRetains bytes bytes C, !CacheLossless bytes bytes C}.
Context (dirty_iter : gset bytes → list bytes).
Implicit Types (w : WriteBackCache S C) (c : C) (sm m : gmap bytes bytes).

(** The store's map under the cached entries. *)
Definition over_store (inst : Z) (c : C) (sm : gmap bytes bytes) (k : bytes) : option bytes :=
  match cache_peek inst k c with Some v => Some v | None => sm !! k end.

(** What the adapter keeps: cached entries are dirty or in the store. *)
Record wb_state (now : Z) (w : WriteBackCache S C) (m sm : gmap bytes bytes) : Prop := {
  wbs_settled : kv_settled now (wb_store w) sm;
  wbs_wf : cache_wf (wb_cache w);
  wbs_timeless : cache_timeless (wb_cache w);
  wbs_map i k : over_store i (wb_cache w) sm k = m !! k;
  wbs_clean i k v : cache_peek i k (wb_cache w) = Some v → k ∈ wb_dirty w ∨ sm !! k = Some v;
}.

Definition wb_rel (now : Z) (w : WriteBackCache S C) (m : gmap bytes bytes) : Prop := ∃ sm, wb_state now w m sm.

(** Writing cached values to the store, in any order and up to any failure, keeps
    the overlay; a complete pass puts all of them there. *)
Lemma wb_flush_keys_spec now inst keys c (s s' : S) r sm :
  kv_settled now s sm → wb_flush_keys inst keys c s = (s', r) →
  ∃ sm', kv_settled now s' sm' ∧
    (∀ k, sm' !! k = sm !! k ∨ (is_Some (cache_peek inst k c) ∧ sm' !! k = cache_peek inst k c)) ∧
    (r = Ok () → ∀ k v, k ∈ keys → cache_peek inst k c = Some v → sm' !! k = Some v).
Proof.
  revert s sm. induction keys as [|key keys IH]; intros s sm Hs; simpl.
  { intros [= <- <-]. exists sm. split_and!; [done|by left|]. intros _ k v Hk. by apply not_elem_of_nil in Hk. }
  destruct (cache_peek inst key c) as [val|] eqn:Ep; last first.
  { intros Hf. destruct (IH s sm Hs Hf) as (sm' & ? & ? & Hall). exists sm'. split_and!; try done.
    intros Hr k v [->|Hk]%elem_of_cons Hv; [congruence|eauto]. }
  unfold st_bind. destruct (kv_put key val s) as [s1 [[]|e]] eqn:Eput.
  - intros Hf. pose proof (settled_put _ _ _ _ _ _ _ Hs Eput) as Hs1. simpl in Hs1.
    destruct (IH s1 _ Hs1 Hf) as (sm' & Hs' & Hk & Hall).
    assert (sm' !! key = Some val) as Hkey by (destruct (Hk key) as [->|[_ ->]]; [apply lookup_insert_eq|done]).
    exists sm'. split_and!; [done| |].
    + intros k. destruct (decide (k = key)) as [->|Hne]; [right; rewrite Ep; eauto|].
      destruct (Hk k) as [H1|?]; [left; by rewrite H1, lookup_insert_ne|by right].
    + intros Hr k v [->|Hin]%elem_of_cons Hv; [congruence|eauto].
  - intros [= <- <-]. exists sm. pose proof (settled_put _ _ _ _ _ _ _ Hs Eput). split_and!; [done|by left|done].
Qed.

Lemma flush_over_store inst c sm sm' k :
  (∀ k, sm' !! k = sm !! k ∨ (is_Some (cache_peek inst k c) ∧ sm' !! k = cache_peek inst k c)) →
  over_store inst c sm' k = over_store inst c sm k.
Proof. intros H. unfold over_store. destruct (cache_peek inst k c) eqn:E; [done|]. destruct (H k) as [|[[]]]; congruence. Qed.

Context (dirty_iter_spec : ∀ X k, k ∈ dirty_iter X ↔ k ∈ X).

(** The state after a flush of the dirty keys, complete or not. *)
Lemma wb_flush_state now inst w (s' : S) r m sm :
  wb_state now w m sm → wb_flush_keys inst (dirty_iter (wb_dirty w)) (wb_cache w) (wb_store w) = (s', r) →
  ∃ sm', wb_state now (wb_set_store s' w) m sm' ∧
    (r = Ok () → ∀ i k v, cache_peek i k (wb_cache w) = Some v → sm' !! k = Some v).
Proof.
  intros [Hs Hwf Ht Hm Hcl] Hf. destruct (wb_flush_keys_spec _ _ _ _ _ _ _ _ Hs Hf) as (sm' & Hs' & Hk & Hall).
  assert (∀ i k v, cache_peek i k (wb_cache w) = Some v → cache_peek inst k (wb_cache w) = Some v) as Hi
    by (intros i k v; by rewrite (Ht inst i)).
  exists sm'. split.
  - split; simpl; [done|done|done| |].
    + intros i k. rewrite <-(Hm i). unfold over_store. rewrite (Ht i inst). by apply flush_over_store.
    + intros i k v Hv. destruct (Hcl i k v Hv) as [|Hsm]; [by left|]. right.
      destruct (Hk k) as [->|[_ ->]]; [done|by eapply Hi].
  - intros Hr i k v Hv. destruct (Hcl i k v Hv) as [Hd|Hsm].
    + apply Hall; [done|by apply dirty_iter_spec|by eapply Hi].
    + destruct (Hk k) as [->|[_ ->]]; [done|by eapply Hi].
Qed.

(** Inserting when nothing is lost: there is room, or the store holds the rest. *)
Lemma wb_insert_state now inst k v w m sm :
  wb_state now w m sm →
  (cache_contains_key inst k (wb_cache w) = true ∨ cache_len (wb_cache w) < cache_cap (wb_cache w)) ∨
  (∀ i k v, cache_peek i k (wb_cache w) = Some v → sm !! k = Some v) →
  wb_state now {| wb_store := wb_store w; wb_cache := (cache_put k v (wb_cache w)).1; wb_dirty := {[k]} ∪ wb_dirty w |}
    (<[k:=v]> m) sm.
Proof.
  intros [Hs Hwf Ht Hm Hcl] Hsafe. split; simpl; [done|by apply cache_put_wf|by apply cache_put_timeless| |].
  - intros i k'. unfold over_store. destruct (decide (k' = k)) as [->|Hne].
    { by rewrite cache_put_peek, lookup_insert_eq. }
    rewrite lookup_insert_ne by done. destruct Hsafe as [Hroom|Hall].
    + assert (cache_contains_key i k (wb_cache w) = true ∨ cache_len (wb_cache w) < cache_cap (wb_cache w)) as Hroom'.
      { destruct Hroom as [Hin|?]; [left|by right]. revert Hin. rewrite !cache_contains_key_peek by done. by rewrite (Ht i inst). }
      rewrite cache_put_room by done. apply Hm.
    + destruct (cache_peek i k' (cache_put k v (wb_cache w)).1) as [v'|] eqn:E.
      * destruct (cache_put_sub i k v k' v' _ Hwf E) as [[]|[_ Hv]]; [done|]. rewrite <-(Hm i). unfold over_store. by rewrite Hv.
      * rewrite <-(Hm i). unfold over_store. destruct (cache_peek i k' (wb_cache w)) eqn:E'; [eauto|done].
  - intros i k' v' Hv. destruct (cache_put_sub i k v k' v' _ Hwf Hv) as [[-> _]|[_ Hv']]; [left; set_solver|].
    destruct (Hcl i k' v' Hv'); [left; set_solver|by right].
Qed.

Lemma wb_put_rel now inst k v w w' r m :
  wb_rel now w m → wb_put dirty_iter inst k v w = (w', r) →
  wb_rel now w' (match r with Ok _ => <[k:=v]> m | Err _ => m end).
Proof.
  intros [sm Hst]. unfold wb_put, wb_flush_if_eviction_imminent.
  destruct (cache_contains_key inst k (wb_cache w)) eqn:Ek.
  { intros [= <- <-]. exists sm. eapply wb_insert_state; [done|]. left. by left. }
  case_bool_decide as Hlen.
  { intros [= <- <-]. exists sm. eapply (wb_insert_state now inst); [done|]. left. by right. }
  destruct (wb_flush_keys _ _ _ _) as [s' [[]|e]] eqn:Ef; intros [= <- <-];
    destruct (wb_flush_state _ _ _ _ _ _ _ Hst Ef) as (sm' & Hst' & Hall); exists sm'; [|done].
  apply (wb_insert_state now inst k v (wb_set_store s' w) m sm' Hst'). right. by apply Hall.
Qed.

Lemma wb_rel_step inst now op w w' r m :
  wb_rel now w m → wb_step dirty_iter inst now op w = (w', r) → (∀ k e, (op, r) ≠ (AdRemove k, Err e)) →
  match r with
  | Ok a => (ad_abs op m).2 = a ∧ wb_rel now w' (ad_abs op m).1
  | Err _ => wb_rel now w' m
  end.
Proof.
  intros Hrel. destruct op as [k|k v|k|]; simpl.
  - destruct Hrel as [sm [Hs Hwf Ht Hm Hcl]]. unfold wb_get.
    assert (∀ i k', (cache_get inst k (wb_cache w)).2 = cache_peek i k (wb_cache w) ∧
      cache_peek i k' (cache_get inst k (wb_cache w)).1 = cache_peek i k' (wb_cache w)) as Hg
      by (intros i k'; by apply cache_get_exact).
    pose proof (cache_get_wf inst k _ Hwf) as Hwf'.
    destruct (cache_get inst k (wb_cache w)) as [c' o] eqn:Eg. cbn [fst snd] in *.
    assert (∀ s', kv_settled now s' sm →
      wb_state now {| wb_store := s'; wb_cache := c'; wb_dirty := wb_dirty w |} m sm) as Hst.
    { intros s' Hs'. split; simpl; [done|done| | |].
      - intros i i' k'. destruct (Hg i k') as [_ ->]. destruct (Hg i' k') as [_ ->]. apply Ht.
      - intros i k'. unfold over_store. destruct (Hg i k') as [_ ->]. apply Hm.
      - intros i k' v. destruct (Hg i k') as [_ ->]. apply Hcl. }
    destruct (Hg inst k) as [Ho _]. destruct o as [v|].
    + intros [= <- <-] _. simpl. split; [|exists sm; by apply Hst]. rewrite <-(Hm inst k). unfold over_store. by rewrite <-Ho.
    + destruct (kv_get now k (wb_store w)) as [s' r'] eqn:Ek. intros [= <- <-] _.
      destruct (settled_get _ _ _ _ _ _ Hs Ek) as [Hs' Hv]. destruct r' as [o|e]; simpl; [|exists sm; by apply Hst].
      split; [|exists sm; by apply Hst]. rewrite <-(Hm inst k). unfold over_store. rewrite <-Ho. by rewrite (Hv o).
  - destruct (wb_put dirty_iter inst k v w) as [w1 r1] eqn:Ep. intros [= <- <-] _.
    pose proof (wb_put_rel _ _ _ _ _ _ _ _ Hrel Ep) as H1. by destruct r1 as [[]|e].
  - destruct Hrel as [sm [Hs Hwf Ht Hm Hcl]]. unfold wb_remove.
    destruct (kv_delete k (wb_store w)) as [s' [[]|e]] eqn:Ed; intros [= <- <-] Hok; [|by destruct (Hok k e)].
    simpl. split; [done|]. exists (delete k sm). pose proof (settled_delete _ _ _ _ _ _ Hs Ed) as Hs'.
    assert (∀ i k', cache_peek i k' (cache_remove k (wb_cache w)).1 =
      if decide (k' = k) then None else cache_peek i k' (wb_cache w)) as Hrm.
    { intros i k'. destruct (cache_remove_peek i k k' _ Hwf) as [H1 H2]. case_decide; auto. }
    split; simpl; [done|by apply cache_remove_wf| | |].
    + intros i i' k'. rewrite !Hrm. case_decide; [done|apply Ht].
    + intros i k'. unfold over_store. rewrite Hrm. case_decide as Hk; [subst; by rewrite !lookup_delete_eq|].
      rewrite !lookup_delete_ne by done. apply Hm.
    + intros i k' v. rewrite Hrm. case_decide as Hk; [done|]. intros Hv.
      rewrite lookup_delete_ne by done. destruct (Hcl i k' v Hv); [left; set_solver|by right].
  - destruct Hrel as [sm Hst]. unfold wb_flush. destruct (wb_flush_keys _ _ _ _) as [s' [[]|e]] eqn:Ef; intros [= <- <-] _;
      destruct (wb_flush_state _ _ _ _ _ _ _ Hst Ef) as (sm' & Hst' & Hall); simpl; [split; [done|]|by exists sm'].
    exists sm'. destruct Hst' as [? ? ? ? ?]. split; simpl; try done. intros i k v Hv. right. by eapply Hall.
Qed.

Lemma wb_rel_later now t w m : wb_rel now w m → later now t → wb_rel t w m.
Proof. intros [sm [? ? ? ? ?]] Ht. exists sm. split; try done. by eapply settled_later. Qed.

Lemma wb_new_rel now (s : S) c m :
  kv_settled now s m → cache_wf c → (∀ i k, cache_peek i k c = None) → wb_rel now (wb_new s c) m.
Proof.
  intros Hs Hwf He. exists m. split; simpl; try done.
  - intros i i' k. by rewrite !He.
  - intros i k. unfold over_store. by rewrite He.
  - intros i k v. by rewrite He.
Qed.

(** C6: A write-back cache over any store, with a cache that evicts only when it
    is full and never on a lookup, loses no acknowledged write, in whatever order
    the dirty keys are flushed: as long as no removal is failed by the store,
    every successful call of every history answers as one map does, and a failed
    call changes nothing; and a successful [flush] at the end leaves exactly that
    map in the store. *)
Theorem write_back_refines_map now script (s : S) c m w' trace :
  kv_settled now s m → cache_wf c → (∀ i k, cache_peek i k c = None) → clock_ok now script →
  ad_run (wb_step dirty_iter) script (wb_new s c) = (w', trace) →
  Forall (λ ev, ∀ k e, ev ≠ (AdRemove k, Err e)) trace →
  ad_accepts m trace ∧
  ∀ inst w'', wb_flush dirty_iter inst w' = (w'', Ok ()) →
    wb_dirty w'' = ∅ ∧ ∃ now', kv_settled now' (wb_store w'') (ad_final m trace).
Proof.
  intros Hs Hwf He Hck Hrun Hok.
  destruct (ad_run_simulates (wb_step dirty_iter) wb_rel (λ ev, ∀ k e, ev ≠ (AdRemove k, Err e)) wb_rel_later
    (λ inst now op x x' r m H1 H2 H3, wb_rel_step inst now op x x' r m H1 H2 H3) now script (wb_new s c) m w' trace)
    as [Ha (now' & sm & Hst)]; [by apply wb_new_rel|done..|].
  split; [done|]. intros inst w''. unfold wb_flush.
  destruct (wb_flush_keys _ _ _ _) as [s' [[]|e]] eqn:Ef; intros [= <-].
  destruct (wb_flush_state _ _ _ _ _ _ _ Hst Ef) as (sm' & [Hs' _ _ Hm _] & Hall). split; [done|]. exists now'.
  simpl in *. intros t Ht. rewrite (Hs' t Ht). apply map_eq. intros k. rewrite <-(Hm inst k). unfold over_store.
  destruct (cache_peek inst k (wb_cache w')) as [v|] eqn:E; [by eapply Hall|done].
Qed.
End WriteBackTheory.

Section CacheableTheory.
Context {S C : Type} `{!KvStore S, !KvView S, !KvLaws S}.
Context `{!Cache bytes bytes C, !CacheWf C, !CacheLaws bytes bytes C}.
Implicit Types (x : CacheableKvStore S C).

Definition ck_rel (now : Z) (x : CacheableKvStore S C) (m : gmap bytes bytes) : Prop :=
  kv_settled now (ck_store x) m ∧ coherent_with m (ck_cache x) ∧ ck_poisoned x = false.

Lemma ck_write_rel f key now x x' r m m' :
  ck_rel now x m → ck_write f key x = (x', r) →
  (∀ s' r', f (ck_store x) = (s', r') → kv_settled now s' (match r' with Ok _ => m' | Err _ => m end)) →
  (∀ k, k ≠ key → m' !! k = m !! k) →
  ck_rel now x' (match r with Ok _ => m' | Err _ => m end).
Proof.
  intros (Hs & Hc & Hp) Hw Hf Hm. unfold ck_write, ck_locked, st_bind in Hw.
  destruct (f (ck_store x)) as [s' [[]|e]] eqn:Ef; cbn in Hw.
  - rewrite Hp in Hw. destruct (cache_remove key (ck_cache x)) as [c' o] eqn:Er. injection Hw as <- <-.
    split_and!; simpl; [by apply (Hf _ _ eq_refl)| |done].
    pose proof (coherent_remove m m' _ key Hc Hm) as H. by rewrite Er in H.
  - injection Hw as <- <-. split_and!; simpl; [by apply (Hf _ _ eq_refl)|done|done].
Qed.

Lemma ck_get_rel inst now k x x' r m :
  ck_rel now x m → ck_get inst now k x = (x', r) → ck_rel now x' m ∧ ∀ o, r = Ok o → o = m !! k.
Proof.
  intros (Hs & Hc & Hp). unfold ck_get, ck_lookup, ck_locked, ck_fetch, ck_fill, st_bind. rewrite Hp.
  destruct (cache_get inst k (ck_cache x)) as [c' o] eqn:Eg. destruct (coherent_get _ _ _ _ _ _ Hc Eg) as [Hc' Hv].
  destruct o as [v|].
  { intros [= <- <-]. split; [by split_and!|]. intros o [= <-]. symmetry. by apply Hv. }
  simpl. destruct (kv_get now k (ck_store x)) as [s' [o|e]] eqn:Ek;
    destruct (settled_get _ _ _ _ _ _ Hs Ek) as [Hs' Ho]; [|intros [= <- <-]; by split].
  specialize (Ho o eq_refl). destruct o as [v|]; [|intros [= <- <-]; split; [by split_and!|by intros o [= <-]]].
  unfold ck_locked. simpl. rewrite Hp. destruct (cache_put k v c') as [c'' old] eqn:Ep.
  intros [= <- <-]. split; [|by intros o [= <-]]. split_and!; simpl; [done| |done].
  pose proof (coherent_put m c' k v Hc') as H. rewrite Ep in H. by rewrite (insert_id m k v) in H.
Qed.

Lemma ck_rel_step inst now op x x' r m :
  ck_rel now x m → ck_step inst now op x = (x', r) →
  match r with
  | Ok a => (ad_abs op m).2 = a ∧ ck_rel now x' (ad_abs op m).1
  | Err _ => ck_rel now x' m
  end.
Proof.
  intros Hrel. pose proof Hrel as (Hs & _). destruct op as [k|k v|k|]; simpl.
  - destruct (ck_get inst now k x) as [x1 r1] eqn:Eg. intros [= <- <-].
    destruct (ck_get_rel _ _ _ _ _ _ _ Hrel Eg) as [H1 Ho]. destruct r1 as [o|e]; simpl; [|done].
    by rewrite (Ho o eq_refl).
  - unfold ck_put. destruct (ck_write _ k x) as [x1 r1] eqn:Ew. intros [= <- <-].
    pose proof (ck_write_rel _ _ _ _ _ _ m (<[k:=v]> m) Hrel Ew) as H1.
    assert (ck_rel now x1 match r1 with Ok _ => <[k:=v]> m | Err _ => m end) as H2.
    { apply H1; [intros s' r' Hp; by apply (settled_put _ _ _ _ _ _ _ Hs Hp)|]. intros k' ?. by rewrite lookup_insert_ne. }
    by destruct r1 as [[]|e].
  - unfold ck_delete. destruct (ck_write _ k x) as [x1 r1] eqn:Ew. intros [= <- <-].
    pose proof (ck_write_rel _ _ _ _ _ _ m (delete k m) Hrel Ew) as H1.
    assert (ck_rel now x1 match r1 with Ok _ => delete k m | Err _ => m end) as H2.
    { apply H1; [intros s' r' Hp; by apply (settled_delete _ _ _ _ _ _ Hs Hp)|]. intros k' ?. by rewrite lookup_delete_ne. }
    by destruct r1 as [[]|e].
  - by intros [= <- <-].
Qed.

(** Used by one thread at a time and only through [get], [put] and [delete], a
    caching store over any store and any cache behaves as one map: every
    successful call answers as the map does and a failed call changes nothing;
    at the end the inner store holds the map. *)
Theorem cacheable_refines_map now script (s : S) (c : C) m x' trace :
  kv_settled now s m → cache_wf c → (∀ i k, cache_peek i k c = None) → clock_ok now script →
  ad_run ck_step script (ck_new s c) = (x', trace) →
  ad_accepts m trace ∧ ∃ now', kv_settled now' (ck_store x') (ad_final m trace).
Proof.
  intros Hs Hwf He Hck Hrun.
  destruct (ad_run_simulates ck_step ck_rel (λ _, True)) with (1:=λ n t x m (H : ck_rel n x m) Ht,
    conj (settled_later n t (ck_store x) m (proj1 H) Ht) (proj2 H)) (now:=now) (script:=script) (x:=ck_new s c)
    (m:=m) (x':=x') (trace:=trace) as [Ha (now' & [Hs' _])]; try done.
  - intros. by eapply ck_rel_step.
  - split_and!; [done|split; [done|]|done]. intros i k v. by rewrite He.
  - by apply Forall_true.
  - eauto.
Qed.

(** *** Where the caching store is stale *)
Context `{!CacheRetains bytes bytes C, !CacheLossless bytes bytes C}.

(** A cached entry is what [get] answers. *)
Lemma ck_get_cached inst now k v x :
  cache_wf (ck_cache x) → cache_timeless (ck_cache x) → ck_poisoned x = false →
  cache_peek inst k (ck_cache x) = Some v → (ck_get inst now k x).2 = Ok (Some v).
Proof.
  intros Hwf Ht Hp Hv. destruct (cache_get_exact inst inst k k (ck_cache x) Hwf Ht) as [Hg _].
  unfold ck_get, ck_lookup, ck_locked, st_bind. rewrite Hp. destruct (cache_get inst k (ck_cache x)) as [c' o].
  simpl in Hg. by rewrite Hg, Hv.
Qed.

(** After a [get] that found a value, the value is cached for good. *)
Lemma ck_get_caches inst now k v x x1 :
  cache_wf (ck_cache x) → cache_timeless (ck_cache x) → ck_poisoned x = false →
  ck_get inst now k x = (x1, Ok (Some v)) →
  cache_wf (ck_cache x1) ∧ cache_timeless (ck_cache x1) ∧ ck_poisoned x1 = false ∧
  ∀ i, cache_peek i k (ck_cache x1) = Some v.
Proof.
  intros Hwf Ht Hp. unfold ck_get, ck_lookup, ck_locked, ck_fetch, ck_fill, st_bind. rewrite Hp.
  assert (∀ i k', (cache_get inst k (ck_cache x)).2 = cache_peek i k (ck_cache x) ∧
    cache_peek i k' (cache_get inst k (ck_cache x)).1 = cache_peek i k' (ck_cache x)) as Hg
    by (intros; by apply cache_get_exact).
  pose proof (cache_get_wf inst k _ Hwf) as Hwf'. destruct (cache_get inst k (ck_cache x)) as [c' o]. cbn [fst snd] in *.
  assert (cache_timeless c') as Ht'.
  { intros i i' k'. destruct (Hg i k') as [_ ->]. destruct (Hg i' k') as [_ ->]. apply Ht. }
  destruct o as [v'|].
  { intros [= <- <-]. split_and!; try done. intros i. simpl. destruct (Hg i k) as [Ho ->]. by rewrite <-Ho. }
  simpl. destruct (kv_get now k (ck_store x)) as [s' [[v'|]|e]]; try done.
  unfold ck_locked. simpl. rewrite Hp. destruct (cache_put k v' c') as [c'' old] eqn:Ep. intros [= <- <-]. simpl.
  pose proof (cache_put_wf k v' c' Hwf') as H1. pose proof (cache_put_timeless k v' c' Hwf' Ht') as H2.
  rewrite Ep in H1, H2. split_and!; try done. intros i.
  pose proof (cache_put_peek i k v' c' Hwf') as H3. by rewrite Ep in H3.
Qed.

Lemma ck_txn_put_all (pairs : list (bytes * bytes)) (t : kv_Txn (S:=S)) :
  txn_put_all (S:=CacheableKvStore S C) pairs t = txn_put_all (S:=S) pairs t.
Proof.
  revert t. induction pairs as [|[k v] pairs IH]; intros t; simpl; [done|]. unfold st_bind.
  destruct (txn_put k v t) as [t' [[]|e]]; [apply IH|done].
Qed.

Lemma ck_batch_write pairs x :
  kv_batch_write pairs x = let '(s, r) := kv_batch_write pairs (ck_store x) in (ck_set_store s x, r).
Proof.
  unfold kv_batch_write. simpl. destruct (kv_transaction (ck_store x)) as [t|e]; [|by destruct x].
  rewrite ck_txn_put_all. destruct (txn_put_all pairs t) as [t' [[]|e]]; [done|by destruct x].
Qed.

(** A batch write through a caching store leaves the cache stale.  Whatever the
    store and the (lossless) cache, once a key has been read, [batch_write] of a
    new value reaches the store but not the cache: every later [get] keeps
    answering the old value. *)
Theorem cacheable_batch_write_stale now now' k v v' x x1 x2 :
  cache_wf (ck_cache x) → cache_timeless (ck_cache x) → ck_poisoned x = false →
  kv_get now k x = (x1, Ok (Some v)) → kv_batch_write [(k, v')] x1 = (x2, Ok ()) →
  kv_view now' (ck_store x2) !! k = Some v' ∧ (kv_get now' k x2).2 = Ok (Some v).
Proof.
  intros Hwf Ht Hp Hg Hb. simpl in Hg. destruct (ck_get_caches _ _ _ _ _ _ Hwf Ht Hp Hg) as (Hwf1 & Ht1 & Hp1 & Hv).
  rewrite ck_batch_write in Hb. destruct (kv_batch_write [(k, v')] (ck_store x1)) as [s2 r] eqn:Eb.
  injection Hb as <- ->. split.
  - simpl. rewrite (kv_batch_write_view _ _ _ _ Eb now'). simpl. apply lookup_insert_eq.
  - simpl. by apply ck_get_cached.
Qed.

(** A [get] that misses and a [put] of the same key by another thread between
    the read of the store and the insertion into the cache leave the old value
    cached: the store holds the new value, and every later [get] answers the old
    one. *)
Theorem cacheable_get_put_race inst now inst' now' k v v' x x1 :
  cache_wf (ck_cache x) → cache_timeless (ck_cache x) → ck_poisoned x = false →
  cache_peek inst k (ck_cache x) = None → kv_get now k (ck_store x) = (ck_store x1, Ok (Some v)) →
  (kv_put k v' (ck_store x1)).2 = Ok () →
  ∃ x2, ck_get_interleaved inst now k (λ y, (ck_put k v' y).1) x = (x2, Ok (Some v)) ∧
    kv_view now' (ck_store x2) !! k = Some v' ∧ (ck_get inst' now' k x2).2 = Ok (Some v).
Proof.
  intros Hwf Ht Hp Hn Hg Hput. destruct (kv_put k v' (ck_store x1)) as [s2 r] eqn:Eput. simpl in Hput. subst r.
  destruct (cache_get_exact inst inst k k (ck_cache x) Hwf Ht) as [Hcg _]. rewrite Hn in Hcg.
  pose proof (cache_get_wf inst k _ Hwf) as Hwf'.
  assert (cache_timeless (cache_get inst k (ck_cache x)).1) as Ht'.
  { intros i i' k'. destruct (cache_get_exact inst i k k' _ Hwf Ht) as [_ ->].
    destruct (cache_get_exact inst i' k k' _ Hwf Ht) as [_ ->]. apply Ht. }
  unfold ck_get_interleaved, ck_lookup, ck_locked, ck_fetch, ck_fill, ck_put, ck_write, st_bind.
  rewrite Hp. destruct (cache_get inst k (ck_cache x)) as [c1 o]. cbn [fst snd] in *. subst o. simpl.
  rewrite Hg. simpl. rewrite Eput. unfold ck_locked. simpl. rewrite Hp.
  destruct (cache_remove k c1) as [c2 o] eqn:Er. simpl. rewrite Hp.
  pose proof (cache_remove_wf k c1 Hwf') as Hwf2. rewrite Er in Hwf2. simpl in Hwf2.
  assert (cache_timeless c2) as Ht2.
  { intros i i' k'. destruct (cache_remove_peek i k k' c1 Hwf') as [A1 A2].
    destruct (cache_remove_peek i' k k' c1 Hwf') as [B1 B2]. rewrite Er in *. simpl in *.
    destruct (decide (k' = k)); [by rewrite A1, B1|by rewrite A2, B2]. }
  pose proof (cache_put_wf k v c2 Hwf2) as Hwf3. pose proof (cache_put_timeless k v c2 Hwf2 Ht2) as Ht3.
  pose proof (λ i, cache_put_peek i k v c2 Hwf2) as Hv3. destruct (cache_put k v c2) as [c3 o']. simpl in *.
  eexists. split_and!; [done| |].
  - simpl. rewrite (kv_put_law _ _ _ _ now' Eput). apply lookup_insert_eq.
  - by apply ck_get_cached.
Qed.
End CacheableTheory.
