(* ===== verification/AdapterWitness.v ===== *)
(** * The store adapters on concrete stores and caches

    On the in-memory store of [KvHistory.v] the
    theorems of [Adapters.v] are applied to LRU caches, and a write-back cache over
    the ARC policy is shown to lose an acknowledged write. *)

From S2P Require Import Prelude Bytes Core KvHistory Hashlink Cache Lru Arc Adapters.

Abbreviation lru_bytes := (LruCache bytes (λ V, list (bytes * V))).
Abbreviation arc_bytes := (ArcCache bytes (λ V, list (bytes * V))).

Lemma lru_empty cap i k : cache_peek i k (lru_new cap : lru_bytes) = None.
Proof. done. Qed.

Definition ka : bytes := [x61].
Definition kb : bytes := [x62].
Definition kc : bytes := [x63].

(** ** Histories *)
Definition at0 (ops : list AdOp) : list (Z * Z * AdOp) := (λ op, (0, 0, op)%Z) <$> ops.

Definition demo_script : list (Z * Z * AdOp) :=
  at0 [AdPut ka [x01]; AdPut kb [x02]; AdPut kc [x03]; AdGet ka; AdRemove kb; AdFlush; AdGet kb].

Lemma demo_clock : clock_ok 0 demo_script.
Proof. repeat split; unfold later; lia. Qed.

Lemma write_through_refines_map_witness :
  ad_accepts ∅ (ad_run wt_step demo_script (wt_new (∅ : MapStore) (lru_new 2 : lru_bytes))).2 ∧
  ∃ now', kv_settled now' (wt_store (ad_run wt_step demo_script (wt_new (∅ : MapStore) (lru_new 2 : lru_bytes))).1)
    (ad_final ∅ (ad_run wt_step demo_script (wt_new (∅ : MapStore) (lru_new 2 : lru_bytes))).2).
Proof.
  apply (write_through_refines_map 0 demo_script (∅ : MapStore) (lru_new 2 : lru_bytes) ∅).
  - apply map_settled.
  - exact I.
  - intros i k. apply lru_empty.
  - exact demo_clock.
  - apply surjective_pairing.
Defined.

Lemma write_back_refines_map_witness :
  ad_accepts ∅ (ad_run (wb_step elements) demo_script (wb_new (∅ : MapStore) (lru_new 2 : lru_bytes))).2.
Proof.
  apply (write_back_refines_map elements (λ X k, elem_of_elements X k) 0 demo_script (∅ : MapStore) (lru_new 2 : lru_bytes) ∅
    (ad_run (wb_step elements) demo_script (wb_new (∅ : MapStore) (lru_new 2 : lru_bytes))).1).
  - apply map_settled.
  - exact I.
  - intros i k. apply lru_empty.
  - exact demo_clock.
  - apply surjective_pairing.
  - repeat constructor; intros k e; discriminate.
Defined.

Lemma cacheable_refines_map_witness :
  ad_accepts ∅ (ad_run ck_step demo_script (ck_new (∅ : MapStore) (lru_new 2 : lru_bytes))).2 ∧
  ∃ now', kv_settled now' (ck_store (ad_run ck_step demo_script (ck_new (∅ : MapStore) (lru_new 2 : lru_bytes))).1)
    (ad_final ∅ (ad_run ck_step demo_script (ck_new (∅ : MapStore) (lru_new 2 : lru_bytes))).2).
Proof.
  apply (cacheable_refines_map 0 demo_script (∅ : MapStore) (lru_new 2 : lru_bytes) ∅).
  - apply map_settled.
  - exact I.
  - intros i k. apply lru_empty.
  - exact demo_clock.
  - apply surjective_pairing.
Defined.

(** A caching store whose inner store holds one entry. *)
Definition ck_demo : CacheableKvStore MapStore lru_bytes := ck_new {[ka := [x01]]} (lru_new 2).

Lemma lru_new_timeless cap : cache_timeless (lru_new cap : lru_bytes).
Proof. intros i i' k. done. Qed.

Definition ck_demo1 : CacheableKvStore MapStore lru_bytes := (kv_get 0 ka ck_demo).1.
Definition ck_demo2 : CacheableKvStore MapStore lru_bytes := (kv_batch_write [(ka, [x02])] ck_demo1).1.

Lemma cacheable_batch_write_stale_witness :
  kv_view 1 (ck_store ck_demo2) !! ka = Some [x02] ∧ (kv_get 1 ka ck_demo2).2 = Ok (Some [x01]).
Proof.
  apply (cacheable_batch_write_stale 0 1 ka [x01] [x02] ck_demo ck_demo1 ck_demo2).
  - exact I.
  - apply lru_new_timeless.
  - reflexivity.
  - apply outcome_eq. vm_compute. reflexivity.
  - apply outcome_eq. vm_compute. reflexivity.
Defined.

Lemma cacheable_get_put_race_witness :
  ∃ x2, ck_get_interleaved 0 0 ka (λ y, (ck_put ka [x02] y).1) ck_demo = (x2, Ok (Some [x01])) ∧
    kv_view 1 (ck_store x2) !! ka = Some [x02] ∧ (ck_get 1 1 ka x2).2 = Ok (Some [x01]).
Proof.
  apply (cacheable_get_put_race 0 0 1 1 ka [x01] [x02] ck_demo ck_demo).
  - exact I.
  - apply lru_new_timeless.
  - reflexivity.
  - reflexivity.
  - reflexivity.
  - reflexivity.
Defined.

(** ** Write-back over ARC *)
Definition arc_loss_script : list (Z * Z * AdOp) :=
  at0 [AdPut ka [x01]; AdPut kb [x02]; AdPut kc [x03]; AdGet ka; AdGet kb; AdGet kc; AdFlush].

(** A write-back cache over the ARC policy loses an acknowledged write: two
    lookups of keys that ARC only remembers evict the dirty entry, its [get] then
    finds nothing, and the following successful [flush] does not write it. *)
Theorem write_back_over_arc_loses_write :
  let run := ad_run (wb_step elements) arc_loss_script (wb_new (∅ : MapStore) (arc_new 2 : arc_bytes)) in
  Forall (λ ev, is_Ok ev.2) run.2 ∧ (AdPut kc [x03], Ok AdUnit) ∈ run.2 ∧
  (AdGet kc, Ok (AdValue None)) ∈ run.2 ∧ (AdFlush, Ok AdUnit) ∈ run.2 ∧
  kv_view 0 (wb_store run.1) !! kc = None ∧ ad_final ∅ run.2 !! kc = Some [x03].
Proof.
  cbv zeta. set (run := ad_run _ _ _).
  assert (kv_view 0 (wb_store run.1) !! kc = None) as Hs by (vm_compute; reflexivity).
  assert (run.2 = [(AdPut ka [x01], Ok AdUnit); (AdPut kb [x02], Ok AdUnit); (AdPut kc [x03], Ok AdUnit);
    (AdGet ka, Ok (AdValue (Some [x01]))); (AdGet kb, Ok (AdValue (Some [x02]))); (AdGet kc, Ok (AdValue None));
    (AdFlush, Ok AdUnit)]) as -> by (vm_compute; reflexivity).
  split_and!; [|apply (list_elem_of_lookup_2 _ 2); reflexivity|apply (list_elem_of_lookup_2 _ 5); reflexivity
    |apply (list_elem_of_lookup_2 _ 6); reflexivity|exact Hs|vm_compute; reflexivity].
  repeat constructor; eexists; reflexivity.
Qed.
