(* ===== verification/BlobCache.v ===== *)
(** * [oxistore-cache/src/blob_cache.rs]: a cache in front of a blob store

    [BlobCache] over any blob store with the contract of [Blob.v] and any cache with
    the contract of [Cache.v].  Each call is a sequence of steps with an [await]
    between them, where other tasks may run: [bc_put_interleaved] has a parameter for
    what happens between the invalidation and the write. *)

From S2P Require Import Prelude Bytes Core KvHistory Hashlink Cache Lru Adapters Blob BlobProps.

Record BlobCacheStats := { bs_hits : Z; bs_misses : Z }.

Definition stats_hit (s : BlobCacheStats) : BlobCacheStats := {| bs_hits := wrap64 (bs_hits s + 1); bs_misses := bs_misses s |}.
Definition stats_miss (s : BlobCacheStats) : BlobCacheStats := {| bs_hits := bs_hits s; bs_misses := wrap64 (bs_misses s + 1) |}.
Definition stats_reset (s : BlobCacheStats) : BlobCacheStats := {| bs_hits := 0; bs_misses := 0 |}.

Section BlobCache.
Context {B C : Type} `{!BlobStore B, !Cache bytes bytes C}.

Record BlobCache := { bc_inner : B; bc_cache : C; bc_stats : BlobCacheStats }.

Definition bc_new (inner : B) (cache : C) : BlobCache :=
  {| bc_inner := inner; bc_cache := cache; bc_stats := {| bs_hits := 0; bs_misses := 0 |} |}.

Definition bc_set_inner (b : B) (x : BlobCache) : BlobCache :=
  {| bc_inner := b; bc_cache := bc_cache x; bc_stats := bc_stats x |}.
Definition bc_set_cache (c : C) (x : BlobCache) : BlobCache :=
  {| bc_inner := bc_inner x; bc_cache := c; bc_stats := bc_stats x |}.
Definition bc_set_stats (s : BlobCacheStats) (x : BlobCache) : BlobCache :=
  {| bc_inner := bc_inner x; bc_cache := bc_cache x; bc_stats := s |}.

Definition bc_get (inst : Z) (key : bytes) (x : BlobCache) : BlobCache * blob_result bytes :=
  let '(c, o) := cache_get inst key (bc_cache x) in
  let x := bc_set_cache c x in
  match o with
  | Some cached => (bc_set_stats (stats_hit (bc_stats x)) x, Ok cached)
  | None =>
      let x := bc_set_stats (stats_miss (bc_stats x)) x in
      match blob_get key (bc_inner x) with
      | (b, Err e) => (bc_set_inner b x, Err e)
      | (b, Ok data) =>
          let x := bc_set_inner b x in
          (bc_set_cache (cache_put key data (bc_cache x)).1 x, Ok data)
      end
  end.

(** [cache.remove(..)], then the inner call. *)
Definition bc_invalidate (key : bytes) (x : BlobCache) : BlobCache := bc_set_cache (cache_remove key (bc_cache x)).1 x.

Definition bc_inner_put (key data : bytes) (x : BlobCache) : BlobCache * blob_result unit :=
  let '(b, r) := blob_put key data (bc_inner x) in (bc_set_inner b x, r).

Definition bc_put_interleaved (interference : BlobCache → BlobCache) (key data : bytes) (x : BlobCache)
    : BlobCache * blob_result unit := bc_inner_put key data (interference (bc_invalidate key x)).

Definition bc_put : bytes → bytes → BlobCache → BlobCache * blob_result unit := bc_put_interleaved id.

Definition bc_delete (key : bytes) (x : BlobCache) : BlobCache * blob_result unit :=
  let x := bc_invalidate key x in
  let '(b, r) := blob_delete key (bc_inner x) in (bc_set_inner b x, r).

Definition bc_head (key : bytes) (x : BlobCache) : BlobCache * blob_result BlobMeta :=
  let '(b, r) := blob_head key (bc_inner x) in (bc_set_inner b x, r).

Definition bc_list (prefix : bytes) (x : BlobCache) : BlobCache * blob_result (list bytes) :=
  let '(b, r) := blob_list prefix (bc_inner x) in (bc_set_inner b x, r).

(** ** Histories *)
Inductive BcOp := BcGet (k : bytes) | BcPut (k v : bytes) | BcDelete (k : bytes) | BcHead (k : bytes) | BcList (p : bytes).
Inductive BcOut := BcData (d : bytes) | BcUnit | BcMeta (m : BlobMeta) | BcKeys (l : list bytes).

Definition bc_answer {A} (f : A → BcOut) (p : BlobCache * blob_result A) : BlobCache * blob_result BcOut :=
  (p.1, result_map f p.2).

Definition bc_step (inst : Z) (op : BcOp) (x : BlobCache) : BlobCache * blob_result BcOut :=
  match op with
  | BcGet k => bc_answer BcData (bc_get inst k x)
  | BcPut k v => bc_answer (λ _, BcUnit) (bc_put k v x)
  | BcDelete k => bc_answer (λ _, BcUnit) (bc_delete k x)
  | BcHead k => bc_answer BcMeta (bc_head k x)
  | BcList p => bc_answer BcKeys (bc_list p x)
  end.

Fixpoint bc_run (script : list (Z * BcOp)) (x : BlobCache) : BlobCache * list (BcOp * blob_result BcOut) :=
  match script with
  | [] => (x, [])
  | (inst, op) :: script =>
      let '(x, r) := bc_step inst op x in
      let '(x, trace) := bc_run script x in (x, (op, r) :: trace)
  end.
End BlobCache.

Arguments BlobCache : clear implicits.

(** ** The specification: a map of blobs *)
Definition bc_next (op : BcOp) (r : blob_result BcOut) (m : gmap bytes bytes) : gmap bytes bytes :=
  match op, r with
  | BcPut k v, Ok _ => <[k:=v]> m
  | BcDelete k, Ok _ => delete k m
  | _, _ => m
  end.

Definition bc_correct (op : BcOp) (r : blob_result BcOut) (m : gmap bytes bytes) : Prop :=
  match op, r with
  | BcGet k, Ok out => ∃ v, out = BcData v ∧ m !! k = Some v
  | BcGet k, Err (BlobNotFound _) => m !! k = None
  | BcDelete k, Ok _ => is_Some (m !! k)
  | BcDelete k, Err (BlobNotFound _) => m !! k = None
  | BcHead k, Ok out => ∃ v meta, out = BcMeta meta ∧ m !! k = Some v ∧ meta_size meta = blob_len v
  | BcHead k, Err (BlobNotFound _) => m !! k = None
  | BcList p, Ok out => out = BcKeys (List.filter (λ k, starts_with k p) (btree_iter m).*1)
  | _, _ => True
  end.

Fixpoint bc_accepts (m : gmap bytes bytes) (trace : list (BcOp * blob_result BcOut)) : Prop :=
  match trace with
  | [] => True
  | (op, r) :: trace => bc_correct op r m ∧ bc_accepts (bc_next op r m) trace
  end.

Section Theory.
Context {B C : Type} `{BS : !BlobStore B, BV : !BlobView B, BL : !BlobLaws B}.
Context `{CC : !Cache bytes bytes C, CW : !CacheWf C, CLw : !CacheLaws bytes bytes C}.
Implicit Types (x : BlobCache B C) (m : gmap bytes bytes).

Definition bc_rel x m : Prop := blob_view (bc_inner x) = m ∧ coherent_with m (bc_cache x).

Lemma bc_get_rel inst k x x' r m : bc_rel x m → bc_get inst k x = (x', r) →
  bc_rel x' m ∧ bc_correct (BcGet k) (result_map BcData r) m.
Proof.
  intros [Hv Hc]. unfold bc_get. destruct (cache_get inst k (bc_cache x)) as [c o] eqn:Eg.
  destruct (coherent_get _ _ _ _ _ _ Hc Eg) as [Hc' Hhit]. destruct o as [v|].
  { intros [= <- <-]. split; [done|]. exists v. split; [done|]. by apply Hhit. }
  simpl. destruct (blob_get k (bc_inner x)) as [b r'] eqn:Eb. apply blob_get_law in Eb as [Hvb Hr]. rewrite Hv in *.
  destruct r' as [v|e]; intros [= <- <-]; simpl.
  - split; [|by exists v]. split; [done|]. simpl. rewrite <-(insert_id m k v) by done. by apply coherent_put.
  - split; [done|]. by destruct e.
Qed.

Lemma bc_invalidate_coherent k x m m' : coherent_with m (bc_cache x) → (∀ k', k' ≠ k → m' !! k' = m !! k') →
  coherent_with m' (bc_cache (bc_invalidate k x)).
Proof. intros Hc Hm. by apply (coherent_remove m). Qed.

Lemma bc_put_rel k v x x' r m : bc_rel x m → bc_put k v x = (x', r) →
  bc_rel x' (match r with Ok _ => <[k:=v]> m | Err _ => m end).
Proof.
  intros [Hv Hc]. unfold bc_put, bc_put_interleaved, bc_inner_put. cbn [id bc_inner bc_invalidate bc_set_cache].
  destruct (blob_put k v (bc_inner x)) as [b r'] eqn:Ep. apply blob_put_law in Ep. rewrite Hv in Ep.
  intros [= <- <-]. split.
  - simpl. destruct r' as [[]|[]]; done.
  - simpl. apply (coherent_remove m); [done|]. intros k' Hk'. destruct r'; [by rewrite lookup_insert_ne|done].
Qed.

Lemma bc_delete_rel k x x' r m : bc_rel x m → bc_delete k x = (x', r) →
  bc_rel x' (match r with Ok _ => delete k m | Err _ => m end) ∧ bc_correct (BcDelete k) (result_map (λ _, BcUnit) r) m.
Proof.
  intros [Hv Hc]. unfold bc_delete. cbn [bc_inner bc_invalidate bc_set_cache].
  destruct (blob_delete k (bc_inner x)) as [b r'] eqn:Ep. apply blob_delete_law in Ep. rewrite Hv in Ep.
  intros [= <- <-]. split; [split|].
  - simpl. destruct r' as [[]|[]]; naive_solver.
  - simpl. apply (coherent_remove m); [done|]. intros k' Hk'. destruct r'; [by rewrite lookup_delete_ne|done].
  - simpl. destruct r' as [[]|[]]; naive_solver.
Qed.

Lemma bc_step_rel inst op x x' r m : bc_rel x m → bc_step inst op x = (x', r) →
  bc_rel x' (bc_next op r m) ∧ bc_correct op r m.
Proof.
  intros Hrel. destruct op as [k|k v|k|k|p]; simpl; unfold bc_answer.
  - destruct (bc_get inst k x) as [x1 r1] eqn:E. intros [= <- <-]. destruct (bc_get_rel _ _ _ _ _ _ Hrel E) as [H1 H2].
    split; [by destruct r1|done].
  - destruct (bc_put k v x) as [x1 r1] eqn:E. intros [= <- <-]. pose proof (bc_put_rel _ _ _ _ _ _ Hrel E). by destruct r1.
  - destruct (bc_delete k x) as [x1 r1] eqn:E. intros [= <- <-]. destruct (bc_delete_rel _ _ _ _ _ Hrel E) as [H1 H2].
    split; [by destruct r1|done].
  - destruct Hrel as [Hv Hc]. unfold bc_head. destruct (blob_head k (bc_inner x)) as [b r1] eqn:E. intros [= <- <-].
    apply blob_head_law in E as [Hvb Hr]. rewrite Hv in *. split; [by destruct r1|]. destruct r1 as [meta|[]]; simpl; try done.
    destruct Hr as (v & Hl & _ & Hs). by exists v, meta.
  - destruct Hrel as [Hv Hc]. unfold bc_list. destruct (blob_list p (bc_inner x)) as [b r1] eqn:E. intros [= <- <-].
    apply blob_list_law in E as [Hvb Hr]. rewrite Hv in *. split; [by destruct r1|]. destruct r1 as [l|]; simpl; [|done].
    by rewrite (Hr l).
Qed.

(** The blob cache is transparent.  Calls made one after the other through a
    [BlobCache] over any lawful blob store, with any lawful cache, answer as the blob
    store does: a get returns the stored blob or reports its absence, whether it was
    served by the cache or not, a failed put or delete changes nothing, and at the end
    the store holds exactly what the successful writes left. *)
Theorem blob_cache_transparent script b (c : C) x' trace :
  cache_wf c → (∀ i k, cache_peek i k c = None) → bc_run script (bc_new b c) = (x', trace) →
  bc_accepts (blob_view b) trace ∧
  blob_view (bc_inner x') = foldl (λ m e, bc_next e.1 e.2 m) (blob_view b) trace.
Proof.
  intros Hwf He Hrun. assert (bc_rel (bc_new b c) (blob_view b)) as Hrel.
  { split; [done|]. split; [done|]. intros i k v. by rewrite He. }
  revert Hrel Hrun. generalize (bc_new b c) as x, (blob_view b) as m. revert trace.
  induction script as [|[inst op] script IH]; intros trace x m Hrel; simpl.
  { intros [= <- <-]. by destruct Hrel. }
  destruct (bc_step inst op x) as [x1 r] eqn:Es. destruct (bc_run script x1) as [x2 tr] eqn:Er. intros [= <- <-].
  destruct (bc_step_rel _ _ _ _ _ _ Hrel Es) as [Hrel1 Hok]. destruct (IH _ _ _ Hrel1 Er) as [Ha Hf]. simpl. by split.
Qed.

(** A put that races with a get leaves the old blob cached.  [put] invalidates
    the cache before it writes: a get of the same key that runs in between reads the
    old blob and caches it, so that after the put has succeeded the store holds the
    new blob and the cache serves the old one. *)
Theorem blob_cache_put_race `{CR : !CacheRetains bytes bytes C, CLL : !CacheLossless bytes bytes C} inst inst' k v v' x b1 :
  cache_wf (bc_cache x) → cache_timeless (bc_cache x) →
  blob_get k (bc_inner x) = (b1, Ok v) → (blob_put k v' b1).2 = Ok () →
  let x' := (bc_put_interleaved (λ y, (bc_get inst k y).1) k v' x).1 in
  blob_view (bc_inner x') !! k = Some v' ∧ (bc_get inst' k x').2 = Ok v.
Proof.
  intros Hwf Ht Eg Hput. set (c1 := (cache_remove k (bc_cache x)).1).
  assert (cache_wf c1) as Hwf1 by by apply cache_remove_wf.
  assert (∀ i, cache_peek i k c1 = None) as Hn by (intros i; by apply (cache_remove_peek i k k (bc_cache x) Hwf)).
  assert (cache_timeless c1) as Ht1.
  { intros i i' k'. destruct (cache_remove_peek i k k' (bc_cache x) Hwf) as [A1 A2].
    destruct (cache_remove_peek i' k k' (bc_cache x) Hwf) as [B1 B2]. unfold c1.
    destruct (decide (k' = k)); [by rewrite A1, B1|by rewrite A2, B2]. }
  destruct (cache_get_exact inst inst k k c1 Hwf1 Ht1) as [Hg _]. rewrite Hn in Hg.
  pose proof (cache_get_wf inst k c1 Hwf1) as Hwf2. assert (cache_timeless (cache_get inst k c1).1) as Ht2.
  { intros i i' k'. destruct (cache_get_exact inst i k k' c1 Hwf1 Ht1) as [_ ->].
    destruct (cache_get_exact inst i' k k' c1 Hwf1 Ht1) as [_ ->]. apply Ht1. }
  destruct (blob_put k v' b1) as [b2 r2] eqn:Ep. simpl in Hput. subst r2.
  unfold bc_put_interleaved, bc_invalidate. fold c1.
  assert (∃ c2 st, cache_wf c2 ∧ cache_timeless c2 ∧ (bc_get inst k (bc_set_cache c1 x)).1 =
    {| bc_inner := b1; bc_cache := (cache_put k v c2).1; bc_stats := st |}) as (c2 & st & Hwfc & Htc & ->).
  { unfold bc_get. cbn [bc_cache bc_set_cache]. destruct (cache_get inst k c1) as [c2 o]. cbn [fst snd] in *. subst o. simpl.
    rewrite Eg. simpl. by eexists c2, _. }
  unfold bc_inner_put. cbn [bc_inner]. rewrite Ep. apply blob_put_law in Ep. cbn [fst bc_inner bc_set_inner]. split.
  - rewrite Ep. apply lookup_insert_eq.
  - pose proof (cache_put_wf k v c2 Hwfc) as Hwf3. pose proof (cache_put_timeless k v c2 Hwfc Htc) as Ht3.
    destruct (cache_get_exact inst' inst' k k _ Hwf3 Ht3) as [Hg3 _]. unfold bc_get. simpl.
    rewrite (cache_put_peek inst' k v c2 Hwfc) in Hg3.
    destruct (cache_get inst' k (cache_put k v c2).1) as [c4 o]. simpl in Hg3. by rewrite Hg3.
Qed.
End Theory.
