(* ===== verification/BlobWitness.v ===== *)
(** * Blob stores on concrete inputs *)

From S2P Require Import Prelude Bytes Core KvHistory Hashlink Cache Lru Adapters AdapterWitness Encrypt Keys Blob BlobProps BlobCache.

Definition b1 : bytes := [x61].
Definition b2 : bytes := [x61; x2f].
Definition d1 : bytes := [x01; x02].
Definition d2 : bytes := [x03].

Definition blob_demo : MemoryState := foldl (λ s op, mem_step op s) memory_new [MemPut b1 d1; MemPut b2 d2].

Lemma blob_rename_behaviour_witness :
  ∃ data, blob_view blob_demo !! b1 = Some data ∧
    if decide (b1 = b1) then blob_view (blob_rename b1 b1 blob_demo).1 = delete b1 (blob_view blob_demo)
    else blob_view (blob_rename b1 b1 blob_demo).1 = <[b1:=data]> (delete b1 (blob_view blob_demo)).
Proof. exact (blob_rename_behaviour b1 b1 blob_demo _ (outcome_eq (blob_rename b1 b1 blob_demo) (Ok ()) eq_refl)). Defined.

Lemma blob_delete_prefix_correct_witness :
  (∀ k, blob_view (blob_delete_prefix b1 blob_demo).1 !! k = if starts_with k b1 then None else blob_view blob_demo !! k) ∧
  2%Z = Z.of_nat (length (List.filter (λ k, starts_with k b1) (btree_iter (blob_view blob_demo)).*1)).
Proof. exact (blob_delete_prefix_correct b1 blob_demo _ 2%Z (outcome_eq (blob_delete_prefix b1 blob_demo) (Ok 2%Z) eq_refl)). Defined.

(** A digest for the examples: the bytes padded to 32. *)
Definition pad32 (b : bytes) : bytes := take 32 (b ++ replicate 32 x00).

Lemma pad32_length b : length (pad32 b) = 32.
Proof. unfold pad32. rewrite length_take, length_app, length_replicate. lia. Qed.

#[local] Instance toy_sha : Sha256 := {| sha256 := pad32; sha256_length := pad32_length |}.

Lemma blob_cas_roundtrip_witness :
  d1 = take 2 (sha256 d1) ∧ (blob_get_cas (sha256 d1) (blob_put_cas d1 memory_new).1).2 = Ok d1.
Proof.
  split; [done|]. destruct (blob_cas_roundtrip d1 memory_new (blob_put_cas d1 memory_new).1 (sha256 d1)) as (_ & _ & _ & _ & _ & _ & Hget).
  - apply outcome_eq. reflexivity.
  - apply (Hget ltac:(intros d v _ Hd; exfalso; change (blob_view memory_new) with (∅ : gmap bytes bytes) in Hd; by rewrite lookup_empty in Hd) d1). reflexivity.
Defined.

(** ** The cache *)
Definition bc_demo : BlobCache MemoryState lru_bytes := bc_new blob_demo (lru_new 2).

Definition bc_script : list (Z * BcOp) :=
  [(0%Z, BcGet b1); (1%Z, BcPut b1 d2); (2%Z, BcGet b1); (3%Z, BcDelete b2); (4%Z, BcGet b2); (5%Z, BcList [])].

Lemma blob_cache_transparent_witness :
  bc_accepts (blob_view blob_demo) (bc_run bc_script bc_demo).2 ∧
  blob_view (bc_inner (bc_run bc_script bc_demo).1) =
    foldl (λ m e, bc_next e.1 e.2 m) (blob_view blob_demo) (bc_run bc_script bc_demo).2.
Proof.
  refine (blob_cache_transparent bc_script blob_demo (lru_new 2 : lru_bytes) _ _ _ (lru_empty 2) (surjective_pairing _)).
  exact I.
Defined.

Lemma blob_cache_put_race_witness :
  let x' := (bc_put_interleaved (λ y, (bc_get 0 b1 y).1) b1 d2 bc_demo).1 in
  blob_view (bc_inner x') !! b1 = Some d2 ∧ (bc_get 0 b1 x').2 = Ok d1.
Proof.
  exact (blob_cache_put_race 0 0 b1 d1 d2 bc_demo blob_demo I (lru_new_timeless 2) eq_refl eq_refl).
Defined.
