(* ===== verification/Predicate.v ===== *)
(** * [oxistore-columnar/src/predicate.rs]: predicates and row-group pruning

    The predicate language, its evaluation on the rows of a batch, and its evaluation
    on the statistics of a row group.  A batch is modelled by its fields and its rows;
    an array is the column of the rows.  The comparison of floating-point columns is an
    Arrow kernel and a parameter; floats of statistics are IEEE numbers of
    [SpecFloat].  The theorems say that pruning never drops a row that satisfies the
    predicate, for predicates without floating-point comparisons on flat schemas. *)

From Stdlib Require Import SpecFloat.
From S2P Require Import Prelude Bytes.

(** ** Syntax *)
Inductive Scalar :=
| SBool (b : bool)
| SInt32 (v : Z)
| SInt64 (v : Z)
| SFloat32 (v : spec_float)
| SFloat64 (v : spec_float)
| SBytes (v : bytes)
| SNull.

Inductive CmpOp := CEq | CNe | CLt | CLe | CGt | CGe.

Inductive Predicate :=
| PCmp (column : string) (op : CmpOp) (value : Scalar)
| PAnd (ps : list Predicate)
| POr (ps : list Predicate)
| PNot (p : Predicate)
| PAll
| PNone.

(** The induction principle that goes through the lists. *)
Section PredicateInd.
Context (P : Predicate → Prop).
Hypothesis HCmp : ∀ column op value, P (PCmp column op value).
Hypothesis HAnd : ∀ ps, Forall P ps → P (PAnd ps).
Hypothesis HOr : ∀ ps, Forall P ps → P (POr ps).
Hypothesis HNot : ∀ p, P p → P (PNot p).
Hypothesis HAll : P PAll.
Hypothesis HNone : P PNone.

Fixpoint predicate_ind (p : Predicate) : P p :=
  let fix go ps : Forall P ps :=
    match ps with [] => Forall_nil_2 P | p :: ps => Forall_cons_2 P p ps (predicate_ind p) (go ps) end in
  match p with
  | PCmp column op value => HCmp column op value
  | PAnd ps => HAnd ps (go ps)
  | POr ps => HOr ps (go ps)
  | PNot p => HNot p (predicate_ind p)
  | PAll => HAll
  | PNone => HNone
  end.
End PredicateInd.

(** ** Batches *)
Inductive DataType := DBool | DInt32 | DInt64 | DFloat32 | DFloat64 | DUtf8 | DOther (name : string).

#[global] Instance DataType_eq_dec : EqDecision DataType.
Proof. solve_decision. Defined.

Inductive Value := VBool (b : bool) | VInt (z : Z) | VFloat (f : spec_float) | VStr (s : bytes) | VOther.

Abbreviation Cell := (option Value).
Abbreviation Row := (list Cell).

Record RecordBatch := { b_fields : list (string * DataType); b_rows : list Row }.

Definition num_rows (b : RecordBatch) : nat := length (b_rows b).

(** The cell of a row in a column. *)
Definition cell (i : nat) (r : Row) : Cell := default None (r !! i).

(** The errors of the crate; the errors of the libraries are their messages. *)
Inductive ColumnarError :=
| ColumnarIo (e : string)
| ArrowError (e : string)
| ParquetError (e : string)
| SchemaMismatch (msg : string)
| CompressError (msg : string)
| UnsupportedType (msg : string)
| ColumnarManifest (msg : string).

Abbreviation columnar_result A := (result A ColumnarError).

(** [Schema::index_of]: the first field of that name. *)
Fixpoint index_of {A} (name : string) (fields : list (string * A)) : option (nat * A) :=
  match fields with
  | [] => None
  | (n, t) :: fields =>
      if decide (n = name) then Some (0, t) else prod_map S id <$> index_of name fields
  end.

(** ** UTF-8: [std::str::from_utf8] *)
Definition in_bytes (lo hi : Z) (b : byte) : bool := ((lo <=? byte_Z b) && (byte_Z b <=? hi))%Z.

Fixpoint utf8_valid_fuel (fuel : nat) (s : bytes) : bool :=
  match fuel with
  | 0 => false
  | S fuel =>
      match s with
      | [] => true
      | b :: rest =>
          if in_bytes 0 127 b then utf8_valid_fuel fuel rest
          else if in_bytes 194 223 b then
            match rest with c1 :: rest => in_bytes 128 191 c1 && utf8_valid_fuel fuel rest | _ => false end
          else if in_bytes 224 239 b then
            match rest with
            | c1 :: c2 :: rest =>
                let lo := if (byte_Z b =? 224)%Z then 160%Z else 128%Z in
                let hi := if (byte_Z b =? 237)%Z then 159%Z else 191%Z in
                in_bytes lo hi c1 && in_bytes 128 191 c2 && utf8_valid_fuel fuel rest
            | _ => false
            end
          else if in_bytes 240 244 b then
            match rest with
            | c1 :: c2 :: c3 :: rest =>
                let lo := if (byte_Z b =? 240)%Z then 144%Z else 128%Z in
                let hi := if (byte_Z b =? 244)%Z then 143%Z else 191%Z in
                in_bytes lo hi c1 && in_bytes 128 191 c2 && in_bytes 128 191 c3 && utf8_valid_fuel fuel rest
            | _ => false
            end
          else false
      end
  end.

(** Every step consumes a byte. *)
Definition utf8_valid (s : bytes) : bool := utf8_valid_fuel (S (length s)) s.

(** ** Row-level evaluation *)

(** The comparison kernels on integers and strings. *)
Definition cmp_Z (op : CmpOp) (x v : Z) : bool :=
  match op with
  | CEq => x =? v | CNe => negb (x =? v) | CLt => x <? v | CLe => x <=? v | CGt => v <? x | CGe => v <=? x
  end%Z.

Definition bytes_eqb (a b : bytes) : bool := bool_decide (a = b).

Definition cmp_bytes (op : CmpOp) (x v : bytes) : bool :=
  match op with
  | CEq => bytes_eqb x v | CNe => negb (bytes_eqb x v) | CLt => bytes_ltb x v | CLe => bytes_leb x v
  | CGt => bytes_ltb v x | CGe => bytes_leb v x
  end.

(** A mask: [None] is a null. *)
Abbreviation Mask := (list (option bool)).

(** [arrow::compute::and], [or] and [not]: a null on either side gives a null. *)
Definition and_null (a b : option bool) : option bool :=
  match a, b with Some a, Some b => Some (a && b) | _, _ => None end.
Definition or_null (a b : option bool) : option bool :=
  match a, b with Some a, Some b => Some (a || b) | _, _ => None end.
Definition not_null (a : option bool) : option bool := negb <$> a.

Section Evaluate.
Context (float_cmp : DataType → CmpOp → spec_float → spec_float → bool).

Definition cmp_int_cell (op : CmpOp) (v : Z) (c : Cell) : option bool :=
  match c with Some (VInt x) => Some (cmp_Z op x v) | _ => None end.
Definition cmp_str_cell (op : CmpOp) (v : bytes) (c : Cell) : option bool :=
  match c with Some (VStr x) => Some (cmp_bytes op x v) | _ => None end.
Definition cmp_float_cell (t : DataType) (op : CmpOp) (v : spec_float) (c : Cell) : option bool :=
  match c with Some (VFloat x) => Some (float_cmp t op x v) | _ => None end.

(** [evaluate_cmp_column] and the kernels it calls. *)
Definition evaluate_cmp_column (t : DataType) (col : list Cell) (op : CmpOp) (value : Scalar) : columnar_result Mask :=
  match value with
  | SInt32 v =>
      if decide (t = DInt32) then Ok (cmp_int_cell op v <$> col)
      else Err (SchemaMismatch "type mismatch: expected Int32")
  | SInt64 v =>
      if decide (t = DInt64) then Ok (cmp_int_cell op v <$> col)
      else Err (SchemaMismatch "type mismatch: expected Int64")
  | SFloat32 v =>
      if decide (t = DFloat32) then Ok (cmp_float_cell DFloat32 op v <$> col)
      else Err (SchemaMismatch "type mismatch: expected Float32")
  | SFloat64 v =>
      if decide (t = DFloat64) then Ok (cmp_float_cell DFloat64 op v <$> col)
      else Err (SchemaMismatch "type mismatch: expected Float64")
  | SBytes v =>
      if decide (t = DUtf8) then
        if utf8_valid v then Ok (cmp_str_cell op v <$> col)
        else Err (SchemaMismatch "Bytes scalar is not valid UTF-8; cannot compare against Utf8 column")
      else Err (SchemaMismatch "type mismatch: expected Utf8 (StringArray) for Bytes comparison")
  | SBool _ | SNull => Err (SchemaMismatch "unsupported scalar type for row-level filter")
  end.

(** The loops of [And] and [Or], which stop at the first error. *)
Definition fold_masks (eval : Predicate → columnar_result Mask) (f : option bool → option bool → option bool)
    : Mask → list Predicate → columnar_result Mask :=
  fix go acc ps :=
    match ps with
    | [] => Ok acc
    | p :: ps => let? mask := eval p in go (zip_with f acc mask) ps
    end.

Fixpoint evaluate_batch (p : Predicate) (b : RecordBatch) : columnar_result Mask :=
  match p with
  | PAll => Ok (replicate (num_rows b) (Some true))
  | PNone => Ok (replicate (num_rows b) (Some false))
  | PCmp column op value =>
      match index_of column (b_fields b) with
      | None => Err (SchemaMismatch ("column '" +:+ column +:+ "' not found in batch"))
      | Some (idx, t) => evaluate_cmp_column t (cell idx <$> b_rows b) op value
      end
  | PAnd ps => fold_masks (λ p, evaluate_batch p b) and_null (replicate (num_rows b) (Some true)) ps
  | POr ps => fold_masks (λ p, evaluate_batch p b) or_null (replicate (num_rows b) (Some false)) ps
  | PNot p => let? mask := evaluate_batch p b in Ok (not_null <$> mask)
  end.

(** [filter_record_batch]: the rows whose mask is true. *)
Definition filter_rows (rows : list Row) (mask : Mask) : list Row :=
  omap (λ '(r, m), match m with Some true => Some r | _ => None end) (zip rows mask).

(** [ColumnarTable::filter]: filtered batches without rows are not kept. *)
Fixpoint filter_batches (p : Predicate) (bs : list RecordBatch) : columnar_result (list RecordBatch) :=
  match bs with
  | [] => Ok []
  | b :: bs =>
      let? mask := evaluate_batch p b in
      let rows := filter_rows (b_rows b) mask in
      let? rest := filter_batches p bs in
      Ok (match rows with [] => rest | _ => {| b_fields := b_fields b; b_rows := rows |} :: rest end)
  end.
End Evaluate.

(** ** Statistics *)
Inductive Statistics :=
| StBoolean (min_opt max_opt : option bool) (null_count : option Z)
| StInt32 (min_opt max_opt : option Z) (null_count : option Z)
| StInt64 (min_opt max_opt : option Z) (null_count : option Z)
| StFloat (min_opt max_opt : option spec_float) (null_count : option Z)
| StDouble (min_opt max_opt : option spec_float) (null_count : option Z)
| StByteArray (min_opt max_opt : option bytes) (null_count : option Z)
| StOther.

Definition apply_bool_op (op : CmpOp) (min max v : bool) : bool :=
  match op with
  | CEq => (negb min || v) && (negb v || max)
  | CNe => true
  | CLt => negb min && v
  | CLe => negb min || v
  | CGt => max && negb v
  | CGe => max || negb v
  end.

Definition no_nulls (null_count : option Z) : bool := bool_decide (null_count = Some 0%Z).

Definition apply_ord_op (op : CmpOp) (min max v : Z) (null_count : option Z) : bool :=
  match op with
  | CEq => (min <=? v) && (v <=? max)
  | CNe => negb (((min =? v) && (max =? v)) && no_nulls null_count)
  | CLt => min <? v
  | CLe => min <=? v
  | CGt => v <? max
  | CGe => v <=? max
  end%Z.

Definition is_nan (f : spec_float) : bool := match f with S754_nan => true | _ => false end.

(** [apply_float_op_f32] and [apply_float_op_f64]: [prec] and [emax] are those of the
    format and [EPSILON] its constant. *)
Definition apply_float_op (prec emax : Z) (EPSILON : spec_float) (op : CmpOp) (min max v : spec_float)
    (null_count : option Z) : bool :=
  if is_nan v || is_nan min || is_nan max then true
  else
    match op with
    | CEq => SFleb min v && SFleb v max
    | CNe =>
        let all_same := SFltb (SFabs (SFsub prec emax min v)) EPSILON && SFltb (SFabs (SFsub prec emax max v)) EPSILON in
        negb (all_same && no_nulls null_count)
    | CLt => SFltb min v
    | CLe => SFleb min v
    | CGt => SFltb v max
    | CGe => SFleb v max
    end.

(** [f32::EPSILON] is 2^-23, [f64::EPSILON] is 2^-52. *)
Definition EPSILON_F32 : spec_float := S754_finite false 8388608 (-46).
Definition EPSILON_F64 : spec_float := S754_finite false 4503599627370496 (-104).
Definition apply_float_op_f32 := apply_float_op 24 128 EPSILON_F32.
Definition apply_float_op_f64 := apply_float_op 53 1024 EPSILON_F64.

Definition apply_bytes_op (op : CmpOp) (min max v : bytes) (null_count : option Z) : bool :=
  match op with
  | CEq => bytes_leb min v && bytes_leb v max
  | CNe => negb ((bytes_eqb min v && bytes_eqb max v) && no_nulls null_count)
  | CLt => bytes_ltb min v
  | CLe => bytes_leb min v
  | CGt => bytes_ltb v max
  | CGe => bytes_leb v max
  end.

(** Both bounds, or keep the group. *)
Definition with_bounds {A} (min_opt max_opt : option A) (f : A → A → bool) : bool :=
  match min_opt, max_opt with Some mn, Some mx => f mn mx | _, _ => true end.

Definition evaluate_cmp (stats : Statistics) (op : CmpOp) (value : Scalar) : bool :=
  match stats, value with
  | StBoolean mn mx _, SBool v => with_bounds mn mx (λ mn mx, apply_bool_op op mn mx v)
  | StInt32 mn mx nc, SInt32 v => with_bounds mn mx (λ mn mx, apply_ord_op op mn mx v nc)
  | StInt64 mn mx nc, SInt64 v => with_bounds mn mx (λ mn mx, apply_ord_op op mn mx v nc)
  | StFloat mn mx nc, SFloat32 v => with_bounds mn mx (λ mn mx, apply_float_op_f32 op mn mx v nc)
  | StDouble mn mx nc, SFloat64 v => with_bounds mn mx (λ mn mx, apply_float_op_f64 op mn mx v nc)
  | StByteArray mn mx nc, SBytes v => with_bounds mn mx (λ mn mx, apply_bytes_op op mn mx v nc)
  | _, _ => true
  end.

(** A row group: the statistics of its column chunks; the schema: the names of the leaf
    columns. *)
Record RowGroupMetaData := { rg_columns : list (option Statistics) }.
Abbreviation SchemaDescriptor := (list string).

Fixpoint position (name : string) (columns : SchemaDescriptor) : option nat :=
  match columns with
  | [] => None
  | c :: columns => if decide (c = name) then Some 0 else S <$> position name columns
  end.

Definition cmp_might_match (rg : RowGroupMetaData) (schema : SchemaDescriptor) (column : string) (op : CmpOp) (value : Scalar)
    : bool :=
  match value with
  | SNull => true
  | _ =>
      match position column schema with
      | None => true
      | Some col_idx =>
          match rg_columns rg !! col_idx with
          | None => true
          | Some None => true
          | Some (Some stats) => evaluate_cmp stats op value
          end
      end
  end.

Fixpoint row_group_might_match (p : Predicate) (rg : RowGroupMetaData) (schema : SchemaDescriptor) : bool :=
  match p with
  | PAll => true
  | PNone => false
  | PNot _ => true
  | PAnd ps => forallb (λ p, row_group_might_match p rg schema) ps
  | POr ps => existsb (λ p, row_group_might_match p rg schema) ps
  | PCmp column op value => cmp_might_match rg schema column op value
  end.

(** ** Reading with a predicate: [read_with_predicate_from_bytes]

    A file is its fields and its row groups, each with its statistics and rows.
    Decoding the surviving groups is the Parquet reader's: [decode] cuts their rows into
    batches. *)
Record ParquetFile := { pf_fields : list (string * DataType); pf_leaves : SchemaDescriptor;
                        pf_groups : list (RowGroupMetaData * list Row) }.

Definition surviving (p : Predicate) (f : ParquetFile) : list (RowGroupMetaData * list Row) :=
  List.filter (λ g, row_group_might_match p g.1 (pf_leaves f)) (pf_groups f).

Definition read_batches (decode : list Row → list (list Row)) (f : ParquetFile) (groups : list (RowGroupMetaData * list Row))
    : list RecordBatch :=
  (λ rows, {| b_fields := pf_fields f; b_rows := rows |}) <$> decode (concat groups.*2).

Definition read_all_batches (decode : list Row → list (list Row)) (f : ParquetFile) : list RecordBatch :=
  read_batches decode f (pf_groups f).

Definition read_with_predicate (decode : list Row → list (list Row)) (p : Predicate) (f : ParquetFile) : list RecordBatch :=
  read_batches decode f (surviving p f).
