(* ===== verification/PredicateProps.v ===== *)
(** * Soundness of row-group pruning

    A row group is skipped only if none of its rows satisfies the predicate, so that
    reading with a predicate and then filtering gives the rows that filtering alone
    gives. *)

From Stdlib Require Import SpecFloat.
From S2P Require Import Prelude Bytes Predicate.

(** ** The value of a predicate on one row *)
Section Rows.
Context (float_cmp : DataType → CmpOp → spec_float → spec_float → bool).

Definition eval_cell (t : DataType) (op : CmpOp) (value : Scalar) (c : Cell) : option bool :=
  match value with
  | SInt32 v => if decide (t = DInt32) then cmp_int_cell op v c else None
  | SInt64 v => if decide (t = DInt64) then cmp_int_cell op v c else None
  | SFloat32 v => if decide (t = DFloat32) then cmp_float_cell float_cmp DFloat32 op v c else None
  | SFloat64 v => if decide (t = DFloat64) then cmp_float_cell float_cmp DFloat64 op v c else None
  | SBytes v => if decide (t = DUtf8) then cmp_str_cell op v c else None
  | SBool _ | SNull => None
  end.

Fixpoint eval_row (p : Predicate) (fields : list (string * DataType)) (r : Row) : option bool :=
  match p with
  | PAll => Some true
  | PNone => Some false
  | PCmp column op value =>
      match index_of column fields with
      | None => None
      | Some (i, t) => eval_cell t op value (cell i r)
      end
  | PAnd ps => foldl and_null (Some true) (map (λ p, eval_row p fields r) ps)
  | POr ps => foldl or_null (Some false) (map (λ p, eval_row p fields r) ps)
  | PNot p => not_null (eval_row p fields r)
  end.

Lemma fmap_replicate_const {A B} (l : list A) (x : B) : replicate (length l) x = (λ _, x) <$> l.
Proof. induction l; csimpl; by f_equal. Qed.

Lemma zip_with_fmap2 {A B C D} (f : B → C → D) (g : A → B) (h : A → C) l :
  zip_with f (g <$> l) (h <$> l) = (λ x, f (g x) (h x)) <$> l.
Proof. induction l; csimpl; by f_equal. Qed.

Lemma eval_column_rows t (rows : list Row) i op value mask :
  evaluate_cmp_column float_cmp t (cell i <$> rows) op value = Ok mask →
  mask = (λ r, eval_cell t op value (cell i r)) <$> rows.
Proof.
  unfold evaluate_cmp_column, eval_cell. destruct value; try done; case_decide; try done; [intros [= <-]; by rewrite <-list_fmap_compose..|].
  destruct (utf8_valid v); [|done]. intros [= <-]. by rewrite <-list_fmap_compose.
Qed.

Lemma fold_masks_rows (eval : Predicate → columnar_result Mask) f (h : Predicate → Row → option bool) (rows : list Row) ps g mask :
  Forall (λ p, ∀ m, eval p = Ok m → m = h p <$> rows) ps →
  fold_masks eval f (g <$> rows) ps = Ok mask → mask = (λ r, foldl f (g r) (map (λ p, h p r) ps)) <$> rows.
Proof.
  intros Hps. revert g. induction Hps as [|p ps Hp _ IH]; intros g; simpl; [by intros [= <-]|].
  destruct (eval p) as [m|]; [|done]. rewrite (Hp m eq_refl), zip_with_fmap2. apply IH.
Qed.

(** Masks are computed row by row. *)
Lemma evaluate_batch_rows p b mask :
  evaluate_batch float_cmp p b = Ok mask → mask = eval_row p (b_fields b) <$> b_rows b.
Proof.
  revert mask. unfold num_rows. induction p as [column op value|ps IH|ps IH|p IH| |] using predicate_ind; intros mask; simpl;
    unfold num_rows; rewrite ?fmap_replicate_const.
  - destruct (index_of column (b_fields b)) as [[i t]|]; [|done]. apply eval_column_rows.
  - by apply (fold_masks_rows _ and_null (λ p, eval_row p (b_fields b))).
  - by apply (fold_masks_rows _ or_null (λ p, eval_row p (b_fields b))).
  - destruct (evaluate_batch float_cmp p b) as [m|]; [|done]. intros [= <-]. rewrite (IH m eq_refl). by rewrite <-list_fmap_compose.
  - by intros [= <-].
  - by intros [= <-].
Qed.

(** Whether a predicate can be evaluated depends on the fields alone. *)
Lemma evaluate_batch_ok p b b' mask :
  b_fields b' = b_fields b → evaluate_batch float_cmp p b = Ok mask → is_Ok (evaluate_batch float_cmp p b').
Proof.
  intros Hf. revert mask. induction p as [column op value|ps IH|ps IH|p IH| |] using predicate_ind; intros mask; simpl; try (by eexists).
  - rewrite Hf. destruct (index_of column (b_fields b)) as [[i t]|]; [|done]. unfold evaluate_cmp_column.
    destruct value; try done; case_decide; try done; try (by eexists). destruct (utf8_valid v); [by eexists|done].
  - generalize (replicate (num_rows b) (Some true)), (replicate (num_rows b') (Some true)).
    induction IH as [|p ps Hp _ IHps]; intros acc acc'; simpl; [by eexists|].
    destruct (evaluate_batch float_cmp p b) as [m|]; [|done]. destruct (Hp m eq_refl) as [m' ->]. apply IHps.
  - generalize (replicate (num_rows b) (Some false)), (replicate (num_rows b') (Some false)).
    induction IH as [|p ps Hp _ IHps]; intros acc acc'; simpl; [by eexists|].
    destruct (evaluate_batch float_cmp p b) as [m|]; [|done]. destruct (Hp m eq_refl) as [m' ->]. apply IHps.
  - destruct (evaluate_batch float_cmp p b) as [m|]; [|done]. destruct (IH m eq_refl) as [m' ->]. by eexists.
Qed.

Definition satisfies (p : Predicate) (fields : list (string * DataType)) (r : Row) : bool :=
  match eval_row p fields r with Some true => true | _ => false end.

Lemma filter_rows_spec (g : Row → option bool) rows :
  filter_rows rows (g <$> rows) = List.filter (λ r, match g r with Some true => true | _ => false end) rows.
Proof. induction rows as [|r rows IH]; csimpl; [done|]. destruct (g r) as [[]|]; unfold filter_rows in *; csimpl; by rewrite IH. Qed.

Definition table_rows (bs : list RecordBatch) : list Row := concat (b_rows <$> bs).

(** Filtering a table keeps the rows that satisfy the predicate, in order. *)
Lemma filter_batches_rows p fields bs out :
  Forall (λ b, b_fields b = fields) bs → filter_batches float_cmp p bs = Ok out →
  table_rows out = List.filter (satisfies p fields) (table_rows bs).
Proof.
  unfold table_rows. intros Hf. revert out. induction Hf as [|b bs Hb _ IH]; intros out; csimpl; [by intros [= <-]|].
  destruct (evaluate_batch float_cmp p b) as [mask|] eqn:Ee; [|done]. apply evaluate_batch_rows in Ee as ->.
  destruct (filter_batches float_cmp p bs) as [rest|]; [|done]. intros [= <-]. csimpl.
  rewrite List.filter_app, <-(IH rest eq_refl), Hb. change (satisfies p fields) with
    (λ r, match eval_row p fields r with Some true => true | _ => false end). rewrite <-filter_rows_spec.
  by destruct (filter_rows (b_rows b) (eval_row p fields <$> b_rows b)).
Qed.

Lemma filter_batches_ok p fields bs :
  (∀ b, b_fields b = fields → is_Ok (evaluate_batch float_cmp p b)) → Forall (λ b, b_fields b = fields) bs →
  is_Ok (filter_batches float_cmp p bs).
Proof.
  intros Hok. induction 1 as [|b bs Hb _ [rest IH]]; simpl; [by eexists|]. destruct (Hok b Hb) as [m ->]. rewrite IH. by eexists.
Qed.

(** ** Statistics describe a row group *)
Definition bounded {A} (le : A → A → Prop) (min_opt max_opt : option A) (x : A) : Prop :=
  (∀ mn, min_opt = Some mn → le mn x) ∧ (∀ mx, max_opt = Some mx → le x mx).

(** The bounds of a chunk hold for its non-null values.  The order is that of the
    column type; nothing is assumed of the other columns of the physical type. *)
Definition describes (st : Statistics) (t : DataType) (c : Cell) : Prop :=
  match st, t, c with
  | StInt32 mn mx _, DInt32, Some (VInt x) | StInt64 mn mx _, DInt64, Some (VInt x) => bounded Z.le mn mx x
  | StByteArray mn mx _, DUtf8, Some (VStr x) => bounded bytes_le mn mx x
  | _, _, _ => True
  end.

Definition group_ok (fields : list (string * DataType)) (g : RowGroupMetaData * list Row) : Prop :=
  ∀ i name t st r, fields !! i = Some (name, t) → rg_columns g.1 !! i = Some (Some st) → r ∈ g.2 → describes st t (cell i r).

Fixpoint float_free (p : Predicate) : bool :=
  match p with
  | PCmp _ _ (SFloat32 _) | PCmp _ _ (SFloat64 _) => false
  | PAnd ps | POr ps => forallb float_free ps
  | _ => true
  end.

Lemma index_of_position name (fields : list (string * DataType)) i t :
  index_of name fields = Some (i, t) → position name fields.*1 = Some i ∧ fields !! i = Some (name, t).
Proof.
  revert i. induction fields as [|[n t'] fields IH]; intros i; csimpl; [done|]. case_decide; [by intros [= <- <-]; subst|].
  destruct (index_of name fields) as [[j t'']|]; [|done]. simpl. intros [= <- <-].
  destruct (IH j eq_refl) as [-> ?]. done.
Qed.

Lemma apply_ord_sound op mn mx x v nc : (mn ≤ x)%Z → (x ≤ mx)%Z → cmp_Z op x v = true → apply_ord_op op mn mx v nc = true.
Proof.
  intros H1 H2. destruct op; simpl; intros H; rewrite ?negb_true_iff, ?andb_true_iff, ?andb_false_iff in *; lia.
Qed.

Lemma bytes_le_ltb_trans a b c : bytes_le a b → bytes_ltb b c = true → bytes_ltb a c = true.
Proof. apply bytes_leb_ltb_trans. Qed.

Lemma bytes_ltb_le_trans a b c : bytes_ltb a b = true → bytes_le b c → bytes_ltb a c = true.
Proof.
  intros H1 H2. destruct (bytes_ltb_trichotomy a c) as [H|[->|H]]; [done| |].
  - unfold bytes_le, bytes_leb in H2. by rewrite H1 in H2.
  - pose proof (bytes_ltb_trans _ _ _ H H1) as H3. unfold bytes_le, bytes_leb in H2. by rewrite H3 in H2.
Qed.

Lemma apply_bytes_sound op mn mx x v nc :
  bytes_le mn x → bytes_le x mx → cmp_bytes op x v = true → apply_bytes_op op mn mx v nc = true.
Proof.
  intros H1 H2. destruct op; simpl.
  - intros ->%bool_decide_eq_true. by rewrite H1, H2.
  - intros Hne. apply negb_true_iff, bool_decide_eq_false in Hne. apply negb_true_iff, andb_false_iff. left.
    apply andb_false_iff. destruct (bytes_eqb mn v) eqn:E1; [|by left]. destruct (bytes_eqb mx v) eqn:E2; [|by right].
    apply bool_decide_eq_true in E1, E2. subst. exfalso. apply Hne. by apply bytes_leb_antisym.
  - apply (bytes_le_ltb_trans _ _ _ H1).
  - intros H. by apply (bytes_le_trans _ _ _ H1).
  - intros H. by apply (bytes_ltb_le_trans _ _ _ H).
  - intros H. by apply (bytes_le_trans _ _ _ H).
Qed.

Lemma leaf_sound st t op value c :
  describes st t c → (match value with SFloat32 _ | SFloat64 _ => False | _ => True end) →
  eval_cell t op value c = Some true → evaluate_cmp st op value = true.
Proof.
  intros Hd Hv He. unfold eval_cell in He. destruct value; try done; (case_decide; [subst t|done]);
    destruct c as [[]|]; simpl in He; try done; injection He as He; destruct st; simpl in *; try done;
    destruct min_opt as [mn|], max_opt as [mx|]; simpl; try done; destruct Hd as [H1 H2]; specialize (H1 _ eq_refl); specialize (H2 _ eq_refl).
  - by eapply apply_ord_sound.
  - by eapply apply_ord_sound.
  - by eapply apply_bytes_sound.
Qed.

Lemma foldl_and_true (l : list (option bool)) a : foldl and_null a l = Some true → a = Some true ∧ Forall (λ x, x = Some true) l.
Proof.
  revert a. induction l as [|x l IH]; intros a; simpl; [done|]. intros [Ha Hl]%IH. destruct a as [[]|], x as [[]|]; try done.
  split; [done|]. by constructor.
Qed.

Lemma foldl_or_true (l : list (option bool)) a : foldl or_null a l = Some true → a = Some true ∨ Some true ∈ l.
Proof.
  revert a. induction l as [|x l IH]; intros a; simpl; [by left|]. intros [Ha|Hl]%IH; [|right; by right].
  destruct a as [[]|], x as [[]|]; try done; [by left|by left|right; by left].
Qed.

(** A row that satisfies the predicate keeps its group. *)
Lemma might_match_row p fields rg rows r :
  float_free p = true → group_ok fields (rg, rows) → r ∈ rows → eval_row p fields r = Some true →
  row_group_might_match p rg fields.*1 = true.
Proof.
  intros Hff Hg Hr. induction p as [column op value|ps IH|ps IH|p IH| |] using predicate_ind; simpl in *; try done.
  - destruct (index_of column fields) as [[i t]|] eqn:Ei; [|done]. intros He.
    destruct (index_of_position _ _ _ _ Ei) as [Hp Hf]. unfold cmp_might_match. rewrite Hp.
    assert (match value with SNull => true | _ => match rg_columns rg !! i with
      | None => true | Some None => true | Some (Some stats) => evaluate_cmp stats op value end end = true); [|by destruct value].
    destruct (rg_columns rg !! i) as [[st|]|] eqn:Es; [|by destruct value..].
    pose proof (leaf_sound st t op value _ (Hg _ _ _ _ _ Hf Es Hr)) as Hl. destruct value; try done; by apply Hl.
  - intros [_ Hall]%foldl_and_true. rewrite forallb_forall in Hff. apply forallb_forall. intros p Hin.
    pose proof Hin as Hin'%list_elem_of_In. rewrite Forall_forall in IH. rewrite Forall_forall in Hall. apply (IH p Hin'); [by apply Hff|].
    apply Hall. apply list_elem_of_In, in_map_iff. by exists p.
  - intros [?|Hin]%foldl_or_true; [done|]. apply list_elem_of_In, in_map_iff in Hin as (p & He & Hp). apply existsb_exists. exists p.
    rewrite forallb_forall in Hff. rewrite Forall_forall in IH. split; [done|]. apply (IH p); [by apply list_elem_of_In|by apply Hff|done].
Qed.

(** ** Theorems *)

(** C9: Pruning is sound for predicates without floating-point comparisons on a flat
    schema.  A row group whose statistics bound its values is skipped only if no row of it
    satisfies the predicate: if the mask of any batch with the fields of the file is true
    at a row of the group, the group is kept.  The predicate may combine comparisons of
    integers and strings with [And], [Or] and [Not] in any way. *)
Theorem pruning_sound p b mask g r :
  float_free p = true → group_ok (b_fields b) g → r ∈ g.2 →
  evaluate_batch float_cmp p b = Ok mask → (r, Some true) ∈ zip (b_rows b) mask →
  row_group_might_match p g.1 (b_fields b).*1 = true.
Proof.
  intros Hff Hg Hr He Hz. destruct g as [rg rows]. apply (might_match_row p (b_fields b) rg rows r); [done..|].
  rewrite (evaluate_batch_rows _ _ _ He) in Hz. revert Hz. generalize (b_rows b). intros l Hz.
  induction l as [|x l IH]; csimpl in Hz; [by apply elem_of_nil in Hz|]. apply elem_of_cons in Hz as [Heq|Hz]; [|by apply IH].
  by injection Heq as -> ->.
Qed.

(** The file is flat and its statistics bound its values. *)
Definition file_ok (f : ParquetFile) : Prop :=
  pf_leaves f = (pf_fields f).*1 ∧ Forall (group_ok (pf_fields f)) (pf_groups f).

Lemma filter_pruned p f : float_free p = true → file_ok f →
  List.filter (satisfies p (pf_fields f)) (concat (surviving p f).*2) =
  List.filter (satisfies p (pf_fields f)) (concat (pf_groups f).*2).
Proof.
  intros Hff [Hl Hg]. unfold surviving. rewrite Hl. induction Hg as [|[rg rows] gs Hg _ IH]; csimpl; [done|].
  destruct (row_group_might_match p rg (pf_fields f).*1) eqn:Em; csimpl; rewrite !List.filter_app, IH; [done|].
  rewrite <-(app_nil_l (List.filter _ (concat gs.*2))) at 1. f_equal. symmetry.
  apply filter_none. intros r Hr. unfold satisfies.
  destruct (eval_row p (pf_fields f) r) as [[]|] eqn:Ee; try done.
  by rewrite (might_match_row _ _ _ _ _ Hff Hg Hr Ee) in Em.
Qed.

Context (decode : list Row → list (list Row)) (decode_rows : ∀ rows, concat (decode rows) = rows).

Lemma read_batches_fields f groups : Forall (λ b, b_fields b = pf_fields f) (read_batches decode f groups).
Proof. apply Forall_fmap, Forall_true. done. Qed.

Lemma read_batches_rows f groups : table_rows (read_batches decode f groups) = concat groups.*2.
Proof. unfold table_rows, read_batches. rewrite <-list_fmap_compose. rewrite <-(decode_rows (concat groups.*2)) at 2. f_equal. apply list_fmap_id. Qed.

(** Reading with a predicate and filtering gives what filtering the whole file
    gives.  However the reader cuts the rows into batches, if the predicate can be
    evaluated on the file, then it can be evaluated on the groups that survive
    pruning, and the two results hold the same rows in the same order. *)
Theorem read_with_predicate_filter p f out :
  float_free p = true → file_ok f →
  filter_batches float_cmp p (read_all_batches decode f) = Ok out →
  ∃ out', filter_batches float_cmp p (read_with_predicate decode p f) = Ok out' ∧ table_rows out' = table_rows out.
Proof.
  intros Hff Hf Hall. pose proof (filter_pruned p f Hff Hf) as Hp.
  assert (is_Ok (filter_batches float_cmp p (read_with_predicate decode p f))) as [out' Hout'].
  { unfold read_with_predicate. destruct (read_all_batches decode f) as [|b bs] eqn:Eb.
    - pose proof (read_batches_rows f (pf_groups f)) as Hr. unfold read_all_batches in Eb. rewrite Eb in Hr.
      assert (concat (surviving p f).*2 = concat (pf_groups f).*2) as Hs.
      { rewrite <-Hr. cbn. unfold surviving. clear -Hr. induction (pf_groups f) as [|[rg rows] gs IH]; csimpl in *; [done|].
        apply symmetry, app_nil in Hr as [-> Hr]. destruct (row_group_might_match p rg (pf_leaves f)); csimpl; by rewrite IH. }
      unfold read_batches in *. rewrite Hs, Eb. by eexists.
    - simpl in Hall. destruct (evaluate_batch float_cmp p b) as [mask|] eqn:Ee; [|done].
      apply (filter_batches_ok _ (pf_fields f)); [|apply read_batches_fields]. intros b' Hb'.
      apply (evaluate_batch_ok p b b' mask); [|done]. rewrite Hb'. symmetry.
      pose proof (read_batches_fields f (pf_groups f)) as Hff'. unfold read_all_batches in Eb. rewrite Eb in Hff'.
      by apply Forall_cons in Hff' as [? _]. }
  exists out'. split; [done|].
  rewrite (filter_batches_rows p (pf_fields f) _ out' (read_batches_fields f _) Hout').
  rewrite (filter_batches_rows p (pf_fields f) _ out (read_batches_fields f _) Hall).
  unfold read_with_predicate, read_all_batches. by rewrite !read_batches_rows.
Qed.
End Rows.

(** ** A file with two row groups *)
Definition demo_fields : list (string * DataType) := [("id", DInt32); ("name", DUtf8)]%string.
Definition demo_row (z : Z) (s : bytes) : Row := [Some (VInt z); Some (VStr s)].
Definition demo_group1 : RowGroupMetaData * list Row :=
  ({| rg_columns := [Some (StInt32 (Some 1%Z) (Some 2%Z) (Some 0%Z)); None] |}, [demo_row 1 [x61]; demo_row 2 [x62]]).
Definition demo_group2 : RowGroupMetaData * list Row :=
  ({| rg_columns := [Some (StInt32 (Some 7%Z) (Some 9%Z) (Some 0%Z)); Some (StByteArray (Some [x61]) None None)] |},
   [demo_row 7 [x63]; demo_row 9 [x61]]).
Definition demo_file : ParquetFile :=
  {| pf_fields := demo_fields; pf_leaves := demo_fields.*1; pf_groups := [demo_group1; demo_group2] |}.
Definition demo_pred : Predicate :=
  PAnd [PCmp "id" CGt (SInt32 2); POr [PCmp "name" CLe (SBytes [x62]); PNot PAll]].

Definition no_float_cmp (t : DataType) (op : CmpOp) (x v : spec_float) : bool := false.

Lemma demo_groups_ok : Forall (group_ok demo_fields) [demo_group1; demo_group2].
Proof.
  repeat constructor; intros i name t st r Hf Hc Hr; repeat (destruct i as [|i]; simpl in *; try done); simplify_eq;
    repeat (apply elem_of_cons in Hr as [->|Hr]; [simpl; repeat split; intros ? [= <-]; try lia; done|]); by apply elem_of_nil in Hr.
Qed.

Lemma pruning_sound_witness : row_group_might_match demo_pred demo_group2.1 demo_fields.*1 = true.
Proof.
  refine (pruning_sound no_float_cmp demo_pred {| b_fields := demo_fields; b_rows := demo_group2.2 |}
    [Some false; Some true] demo_group2 (demo_row 9 [x61]) _ _ _ _ _).
  - done.
  - pose proof demo_groups_ok as H. apply Forall_cons in H as [_ H]. by apply Forall_cons in H as [H _].
  - simpl. right. by left.
  - vm_compute. done.
  - simpl. right. by left.
Defined.

(** The reader returns all rows in one batch; the first group is skipped. *)
Example demo_pruned : length (surviving demo_pred demo_file) = 1.
Proof. vm_compute. done. Qed.

Lemma read_with_predicate_filter_witness :
  ∃ out', filter_batches no_float_cmp demo_pred (read_with_predicate (λ rows, [rows]) demo_pred demo_file) = Ok out' ∧
    table_rows out' = table_rows [{| b_fields := demo_fields; b_rows := [demo_row 9 [x61]] |}].
Proof.
  refine (read_with_predicate_filter no_float_cmp (λ rows, [rows]) _ demo_pred demo_file _ _ _ _).
  - intros rows. simpl. apply app_nil_r.
  - done.
  - split; [done|]. apply demo_groups_ok.
  - vm_compute. done.
Defined.
