(* ===== verification/FloatProps.v ===== *)
(** * Pruning on floating-point statistics

    [apply_float_op_f32] and [apply_float_op_f64], which compare as IEEE numbers, against
    the row filter ([apply_cmp_f32], [apply_cmp_f64]), whose Arrow kernels compare by
    [totalOrder]: there -0.0 is less than 0.0, and a NaN is beyond the infinity of its
    sign.  Pruning is sound except where the two orders differ, on NaN rows and between
    the zeros, and except for [Ne], which compares with an absolute tolerance; each
    exception loses rows. *)

From Stdlib Require Import SpecFloat.
From S2P Require Import Prelude Bytes Predicate.

(** Numbers are ordered as triples: class, exponent, mantissa. *)
Definition float_key (f : spec_float) : Z * Z * Z :=
  match f with
  | S754_infinity true => (-2, 0, 0)
  | S754_finite true m e => (-1, - e, - Zpos m)
  | S754_zero _ => (0, 0, 0)
  | S754_finite false m e => (1, e, Zpos m)
  | S754_infinity false => (2, 0, 0)
  | S754_nan => (3, 0, 0)
  end%Z.

Definition key_compare (a b : Z * Z * Z) : comparison :=
  let '(a1, a2, a3) := a in
  let '(b1, b2, b3) := b in
  match (a1 ?= b1)%Z with
  | Eq => match (a2 ?= b2)%Z with Eq => (a3 ?= b3)%Z | c => c end
  | c => c
  end.

Lemma SFcompare_key f g : is_nan f = false → is_nan g = false → SFcompare f g = Some (key_compare (float_key f) (float_key g)).
Proof.
  destruct f as [s|s| |s m e], g as [s'|s'| |s' m' e']; simpl; try done; intros _ _; destruct s; try destruct s'; simpl; try done; f_equal.
  rewrite Z.compare_opp, (Z.compare_antisym e e'). by destruct (e ?= e')%Z.
Qed.

(** Comparisons as arithmetic on the keys. *)
Definition key_lt (a b : Z * Z * Z) : Prop :=
  let '(a1, a2, a3) := a in
  let '(b1, b2, b3) := b in
  (a1 < b1 ∨ a1 = b1 ∧ (a2 < b2 ∨ a2 = b2 ∧ a3 < b3))%Z.

Lemma key_compare_spec a b :
  match key_compare a b with Eq => a = b | Lt => key_lt a b | Gt => key_lt b a end.
Proof.
  destruct a as [[a1 a2] a3], b as [[b1 b2] b3]. simpl. destruct (Z.compare_spec a1 b1); [|lia|lia].
  destruct (Z.compare_spec a2 b2); [|lia|lia]. destruct (Z.compare_spec a3 b3); [congruence|lia|lia].
Qed.

Lemma float_leb f g : is_nan f = false → is_nan g = false → SFleb f g = true ↔ ¬ key_lt (float_key g) (float_key f).
Proof.
  intros Hf Hg. unfold SFleb. rewrite SFcompare_key by done. pose proof (key_compare_spec (float_key f) (float_key g)) as H.
  destruct (key_compare _ _); destruct (float_key f) as [[]], (float_key g) as [[]]; simpl in *; split; try done; try lia.
  injection H as -> -> ->. lia.
Qed.

Lemma float_ltb f g : is_nan f = false → is_nan g = false → SFltb f g = true ↔ key_lt (float_key f) (float_key g).
Proof.
  intros Hf Hg. unfold SFltb. rewrite SFcompare_key by done. pose proof (key_compare_spec (float_key f) (float_key g)) as H.
  destruct (key_compare _ _); destruct (float_key f) as [[]], (float_key g) as [[]]; simpl in *; split; try done; try lia.
  injection H as -> -> ->. lia.
Qed.

Lemma float_eqb f g : is_nan f = false → is_nan g = false → SFeqb f g = true ↔ float_key f = float_key g.
Proof.
  intros Hf Hg. unfold SFeqb. rewrite SFcompare_key by done. pose proof (key_compare_spec (float_key f) (float_key g)) as H.
  destruct (key_compare _ _); destruct (float_key f) as [[]], (float_key g) as [[]]; simpl in *; split; try done; intros [= -> -> ->]; lia.
Qed.

(** A float of a column: the number, and for a NaN its bits, negative with the sign set. *)
Record ArrowFloat := { num : spec_float; nan_bits : Z }.

Definition number (f : spec_float) : ArrowFloat := {| num := f; nan_bits := 0 |}.

(** The documented order of the Arrow kernels on floats, [totalOrder] of IEEE 754. *)
Definition total_key (x : ArrowFloat) : Z * Z * Z :=
  match num x with
  | S754_nan => if (nan_bits x <? 0)%Z then (-3, nan_bits x, 0)%Z else (3, nan_bits x, 0)%Z
  | S754_zero true => (0, -1, 0)%Z
  | f => float_key f
  end.

Definition total_cmp (op : CmpOp) (x v : ArrowFloat) : bool :=
  match op, key_compare (total_key x) (total_key v) with
  | CEq, Eq | CNe, (Lt | Gt) | CLt, Lt | CLe, (Lt | Eq) | CGt, Gt | CGe, (Gt | Eq) => true
  | _, _ => false
  end.

Definition is_zero (f : spec_float) : bool := match f with S754_zero _ => true | _ => false end.

(** Where pruning by IEEE comparisons does not follow the filter. *)
Definition pruning_gap (op : CmpOp) (x v : spec_float) : bool :=
  match op with
  | CEq => false
  | CNe => true
  | CLe | CGe => is_nan x
  | CLt | CGt => is_nan x || (is_zero x && is_zero v)
  end.

(** What the filter says of numbers, in the keys of the IEEE order. *)
Lemma total_cmp_key op x v : is_nan (num x) = false → is_nan (num v) = false → pruning_gap op (num x) (num v) = false →
  total_cmp op x v = true →
  let kx := float_key (num x) in let kv := float_key (num v) in
  match op with
  | CEq => kx = kv | CNe => False | CLt => key_lt kx kv | CLe => ¬ key_lt kv kx | CGt => key_lt kv kx | CGe => ¬ key_lt kx kv
  end.
Proof.
  intros Hx Hv Hgap. unfold total_cmp. pose proof (key_compare_spec (total_key x) (total_key v)) as H. revert H.
  destruct x as [x bx], v as [v bv]. unfold total_key, num in *.
  destruct x as [[]|[]| |[] m e], v as [[]|[]| |[] m' e']; try done; destruct op; try done; destruct (key_compare _ _); try done; simpl; try lia;
    intros Heq _; try (by simplify_eq); injection Heq; lia.
Qed.

(** A NaN is equal to a NaN only. *)
Lemma total_eq_nan x v : is_nan (num x) = true → total_cmp CEq x v = true → is_nan (num v) = true.
Proof.
  intros Hx. unfold total_cmp. pose proof (key_compare_spec (total_key x) (total_key v)) as H. destruct (key_compare _ _); try done. intros _. revert H.
  destruct x as [x bx], v as [v bv]. unfold total_key, num in *. destruct x; try done. cbn [nan_bits]. destruct (bx <? 0)%Z; by destruct v as [[]|[]| |[] m e].
Qed.

Ltac float_arith :=
  repeat match goal with
  | f : spec_float |- _ => generalize (float_key f); clear f; intros [[? ?] ?]
  end; simpl; intros; simplify_eq; lia.

(** C32: Floating-point pruning against the row filter, which compares by [totalOrder],
    in single and in double precision.  If the bounds hold for the numbers of the row
    group and a row compares with the scalar as the predicate asks, the row group is
    kept: for [Eq] whatever the row; for [Le] and [Ge] if the row is not NaN; for [Lt] and
    [Gt] if the row is not NaN and the row and the scalar are not both zero.  With a NaN
    among the scalar and the bounds it is kept in any case.  [Ne] is excluded. *)
Theorem float_pruning_sound op min max x v null_count :
  (is_nan (num x) = false → SFleb min (num x) = true ∧ SFleb (num x) max = true) →
  total_cmp op x v = true → pruning_gap op (num x) (num v) = false →
  apply_float_op_f32 op min max (num v) null_count = true ∧ apply_float_op_f64 op min max (num v) null_count = true.
Proof.
  intros Hb Hc Hgap. assert (∀ prec emax eps, apply_float_op prec emax eps op min max (num v) null_count = true) as H; [|by split; apply H].
  intros prec emax eps. unfold apply_float_op. destruct (is_nan (num v) || is_nan min || is_nan max) eqn:En; [done|].
  apply orb_false_iff in En as [[Hv Hmn]%orb_false_iff Hmx]. destruct (is_nan (num x)) eqn:Hx.
  { destruct op; simpl in Hgap; rewrite ?Hx in Hgap; try done. apply total_eq_nan in Hc; congruence. }
  destruct (Hb eq_refl) as [Hmin Hmax]. apply float_leb in Hmin, Hmax; [|done..]. apply total_cmp_key in Hc; [|done..].
  clear Hb Hgap. destruct x as [x bx], v as [v bv]. cbn [num] in *.
  destruct op; simpl in Hc; try done; rewrite ?andb_true_iff, ?float_leb, ?float_ltb by done; clear -Hmin Hmax Hc.
  - split; revert Hmin Hmax Hc; float_arith.
  - revert Hmin Hmax Hc; float_arith.
  - revert Hmin Hmax Hc; float_arith.
  - revert Hmin Hmax Hc; float_arith.
  - revert Hmin Hmax Hc; float_arith.
Qed.

(** The numbers 2^-60, 1.0 and 5.0. *)
Definition tiny : spec_float := S754_finite false 4503599627370496 (-112).
Definition one : spec_float := S754_finite false 4503599627370496 (-52).
Definition five : spec_float := S754_finite false 5629499534213120 (-50).

Lemma float_pruning_sound_witness :
  apply_float_op_f32 CGt tiny one (S754_zero true) (Some 0%Z) = true ∧
  apply_float_op_f64 CGt tiny one (S754_zero true) (Some 0%Z) = true.
Proof. apply (float_pruning_sound CGt tiny one (number one) (number (S754_zero true)) (Some 0%Z)); done. Defined.

(** [Ne] pruning on floats drops rows that match.  The bounds are compared with
    the scalar up to the machine epsilon, an absolute tolerance: a group that holds
    only 2^-60 and no null is skipped for the predicate [<> 0.0], which every row of
    it satisfies. *)
Theorem float_ne_prunes_matching :
  ∃ x v, total_cmp CNe (number x) (number v) = true ∧ is_nan x = false ∧
    evaluate_cmp (StDouble (Some x) (Some x) (Some 0%Z)) CNe (SFloat64 v) = false.
Proof. exists tiny, (S754_zero false). vm_compute. done. Qed.

(** The statistics of a group leave NaN out: the group of 1.0 and NaN is skipped for
    [> 5.0], which the NaN row satisfies. *)
Theorem float_nan_prunes_matching :
  let nan := {| num := S754_nan; nan_bits := 1 |} in
  total_cmp CGt nan (number five) = true ∧
  evaluate_cmp (StDouble (Some one) (Some one) (Some 0%Z)) CGt (SFloat64 five) = false.
Proof. vm_compute. done. Qed.

(** A group of -0.0 is skipped for [< 0.0], which its rows satisfy, whichever zeros its
    bounds are. *)
Theorem float_zero_prunes_matching s s' :
  total_cmp CLt (number (S754_zero true)) (number (S754_zero false)) = true ∧
  evaluate_cmp (StDouble (Some (S754_zero s)) (Some (S754_zero s')) (Some 0%Z)) CLt (SFloat64 (S754_zero false)) = false.
Proof. done. Qed.
