(* ===== verification/Partition.v ===== *)
(** * [oxistore-columnar/src/partition.rs]: partitioned datasets

    Hive-style datasets: rows are grouped by the values of the partition columns, each
    group is written to a file below a directory named after its values, and a
    tab-separated manifest lists the groups.  Text is a list of Unicode scalar values.
    The Parquet encoding is the class [Parquet]; the file system is a map from paths
    relative to the root to contents, whose operations succeed; the iteration order of
    the [HashMap] of groups is a parameter.  Outer compression is not modelled. *)

From S2P Require Import Prelude Bytes.

(** ** Text *)
Abbreviation text := (list Z).

Definition TAB : Z := 9.
Definition NEWLINE : Z := 10.
Definition RETURN : Z := 13.

(** The code points of an ASCII string. *)
Definition txt (s : string) : text := (λ b, byte_Z b) <$> String.list_byte_of_string s.

Fixpoint text_ltb (a b : text) : bool :=
  match a, b with
  | _, [] => false
  | [], _ :: _ => true
  | x :: a, y :: b => if (x <? y)%Z then true else if (y <? x)%Z then false else text_ltb a b
  end.

Definition text_leb (a b : text) : bool := negb (text_ltb b a).

Fixpoint join (sep : text) (l : list text) : text :=
  match l with
  | [] => []
  | [a] => a
  | a :: l => a ++ sep ++ join sep l
  end.

(** [str::split(c)] *)
Fixpoint split_on (c : Z) (s : text) : list text :=
  match s with
  | [] => [[]]
  | x :: s =>
      if (x =? c)%Z then [] :: split_on c s
      else match split_on c s with p :: ps => (x :: p) :: ps | [] => [[x]] end
  end.

(** [str::splitn(n, c)]: the last piece holds the rest. *)
Fixpoint splitn (n : nat) (c : Z) (s : text) {struct s} : list text :=
  match n with
  | 0 => []
  | S n' =>
      match s with
      | [] => [[]]
      | x :: s' =>
          if decide (n' = 0) then [s]
          else if (x =? c)%Z then [] :: splitn n' c s'
          else match splitn n c s' with p :: ps => (x :: p) :: ps | [] => [[x]] end
      end
  end.

(** [BufRead::lines]: a final newline ends the last line, and a carriage return before
    a newline belongs to it. *)
Definition strip_cr (line : text) : text :=
  match last line with
  | Some c => if (c =? RETURN)%Z then take (length line - 1) line else line
  | None => line
  end.

Definition lines (s : text) : list text :=
  let pieces := split_on NEWLINE s in
  match last pieces with
  | Some [] => strip_cr <$> take (length pieces - 1) pieces
  | Some rest => (strip_cr <$> take (length pieces - 1) pieces) ++ [rest]
  | None => []
  end.

Fixpoint text_starts_with (s p : text) : bool :=
  match p, s with
  | [], _ => true
  | x :: p, y :: s => (x =? y)%Z && text_starts_with s p
  | _ :: _, [] => false
  end.

(** Decimal numbers: [Display] and [parse::<usize>]. *)
Fixpoint print_nat_fuel (fuel : nat) (n : Z) (acc : text) : text :=
  match fuel with
  | 0 => acc
  | S fuel =>
      let acc := (48 + n mod 10)%Z :: acc in
      if (n <? 10)%Z then acc else print_nat_fuel fuel (n / 10) acc
  end.

(** A [usize] has at most twenty digits. *)
Definition print_usize (n : Z) : text := print_nat_fuel 20 n [].

Definition digit_value (c : Z) : option Z := if ((48 <=? c) && (c <=? 57))%Z then Some (c - 48)%Z else None.

Definition USIZE_MAX : Z := 18446744073709551615.

Fixpoint parse_digits (s : text) (n : Z) : option Z :=
  match s with
  | [] => Some n
  | c :: s => d ← digit_value c; let n := (n * 10 + d)%Z in if (n <=? USIZE_MAX)%Z then parse_digits s n else None
  end.

Definition parse_usize (s : text) : option Z :=
  match s with
  | [] => None
  | c :: rest =>
      if (c =? 43)%Z then match rest with [] => None | _ => parse_digits rest 0 end
      else parse_digits s 0
  end.

(** ** Values as directory names *)
Section Encoding.
Context (is_alphanumeric : Z → bool).

Definition encode_partition_value (value : text) : text :=
  (λ c, if is_alphanumeric c || bool_decide (c ∈ txt "-.+_") then c else 95%Z) <$> value.
End Encoding.

(** ** Partition predicates *)
Inductive PartitionPredicate :=
| PartEq (v : text)
| PartIn (vs : list text)
| PartRange (lo hi : text)
| PartAnd (pairs : list (text * PartitionPredicate)).

(** [None] is a panic. *)
Definition matches_single (p : PartitionPredicate) (value : text) : option bool :=
  match p with
  | PartEq v => Some (bool_decide (value = v))
  | PartIn vs => Some (existsb (λ v, bool_decide (v = value)) vs)
  | PartRange lo hi => Some (text_leb lo value && text_ltb value hi)
  | PartAnd _ => None
  end.

Fixpoint text_position (name : text) (names : list text) : option nat :=
  match names with
  | [] => None
  | n :: names => if decide (n = name) then Some 0 else S <$> text_position name names
  end.

(** [all], which stops at the first pair that does not match. *)
Fixpoint matches_all (pairs : list (text * PartitionPredicate)) (column_names values : list text) : option bool :=
  match pairs with
  | [] => Some true
  | (col_name, sub_pred) :: pairs =>
      match text_position col_name column_names with
      | None => Some false
      | Some i =>
          b ← matches_single sub_pred (default [] (values !! i));
          if b : bool then matches_all pairs column_names values else Some false
      end
  end.

Definition matches_multi (p : PartitionPredicate) (column_names values : list text) : option bool :=
  match p with
  | PartAnd pairs => matches_all pairs column_names values
  | other => matches_single other (default [] (head values))
  end.

(** ** The manifest *)
Record ManifestEntry := { partition_values : list text; rel_path : text; row_count : Z }.

Inductive PartitionError :=
| PartSchemaMismatch (msg : text)
| Manifest (msg : string) (line : nat)
| PartParquet (msg : string)
| PartIo (msg : string)
| PartCompress (msg : string).

Abbreviation part_result A := (result A PartitionError).

Definition line_of (fields : list text) : text := join [TAB] fields ++ [NEWLINE].

Definition write_manifest (columns : list text) (entries : list ManifestEntry) : text :=
  if decide (length columns = 1) then
    line_of [txt "partition_value"; txt "rel_path"; txt "row_count"] ++
    concat ((λ e, line_of [default [] (head (partition_values e)); rel_path e; print_usize (row_count e)]) <$> entries)
  else
    (txt "manifest_version=2" ++ [NEWLINE]) ++
    line_of (columns ++ [txt "rel_path"; txt "row_count"]) ++
    concat ((λ e, line_of [join [TAB] (partition_values e); rel_path e; print_usize (row_count e)]) <$> entries).

(** The data lines of the two formats; [i] is the number of the line in messages. *)
Fixpoint read_v1 (i : nat) (ls : list text) : part_result (list ManifestEntry) :=
  match ls with
  | [] => Ok []
  | line :: ls =>
      match splitn 3 TAB line with
      | [v; path; count] =>
          match parse_usize count with
          | None => Err (Manifest "invalid row_count" i)
          | Some n =>
              let? rest := read_v1 (S i) ls in
              Ok ({| partition_values := [v]; rel_path := path; row_count := n |} :: rest)
          end
      | _ => Err (Manifest "expected 3 tab-separated fields" i)
      end
  end.

Fixpoint read_v2 (n_cols i : nat) (ls : list text) : part_result (list ManifestEntry) :=
  match ls with
  | [] => Ok []
  | line :: ls =>
      let parts := splitn (n_cols + 3) TAB line in
      if length parts <? n_cols + 2 then Err (Manifest "expected tab-separated fields" i)
      else
        match parse_usize (default [] (parts !! (n_cols + 1))) with
        | None => Err (Manifest "invalid row_count" i)
        | Some n =>
            let? rest := read_v2 n_cols (S i) ls in
            Ok ({| partition_values := take n_cols parts; rel_path := default [] (parts !! n_cols); row_count := n |} :: rest)
        end
  end.

Definition read_manifest (columns : list text) (content : text) : part_result (list text * list ManifestEntry) :=
  match lines content with
  | [] => Err (Manifest "manifest.tsv is empty" 0)
  | first_line :: ls =>
      if text_starts_with first_line (txt "manifest_version=") then
        match ls with
        | [] => Err (Manifest "v2 manifest has no header line" 0)
        | header_line :: ls =>
            let headers := split_on TAB header_line in
            if length headers <? 3 then Err (Manifest "v2 manifest header has too few fields" 0)
            else
              let n_cols := length headers - 2 in
              let? entries := read_v2 n_cols 3 ls in
              Ok (take n_cols headers, entries)
        end
      else
        let? entries := read_v1 2 ls in
        Ok ([default (txt "partition_value") (head columns)], entries)
  end.

(** ** Batches and files

    A batch: for every field its name and whether it is a [Utf8] column, and the rows,
    one text per field (other types play no part here). *)
Record PartBatch := { pb_fields : list (text * bool); pb_rows : list (list text) }.
Abbreviation PartRow := (list text).

(** The file of a group: [write_group_to_file] and [read_group_from_file].  [PqData] is the
    type of file contents. *)
Class Parquet := {
  PqData : Type;
  pq_write : list (text * bool) → list PartBatch → part_result PqData;
  pq_read : PqData → part_result (list PartBatch);
}.

Definition batch_rows (bs : list PartBatch) : list PartRow := concat (pb_rows <$> bs).

(** What is written is read back, row by row. *)
Class ParquetLaws `{!Parquet} : Prop :=
  pq_roundtrip fields bs data : pq_write fields bs = Ok data → ∃ bs', pq_read data = Ok bs' ∧ batch_rows bs' = batch_rows bs.

Record Files `{!Parquet} := { manifest : option text; parts : gmap text PqData }.

(** [schema.index_of] and the downcast to [StringArray] *)
Fixpoint field_index (name : text) (fields : list (text * bool)) : option (nat * bool) :=
  match fields with
  | [] => None
  | (n, utf8) :: fields => if decide (n = name) then Some (0, utf8) else prod_map S id <$> field_index name fields
  end.

Section Dataset.
Context `{!Parquet} (is_alphanumeric : Z → bool).

(** The positions of the partition columns: all are located first, then checked. *)
Fixpoint locate_columns (columns : list text) (fields : list (text * bool)) : part_result (list (nat * bool)) :=
  match columns with
  | [] => Ok []
  | c :: columns =>
      match field_index c fields with
      | None => Err (PartSchemaMismatch c)
      | Some p => let? rest := locate_columns columns fields in Ok (p :: rest)
      end
  end.

Definition string_columns (columns : list text) (fields : list (text * bool)) : part_result (list nat) :=
  let? found := locate_columns columns fields in
  match List.find (λ p, negb (snd (fst p))) (zip found columns) with
  | Some (_, c) => Err (PartSchemaMismatch c)
  | None => Ok found.*1
  end.

Definition row_tuple (idx : list nat) (r : PartRow) : list text := (λ i, default [] (r !! i)) <$> idx.

(** The loop over the rows of a batch: a mask for each tuple. *)
Fixpoint row_masks (n row : nat) (tuples : list (list text)) (masks : gmap (list text) (list bool)) : gmap (list text) (list bool) :=
  match tuples with
  | [] => masks
  | t :: tuples =>
      let entry := default (replicate n false) (masks !! t) in
      row_masks n (S row) tuples (<[t := <[row := true]> entry]> masks)
  end.

Definition filter_mask (rows : list PartRow) (mask : list bool) : list PartRow :=
  omap (λ '(r, m), if m : bool then Some r else None) (zip rows mask).

Definition group_batch (columns : list text) (b : PartBatch) : part_result (gmap (list text) (list PartBatch)) :=
  let? idx := string_columns columns (pb_fields b) in
  let masks := row_masks (length (pb_rows b)) 0 (row_tuple idx <$> pb_rows b) ∅ in
  Ok ((λ mask, [{| pb_fields := pb_fields b; pb_rows := filter_mask (pb_rows b) mask |}]) <$> masks).

(** [groups.entry(tuple).or_default().push(filtered)] *)
Definition push_groups (groups new : gmap (list text) (list PartBatch)) : gmap (list text) (list PartBatch) :=
  union_with (λ a b, Some (a ++ b)) groups new.

Fixpoint group_batches (columns : list text) (bs : list PartBatch) (groups : gmap (list text) (list PartBatch))
    : part_result (gmap (list text) (list PartBatch)) :=
  match bs with
  | [] => Ok groups
  | b :: bs => let? new := group_batch columns b in group_batches columns bs (push_groups groups new)
  end.

Definition dir_rel (columns tuple : list text) : text :=
  join (txt "/") (zip_with (λ col val, col ++ txt "=" ++ encode_partition_value is_alphanumeric val) columns tuple).

Definition part_path (columns tuple : list text) : text := dir_rel columns tuple ++ txt "/part-0000.parquet".

(** The loop over the groups. *)
Fixpoint write_groups (columns : list text) (groups : list (list text * list PartBatch)) (files : gmap text PqData)
    : gmap text PqData * part_result (list ManifestEntry) :=
  match groups with
  | [] => (files, Ok [])
  | (tuple, bs) :: groups =>
      let fields := default [] (pb_fields <$> head bs) in
      match pq_write fields bs with
      | Err e => (files, Err e)
      | Ok data =>
          match write_groups columns groups (<[part_path columns tuple := data]> files) with
          | (files, Err e) => (files, Err e)
          | (files, Ok entries) =>
              (files, Ok ({| partition_values := tuple; rel_path := part_path columns tuple;
                             row_count := Z.of_nat (length (batch_rows bs)) |} :: entries))
          end
      end
  end.

Definition write_partitioned (hash_iter : gmap (list text) (list PartBatch) → list (list text * list PartBatch))
    (columns : list text) (bs : list PartBatch) (fs : Files) : Files * part_result unit :=
  match group_batches columns bs ∅ with
  | Err e => (fs, Err e)
  | Ok groups =>
      match write_groups columns (hash_iter groups) (parts fs) with
      | (files, Err e) => ({| manifest := manifest fs; parts := files |}, Err e)
      | (files, Ok entries) => ({| manifest := Some (write_manifest columns entries); parts := files |}, Ok ())
      end
  end.

(** ** Reading *)
Fixpoint read_entries (predicate : option PartitionPredicate) (column_names : list text) (files : gmap text PqData)
    (entries : list ManifestEntry) : option (part_result (list PartBatch)) :=
  match entries with
  | [] => Some (Ok [])
  | e :: entries =>
      keep ← match predicate with None => Some true | Some p => matches_multi p column_names (partition_values e) end;
      if negb keep then read_entries predicate column_names files entries
      else
        match files !! rel_path e with
        | None => Some (Err (PartIo "No such file or directory"))
        | Some data =>
            match pq_read data with
            | Err e => Some (Err e)
            | Ok bs =>
                rest ← read_entries predicate column_names files entries;
                Some (let? rest := rest in Ok (bs ++ rest))
            end
        end
  end.

(** [None] is a panic in a nested [And] predicate. *)
Definition read_partitioned (predicate : option PartitionPredicate) (columns : list text) (fs : Files)
    : option (part_result (list PartBatch)) :=
  match manifest fs with
  | None => Some (Err (PartIo "No such file or directory"))
  | Some content =>
      match read_manifest columns content with
      | Err e => Some (Err e)
      | Ok (column_names, entries) => read_entries predicate column_names (parts fs) entries
      end
  end.

Definition list_partitions (columns : list text) (fs : Files) : part_result (list (list text * text * Z)) :=
  match manifest fs with
  | None => Err (PartIo "No such file or directory")
  | Some content =>
      let? (_, entries) := read_manifest columns content in
      Ok ((λ e, (partition_values e, rel_path e, row_count e)) <$> entries)
  end.
End Dataset.
