(* ===== verification/PartitionData.v ===== *)
(** * Writing and reading a partitioned dataset

    What [read_partitioned] returns after [write_partitioned]: the rows whose partition
    values match the predicate, each once, when no two partitions share a directory;
    and what happens when two do. *)

From S2P Require Import Prelude Bytes Partition PartitionProps.

(** ** Masks *)
Lemma row_masks_prefix (T1 T2 : list (list text)) masks :
  (∀ t, masks !! t = if decide (t ∈ T1) then Some (((λ t', bool_decide (t' = t)) <$> T1) ++ replicate (length T2) false) else None) →
  ∀ t, row_masks (length T1 + length T2) (length T1) T2 masks !! t
    = if decide (t ∈ T1 ++ T2) then Some ((λ t', bool_decide (t' = t)) <$> T1 ++ T2) else None.
Proof.
  revert T1 masks. induction T2 as [|u T2 IH]; intros T1 masks Hm t.
  { simpl. rewrite Hm, !app_nil_r. done. }
  cbn [row_masks]. rewrite (cons_middle u T1 T2), app_assoc.
  replace (length T1 + length (u :: T2)) with (length (T1 ++ [u]) + length T2) by (rewrite length_app; simpl; lia).
  replace (S (length T1)) with (length (T1 ++ [u])) by (rewrite length_app; simpl; lia).
  apply IH. intros v. rewrite length_app. simpl. destruct (decide (v = u)) as [->|Hne].
  - rewrite lookup_insert_eq, decide_True by set_solver. f_equal. rewrite Hm. rewrite fmap_app. simpl. rewrite bool_decide_true by done.
    case_decide as Hu; simpl.
    + rewrite insert_app_r_alt by (by rewrite length_fmap). rewrite length_fmap, Nat.sub_diag. simpl. by rewrite <-app_assoc.
    + rewrite <-app_assoc. simpl. replace (length T1 + 1 + length T2) with (length T1 + S (length T2)) by lia.
      rewrite replicate_add. simpl. rewrite insert_app_r_alt by (by rewrite length_replicate).
      rewrite length_replicate, Nat.sub_diag. simpl. f_equal. clear -Hu. induction T1 as [|w T1 IHT]; [done|]. csimpl.
      rewrite bool_decide_false by set_solver. f_equal. apply IHT. set_solver.
  - rewrite lookup_insert_ne by done. rewrite Hm, fmap_app, <-app_assoc. simpl. rewrite (bool_decide_false (u = v)) by congruence.
    destruct (decide (v ∈ T1)); [rewrite decide_True by set_solver|rewrite decide_False by set_solver]; done.
Qed.

Lemma row_masks_spec T t :
  row_masks (length T) 0 T ∅ !! t = if decide (t ∈ T) then Some ((λ t', bool_decide (t' = t)) <$> T) else None.
Proof. apply (row_masks_prefix [] T ∅). intros u. rewrite lookup_empty, decide_False by set_solver. done. Qed.

Lemma filter_mask_spec (f : PartRow → list text) rows t :
  filter_mask rows ((λ t', bool_decide (t' = t)) <$> (f <$> rows)) = filter (λ r, f r = t) rows.
Proof.
  induction rows as [|r rows IH]; [done|]. unfold filter_mask in *. csimpl. rewrite IH, filter_cons.
  destruct (decide (f r = t)); [rewrite bool_decide_true|rewrite bool_decide_false]; done.
Qed.

(** ** Rows with their partition values *)
Definition tag_batch (columns : list text) (b : PartBatch) : part_result (list (list text * PartRow)) :=
  let? idx := string_columns columns (pb_fields b) in Ok ((λ r, (row_tuple idx r, r)) <$> pb_rows b).

Fixpoint tagged_rows (columns : list text) (bs : list PartBatch) : part_result (list (list text * PartRow)) :=
  match bs with
  | [] => Ok []
  | b :: bs => let? l := tag_batch columns b in let? rest := tagged_rows columns bs in Ok (l ++ rest)
  end.

Definition rows_of (t : list text) (l : list (list text * PartRow)) : list PartRow := (filter (λ p, p.1 = t) l).*2.
Definition group_rows (g : gmap (list text) (list PartBatch)) (t : list text) : list PartRow := batch_rows (default [] (g !! t)).

Lemma batch_rows_app a b : batch_rows (a ++ b) = batch_rows a ++ batch_rows b.
Proof. unfold batch_rows. by rewrite fmap_app, concat_app. Qed.

Lemma rows_of_app t a b : rows_of t (a ++ b) = rows_of t a ++ rows_of t b.
Proof. unfold rows_of. by rewrite filter_app, fmap_app. Qed.

Lemma rows_of_tagged (f : PartRow → list text) rows t : rows_of t ((λ r, (f r, r)) <$> rows) = filter (λ r, f r = t) rows.
Proof. unfold rows_of. induction rows as [|r rows IH]; [done|]. csimpl. rewrite !filter_cons. simpl. case_decide; csimpl; by rewrite IH. Qed.

Lemma rows_of_nil t l : t ∉ l.*1 → rows_of t l = [].
Proof. intros Ht. unfold rows_of. induction l as [|[u r] l IH]; [done|]. rewrite filter_cons_False; [|set_solver]. apply IH. set_solver. Qed.

Lemma group_batch_spec columns b new :
  group_batch columns b = Ok new → ∃ l, tag_batch columns b = Ok l ∧
    (∀ t, is_Some (new !! t) ↔ t ∈ l.*1) ∧ ∀ t, group_rows new t = rows_of t l.
Proof.
  unfold group_batch, tag_batch. destruct (string_columns columns (pb_fields b)) as [idx|]; [|done]. simpl. intros [= <-].
  eexists. split; [done|]. rewrite <-list_fmap_compose.
  assert (∀ t, row_masks (length (pb_rows b)) 0 (row_tuple idx <$> pb_rows b) ∅ !! t =
    if decide (t ∈ row_tuple idx <$> pb_rows b) then Some ((λ t', bool_decide (t' = t)) <$> (row_tuple idx <$> pb_rows b)) else None) as Hm.
  { intros t. rewrite <-row_masks_spec, length_fmap. done. }
  split; intros t.
  - rewrite lookup_fmap, Hm. change (fst ∘ _) with (row_tuple idx). case_decide; simpl; done.
  - unfold group_rows. rewrite lookup_fmap, Hm, rows_of_tagged. case_decide as Ht; simpl.
    + unfold batch_rows. simpl. rewrite app_nil_r. apply filter_mask_spec.
    + symmetry. rewrite <-rows_of_tagged. apply rows_of_nil. by rewrite <-list_fmap_compose.
Qed.

Lemma push_groups_spec g new t :
  (is_Some (push_groups g new !! t) ↔ is_Some (g !! t) ∨ is_Some (new !! t)) ∧
  group_rows (push_groups g new) t = group_rows g t ++ group_rows new t.
Proof.
  unfold push_groups, group_rows. rewrite lookup_union_with.
  destruct (g !! t), (new !! t); simpl; rewrite ?batch_rows_app, ?app_nil_r; split; try done; rewrite ?is_Some_alt; naive_solver.
Qed.

Lemma group_batches_spec columns bs groups g :
  group_batches columns bs groups = Ok g → ∃ l, tagged_rows columns bs = Ok l ∧
    (∀ t, is_Some (g !! t) ↔ is_Some (groups !! t) ∨ t ∈ l.*1) ∧ ∀ t, group_rows g t = group_rows groups t ++ rows_of t l.
Proof.
  revert groups. induction bs as [|b bs IH]; intros groups; simpl.
  { intros [= <-]. eexists. split; [done|]. split; intros t; [set_solver|]. by rewrite app_nil_r. }
  destruct (group_batch columns b) as [new|] eqn:Hnew; [|done]. simpl. intros Hg.
  apply group_batch_spec in Hnew as (l1 & Hl1 & Hd1 & Hr1). apply IH in Hg as (l2 & Hl2 & Hd2 & Hr2). rewrite Hl1, Hl2. simpl.
  eexists. split; [done|]. split; intros t; destruct (push_groups_spec groups new t) as [Hd Hr].
  - rewrite Hd2, Hd, Hd1, fmap_app, elem_of_app. tauto.
  - by rewrite Hr2, Hr, Hr1, rows_of_app, <-app_assoc.
Qed.

Lemma filter_ext_elem {A} (P Q : A → Prop) `{!∀ x, Decision (P x), !∀ x, Decision (Q x)} (l : list A) :
  (∀ x, x ∈ l → P x ↔ Q x) → filter P l = filter Q l.
Proof.
  induction l as [|x l IH]; intros Hx; [done|]. rewrite !filter_cons, IH by set_solver.
  destruct (decide (P x)), (decide (Q x)); try done; exfalso; specialize (Hx x); set_solver.
Qed.

(** The groups together hold the rows. *)
Lemma rows_split (ks : list (list text)) l : NoDup ks →
  concat ((λ t, rows_of t l) <$> ks) ≡ₚ (filter (λ p, p.1 ∈ ks) l).*2.
Proof.
  induction 1 as [|k ks Hk _ IH]; csimpl.
  { induction l as [|p l IHl]; [done|]. rewrite filter_cons_False; [done|set_solver]. }
  rewrite IH. unfold rows_of. clear IH. induction l as [|[t r] l IHl]; [done|]. rewrite !filter_cons. simpl.
  destruct (decide (t = k)) as [->|Hne].
  - rewrite (decide_True (P := k ∈ k :: ks)) by set_solver. rewrite decide_False by done. csimpl. by rewrite IHl.
  - destruct (decide (t ∈ ks)).
    + rewrite (decide_True (P := t ∈ k :: ks)) by set_solver. csimpl. rewrite <-IHl. by rewrite Permutation_middle.
    + rewrite (decide_False (P := t ∈ k :: ks)) by set_solver. done.
Qed.

(** ** Files *)
Section Files.
Context `{!Parquet, !ParquetLaws} (is_alphanumeric : Z → bool).

Abbreviation part_path := (part_path is_alphanumeric).
Abbreviation write_groups := (write_groups is_alphanumeric).

Definition group_entry (columns : list text) (p : list text * list PartBatch) : ManifestEntry :=
  {| partition_values := p.1; rel_path := part_path columns p.1; row_count := Z.of_nat (length (batch_rows p.2)) |}.

Definition holds_rows (files : gmap text PqData) (columns : list text) (p : list text * list PartBatch) : Prop :=
  ∃ data bs', files !! part_path columns p.1 = Some data ∧ pq_read data = Ok bs' ∧ batch_rows bs' = batch_rows p.2.

Lemma write_groups_other columns groups files files' entries path :
  path ∉ part_path columns <$> groups.*1 → write_groups columns groups files = (files', Ok entries) → files' !! path = files !! path.
Proof.
  revert files entries. induction groups as [|[t bs] groups IH]; intros files entries Hp; simpl; [by intros [= <- _]|].
  destruct (pq_write _ bs) as [data|]; [|done]. destruct (write_groups columns groups _) as [f [es|]] eqn:Hw; [|done].
  intros [= <- _]. apply IH in Hw; [|set_solver]. rewrite Hw. apply lookup_insert_ne. set_solver.
Qed.

Lemma write_groups_spec columns groups files files' entries :
  NoDup (part_path columns <$> groups.*1) → write_groups columns groups files = (files', Ok entries) →
  entries = group_entry columns <$> groups ∧ Forall (holds_rows files' columns) groups.
Proof.
  revert files entries. induction groups as [|[t bs] groups IH]; intros files entries Hnd; simpl; [by intros [= <- <-]|].
  apply NoDup_cons in Hnd as [Hn Hnd]. destruct (pq_write _ bs) as [data|] eqn:Hpw; [|done].
  destruct (write_groups columns groups _) as [f [es|]] eqn:Hw; [|done]. intros [= <- <-].
  destruct (IH _ _ Hnd Hw) as [-> Hall]. split; [done|]. constructor; [|done].
  apply pq_roundtrip in Hpw as (bs' & Hr & Hrows). exists data, bs'. split; [|done].
  rewrite (write_groups_other _ _ _ _ _ _ Hn Hw). apply lookup_insert_eq.
Qed.

(** ** Predicates that do not nest *)
Definition is_and (p : PartitionPredicate) : bool := match p with PartAnd _ => true | _ => false end.

Definition flat (p : PartitionPredicate) : bool :=
  match p with PartAnd pairs => forallb (λ q, negb (is_and q.2)) pairs | _ => true end.

Definition keeps (predicate : option PartitionPredicate) (columns values : list text) : bool :=
  match predicate with None => true | Some p => default false (matches_multi p columns values) end.

Lemma matches_flat p columns values : flat p = true → is_Some (matches_multi p columns values).
Proof.
  destruct p as [v|vs|lo hi|pairs]; simpl; [eauto..|]. induction pairs as [|[c q] pairs IH]; simpl; [eauto|].
  intros [Hq Hp]%andb_prop. destruct (text_position c columns) as [i|]; [|eauto].
  assert (is_Some (matches_single q (default [] (values !! i)))) as [b ->] by (destruct q; simpl; eauto || done).
  destruct b; simpl; [by apply IH|eauto].
Qed.

Lemma read_entries_spec predicate columns files groups :
  from_option flat true predicate = true → Forall (holds_rows files columns) groups →
  ∃ out, read_entries predicate columns files (group_entry columns <$> groups) = Some (Ok out) ∧
    batch_rows out = concat ((λ p, batch_rows p.2) <$> filter (λ p, keeps predicate columns p.1 = true) groups).
Proof.
  intros Hflat. induction 1 as [|[t bs] groups (data & bs' & Hf & Hr & Hrows) _ (out & Hout & Hb)]; [by exists []|].
  rewrite fmap_cons. cbn [read_entries]. simpl partition_values. simpl rel_path.
  assert (match predicate with None => Some true | Some p => matches_multi p columns t end = Some (keeps predicate columns t)) as ->.
  { destruct predicate as [p|]; [|done]. simpl. by destruct (matches_flat p columns t Hflat) as [b ->]. }
  cbn [mbind option_bind]. rewrite filter_cons. simpl fst. destruct (keeps predicate columns t); simpl negb; cbn iota.
  - rewrite decide_True by done. simpl in Hf. rewrite Hf, Hr, Hout. simpl. eexists. split; [done|]. by rewrite batch_rows_app, Hrows, Hb.
  - rewrite decide_False by done. eauto.
Qed.
End Files.

(** ** The dataset *)
Lemma field_index_length columns fields found : locate_columns columns fields = Ok found → length found = length columns.
Proof.
  revert found. induction columns as [|c columns IH]; intros found; simpl; [by intros [= <-]|].
  destruct (field_index c fields); [|done]. destruct (locate_columns columns fields); [|done]. intros [= <-]. simpl. f_equal. by apply IH.
Qed.

Lemma string_columns_length columns fields idx : string_columns columns fields = Ok idx → length idx = length columns.
Proof.
  unfold string_columns. destruct (locate_columns columns fields) as [found|] eqn:Hl; [|done]. simpl. apply field_index_length in Hl.
  destruct (List.find _ _) as [[? ?]|]; [done|]. intros [= <-]. by rewrite length_fmap.
Qed.

Lemma tagged_rows_spec columns bs l : tagged_rows columns bs = Ok l →
  l.*2 = batch_rows bs ∧ Forall (λ p, length p.1 = length columns) l.
Proof.
  revert l. induction bs as [|b bs IH]; intros l; simpl; [by intros [= <-]|]. unfold tag_batch.
  destruct (string_columns columns (pb_fields b)) as [idx|] eqn:Hi; [|done]. simpl.
  destruct (tagged_rows columns bs) as [l2|]; [|done]. intros [= <-]. destruct (IH l2 eq_refl) as [Hr Hl].
  unfold batch_rows. csimpl. rewrite fmap_app, <-list_fmap_compose, list_fmap_id. split; [by f_equal|].
  apply Forall_app. split; [|done]. apply Forall_fmap, Forall_true. intros r. simpl. unfold row_tuple.
  rewrite length_fmap. by apply (string_columns_length _ (pb_fields b)).
Qed.

Lemma rows_of_length t l : length (rows_of t l) ≤ length l.
Proof. unfold rows_of. rewrite length_fmap. apply length_filter. Qed.

Lemma encode_clean is_alphanumeric v : clean v → clean (encode_partition_value is_alphanumeric v).
Proof.
  intros [Ht Hn]. split; apply Forall_fmap; [apply (Forall_impl _ _ _ Ht)|apply (Forall_impl _ _ _ Hn)]; intros c Hc; simpl; by destruct (_ || _).
Qed.

Lemma part_path_clean is_alphanumeric columns t :
  Forall clean columns → Forall clean t → clean (part_path is_alphanumeric columns t).
Proof.
  intros Hc Ht. unfold part_path, dir_rel.
  assert (Forall clean (zip_with (λ col val, col ++ txt "=" ++ encode_partition_value is_alphanumeric val) columns t)) as Hz.
  { clear -Hc Ht. revert t Ht. induction Hc as [|c columns Hc _ IH]; intros t Ht; [done|]. destruct Ht as [|v t Hv Ht]; [done|].
    simpl. constructor; [|by apply IH]. pose proof (encode_clean is_alphanumeric v Hv) as [? ?]. destruct Hc as [? ?].
    split; unfold free_of; rewrite Forall_app; (split; [done|]); by constructor. }
  split; unfold free_of; rewrite Forall_app; (split; [|by repeat constructor]); (apply free_of_join; [by repeat constructor|]);
    apply (Forall_impl _ _ _ Hz); by intros ? [].
Qed.

Section Roundtrip.
Context `{!Parquet, !ParquetLaws} (is_alphanumeric : Z → bool).
Context (hash_iter : gmap (list text) (list PartBatch) → list (list text * list PartBatch)).
Hypothesis hash_iter_spec : ∀ g, hash_iter g ≡ₚ map_to_list g.

Lemma hash_iter_keys g : NoDup (hash_iter g).*1 ∧ ∀ t bs, (t, bs) ∈ hash_iter g ↔ g !! t = Some bs.
Proof.
  split; [rewrite hash_iter_spec; apply NoDup_fst_map_to_list|]. intros t bs. by rewrite hash_iter_spec, elem_of_map_to_list.
Qed.

Lemma kept_rows predicate columns g l :
  (∀ t, is_Some (g !! t) ↔ t ∈ l.*1) → (∀ t, group_rows g t = rows_of t l) →
  concat ((λ p, batch_rows p.2) <$> filter (λ p, keeps predicate columns p.1 = true) (hash_iter g))
  ≡ₚ (filter (λ p, keeps predicate columns p.1 = true) l).*2.
Proof.
  intros Hdom Hrows. destruct (hash_iter_keys g) as [Hnd Hin]. set (kept := filter _ (hash_iter g)).
  assert ((λ p, batch_rows p.2) <$> kept = (λ t, rows_of t l) <$> kept.*1) as ->.
  { rewrite <-list_fmap_compose. apply list_fmap_ext. intros i [t bs] Hi. simpl. apply list_elem_of_lookup_2 in Hi.
    unfold kept in Hi. apply list_elem_of_filter in Hi as [_ Hi%Hin]. rewrite <-Hrows. unfold group_rows. by rewrite Hi. }
  rewrite rows_split.
  - enough (filter (λ p, p.1 ∈ kept.*1) l = filter (λ p, keeps predicate columns p.1 = true) l) as -> by done.
    apply filter_ext_elem. intros [t r] Hp. simpl. unfold kept. split.
    + intros ([t' bs] & -> & Hk)%list_elem_of_fmap. by apply list_elem_of_filter in Hk as [? _].
    + intros Hk. destruct (proj2 (Hdom t)) as [bs Hbs]; [apply list_elem_of_fmap; by exists (t, r)|].
      apply list_elem_of_fmap. exists (t, bs). split; [done|]. apply list_elem_of_filter. split; [done|]. by apply Hin.
  - apply (sublist_NoDup _ (hash_iter g).*1); [done|]. apply fmap_sublist, sublist_filter.
Qed.

Lemma groups_entries_ok columns g l :
  Forall clean columns → (∀ t, is_Some (g !! t) ↔ t ∈ l.*1) → (∀ t, group_rows g t = rows_of t l) →
  Forall (λ p, length p.1 = length columns) l → Forall (λ p, Forall clean p.1) l → (Z.of_nat (length l) ≤ USIZE_MAX)%Z →
  Forall (entry_ok (length columns)) (group_entry is_alphanumeric columns <$> hash_iter g).
Proof.
  intros Hc Hdom Hrows Hlen Hclean Hmax. apply Forall_fmap, Forall_forall. intros [t bs] Ht. apply hash_iter_keys in Ht as Hg.
  destruct (proj1 (list_elem_of_fmap _ _ _) (proj1 (Hdom t) (ex_intro _ _ Hg))) as ([t' r] & -> & Hl). simpl in *.
  rewrite Forall_forall in Hlen, Hclean. specialize (Hlen _ Hl). specialize (Hclean _ Hl). simpl in *.
  split; [done|]. split; [done|]. split; [by apply part_path_clean|]. simpl.
  specialize (Hrows t'). unfold group_rows in Hrows. rewrite Hg in Hrows. simpl in Hrows. rewrite Hrows.
  pose proof (rows_of_length t' l). lia.
Qed.

(** C10: Reading a dataset back returns exactly the rows whose partition values match
    the predicate, each once, whatever the order in which the groups were written.  This
    takes: a write that succeeded, at least one partition column, column names and values
    without tabs and newlines, partitions whose directory names are distinct, no more rows
    than a [usize] counts, and a predicate in which no conjunction is nested in another. *)
Theorem partitioned_roundtrip predicate columns bs fs fs' l :
  columns ≠ [] → Forall clean columns →
  write_partitioned is_alphanumeric hash_iter columns bs fs = (fs', Ok ()) →
  tagged_rows columns bs = Ok l →
  Forall (λ p, Forall clean p.1) l → (Z.of_nat (length l) ≤ USIZE_MAX)%Z →
  (∀ t t', t ∈ l.*1 → t' ∈ l.*1 → part_path is_alphanumeric columns t = part_path is_alphanumeric columns t' → t = t') →
  from_option flat true predicate = true →
  ∃ out, read_partitioned predicate columns fs' = Some (Ok out) ∧
    batch_rows out ≡ₚ (filter (λ p, keeps predicate columns p.1 = true) l).*2.
Proof.
  intros Hne Hc Hw Hl Hclean Hmax Hdirs Hflat. unfold write_partitioned in Hw.
  destruct (group_batches columns bs ∅) as [g|] eqn:Hg; [|done]. apply group_batches_spec in Hg as (l' & Hl' & Hdom & Hrows).
  rewrite Hl' in Hl. injection Hl as ->. setoid_rewrite lookup_empty in Hdom. unfold group_rows at 2 in Hrows.
  setoid_rewrite lookup_empty in Hrows. simpl in Hrows.
  assert (∀ t, is_Some (g !! t) ↔ t ∈ l.*1) as Hdom' by (intros t; rewrite Hdom; unfold is_Some; naive_solver). clear Hdom.
  destruct (hash_iter_keys g) as [Hnd Hin].
  destruct (write_groups is_alphanumeric columns (hash_iter g) (parts fs)) as [files [entries|]] eqn:Hwg; [|done].
  injection Hw as <-. apply write_groups_spec in Hwg as [-> Hheld].
  - unfold read_partitioned. simpl. rewrite manifest_read_write; [|done..|].
    + destruct (read_entries_spec is_alphanumeric predicate columns files (hash_iter g) Hflat Hheld) as (out & Hout & Hb).
      exists out. split; [done|]. rewrite Hb. by apply kept_rows.
    + apply (groups_entries_ok _ _ l); try done. by apply tagged_rows_spec in Hl' as [_ ?].
  - apply NoDup_fmap_2_strong; [|done]. intros t t' Ht Ht'. apply Hdirs.
    + apply list_elem_of_fmap in Ht as ([? bs'] & -> & Ht%Hin). apply Hdom'. by eexists.
    + apply list_elem_of_fmap in Ht' as ([? bs'] & -> & Ht'%Hin). apply Hdom'. by eexists.
Qed.

Definition one_row (c v : text) : list PartBatch := [{| pb_fields := [(c, true)]; pb_rows := [[v]] |}].

Lemma group_two c a b : a ≠ b →
  group_batches [c] [{| pb_fields := [(c, true)]; pb_rows := [[a]; [b]] |}] ∅
  = Ok (<[[b] := one_row c b]> {[[a] := one_row c a]}).
Proof.
  intros Hab. cbn [group_batches]. unfold group_batch, string_columns. simpl. rewrite decide_True by done. simpl.
  f_equal. unfold push_groups. rewrite (left_id_L ∅ (union_with _)).
  rewrite lookup_insert_ne by congruence. rewrite !lookup_empty, !fmap_insert, fmap_empty. done.
Qed.

Lemma hash_iter_two (ta tb : list text) A B : ta ≠ tb →
  hash_iter (<[tb := B]> {[ta := A]}) = [(tb, B); (ta, A)] ∨ hash_iter (<[tb := B]> {[ta := A]}) = [(ta, A); (tb, B)].
Proof.
  intros Hne. apply Permutation_length_2_inv. rewrite hash_iter_spec, map_to_list_insert, map_to_list_singleton; [done|].
  by rewrite lookup_singleton_ne.
Qed.

Lemma collide_order c x y files :
  (∀ fields bs, ∃ data, pq_write fields bs = Ok data) →
  encode_partition_value is_alphanumeric x = encode_partition_value is_alphanumeric y →
  let groups := [([x], one_row c x); ([y], one_row c y)] in let entries := group_entry is_alphanumeric [c] <$> groups in
  ∃ files' out, write_groups is_alphanumeric [c] groups files = (files', Ok entries) ∧
    read_entries None [c] files' entries = Some (Ok out) ∧ batch_rows out = [[y]; [y]].
Proof.
  intros Htotal Henc. destruct (Htotal [(c, true)] (one_row c x)) as [dx Hx]. destruct (Htotal [(c, true)] (one_row c y)) as [dy Hy].
  destruct (pq_roundtrip _ _ _ Hy) as (bs & Hr & Hb). simpl.
  assert (part_path is_alphanumeric [c] [x] = part_path is_alphanumeric [c] [y]) as Hpath.
  { unfold part_path, dir_rel. simpl. by rewrite Henc. }
  rewrite Hx, Hy. eexists _, (bs ++ bs ++ []). split; [done|]. unfold group_entry. simpl.
  rewrite Hpath, lookup_insert_eq, Hr. split; [done|]. by rewrite app_nil_r, batch_rows_app, Hb.
Qed.

(** Two partition values that differ only in characters that directory names
    replace share a file.  The second group overwrites the first, and reading the
    dataset returns the rows of one group twice and those of the other not at all,
    without an error. *)
Theorem partition_directories_collide c a b fs :
  (∀ fields bs, ∃ data, pq_write fields bs = Ok data) →
  a ≠ b → clean c → clean a → clean b →
  encode_partition_value is_alphanumeric a = encode_partition_value is_alphanumeric b →
  let batch := {| pb_fields := [(c, true)]; pb_rows := [[a]; [b]] |} in
  ∃ fs' out, write_partitioned is_alphanumeric hash_iter [c] [batch] fs = (fs', Ok ()) ∧
    read_partitioned None [c] fs' = Some (Ok out) ∧
    (batch_rows out = [[a]; [a]] ∨ batch_rows out = [[b]; [b]]).
Proof.
  intros Htotal Hab Hc Ha Hb Henc batch. unfold write_partitioned, batch. rewrite group_two by done.
  assert (∀ v, clean v → entry_ok 1 (group_entry is_alphanumeric [c] ([v], one_row c v))) as Hok.
  { intros v Hv. split; [done|]. split; [by apply Forall_singleton|]. split; [by apply part_path_clean; apply Forall_singleton|].
    unfold USIZE_MAX. simpl. lia. }
  destruct (hash_iter_two [a] [b] (one_row c a) (one_row c b)) as [-> | ->]; [congruence| |].
  - destruct (collide_order c b a (parts fs) Htotal (eq_sym Henc)) as (files & out & -> & Hread & Hout).
    eexists _, out. split; [done|]. unfold read_partitioned. cbn [manifest parts]. rewrite manifest_v1; [auto|].
    constructor; [by apply Hok|]. constructor; [by apply Hok|done].
  - destruct (collide_order c a b (parts fs) Htotal Henc) as (files & out & -> & Hread & Hout).
    eexists _, out. split; [done|]. unfold read_partitioned. cbn [manifest parts]. rewrite manifest_v1; [auto|].
    constructor; [by apply Hok|]. constructor; [by apply Hok|done].
Qed.
End Roundtrip.

(** ** A concrete encoding: files hold the batches themselves *)
Module ToyParquet.
#[local] Instance toy : Parquet := {| PqData := list PartBatch; pq_write _ bs := Ok bs; pq_read := Ok |}.

#[local] Instance toy_laws : ParquetLaws.
Proof. intros fields bs data [= <-]. eauto. Qed.

Definition ascii_alphanumeric (c : Z) : bool :=
  ((48 <=? c) && (c <=? 57) || (65 <=? c) && (c <=? 90) || (97 <=? c) && (c <=? 122))%Z.

Definition demo_columns : list text := [txt "city"; txt "year"].
Definition demo_batches : list PartBatch :=
  [{| pb_fields := [(txt "city", true); (txt "n", true); (txt "year", true)];
      pb_rows := [[txt "Oslo"; txt "1"; txt "2024"]; [txt "Rome"; txt "2"; txt "2024"]; [txt "Oslo"; txt "3"; txt "2024"]] |};
   {| pb_fields := [(txt "year", true); (txt "city", true)]; pb_rows := [[txt "2024"; txt "Oslo"]; [txt "2025"; txt "Oslo"]] |}].
Definition demo_predicate : PartitionPredicate := PartAnd [(txt "year", PartRange (txt "2020") (txt "2025")); (txt "city", PartEq (txt "Oslo"))].

Definition demo_write := write_partitioned ascii_alphanumeric map_to_list demo_columns demo_batches {| manifest := None; parts := ∅ |}.

Definition demo_tagged : list (list text * PartRow) :=
  [([txt "Oslo"; txt "2024"], [txt "Oslo"; txt "1"; txt "2024"]); ([txt "Rome"; txt "2024"], [txt "Rome"; txt "2"; txt "2024"]);
   ([txt "Oslo"; txt "2024"], [txt "Oslo"; txt "3"; txt "2024"]); ([txt "Oslo"; txt "2024"], [txt "2024"; txt "Oslo"]);
   ([txt "Oslo"; txt "2025"], [txt "2025"; txt "Oslo"])].

Lemma partitioned_roundtrip_witness :
  ∃ out, read_partitioned (Some demo_predicate) demo_columns (fst demo_write) = Some (Ok out) ∧
    batch_rows out ≡ₚ [[txt "Oslo"; txt "1"; txt "2024"]; [txt "Oslo"; txt "3"; txt "2024"]; [txt "2024"; txt "Oslo"]].
Proof.
  refine (partitioned_roundtrip ascii_alphanumeric map_to_list (λ g, Permutation_refl _) (Some demo_predicate) demo_columns demo_batches
    {| manifest := None; parts := ∅ |} (fst demo_write) demo_tagged _ _ _ eq_refl _ _ _ eq_refl).
  - done.
  - repeat constructor; done.
  - rewrite (surjective_pairing (write_partitioned _ _ _ _ _)). f_equal.
  - repeat constructor; done.
  - done.
  - assert (bool_decide (Forall (λ t, Forall (λ t', part_path ascii_alphanumeric demo_columns t = part_path ascii_alphanumeric demo_columns t' → t = t')
      demo_tagged.*1) demo_tagged.*1) = true) as Hd by (vm_compute; reflexivity).
    apply bool_decide_eq_true_1 in Hd. intros t t' Ht Ht'. rewrite Forall_forall in Hd. specialize (Hd t Ht).
    rewrite Forall_forall in Hd. exact (Hd t' Ht').
Defined.

Lemma partition_directories_collide_witness :
  ∃ fs' out, write_partitioned ascii_alphanumeric map_to_list [txt "path"]
      [{| pb_fields := [(txt "path", true)]; pb_rows := [[txt "a/b"]; [txt "a b"]] |}] {| manifest := None; parts := ∅ |} = (fs', Ok ()) ∧
    read_partitioned None [txt "path"] fs' = Some (Ok out) ∧
    (batch_rows out = [[txt "a/b"]; [txt "a/b"]] ∨ batch_rows out = [[txt "a b"]; [txt "a b"]]).
Proof.
  refine (partition_directories_collide ascii_alphanumeric map_to_list (λ g, Permutation_refl _) (txt "path") (txt "a/b") (txt "a b")
    {| manifest := None; parts := ∅ |} _ _ _ _ _ eq_refl).
  - intros fields bs. exists bs. reflexivity.
  - done.
  - repeat constructor; done.
  - repeat constructor; done.
  - repeat constructor; done.
Defined.
End ToyParquet.
