(* ===== verification/S3.v ===== *)
(** * [oxistore-blob-s3]: the S3 blob store

    Requests, retries, listings and multipart uploads of [lib.rs], [retry.rs], [error.rs],
    [multipart.rs], [config.rs], [sigv4.rs] and [presign.rs].  The HTTP client with the service behind it is the
    class [Http] over the state of the service; parsing of URLs, the signer of the crate
    [aws_sigv4] and the reader of XML are the class [S3Lib]; how requests are given to the
    signer ([sigv4.rs], [presign.rs]) is modelled.  A call waits for every request it sends; [clock n] is the wall clock at attempt [n]. *)

From stdpp Require Import pretty.
From S2P Require Import Prelude Bytes Core Blob Url Partition.

(** ** HTTP *)
Record RawResponse := { raw_status : Z; raw_headers : list (bytes * bytes); raw_body : bytes }.

Class Http (W : Type) :=
  http_send : string → bytes → list (bytes * bytes) → bytes → W → W * result RawResponse string.

Record Url := { scheme : bytes; host_str : option bytes; port : option Z }.

(** The events of an XML document up to its end or to an error of the reader. *)
Inductive XmlEvent := XStart (name : bytes) | XText (t : result bytes string) | XEnd (name : bytes) | XOther.

Record S3Credentials := { access_key_id : bytes; secret_access_key : bytes; session_token : option bytes }.

(** The settings of the signer, and what it signs. *)
Inductive SignatureLocation := SigHeaders | SigQueryParams.
Inductive PercentEncodingMode := EncDouble | EncSingle.
Inductive PayloadChecksumKind := NoHeader | XAmzSha256.
Inductive UriPathNormalizationMode := NormEnabled | NormDisabled.
Record SigningSettings := {
  signature_location : SignatureLocation;
  expires_in : option Z;
  percent_encoding_mode : PercentEncodingMode;
  payload_checksum_kind : PayloadChecksumKind;
  uri_path_normalization_mode : UriPathNormalizationMode;
}.
Inductive SignableBody := SignBytes (data : bytes) | UnsignedPayload.

Class S3Lib := {
  url_parse : bytes → result Url string;
  (** [aws_sigv4]: [SigningSettings::default], the parameters of a signature (identity,
      region, service, time, settings), a request to sign, and the headers and query
      parameters that the signature adds *)
  default_signing_settings : SigningSettings;
  SigningParams : Type;
  v4_params : S3Credentials → bytes → bytes → Z → SigningSettings → result SigningParams string;
  SignableRequest : Type;
  signable_request : string → bytes → list (bytes * bytes) → SignableBody → result SignableRequest string;
  v4_sign : SignableRequest → SigningParams → result (list (bytes * bytes) * list (bytes * bytes)) string;
  xml_events : bytes → list XmlEvent * option string;
  xml_escape : bytes → bytes;
}.

Definition blob_display (e : BlobError) : string :=
  match e with
  | BlobNotFound key => "key not found: " +:+ key_string key
  | BlobAlreadyExists key => "key already exists: " +:+ key_string key
  | BlobIo e => "I/O error: " +:+ e
  | ChecksumMismatch expected actual => "checksum mismatch: key " +:+ key_string expected +:+ ": stored content has SHA-256 " +:+ key_string actual
  | BlobOther msg => msg
  | QuotaExceeded limit needed => "storage quota exceeded: limit " +:+ pretty limit +:+ " bytes, needed " +:+ pretty needed +:+ " bytes"
  | MultipartError msg => "multipart error: " +:+ msg
  | RetryExhausted attempts last => "retry exhausted after " +:+ pretty attempts +:+ " attempts: " +:+ last
  end.

(** [impl From<BlobError> for StoreError] *)
Definition blob_into_store (e : BlobError) : StoreError :=
  match e with
  | BlobNotFound k => Other ("blob not found: " +:+ key_string k)
  | BlobAlreadyExists _ => AlreadyExists
  | BlobIo e => Io e
  | ChecksumMismatch expected actual =>
      Corruption ("checksum mismatch: key " +:+ key_string expected +:+ ": stored content has SHA-256 " +:+ key_string actual)
  | QuotaExceeded _ _ => CapacityExceeded
  | other => Other (blob_display other)
  end.

(** ** [retry.rs] *)
Record RetryConfig := { max_attempts : Z; base_delay_ms : Z; max_delay_ms : Z }.
Definition default_retry : RetryConfig := {| max_attempts := 3; base_delay_ms := 100; max_delay_ms := 5000 |}.

Definition U64_MAX : Z := 18446744073709551615.
Definition saturating_mul (a b : Z) : Z := Z.min (a * b) U64_MAX.

(** [1u64.checked_shl(n)]: [None] when [n] is at least the width. *)
Definition checked_shl_1 (n : Z) : option Z := if (n <? 64)%Z then Some (wrap64 (Z.shiftl 1 n)) else None.

(** The delay in milliseconds. *)
Definition backoff_delay (config : RetryConfig) (attempt : Z) : Z :=
  let exp := default U64_MAX (checked_shl_1 (Z.min attempt 30)) in
  let base_ms := saturating_mul (base_delay_ms config) exp in
  let capped_ms := Z.min base_ms (max_delay_ms config) in
  if (attempt mod 2 =? 0)%Z then capped_ms else (saturating_mul capped_ms 3 / 4)%Z.

Definition should_retry_status (status : Z) : bool := bool_decide (status ∈ [429; 503]%Z).

(** ** [config.rs] *)
Record S3Config := {
  endpoint : bytes; region : bytes; bucket : bytes; credentials : S3Credentials;
  path_style : bool; timeout_secs : Z; retry_config : RetryConfig;
}.

Record S3BlobStoreBuilder := {
  sb_endpoint : option bytes; sb_region : option bytes; sb_bucket : option bytes; sb_credentials : option S3Credentials;
  sb_path_style : bool; sb_timeout_secs : Z; sb_retry_config : RetryConfig;
}.

Definition s3_builder_new : S3BlobStoreBuilder := {|
  sb_endpoint := None; sb_region := None; sb_bucket := None; sb_credentials := None;
  sb_path_style := true; sb_timeout_secs := 30; sb_retry_config := default_retry |}.

Definition s3_set_endpoint (e : bytes) (b : S3BlobStoreBuilder) : S3BlobStoreBuilder :=
  {| sb_endpoint := Some e; sb_region := sb_region b; sb_bucket := sb_bucket b; sb_credentials := sb_credentials b;
     sb_path_style := sb_path_style b; sb_timeout_secs := sb_timeout_secs b; sb_retry_config := sb_retry_config b |}.
Definition s3_set_region (r : bytes) (b : S3BlobStoreBuilder) : S3BlobStoreBuilder :=
  {| sb_endpoint := sb_endpoint b; sb_region := Some r; sb_bucket := sb_bucket b; sb_credentials := sb_credentials b;
     sb_path_style := sb_path_style b; sb_timeout_secs := sb_timeout_secs b; sb_retry_config := sb_retry_config b |}.
Definition s3_set_bucket (name : bytes) (b : S3BlobStoreBuilder) : S3BlobStoreBuilder :=
  {| sb_endpoint := sb_endpoint b; sb_region := sb_region b; sb_bucket := Some name; sb_credentials := sb_credentials b;
     sb_path_style := sb_path_style b; sb_timeout_secs := sb_timeout_secs b; sb_retry_config := sb_retry_config b |}.
Definition s3_set_credentials (c : S3Credentials) (b : S3BlobStoreBuilder) : S3BlobStoreBuilder :=
  {| sb_endpoint := sb_endpoint b; sb_region := sb_region b; sb_bucket := sb_bucket b; sb_credentials := Some c;
     sb_path_style := sb_path_style b; sb_timeout_secs := sb_timeout_secs b; sb_retry_config := sb_retry_config b |}.
Definition s3_set_path_style (p : bool) (b : S3BlobStoreBuilder) : S3BlobStoreBuilder :=
  {| sb_endpoint := sb_endpoint b; sb_region := sb_region b; sb_bucket := sb_bucket b; sb_credentials := sb_credentials b;
     sb_path_style := p; sb_timeout_secs := sb_timeout_secs b; sb_retry_config := sb_retry_config b |}.
Definition s3_set_timeout_secs (secs : Z) (b : S3BlobStoreBuilder) : S3BlobStoreBuilder :=
  {| sb_endpoint := sb_endpoint b; sb_region := sb_region b; sb_bucket := sb_bucket b; sb_credentials := sb_credentials b;
     sb_path_style := sb_path_style b; sb_timeout_secs := secs; sb_retry_config := sb_retry_config b |}.
Definition s3_set_retry_config (cfg : RetryConfig) (b : S3BlobStoreBuilder) : S3BlobStoreBuilder :=
  {| sb_endpoint := sb_endpoint b; sb_region := sb_region b; sb_bucket := sb_bucket b; sb_credentials := sb_credentials b;
     sb_path_style := sb_path_style b; sb_timeout_secs := sb_timeout_secs b; sb_retry_config := cfg |}.

(** [build]; the client with its timeouts is built by the HTTP library. *)
Definition s3_build (b : S3BlobStoreBuilder) : blob_result S3Config :=
  match sb_endpoint b with None => Err (BlobOther "S3BlobStoreBuilder: endpoint is required") | Some endpoint =>
  match sb_region b with None => Err (BlobOther "S3BlobStoreBuilder: region is required") | Some region =>
  match sb_bucket b with None => Err (BlobOther "S3BlobStoreBuilder: bucket is required") | Some bucket =>
  match sb_credentials b with None => Err (BlobOther "S3BlobStoreBuilder: credentials are required") | Some credentials =>
    Ok {| endpoint := endpoint; region := region; bucket := bucket; credentials := credentials;
          path_style := sb_path_style b; timeout_secs := sb_timeout_secs b; retry_config := sb_retry_config b |}
  end end end end.

Definition from_env_with (getter : string → option bytes) : blob_result S3Credentials :=
  match getter "AWS_ACCESS_KEY_ID" with
  | None => Err (BlobOther "AWS_ACCESS_KEY_ID environment variable is not set")
  | Some id =>
      match getter "AWS_SECRET_ACCESS_KEY" with
      | None => Err (BlobOther "AWS_SECRET_ACCESS_KEY environment variable is not set")
      | Some secret => Ok {| access_key_id := id; secret_access_key := secret; session_token := getter "AWS_SESSION_TOKEN" |}
      end
  end.

(** ** [lib.rs]: addresses *)
(** [trim_end_matches('/')] *)
Fixpoint trim_slashes (rev : bytes) : bytes := match rev with x2f :: rev => trim_slashes rev | _ => rev end.
Definition trim_end_slashes (s : bytes) : bytes := reverse (trim_slashes (reverse s)).

Definition decimal (n : Z) : bytes := ascii (pretty n).

(** [to_lowercase] of a header name, which is ASCII. *)
Definition ascii_lowercase (b : byte) : byte :=
  if ((65 <=? byte_Z b) && (byte_Z b <=? 90))%Z then Z_byte (byte_Z b + 32) else b.

(** [HeaderValue::to_str().unwrap_or("")] *)
Definition header_text (v : bytes) : bytes :=
  if forallb (λ b, ((32 <=? byte_Z b) && (byte_Z b <? 127) || (byte_Z b =? 9))%Z) v then v else [].

Definition header_map (l : list (bytes * bytes)) : gmap bytes bytes :=
  foldl (λ m '(k, v), <[ascii_lowercase <$> k := header_text v]> m) ∅ l.

Record InternalResponse := { status : Z; headers : gmap bytes bytes; body : bytes }.

Section Store.
Context {W : Type} `{!S3Lib, !Http W} (config : S3Config).

(** [{scheme}://{bucket}.{host}{port_suffix}] *)
Definition virtual_host (endpoint : bytes) : blob_result bytes :=
  match url_parse endpoint with
  | Err e => Err (BlobOther ("invalid endpoint URL: " +:+ e))
  | Ok parsed =>
      match host_str parsed with
      | None => Err (BlobOther "endpoint URL missing host")
      | Some host =>
          let port_suffix := match port parsed with Some p => ascii ":" ++ decimal p | None => [] end in
          Ok (scheme parsed ++ ascii "://" ++ bucket config ++ ascii "." ++ host ++ port_suffix)
      end
  end.

Definition bucket_url : blob_result bytes :=
  let endpoint := trim_end_slashes (endpoint config) in
  if path_style config then Ok (endpoint ++ ascii "/" ++ bucket config) else virtual_host endpoint.

Definition object_url (key : bytes) : blob_result bytes :=
  let? base := bucket_url in Ok (base ++ ascii "/" ++ percent_encode key).

Definition url_host_header (url : bytes) : blob_result bytes :=
  match url_parse url with
  | Err e => Err (BlobOther ("parse URL: " +:+ e))
  | Ok parsed =>
      match host_str parsed with
      | None => Err (BlobOther "URL has no host")
      | Some host =>
          let p := default (if bool_decide (scheme parsed = ascii "https") then 443 else 80)%Z (port parsed) in
          Ok (host ++ ascii ":" ++ decimal p)
      end
  end.

(** ** [sigv4.rs] *)
Definition sign_request (now : Z) (method : string) (uri : bytes) (headers : list (bytes * bytes)) (body : bytes) (cred : S3Credentials) (region : bytes)
    : blob_result (list (bytes * bytes)) :=
  let d := default_signing_settings in
  let settings := {| signature_location := signature_location d; expires_in := expires_in d; percent_encoding_mode := EncSingle;
                     payload_checksum_kind := XAmzSha256; uri_path_normalization_mode := NormDisabled |} in
  let? params := map_err (λ e, BlobOther ("sigv4 params build: " +:+ e)) (v4_params cred region (ascii "s3") now settings) in
  let? signable := map_err (λ e, BlobOther ("sigv4 signable request: " +:+ e)) (signable_request method uri headers (SignBytes body)) in
  let? (extra, _) := map_err (λ e, BlobOther ("sigv4 signing failed: " +:+ e)) (v4_sign signable params) in
  Ok extra.

(** ** [presign.rs] *)
Fixpoint query_string (params : list (bytes * bytes)) : bytes :=
  match params with
  | [] => []
  | [(k, v)] => k ++ ascii "=" ++ percent_encode v
  | (k, v) :: params => k ++ ascii "=" ++ percent_encode v ++ ascii "&" ++ query_string params
  end.

(** [presign_impl]; the time to live is passed on in nanoseconds. *)
Definition presign_impl (now : Z) (method : string) (key : bytes) (ttl : Z) (content_type : option bytes) : blob_result bytes :=
  let? uri := object_url key in
  let? host_header := url_host_header uri in
  let headers := [(ascii "host", host_header)] ++ match content_type with Some ct => [(ascii "content-type", ct)] | None => [] end in
  let d := default_signing_settings in
  let settings := {| signature_location := SigQueryParams; expires_in := Some ttl; percent_encoding_mode := EncSingle;
                     payload_checksum_kind := payload_checksum_kind d; uri_path_normalization_mode := NormDisabled |} in
  let? params := map_err (λ e, BlobOther ("presign: sigv4 params build: " +:+ e)) (v4_params (credentials config) (region config) (ascii "s3") now settings) in
  let? signable := map_err (λ e, BlobOther ("presign: signable request: " +:+ e)) (signable_request method uri headers UnsignedPayload) in
  let? (_, params) := map_err (λ e, BlobOther ("presign: signing failed: " +:+ e)) (v4_sign signable params) in
  Ok (match params with [] => uri | _ => uri ++ ascii "?" ++ query_string params end).

Definition presign_get (now : Z) (key : bytes) (ttl : Z) : blob_result bytes := presign_impl now "GET" key ttl None.
Definition presign_put (now : Z) (key : bytes) (ttl : Z) (content_type : option bytes) : blob_result bytes := presign_impl now "PUT" key ttl content_type.

(** ** Requests *)
Definition http_methods : list string := ["GET"; "PUT"; "POST"; "DELETE"; "HEAD"; "PATCH"].

Definition send_once (now : Z) (method : string) (url data : bytes) (extra : list (bytes * bytes)) (w : W) : W * blob_result InternalResponse :=
  match url_host_header url with
  | Err e => (w, Err e)
  | Ok host_header =>
      let sign_headers := (ascii "host", host_header) :: extra in
      match sign_request now method url sign_headers data (credentials config) (region config) with
      | Err e => (w, Err e)
      | Ok signed_headers =>
          if bool_decide (method ∈ http_methods) then
            match http_send method url (sign_headers ++ signed_headers) data w with
            | (w, Err e) => (w, Err (BlobOther ("HTTP " +:+ method +:+ ": " +:+ e)))
            | (w, Ok resp) =>
                (w, Ok {| status := raw_status resp; headers := header_map (raw_headers resp);
                          body := if bool_decide (method = "HEAD") then [] else raw_body resp |})
            end
          else (w, Err (BlobOther ("unsupported HTTP method: " +:+ method)))
      end
  end.

(** [for attempt in 0..max_attempts], with the pauses it slept, in milliseconds. *)
Fixpoint send_attempts (clock : Z → Z) (method : string) (url data : bytes) (extra : list (bytes * bytes))
    (attempts : list nat) (last_error : option BlobError) (w : W) : W * list Z * blob_result InternalResponse :=
  match attempts with
  | [] =>
      let last := default (BlobOther "unknown error") last_error in
      (w, [], Err (RetryExhausted (max_attempts (retry_config config)) (blob_display last)))
  | n :: attempts =>
      let attempt := Z.of_nat n in
      let pause := if bool_decide (0 < n) then [backoff_delay (retry_config config) (attempt - 1)] else [] in
      let '(w, r) := send_once (clock attempt) method url data extra w in
      match r with
      | Ok resp =>
          if should_retry_status (status resp) then
            let e := BlobOther ("S3 HTTP " +:+ pretty (status resp) +:+ " (retryable)") in
            let '(w, slept, r) := send_attempts clock method url data extra attempts (Some e) w in (w, pause ++ slept, r)
          else (w, pause, Ok resp)
      | Err e =>
          let '(w, slept, r) := send_attempts clock method url data extra attempts (Some e) w in (w, pause ++ slept, r)
      end
  end.

Definition send_timed (clock : Z → Z) (method : string) (url data : bytes) (extra : list (bytes * bytes)) (w : W)
    : W * list Z * blob_result InternalResponse :=
  send_attempts clock method url data extra (seq 0 (Z.to_nat (max_attempts (retry_config config)))) None w.

Definition send (clock : Z → Z) (method : string) (url data : bytes) (extra : list (bytes * bytes)) (w : W) : W * blob_result InternalResponse :=
  let '(w, _, r) := send_timed clock method url data extra w in (w, r).

(** ** [error.rs] *)
Record S3ErrorResponse := { code : bytes; message : bytes }.

Fixpoint error_fields (events : list XmlEvent) (current_tag : bytes) (resp : S3ErrorResponse) : S3ErrorResponse :=
  match events with
  | [] => resp
  | XStart name :: events => error_fields events name resp
  | XText t :: events =>
      let text := match t with Ok s => s | Err _ => [] end in
      error_fields events current_tag
        (if bool_decide (current_tag = ascii "Code") then {| code := text; message := message resp |}
         else if bool_decide (current_tag = ascii "Message") then {| code := code resp; message := text |}
         else resp)
  | _ :: events => error_fields events current_tag resp
  end.

Definition parse_error (xml : bytes) : option S3ErrorResponse :=
  if bool_decide (xml = []) then None
  else
    let resp := error_fields (xml_events xml).1 [] {| code := []; message := [] |} in
    if bool_decide (code resp = []) then None else Some resp.

Definition http_error_to_blob_error (status : Z) (data key : bytes) : BlobError :=
  match parse_error data with
  | Some s3_err =>
      if bool_decide (status = 404%Z) && bool_decide (code s3_err ∈ [ascii "NoSuchKey"; ascii "NoSuchBucket"]) then BlobNotFound key
      else BlobOther ("S3 error " +:+ pretty status +:+ " " +:+ key_string (code s3_err) +:+ ": " +:+ key_string (message s3_err))
  | None =>
      if bool_decide (status = 404%Z) then BlobNotFound key
      else BlobOther ("S3 HTTP " +:+ pretty status +:+ " for key " +:+ key_string key +:+ ": " +:+ key_string data)
  end.

(** ** The calls *)
Definition on_response {A} (clock : Z → Z) (method : string) (url : blob_result bytes) (data : bytes) (extra : list (bytes * bytes))
    (handle : InternalResponse → blob_result A) (w : W) : W * blob_result A :=
  match url with
  | Err e => (w, Err e)
  | Ok url => match send clock method url data extra w with
              | (w, Err e) => (w, Err e)
              | (w, Ok resp) => (w, handle resp)
              end
  end.

Definition s3_put (clock : Z → Z) (key data : bytes) : W → W * blob_result unit :=
  on_response clock "PUT" (object_url key) data []
    (λ resp, if bool_decide (status resp ∈ [200; 204]%Z) then Ok () else Err (http_error_to_blob_error (status resp) (body resp) key)).

Definition s3_get (clock : Z → Z) (key : bytes) : W → W * blob_result bytes :=
  on_response clock "GET" (object_url key) [] []
    (λ resp, if bool_decide (status resp = 200%Z) then Ok (body resp) else Err (http_error_to_blob_error (status resp) (body resp) key)).

Definition s3_delete (clock : Z → Z) (key : bytes) : W → W * blob_result unit :=
  on_response clock "DELETE" (object_url key) [] []
    (λ resp, if bool_decide (status resp ∈ [200; 204]%Z) then Ok ()
             else if bool_decide (status resp = 404%Z) then Err (BlobNotFound key)
             else Err (http_error_to_blob_error (status resp) (body resp) key)).

Definition s3_head (clock : Z → Z) (key : bytes) : W → W * blob_result BlobMeta :=
  on_response clock "HEAD" (object_url key) [] []
    (λ resp,
      if bool_decide (status resp = 200%Z) then
        let size := default 0%Z (v ← headers resp !! ascii "content-length"; parse_usize (byte_Z <$> v)) in
        Ok {| meta_key := key; meta_size := size; content_type := headers resp !! ascii "content-type"; checksum := None |}
      else if bool_decide (status resp = 404%Z) then Err (BlobNotFound key)
      else Err (http_error_to_blob_error (status resp) (body resp) key)).

(** The inherent [copy] of the S3 store. *)
Definition s3_copy (clock : Z → Z) (src dst : bytes) : W → W * blob_result unit :=
  let copy_source := ascii "/" ++ bucket config ++ ascii "/" ++ percent_encode src in
  on_response clock "PUT" (object_url dst) [] [(ascii "x-amz-copy-source", copy_source)]
    (λ resp, if bool_decide (status resp ∈ [200; 204]%Z) then Ok () else Err (http_error_to_blob_error (status resp) (body resp) dst)).

(** ** Listing *)
Definition build_list_url (prefix : bytes) (continuation_token : option bytes) : blob_result bytes :=
  let endpoint := trim_end_slashes (endpoint config) in
  let? base := if path_style config then Ok (endpoint ++ ascii "/" ++ bucket config ++ ascii "?list-type=2")
               else let? host := virtual_host endpoint in Ok (host ++ ascii "/?list-type=2") in
  let url := if bool_decide (prefix = []) then base else base ++ ascii "&prefix=" ++ percent_encode prefix in
  Ok (match continuation_token with None => url | Some token => url ++ ascii "&continuation-token=" ++ percent_encode token end).

Record ListPage := { page_keys : list bytes; is_truncated : bool; next_continuation_token : option bytes }.

(** [text.eq_ignore_ascii_case("true")] *)
Definition is_true (text : bytes) : bool := bool_decide (ascii_lowercase <$> text = ascii "true").

Fixpoint page_fields (events : list XmlEvent) (current_tag : bytes) (page : ListPage) : blob_result ListPage :=
  match events with
  | [] => Ok page
  | XStart name :: events => page_fields events name page
  | XText (Err e) :: _ => Err (BlobOther ("XML decode error: " +:+ e))
  | XText (Ok text) :: events =>
      page_fields events current_tag
        (if bool_decide (current_tag = ascii "Key") then
           {| page_keys := page_keys page ++ [text]; is_truncated := is_truncated page; next_continuation_token := next_continuation_token page |}
         else if bool_decide (current_tag = ascii "IsTruncated") then
           {| page_keys := page_keys page; is_truncated := is_true text; next_continuation_token := next_continuation_token page |}
         else if bool_decide (current_tag = ascii "NextContinuationToken") then
           {| page_keys := page_keys page; is_truncated := is_truncated page; next_continuation_token := Some text |}
         else page)
  | XEnd _ :: events => page_fields events [] page
  | XOther :: events => page_fields events current_tag page
  end.

Definition empty_page : ListPage := {| page_keys := []; is_truncated := false; next_continuation_token := None |}.

Definition parse_list_objects_v2_page (xml : bytes) : blob_result ListPage :=
  let '(events, err) := xml_events xml in
  let? page := page_fields events [] empty_page in
  match err with None => Ok page | Some e => Err (BlobOther ("XML parse error in ListObjectsV2 response: " +:+ e)) end.

(** The loop over the pages; [None] when it has not finished within the fuel. *)
Fixpoint list_loop (fuel : nat) (clocks : nat → Z → Z) (prefix : bytes) (all_keys : list bytes) (token : option bytes) (w : W)
    : option (W * blob_result (list bytes)) :=
  match fuel with
  | 0 => None
  | S fuel =>
      match build_list_url prefix token with
      | Err e => Some (w, Err e)
      | Ok url =>
          match send (clocks fuel) "GET" url [] [] w with
          | (w, Err e) => Some (w, Err e)
          | (w, Ok resp) =>
              if bool_decide (status resp ≠ 200%Z) then Some (w, Err (http_error_to_blob_error (status resp) (body resp) prefix))
              else match parse_list_objects_v2_page (body resp) with
                   | Err e => Some (w, Err e)
                   | Ok page =>
                       let all_keys := all_keys ++ page_keys page in
                       if is_truncated page then
                         match next_continuation_token page with
                         | None => Some (w, Ok all_keys)
                         | Some t => list_loop fuel clocks prefix all_keys (Some t) w
                         end
                       else Some (w, Ok all_keys)
                   end
          end
      end
  end.

Definition s3_list (fuel : nat) (clocks : nat → Z → Z) (prefix : bytes) (w : W) : option (W * blob_result (list bytes)) :=
  list_loop fuel clocks prefix [] None w.
End Store.
