(* ===== verification/S3Props.v ===== *)
(** * The S3 store against a service that may fail

    The delays and the number of requests of a call, what the calls answer when requests
    are lost or refused and retried, and the listing over the pages of the service. *)

From S2P Require Import Prelude Bytes Blob Url Partition S3.

(** ** Delays *)
(** A pause never exceeds the configured maximum, no arithmetic overflows, and
    before the cap the pauses double: the full value after an even attempt, three quarters
    of it after an odd one. *)
Theorem backoff_delay_bounds config attempt : (0 ≤ attempt)%Z → u64_ok (base_delay_ms config) → u64_ok (max_delay_ms config) →
  let d := backoff_delay config attempt in
  let full := Z.min (base_delay_ms config * 2 ^ Z.min attempt 30) (max_delay_ms config) in
  (0 ≤ d ≤ max_delay_ms config)%Z ∧
  (attempt mod 2 = 0 → d = full)%Z ∧ (attempt mod 2 ≠ 0 → 3 * full < two64 → d = 3 * full / 4)%Z.
Proof.
  intros Ha Hb Hm. unfold backoff_delay, checked_shl_1. cbn zeta.
  rewrite (proj2 (Z.ltb_lt _ 64)) by lia. cbn [default].
  assert (1 ≤ 2 ^ Z.min attempt 30 < two64)%Z as Hp.
  { split; [pose proof (Z.pow_pos_nonneg 2 (Z.min attempt 30) ltac:(lia) ltac:(lia)); lia|].
    apply (Z.le_lt_trans _ (2 ^ 30)); [apply Z.pow_le_mono_r; lia|done]. }
  unfold from_option, id. rewrite Z.shiftl_1_l, wrap64_id by (unfold u64_ok; lia). unfold saturating_mul, u64_ok, U64_MAX, two64 in *.
  set (full := Z.min (base_delay_ms config * 2 ^ Z.min attempt 30) (max_delay_ms config)).
  assert (Z.min (Z.min (base_delay_ms config * 2 ^ Z.min attempt 30) 18446744073709551615) (max_delay_ms config) = full) as -> by lia.
  assert (0 ≤ full ≤ max_delay_ms config)%Z as Hf by (unfold full; nia).
  destruct (Z.eqb_spec (attempt mod 2) 0); split; try (Z.to_euclidean_division_equations; lia); split; intros; try lia.
Qed.

Lemma backoff_delay_bounds_witness : backoff_delay default_retry 2 = 400%Z ∧ backoff_delay default_retry 9 = 3750%Z ∧
  (backoff_delay {| max_attempts := 9; base_delay_ms := 18446744073709551615; max_delay_ms := 18446744073709551615 |} 40
   ≤ 18446744073709551615)%Z.
Proof.
  split; [exact (proj1 (proj2 (backoff_delay_bounds default_retry 2 ltac:(lia) ltac:(done) ltac:(done))) eq_refl)|]. split; [reflexivity|].
  exact (proj2 (proj1 (backoff_delay_bounds {| max_attempts := 9; base_delay_ms := 18446744073709551615; max_delay_ms := 18446744073709551615 |}
    40 ltac:(lia) ltac:(done) ltac:(done)))).
Defined.

(** ** Attempts *)
Section Send.
Context {W : Type} `{SL : !S3Lib, HW : !Http W} (config : S3Config).

Section Request.
Context (clock : Z → Z) (method : string) (url data : bytes) (extra : list (bytes * bytes)).

(** A request that was lost, or answered with 429 (too many requests) or 503 (slow down). *)
Definition retryable (r : blob_result InternalResponse) : bool :=
  match r with Ok resp => (status resp =? 429)%Z || (status resp =? 503)%Z | Err _ => true end.

Lemma should_retry_429_503 n : should_retry_status n = (n =? 429)%Z || (n =? 503)%Z.
Proof. unfold should_retry_status. apply eq_bool_prop_intro. rewrite bool_decide_spec, orb_True, !Is_true_true, !Z.eqb_eq. set_solver. Qed.


(** The state of the service before attempt [n], and the outcome of attempt [n]. *)
Fixpoint state_at (n : nat) (w : W) : W :=
  match n with 0 => w | S n => (send_once config (clock (Z.of_nat n)) method url data extra (state_at n w)).1 end.
Definition outcome (n : nat) (w : W) : blob_result InternalResponse := (send_once config (clock (Z.of_nat n)) method url data extra (state_at n w)).2.

Definition pauses (n : nat) : list Z := (λ i, backoff_delay (retry_config config) (Z.of_nat i)) <$> seq 0 n.

Lemma pauses_S n : pauses (S n) = pauses n ++ [backoff_delay (retry_config config) (Z.of_nat n)].
Proof. unfold pauses. by rewrite seq_S, fmap_app. Qed.

(** What [k] attempts from attempt [n] on come to. *)
Definition send_result (n k : nat) (w w' : W) (slept : list Z) (r : blob_result InternalResponse) : Prop :=
  (∃ i, n ≤ i < n + k ∧ (∀ j, n ≤ j < i → retryable (outcome j w) = true) ∧ retryable (outcome i w) = false ∧
     r = outcome i w ∧ w' = state_at (S i) w ∧ pauses (pred n) ++ slept = pauses i) ∨
  ((∀ j, n ≤ j < n + k → retryable (outcome j w) = true) ∧ w' = state_at (n + k) w ∧ pauses (pred n) ++ slept = pauses (pred (n + k)) ∧
     ∃ msg, r = Err (RetryExhausted (max_attempts (retry_config config)) msg)).

Definition pause_before (n : nat) : list Z := if bool_decide (0 < n) then [backoff_delay (retry_config config) (Z.of_nat n - 1)] else [].

Lemma pauses_before n : pauses (pred n) ++ pause_before n = pauses n.
Proof.
  unfold pause_before. destruct n as [|n]; [done|]. rewrite bool_decide_eq_true_2 by lia. rewrite pauses_S. cbn [pred]. do 3 f_equal. lia.
Qed.

Lemma send_result_retry n k w w' slept r : retryable (outcome n w) = true → send_result (S n) k w w' slept r →
  send_result n (S k) w w' (pause_before n ++ slept) r.
Proof.
  intros Hr Hs. unfold send_result in *. rewrite app_assoc, pauses_before. replace (n + S k) with (S n + k) by lia.
  destruct Hs as [(i & Hi & Hj & Hs)|(Hj & Hs)]; [left; exists i; split; [lia|]|right]; (split; [|exact Hs]); intros j Hlt;
    (destruct (decide (j = n)) as [->|]; [done|apply Hj; lia]).
Qed.

Lemma send_attempts_spec k n last w w' slept r :
  send_attempts config clock method url data extra (seq n k) last (state_at n w) = (w', slept, r) → send_result n k w w' slept r.
Proof.
  revert n last slept. induction k as [|k IH]; intros n last slept; cbn [seq send_attempts].
  { intros [= <- <- <-]. right. rewrite Nat.add_0_r, app_nil_r. split; [lia|]. eauto. }
  fold (pause_before n). destruct (send_once _ _ _ _ _ _ _) as [w1 r1] eqn:H1.
  assert (state_at (S n) w = w1) as <- by (cbn [state_at]; by rewrite H1). assert (outcome n w = r1) as Hr1 by (unfold outcome; by rewrite H1).
  destruct r1 as [resp|e]; [rewrite should_retry_429_503; destruct ((status resp =? 429)%Z || _) eqn:Hst|].
  2: { intros [= <- <- <-]. left. exists n. split; [lia|]. split; [lia|]. rewrite Hr1. split; [exact Hst|]. split; [done|]. split; [done|apply pauses_before]. }
  all: destruct (send_attempts _ _ _ _ _ _ _ _ _) as [[w2 slept'] r2] eqn:Hs; intros [= <- <- <-].
  all: apply send_result_retry; [by rewrite Hr1|by eapply IH].
Qed.
End Request.

(** C13: A call sends requests one after the other until one gets a response that is not
    429 or 503, and returns that response; it gives up after [max_attempts] requests,
    having slept the prescribed pauses in between.  In particular it returns the first
    usable response among the attempts allowed. *)
Theorem send_retries clock method url data extra w w' slept r :
  send_timed config clock method url data extra w = (w', slept, r) →
  let n := Z.to_nat (max_attempts (retry_config config)) in
  let result i := outcome clock method url data extra i w in
  (∀ i, i < n → (∀ j, j < i → retryable (result j) = true) → retryable (result i) = false →
     r = result i ∧ w' = state_at clock method url data extra (S i) w ∧ slept = pauses i) ∧
  ((∀ j, j < n → retryable (result j) = true) → w' = state_at clock method url data extra n w ∧ slept = pauses (pred n) ∧
     ∃ msg, r = Err (RetryExhausted (max_attempts (retry_config config)) msg)).
Proof.
  intros Hs n result. apply (send_attempts_spec clock method url data extra n 0 None w) in Hs.
  destruct Hs as [(i & Hi & Hj & Hst & Hs)|(Hj & Hs)].
  - split.
    + intros i' Hi' Hj' Hst'. assert (i' = i) as ->; [|exact Hs].
      destruct (lt_eq_lt_dec i i') as [[Hlt| ->]|Hlt]; [|done|].
      * unfold result in Hj'. rewrite (Hj' i Hlt) in Hst. done.
      * unfold result in Hst'. rewrite Hj in Hst' by lia. done.
    + intros Hall. unfold result in Hall. rewrite Hall in Hst by lia. done.
  - split; [|intros _; exact Hs]. intros i' Hi' _ Hst'. unfold result in Hst'. rewrite Hj in Hst' by lia. done.
Qed.
End Send.

(** ** The service

    [objects] are the objects of the bucket at [base].  A request that succeeds has its
    effect; one that fails, or whose response is lost, may have had it. *)
Class S3Objects (W : Type) := objects : W → gmap bytes bytes.

(** The segments of a key between its slashes. *)
Fixpoint segments (s : bytes) : list bytes :=
  match s with
  | [] => [[]]
  | b :: s =>
      if bool_decide (b = x2f) then [] :: segments s
      else match segments s with x :: l => (b :: x) :: l | [] => [[b]] end
  end.

(** The keys that have an address of their own: at the address of the empty key there is the
    bucket itself, and nothing is said of keys with segments [.] or [..], which an address
    may lose on its way. *)
Definition addressable (key : bytes) : bool :=
  negb (bool_decide (key = [])) && forallb (λ s, negb (bool_decide (s ∈ [[x2e]; [x2e; x2e]]))) (segments key).

(** The path of an object, as the service decodes it. *)
Definition names_object (path key : bytes) : Prop := percent_decode path = Some key ∧ x3f ∉ path ∧ addressable key = true.

Definition success (status : Z) : Prop := (200 ≤ status < 300)%Z.

Class SigV4Laws `{!S3Lib} : Prop :=
  v4_sign_headers req params l q : v4_sign req params = Ok (l, q) →
    Forall (λ h, h ∈ ascii <$> ["x-amz-date"; "authorization"; "x-amz-content-sha256"; "x-amz-security-token"]) l.*1.

Class S3ServerLaws (W : Type) `{!Http W, !S3Objects W} (base : bytes) : Prop := {
  s3_put_law path key hs data (w w' : W) r : names_object path key → ascii "x-amz-copy-source" ∉ hs.*1 →
    http_send "PUT" (base ++ ascii "/" ++ path) hs data w = (w', r) →
    (objects w' = objects w ∨ objects w' = <[key:=data]> (objects w)) ∧
    (∀ resp, r = Ok resp → success (raw_status resp) → objects w' = <[key:=data]> (objects w));
  s3_get_law path key hs (w w' : W) r : names_object path key → http_send "GET" (base ++ ascii "/" ++ path) hs [] w = (w', r) →
    objects w' = objects w ∧
    (∀ resp, r = Ok resp → (raw_status resp = 200%Z → objects w !! key = Some (raw_body resp)) ∧
                           (raw_status resp = 404%Z → objects w !! key = None));
  s3_head_law path key hs (w w' : W) r : names_object path key → http_send "HEAD" (base ++ ascii "/" ++ path) hs [] w = (w', r) →
    objects w' = objects w ∧
    (∀ resp, r = Ok resp →
       (raw_status resp = 200%Z → ∃ v n, objects w !! key = Some v ∧ header_map (raw_headers resp) !! ascii "content-length" = Some n ∧
          parse_usize (byte_Z <$> n) = Some (blob_len v)) ∧
       (raw_status resp = 404%Z → objects w !! key = None));
  s3_delete_law path key hs (w w' : W) r : names_object path key → http_send "DELETE" (base ++ ascii "/" ++ path) hs [] w = (w', r) →
    (objects w' = objects w ∨ objects w' = delete key (objects w)) ∧
    (∀ resp, r = Ok resp → (success (raw_status resp) → objects w' = delete key (objects w)) ∧
                           (raw_status resp = 404%Z → objects w !! key = None ∧ objects w' = objects w));
}.

Section Calls.
Context {W : Type} `{SL : !S3Lib, SG : !SigV4Laws, HW : !Http W, OB : !S3Objects W} (config : S3Config).

Definition from_raw (method : string) (raw : RawResponse) : InternalResponse :=
  {| status := raw_status raw; headers := header_map (raw_headers raw); body := if bool_decide (method = "HEAD") then [] else raw_body raw |}.

(** The headers of a request are those given and those of the signature. *)
Definition sent_headers (extra hs : list (bytes * bytes)) : Prop :=
  ∀ h, h ∈ hs.*1 → h ∈ extra.*1 ∨ h ∈ ascii <$> ["host"; "x-amz-date"; "authorization"; "x-amz-content-sha256"; "x-amz-security-token"].

Lemma sign_request_headers now method url hs data cred reg l : sign_request now method url hs data cred reg = Ok l →
  Forall (λ h, h ∈ ascii <$> ["x-amz-date"; "authorization"; "x-amz-content-sha256"; "x-amz-security-token"]) l.*1.
Proof.
  unfold sign_request. destruct (v4_params _ _ _ _ _) as [params|]; [|done]. destruct (signable_request _ _ _ _) as [req|]; [|done]. cbn [map_err].
  destruct (v4_sign req params) as [[extra q]|] eqn:Hs; [|done]. intros [= <-]. by eapply v4_sign_headers.
Qed.

(** The request sent at each attempt. *)
Lemma send_once_spec now method url data extra (w w' : W) r : send_once config now method url data extra w = (w', r) →
  (w' = w ∧ ∃ e, r = Err e) ∨
  ∃ hs r0, http_send method url hs data w = (w', r0) ∧ sent_headers extra hs ∧
    match r0 with Ok raw => r = Ok (from_raw method raw) | Err _ => ∃ e, r = Err e end.
Proof.
  unfold send_once. destruct (url_host_header url) as [h|e]; [|intros [= <- <-]; left; eauto].
  destruct (sign_request _ _ _ _ _ _ _) as [l|e] eqn:Hs; [|intros [= <- <-]; left; eauto].
  case_bool_decide; [|intros [= <- <-]; left; eauto]. destruct (http_send _ _ _ _ w) as [w1 r0] eqn:Hh. intros Heq. right. eexists _, r0.
  assert (w1 = w' ∧ match r0 with Ok raw => r = Ok (from_raw method raw) | Err _ => ∃ e, r = Err e end) as [-> Hr].
  { destruct r0; injection Heq as <- <-; split; eauto; done. }
  split; [exact Hh|]. split; [|done]. intros x. rewrite fmap_app. csimpl. rewrite elem_of_cons, elem_of_app. intros [->|[Hx|Hx]].
  - right. csimpl. set_solver.
  - by left.
  - right. apply sign_request_headers in Hs. rewrite Forall_forall in Hs. specialize (Hs x Hx). csimpl in *. set_solver.
Qed.

(** A call over an effect that the attempts may have repeatedly: it may have happened
    any number of times, and the response returned is that of the last request. *)
Lemma send_effect (eff : W → W → Prop) `{!Reflexive eff, !Transitive eff} clock method url data extra w w' r :
  (∀ hs w1 w2 r, http_send method url hs data w1 = (w2, r) →
     sent_headers extra hs → eff w1 w2) →
  send config clock method url data extra w = (w', r) →
  eff w w' ∧ ∀ resp, r = Ok resp → ∃ hs w1 raw, eff w w1 ∧ http_send method url hs data w1 = (w', Ok raw) ∧
    sent_headers extra hs ∧
    resp = from_raw method raw.
Proof.
  intros Heff. unfold send, send_timed. generalize (seq 0 (Z.to_nat (max_attempts (retry_config config)))) as l, (@None BlobError) as last. intros l last.
  destruct (send_attempts _ _ _ _ _ _ l last w) as [[w0 slept] r0] eqn:Hs. intros [= <- <-].
  revert w last slept Hs. induction l as [|n l IH]; intros w last slept; cbn [send_attempts]; [by intros [= <- <- <-]|].
  destruct (send_once _ _ _ _ _ _ w) as [w1 r1] eqn:H1. assert (eff w w1) as He1.
  { destruct (send_once_spec _ _ _ _ _ _ _ _ H1) as [[-> _]|(hs & r' & Hh & Hhs & _)]; [done|by eapply Heff]. }
  assert (∀ last', (∃ slept', send_attempts config clock method url data extra l last' w1 = (w0, slept', r0)) →
    eff w w0 ∧ ∀ resp, r0 = Ok resp → ∃ hs w2 raw, eff w w2 ∧ http_send method url hs data w2 = (w0, Ok raw) ∧
      sent_headers extra hs ∧
      resp = from_raw method raw) as Hrec.
  { intros last' [slept' Hs']. apply IH in Hs' as [He2 Hok]. split; [by etrans|]. intros resp Hr.
    destruct (Hok resp Hr) as (hs & w2 & raw & He3 & Hrest). exists hs, w2, raw. split; [by etrans|done]. }
  destruct r1 as [resp|e].
  - destruct (should_retry_status (status resp)).
    + destruct (send_attempts _ _ _ _ _ _ l _ w1) as [[w2 slept'] r2] eqn:Hs'. intros [= <- <- <-]. eapply Hrec. eauto.
    + intros [= <- <- <-]. split; [done|]. intros resp' [= <-].
      destruct (send_once_spec _ _ _ _ _ _ _ _ H1) as [[_ [e He]]|(hs & r' & Hh & Hhs & Hr')]; [done|].
      destruct r' as [raw|e]; [|by destruct Hr']. injection Hr' as ->. by exists hs, w, raw.
  - destruct (send_attempts _ _ _ _ _ _ l _ w1) as [[w2 slept'] r2] eqn:Hs'. intros [= <- <- <-]. eapply Hrec. eauto.
Qed.

(** A call that gets no usable response reports that its retries are exhausted. *)
Lemma send_error clock method url data extra w w' e : send config clock method url data extra w = (w', Err e) →
  ∃ msg, e = RetryExhausted (max_attempts (retry_config config)) msg.
Proof.
  unfold send. destruct (send_timed _ _ _ _ _ _ w) as [[w0 slept] r] eqn:Hs. intros [= <- ->].
  apply (send_attempts_spec config clock method url data extra _ 0 None w) in Hs. destruct Hs as [(i & _ & _ & Hf & Hr & _)|(_ & _ & _ & msg & [= ->])]; [|eauto].
  by rewrite <-Hr in Hf.
Qed.

Lemma on_response_effect {A} (eff : W → W → Prop) `{!Reflexive eff, !Transitive eff} clock method url data extra (handle : InternalResponse → blob_result A) w w' r :
  (∀ hs w1 w2 r, http_send method url hs data w1 = (w2, r) → sent_headers extra hs → eff w1 w2) →
  on_response config clock method (Ok url) data extra handle w = (w', r) →
  eff w w' ∧ ((∃ e, r = Err e ∧ match e with BlobNotFound _ => False | _ => True end) ∨
    ∃ hs w1 raw, eff w w1 ∧ http_send method url hs data w1 = (w', Ok raw) ∧ sent_headers extra hs ∧ r = handle (from_raw method raw)).
Proof.
  intros Heff. unfold on_response. destruct (send _ _ _ _ _ _ w) as [w1 r1] eqn:Hs.
  destruct (send_effect eff _ _ _ _ _ _ _ _ Heff Hs) as [He Hok].
  destruct r1 as [resp|e].
  - intros [= <- <-]. split; [done|]. right. destruct (Hok resp eq_refl) as (hs & w2 & raw & He2 & Hh & Hhs & ->). eauto 10.
  - intros [= <- <-]. split; [done|]. left. exists e. split; [done|]. destruct (send_error _ _ _ _ _ _ _ _ Hs) as (msg & ->). done.
Qed.
End Calls.
