(* ===== verification/S3History.v ===== *)
(** * Histories of the S3 store

    What a client sees of a bucket when requests are lost or refused and retried, and the
    listing of a bucket over the pages of the service. *)

From S2P Require Import Prelude Bytes Blob Url Partition S3 S3Props.

Inductive S3Op := S3Put (key data : bytes) | S3Get (key : bytes) | S3Delete (key : bytes) | S3Head (key : bytes).
Inductive S3Out := S3Unit (r : blob_result unit) | S3Data (r : blob_result bytes) | S3Meta (r : blob_result BlobMeta).

Section Run.
Context {W : Type} `{SL : !S3Lib, HW : !Http W, OB : !S3Objects W} (config : S3Config).

Definition s3_step (clock : Z → Z) (op : S3Op) (w : W) : W * S3Out :=
  match op with
  | S3Put k v => let '(w, r) := s3_put config clock k v w in (w, S3Unit r)
  | S3Get k => let '(w, r) := s3_get config clock k w in (w, S3Data r)
  | S3Delete k => let '(w, r) := s3_delete config clock k w in (w, S3Unit r)
  | S3Head k => let '(w, r) := s3_head config clock k w in (w, S3Meta r)
  end.

(** The call's request, with its retries, got a response that settles the call. *)
Definition expected (op : S3Op) (status : Z) : bool :=
  bool_decide (status ∈ match op with S3Put _ _ => [200; 204] | S3Get _ => [200] | S3Delete _ => [200; 204; 404] | S3Head _ => [200; 404] end%Z).

Definition served (clock : Z → Z) (op : S3Op) (w : W) : bool :=
  let '(method, key, data) := match op with
    | S3Put k v => ("PUT", k, v) | S3Get k => ("GET", k, []) | S3Delete k => ("DELETE", k, []) | S3Head k => ("HEAD", k, []) end%string in
  match object_url config key with
  | Err _ => false
  | Ok url => match (send config clock method url data [] w).2 with Ok resp => expected op (status resp) | Err _ => false end
  end.

(** A run, with the objects of the bucket before and after each call, and whether it was
    served. *)
Fixpoint s3_run (script : list ((Z → Z) * S3Op)) (w : W) : W * list (S3Op * gmap bytes bytes * gmap bytes bytes * bool * S3Out) :=
  match script with
  | [] => (w, [])
  | (clock, op) :: script =>
      let '(w1, out) := s3_step clock op w in
      let '(w2, trace) := s3_run script w1 in (w2, (op, objects w, objects w1, served clock op w, out) :: trace)
  end.

(** The answers of a bucket that holds [m] before and [m'] after the call. *)
Definition s3_correct (op : S3Op) (m m' : gmap bytes bytes) (out : S3Out) : Prop :=
  match op, out with
  | S3Put k v, S3Unit r => (m' = m ∨ m' = <[k:=v]> m) ∧ (r = Ok () → m' = <[k:=v]> m)
  | S3Get k, S3Data r => m' = m ∧
      match r with Ok v => m !! k = Some v | Err (BlobNotFound k') => k' = k ∧ m !! k = None | Err _ => True end
  | S3Delete k, S3Unit r => (m' = m ∨ m' = delete k m) ∧
      match r with Ok _ => m' = delete k m | Err (BlobNotFound k') => k' = k ∧ m' = delete k m | Err _ => True end
  | S3Head k, S3Meta r => m' = m ∧
      match r with
      | Ok meta => ∃ v, m !! k = Some v ∧ meta_key meta = k ∧ meta_size meta = blob_len v
      | Err (BlobNotFound k') => k' = k ∧ m !! k = None
      | Err _ => True
      end
  | _, _ => False
  end.

(** A success, or the report that the key does not exist. *)
Definition s3_settled (op : S3Op) (out : S3Out) : Prop :=
  match op, out with
  | S3Put _ _, S3Unit r => r = Ok ()
  | S3Get _, S3Data r => is_Some (match r with Ok v => Some v | Err _ => None end)
  | S3Delete k, S3Unit r => r = Ok () ∨ r = Err (BlobNotFound k)
  | S3Head k, S3Meta r => match r with Ok _ => True | Err e => e = BlobNotFound k end
  | _, _ => False
  end.

Lemma served_settled clock op w : served clock op w = true → s3_settled op (s3_step clock op w).2.
Proof.
  unfold served, s3_step. destruct op as [k v|k|k|k]; [unfold s3_put|unfold s3_get|unfold s3_delete|unfold s3_head]; unfold on_response;
    (destruct (object_url config k) as [url|e]; [|done]); (destruct (send _ _ _ _ _ _ w) as [w1 [resp|e]]; [|done]); cbn [snd]; unfold expected;
    rewrite bool_decide_eq_true; intros Hs; repeat case_bool_decide; cbn [s3_settled]; eauto; set_solver.
Qed.
End Run.

Definition op_key (op : S3Op) : bytes := match op with S3Put k _ | S3Get k | S3Delete k | S3Head k => k end.

Lemma encoded_decodes key : percent_decode (percent_encode key) = Some key.
Proof. rewrite percent_encode_flat. by apply encode_decode. Qed.

Lemma encoded_names key : addressable key = true → names_object (percent_encode key) key.
Proof.
  intros Hk. split; [apply encoded_decodes|]. split; [|done]. intros Hin.
  pose proof (encode_safe (λ b, unreserved b || is_slash b) key ltac:(by intros [])) as Hs. rewrite <-percent_encode_flat in Hs.
  rewrite forallb_forall in Hs. apply list_elem_of_In in Hin. by apply Hs in Hin.
Qed.

Lemma sent_no_copy hs : sent_headers [] hs → ascii "x-amz-copy-source" ∉ hs.*1.
Proof.
  intros Hs Hin. destruct (Hs _ Hin) as [Hn|Hn]; [by apply not_elem_of_nil in Hn|]. revert Hn.
  rewrite <-(bool_decide_eq_true (_ ∈ _)). by vm_compute.
Qed.

Section Service.
Context {W : Type} `{SL : !S3Lib, SG : !SigV4Laws, HW : !Http W, OB : !S3Objects W} (config : S3Config) (base : bytes).
Context `{SS : !S3ServerLaws W base} (Hbase : bucket_url config = Ok base).
Implicit Types w : W.

Lemma object_url_base key : object_url config key = Ok (base ++ ascii "/" ++ percent_encode key).
Proof. unfold object_url. by rewrite Hbase. Qed.

(** The state before and after are related by an optional update. *)
Definition maybe (f : gmap bytes bytes → gmap bytes bytes) w w' : Prop := objects w' = objects w ∨ objects w' = f (objects w).

Lemma maybe_refl f : Reflexive (maybe f).
Proof. intros w. by left. Qed.

Lemma maybe_trans f : (∀ m, f (f m) = f m) → Transitive (maybe f).
Proof. unfold maybe. intros Hf a b c [-> | Hb] [Hc|Hc]; rewrite Hc; auto; right; rewrite ?Hb; auto. Qed.

Lemma http_error_status status data key : match http_error_to_blob_error status data key with BlobNotFound k => k = key ∧ status = 404%Z | _ => True end.
Proof. unfold http_error_to_blob_error. destruct (parse_error data); repeat case_bool_decide; done. Qed.

Lemma s3_put_correct clock k v w w' r : addressable k = true → s3_put config clock k v w = (w', r) → s3_correct (S3Put k v) (objects w) (objects w') (S3Unit r).
Proof.
  unfold s3_put. rewrite object_url_base. intros Hk Hs. pose proof (maybe_refl (insert k v)) as Hr.
  pose proof (maybe_trans (insert k v) (λ m, insert_insert_eq m k v v)) as Ht.
  apply (on_response_effect config (maybe (insert k v))) in Hs as [He Hs].
  - split; [exact He|]. intros ->. destruct Hs as [(e & [=] & _)|(hs & w1 & raw & He1 & Hh & Hhs & Hres)]. simpl in Hres. case_bool_decide as Hst; [|done].
    destruct (s3_put_law _ k _ _ _ _ _ (encoded_names k Hk) (sent_no_copy _ Hhs) Hh) as [_ Hok].
    rewrite (Hok raw eq_refl) by (unfold success; set_solver by lia). destruct He1 as [-> | ->]; [done|]. apply insert_insert_eq.
  - intros hs w1 w2 r1 Hh Hhs. by apply (s3_put_law _ k _ _ _ _ _ (encoded_names k Hk) (sent_no_copy _ Hhs) Hh).
Qed.

(** Reading calls leave the bucket as it is. *)
Definition same w w' : Prop := objects w' = objects w.
#[local] Instance same_refl : Reflexive same.
Proof. done. Qed.
#[local] Instance same_trans : Transitive same.
Proof. unfold same. intros a b c -> Hc. done. Qed.

Lemma s3_get_correct clock k w w' r : addressable k = true → s3_get config clock k w = (w', r) → s3_correct (S3Get k) (objects w) (objects w') (S3Data r).
Proof.
  unfold s3_get. rewrite object_url_base. intros Hk Hs. apply (on_response_effect config same) in Hs as [He Hs].
  - split; [exact He|]. destruct Hs as [(e & -> & Hne)|(hs & w1 & raw & He1 & Hh & Hhs & ->)]; [by destruct e|]. simpl.
    destruct (s3_get_law _ k _ _ _ _ (encoded_names k Hk) Hh) as [_ Hok]. destruct (Hok raw eq_refl) as [H200 H404]. rewrite He1 in *.
    case_bool_decide; [by apply H200|]. pose proof (http_error_status (raw_status raw) (raw_body raw) k) as Hst.
    destruct (http_error_to_blob_error _ _ _); try done. destruct Hst as [-> Hst]. split; [done|by apply H404].
  - intros hs w1 w2 r1 Hh Hhs. by apply (s3_get_law _ k _ _ _ _ (encoded_names k Hk) Hh).
Qed.

Lemma s3_head_correct clock k w w' r : addressable k = true → s3_head config clock k w = (w', r) → s3_correct (S3Head k) (objects w) (objects w') (S3Meta r).
Proof.
  unfold s3_head. rewrite object_url_base. intros Hk Hs. apply (on_response_effect config same) in Hs as [He Hs].
  - split; [exact He|]. destruct Hs as [(e & -> & Hne)|(hs & w1 & raw & He1 & Hh & Hhs & ->)]; [by destruct e|]. simpl.
    destruct (s3_head_law _ k _ _ _ _ (encoded_names k Hk) Hh) as [_ Hok]. destruct (Hok raw eq_refl) as [H200 H404]. rewrite He1 in *.
    case_bool_decide.
    + destruct H200 as (v & n & Hv & Hn & Hp); [done|]. exists v. split; [done|]. split; [done|]. cbn [meta_size]. rewrite Hn. cbn [mbind option_bind].
      by rewrite Hp.
    + case_bool_decide; [split; [done|by apply H404]|]. pose proof (http_error_status (raw_status raw) [] k) as Hst.
      destruct (http_error_to_blob_error _ _ _); try done. by destruct Hst.
  - intros hs w1 w2 r1 Hh Hhs. by apply (s3_head_law _ k _ _ _ _ (encoded_names k Hk) Hh).
Qed.

Lemma s3_delete_correct clock k w w' r : addressable k = true → s3_delete config clock k w = (w', r) → s3_correct (S3Delete k) (objects w) (objects w') (S3Unit r).
Proof.
  unfold s3_delete. rewrite object_url_base. intros Hk Hs. pose proof (maybe_refl (delete k)) as Hr.
  pose proof (maybe_trans (delete k) (λ m, delete_delete_eq m k)) as Ht.
  apply (on_response_effect config (maybe (delete k))) in Hs as [He Hs].
  - split; [exact He|]. destruct Hs as [(e & -> & Hne)|(hs & w1 & raw & He1 & Hh & Hhs & ->)]; [by destruct e|]. simpl.
    destruct (s3_delete_law _ k _ _ _ _ (encoded_names k Hk) Hh) as [_ Hok]. destruct (Hok raw eq_refl) as [H200 H404].
    case_bool_decide as Hst.
    + rewrite H200 by (unfold success; set_solver by lia). destruct He1 as [-> | ->]; [done|apply delete_delete_eq].
    + case_bool_decide as H4.
      * destruct (H404 H4) as [Hn ->]. split; [done|]. destruct He1 as [He1 | ->]; [|done]. rewrite He1 in *. by rewrite delete_id.
      * pose proof (http_error_status (raw_status raw) (raw_body raw) k) as Hs4. destruct (http_error_to_blob_error _ _ _); try done. by destruct Hs4.
  - intros hs w1 w2 r1 Hh Hhs. by apply (s3_delete_law _ k _ _ _ _ (encoded_names k Hk) Hh).
Qed.

Lemma s3_step_correct clock op w w' out : addressable (op_key op) = true → s3_step config clock op w = (w', out) → s3_correct op (objects w) (objects w') out.
Proof.
  intros Hk. destruct op; unfold s3_step; [destruct (s3_put _ _ _ _ w) eqn:Hs|destruct (s3_get _ _ _ w) eqn:Hs|destruct (s3_delete _ _ _ w) eqn:Hs
    |destruct (s3_head _ _ _ w) eqn:Hs]; intros [= <- <-];
    [by apply (s3_put_correct clock)|by apply (s3_get_correct clock)|by apply (s3_delete_correct clock)|by apply (s3_head_correct clock)].
Qed.

(** C7: Whatever requests the service loses or refuses, every call on a key that has an
    address (one that is not empty and has no segment [.] or [..]) answers for the
    bucket: a read returns the object there is or reports that there is none, a write
    that succeeds has happened once and for all, and a write that fails has happened
    completely or not at all, however often it was retried.  A call fails only if none of
    its requests gets a response that settles it. *)
Theorem s3_answers_for_bucket script w w' trace :
  Forall (λ '(_, op), addressable (op_key op) = true) script → s3_run config script w = (w', trace) →
  Forall (λ '(op, m, m', ok, out), s3_correct op m m' out ∧ (ok = true → s3_settled op out)) trace.
Proof.
  intros Hks. revert w trace. induction Hks as [|[clock op] script Hk _ IH]; intros w trace; cbn [s3_run]; [intros [= _ <-]; constructor|].
  destruct (s3_step config clock op w) as [w1 out] eqn:Hs. destruct (s3_run config script w1) as [w2 trace'] eqn:Hr. intros [= <- <-].
  constructor; [|by eapply IH]. split; [by apply (s3_step_correct clock)|]. intros Hok%served_settled. by rewrite Hs in Hok.
Qed.
End Service.
