(* ===== verification/S3List.v ===== *)
(** * Listing a bucket, and an instance of the service

    The response of a listing is a tree of elements, in any order and with elements the
    parsers do not look at; [page_document] says which objects and which token a tree
    carries, and the reader of the events of such a tree returns them. *)

From stdpp Require Import pretty.
From S2P Require Import Prelude Bytes Blob Url Partition S3 S3Props S3History.

(** [Result::is_ok] *)
Definition is_Ok {A E} (r : result A E) : bool := match r with Ok _ => true | Err _ => false end.

(** ** The pages of the service

    The document of a page is a tree of elements.  The reader of the code sees its events;
    here it is read as the documentation of the service describes it. *)
Inductive Xml :=
| Leaf (tag text : bytes)              (** an element with a text *)
| Tree (tag : bytes) (children : list Xml)  (** an element with elements, or empty *)
| Misc.                                (** a declaration, a comment, an element closed in place *)

(** White space between elements is no event: the reader trims it away. *)
Fixpoint events_of (x : Xml) : list XmlEvent :=
  match x with
  | Leaf tag text => [XStart tag; XText (Ok text); XEnd tag]
  | Tree tag children => XStart tag :: flat_map events_of children ++ [XEnd tag]
  | Misc => [XOther]
  end.

Definition leaf_text (tag : bytes) (x : Xml) : option bytes :=
  match x with Leaf t text => if bool_decide (t = tag) then Some text else None | _ => None end.

(** Nothing in the element has one of the three tags with a meaning. *)
Definition read_tag (tag : bytes) : bool := bool_decide (tag ∈ ascii <$> ["Key"; "IsTruncated"; "NextContinuationToken"]).
Fixpoint quiet (x : Xml) : bool :=
  match x with
  | Leaf tag _ => negb (read_tag tag)
  | Tree _ children => forallb quiet children
  | Misc => true
  end.

(** The elements of a listing: the objects, each with its key and what else the service
    says about it, the two fields of the page, and anything else, in any order. *)
Definition object_child (x : Xml) : bool := quiet x || (if leaf_text (ascii "Key") x is Some _ then true else false).
Definition listing_child (x : Xml) : bool :=
  quiet x ||
  match x with
  | Leaf tag _ => bool_decide (tag ∈ ascii <$> ["IsTruncated"; "NextContinuationToken"])
  | Tree tag children => bool_decide (tag = ascii "Contents") && forallb object_child children
  | Misc => true
  end.

Definition object_keys (x : Xml) : list bytes :=
  match x with Tree tag children => if bool_decide (tag = ascii "Contents") then omap (leaf_text (ascii "Key")) children else [] | _ => [] end.

Definition page_document (doc : list Xml) (p : ListPage) : Prop := ∃ prolog children,
  doc = prolog ++ [Tree (ascii "ListBucketResult") children] ∧ forallb quiet prolog = true ∧ forallb listing_child children = true ∧
  flat_map object_keys children = page_keys p ∧
  omap (leaf_text (ascii "IsTruncated")) children = [if is_truncated p then ascii "true" else ascii "false"] ∧
  omap (leaf_text (ascii "NextContinuationToken")) children = (if next_continuation_token p is Some t then [t] else []).

Definition page_with_keys (ks : list bytes) (p : ListPage) : ListPage :=
  {| page_keys := page_keys p ++ ks; is_truncated := is_truncated p; next_continuation_token := next_continuation_token p |}.
Definition page_with_truncated (flags : list bytes) (p : ListPage) : ListPage :=
  {| page_keys := page_keys p; is_truncated := if last flags is Some t then is_true t else is_truncated p; next_continuation_token := next_continuation_token p |}.
Definition page_with_token (tokens : list bytes) (p : ListPage) : ListPage :=
  {| page_keys := page_keys p; is_truncated := is_truncated p; next_continuation_token := if last tokens is Some t then Some t else next_continuation_token p |}.

(** The reader goes over events and leaves a page, whatever tag was open. *)
Definition absorbs (events : list XmlEvent) (f : ListPage → ListPage) : Prop :=
  ∀ rest tag page, ∃ tag', page_fields (events ++ rest) tag page = page_fields rest tag' (f page).

Lemma absorbs_app e1 e2 f1 f2 : absorbs e1 f1 → absorbs e2 f2 → absorbs (e1 ++ e2) (λ p, f2 (f1 p)).
Proof. intros H1 H2 rest tag page. rewrite <-app_assoc. destruct (H1 (e2 ++ rest) tag page) as [t1 ->]. apply H2. Qed.

Lemma absorbs_same e f g : (∀ p, f p = g p) → absorbs e f → absorbs e g.
Proof. intros Hfg H rest tag page. destruct (H rest tag page) as [t ->]. exists t. by rewrite Hfg. Qed.

Lemma absorbs_nil : absorbs [] id.
Proof. intros rest tag page. by exists tag. Qed.

Lemma absorbs_tree tag events f : absorbs events f → absorbs (XStart tag :: events ++ [XEnd tag]) f.
Proof. intros H rest t page. cbn [app page_fields]. rewrite <-app_assoc. destruct (H ([XEnd tag] ++ rest) tag page) as [t' ->]. by exists []. Qed.

Lemma page_eta (p : ListPage) : {| page_keys := page_keys p; is_truncated := is_truncated p; next_continuation_token := next_continuation_token p |} = p.
Proof. by destruct p. Qed.

Lemma absorbs_leaf tag text : absorbs (events_of (Leaf tag text))
  (λ p, if bool_decide (tag = ascii "Key") then page_with_keys [text] p
        else if bool_decide (tag = ascii "IsTruncated") then page_with_truncated [text] p
        else if bool_decide (tag = ascii "NextContinuationToken") then page_with_token [text] p else p).
Proof. intros rest t page. by exists []. Qed.

Lemma absorbs_quiet x : quiet x = true → absorbs (events_of x) id.
Proof.
  revert x. fix IH 1. intros [tag text|tag children|] Hq; cbn [quiet] in Hq.
  - eapply absorbs_same; [|apply absorbs_leaf]. intros p. unfold read_tag in Hq. apply negb_true_iff, bool_decide_eq_false in Hq. csimpl in Hq.
    by rewrite !bool_decide_eq_false_2 by set_solver.
  - apply absorbs_tree. induction children as [|x children IHc]; [apply absorbs_nil|]. apply andb_true_iff in Hq as [Hx Hq].
    apply (absorbs_app _ _ id id); [by apply IH|by apply IHc].
  - intros rest t page. by exists t.
Qed.

(** A list of elements, each of which is absorbed. *)
Lemma absorbs_list (ok : Xml → bool) (f : Xml → ListPage → ListPage) l : (∀ x, ok x = true → absorbs (events_of x) (f x)) →
  forallb ok l = true → absorbs (flat_map events_of l) (λ p, foldl (λ p x, f x p) p l).
Proof.
  intros Hf. induction l as [|x l IH]; intros Hok; [apply absorbs_nil|]. apply andb_true_iff in Hok as [Hx Hl].
  exact (absorbs_app _ _ _ _ (Hf x Hx) (IH Hl)).
Qed.

Lemma quiet_no_text tag x : read_tag tag = true → quiet x = true → leaf_text tag x = None.
Proof. intros Ht. destruct x as [t text| |]; [|done..]. simpl. case_bool_decide; [subst t|done]. by rewrite Ht. Qed.

Lemma absorbs_object x : object_child x = true → absorbs (events_of x) (page_with_keys (option_list (leaf_text (ascii "Key") x))).
Proof.
  unfold object_child. destruct (quiet x) eqn:Hq.
  - intros _. rewrite (quiet_no_text (ascii "Key") x) by done. eapply absorbs_same; [|by apply absorbs_quiet].
    intros p. unfold page_with_keys. simpl. by rewrite app_nil_r, page_eta.
  - destruct x as [tag text| |]; [|done..]. simpl. case_bool_decide as Ht; [subst tag|done]. intros _.
    eapply absorbs_same; [|apply (absorbs_leaf (ascii "Key") text)]. done.
Qed.

(** What an element of the listing adds to the page. *)
Definition child_page (x : Xml) (p : ListPage) : ListPage :=
  page_with_token (option_list (leaf_text (ascii "NextContinuationToken") x))
    (page_with_truncated (option_list (leaf_text (ascii "IsTruncated") x)) (page_with_keys (object_keys x) p)).

Lemma child_page_quiet x p : quiet x = true → child_page x p = p.
Proof.
  intros Hq. unfold child_page. rewrite !(quiet_no_text _ x) by done.
  assert (object_keys x = []) as ->; [|unfold page_with_token, page_with_truncated, page_with_keys; simpl; by rewrite app_nil_r, page_eta].
  destruct x as [|tag children|]; [done| |done]. simpl. case_bool_decide; [|done]. simpl in Hq.
  induction children as [|y children IH]; [done|]. apply andb_true_iff in Hq as [Hy Hq]. csimpl. rewrite (quiet_no_text _ y) by done. by apply IH.
Qed.

Lemma absorbs_child x : listing_child x = true → absorbs (events_of x) (child_page x).
Proof.
  unfold listing_child. destruct (quiet x) eqn:Hq.
  - intros _. eapply absorbs_same; [|by apply absorbs_quiet]. intros p. by rewrite child_page_quiet.
  - destruct x as [tag text|tag children|]; [| |done]; cbn [orb].
    + intros Ht%bool_decide_eq_true. eapply absorbs_same; [|apply absorbs_leaf]. intros p. csimpl in Ht.
      unfold child_page, page_with_token, page_with_truncated, page_with_keys. cbn [leaf_text object_keys].
      apply elem_of_cons in Ht as [->|[->|Hn%elem_of_nil]%elem_of_cons]; [..|done]; simpl; by rewrite app_nil_r.
    + intros [Ht Hc]%andb_true_iff. apply bool_decide_eq_true in Ht as ->. cbn [events_of]. apply absorbs_tree.
      eapply absorbs_same; [|exact (absorbs_list object_child _ _ absorbs_object Hc)]. intros p. unfold child_page, page_with_token, page_with_truncated.
      cbn [leaf_text option_list last object_keys]. rewrite bool_decide_eq_true_2 by done. rewrite !page_eta. clear.
      revert p. induction children as [|y children IH]; intros p; cbn [foldl omap list_omap].
      * unfold page_with_keys. simpl. by rewrite app_nil_r, page_eta.
      * rewrite IH. unfold page_with_keys. cbn [page_keys is_truncated next_continuation_token]. rewrite <-app_assoc. by destruct (leaf_text _ y).
Qed.

Lemma children_page children p : foldl (λ p x, child_page x p) p children =
  page_with_token (omap (leaf_text (ascii "NextContinuationToken")) children)
    (page_with_truncated (omap (leaf_text (ascii "IsTruncated")) children) (page_with_keys (flat_map object_keys children) p)).
Proof.
  assert (∀ (x : option bytes) l, last (option_list x ++ l) = match last l with Some t => Some t | None => x end) as Hlast.
  { intros x l. rewrite last_app. destruct (last l); [done|]. by destruct x. }
  assert (∀ tag x l, omap (leaf_text tag) (x :: l) = option_list (leaf_text tag x) ++ omap (leaf_text tag) l) as Homap.
  { intros tag x l. csimpl. by destruct (leaf_text tag x). }
  revert p. induction children as [|x children IH]; intros p.
  - unfold page_with_token, page_with_truncated, page_with_keys. simpl. by rewrite app_nil_r, page_eta.
  - cbn [foldl flat_map]. rewrite IH, !Homap. unfold child_page, page_with_token, page_with_truncated, page_with_keys. cbn [page_keys is_truncated next_continuation_token].
    rewrite !Hlast, <-app_assoc. f_equal; [|].
    + destruct (last (omap _ children)); [done|]. by destruct (leaf_text (ascii "IsTruncated") x).
    + destruct (last (omap _ children)); [done|]. by destruct (leaf_text (ascii "NextContinuationToken") x).
Qed.

(** The code reads a page as the documentation describes it. *)
Lemma page_fields_document doc p : page_document doc p → page_fields (flat_map events_of doc) [] empty_page = Ok p.
Proof.
  intros (prolog & children & -> & Hpro & Hch & Hkeys & Htr & Hnext). rewrite flat_map_app.
  assert (absorbs (flat_map events_of prolog) (λ p, foldl (λ p _, id p) p prolog)) as Hp by exact (absorbs_list quiet (λ _, id) _ absorbs_quiet Hpro).
  destruct (Hp (flat_map events_of [Tree (ascii "ListBucketResult") children]) [] empty_page) as [tag ->].
  assert (∀ page, foldl (λ p (_ : Xml), id p) page prolog = page) as -> by (clear; induction prolog; auto).
  cbn [flat_map]. rewrite app_nil_r. cbn [events_of].
  destruct (absorbs_tree (ascii "ListBucketResult") _ _ (absorbs_list listing_child child_page _ absorbs_child Hch) [] tag empty_page) as [tag' H].
  rewrite app_nil_r in H. rewrite H, children_page, Hkeys, Htr, Hnext. destruct p as [ks b [t|]]; by destruct b.
Qed.

(** The request for a page, as the service decodes it. *)
Definition list_request (base url prefix : bytes) (token : option bytes) : Prop := ∃ sep p t,
  (sep = [] ∨ sep = ascii "/") ∧ url = base ++ sep ++ ascii "?list-type=2" ++ p ++ t ∧
  (p = [] ∧ prefix = [] ∨ ∃ e, p = ascii "&prefix=" ++ e ∧ percent_decode e = Some prefix ∧ x26 ∉ e) ∧
  match token with
  | None => t = []
  | Some t0 => ∃ e, t = ascii "&continuation-token=" ++ e ∧ percent_decode e = Some t0 ∧ x26 ∉ e
  end.

(** Keys that appear literally in the document and are not trimmed: no markup, quotes or
    control characters, which the service escapes, and no space at either end. *)
Definition xml_plain (k : bytes) : bool :=
  forallb (λ b, negb (bool_decide (b ∈ ascii "&<>'" ++ [x22; x7f])) && (32 <=? byte_Z b)%Z) k &&
  match head k, last k with Some a, Some b => negb (bool_decide (a = x20) || bool_decide (b = x20)) | _, _ => false end.

Definition matching (prefix : bytes) (m : gmap bytes bytes) : list bytes := List.filter (λ k, starts_with k prefix) (btree_iter m).*1.

(** A page holds at least one key unless it is the last; its token names the position
    after it. *)
Class S3ListLaws (W : Type) `{!S3Lib, !Http W, !S3Objects W} (base : bytes) := {
  token_pos : bytes → nat;
  s3_list_law url prefix token hs (w w' : W) r : list_request base url prefix token →
    forallb xml_plain (btree_iter (objects w)).*1 = true →
    http_send "GET" url hs [] w = (w', r) →
    objects w' = objects w ∧
    ∀ resp, r = Ok resp → raw_status resp = 200%Z →
      let all := matching prefix (objects w) in
      let o := match token with None => 0 | Some t => token_pos t end in
      ∃ n doc next, xml_events (raw_body resp) = (flat_map events_of doc, None) ∧
        page_document doc {| page_keys := take n (drop o all); is_truncated := bool_decide (o + n < length all); next_continuation_token := next |} ∧
        (o + n < length all → 1 ≤ n ∧ ∃ t, next = Some t ∧ token_pos t = o + n);
}.

Section Listing.
Context {W : Type} `{SL : !S3Lib, SG : !SigV4Laws, HW : !Http W, OB : !S3Objects W} (config : S3Config) (base : bytes).
Context `{LW : !S3ListLaws W base} (Hbase : bucket_url config = Ok base).
Implicit Types w : W.

Lemma encoded_param key : percent_decode (percent_encode key) = Some key ∧ x26 ∉ percent_encode key.
Proof.
  split; [apply encoded_decodes|]. intros Hin.
  pose proof (encode_safe (λ b, unreserved b || is_slash b) key ltac:(by intros [])) as Hs. rewrite <-percent_encode_flat in Hs.
  rewrite forallb_forall in Hs. apply list_elem_of_In in Hin. by apply Hs in Hin.
Qed.

Lemma build_list_url_request prefix token : ∃ url, build_list_url config prefix token = Ok url ∧ list_request base url prefix token.
Proof.
  set (p := if bool_decide (prefix = []) then [] else ascii "&prefix=" ++ percent_encode prefix).
  set (t := match token with None => [] | Some t0 => ascii "&continuation-token=" ++ percent_encode t0 end).
  assert (∃ sep, (sep = [] ∨ sep = ascii "/") ∧ build_list_url config prefix token = Ok (base ++ sep ++ ascii "?list-type=2" ++ p ++ t)) as (sep & Hsep & Hu).
  { unfold bucket_url in Hbase. unfold build_list_url. destruct (path_style config).
    - injection Hbase as <-. exists []. split; [by left|]. unfold p, t. f_equal. case_bool_decide; destruct token; by rewrite ?app_nil_r, <-?app_assoc.
    - rewrite Hbase. exists (ascii "/"). split; [by right|]. unfold p, t. cbn [app]. f_equal. case_bool_decide; destruct token; by rewrite ?app_nil_r, <-?app_assoc. }
  eexists. split; [exact Hu|]. exists sep, p, t. split; [done|]. split; [done|]. split.
  - unfold p. case_bool_decide; [by left|]. right. eexists. split; [done|]. apply encoded_param.
  - unfold t. destruct token; [|done]. eexists. split; [done|]. apply encoded_param.
Qed.

(** If the bucket holds [m] before, it does after. *)
Definition keeps (m : gmap bytes bytes) w w' : Prop := objects w = m → objects w' = m.
#[local] Instance keeps_refl m : Reflexive (keeps m).
Proof. intros w Hw. exact Hw. Qed.
#[local] Instance keeps_trans m : Transitive (keeps m).
Proof. unfold keeps. intros a b c Hab Hbc Ha. auto. Qed.

(** A request of the listing that got no page. *)
Definition list_failed (m : gmap bytes bytes) (prefix : bytes) : Prop := ∃ clock url token w1 w2 r1, list_request base url prefix token ∧
  objects w1 = m ∧ send config clock "GET" url [] [] w1 = (w2, r1) ∧ ∀ resp, r1 = Ok resp → status resp ≠ 200%Z.

Lemma list_loop_spec clocks prefix m fuel acc token w : objects w = m → forallb xml_plain (btree_iter m).*1 = true →
  let all := matching prefix m in
  let o := match token with None => 0 | Some t => token_pos t end in
  length all - o < fuel →
  ∃ w' r, list_loop config fuel clocks prefix acc token w = Some (w', r) ∧ objects w' = m ∧
    match r with Ok l => l = acc ++ drop o all | Err _ => list_failed m prefix end.
Proof.
  intros Hm Hplain all. revert acc token w Hm. induction fuel as [|fuel IH]; intros acc token w Hm o Hf; [lia|]. cbn [list_loop].
  destruct (build_list_url_request prefix token) as (url & -> & Hreq).
  assert (∀ hs w1 w2 r, http_send "GET" url hs [] w1 = (w2, r) → sent_headers [] hs → keeps m w1 w2) as Heff.
  { intros hs w1 w2 r Hh _ Hw1. rewrite <-Hw1 in Hplain. by destruct (s3_list_law _ _ _ _ _ _ _ Hreq Hplain Hh) as [-> _]. }
  destruct (send _ _ _ _ _ _ w) as [w1 r1] eqn:Hs.
  pose proof (send_effect config (keeps m) (clocks fuel) "GET" url [] [] w w1 r1 Heff Hs) as [Hw1 Hok].
  specialize (Hw1 Hm). assert ((∀ resp, r1 = Ok resp → status resp ≠ 200%Z) → list_failed m prefix) as Hfail by (intros; by exists (clocks fuel), url, token, w, w1, r1).
  destruct r1 as [resp|e]; [|exists w1, (Err e); split; [done|]; split; [done|]; by apply Hfail].
  case_bool_decide as Hst; [eexists w1, _; split; [done|]; split; [done|]; apply Hfail; by intros ? [= <-]|]. destruct (Hok resp eq_refl) as (hs & w0 & raw & Hw0 & Hh & Hhs & ->).
  specialize (Hw0 Hm). rewrite <-Hw0 in Hplain. destruct (s3_list_law _ _ _ _ _ _ _ Hreq Hplain Hh) as [_ Hpage].
  destruct (Hpage raw eq_refl Hst) as (n & doc & next & Hev & Hdoc & Hnext). rewrite Hw0 in Hdoc, Hnext. fold all o in Hdoc, Hnext.
  cbn [from_raw body]. rewrite bool_decide_eq_false_2 by done. unfold parse_list_objects_v2_page. rewrite Hev, (page_fields_document _ _ Hdoc).
  cbn [page_keys is_truncated next_continuation_token]. case_bool_decide as Hmore.
  - destruct (Hnext Hmore) as (Hn & t & -> & Ht). rewrite Hw0 in Hplain.
    destruct (IH (acc ++ take n (drop o all)) (Some t) w1 Hw1) as (w' & r & Hl & Hw' & Hr); [simpl; lia|].
    exists w', r. split; [exact Hl|]. split; [done|]. destruct r as [l|]; [|done]. rewrite Hr, Ht, <-app_assoc, <-drop_drop. by rewrite take_drop.
  - eexists w1, _. split; [done|]. split; [done|]. by rewrite take_ge by (rewrite length_drop; lia).
Qed.

(** C14: Listing a bucket whose keys appear literally in an XML document (without markup,
    quotes, control characters and spaces at either end) terminates within one request per
    matching key, and one more, and returns exactly the keys with the prefix in order; it fails only if a request for one
    of its pages, with all the attempts it is given, gets no response of status 200. *)
Theorem s3_list_complete fuel clocks prefix w : forallb xml_plain (btree_iter (objects w)).*1 = true →
  length (matching prefix (objects w)) < fuel →
  ∃ w' r, s3_list config fuel clocks prefix w = Some (w', r) ∧ objects w' = objects w ∧
    match r with
    | Ok l => l = List.filter (λ k, starts_with k prefix) (btree_iter (objects w)).*1
    | Err _ => list_failed (objects w) prefix
    end.
Proof.
  intros Hp Hf. destruct (list_loop_spec clocks prefix (objects w) fuel [] None w eq_refl Hp) as (w' & r & Hl & Hw & Hr); [simpl; lia|].
  by exists w', r.
Qed.
End Listing.
