(* ===== verification/S3Multipart.v ===== *)
(** * [oxistore-blob-s3/src/multipart.rs]: multipart uploads

    A handle collects the numbers and tags of the parts in the order of upload;
    completing sorts them by number and sends the list as XML.  The service may answer
    a completion with status 200 and a document that reports a failure, which the code
    takes for success. *)

From stdpp Require Import pretty sorting.
From S2P Require Import Prelude Bytes Blob Url Partition S3 S3Props S3History Hashlink.

Record S3MultipartUpload := { mp_key : bytes; upload_id : bytes; parts : list (Z * bytes) }.

(** [sort_by_key(|(n, _)| *n)], a stable sort *)
Fixpoint insert_part (p : Z * bytes) (l : list (Z * bytes)) : list (Z * bytes) :=
  match l with
  | [] => [p]
  | q :: l' => if (p.1 <=? q.1)%Z then p :: l else q :: insert_part p l'
  end.
Definition sort_parts (l : list (Z * bytes)) : list (Z * bytes) := foldr insert_part [] l.

Section Model.
Context {W : Type} `{!S3Lib, !Http W} (config : S3Config).

Definition multipart_error (what : string) (status : Z) : BlobError := MultipartError (what +:+ " failed with status " +:+ pretty status).

Fixpoint upload_id_of (events : list XmlEvent) (in_upload_id : bool) : option (blob_result bytes) :=
  match events with
  | [] => None
  | XStart name :: events => upload_id_of events (bool_decide (name = ascii "UploadId") || in_upload_id)
  | XText t :: events =>
      if in_upload_id then Some (map_err (λ e, MultipartError ("XML decode UploadId: " +:+ e)) t) else upload_id_of events in_upload_id
  | XEnd _ :: events => upload_id_of events false
  | XOther :: events => upload_id_of events in_upload_id
  end.

Definition parse_upload_id (xml : bytes) : blob_result bytes :=
  let '(events, err) := xml_events xml in
  match upload_id_of events false, err with
  | Some r, _ => r
  | None, Some e => Err (MultipartError ("XML parse error in CreateMultipartUpload response: " +:+ e))
  | None, None => Err (MultipartError "CreateMultipartUpload response missing <UploadId>")
  end.

Definition create_multipart_upload (clock : Z → Z) (key : bytes) : W → W * blob_result S3MultipartUpload :=
  on_response config clock "POST" (let? u := object_url config key in Ok (u ++ ascii "?uploads")) [] []
    (λ resp,
      if bool_decide (status resp ≠ 200%Z) then Err (multipart_error "CreateMultipartUpload" (status resp))
      else let? id := parse_upload_id (body resp) in Ok {| mp_key := key; upload_id := id; parts := [] |}).

Definition upload_part (clock : Z → Z) (part_number : Z) (data : bytes) (up : S3MultipartUpload) (w : W) : W * (S3MultipartUpload * blob_result unit) :=
  let url := let? u := object_url config (mp_key up) in
             Ok (u ++ ascii "?partNumber=" ++ decimal part_number ++ ascii "&uploadId=" ++ percent_encode (upload_id up)) in
  let '(w, r) := on_response config clock "PUT" url data []
    (λ resp,
      if bool_decide (status resp ∉ [200; 206]%Z) then Err (multipart_error "UploadPart" (status resp))
      else match headers resp !! ascii "etag" with
           | None => Err (MultipartError "UploadPart: missing ETag header")
           | Some etag => Ok etag
           end) w in
  (w, match r with
      | Ok etag => ({| mp_key := mp_key up; upload_id := upload_id up; parts := parts up ++ [(part_number, etag)] |}, Ok ())
      | Err e => (up, Err e)
      end).

(** [create_element(name).write_inner_content(..)] *)
Definition xml_element (name inner : bytes) : bytes := ascii "<" ++ name ++ ascii ">" ++ inner ++ ascii "</" ++ name ++ ascii ">".

Definition part_xml (p : Z * bytes) : bytes :=
  xml_element (ascii "Part")
    (xml_element (ascii "PartNumber") (xml_escape (decimal p.1)) ++ xml_element (ascii "ETag") (xml_escape p.2)).

Definition build_complete_xml (parts : list (Z * bytes)) : bytes := xml_element (ascii "CompleteMultipartUpload") (flat_map part_xml parts).

Definition upload_url (up : S3MultipartUpload) : blob_result bytes :=
  let? u := object_url config (mp_key up) in Ok (u ++ ascii "?uploadId=" ++ percent_encode (upload_id up)).

Definition complete (clock : Z → Z) (up : S3MultipartUpload) : W → W * blob_result unit :=
  on_response config clock "POST" (upload_url up) (build_complete_xml (sort_parts (parts up))) [(ascii "content-type", ascii "application/xml")]
    (λ resp, if bool_decide (status resp ≠ 200%Z) then Err (multipart_error "CompleteMultipartUpload" (status resp)) else Ok ()).

Definition abort (clock : Z → Z) (up : S3MultipartUpload) : W → W * blob_result unit :=
  on_response config clock "DELETE" (upload_url up) [] []
    (λ resp, if bool_decide (status resp ∈ [200; 204]%Z) then Ok () else Err (multipart_error "AbortMultipartUpload" (status resp))).

(** The parts of a client one after the other; the first error ends the upload. *)
Fixpoint upload_parts (clock : Z → Z) (data : list (Z * bytes)) (up : S3MultipartUpload) (w : W) : W * (S3MultipartUpload * blob_result unit) :=
  match data with
  | [] => (w, (up, Ok ()))
  | (n, d) :: data =>
      match upload_part clock n d up w with
      | (w, (up, Ok _)) => upload_parts clock data up w
      | (w, (up, Err e)) => (w, (up, Err e))
      end
  end.
End Model.

(** ** Sorting *)
Definition part_le (a b : Z * bytes) : Prop := (a.1 ≤ b.1)%Z.

Lemma insert_part_perm p l : insert_part p l ≡ₚ p :: l.
Proof. induction l as [|q l IH]; [done|]. cbn [insert_part]. destruct (_ <=? _)%Z; [done|]. by rewrite IH, Permutation_swap. Qed.

Lemma sort_parts_perm l : sort_parts l ≡ₚ l.
Proof. induction l as [|p l IH]; [done|]. cbn [sort_parts foldr]. fold (sort_parts l). by rewrite insert_part_perm, IH. Qed.

Lemma insert_part_sorted p l : Sorted part_le l → Sorted part_le (insert_part p l).
Proof.
  induction 1 as [|q l Hl IH Hq]; cbn [insert_part]; [by repeat constructor|]. destruct (Z.leb_spec p.1 q.1) as [Hle|Hlt].
  - constructor; [by constructor|]. by constructor.
  - constructor; [done|]. destruct l as [|r l]; cbn [insert_part]; [constructor; unfold part_le; lia|].
    apply HdRel_inv in Hq. destruct (_ <=? _)%Z; constructor; unfold part_le in *; [lia|done].
Qed.

Lemma sort_parts_sorted l : Sorted part_le (sort_parts l).
Proof. induction l as [|p l IH]; [constructor|]. by apply insert_part_sorted. Qed.

(** Parts of the same number stay in the order of upload. *)
Lemma insert_part_stable n p l : Sorted part_le l →
  List.filter (λ q, (q.1 =? n)%Z) (insert_part p l) = List.filter (λ q, (q.1 =? n)%Z) (p :: l).
Proof.
  induction l as [|q l IH]; intros Hs; [done|]. cbn [insert_part]. destruct (Z.leb_spec p.1 q.1); [done|]. apply Sorted_inv in Hs as [Hs _].
  specialize (IH Hs). cbn [List.filter] in *. rewrite IH. destruct (Z.eqb_spec p.1 n), (Z.eqb_spec q.1 n); try done. lia.
Qed.

Lemma sort_parts_stable n l : List.filter (λ q, (q.1 =? n)%Z) (sort_parts l) = List.filter (λ q, (q.1 =? n)%Z) l.
Proof.
  induction l as [|p l IH]; [done|]. cbn [sort_parts foldr]. fold (sort_parts l). rewrite insert_part_stable by apply sort_parts_sorted.
  cbn [List.filter]. by rewrite IH.
Qed.

(** ** The list of parts as the service reads it *)
Definition strip (p s : bytes) : option bytes := if starts_with s p then Some (drop (length p) s) else None.

Fixpoint until_lt (s : bytes) : bytes * bytes :=
  match s with
  | [] => ([], [])
  | b :: s' => if bool_decide (b = x3c) then ([], s) else let '(a, r) := until_lt s' in (b :: a, r)
  end.

Fixpoint read_part_list (fuel : nat) (s : bytes) : option (list (bytes * bytes)) :=
  match strip (ascii "</CompleteMultipartUpload>") s with
  | Some [] => Some []
  | Some _ => None
  | None =>
      match fuel with
      | 0 => None
      | S fuel =>
          s ← strip (ascii "<Part><PartNumber>") s;
          let '(n, s) := until_lt s in
          s ← strip (ascii "</PartNumber><ETag>") s;
          let '(e, s) := until_lt s in
          s ← strip (ascii "</ETag></Part>") s;
          l ← read_part_list fuel s; Some ((n, e) :: l)
      end
  end.

Definition read_complete_xml (s : bytes) : option (list (bytes * bytes)) :=
  s ← strip (ascii "<CompleteMultipartUpload>") s; read_part_list (length s) s.

(** Text written by the XML library is escaped. *)
Class XmlLaws `{!S3Lib} : Prop := xml_escape_lt s : x3c ∉ xml_escape s.

Lemma strip_app p s : strip p (p ++ s) = Some s.
Proof. unfold strip. rewrite (proj2 (starts_with_prefix _ _)) by (by eexists). by rewrite drop_app_length. Qed.

Lemma until_lt_app a rest : x3c ∉ a → until_lt (a ++ x3c :: rest) = (a, x3c :: rest).
Proof.
  induction a as [|b a IH]; intros Ha; cbn [app until_lt]; [by rewrite bool_decide_eq_true_2|].
  apply not_elem_of_cons in Ha as [Hb Ha]. rewrite bool_decide_eq_false_2 by done. by rewrite IH.
Qed.

Lemma read_part_list_xml `{XL : !S3Lib, XW : !XmlLaws} ps fuel : length ps ≤ fuel →
  read_part_list fuel (flat_map part_xml ps ++ ascii "</CompleteMultipartUpload>") = Some ((λ p, (xml_escape (decimal p.1), xml_escape p.2)) <$> ps).
Proof.
  revert fuel. induction ps as [|p ps IH]; intros fuel Hf; [by destruct fuel|]. destruct fuel as [|fuel]; [simpl in Hf; lia|].
  set (rest := flat_map part_xml ps ++ ascii "</CompleteMultipartUpload>").
  assert (flat_map part_xml (p :: ps) ++ ascii "</CompleteMultipartUpload>" = ascii "<Part><PartNumber>" ++ xml_escape (decimal p.1) ++ x3c ::
    (drop 1 (ascii "</PartNumber><ETag>") ++ xml_escape p.2 ++ x3c :: (drop 1 (ascii "</ETag></Part>") ++ rest))) as ->.
  { cbn [flat_map]. unfold part_xml at 1, xml_element, rest. rewrite <-!app_assoc. done. }
  cbn [read_part_list]. unfold strip at 1. change (starts_with (ascii "<Part><PartNumber>" ++ ?x) (ascii "</CompleteMultipartUpload>")) with false.
  cbv iota. rewrite strip_app. cbn [mbind option_bind]. rewrite until_lt_app by apply xml_escape_lt. cbv iota.
  change (x3c :: drop 1 (ascii "</PartNumber><ETag>") ++ ?x) with (ascii "</PartNumber><ETag>" ++ x). rewrite strip_app. cbn [mbind option_bind].
  rewrite until_lt_app by apply xml_escape_lt. cbv iota.
  change (x3c :: drop 1 (ascii "</ETag></Part>") ++ ?x) with (ascii "</ETag></Part>" ++ x). rewrite strip_app. cbn [mbind option_bind].
  unfold rest. rewrite IH by (simpl in Hf; lia). done.
Qed.

Lemma read_complete_build `{XL : !S3Lib, XW : !XmlLaws} ps :
  read_complete_xml (build_complete_xml ps) = Some ((λ p, (xml_escape (decimal p.1), xml_escape p.2)) <$> ps).
Proof.
  unfold read_complete_xml, build_complete_xml, xml_element.
  change (ascii "<" ++ ascii "CompleteMultipartUpload" ++ ascii ">" ++ ?x) with (ascii "<CompleteMultipartUpload>" ++ x). rewrite strip_app.
  cbn [mbind option_bind]. change (ascii "</" ++ ascii "CompleteMultipartUpload" ++ ascii ">") with (ascii "</CompleteMultipartUpload>").
  apply read_part_list_xml. rewrite length_app. transitivity (length (flat_map part_xml ps)); [|lia].
  induction ps as [|p ps IH]; [done|]. cbn [flat_map length]. rewrite length_app. unfold part_xml at 1, xml_element. rewrite !length_app. simpl. lia.
Qed.

(** ** The service *)
(** The uploads in progress: the parts of each, by number, with their data. *)
Class S3Uploads (W : Type) := uploads : W → gmap bytes (gmap Z bytes).

(** Completing an upload assembles the listed parts, whose numbers must ascend and whose
    tags must be those of the parts; a response of status 200 can still hold the document of
    an error, and then the upload may be as it was. *)
Class S3MultipartLaws (W : Type) `{!S3Lib, !Http W, !S3Objects W, !S3Uploads W} (base : bytes) := {
  etag_of : bytes → bytes;
  mp_create_law path key hs (w w' : W) r : names_object path key → http_send "POST" (base ++ ascii "/" ++ path ++ ascii "?uploads") hs [] w = (w', r) →
    objects w' = objects w ∧
    ∀ resp, r = Ok resp → raw_status resp = 200%Z → ∃ before id after err,
      xml_events (raw_body resp) = (before ++ XStart (ascii "UploadId") :: XText (Ok id) :: after, err) ∧
      (XStart (ascii "UploadId") ∉ before) ∧ uploads w' !! id = Some (∅ : gmap Z bytes);
  mp_part_law path key n e id hs data (w w' : W) r ps : names_object path key → percent_decode e = Some id → uploads w !! id = Some ps →
    http_send "PUT" (base ++ ascii "/" ++ path ++ ascii "?partNumber=" ++ decimal n ++ ascii "&uploadId=" ++ e) hs data w = (w', r) →
    objects w' = objects w ∧ (uploads w' !! id = Some ps ∨ uploads w' !! id = Some (<[n:=data]> ps)) ∧
    ∀ resp, r = Ok resp → success (raw_status resp) →
      uploads w' !! id = Some (<[n:=data]> ps) ∧ ∀ t, header_map (raw_headers resp) !! ascii "etag" = Some t → t = etag_of data;
  mp_complete_law path key e id hs data (w w' : W) r ps listed : names_object path key → percent_decode e = Some id → uploads w !! id = ps →
    http_send "POST" (base ++ ascii "/" ++ path ++ ascii "?uploadId=" ++ e) hs data w = (w', r) →
    read_complete_xml data = Some ((λ p, (xml_escape (decimal p.1), xml_escape p.2)) <$> listed) →
    (uploads w' !! id = ps ∧ objects w' = objects w ∨
     uploads w' !! id = None ∧ ∃ ps' ds, ps = Some ps' ∧ Sorted (λ a b, a < b)%Z listed.*1 ∧
       Forall2 (λ p d, ps' !! p.1 = Some d ∧ p.2 = etag_of d) listed ds ∧ objects w' = <[key:=concat ds]> (objects w)) ∧
    ∀ resp, r = Ok resp → raw_status resp = 200%Z → uploads w' !! id = None ∨ is_Some (parse_error (raw_body resp));
}.

Section Service.
Context {W : Type} `{SL : !S3Lib, SG : !SigV4Laws, XW : !XmlLaws, HW : !Http W, OB : !S3Objects W, UP : !S3Uploads W}.
Context (config : S3Config) (base : bytes) `{MW : !S3MultipartLaws W base} (Hbase : bucket_url config = Ok base).
Implicit Types w : W.

(** A property of the state that requests keep. *)
Definition preserves (P : W → Prop) w w' : Prop := P w → P w'.
#[local] Instance preserves_refl P : Reflexive (preserves P).
Proof. intros w Hw. exact Hw. Qed.
#[local] Instance preserves_trans P : Transitive (preserves P).
Proof. unfold preserves. intros a b c Hab Hbc Ha. auto. Qed.

Lemma object_url_at key : object_url config key = Ok (base ++ ascii "/" ++ percent_encode key).
Proof. unfold object_url. by rewrite Hbase. Qed.

(** The handle of an upload knows the parts the service has, with their tags. *)
Definition upload_rel (m : gmap bytes bytes) (up : S3MultipartUpload) (ds : list (Z * bytes)) w : Prop :=
  objects w = m ∧ parts up = (λ d, (d.1, etag_of d.2)) <$> ds ∧ ∃ ps, uploads w !! upload_id up = Some ps ∧ Forall (λ d, ps !! d.1 = Some d.2) ds.

Lemma upload_part_spec clock n d up ds m w w' up' : addressable (mp_key up) = true → upload_rel m up ds w → n ∉ ds.*1 →
  upload_part config clock n d up w = (w', (up', Ok ())) →
  upload_rel m up' (ds ++ [(n, d)]) w' ∧ mp_key up' = mp_key up ∧ upload_id up' = upload_id up.
Proof.
  intros Hkey (Hm & Hparts & ps & Hps & Hds) Hn. unfold upload_part. rewrite object_url_at. cbn zeta. rewrite <-!app_assoc.
  destruct (on_response _ _ _ _ _ _ _ w) as [w1 r] eqn:Hr.
  set (id := upload_id up) in *. set (P w := objects w = m ∧ (uploads w !! id = Some ps ∨ uploads w !! id = Some (<[n:=d]> ps))).
  assert (∀ w1 w2 hs r, P w1 → http_send "PUT" (base ++ ascii "/" ++ percent_encode (mp_key up) ++ ascii "?partNumber=" ++ decimal n ++
    ascii "&uploadId=" ++ percent_encode id) hs d w1 = (w2, r) → P w2 ∧ ∀ resp, r = Ok resp → success (raw_status resp) →
    uploads w2 !! id = Some (<[n:=d]> ps) ∧ ∀ t, header_map (raw_headers resp) !! ascii "etag" = Some t → t = etag_of d) as Hstep.
  { intros a b hs ra [Ha [Hu|Hu]] Hh;
      destruct (mp_part_law _ _ n _ _ _ _ _ _ _ _ (encoded_names _ Hkey) (encoded_decodes id) Hu Hh) as (Ho & Heff & Hok); rewrite ?insert_insert_eq in *.
    - split; [split; [congruence|tauto]|exact Hok].
    - split; [split; [congruence|tauto]|]. exact Hok. }
  destruct (on_response_effect config (preserves P) _ _ _ _ _ _ _ _ _ ltac:(intros hs a b ra Hh _ Ha; by apply (Hstep a b hs ra)) Hr) as [HP Hres].
  destruct Hres as [(e & -> & _)|(hs & w2 & raw & HP2 & Hh & _ & ->)]; [done|]. assert (P w) as Hw by (split; [done|by left]).
  destruct (Hstep w2 w1 hs _ (HP2 Hw) Hh) as [HP1 Hok]. cbv beta. case_bool_decide as Hst; [done|].
  cbn [status from_raw headers] in *.
  destruct (header_map _ !! _) as [t|] eqn:Ht; [|done]. intros [= <- <-]. destruct (Hok raw eq_refl) as [Hu Htag]; [unfold success; set_solver by lia|].
  split; [|done]. split; [apply HP1|]. cbn [parts upload_id]. split.
  - rewrite fmap_app, Hparts. by rewrite (Htag t Ht).
  - exists (<[n:=d]> ps). split; [done|]. apply Forall_app. split; [|by constructor; [apply lookup_insert_eq|]].
    rewrite Forall_forall in *. intros [n' d'] Hin. rewrite lookup_insert_ne; [by apply Hds|]. intros ->. apply Hn.
    apply list_elem_of_fmap. by exists (n', d').
Qed.

Lemma upload_parts_spec clock data up ds m w w' up' : addressable (mp_key up) = true → upload_rel m up ds w → NoDup (ds ++ data).*1 →
  upload_parts config clock data up w = (w', (up', Ok ())) →
  upload_rel m up' (ds ++ data) w' ∧ mp_key up' = mp_key up ∧ upload_id up' = upload_id up.
Proof.
  revert up ds w. induction data as [|[n d] data IH]; intros up ds w Hkey Hrel Hnd; cbn [upload_parts].
  - intros [= <- <-]. by rewrite app_nil_r.
  - destruct (upload_part config clock n d up w) as [w1 [up1 [[]|e]]] eqn:Hp; [|done]. intros Hrest.
    apply (upload_part_spec clock n d up ds m) in Hp as (Hrel1 & Hk & Hi); [|done|done|].
    + destruct (IH up1 (ds ++ [(n, d)]) w1 ltac:(by rewrite Hk) Hrel1) as (Hr & Hk' & Hi'); [by rewrite <-app_assoc|done|]. rewrite <-app_assoc in Hr.
      split; [exact Hr|]. split; congruence.
    + rewrite fmap_app in Hnd. csimpl in Hnd. apply NoDup_app in Hnd as (_ & Hnd & _). intros Hin. apply (Hnd n Hin). by left.
Qed.

Lemma upload_id_of_found before id after : XStart (ascii "UploadId") ∉ before →
  upload_id_of (before ++ XStart (ascii "UploadId") :: XText (Ok id) :: after) false = Some (Ok id).
Proof.
  induction before as [|ev before IH]; intros Hb; [done|]. apply not_elem_of_cons in Hb as [He Hb]. cbn [app upload_id_of].
  destruct ev as [name|t|name|]; auto. rewrite bool_decide_eq_false_2 by congruence. auto.
Qed.

Lemma create_spec clock key w w' up : addressable key = true → create_multipart_upload config clock key w = (w', Ok up) →
  upload_rel (objects w) up [] w' ∧ mp_key up = key.
Proof.
  intros Hkey. unfold create_multipart_upload. rewrite object_url_at. cbv beta iota. rewrite <-!app_assoc. intros Hr.
  destruct (on_response_effect config (preserves (λ w', objects w' = objects w)) _ _ _ _ _ _ _ _ _ ltac:(
    intros hs a b ra Hh _ Ha; destruct (mp_create_law _ _ _ _ _ _ (encoded_names key Hkey) Hh) as [Ho _]; congruence) Hr) as [HP Hres].
  destruct Hres as [(e & [=] & _)|(hs & w2 & raw & HP2 & Hh & _ & Hres)]. case_bool_decide as Hst; [done|]. cbn [status from_raw body] in *.
  destruct (mp_create_law _ _ _ _ _ _ (encoded_names key Hkey) Hh) as [_ Hok]. destruct (Hok raw eq_refl Hst) as (before & id & after & err & Hev & Hb & Hu).
  rewrite bool_decide_eq_false_2 in Hres by done. unfold parse_upload_id in Hres. rewrite Hev, upload_id_of_found in Hres by done. simpl in Hres.
  injection Hres as ->. split; [|done]. split; [by apply HP|]. split; [done|]. by exists ∅.
Qed.

Lemma insert_part_fmap (g : bytes → bytes) p l :
  insert_part (p.1, g p.2) ((λ d : Z * bytes, (d.1, g d.2)) <$> l) = (λ d : Z * bytes, (d.1, g d.2)) <$> insert_part p l.
Proof. induction l as [|q l IH]; [done|]. csimpl. destruct (_ <=? _)%Z; csimpl; [done|]. by rewrite IH. Qed.

Lemma sort_parts_fmap (g : bytes → bytes) l : sort_parts ((λ d : Z * bytes, (d.1, g d.2)) <$> l) = (λ d : Z * bytes, (d.1, g d.2)) <$> sort_parts l.
Proof.
  induction l as [|p l IH]; [done|]. csimpl. unfold sort_parts in *. csimpl. rewrite IH. apply insert_part_fmap.
Qed.

Lemma listed_data (ps : gmap Z bytes) l ds : Forall (λ d : Z * bytes, ps !! d.1 = Some d.2) l →
  Forall2 (λ p d, ps !! p.1 = Some d ∧ p.2 = etag_of d) ((λ d : Z * bytes, (d.1, etag_of d.2)) <$> l) ds → ds = l.*2.
Proof.
  intros Hl. revert ds. induction Hl as [|[n d] l Hd _ IH]; intros ds Hf; csimpl in *.
  - by apply Forall2_nil_inv_l in Hf as ->.
  - apply Forall2_cons_inv_l in Hf as (d' & ds' & [Hd' _] & Hf & ->). simpl in *. f_equal; [congruence|by apply IH].
Qed.

(** The request that completes an upload was answered with status 200 and the document of an
    error. *)
Definition completion_refused (up : S3MultipartUpload) w' : Prop := ∃ url hs body w raw,
  upload_url config up = Ok url ∧ http_send "POST" url hs body w = (w', Ok raw) ∧ raw_status raw = 200%Z ∧ is_Some (parse_error (raw_body raw)).

Lemma complete_spec c0 c1 c2 key data w0 w1 w2 w3 up0 up :
  addressable key = true → NoDup data.*1 →
  create_multipart_upload config c0 key w0 = (w1, Ok up0) → upload_parts config c1 data up0 w1 = (w2, (up, Ok ())) →
  complete config c2 up w2 = (w3, Ok ()) →
  objects w2 = objects w0 ∧
  (objects w3 = <[key:=concat (sort_parts data).*2]> (objects w0) ∧ uploads w3 !! upload_id up = None ∨
   objects w3 = objects w0 ∧ is_Some (uploads w3 !! upload_id up) ∧ completion_refused up w3).
Proof.
  intros Hkey Hnd Hc Hp. apply create_spec in Hc as [Hrel Hkey0]; [|done].
  apply (upload_parts_spec c1 data up0 [] _ w1 w2 up ltac:(by rewrite Hkey0) Hrel Hnd) in Hp as ((Hm & Hparts & ps & Hps & Hds) & Hk & _). cbn [app] in *.
  set (v := concat (sort_parts data).*2). set (m := objects w0) in *. set (id := upload_id up) in *.
  assert (upload_url config up = Ok (base ++ ascii "/" ++ percent_encode key ++ ascii "?uploadId=" ++ percent_encode id)) as Hurl.
  { unfold upload_url. rewrite object_url_at, Hk, Hkey0. cbv beta iota. by rewrite <-!app_assoc. }
  unfold complete. rewrite Hurl. intros Hr.
  set (P w := objects w = m ∧ uploads w !! id = Some ps ∨ objects w = <[key:=v]> m ∧ uploads w !! id = None).
  assert (∀ w1 w2 hs r, P w1 → http_send "POST" (base ++ ascii "/" ++ percent_encode key ++ ascii "?uploadId=" ++ percent_encode id) hs
      (build_complete_xml (sort_parts (parts up))) w1 = (w2, r) →
    P w2 ∧ ∀ resp, r = Ok resp → raw_status resp = 200%Z → uploads w2 !! id = None ∨ is_Some (parse_error (raw_body resp))) as Hstep.
  { intros a b hs ra HPa Hh. destruct (mp_complete_law _ key _ id _ _ _ _ _ _ _ (encoded_names key Hkey) (encoded_decodes id) eq_refl Hh (read_complete_build _))
      as [Heff Hok]. split.
    - destruct Heff as [[Hu Ho]|(Hu & ps' & ds & Hps' & _ & Hf & Ho)].
      + destruct HPa as [[H1 H2]|[H1 H2]]; [left|right]; split; congruence.
      + destruct HPa as [[H1 H2]|[_ H2]]; [|congruence]. right. split; [|done]. rewrite H2 in Hps'. injection Hps' as <-.
        rewrite Hparts, sort_parts_fmap in Hf. apply listed_data in Hf; [|by rewrite sort_parts_perm]. rewrite Ho, Hf. by rewrite H1.
    - exact Hok. }
  destruct (on_response_effect config (preserves P) _ _ _ _ _ _ _ _ _ ltac:(intros hs a b ra Hh _ Ha; by apply (Hstep a b hs ra)) Hr) as [HP Hres].
  assert (P w2) as HP2 by (by left). split; [done|]. destruct Hres as [(e & [=] & _)|(hs & w4 & raw & HP4 & Hh & _ & Hres)].
  case_bool_decide as Hst; [done|]. destruct (Hstep w4 w3 hs _ (HP4 HP2) Hh) as [HP3 Hok]. specialize (Hok raw eq_refl Hst).
  destruct HP3 as [[Ho Hu]|H]; [right|by left]. destruct Hok as [Hok|Hok]; [congruence|].
  split; [done|]. split; [by eexists|]. eexists _, hs, _, w4, raw. split; [done|]. split; [exact Hh|]. by split.
Qed.

#[local] Instance part_le_trans : Transitive part_le.
Proof. unfold part_le. intros a b c. lia. Qed.

(** The order of the numbers determines the list. *)
Lemma sort_parts_unique ordered data : NoDup data.*1 → ordered ≡ₚ data → StronglySorted (λ p q : Z * bytes, p.1 < q.1)%Z ordered → ordered = sort_parts data.
Proof.
  intros Hnd Hp Hs. apply (Sorted_unique_strong part_le); [| |apply sort_parts_sorted|by rewrite sort_parts_perm].
  2: { apply StronglySorted_Sorted. clear -Hs. induction Hs as [|p l _ IH Hl]; constructor; [done|]. eapply Forall_impl; [exact Hl|]. unfold part_le. simpl. lia. }
  intros [n d] [n' d'] H1 H2 Hle Hge. unfold part_le in *. simpl in *. assert (n = n') as <- by lia. rewrite Hp in H1. rewrite sort_parts_perm in H2.
  f_equal. apply assoc_elem_of in H1, H2; [|done..]. congruence.
Qed.


(** Part numbers that were uploaded twice are listed twice. *)
Lemma repeated_part_listed_twice clock n d up w w' up' : n ∈ (parts up).*1 →
  upload_part config clock n d up w = (w', (up', Ok ())) → ¬ NoDup (sort_parts (parts up')).*1.
Proof.
  intros Hin. unfold upload_part. destruct (on_response _ _ _ _ _ _ _ w) as [w1 [etag|e]]; [|by intros [=]].
  intros [= <- <-]. cbn [parts]. rewrite sort_parts_perm, fmap_app. csimpl. rewrite NoDup_app. intros (_ & Hd & _). apply (Hd n Hin). by left.
Qed.
End Service.
