(* ===== verification/S3Witness.v ===== *)
(** * A service with faults

    An instance of the service and of the libraries of the S3 store: a bucket whose next
    requests follow a plan of faults.  The theorems on the S3 store are evaluated on it. *)

From stdpp Require Import pretty.
From S2P Require Import Prelude Bytes Blob Url Partition S3 S3Props S3History S3List S3Multipart.

Inductive Fault := Fine | Busy | Lost | LostAfter.

Record Bucket := { stored : gmap bytes bytes; pending : gmap bytes (gmap Z bytes); plan : list Fault }.

Definition toy_base : bytes := ascii "http://h/b".

(** The documents of the service are the page of a listing, the identifier of an upload, or
    an error.  A page is stored as a flag, the next token in unary, and the keys, each ended
    by an angle bracket. *)
Fixpoint cut_keys (s acc : bytes) : list bytes :=
  match s with
  | [] => []
  | b :: s => if bool_decide (b = x3c) then acc :: cut_keys s [] else cut_keys s (acc ++ [b])
  end.

Fixpoint unary (n : nat) : bytes := match n with 0 => [] | S n => x31 :: unary n end.

Definition toy_object_element (k : bytes) : Xml :=
  Tree (ascii "Contents") [Leaf (ascii "LastModified") (ascii "2024-01-01T00:00:00Z"); Leaf (ascii "Key") k; Tree (ascii "Owner") [Leaf (ascii "ID") k]; Leaf (ascii "Size") (ascii "0")].

(** A page as the service sends it: a declaration, fields that the client does not read, the
    flag among them, the objects, and the token at the end. *)
Definition toy_page (keys : list bytes) (next : option bytes) : list Xml :=
  [Misc; Tree (ascii "ListBucketResult")
    (Leaf (ascii "Name") (ascii "b") :: Leaf (ascii "IsTruncated") (if next is Some _ then ascii "true" else ascii "false") :: Misc ::
     map toy_object_element keys ++ match next with Some t => [Leaf (ascii "NextContinuationToken") t] | None => [] end)].

#[global] Instance toy_lib : S3Lib := {|
  url_parse _ := Ok {| scheme := ascii "http"; host_str := Some (ascii "h"); port := None |};
  default_signing_settings := {| signature_location := SigHeaders; expires_in := None; percent_encoding_mode := EncDouble; payload_checksum_kind := NoHeader; uri_path_normalization_mode := NormEnabled |};
  SigningParams := unit;
  v4_params _ _ _ _ _ := Ok ();
  SignableRequest := unit;
  signable_request _ _ _ _ := Ok ();
  v4_sign _ _ := Ok ([(ascii "authorization", ascii "none")], [(ascii "X-Amz-Algorithm", ascii "AWS4-HMAC-SHA256"); (ascii "X-Amz-Credential", ascii "a/b c")]);
  xml_events data :=
    match data with
    | x4c :: data =>
        match until_lt data with
        | (token, _ :: keys) => (flat_map events_of (toy_page (cut_keys keys []) (if bool_decide (token = []) then None else Some token)), None)
        | _ => ([], None)
        end
    | x55 :: id => ([XStart (ascii "UploadId"); XText (Ok id)], None)
    | x45 :: name => ([XStart (ascii "Error"); XStart (ascii "Code"); XText (Ok name); XEnd (ascii "Code"); XEnd (ascii "Error")], None)
    | _ => ([], None)
    end;
  xml_escape := flat_map (encode_byte (λ b, negb (bool_decide (b ∈ [x25; x3c]))));
|}.

#[global] Instance toy_sigv4 : SigV4Laws.
Proof. intros req params l q [= <- _]. repeat constructor. Qed.

Lemma toy_escape_inj s s' : xml_escape s = xml_escape s' → s = s'.
Proof. intros H. apply (f_equal percent_decode) in H. cbn in H. rewrite !encode_decode in H by done. by injection H. Qed.

#[global] Instance toy_xml : XmlLaws.
Proof.
  intros s. cbn [xml_escape toy_lib]. induction s as [|b s IH]; [by intros ?%not_elem_of_nil|]. cbn [flat_map]. rewrite elem_of_app.
  intros [Hin|Hin]; [|done]. revert Hin. rewrite <-(bool_decide_eq_true (_ ∈ _)). by destruct b.
Qed.

#[global] Instance toy_objects : S3Objects Bucket := stored.

(** The prefix a listing asks for. *)
Fixpoint until_amp (s : bytes) : bytes := match s with [] => [] | b :: s => if bool_decide (b = x26) then [] else b :: until_amp s end.

Definition query_params (rest : bytes) : bytes := drop 12 (if bool_decide (head rest = Some x2f) then drop 1 rest else rest).
Definition query_prefix (rest : bytes) : option bytes :=
  let q := query_params rest in if starts_with q (ascii "&prefix=") then percent_decode (until_amp (drop 8 q)) else Some [].

(** The position that the token of a listing stands for is its length. *)
Definition query_offset (rest : bytes) : nat :=
  let q := query_params rest in
  let t := if starts_with q (ascii "&prefix=") then drop (length (until_amp (drop 8 q))) (drop 8 q) else q in
  length (default [] (percent_decode (drop 20 t))).

(** Pages have two keys. *)
Definition toy_listing (keys : list bytes) (o : nat) : bytes :=
  x4c :: (if decide (o + 2 < length keys) then unary (o + 2) else []) ++ x3c :: flat_map (λ k, k ++ [x3c]) (take 2 (drop o keys)).

Definition reply (code : Z) (hs : list (bytes * bytes)) (data : bytes) : result RawResponse string :=
  Ok {| raw_status := code; raw_headers := hs; raw_body := data |}.

(** Multipart uploads have one identifier and two parts; the tag of a part is its data if
    that is text. *)
Definition toy_id : bytes := ascii "u".

Definition toy_tag (data : bytes) : bytes := if decide (header_text data = data) then data else ascii "?".

Definition part_number_of (text : bytes) : option Z :=
  if decide (text = decimal 1) then Some 1%Z else if decide (text = decimal 2) then Some 2%Z else None.

(** Splits an address at its question mark. *)
Fixpoint split_query (s : bytes) : bytes * bytes :=
  match s with
  | [] => ([], [])
  | b :: s' => if bool_decide (b = x3f) then ([], s) else let '(a, r) := split_query s' in (b :: a, r)
  end.

Abbreviation State := (gmap bytes bytes * gmap bytes (gmap Z bytes))%type.

Definition serve_upload (method : string) (rest data : bytes) (st : State) : State * result RawResponse string :=
  let '(m, ups) := st in
  let '(path, query) := split_query rest in
  if bool_decide (method = "PUT") then
    match strip (ascii "?partNumber=") query with
    | Some q =>
        let text := until_amp q in
        match part_number_of text, percent_decode (drop (length text + 10) q) with
        | Some n, Some id =>
            match ups !! id with
            | Some ps => ((m, <[id := <[n:=data]> ps]> ups), reply 200 [(ascii "ETag", toy_tag data)] [])
            | None => (st, reply 404 [] [])
            end
        | _, _ => (st, reply 400 [] [])
        end
    | None => (st, reply 400 [] [])
    end
  else if decide (query = ascii "?uploads") then ((m, <[toy_id := ∅]> ups), reply 200 [] (x55 :: toy_id))
  else
    match strip (ascii "?uploadId=") query ≫= percent_decode, percent_decode (drop 1 path) with
    | Some id, Some key =>
        match ups !! id with
        | Some ps =>
            match ps !! 1%Z, ps !! 2%Z with
            | Some d1, Some d2 =>
                if decide (read_complete_xml data = Some [(xml_escape (decimal 1), xml_escape (toy_tag d1)); (xml_escape (decimal 2), xml_escape (toy_tag d2))])
                then ((<[key := d1 ++ d2]> m, delete id ups), reply 200 [] []) else (st, reply 200 [] (x45 :: ascii "InvalidPart"))
            | _, _ => (st, reply 400 [] [])
            end
        | None => (st, reply 404 [] [])
        end
    | _, _ => (st, reply 400 [] [])
    end.

(** The state after the request and the response, without faults. *)
Definition serve (method : string) (url data : bytes) (st : State) : State * result RawResponse string :=
  let '(m, ups) := st in
  let rest := drop (length toy_base) url in
  if bool_decide (x3f ∈ rest) then
    if bool_decide (method = "GET") then
      match query_prefix rest with
      | Some prefix => (st, reply 200 [] (toy_listing (matching prefix m) (query_offset rest)))
      | None => (st, reply 400 [] [])
      end
    else serve_upload method rest data st
  else match percent_decode (drop 1 rest) with
    | None => (st, reply 400 [] [])
    | Some key =>
        if bool_decide (method = "PUT") then ((<[key:=data]> m, ups), reply 200 [] [])
        else if bool_decide (method = "DELETE") then ((delete key m, ups), reply 204 [] [])
        else if bool_decide (method = "GET") then
          (st, match m !! key with Some v => reply 200 [] v | None => reply 404 [] [] end)
        else
          (st, match m !! key with
              | Some v =>
                  let n := decimal (blob_len v) in
                  if bool_decide (header_map [(ascii "Content-Length", n)] !! ascii "content-length" = Some n ∧ parse_usize (byte_Z <$> n) = Some (blob_len v))
                  then reply 200 [(ascii "Content-Length", n)] [] else reply 500 [] []
              | None => reply 404 [] []
              end)
    end.

Definition state (w : Bucket) : State := (stored w, pending w).
Definition with_state (st : State) (p : list Fault) : Bucket := {| stored := st.1; pending := st.2; plan := p |}.

#[global] Instance toy_http : Http Bucket := λ method url _ data w,
  let '(st, r) := serve method url data (state w) in
  match plan w with
  | [] => (with_state st [], r)
  | Fine :: p => (with_state st p, r)
  | Busy :: p => (with_state (state w) p, reply 503 [] [])
  | Lost :: p => (with_state (state w) p, Err "connection reset"%string)
  | LostAfter :: p => (with_state st p, Err "timeout"%string)
  end.

(** What a request does to the bucket, with a fault or without. *)
Lemma toy_send method url hs data w w' r : http_send method url hs data w = (w', r) →
  let '(st, r0) := serve method url data (state w) in
  (state w' = st ∧ r = r0) ∨ ((state w' = state w ∨ state w' = st) ∧ (r = reply 503 [] [] ∧ state w' = state w ∨ ∃ e, r = Err e)).
Proof.
  unfold http_send, toy_http. destruct (serve method url data (state w)) as [[m ups] r0].
  destruct (plan w) as [|[] p]; intros [= <- <-]; unfold state, with_state; simpl; eauto 10.
Qed.

Lemma serve_object method path key data st : names_object path key → serve method (toy_base ++ ascii "/" ++ path) data st =
  if bool_decide (method = "PUT") then ((<[key:=data]> st.1, st.2), reply 200 [] [])
  else if bool_decide (method = "DELETE") then ((delete key st.1, st.2), reply 204 [] [])
  else if bool_decide (method = "GET") then (st, match st.1 !! key with Some v => reply 200 [] v | None => reply 404 [] [] end)
  else (st, match st.1 !! key with
           | Some v =>
               let n := decimal (blob_len v) in
               if bool_decide (header_map [(ascii "Content-Length", n)] !! ascii "content-length" = Some n ∧ parse_usize (byte_Z <$> n) = Some (blob_len v))
               then reply 200 [(ascii "Content-Length", n)] [] else reply 500 [] []
           | None => reply 404 [] []
           end).
Proof.
  intros (Hp & Hq & _). unfold serve. destruct st as [m ups]. rewrite drop_app_length. rewrite bool_decide_eq_false_2.
  - change (drop 1 (ascii "/" ++ path)) with path. by rewrite Hp.
  - intros [Hin|Hin]%elem_of_app; [|done]. revert Hin. rewrite <-(bool_decide_eq_true (_ ∈ _)). by vm_compute.
Qed.

(** The objects after a request that gives [m]. *)
Lemma toy_object method path key hs data w w' r : names_object path key → http_send method (toy_base ++ ascii "/" ++ path) hs data w = (w', r) →
  let '(st, r0) := serve method (toy_base ++ ascii "/" ++ path) data (state w) in
  (stored w' = st.1 ∧ r = r0) ∨ ((stored w' = stored w ∨ stored w' = st.1) ∧ (r = reply 503 [] [] ∧ stored w' = stored w ∨ ∃ e, r = Err e)).
Proof.
  intros Hn Hs. apply toy_send in Hs. destruct (serve _ _ _ _) as [st r0].
  assert (∀ w st, state w = st → stored w = st.1) as Hst by (by intros ? ? <-).
  destruct Hs as [[Hs ->]|[Hs Hr]]; [left; split; [by apply Hst|done]|right].
  split; [destruct Hs as [Hs|Hs]; apply Hst in Hs; auto|]. destruct Hr as [[-> Hr]|Hr]; [left|by right]. split; [done|]. by apply Hst in Hr.
Qed.

#[global] Instance toy_server : S3ServerLaws Bucket toy_base.
Proof.
  split; unfold objects, toy_objects.
  - intros path key hs data w w' r Hn _ Hs. apply (toy_object _ _ _ _ _ _ _ _ Hn) in Hs. rewrite (serve_object _ _ _ _ _ Hn) in Hs. unfold reply in Hs. cbn in Hs.
    destruct Hs as [[-> ->]|[Hs [[-> Hu]|[e ->]]]]; (split; [tauto|]); intros resp [= <-]; [done|]. unfold success. cbn. lia.
  - intros path key hs w w' r Hn Hs. apply (toy_object _ _ _ _ _ _ _ _ Hn) in Hs. rewrite (serve_object _ _ _ _ _ Hn) in Hs. unfold reply in Hs. cbn in Hs.
    destruct Hs as [[-> ->]|[Hs [[-> Hu]|[e ->]]]]; (split; [tauto|]); intros resp Heq; [|by injection Heq as <-|done].
    destruct (stored w !! key); injection Heq as <-; done.
  - intros path key hs w w' r Hn Hs. apply (toy_object _ _ _ _ _ _ _ _ Hn) in Hs. rewrite (serve_object _ _ _ _ _ Hn) in Hs. unfold reply in Hs.
    rewrite !bool_decide_eq_false_2 in Hs by done. cbn [state fst] in Hs.
    destruct Hs as [[-> ->]|[Hs [[-> Hu]|[e ->]]]]; (split; [tauto|]); intros resp Heq; [|by injection Heq as <-|done].
    destruct (stored w !! key) as [v|]; [|by injection Heq as <-]. cbn zeta in Heq. case_bool_decide as Hd; injection Heq as <-; [|done].
    destruct Hd as [H1 H2]. split; [|done]. intros _. exists v, (decimal (blob_len v)). done.
  - intros path key hs w w' r Hn Hs. apply (toy_object _ _ _ _ _ _ _ _ Hn) in Hs. rewrite (serve_object _ _ _ _ _ Hn) in Hs. unfold reply in Hs. cbn in Hs.
    destruct Hs as [[-> ->]|[Hs [[-> Hu]|[e ->]]]]; (split; [tauto|]); intros resp Heq; simplify_eq; [done|]. unfold success. cbn. split; lia.
Qed.

(** ** Listing *)
Lemma cut_keys_key k rest acc : x3c ∉ k → cut_keys (k ++ x3c :: rest) acc = (acc ++ k) :: cut_keys rest [].
Proof.
  revert acc. induction k as [|b k IH]; intros acc Hk; cbn [app cut_keys].
  - by rewrite bool_decide_eq_true_2, app_nil_r.
  - apply not_elem_of_cons in Hk as [Hb Hk]. rewrite bool_decide_eq_false_2 by done. rewrite IH by done. by rewrite <-app_assoc.
Qed.

Lemma cut_keys_document (keys : list bytes) : forallb xml_plain keys = true → cut_keys (flat_map (λ k, k ++ [x3c]) keys) [] = keys.
Proof.
  induction keys as [|k keys IH]; [done|]. cbn [forallb flat_map]. intros [Hk Hks]%andb_true_iff. rewrite <-app_assoc. cbn [app].
  rewrite cut_keys_key; [cbn [app]; by rewrite IH|]. intros Hin. unfold xml_plain in Hk. apply andb_true_iff in Hk as [Hk _].
  rewrite forallb_forall in Hk. apply list_elem_of_In in Hin. by apply Hk in Hin.
Qed.

Lemma until_amp_app e rest : x26 ∉ e → head rest = Some x26 ∨ rest = [] → until_amp (e ++ rest) = e.
Proof.
  intros He Hr. induction e as [|b e IH]; cbn [app until_amp].
  - destruct rest as [|c rest]; [done|]. destruct Hr as [[= ->]|[=]]. cbn [until_amp]. by rewrite bool_decide_eq_true_2.
  - apply not_elem_of_cons in He as [Hb He]. rewrite bool_decide_eq_false_2 by done. by rewrite IH.
Qed.

Lemma query_spec url prefix token : list_request toy_base url prefix token →
  let rest := drop (length toy_base) url in
  x3f ∈ rest ∧ query_prefix rest = Some prefix ∧ query_offset rest = match token with Some t => length t | None => 0 end.
Proof.
  intros (sep & p & t & Hsep & -> & Hp & Ht). rewrite drop_app_length. split; [apply elem_of_app; right; set_solver|].
  assert (head t = Some x26 ∨ t = []) as Hhead by (destruct token as [t0|]; [destruct Ht as (e & -> & _); by left|by right]).
  assert (length (default [] (percent_decode (drop 20 t))) = match token with Some t => length t | None => 0 end) as Hlen.
  { destruct token as [t0|]; [|by subst t]. destruct Ht as (e & -> & He & _). change (drop 20 (ascii "&continuation-token=" ++ e)) with e. by rewrite He. }
  assert (query_params (sep ++ ascii "?list-type=2" ++ p ++ t) = p ++ t) as Hq by (destruct Hsep as [-> | ->]; done).
  unfold query_prefix, query_offset. rewrite Hq. cbn zeta. destruct Hp as [[-> ->]|(e & -> & Hdec & Hamp)].
  - cbn [app]. assert (starts_with t (ascii "&prefix=") = false) as ->; [|done]. destruct token as [t0|]; [|by subst t]. by destruct Ht as (e & -> & _).
  - rewrite <-app_assoc. rewrite (proj2 (starts_with_prefix _ _)) by (by eexists).
    change (drop 8 (ascii "&prefix=" ++ e ++ t)) with (e ++ t). rewrite until_amp_app by done. by rewrite drop_app_length.
Qed.

Lemma matching_plain prefix m : forallb xml_plain (btree_iter m).*1 = true → forallb xml_plain (matching prefix m) = true.
Proof. rewrite !forallb_forall. unfold matching. intros Hall k [Hin _]%filter_In. by apply Hall. Qed.

Lemma unary_length n : length (unary n) = n.
Proof. induction n; simpl; congruence. Qed.

Lemma unary_free n : x3c ∉ unary n.
Proof. induction n; cbn [unary]; set_solver. Qed.

Lemma toy_page_document keys next : page_document (toy_page keys next)
  {| page_keys := keys; is_truncated := if next is Some _ then true else false; next_continuation_token := next |}.
Proof.
  assert (∀ l, omap (leaf_text (ascii "IsTruncated")) (map toy_object_element keys ++ l) = omap (leaf_text (ascii "IsTruncated")) l ∧
    omap (leaf_text (ascii "NextContinuationToken")) (map toy_object_element keys ++ l) = omap (leaf_text (ascii "NextContinuationToken")) l ∧
    flat_map object_keys (map toy_object_element keys ++ l) = keys ++ flat_map object_keys l ∧
    forallb listing_child (map toy_object_element keys ++ l) = forallb listing_child l) as Hk.
  { intros l. induction keys as [|k keys IH]; [done|]. destruct IH as (H1 & H2 & H3 & H4). split_and!; [exact H1|exact H2| |exact H4].
    cbn [map app flat_map]. rewrite H3. done. }
  unfold toy_page. exists [Misc]. eexists. split; [done|]. split; [done|].
  destruct (Hk (match next with Some t => [Leaf (ascii "NextContinuationToken") t] | None => [] end)) as (H1 & H2 & H3 & H4).
  cbn [forallb flat_map omap list_omap page_keys is_truncated next_continuation_token].
  split; [rewrite H4; by destruct next|]. split; [simpl; rewrite H3; destruct next; simpl; by rewrite app_nil_r|]. split.
  - change (omap (leaf_text (ascii "IsTruncated")) ?l) with (omap (leaf_text (ascii "IsTruncated")) l) in H1. simpl. setoid_rewrite H1. by destruct next.
  - simpl. setoid_rewrite H2. by destruct next.
Qed.

Lemma toy_listing_page keys o : forallb xml_plain keys = true → ∃ next,
  xml_events (toy_listing keys o) = (flat_map events_of (toy_page (take 2 (drop o keys)) next), None) ∧
  match next with Some t => o + 2 < length keys ∧ length t = o + 2 | None => length keys ≤ o + 2 end.
Proof.
  intros Hp. assert (forallb xml_plain (take 2 (drop o keys)) = true) as Hp2.
  { rewrite forallb_forall in *. intros k Hin%list_elem_of_In. apply Hp, list_elem_of_In. apply (subseteq_take 2), (subseteq_drop o) in Hin. exact Hin. }
  unfold toy_listing. cbn [xml_events toy_lib]. case_decide as Ho.
  - rewrite until_lt_app by apply unary_free. rewrite cut_keys_document by done. rewrite bool_decide_eq_false_2 by (by rewrite Nat.add_comm).
    eexists. split; [done|]. split; [done|]. apply unary_length.
  - rewrite (until_lt_app []) by apply not_elem_of_nil. rewrite cut_keys_document by done. rewrite bool_decide_eq_true_2 by done.
    exists None. split; [done|lia].
Qed.

#[global] Instance toy_list : S3ListLaws Bucket toy_base.
Proof.
  refine {| token_pos := length |}. intros url prefix token hs w w' r Hreq Hplain Hs. apply toy_send in Hs. unfold objects, toy_objects in *.
  destruct (query_spec _ _ _ Hreq) as (Hq & Hprefix & Hoff). unfold serve in Hs. cbn [state] in Hs.
  rewrite !bool_decide_eq_true_2 in Hs by done. rewrite Hprefix, Hoff in Hs.
  assert (stored w' = stored w) as Hst'.
  { assert (∀ a, state w' = a → a = state w → stored w' = stored w) as Hx by (by intros a Ha ->; injection Ha). destruct Hs as [[Hs _]|[[Hs|Hs] _]]; by eapply Hx. }
  split; [done|]. destruct Hs as [[_ ->]|[_ [[-> Hu]|[e ->]]]]; intros resp Heq Hst; [|by injection Heq as <-|done].
  injection Heq as <-. cbn [raw_body]. set (o := match token with Some t => length t | None => 0 end).
  destruct (toy_listing_page _ o (matching_plain prefix _ Hplain)) as (next & Hev & Hnext). exists 2, (toy_page (take 2 (drop o (matching prefix (stored w)))) next), next.
  split; [exact Hev|]. destruct next as [t|].
  - destruct Hnext as [Hlt Ht]. rewrite bool_decide_eq_true_2 by done. split; [apply toy_page_document|]. eauto with lia.
  - rewrite bool_decide_eq_false_2 by lia. split; [apply toy_page_document|lia].
Qed.

(** ** Multipart uploads *)
#[global] Instance toy_uploads : S3Uploads Bucket := pending.

Lemma decimal_inj a b : decimal a = decimal b → a = b.
Proof.
  unfold decimal, ascii. intros H. apply (f_equal String.string_of_list_byte) in H. rewrite !String.string_of_list_byte_of_string in H.
  by apply (inj pretty) in H.
Qed.

Lemma split_query_app path q : x3f ∉ path → split_query (path ++ x3f :: q) = (path, x3f :: q).
Proof.
  induction path as [|b path IH]; intros Hp; cbn [app split_query]; [by rewrite bool_decide_eq_true_2|].
  apply not_elem_of_cons in Hp as [Hb Hp]. rewrite bool_decide_eq_false_2 by done. by rewrite IH.
Qed.

Lemma pretty_N_go_no_amp x s : x26 ∉ ascii s → x26 ∉ ascii (pretty_N_go x s).
Proof.
  revert s. induction (N.lt_wf_0 x) as [x _ IH]; intros s Hs. assert (x = 0 ∨ 0 < x)%N as [->|Hx] by lia; [done|].
  rewrite pretty_N_go_step by done. apply IH; [by apply N.div_lt|]. unfold ascii. cbn [String.list_byte_of_string]. apply not_elem_of_cons. split; [|exact Hs].
  unfold pretty_N_char. by repeat case_match.
Qed.

Lemma decimal_no_amp n : x26 ∉ decimal n.
Proof.
  assert (∀ p, x26 ∉ ascii (pretty (Npos p))) as Hp by (intros p; by apply pretty_N_go_no_amp; apply not_elem_of_nil).
  destruct n as [|p|p]; [by apply (bool_decide_unpack _); vm_compute|apply Hp|]. unfold decimal. cbn [pretty pretty_Z].
  change (ascii ("-" +:+ pretty (Npos p))) with (x2d :: ascii (pretty (Npos p))). apply not_elem_of_cons. split; [done|apply Hp].
Qed.

Lemma part_number_of_decimal n : part_number_of (decimal n) = if decide (n = 1 ∨ n = 2)%Z then Some n else None.
Proof.
  unfold part_number_of. destruct (decide (n = 1)%Z) as [->|H1]; [by vm_compute|]. destruct (decide (n = 2)%Z) as [->|H2]; [by vm_compute|].
  rewrite !decide_False; [done|tauto|by intros ?%decimal_inj..].
Qed.

(** The answer of the service to the requests of an upload. *)
Lemma serve_at method path query data st : x3f ∉ path → method ≠ "GET" →
  serve method (toy_base ++ ascii "/" ++ path ++ x3f :: query) data st = serve_upload method (ascii "/" ++ path ++ x3f :: query) data st ∧
  split_query (ascii "/" ++ path ++ x3f :: query) = (ascii "/" ++ path, x3f :: query).
Proof.
  intros Hp Hm. split.
  - unfold serve. destruct st as [m ups]. rewrite drop_app_length. rewrite bool_decide_eq_true_2 by set_solver. by rewrite bool_decide_eq_false_2.
  - rewrite app_assoc. apply split_query_app. apply not_elem_of_app. split; [|done]. intros Hin. revert Hin. rewrite <-(bool_decide_eq_true (_ ∈ _)). by vm_compute.
Qed.

Lemma serve_create path key data st : names_object path key →
  serve "POST" (toy_base ++ ascii "/" ++ path ++ ascii "?uploads") data st = ((st.1, <[toy_id := ∅]> st.2), reply 200 [] (x55 :: toy_id)).
Proof.
  intros (_ & Hq & _). destruct (serve_at "POST" path (ascii "uploads") data st Hq ltac:(done)) as [H1 H2].
  change (x3f :: ascii "uploads") with (ascii "?uploads") in *. rewrite H1. destruct st as [m ups]. unfold serve_upload. rewrite H2. done.
Qed.

Lemma serve_part path key n e id data st ps : names_object path key → percent_decode e = Some id → st.2 !! id = Some ps →
  serve "PUT" (toy_base ++ ascii "/" ++ path ++ ascii "?partNumber=" ++ decimal n ++ ascii "&uploadId=" ++ e) data st =
  if decide (n = 1 ∨ n = 2)%Z then ((st.1, <[id := <[n:=data]> ps]> st.2), reply 200 [(ascii "ETag", toy_tag data)] []) else (st, reply 400 [] []).
Proof.
  intros (_ & Hq & _) He Hps. destruct (serve_at "PUT" path (ascii "partNumber=" ++ decimal n ++ ascii "&uploadId=" ++ e) data st Hq ltac:(done)) as [H1 H2].
  change (x3f :: ascii "partNumber=" ++ ?x) with (ascii "?partNumber=" ++ x) in *. rewrite H1. destruct st as [m ups]. unfold serve_upload. rewrite H2.
  rewrite bool_decide_eq_true_2 by done. rewrite strip_app. cbn zeta. rewrite until_amp_app by (by left || apply decimal_no_amp).
  rewrite part_number_of_decimal. rewrite <-drop_drop, drop_app_length. change (drop 10 (ascii "&uploadId=" ++ e)) with e. rewrite He.
  cbn [snd] in Hps. rewrite Hps. by case_decide.
Qed.

Lemma serve_complete path key e id data st : names_object path key → percent_decode e = Some id →
  serve "POST" (toy_base ++ ascii "/" ++ path ++ ascii "?uploadId=" ++ e) data st =
  match st.2 !! id with
  | Some ps =>
      match ps !! 1%Z, ps !! 2%Z with
      | Some d1, Some d2 =>
          if decide (read_complete_xml data = Some [(xml_escape (decimal 1), xml_escape (toy_tag d1)); (xml_escape (decimal 2), xml_escape (toy_tag d2))])
          then ((<[key := d1 ++ d2]> st.1, delete id st.2), reply 200 [] []) else (st, reply 200 [] (x45 :: ascii "InvalidPart"))
      | _, _ => (st, reply 400 [] [])
      end
  | None => (st, reply 404 [] [])
  end.
Proof.
  intros (Hk & Hq & _) He. destruct (serve_at "POST" path (ascii "uploadId=" ++ e) data st Hq ltac:(done)) as [H1 H2].
  change (x3f :: ascii "uploadId=" ++ ?x) with (ascii "?uploadId=" ++ x) in *. rewrite H1. destruct st as [m ups]. unfold serve_upload. rewrite H2.
  rewrite bool_decide_eq_false_2 by done. rewrite decide_False by done. rewrite strip_app. cbn [mbind option_bind]. rewrite He.
  change (drop 1 (ascii "/" ++ path)) with path. by rewrite Hk.
Qed.

Lemma state_eq (w w' : Bucket) : state w' = state w → stored w' = stored w ∧ pending w' = pending w.
Proof. intros H. by injection H. Qed.

Lemma listed_two (listed : list (Z * bytes)) d1 d2 :
  ((λ p, (xml_escape (decimal p.1), xml_escape p.2)) <$> listed) =
    [(xml_escape (decimal 1), xml_escape (toy_tag d1)); (xml_escape (decimal 2), xml_escape (toy_tag d2))] →
  listed = [(1%Z, toy_tag d1); (2%Z, toy_tag d2)].
Proof.
  destruct listed as [|[n1 e1] [|[n2 e2] [|]]]; try done. intros [Ha [Hb _]%cons_eq_inj]%cons_eq_inj.
  apply pair_eq in Ha as [H1 H2], Hb as [H3 H4]. cbn [fst snd] in *.
  apply toy_escape_inj in H1, H2, H3, H4. apply decimal_inj in H1, H3. by subst.
Qed.

#[global] Instance toy_multipart : S3MultipartLaws Bucket toy_base.
Proof.
  refine {| etag_of := toy_tag |}; unfold objects, toy_objects, uploads, toy_uploads.
  - intros path key hs w w' r Hn Hs. apply toy_send in Hs. rewrite (serve_create _ _ _ _ Hn) in Hs. cbn [state fst snd] in Hs.
    destruct Hs as [[Hs ->]|[Hs Hr]].
    + injection Hs as Ho Hu. split; [done|]. intros resp [= <-] _. exists [], toy_id, [], None. split; [done|].
      split; [apply not_elem_of_nil|]. rewrite Hu. apply lookup_insert_eq.
    + split; [destruct Hs as [Hs|Hs]; by injection Hs|]. intros resp Heq. destruct Hr as [[-> _]|[e ->]]; [|done]. by injection Heq as <-.
  - intros path key n e id hs data w w' r ps Hn He Hps Hs. apply toy_send in Hs. rewrite (serve_part _ _ _ _ _ _ (state w) ps Hn He Hps) in Hs.
    case_decide as Hd; cbn [state fst snd] in Hs.
    + destruct Hs as [[Hs ->]|[Hs Hr]].
      * injection Hs as Ho Hu. rewrite Hu, lookup_insert_eq. split; [done|]. split; [by right|]. intros resp [= <-] _. split; [done|].
        intros t. cbn [raw_headers header_map foldl]. change (ascii_lowercase <$> ascii "ETag") with (ascii "etag"). rewrite lookup_insert_eq. intros [= <-].
        unfold toy_tag. by case_decide.
      * split; [destruct Hs as [Hs|Hs]; by injection Hs|]. split.
        { destruct Hs as [Hs|Hs]; injection Hs as _ ->; [by left|right; apply lookup_insert_eq]. }
        intros resp Heq Hok. destruct Hr as [[-> _]|[e' ->]]; [|done]. injection Heq as <-. unfold success in Hok. simpl in Hok. lia.
    + assert (state w' = state w) as Hst by (destruct Hs as [[Hs _]|[[Hs|Hs] _]]; done). apply state_eq in Hst as [-> ->].
      split; [done|]. split; [by left|]. intros resp Heq Hok. unfold success in Hok.
      destruct Hs as [[_ ->]|[_ [[-> _]|[e' ->]]]]; [|..|done]; injection Heq as <-; simpl in Hok; lia.
  - intros path key e id hs data w w' r ps listed Hn He Hps Hs Hread. apply toy_send in Hs. rewrite (serve_complete _ _ _ _ _ _ Hn He) in Hs.
    cbn [state snd] in Hs. rewrite Hps in Hs.
    assert (∀ code, code ≠ 200%Z → (state w' = state w ∧ r = reply code [] [] ∨ (state w' = state w ∨ state w' = state w) ∧
      (r = reply 503 [] [] ∧ state w' = state w ∨ (∃ e : string, r = Err e))) →
      (pending w' !! id = ps ∧ stored w' = stored w ∨ pending w' !! id = None ∧ ∃ ps' ds, ps = Some ps' ∧ Sorted (λ a b, a < b)%Z listed.*1 ∧
       Forall2 (λ (p : Z * bytes) d, ps' !! p.1 = Some d ∧ p.2 = toy_tag d) listed ds ∧ stored w' = <[key:=concat ds]> (stored w)) ∧
      ∀ resp, r = Ok resp → raw_status resp = 200%Z → pending w' !! id = None ∨ is_Some (parse_error (raw_body resp))) as Hno.
    { intros code Hcode Hcase. assert (state w' = state w) as Hst by tauto. apply state_eq in Hst as [-> ->]. split; [by left|].
      intros resp -> Hst. destruct Hcase as [[_ Hr]|[_ [[Hr _]|[e' Hr]]]]; [..|done]; injection Hr as ->; simpl in Hst; congruence. }
    destruct ps as [ps|]; [|by apply (Hno 404%Z)].
    destruct (ps !! 1%Z) as [d1|] eqn:H1; [|by apply (Hno 400%Z)]. destruct (ps !! 2%Z) as [d2|] eqn:H2; [|by apply (Hno 400%Z)].
    case_decide as Hd.
    2: { assert (state w' = state w) as Hst by tauto. apply state_eq in Hst as [-> ->]. split; [by left|]. intros resp -> Hst.
         destruct Hs as [[_ Hr]|[_ [[Hr _]|[e' Hr]]]]; [..|done]; injection Hr as ->; [|done]. right. vm_compute. by eexists. }
    rewrite Hread in Hd. injection Hd as Hd. apply listed_two in Hd as ->. clear Hno.
    assert (state w' = (<[key:=d1 ++ d2]> (stored w), delete id (pending w)) →
      pending w' !! id = None ∧ ∃ ps' ds, Some ps = Some ps' ∧ Sorted (λ a b, a < b)%Z [1; 2]%Z ∧
       Forall2 (λ (p : Z * bytes) d, ps' !! p.1 = Some d ∧ p.2 = toy_tag d) [(1%Z, toy_tag d1); (2%Z, toy_tag d2)] ds ∧ stored w' = <[key:=concat ds]> (stored w)) as Hdone.
    { intros Hst. injection Hst as -> ->. split; [apply lookup_delete_eq|]. exists ps, [d1; d2]. split; [done|]. split; [repeat constructor; lia|].
      split; [by repeat constructor|]. by rewrite concat_cons, concat_cons, app_nil_r. }
    split.
    + destruct Hs as [[Hs _]|[[Hs|Hs] _]]; [right; by apply Hdone| |right; by apply Hdone]. apply state_eq in Hs as [-> ->]. by left.
    + intros resp -> Hst. destruct Hs as [[Hs _]|[_ [[Hr _]|[e' Hr]]]]; [left; by apply Hdone|injection Hr as ->; done|done].
Qed.

(** ** Evaluated *)
Definition toy_config : S3Config := {|
  endpoint := ascii "http://h//"; region := ascii "r"; bucket := ascii "b";
  credentials := {| access_key_id := []; secret_access_key := []; session_token := None |};
  path_style := true; timeout_secs := 30; retry_config := default_retry |}.

Definition bucket_of (faults : list Fault) : Bucket := {| stored := ∅; pending := ∅; plan := faults |}.
Definition tick : Z → Z := λ n, n.
Definition ka : bytes := ascii "a b/c".

Lemma send_retries_witness :
  (send_timed toy_config tick "PUT" (toy_base ++ ascii "/k") (ascii "v") [] (bucket_of [Busy; Lost; Fine])).1.2 = [100; 150]%Z ∧
  ∃ resp, (send_timed toy_config tick "PUT" (toy_base ++ ascii "/k") (ascii "v") [] (bucket_of [Busy; Lost; Fine])).2 = Ok resp ∧ status resp = 200%Z.
Proof.
  destruct (send_retries toy_config tick "PUT" (toy_base ++ ascii "/k") (ascii "v") [] (bucket_of [Busy; Lost; Fine]) _ _ _
    (eq_trans (surjective_pairing _) (f_equal (λ p, (p, _)) (surjective_pairing _)))) as [H _].
  destruct (H 2) as (Hr & _ & Hs).
  - vm_compute. lia.
  - intros j Hj. destruct j as [|[|]]; [vm_compute; reflexivity|vm_compute; reflexivity|lia].
  - vm_compute. reflexivity.
  - split; [exact Hs|]. eexists. split; [exact Hr|]. vm_compute. reflexivity.
Defined.

Definition s3_demo : list ((Z → Z) * S3Op) :=
  [(tick, S3Put ka (ascii "one")); (tick, S3Get ka); (tick, S3Put ka (ascii "two")); (tick, S3Get ka); (tick, S3Head ka);
   (tick, S3Delete ka); (tick, S3Get ka)].

(** The second write is reported as failed although its second request had its effect. *)
Definition s3_faults : list Fault := [Busy; Fine; Fine; Lost; LostAfter; Lost].

Lemma s3_answers_for_bucket_witness :
  Forall (λ '(op, m, m', ok, out), s3_correct op m m' out ∧ (ok = true → s3_settled op out)) (s3_run toy_config s3_demo (bucket_of s3_faults)).2 ∧
  snd <$> (s3_run toy_config s3_demo (bucket_of s3_faults)).2 =
  [S3Unit (Ok ()); S3Data (Ok (ascii "one")); S3Unit (Err (RetryExhausted 3 "HTTP PUT: connection reset")); S3Data (Ok (ascii "two"));
   S3Meta (Ok {| meta_key := ka; meta_size := 3; content_type := None; checksum := None |}); S3Unit (Ok ()); S3Data (Err (BlobNotFound ka))].
Proof.
  split; [|vm_compute; reflexivity].
  refine (s3_answers_for_bucket toy_config toy_base _ s3_demo (bucket_of s3_faults) (s3_run toy_config s3_demo (bucket_of s3_faults)).1 _ _ _).
  - vm_compute. reflexivity.
  - repeat constructor.
  - apply surjective_pairing.
Defined.

Definition full_bucket : Bucket :=
  {| stored := list_to_map [(ascii "a/1", []); (ascii "b", []); (ascii "a/2", []); (ascii "a/5", []); (ascii "a/3", []); (ascii "a/4", [])]; pending := ∅; plan := [Busy] |}.

(** Three pages of at most two keys. *)
Lemma s3_list_complete_witness : ∃ w', s3_list toy_config 6 (λ _, tick) (ascii "a/") full_bucket =
  Some (w', Ok [ascii "a/1"; ascii "a/2"; ascii "a/3"; ascii "a/4"; ascii "a/5"]).
Proof.
  destruct (s3_list_complete toy_config toy_base ltac:(vm_compute; reflexivity) 6 (λ _, tick) (ascii "a/") full_bucket)
    as (w' & r & Hl & _ & Hr).
  - vm_compute. reflexivity.
  - vm_compute. lia.
  - assert (option_map (is_Ok ∘ snd) (s3_list toy_config 6 (λ _, tick) (ascii "a/") full_bucket) = Some true) as Hok by (vm_compute; reflexivity).
    rewrite Hl in Hok. destruct r as [l|e]; [|discriminate Hok]. exists w'. rewrite Hl, Hr. vm_compute. reflexivity.
Defined.

Definition part_data : list (Z * bytes) := [(2%Z, ascii "world"); (1%Z, ascii "hello ")].
Definition mp_created := create_multipart_upload toy_config tick ka (bucket_of [LostAfter; Fine; Busy; LostAfter]).
Definition mp_handle : S3MultipartUpload := {| mp_key := ka; upload_id := toy_id; parts := [] |}.
Definition mp_sent := upload_parts toy_config tick part_data mp_handle mp_created.1.
Definition mp_completed := complete toy_config tick mp_sent.2.1 mp_sent.1.


(** A part uploaded twice is listed twice; the service refuses the list with status 200, and
    the call succeeds. *)
Definition twice_sent := upload_parts toy_config tick [(1%Z, ascii "a"); (1%Z, ascii "a"); (2%Z, ascii "b")] mp_handle (create_multipart_upload toy_config tick ka (bucket_of [])).1.
Example refused_completion_succeeds : let r := complete toy_config tick twice_sent.2.1 twice_sent.1 in r.2 = Ok () ∧ objects r.1 !! ka = None.
Proof. vm_compute. done. Qed.
