(* ===== verification/Gcs.v ===== *)
(** * [oxistore-blob-gcs]: the Google Cloud Storage blob store

    The calls of [lib.rs] with the token cache of [acquire_token], and the addresses of
    [config.rs].  JSON documents are values of the type [Json] of the JSON library, parsed by
    the class [GcsLib], which also signs the assertions.  Instants are nanoseconds; a panic
    of the clock arithmetic is [None]. *)

From stdpp Require Import pretty sorting.
From S2P Require Import Prelude Bytes Blob Url Partition S3 S3Props S3History S3List Encrypt.

Inductive Json := JNull | JBool (b : bool) | JNum (n : Z) | JStr (s : bytes) | JArr (l : list Json) | JObj (fields : list (bytes * Json)).

(** [v["name"]] *)
Fixpoint json_field (name : bytes) (fields : list (bytes * Json)) : option Json :=
  match fields with
  | [] => None
  | (k, v) :: fields => if decide (k = name) then Some v else json_field name fields
  end.
Definition json_get (name : bytes) (v : Json) : Json := match v with JObj fields => default JNull (json_field name fields) | _ => JNull end.

Definition as_str (v : Json) : option bytes := match v with JStr s => Some s | _ => None end.
Definition as_u64 (v : Json) : option Z := match v with JNum n => if ((0 <=? n) && (n <? two64))%Z then Some n else None | _ => None end.
Definition as_array (v : Json) : option (list Json) := match v with JArr l => Some l | _ => None end.

Record GcsServiceAccount := { client_email : bytes; private_key_pem : bytes; project_id : option bytes; token_uri : bytes }.
Record GcsConfig := { gcs_bucket : bytes; gcs_credentials : GcsServiceAccount; gcs_endpoint : option bytes; oauth_endpoint : option bytes }.

(** JSON, base64 and RSA. *)
Class GcsLib := {
  json_parse : bytes → result Json string;
  b64url : bytes → bytes;
  b64_decode : bytes → result bytes string;
  (** the signer of a PKCS#8 key, as the function that signs *)
  rsa_from_pkcs8_der : bytes → result (bytes → result bytes string) string;
}.

(** [error.rs] *)
Inductive GcsError := GcsHttp (msg : string) | GcsAuth (msg : string) | GcsJson (msg : string) | GcsNotFound | GcsOther (msg : string).

Definition gcs_to_blob (e : GcsError) : BlobError :=
  match e with
  | GcsNotFound => BlobNotFound (ascii "gcs: object not found")
  | GcsAuth msg => BlobOther ("gcs auth: " +:+ msg)
  | GcsHttp msg => BlobOther ("gcs http: " +:+ msg)
  | GcsJson e => BlobOther ("gcs json: " +:+ e)
  | GcsOther msg => BlobOther msg
  end.

Definition storage_endpoint (c : GcsConfig) : bytes := default (ascii "https://storage.googleapis.com") (gcs_endpoint c).
Definition token_endpoint (c : GcsConfig) : bytes := default (token_uri (gcs_credentials c)) (oauth_endpoint c).

(** [raw_key.replace("\\n", "\n")]: a backslash and an n become a line feed. *)
Fixpoint unescape_newlines (s : bytes) : bytes :=
  match s with
  | x5c :: x6e :: s => x0a :: unescape_newlines s
  | b :: s => b :: unescape_newlines s
  | [] => []
  end.

Definition from_json_str `{!GcsLib} (json : bytes) : result GcsServiceAccount GcsError :=
  match json_parse json with
  | Err e => Err (GcsAuth ("invalid service account JSON: " +:+ e))
  | Ok v =>
      match as_str (json_get (ascii "client_email") v) with
      | None => Err (GcsAuth "missing client_email field")
      | Some client_email =>
          match as_str (json_get (ascii "private_key") v) with
          | None => Err (GcsAuth "missing private_key field")
          | Some raw_key =>
              Ok {| client_email := client_email; private_key_pem := unescape_newlines raw_key; project_id := as_str (json_get (ascii "project_id") v);
                    token_uri := default (ascii "https://oauth2.googleapis.com/token") (as_str (json_get (ascii "token_uri") v)) |}
          end
      end
  end.

Definition NANOS : Z := 1000000000.
(** [Instant + Duration] panics beyond the seconds an instant can hold. *)
Definition instant_add (now secs : Z) : option Z := if (now / NANOS + secs <? 2 ^ 63)%Z then Some (now + secs * NANOS)%Z else None.

(** ** [auth.rs] *)
Fixpoint split_lines (s acc : bytes) : list bytes :=
  match s with
  | [] => if decide (acc = []) then [] else [acc]
  | b :: s => if decide (b = x0a) then acc :: split_lines s [] else split_lines s (acc ++ [b])
  end.

Fixpoint contains_bytes (p s : bytes) : bool := starts_with s p || match s with [] => false | _ :: s => contains_bytes p s end.

(** The base64 text between the lines of the key block. *)
Fixpoint pem_body (lines : list bytes) (in_body : bool) (b64 : bytes) : result (bool * bytes) GcsError :=
  match lines with
  | [] => Ok (in_body, b64)
  | line :: lines =>
      let trimmed := trim line in
      if starts_with trimmed (ascii "-----BEGIN") then
        if contains_bytes (ascii "RSA PRIVATE KEY") trimmed then Err (GcsAuth "PKCS#1 RSA private keys are not supported; convert with: openssl pkcs8 -topk8 -nocrypt -in key.pem -out key_pkcs8.pem")
        else pem_body lines true b64
      else if starts_with trimmed (ascii "-----END") then Ok (in_body, b64)
      else pem_body lines in_body (if in_body then b64 ++ trimmed else b64)
  end.

Section Auth.
Context `{!GcsLib}.

Definition pem_to_der (pem : bytes) : result bytes GcsError :=
  let? found := pem_body (split_lines pem []) false [] in
  if found.1 then map_err (λ e, GcsAuth ("PEM base64 decode failed: " +:+ e)) (b64_decode found.2) else Err (GcsAuth "PEM key block not found").

(** [now] are the seconds since 1970. *)
Definition build_jwt (now : Z) (sa : GcsServiceAccount) (audience : bytes) : result bytes GcsError :=
  let quote := [x22] in
  let field (name : string) (v : bytes) := quote ++ ascii name ++ quote ++ ascii ":" ++ quote ++ v ++ quote in
  let header_b64 := b64url (ascii "{" ++ field "alg" (ascii "RS256") ++ ascii "," ++ field "typ" (ascii "JWT") ++ ascii "}") in
  let claims := ascii "{" ++ field "iss" (client_email sa) ++ ascii "," ++
    field "scope" (ascii "https://www.googleapis.com/auth/devstorage.read_write") ++ ascii "," ++ field "aud" audience ++ ascii "," ++
    quote ++ ascii "exp" ++ quote ++ ascii ":" ++ decimal (now + 3600) ++ ascii "," ++ quote ++ ascii "iat" ++ quote ++ ascii ":" ++ decimal now ++ ascii "}" in
  let signing_input := header_b64 ++ ascii "." ++ b64url claims in
  let? der := pem_to_der (private_key_pem sa) in
  let? signer := map_err (λ e, GcsAuth ("RSA key parse failed: " +:+ e)) (rsa_from_pkcs8_der der) in
  let? sig_bytes := map_err (λ e, GcsAuth ("RSA sign failed: " +:+ e)) (signer signing_input) in
  Ok (signing_input ++ ascii "." ++ b64url sig_bytes).
End Auth.

(** ** [lib.rs] *)
Section Store.
Context {W : Type} `{!GcsLib, !Http W} (config : GcsConfig).

(** The store holds the cached token and the instant at which it expires. *)
Record GcsBlobStore := { token_inner : option (bytes * Z) }.

Definition gcs_object_url (key : bytes) (alt_media : bool) : bytes :=
  trim_end_slashes (storage_endpoint config) ++ ascii "/storage/v1/b/" ++ gcs_bucket config ++ ascii "/o/" ++ gcs_percent_encode key ++
  (if alt_media then ascii "?alt=media" else []).

Definition gcs_upload_url (key : bytes) : bytes :=
  trim_end_slashes (storage_endpoint config) ++ ascii "/upload/storage/v1/b/" ++ gcs_bucket config ++ ascii "/o?uploadType=media&name=" ++ gcs_percent_encode key.

(** The fields of [TokenResp]. *)
Definition token_resp (v : Json) : option (bytes * option Z) :=
  match v with
  | JObj fields =>
      match json_field (ascii "access_token") fields, json_field (ascii "expires_in") fields with
      | Some (JStr t), None | Some (JStr t), Some JNull => Some (t, None)
      | Some (JStr t), Some n => n ← as_u64 n; Some (t, Some n)
      | _, _ => None
      end
  | _ => None
  end.

(** [clock] are the readings of the instant, [epoch] the seconds since 1970. *)
Definition acquire_token (clock : nat → Z) (epoch : Z) (s : GcsBlobStore) (w : W) : option (W * (GcsBlobStore * blob_result bytes)) :=
  let refresh :=
    match build_jwt epoch (gcs_credentials config) (token_endpoint config) with
    | Err e => Some (w, (s, Err (gcs_to_blob e)))
    | Ok jwt =>
        let form_body := ascii "grant_type=urn%3Aietf%3Aparams%3Aoauth%3Agrant-type%3Ajwt-bearer&assertion=" ++ jwt in
        match http_send "POST" (token_endpoint config) [(ascii "Content-Type", ascii "application/x-www-form-urlencoded")] form_body w with
        | (w, Err e) => Some (w, (s, Err (BlobOther ("token POST send: " +:+ e))))
        | (w, Ok resp) =>
            if bool_decide (raw_status resp ≠ 200%Z) then Some (w, (s, Err (BlobOther ("token endpoint returned " +:+ pretty (raw_status resp) +:+ ": " +:+ key_string (raw_body resp)))))
            else match (let? v := json_parse (raw_body resp) in match token_resp v with Some t => Ok t | None => Err "missing field"%string end) with
                 | Err e => Some (w, (s, Err (BlobOther ("token response parse: " +:+ e))))
                 | Ok (access_token, expires_in) =>
                     expiry ← instant_add (clock 1) (default 3600%Z expires_in);
                     Some (w, ({| token_inner := Some (access_token, expiry) |}, Ok access_token))
                 end
        end
    end in
  match token_inner s with
  | Some (token, expiry) =>
      soon ← instant_add (clock 0) 60;
      if (soon <? expiry)%Z then Some (w, (s, Ok token)) else refresh
  | None => refresh
  end.

(** [TokenCache::get_or_refresh] of [auth.rs], with errors of its own type. *)
Definition get_or_refresh (clock : nat → Z) (epoch : Z) (sa : GcsServiceAccount) (uri : bytes) (inner : option (bytes * Z)) (w : W)
    : option (W * (option (bytes * Z) * result bytes GcsError)) :=
  let refresh :=
    match build_jwt epoch sa uri with
    | Err e => Some (w, (inner, Err e))
    | Ok jwt =>
        let form_body := ascii "grant_type=urn%3Aietf%3Aparams%3Aoauth%3Agrant-type%3Ajwt-bearer&assertion=" ++ jwt in
        match http_send "POST" uri [(ascii "Content-Type", ascii "application/x-www-form-urlencoded")] form_body w with
        | (w, Err e) => Some (w, (inner, Err (GcsHttp ("token exchange POST: " +:+ e))))
        | (w, Ok resp) =>
            if bool_decide (raw_status resp ≠ 200%Z)
            then Some (w, (inner, Err (GcsAuth ("token endpoint returned " +:+ pretty (raw_status resp) +:+ ": " +:+ key_string (raw_body resp)))))
            else match (let? v := json_parse (raw_body resp) in match token_resp v with Some t => Ok t | None => Err "missing field"%string end) with
                 | Err e => Some (w, (inner, Err (GcsJson e)))
                 | Ok (access_token, expires_in) =>
                     expiry ← instant_add (clock 1) (default 3600%Z expires_in);
                     Some (w, (Some (access_token, expiry), Ok access_token))
                 end
        end
    end in
  match inner with
  | Some (token, expiry) =>
      soon ← instant_add (clock 0) 60;
      if (soon <? expiry)%Z then Some (w, (inner, Ok token)) else refresh
  | None => refresh
  end.

(** [{key:?}], for a key without characters to escape *)
Definition quoted (key : bytes) : string := key_string ([x22] ++ key ++ [x22]).

(** [gcs_status_to_blob_error] *)
Definition gcs_status_to_blob_error (status : Z) (key data : bytes) : BlobError :=
  if bool_decide (status = 404%Z) then BlobNotFound key
  else if bool_decide (status ∈ [401; 403]%Z) then BlobOther ("gcs auth: permission denied (" +:+ pretty status +:+ "): " +:+ key_string data)
  else BlobOther ("gcs http " +:+ pretty status +:+ " for key " +:+ quoted key +:+ ": " +:+ key_string data).

(** A call: the token, then one request whose response is handled. *)
Definition with_token {A} (clock : nat → Z) (epoch : Z) (s : GcsBlobStore) (w : W) (call : bytes → W → option (W * blob_result A))
    : option (W * (GcsBlobStore * blob_result A)) :=
  r ← acquire_token clock epoch s w;
  match r with
  | (w, (s, Err e)) => Some (w, (s, Err e))
  | (w, (s, Ok token)) => wr ← call token w; Some (wr.1, (s, wr.2))
  end.

Definition gcs_request (what method : string) (url : bytes) (extra : list (bytes * bytes)) (data token : bytes) (w : W) : W * blob_result RawResponse :=
  let '(w, r) := http_send method url ((ascii "Authorization", ascii "Bearer " ++ token) :: extra) data w in
  (w, map_err (λ e, BlobOther ("GCS " +:+ what +:+ " send: " +:+ e)) r).

Definition gcs_handle {A} (p : W * blob_result RawResponse) (handle : RawResponse → blob_result A) : option (W * blob_result A) :=
  Some (p.1, let? resp := p.2 in handle resp).

Definition gcs_put (clock : nat → Z) (epoch : Z) (key data : bytes) (s : GcsBlobStore) (w : W) : option (W * (GcsBlobStore * blob_result unit)) :=
  with_token clock epoch s w (λ token w,
    gcs_handle (gcs_request "put" "POST" (gcs_upload_url key) [(ascii "Content-Type", ascii "application/octet-stream")] data token w)
      (λ resp, if bool_decide (raw_status resp ∈ [200; 201]%Z) then Ok () else Err (gcs_status_to_blob_error (raw_status resp) key (raw_body resp)))).

Definition gcs_get (clock : nat → Z) (epoch : Z) (key : bytes) (s : GcsBlobStore) (w : W) : option (W * (GcsBlobStore * blob_result bytes)) :=
  with_token clock epoch s w (λ token w,
    gcs_handle (gcs_request "get" "GET" (gcs_object_url key true) [] [] token w)
      (λ resp, if bool_decide (raw_status resp = 200%Z) then Ok (raw_body resp) else Err (gcs_status_to_blob_error (raw_status resp) key (raw_body resp)))).

Definition gcs_delete (clock : nat → Z) (epoch : Z) (key : bytes) (s : GcsBlobStore) (w : W) : option (W * (GcsBlobStore * blob_result unit)) :=
  with_token clock epoch s w (λ token w,
    gcs_handle (gcs_request "delete" "DELETE" (gcs_object_url key false) [] [] token w)
      (λ resp, if bool_decide (raw_status resp ∈ [200; 204]%Z) then Ok () else Err (gcs_status_to_blob_error (raw_status resp) key (raw_body resp)))).

Definition parse_object_metadata (key data : bytes) : blob_result BlobMeta :=
  match json_parse data with
  | Err e => Err (BlobOther ("GCS metadata parse: " +:+ e))
  | Ok v =>
      let field := json_get (ascii "size") v in
      let size := match (s ← as_str field; parse_usize (byte_Z <$> s)) with Some n => n | None => default 0%Z (as_u64 field) end in
      Ok {| meta_key := key; meta_size := size; content_type := as_str (json_get (ascii "contentType") v); checksum := None |}
  end.

Definition gcs_head (clock : nat → Z) (epoch : Z) (key : bytes) (s : GcsBlobStore) (w : W) : option (W * (GcsBlobStore * blob_result BlobMeta)) :=
  with_token clock epoch s w (λ token w,
    gcs_handle (gcs_request "head" "GET" (gcs_object_url key false) [] [] token w)
      (λ resp, if bool_decide (raw_status resp = 200%Z) then parse_object_metadata key (raw_body resp)
               else Err (gcs_status_to_blob_error (raw_status resp) key (raw_body resp)))).

(** ** Listing *)
Record GcsListPage := { gcs_keys : list bytes; next_page_token : option bytes }.

Definition gcs_list_url (prefix : bytes) (page_token : option bytes) : bytes :=
  trim_end_slashes (storage_endpoint config) ++ ascii "/storage/v1/b/" ++ gcs_bucket config ++ ascii "/o?maxResults=1000&prefix=" ++ gcs_percent_encode prefix ++
  match page_token with Some t => ascii "&pageToken=" ++ gcs_percent_encode t | None => [] end.

Definition parse_list_page (data : bytes) : blob_result GcsListPage :=
  match json_parse data with
  | Err e => Err (BlobOther ("GCS list parse: " +:+ e))
  | Ok v =>
      match as_array (json_get (ascii "items") v) with
      | None => Ok {| gcs_keys := []; next_page_token := None |}
      | Some items => Ok {| gcs_keys := omap (λ item, as_str (json_get (ascii "name") item)) items; next_page_token := as_str (json_get (ascii "nextPageToken") v) |}
      end
  end.

Fixpoint gcs_list_loop (fuel : nat) (prefix : bytes) (keys : list bytes) (page_token : option bytes) (token : bytes) (w : W) : option (W * blob_result (list bytes)) :=
  match fuel with
  | 0 => None
  | S fuel =>
      match gcs_request "list" "GET" (gcs_list_url prefix page_token) [] [] token w with
      | (w, Err e) => Some (w, Err e)
      | (w, Ok resp) =>
          if bool_decide (raw_status resp ≠ 200%Z) then Some (w, Err (BlobOther ("GCS list returned " +:+ pretty (raw_status resp) +:+ ": " +:+ key_string (raw_body resp))))
          else match parse_list_page (raw_body resp) with
               | Err e => Some (w, Err e)
               | Ok page =>
                   let keys := keys ++ gcs_keys page in
                   match next_page_token page with
                   | Some t => if decide (t = []) then Some (w, Ok (merge_sort bytes_le keys)) else gcs_list_loop fuel prefix keys (Some t) token w
                   | None => Some (w, Ok (merge_sort bytes_le keys))
                   end
               end
      end
  end.

(** [None] is a panic, or a listing that has not finished within the fuel. *)
Definition gcs_list (fuel : nat) (clock : nat → Z) (epoch : Z) (prefix : bytes) (s : GcsBlobStore) (w : W)
    : option (W * (GcsBlobStore * blob_result (list bytes))) :=
  with_token clock epoch s w (λ token w, gcs_list_loop fuel prefix [] None token w).
End Store.
