(* ===== verification/Azure.v ===== *)
(** * [oxistore-blob-azure]: the Azure blob store

    Credentials of [config.rs], the signer and the dates of [sign.rs], and the calls of
    [lib.rs].  HMAC and base64 are the class [AzureLib], which also splits a URL into its path and
    its decoded query; the XML reader is that of [S3.v].  Timeouts are those of the HTTP client. *)

From stdpp Require Import pretty sorting.
From S2P Require Import Prelude Bytes Encrypt Blob Url Partition S3 S3Props S3History S3List.

Class AzureLib := {
  azure_b64 : bytes → bytes;
  azure_b64_decode : bytes → result bytes string;
  hmac_sha256 : bytes → bytes → result bytes string;
  url_path_query : bytes → result (bytes * list (bytes * bytes)) string;
}.

Inductive AzureError := AzAuth (msg : string) | AzHttp (msg : string) | AzResponse (msg : string) | AzXml (msg : string) | AzNotFound (key : bytes).

Definition azure_to_blob (e : AzureError) : BlobError :=
  match e with
  | AzNotFound key => BlobNotFound key
  | AzAuth msg => BlobOther ("azure auth: " +:+ msg)
  | AzHttp msg => BlobOther ("azure http: " +:+ msg)
  | AzResponse msg => BlobOther ("azure response: " +:+ msg)
  | AzXml msg => BlobOther ("azure xml: " +:+ msg)
  end.

(** ** [config.rs] *)
Record AzureCredentials := { account_name : bytes; account_key_b64 : bytes }.
Record AzureConfig := { az_credentials : AzureCredentials; container : bytes; az_endpoint : option bytes }.

(** [str::split(c)] *)
Fixpoint split_byte (c : byte) (s : bytes) : list bytes :=
  match s with
  | [] => [[]]
  | b :: s => if decide (b = c) then [] :: split_byte c s else match split_byte c s with p :: ps => (b :: p) :: ps | [] => [[b]] end
  end.

(** The text before and after the first [c]. *)
Fixpoint split_first (c : byte) (s : bytes) : option (bytes * bytes) :=
  match s with
  | [] => None
  | b :: s => if decide (b = c) then Some ([], s) else p ← split_first c s; Some (b :: p.1, p.2)
  end.

Definition read_part (acc : option bytes * option bytes) (part : bytes) : option bytes * option bytes :=
  let part := trim part in
  if decide (part = []) then acc
  else match split_first x3d part with
       | Some (key, val) =>
           if decide (key = ascii "AccountName") then (Some val, acc.2)
           else if decide (key = ascii "AccountKey") then (acc.1, Some val) else acc
       | None => acc
       end.

Definition from_connection_string (s : bytes) : result AzureCredentials AzureError :=
  let '(name, key) := foldl read_part (None, None) (split_byte x3b s) in
  match name with
  | None => Err (AzAuth "connection string missing AccountName")
  | Some account_name =>
      match key with
      | None => Err (AzAuth "connection string missing AccountKey")
      | Some account_key_b64 => Ok {| account_name := account_name; account_key_b64 := account_key_b64 |}
      end
  end.

(** [AzureConfig::new]; the timeout belongs to the HTTP client. *)
Definition azure_config_new (credentials : AzureCredentials) (c : bytes) : AzureConfig :=
  {| az_credentials := credentials; container := c; az_endpoint := None |}.

(** [from_env], reading [AZURE_STORAGE_ACCOUNT] and [AZURE_STORAGE_KEY] from [var] *)
Definition azure_from_env (var : string → option bytes) : result AzureCredentials AzureError :=
  match var "AZURE_STORAGE_ACCOUNT" with
  | None => Err (AzAuth "environment variable AZURE_STORAGE_ACCOUNT not set")
  | Some account_name =>
      match var "AZURE_STORAGE_KEY" with
      | None => Err (AzAuth "environment variable AZURE_STORAGE_KEY not set")
      | Some account_key_b64 => Ok {| account_name := account_name; account_key_b64 := account_key_b64 |}
      end
  end.

(** ** [sign.rs] *)
Definition DOW : list string := ["Sun"; "Mon"; "Tue"; "Wed"; "Thu"; "Fri"; "Sat"].
Definition MON : list string := ["Jan"; "Feb"; "Mar"; "Apr"; "May"; "Jun"; "Jul"; "Aug"; "Sep"; "Oct"; "Nov"; "Dec"].

(** [{:0width}] *)
Definition padded (width : nat) (n : Z) : bytes := let d := decimal n in replicate (width - length d) x30 ++ d.

(** [None] is an index out of bounds. *)
Definition rfc1123_from_secs (secs : Z) : option bytes :=
  let '((year, month, day), (hour, min, sec)) := epoch_to_calendar secs in
  dow ← DOW !! Z.to_nat (day_of_week secs);
  mon ← (if (month <? 1)%Z then None else MON !! Z.to_nat (month - 1));
  Some (ascii dow ++ ascii ", " ++ padded 2 day ++ ascii " " ++ ascii mon ++ ascii " " ++ padded 4 year ++ ascii " " ++
        padded 2 hour ++ ascii ":" ++ padded 2 min ++ ascii ":" ++ padded 2 sec ++ ascii " GMT").

(** [sort_by(|a, b| a.0.cmp(&b.0))], a stable sort *)
Fixpoint insert_by_name (p : bytes * bytes) (l : list (bytes * bytes)) : list (bytes * bytes) :=
  match l with
  | [] => [p]
  | q :: l' => if bytes_leb p.1 q.1 then p :: l else q :: insert_by_name p l'
  end.
Definition sort_by_name (l : list (bytes * bytes)) : list (bytes * bytes) := foldr insert_by_name [] l.

Definition ms_header (h : bytes * bytes) : bool := starts_with (ascii_lowercase <$> h.1) (ascii "x-ms-").

Definition canonicalize_headers (headers : list (bytes * bytes)) : bytes :=
  let ms_headers := (λ h : bytes * bytes, (ascii_lowercase <$> h.1, trim h.2)) <$> List.filter ms_header headers in
  flat_map (λ h : bytes * bytes, h.1 ++ ascii ":" ++ h.2 ++ [x0a]) (sort_by_name ms_headers).

Section Sign.
Context `{!AzureLib}.

Record SharedKeySigner := { signer_account : bytes; key_bytes : bytes }.

Definition signer_new (c : AzureCredentials) : result SharedKeySigner AzureError :=
  match azure_b64_decode (account_key_b64 c) with
  | Err e => Err (AzAuth ("invalid account key base64: " +:+ e))
  | Ok k => Ok {| signer_account := account_name c; key_bytes := k |}
  end.

Definition canonicalize_resource (s : SharedKeySigner) (url : bytes) : result bytes AzureError :=
  match url_path_query url with
  | Err e => Err (AzResponse ("invalid URL '" +:+ key_string url +:+ "': " +:+ e))
  | Ok (path, query) =>
      let params := sort_by_name ((λ p : bytes * bytes, (ascii_lowercase <$> p.1, p.2)) <$> query) in
      Ok (ascii "/" ++ signer_account s ++ path ++ flat_map (λ p : bytes * bytes, [x0a] ++ p.1 ++ ascii ":" ++ p.2) params)
  end.

(** [{method}\n\n\n{cl_str}\n\n{ct_str}\n\n\n\n\n\n\n{headers}{resource}] *)
Definition string_to_sign (method : string) (canonicalized_headers canonicalized_resource : bytes) (content_length : option Z) (content_type : option bytes) : bytes :=
  let cl_str := match content_length with None => [] | Some n => if decide (n = 0%Z) then [] else decimal n end in
  ascii method ++ replicate 3 x0a ++ cl_str ++ replicate 2 x0a ++ default [] content_type ++ replicate 7 x0a ++
  canonicalized_headers ++ canonicalized_resource.

Definition sign (s : SharedKeySigner) (method : string) (url : bytes) (headers : list (bytes * bytes)) (content_length : option Z) (content_type : option bytes)
    : result bytes AzureError :=
  let? canonicalized_resource := canonicalize_resource s url in
  match hmac_sha256 (key_bytes s) (string_to_sign method (canonicalize_headers headers) canonicalized_resource content_length content_type) with
  | Err e => Err (AzAuth ("HMAC key error: " +:+ e))
  | Ok mac => Ok (ascii "SharedKey " ++ signer_account s ++ ascii ":" ++ azure_b64 mac)
  end.
End Sign.

(** ** [lib.rs] *)
Section Store.
Context {W : Type} `{!AzureLib, !S3Lib, !Http W} (config : AzureConfig) (signer : SharedKeySigner).

Definition azure_endpoint : bytes :=
  default (ascii "https://" ++ account_name (az_credentials config) ++ ascii ".blob.core.windows.net") (az_endpoint config).

Definition blob_url (key : bytes) : bytes := azure_endpoint ++ ascii "/" ++ container config ++ ascii "/" ++ azure_percent_encode key.

Definition version : bytes := ascii "2024-08-04".

(** A signed request at the time [secs]; [None] is a panic of the date. *)
Definition azure_request (secs : Z) (method : string) (url : bytes) (extra : list (bytes * bytes)) (content_length : option Z) (content_type : option bytes)
    (data : bytes) (w : W) : option (W * blob_result RawResponse) :=
  date ← rfc1123_from_secs secs;
  let sign_headers := [(ascii "x-ms-date", date); (ascii "x-ms-version", version)] ++ extra in
  Some (match sign signer method url sign_headers content_length content_type with
        | Err e => (w, Err (azure_to_blob e))
        | Ok auth =>
            let sent := sign_headers ++ match content_length with Some n => [(ascii "Content-Length", decimal n)] | None => [] end ++ [(ascii "Authorization", auth)] in
            let '(w, r) := http_send method url sent data w in (w, map_err BlobOther r)
        end).

Definition azure_handle {A} (p : option (W * blob_result RawResponse)) (handle : RawResponse → blob_result A) : option (W * blob_result A) :=
  wr ← p; Some (wr.1, let? resp := wr.2 in handle resp).

Definition failed (method : string) (status : Z) : BlobError := BlobOther ("azure " +:+ method +:+ " failed with status " +:+ pretty status).

Definition azure_put (secs : Z) (key data : bytes) (w : W) : option (W * blob_result unit) :=
  let content_type := ascii "application/octet-stream" in
  azure_handle
    (azure_request secs "PUT" (blob_url key) [(ascii "x-ms-blob-type", ascii "BlockBlob"); (ascii "Content-Type", content_type)]
       (Some (blob_len data)) (Some content_type) data w)
    (λ resp, if bool_decide (raw_status resp ∈ [201; 200]%Z) then Ok () else Err (failed "PUT" (raw_status resp))).

Definition azure_get (secs : Z) (key : bytes) (w : W) : option (W * blob_result bytes) :=
  azure_handle (azure_request secs "GET" (blob_url key) [] None None [] w)
    (λ resp, if bool_decide (raw_status resp = 404%Z) then Err (BlobNotFound key)
             else if bool_decide (raw_status resp ≠ 200%Z) then Err (failed "GET" (raw_status resp))
             else Ok (raw_body resp)).

Definition azure_delete (secs : Z) (key : bytes) (w : W) : option (W * blob_result unit) :=
  azure_handle (azure_request secs "DELETE" (blob_url key) [] None None [] w)
    (λ resp, if bool_decide (raw_status resp = 404%Z) then Err (BlobNotFound key)
             else if bool_decide (raw_status resp ∈ [202; 200; 204]%Z) then Ok ()
             else Err (failed "DELETE" (raw_status resp))).

Definition azure_head (secs : Z) (key : bytes) (w : W) : option (W * blob_result BlobMeta) :=
  azure_handle (azure_request secs "HEAD" (blob_url key) [] None None [] w)
    (λ resp, if bool_decide (raw_status resp = 404%Z) then Err (BlobNotFound key)
             else if bool_decide (raw_status resp ≠ 200%Z) then Err (failed "HEAD" (raw_status resp))
             else
               let hs := header_map (raw_headers resp) in
               let size := default 0%Z (v ← hs !! ascii "content-length"; parse_usize (byte_Z <$> v)) in
               Ok {| meta_key := key; meta_size := size; content_type := hs !! ascii "content-type"; checksum := None |}).

(** ** Listing *)
Fixpoint blob_names (events : list XmlEvent) (current_tag : bytes) (in_blob : bool) (names : list bytes) (next_marker : option bytes)
    : blob_result (list bytes * option bytes) :=
  match events with
  | [] => Ok (names, next_marker)
  | XStart tag :: events => blob_names events tag (bool_decide (tag = ascii "Blob") || in_blob) names next_marker
  | XEnd tag :: events => blob_names events [] (if decide (tag = ascii "Blob") then false else in_blob) names next_marker
  | XText (Err e) :: _ => Err (BlobOther ("xml decode error: " +:+ e))
  | XText (Ok text) :: events =>
      if in_blob && bool_decide (current_tag = ascii "Name") then blob_names events current_tag in_blob (names ++ [text]) next_marker
      else if bool_decide (current_tag = ascii "NextMarker") then blob_names events current_tag in_blob names (Some text)
      else blob_names events current_tag in_blob names next_marker
  | XOther :: events => blob_names events current_tag in_blob names next_marker
  end.

Definition parse_list_response (data : bytes) : blob_result (list bytes * option bytes) :=
  let '(events, err) := xml_events data in
  let? r := blob_names events [] false [] None in
  match err with None => Ok r | Some e => Err (BlobOther ("xml parse error: " +:+ e)) end.

Definition azure_list_url (prefix : bytes) (marker : option bytes) : bytes :=
  azure_endpoint ++ ascii "/" ++ container config ++ ascii "?restype=container&comp=list&prefix=" ++ azure_percent_encode prefix ++
  match marker with Some m => ascii "&marker=" ++ azure_percent_encode m | None => [] end.

(** [clock] are the seconds at each page; [None] also when the fuel does not suffice. *)
Fixpoint azure_list_loop (fuel : nat) (clock : nat → Z) (prefix : bytes) (blobs : list bytes) (marker : option bytes) (w : W) : option (W * blob_result (list bytes)) :=
  match fuel with
  | 0 => None
  | S fuel =>
      wr ← azure_request (clock fuel) "GET" (azure_list_url prefix marker) [] None None [] w;
      match wr with
      | (w, Err e) => Some (w, Err e)
      | (w, Ok resp) =>
          if bool_decide (raw_status resp ≠ 200%Z) then Some (w, Err (BlobOther ("azure list failed with status " +:+ pretty (raw_status resp) +:+ " (account=" +:+
                                                              key_string (account_name (az_credentials config)) +:+ ", container=" +:+ key_string (container config) +:+ ")")))
          else match parse_list_response (raw_body resp) with
               | Err e => Some (w, Err e)
               | Ok (page, next) =>
                   let blobs := blobs ++ page in
                   match next with
                   | Some m => if decide (m = []) then Some (w, Ok blobs) else azure_list_loop fuel clock prefix blobs (Some m) w
                   | None => Some (w, Ok blobs)
                   end
               end
      end
  end.

Definition azure_list (fuel : nat) (clock : nat → Z) (prefix : bytes) (w : W) : option (W * blob_result (list bytes)) :=
  azure_list_loop fuel clock prefix [] None w.
End Store.
