(* ===== verification/AzureProps.v ===== *)
(** * The Azure store: dates, signatures and credentials *)

From stdpp Require Import pretty sorting.
From S2P Require Import Prelude Bytes Encrypt Blob Url Partition S3 S3Props S3History S3List S3Witness Azure Hashlink.

(** ** Dates *)
Lemma month_range doy : (0 ≤ doy ≤ 365)%Z → (1 ≤ (month_day doy).1 ≤ 12)%Z.
Proof.
  intros Hd. pose proof (upto_spec (λ d, (1 <=? (month_day d).1) && ((month_day d).1 <=? 12))%Z 366 ltac:(by vm_compute) doy ltac:(lia)) as H.
  apply andb_true_iff in H as [H1%Z.leb_le H2%Z.leb_le]. lia.
Qed.

Lemma civil_month days : (0 ≤ days)%Z → (1 ≤ (civil_from_days days).1.2 ≤ 12)%Z.
Proof.
  intros Hd. destruct (days_placed (Z.to_nat days)) as (era & yoe & doy & Hy & Hdoy & Hz & _). rewrite Z2Nat.id in Hz by done.
  rewrite (civil_date era yoe doy days Hy Hdoy Hz). unfold date_of. destruct (year_bounds yoe Hy) as (_ & _ & _ & _ & Hlast & _).
  pose proof (month_range doy ltac:(destruct (leap (yoe + 1)); lia)) as Hm. by destruct (month_day doy).
Qed.

Lemma calendar_month secs : (0 ≤ secs)%Z → (1 ≤ (epoch_to_calendar secs).1.1.2 ≤ 12)%Z.
Proof. intros Hs. apply (civil_month (secs / 60 / 60 / 24)). repeat apply Z.div_pos; lia. Qed.

(** The date of a request never indexes its tables out of bounds. *)
Lemma rfc1123_total secs : (0 ≤ secs)%Z → is_Some (rfc1123_from_secs secs).
Proof.
  intros Hs. unfold rfc1123_from_secs. destruct (epoch_to_calendar secs) as [[[year month] day] [[hour min] sec]] eqn:He.
  assert (1 ≤ month ≤ 12)%Z as Hm.
  { pose proof (calendar_month secs Hs) as Hm. by rewrite He in Hm. }
  assert (0 ≤ day_of_week secs < 7)%Z as Hw by (apply Z.mod_pos_bound; lia).
  destruct (lookup_lt_is_Some_2 DOW (Z.to_nat (day_of_week secs))) as [dow ->]; [simpl; lia|]. cbn [mbind option_bind].
  rewrite (proj2 (Z.ltb_ge _ _)) by lia. destruct (lookup_lt_is_Some_2 MON (Z.to_nat (month - 1))) as [mon ->]; [simpl; lia|]. by eexists.
Qed.

Lemma rfc1123_total_witness : ∃ s, rfc1123_from_secs 1779840000 = Some s ∧ s = ascii "Wed, 27 May 2026 00:00:00 GMT".
Proof. destruct (rfc1123_total 1779840000 ltac:(lia)) as [s Hs]. exists s. split; [exact Hs|]. assert (Some s = Some (ascii "Wed, 27 May 2026 00:00:00 GMT")) as H by (rewrite <-Hs; vm_compute; reflexivity). injection H. exact id. Defined.

(** ** Canonical headers *)
Definition name_le (a b : bytes * bytes) : Prop := bytes_le a.1 b.1.

Lemma insert_by_name_perm p l : insert_by_name p l ≡ₚ p :: l.
Proof. induction l as [|q l IH]; [done|]. cbn [insert_by_name]. destruct (bytes_leb p.1 q.1); [done|]. by rewrite IH, Permutation_swap. Qed.

Lemma sort_by_name_perm l : sort_by_name l ≡ₚ l.
Proof. induction l as [|p l IH]; [done|]. cbn [sort_by_name foldr]. fold (sort_by_name l). by rewrite insert_by_name_perm, IH. Qed.

Lemma insert_by_name_sorted p l : Sorted name_le l → Sorted name_le (insert_by_name p l).
Proof.
  induction 1 as [|q l Hl IH Hq]; cbn [insert_by_name]; [by repeat constructor|]. destruct (bytes_leb p.1 q.1) eqn:Hle.
  - constructor; [by constructor|]. by constructor.
  - assert (name_le q p) as Hqp by (unfold name_le, bytes_le; destruct (total bytes_le p.1 q.1) as [H|H]; [unfold bytes_le in H; congruence|exact H]).
    constructor; [done|]. destruct l as [|r l]; cbn [insert_by_name]; [by constructor|].
    apply HdRel_inv in Hq. destruct (bytes_leb p.1 r.1); by constructor.
Qed.

Lemma sort_by_name_sorted l : Sorted name_le (sort_by_name l).
Proof. induction l as [|p l IH]; [constructor|]. by apply insert_by_name_sorted. Qed.

Lemma sort_by_name_unique l l' : l ≡ₚ l' → NoDup l.*1 → sort_by_name l = sort_by_name l'.
Proof.
  intros Hp Hnd. apply (Sorted_unique_strong name_le); [|apply sort_by_name_sorted..|by rewrite !sort_by_name_perm].
  intros [n1 v1] [n2 v2] H1 H2 Hle Hge. assert (n1 = n2) as <- by (by apply bytes_leb_antisym).
  rewrite sort_by_name_perm in H1, H2. rewrite <-Hp in H2. f_equal.
  apply assoc_elem_of in H1, H2; [|done..]. congruence.
Qed.

(** The signature does not depend on the order in which the headers are given, nor on
    headers other than those of the service, whose names are distinct; and the canonical
    headers are in the order of their names. *)
Theorem canonical_headers_stable hs hs' : List.filter ms_header hs ≡ₚ List.filter ms_header hs' →
  NoDup ((λ h : bytes * bytes, ascii_lowercase <$> h.1) <$> List.filter ms_header hs) → canonicalize_headers hs = canonicalize_headers hs'.
Proof.
  intros Hp Hnd. unfold canonicalize_headers. f_equal. apply sort_by_name_unique; [by rewrite Hp|]. by rewrite <-list_fmap_compose.
Qed.

Definition demo_headers : list (bytes * bytes) :=
  [(ascii "x-ms-version", ascii "2024-08-04"); (ascii "Content-Type", ascii "text"); (ascii "X-Ms-Date", ascii " now ")].

Lemma canonical_headers_stable_witness : canonicalize_headers demo_headers = canonicalize_headers (reverse demo_headers).
Proof.
  apply (canonical_headers_stable demo_headers (reverse demo_headers)).
  - vm_compute. apply Permutation_swap.
  - apply (bool_decide_unpack _). vm_compute. exact I.
Defined.

(** ** Connection strings *)
Lemma split_byte_free c p : c ∉ p → split_byte c p = [p].
Proof. induction p as [|b p IH]; [done|]. intros Hb. cbn [split_byte]. rewrite decide_False, IH by set_solver. done. Qed.

Lemma split_byte_app c p s : c ∉ p → split_byte c (p ++ c :: s) = p :: split_byte c s.
Proof.
  induction p as [|b p IH]; intros Hp; cbn [app split_byte]; [by rewrite decide_True|]. rewrite decide_False, IH by set_solver. done.
Qed.

Lemma split_first_app c k v : c ∉ k → split_first c (k ++ c :: v) = Some (k, v).
Proof. induction k as [|b k IH]; intros Hk; cbn [app split_first]; [by rewrite decide_True|]. by rewrite decide_False, IH by set_solver. Qed.

(** The text of settings separated by semicolons. *)
Definition setting (kv : bytes * bytes) : bytes := kv.1 ++ x3d :: kv.2.
Fixpoint connection_string (fields : list (bytes * bytes)) : bytes :=
  match fields with [] => [] | [kv] => setting kv | kv :: fields => setting kv ++ x3b :: connection_string fields end.

(** Names hold neither separator, values no semicolon, and no setting needs trimming. *)
Definition field_ok (kv : bytes * bytes) : bool :=
  bool_decide (x3d ∉ kv.1) && bool_decide (x3b ∉ kv.1) && bool_decide (x3b ∉ kv.2) && bool_decide (trim (setting kv) = setting kv).

(** The value that the last setting of that name gives. *)
Definition last_value (name : bytes) (fields : list (bytes * bytes)) : option bytes := last (List.filter (λ kv, bool_decide (kv.1 = name)) fields).*2.

Lemma field_ok_spec kv : field_ok kv = true → (x3d ∉ kv.1) ∧ (x3b ∉ setting kv) ∧ trim (setting kv) = setting kv.
Proof.
  unfold field_ok. rewrite !andb_true_iff. intros [[[H1%bool_decide_eq_true H2%bool_decide_eq_true] H3%bool_decide_eq_true] H4%bool_decide_eq_true].
  split; [done|]. split; [|done]. unfold setting. rewrite elem_of_app, elem_of_cons. intros [?|[?|?]]; done.
Qed.

Lemma connection_split fields : forallb field_ok fields = true → fields ≠ [] → split_byte x3b (connection_string fields) = setting <$> fields.
Proof.
  induction fields as [|kv [|kv' fields] IH]; intros Hok Hne; [done|..]; cbn [forallb] in Hok; apply andb_true_iff in Hok as [Hkv Hok];
    apply field_ok_spec in Hkv as (_ & Hs & _).
  - cbn [connection_string]. by rewrite split_byte_free.
  - change (connection_string (kv :: kv' :: fields)) with (setting kv ++ x3b :: connection_string (kv' :: fields)). rewrite split_byte_app, IH by done. done.
Qed.

Lemma read_setting acc kv : field_ok kv = true → read_part acc (setting kv) =
  if decide (kv.1 = ascii "AccountName") then (Some kv.2, acc.2) else if decide (kv.1 = ascii "AccountKey") then (acc.1, Some kv.2) else acc.
Proof.
  intros (Hk & _ & Ht)%field_ok_spec. unfold read_part. rewrite Ht. rewrite decide_False by (unfold setting; by destruct kv.1).
  unfold setting at 1. by rewrite split_first_app.
Qed.

Lemma last_value_cons name kv fields : last_value name (kv :: fields) =
  match last_value name fields with Some v => Some v | None => if decide (kv.1 = name) then Some kv.2 else None end.
Proof.
  unfold last_value. cbn [List.filter]. destruct (decide (kv.1 = name)); [rewrite bool_decide_eq_true_2 by done|by rewrite bool_decide_eq_false_2; [case_match|]].
  csimpl. rewrite last_cons. done.
Qed.

Lemma read_settings fields acc : forallb field_ok fields = true →
  foldl read_part acc (setting <$> fields) =
  (match last_value (ascii "AccountName") fields with Some v => Some v | None => acc.1 end,
   match last_value (ascii "AccountKey") fields with Some v => Some v | None => acc.2 end).
Proof.
  revert acc. induction fields as [|kv fields IH]; intros acc Hok; [by destruct acc|]. cbn [forallb] in Hok. apply andb_true_iff in Hok as [Hkv Hok].
  csimpl. rewrite read_setting, IH by done. rewrite !last_value_cons.
  destruct (last_value (ascii "AccountName") fields), (last_value (ascii "AccountKey") fields); repeat case_decide; try done;
    exfalso; match goal with H : kv.1 = _, H' : kv.1 = _ |- _ => rewrite H in H'; discriminate H' end.
Qed.

(** A connection string of settings in any order, with others among them, gives
    the account name and the key, whose base64 may hold equal signs; a missing one is an
    error, the name's first; of a setting given twice the last one counts. *)
Theorem connection_string_parsed fields : forallb field_ok fields = true → fields ≠ [] →
  from_connection_string (connection_string fields) =
  match last_value (ascii "AccountName") fields, last_value (ascii "AccountKey") fields with
  | None, _ => Err (AzAuth "connection string missing AccountName")
  | Some _, None => Err (AzAuth "connection string missing AccountKey")
  | Some name, Some key => Ok {| account_name := name; account_key_b64 := key |}
  end.
Proof.
  intros Hok Hne. unfold from_connection_string. rewrite connection_split by done. rewrite read_settings by done. cbn [fst snd].
  by destruct (last_value (ascii "AccountName") fields), (last_value (ascii "AccountKey") fields).
Qed.

Lemma connection_string_parsed_witness :
  from_connection_string (ascii "DefaultEndpointsProtocol=https;AccountKey=a2V5PT0=;AccountName=me;EndpointSuffix=core")
  = Ok {| account_name := ascii "me"; account_key_b64 := ascii "a2V5PT0=" |}.
Proof.
  exact (connection_string_parsed [(ascii "DefaultEndpointsProtocol", ascii "https"); (ascii "AccountKey", ascii "a2V5PT0="); (ascii "AccountName", ascii "me");
    (ascii "EndpointSuffix", ascii "core")] eq_refl ltac:(done)).
Defined.

Definition element (tag text : bytes) : list XmlEvent := [XStart tag; XText (Ok text); XEnd tag].

(** ** Listing *)
Definition azure_contents (keys : list bytes) : list XmlEvent :=
  flat_map (λ k, XStart (ascii "Blob") :: element (ascii "Name") k ++ [XEnd (ascii "Blob")]) keys.

(** The document of a page, with elements [extra] that the client does not read. *)
Definition azure_page (extra : list (bytes * bytes)) (keys : list bytes) (next : option bytes) : list XmlEvent :=
  XStart (ascii "EnumerationResults") :: flat_map (λ '(tag, text), element tag text) extra ++
  XStart (ascii "Blobs") :: azure_contents keys ++ XEnd (ascii "Blobs") ::
  match next with Some t => element (ascii "NextMarker") t | None => [XOther] end ++ [XEnd (ascii "EnumerationResults")].

Definition azure_extra (extra : list (bytes * bytes)) : Prop := Forall (λ e : bytes * bytes, e.1 ∉ [ascii "Blob"; ascii "NextMarker"]) extra.

Lemma blob_names_extra extra events names next : azure_extra extra → ∀ tag, ∃ tag',
  blob_names (flat_map (λ '(tag, text), element tag text) extra ++ events) tag false names next = blob_names events tag' false names next.
Proof.
  induction 1 as [|[t text] extra Ht _ IH]; intros tag; [by exists tag|]. cbn [fst] in Ht. destruct (IH []) as [tag' Htag]. exists tag'. rewrite <-Htag.
  apply not_elem_of_cons in Ht as [H1 [H2 _]%not_elem_of_cons]. cbn [flat_map element app blob_names].
  rewrite (bool_decide_eq_false_2 (t = ascii "Blob")), (bool_decide_eq_false_2 (t = ascii "NextMarker")), decide_False by done. done.
Qed.

Lemma blob_names_contents keys events names next tag : ∃ tag',
  blob_names (azure_contents keys ++ events) tag false names next = blob_names events tag' false (names ++ keys) next.
Proof.
  revert names tag. induction keys as [|k keys IH]; intros names tag; [exists tag; by rewrite app_nil_r|].
  destruct (IH (names ++ [k]) []) as [tag' Htag]. exists tag'. rewrite <-app_assoc in Htag. cbn [app] in Htag. rewrite <-Htag. reflexivity.
Qed.

Lemma parse_azure_page `{SL : !S3Lib} data extra keys next : azure_extra extra → xml_events data = (azure_page extra keys next, None) →
  parse_list_response data = Ok (keys, next).
Proof.
  intros He Hx. unfold parse_list_response. rewrite Hx. unfold azure_page.
  change (blob_names (XStart (ascii "EnumerationResults") :: ?l) [] false [] None) with (blob_names l (ascii "EnumerationResults") false [] None).
  match goal with |- context [blob_names (flat_map ?f extra ++ ?ev) ?t false [] None] => destruct (blob_names_extra extra ev [] None He t) as [tag1 ->] end.
  change (blob_names (XStart (ascii "Blobs") :: ?l) tag1 false [] None) with (blob_names l (ascii "Blobs") false [] None).
  match goal with |- context [blob_names (azure_contents keys ++ ?ev) ?t false [] None] => destruct (blob_names_contents keys ev [] None t) as [tag2 ->] end.
  by destruct next.
Qed.

Definition azure_list_request (base url prefix : bytes) (marker : option bytes) : Prop := ∃ p t,
  url = base ++ ascii "?restype=container&comp=list&prefix=" ++ p ++ t ∧ percent_decode p = Some prefix ∧ (x26 ∉ p) ∧
  match marker with
  | None => t = []
  | Some t0 => ∃ e, t = ascii "&marker=" ++ e ∧ percent_decode e = Some t0 ∧ x26 ∉ e
  end.

(** The pages of the service; a page with a successor has at least one blob. *)
Class AzureListLaws (W : Type) `{!S3Lib, !Http W, !S3Objects W} (base : bytes) := {
  marker_pos : bytes → nat;
  azure_list_law url prefix marker hs (w w' : W) r : azure_list_request base url prefix marker →
    forallb xml_plain (btree_iter (objects w)).*1 = true →
    http_send "GET" url hs [] w = (w', r) →
    objects w' = objects w ∧
    ∀ resp, r = Ok resp → raw_status resp = 200%Z →
      let all := matching prefix (objects w) in
      let o := match marker with None => 0 | Some t => marker_pos t end in
      ∃ n extra next, xml_events (raw_body resp) = (azure_page extra (take n (drop o all)) next, None) ∧ azure_extra extra ∧
        match next with
        | Some t => t ≠ [] ∧ o + n < length all ∧ 1 ≤ n ∧ marker_pos t = o + n
        | None => length all ≤ o + n
        end;
}.

Section Listing.
Context {W : Type} `{AL : !AzureLib, SL : !S3Lib, HW : !Http W, OB : !S3Objects W} (config : AzureConfig) (signer : SharedKeySigner).
Definition azure_base : bytes := azure_endpoint config ++ ascii "/" ++ container config.
Context `{LW : !AzureListLaws W azure_base}.
Implicit Types w : W.

Lemma azure_list_url_request prefix marker : azure_list_request azure_base (azure_list_url config prefix marker) prefix marker.
Proof.
  exists (azure_percent_encode prefix), (match marker with Some t => ascii "&marker=" ++ azure_percent_encode t | None => [] end).
  rewrite !azure_percent_encode_eq. destruct (encoded_param prefix).
  split; [unfold azure_list_url, azure_base; rewrite azure_percent_encode_eq, <-!app_assoc; by destruct marker; rewrite ?azure_percent_encode_eq|].
  split; [done|]. split; [done|]. destruct marker; [|done]. rewrite azure_percent_encode_eq. eexists. split; [done|]. apply encoded_param.
Qed.

(** A request returns: it does not panic, and sends at most once. *)
Lemma azure_request_total secs method url extra cl ct data w : (0 ≤ secs)%Z → ∃ w' r,
  azure_request signer secs method url extra cl ct data w = Some (w', r) ∧
  ((w' = w ∧ ∃ e, r = Err e) ∨ ∃ hs r0, http_send method url hs data w = (w', r0) ∧ r = map_err BlobOther r0).
Proof.
  intros Hs. unfold azure_request. destruct (rfc1123_total secs Hs) as [date ->]. cbn [mbind option_bind].
  destruct (sign _ _ _ _ _ _) as [auth|e]; [|by eexists w, _; split; [done|left; eauto]].
  match goal with |- context [http_send method url ?hs data w] => destruct (http_send method url hs data w) as [w1 r1] eqn:Hh; eexists w1, _; split; [done|right; by exists hs, r1] end.
Qed.

(** A request of the listing that got no page. *)
Definition azure_list_failed (m : gmap bytes bytes) (prefix : bytes) : Prop := ∃ secs marker w1 w2 r1, objects w1 = m ∧
  azure_request signer secs "GET" (azure_list_url config prefix marker) [] None None [] w1 = Some (w2, r1) ∧ ∀ resp, r1 = Ok resp → raw_status resp ≠ 200%Z.

Lemma azure_list_loop_spec clock prefix m fuel acc marker w : (∀ n, 0 ≤ clock n)%Z → objects w = m → forallb xml_plain (btree_iter m).*1 = true →
  let all := matching prefix m in
  let o := match marker with None => 0 | Some t => marker_pos t end in
  length all - o < fuel →
  ∃ w' r, azure_list_loop config signer fuel clock prefix acc marker w = Some (w', r) ∧ objects w' = m ∧
    match r with Ok l => l = acc ++ drop o all | Err _ => azure_list_failed m prefix end.
Proof.
  intros Hc Hm Hplain all. revert acc marker w Hm. induction fuel as [|fuel IH]; intros acc marker w Hm o Hf; [lia|]. cbn [azure_list_loop].
  destruct (azure_request_total (clock fuel) "GET" (azure_list_url config prefix marker) [] None None [] w (Hc fuel)) as (w1 & r1 & Hrq & Hr1).
  assert ((∀ resp, r1 = Ok resp → raw_status resp ≠ 200%Z) → azure_list_failed m prefix) as Hfail by (intros; by exists (clock fuel), marker, w, w1, r1).
  rewrite Hrq. cbn [mbind option_bind]. destruct Hr1 as [(-> & e & ->)|(hs & r0 & Hh & ->)]; [eexists w, _; split; [done|]; split; [done|]; by apply Hfail|].
  rewrite <-Hm in Hplain. destruct (azure_list_law _ _ _ _ _ _ _ (azure_list_url_request prefix marker) Hplain Hh) as [Hw1 Hpage]. rewrite Hm in Hw1, Hpage, Hplain.
  destruct r0 as [resp|e]; cbn [map_err] in *; [|eexists w1, _; split; [done|]; split; [done|]; by apply Hfail].
  case_bool_decide as Hst; [eexists w1, _; split; [done|]; split; [done|]; apply Hfail; by intros ? [= <-]|].
  destruct (Hpage resp eq_refl Hst) as (n & extra & next & Hx & Hextra & Hnext). fold all o in Hx, Hnext. rewrite (parse_azure_page _ _ _ _ Hextra Hx).
  destruct next as [t|].
  - destruct Hnext as (Ht & Hlt & Hn & Hpos). rewrite decide_False by done.
    destruct (IH (acc ++ take n (drop o all)) (Some t) w1 Hw1) as (w' & r & Hl & Hw' & Hr); [simpl; lia|].
    exists w', r. split; [exact Hl|]. split; [done|]. destruct r as [l|]; [|done]. rewrite Hr, Hpos, <-app_assoc, <-drop_drop. by rewrite take_drop.
  - eexists w1, _. split; [done|]. split; [done|]. by rewrite take_ge by (rewrite length_drop; lia).
Qed.

(** Listing terminates within one request per matching blob and one more, without a
    panic, and returns exactly the blobs with the prefix in order; it fails only if a
    request for one of its pages does. *)
Theorem azure_list_complete fuel clock prefix w : (∀ n, 0 ≤ clock n)%Z → forallb xml_plain (btree_iter (objects w)).*1 = true →
  length (matching prefix (objects w)) < fuel →
  ∃ w' r, azure_list config signer fuel clock prefix w = Some (w', r) ∧ objects w' = objects w ∧
    match r with
    | Ok l => l = List.filter (λ k, starts_with k prefix) (btree_iter (objects w)).*1
    | Err _ => azure_list_failed (objects w) prefix
    end.
Proof.
  intros Hc Hp Hf. destruct (azure_list_loop_spec clock prefix (objects w) fuel [] None w Hc eq_refl Hp) as (w' & r & Hl & Hw & Hr); [simpl; lia|].
  by exists w', r.
Qed.
End Listing.

(** ** Calls *)
(** Blobs have the addresses of the objects of a bucket and the service has the laws of
    one. *)
Section Calls.
Context {W : Type} `{AL : !AzureLib, SL : !S3Lib, HW : !Http W, OB : !S3Objects W} (config : AzureConfig) (signer : SharedKeySigner).
Context `{SS : !S3ServerLaws W (azure_base config)}.
Implicit Types w : W.

Definition azure_step (secs : Z) (op : S3Op) (w : W) : option (W * S3Out) :=
  match op with
  | S3Put k v => wr ← azure_put config signer secs k v w; Some (wr.1, S3Unit wr.2)
  | S3Get k => wr ← azure_get config signer secs k w; Some (wr.1, S3Data wr.2)
  | S3Delete k => wr ← azure_delete config signer secs k w; Some (wr.1, S3Unit wr.2)
  | S3Head k => wr ← azure_head config signer secs k w; Some (wr.1, S3Meta wr.2)
  end.

Lemma blob_url_base key : blob_url config key = azure_base config ++ ascii "/" ++ percent_encode key.
Proof. unfold blob_url, azure_base. by rewrite azure_percent_encode_eq, <-!app_assoc. Qed.

(** Every header of a request. *)
Lemma azure_request_sent secs method url extra cl ct data w : (0 ≤ secs)%Z → ∃ w' r,
  azure_request signer secs method url extra cl ct data w = Some (w', r) ∧
  ((w' = w ∧ ∃ e, r = Err (azure_to_blob e) ∧ ∀ k, azure_to_blob e ≠ BlobNotFound k) ∨
   ∃ hs r0, http_send method url hs data w = (w', r0) ∧ r = map_err BlobOther r0 ∧
     ∀ h, h ∈ hs.*1 → h ∈ extra.*1 ∨ h ∈ ascii <$> ["x-ms-date"; "x-ms-version"; "Content-Length"; "Authorization"]).
Proof.
  intros Hs. unfold azure_request. destruct (rfc1123_total secs Hs) as [date ->]. cbn [mbind option_bind].
  destruct (sign signer method url _ cl ct) as [auth|e] eqn:Hsign.
  - match goal with |- context [http_send method url ?hs data w] => destruct (http_send method url hs data w) as [w1 r1] eqn:Hh; eexists w1, _; split; [done|right; exists hs, r1] end.
    split; [done|]. split; [done|]. intros h. rewrite !fmap_app, !elem_of_app. csimpl. destruct cl; csimpl; set_solver.
  - eexists w, _. split; [done|]. left. split; [done|]. exists e. split; [done|]. revert Hsign. unfold sign, canonicalize_resource.
    destruct (url_path_query url) as [[path query]|]; [|by intros [= <-]]. destruct (hmac_sha256 _ _); [done|]. by intros [= <-].
Qed.

(** Every call on a key with an address and with a clock after 1970 returns, and answers for the container: a read
    returns the blob there is or reports that there is none, a write that succeeds has
    happened, and one that fails has happened completely or not at all. *)
Theorem azure_calls_correct secs op w : (0 ≤ secs)%Z → addressable (op_key op) = true →
  ∃ w' out, azure_step secs op w = Some (w', out) ∧ s3_correct op (objects w) (objects w') out.
Proof.
  intros Hs Hk. destruct op as [k v|k|k|k]; simpl in Hk; unfold azure_step, azure_put, azure_get, azure_delete, azure_head, azure_handle; rewrite blob_url_base.
  - match goal with |- context [azure_request signer secs ?m ?u ?x ?c ?t ?d w] => destruct (azure_request_sent secs m u x c t d w Hs) as (w' & r & -> & Hr) end.
    cbn [mbind option_bind]. eexists w', _. split; [done|]. destruct Hr as [(-> & e & -> & _)|(hs & r0 & Hh & -> & Hhs)]; [split; [by left|done]|].
    destruct (s3_put_law _ k _ _ _ _ _ (encoded_names k Hk) ltac:(intros Hin; destruct (Hhs _ Hin) as [Hn|Hn]; revert Hn;
      rewrite <-(bool_decide_eq_true (_ ∈ _)); by vm_compute) Hh) as [Heff Hok].
    split; [exact Heff|]. destruct r0 as [resp|e]; cbn [map_err fst snd]; [|done]. case_bool_decide as Hst; [|done]. intros _. apply (Hok resp eq_refl). unfold success. set_solver by lia.
  - match goal with |- context [azure_request signer secs ?m ?u ?x ?c ?t ?d w] => destruct (azure_request_sent secs m u x c t d w Hs) as (w' & r & -> & Hr) end.
    cbn [mbind option_bind]. eexists w', _. split; [done|]. destruct Hr as [(-> & e & -> & He)|(hs & r0 & Hh & -> & _)]; [split; [done|]; cbn [fst snd]; specialize (He); destruct (azure_to_blob e); try done; by destruct (He key)|].
    destruct (s3_get_law _ k _ _ _ _ (encoded_names k Hk) Hh) as [Heff Hok]. split; [exact Heff|]. destruct r0 as [resp|e]; cbn [map_err fst snd]; [|done].
    destruct (Hok resp eq_refl) as [H200 H404]. repeat case_bool_decide; try done; auto.
  - match goal with |- context [azure_request signer secs ?m ?u ?x ?c ?t ?d w] => destruct (azure_request_sent secs m u x c t d w Hs) as (w' & r & -> & Hr) end.
    cbn [mbind option_bind]. eexists w', _. split; [done|]. destruct Hr as [(-> & e & -> & He)|(hs & r0 & Hh & -> & _)]; [split; [by left|]; cbn [fst snd]; destruct (azure_to_blob e); try done; by destruct (He key)|].
    destruct (s3_delete_law _ k _ _ _ _ (encoded_names k Hk) Hh) as [Heff Hok]. split; [exact Heff|]. destruct r0 as [resp|e]; cbn [map_err fst snd]; [|done].
    destruct (Hok resp eq_refl) as [H200 H404]. case_bool_decide as H4.
    + destruct (H404 H4) as [Hn Heq]. split; [done|]. rewrite Heq. by rewrite delete_id.
    + case_bool_decide as H2; [|done]. apply H200. unfold success. set_solver by lia.
  - match goal with |- context [azure_request signer secs ?m ?u ?x ?c ?t ?d w] => destruct (azure_request_sent secs m u x c t d w Hs) as (w' & r & -> & Hr) end.
    cbn [mbind option_bind]. eexists w', _. split; [done|]. destruct Hr as [(-> & e & -> & He)|(hs & r0 & Hh & -> & _)]; [split; [done|]; cbn [fst snd]; destruct (azure_to_blob e); try done; by destruct (He key)|].
    destruct (s3_head_law _ k _ _ _ _ (encoded_names k Hk) Hh) as [Heff Hok]. split; [exact Heff|]. destruct r0 as [resp|e]; cbn [map_err fst snd]; [|done].
    destruct (Hok resp eq_refl) as [H200 H404]. case_bool_decide; [auto|]. case_bool_decide as H2; [done|].
    destruct (H200 H2) as (v & n & Hv & Hn & Hp). exists v. split; [done|]. split; [done|]. cbn [meta_size]. rewrite Hn. cbn [mbind option_bind]. by rewrite Hp.
Qed.
End Calls.

(** ** An instance: a service that lists in pages of one blob *)
Module ToyAzure.
Definition demo_config : AzureConfig :=
  {| az_credentials := {| account_name := ascii "me"; account_key_b64 := [] |}; container := ascii "c"; az_endpoint := Some (ascii "http://h") |}.
Definition demo_signer : SharedKeySigner := {| signer_account := ascii "me"; key_bytes := [] |}.

#[local] Instance demo_azure_lib : AzureLib :=
  {| azure_b64 s := s; azure_b64_decode s := Ok s; hmac_sha256 _ s := Ok s; url_path_query url := Ok (url, []) |}.

(** A document is the number of blobs left, and the first of them. *)
Fixpoint ones (n : nat) : bytes := match n with 0 => [] | S n => x31 :: ones n end.
#[local] Instance demo_xml : S3Lib := {|
  url_parse _ := Err "none"%string; 
  default_signing_settings := {| signature_location := SigHeaders; expires_in := None; percent_encoding_mode := EncDouble; payload_checksum_kind := NoHeader; uri_path_normalization_mode := NormEnabled |};
  SigningParams := unit;
  v4_params _ _ _ _ _ := Ok ();
  SignableRequest := unit;
  signable_request _ _ _ _ := Ok ();
  v4_sign _ _ := Err "none"%string; xml_escape s := s;
  xml_events data :=
    match data with
    | x31 :: data => match split_first x3c data with Some (marker, key) => (azure_page [] [key] (Some marker), None) | None => ([], None) end
    | _ :: key => (azure_page [] [key] None, None)
    | [] => (azure_page [] [] None, None)
    end;
|}.

Abbreviation Objects := (gmap bytes bytes).
#[local] Instance demo_objects : S3Objects Objects := λ m, m.

Definition page_of (all : list bytes) (o : nat) : bytes :=
  match drop o all with
  | [] => []
  | [key] => x30 :: key
  | key :: _ => x31 :: ones (o + 1) ++ x3c :: key
  end.

#[local] Instance demo_http : Http Objects := λ method url _ _ m,
  let query := drop (length (azure_base demo_config) + 36) url in
  let p := until_amp query in
  (m, match percent_decode p with
      | Some prefix => reply 200 [] (page_of (matching prefix m) (length (default [] (percent_decode (drop (length p + 8) query)))))
      | None => reply 400 [] []
      end).

Lemma ones_length n : length (ones n) = n.
Proof. induction n; simpl; congruence. Qed.

Lemma ones_free n : x3c ∉ ones n.
Proof. induction n; cbn [ones]; set_solver. Qed.

Lemma demo_page all o : ∃ n next, xml_events (page_of all o) = (azure_page [] (take n (drop o all)) next, None) ∧
  match next with Some t => t ≠ [] ∧ o + n < length all ∧ 1 ≤ n ∧ length t = o + n | None => length all ≤ o + n end.
Proof.
  unfold page_of. destruct (drop o all) as [|key [|key' rest]] eqn:Hd; apply (f_equal length) in Hd; rewrite length_drop in Hd; cbn [length] in Hd.
  - exists 0, None. split; [done|lia].
  - exists 1, None. split; [done|lia].
  - exists 1, (Some (ones (o + 1))). cbn [xml_events demo_xml]. rewrite split_first_app by apply ones_free. split; [done|]. rewrite ones_length.
    split; [by rewrite Nat.add_1_r|]. lia.
Qed.

#[local] Instance demo_list : AzureListLaws Objects (azure_base demo_config).
Proof.
  refine {| marker_pos := length |}. intros url prefix marker hs w w' r (p & t & -> & Hp & Hamp & Ht) _ Hs. unfold http_send, demo_http in Hs.
  cbv zeta in Hs. rewrite <-drop_drop, drop_app_length in Hs.
  change (drop 36 (ascii "?restype=container&comp=list&prefix=" ++ p ++ t)) with (p ++ t) in Hs. rewrite until_amp_app in Hs.
  - rewrite Hp, <-drop_drop, drop_app_length in Hs. injection Hs as <- <-. split; [done|]. intros resp [= <-] _.
    assert (length (default [] (percent_decode (drop 8 t))) = match marker with Some m => length m | None => 0 end) as ->.
    { destruct marker; [destruct Ht as (e & -> & He & _)|by subst t]. change (drop 8 (ascii "&marker=" ++ e)) with e. by rewrite He. }
    destruct (demo_page (matching prefix (objects w)) (match marker with Some m => length m | None => 0 end)) as (n & next & Hx & Hn).
    exists n, [], next. split; [exact Hx|]. split; [constructor|]. exact Hn.
  - done.
  - destruct marker; [destruct Ht as (e & -> & _); by left|by right].
Qed.

Lemma azure_list_complete_witness : ∃ w',
  azure_list demo_config demo_signer 4 Z.of_nat (ascii "a b") (list_to_map [(ascii "a b/1", []); (ascii "c", []); (ascii "a b", []); (ascii "a b1", [])] : Objects) =
  Some (w', Ok [ascii "a b"; ascii "a b/1"; ascii "a b1"]).
Proof.
  destruct (azure_list_complete demo_config demo_signer 4 Z.of_nat (ascii "a b")
    (list_to_map [(ascii "a b/1", []); (ascii "c", []); (ascii "a b", []); (ascii "a b1", [])] : Objects)) as (w' & r & Hl & _ & Hr).
  - lia.
  - vm_compute. reflexivity.
  - vm_compute. lia.
  - assert (option_map (is_Ok ∘ snd) (azure_list demo_config demo_signer 4 Z.of_nat (ascii "a b")
      (list_to_map [(ascii "a b/1", []); (ascii "c", []); (ascii "a b", []); (ascii "a b1", [])] : Objects)) = Some true) as Hok by (vm_compute; reflexivity).
    rewrite Hl in Hok. destruct r as [l|e]; [|discriminate Hok]. exists w'. rewrite Hl, Hr. vm_compute. reflexivity.
Defined.

(** The service of [S3Witness.v] at the address of the container. *)
Definition bucket_config : AzureConfig :=
  {| az_credentials := {| account_name := ascii "me"; account_key_b64 := [] |}; container := ascii "b"; az_endpoint := Some (ascii "http://h") |}.
#[local] Remove Hints demo_xml demo_http demo_objects : typeclass_instances.

Lemma bucket_server : S3ServerLaws Bucket (azure_base bucket_config).
Proof. exact toy_server. Qed.
#[local] Existing Instance bucket_server.

Lemma azure_calls_correct_witness :
  ∃ w1 w2, azure_step bucket_config demo_signer 0 (S3Put ka (ascii "one")) (bucket_of [LostAfter; Fine]) = Some (w1, S3Unit (Err (BlobOther "timeout"))) ∧
    azure_step bucket_config demo_signer 0 (S3Get ka) w1 = Some (w2, S3Data (Ok (ascii "one"))) ∧ objects w1 !! ka = Some (ascii "one").
Proof.
  destruct (azure_calls_correct bucket_config demo_signer 0 (S3Put ka (ascii "one")) (bucket_of [LostAfter; Fine]) ltac:(lia) eq_refl) as (w1 & o1 & H1 & _).
  destruct (azure_calls_correct bucket_config demo_signer 0 (S3Get ka) w1 ltac:(lia) eq_refl) as (w2 & o2 & H2 & C2).
  assert (snd <$> azure_step bucket_config demo_signer 0 (S3Put ka (ascii "one")) (bucket_of [LostAfter; Fine]) = Some (S3Unit (Err (BlobOther "timeout")))) as A1
    by (vm_compute; reflexivity).
  assert ((w ← azure_step bucket_config demo_signer 0 (S3Put ka (ascii "one")) (bucket_of [LostAfter; Fine]); snd <$> azure_step bucket_config demo_signer 0 (S3Get ka) w.1)
    = Some (S3Data (Ok (ascii "one")))) as A2 by (vm_compute; reflexivity).
  rewrite H1 in A1, A2. cbn [mbind option_bind fst] in A2. rewrite H2 in A2. injection A1 as ->. injection A2 as ->.
  exists w1, w2. split; [exact H1|]. split; [exact H2|]. exact (proj2 C2).
Defined.
End ToyAzure.
