(* ===== verification/Presign.v ===== *)
(** * Presigned URLs of the S3 store

    A presigned URL carries the signature of the request it stands for: whoever has it
    can recover the address and every parameter that the signer produced. *)

From S2P Require Import Prelude Bytes Blob Url S3 S3Props S3Witness Azure AzureProps.

(** The parameters of a query, as a service reads them. *)
Fixpoint read_params (parts : list bytes) : option (list (bytes * bytes)) :=
  match parts with
  | [] => Some []
  | part :: parts =>
      kv ← split_first x3d part;
      v ← percent_decode kv.2;
      rest ← read_params parts;
      Some ((kv.1, v) :: rest)
  end.
Definition read_query (qs : bytes) : option (list (bytes * bytes)) := read_params (split_byte x26 qs).

(** Names that need no encoding. *)
Definition plain_name (k : bytes) : bool := bool_decide (x3d ∉ k) && bool_decide (x26 ∉ k).

Lemma encoded_free c v : url_safe c = false → c ∉ percent_encode v.
Proof.
  intros Hc Hin. rewrite percent_encode_flat in Hin.
  assert (forallb url_safe (flat_map (encode_byte (λ b, unreserved b || is_slash b)) v) = true) as Hs.
  { apply encode_safe. intros b Hb. unfold url_safe. by rewrite Hb. }
  rewrite forallb_forall in Hs. apply list_elem_of_In in Hin. specialize (Hs _ Hin). congruence.
Qed.

Lemma decode_encoded v : percent_decode (percent_encode v) = Some v.
Proof. rewrite percent_encode_flat. by apply encode_decode. Qed.

Lemma read_query_string params : params ≠ [] → forallb plain_name params.*1 = true → read_query (query_string params) = Some params.
Proof.
  unfold read_query. induction params as [|[k v] params IH]; [done|]. intros _. cbn [fmap list_fmap fst forallb]. intros [[Hk1 Hk2]%andb_true_iff Hp]%andb_true_iff.
  apply bool_decide_eq_true in Hk1, Hk2.
  assert (x26 ∉ k ++ x3d :: percent_encode v) as Hfree.
  { rewrite not_elem_of_app, not_elem_of_cons. split; [done|]. split; [done|by apply encoded_free]. }
  destruct params as [|[k' v'] params].
  - change (query_string [(k, v)]) with (k ++ x3d :: percent_encode v). rewrite split_byte_free by done. cbn [read_params]. rewrite (split_first_app x3d k (percent_encode v)) by done. cbn [mbind option_bind fst snd].
    by rewrite decode_encoded.
  - change (query_string ((k, v) :: (k', v') :: params)) with (k ++ (x3d :: percent_encode v) ++ x26 :: query_string ((k', v') :: params)).
    rewrite app_assoc, split_byte_app by done. cbn [read_params]. rewrite (split_first_app x3d k (percent_encode v)) by done. cbn [mbind option_bind fst snd].
    rewrite decode_encoded. cbn [mbind option_bind]. rewrite IH by done. done.
Qed.

Section Presign.
Context `{SL : !S3Lib} (config : S3Config).

(** A presigned URL is the address of the object followed by the parameters that the
    signer gave for that method and address, for the host and content type that the user
    of the URL will send, for the time to live, and without the content: the parameters
    are read back from the query as they were.  The path in the address decodes to the
    key. *)
Theorem presigned_url_carries_signature now method key ttl ct url : presign_impl config now method key ttl ct = Ok url →
  ∃ base host settings sp req hs params,
    bucket_url config = Ok base ∧ percent_decode (percent_encode key) = Some key ∧
    url_host_header (base ++ ascii "/" ++ percent_encode key) = Ok host ∧
    signature_location settings = SigQueryParams ∧ expires_in settings = Some ttl ∧ percent_encoding_mode settings = EncSingle ∧
    v4_params (credentials config) (region config) (ascii "s3") now settings = Ok sp ∧
    signable_request method (base ++ ascii "/" ++ percent_encode key) ((ascii "host", host) :: from_option (λ c, [(ascii "content-type", c)]) [] ct) UnsignedPayload = Ok req ∧
    v4_sign req sp = Ok (hs, params) ∧
    (params = [] → url = base ++ ascii "/" ++ percent_encode key) ∧
    (params ≠ [] → x3f ∉ base → forallb plain_name params.*1 = true →
       ∃ qs, split_first x3f url = Some (base ++ ascii "/" ++ percent_encode key, qs) ∧ read_query qs = Some params).
Proof.
  unfold presign_impl, object_url. destruct (bucket_url config) as [base|]; [|done].
  destruct (url_host_header (base ++ ascii "/" ++ percent_encode key)) as [host|] eqn:Hhost; [|done].
  set (settings := {| signature_location := SigQueryParams; expires_in := _; percent_encoding_mode := _; payload_checksum_kind := _; uri_path_normalization_mode := _ |}).
  destruct (v4_params _ _ _ _ settings) as [sp|] eqn:Hsp; [|done]. cbn [map_err].
  destruct (signable_request _ _ _ _) as [req|] eqn:Hreq; [|done]. cbn [map_err]. destruct (v4_sign req sp) as [[hs params]|] eqn:Hsign; [|done]. cbn [map_err]. intros [= <-].
  exists base, host, settings, sp, req, hs, params. split; [done|]. split; [apply decode_encoded|]. split; [done|]. split; [done|]. split; [done|]. split; [done|]. split; [done|].
  split; [by destruct ct|]. split; [done|]. split; [by intros ->|]. intros Hne Hbase Hnames. exists (query_string params). split.
  - assert (x3f ∉ base ++ ascii "/" ++ percent_encode key) as Hfree.
    { change (ascii "/" ++ percent_encode key) with (x2f :: percent_encode key). rewrite not_elem_of_app, not_elem_of_cons. split; [done|]. split; [done|by apply encoded_free]. }
    destruct params as [|kv params]; [done|]. by apply split_first_app.
  - by apply read_query_string.
Qed.
End Presign.

Lemma presigned_url_carries_signature_witness :
  ∃ url qs, presign_get toy_config 0 (ascii "a b") 60 = Ok url ∧ split_first x3f url = Some (ascii "http://h/b/a%20b", qs) ∧
    read_query qs = Some [(ascii "X-Amz-Algorithm", ascii "AWS4-HMAC-SHA256"); (ascii "X-Amz-Credential", ascii "a/b c")].
Proof.
  destruct (presign_get toy_config 0 (ascii "a b") 60) as [url|e] eqn:Hp; [|discriminate Hp].
  destruct (presigned_url_carries_signature toy_config 0 "GET" (ascii "a b") 60 None url Hp) as (base & host & settings & sp & req & hs & params & Hb & _ & _ & _ & _ & _ & _ & _ & Hs & _ & Hq).
  injection Hb as <-. injection Hs as _ <-. destruct Hq as (qs & Hsplit & Hread); [discriminate|by apply (bool_decide_eq_true_1 (x3f ∉ _))|vm_compute; reflexivity|].
  exists url, qs. split; [reflexivity|]. split; [exact Hsplit|exact Hread].
Defined.
