(* ===== verification/Table.v ===== *)
(** * [oxistore-columnar/src/lib.rs], [reader.rs]: tables

    [ColumnarTable] with its operations, its serialised form and the readers that
    project columns, prune row groups or adapt a file to another schema.  A batch is
    its schema and its rows, one cell per field.  The Arrow kernels that sort and the
    Parquet and DEFLATE codecs are classes.  A file has its Arrow schema and the names of
    its Parquet leaf columns, which are its fields when the schema is flat: statistics and
    projections go by leaf columns.  A panic is [None]. *)

From S2P Require Import Prelude Bytes Predicate.

(** ** Schemas and batches *)
Record Field := { f_name : string; f_type : DataType; f_nullable : bool }.
Abbreviation Schema := (list Field).

#[global] Instance Field_eq_dec : EqDecision Field.
Proof. solve_decision. Defined.

Record TBatch := { tb_schema : Schema; tb_rows : list Row }.

Definition field_pair (f : Field) : string * Field := (f_name f, f).
Definition schema_index (name : string) (s : Schema) : option (nat * Field) := index_of name (field_pair <$> s).

(** The batch as the predicate evaluator sees it. *)
Definition plain_batch (b : TBatch) : RecordBatch :=
  {| b_fields := (λ f, (f_name f, f_type f)) <$> tb_schema b; b_rows := tb_rows b |}.

(** The cells of a row at some positions. *)
Definition pick (idx : list nat) (r : Row) : Row := (λ i, cell i r) <$> idx.

(** A null in a column that must not have one. *)
Definition null_violation (s : Schema) (rows : list Row) : bool :=
  existsb (λ '(i, f), negb (f_nullable f) && existsb (λ r, bool_decide (cell i r = None)) rows) (zip (seq 0 (length s)) s).

(** [RecordBatch::try_new], given the types of the columns. *)
Definition try_new (s : Schema) (types : list DataType) (rows : list Row) : columnar_result TBatch :=
  if decide (s = []) then Err (ArrowError "must either specify a row count or at least one column")
  else if decide (length types ≠ length s) then Err (ArrowError "number of columns must match number of fields in schema")
  else if decide (types ≠ f_type <$> s) then Err (ArrowError "column types must match schema types")
  else if null_violation s rows then Err (ArrowError "Column is declared as non-nullable but contains null values")
  else Ok {| tb_schema := s; tb_rows := rows |}.

(** ** Tables *)
Inductive CompressionMode := CompNone | OxiArc (level : Z).
Record ColumnarTable := { schema : Schema; batches : list TBatch; compression : CompressionMode }.

Definition table_new (s : Schema) : ColumnarTable := {| schema := s; batches := []; compression := CompNone |}.

Definition with_compression (level : Z) (t : ColumnarTable) : ColumnarTable :=
  {| schema := schema t; batches := batches t; compression := OxiArc (Z.min level 9) |}.

Definition push_unchecked (b : TBatch) (t : ColumnarTable) : ColumnarTable :=
  {| schema := schema t; batches := batches t ++ [b]; compression := compression t |}.

Definition push (b : TBatch) (t : ColumnarTable) : ColumnarTable * columnar_result unit :=
  if decide (tb_schema b ≠ schema t) then (t, Err (SchemaMismatch "expected another schema"))
  else (push_unchecked b t, Ok ()).

Definition row_count (t : ColumnarTable) : nat := foldl (λ n b, n + length (tb_rows b)) 0 (batches t).

(** All rows in order. *)
Definition table_rows (t : ColumnarTable) : list Row := concat (tb_rows <$> batches t).

Definition merge (other t : ColumnarTable) : ColumnarTable * columnar_result unit :=
  if decide (schema t ≠ schema other) then (t, Err (SchemaMismatch "cannot merge: schemas differ"))
  else ({| schema := schema t; batches := batches t ++ batches other; compression := compression t |}, Ok ()).

(** [project]: [batch.column(i)] panics when the batch has fewer columns. *)
Fixpoint project_batches (new_schema : Schema) (indices : list nat) (bs : list TBatch) : option (columnar_result (list TBatch)) :=
  match bs with
  | [] => Some (Ok [])
  | b :: bs =>
      if forallb (λ i, bool_decide (i < length (tb_schema b))) indices then
        match try_new new_schema (omap (λ i, f_type <$> tb_schema b !! i) indices) (pick indices <$> tb_rows b) with
        | Err e => Some (Err e)
        | Ok b' => rest ← project_batches new_schema indices bs; Some (let? rest := rest in Ok (b' :: rest))
        end
      else None
  end.

Definition project (columns : list string) (t : ColumnarTable) : option (columnar_result ColumnarTable) :=
  let found := omap (λ name, schema_index name (schema t)) columns in
  let indices := found.*1 in
  if decide (indices = []) then Some (Ok (table_new []))
  else
    let new_schema := omap (λ i, schema t !! i) indices in
    r ← project_batches new_schema indices (batches t);
    Some (let? bs := r in Ok {| schema := new_schema; batches := bs; compression := compression t |}).

(** ** Sorting *)
(** [sort_to_indices] on a column of a type; [value_le] is the order of its values. *)
Class SortKernel := {
  value_le : DataType → Value → Value → Prop;
  sort_to_indices : DataType → list Cell → bool → result (list nat) string;
}.

(** Nulls come first, also in a descending sort. *)
Definition cell_before `{!SortKernel} (t : DataType) (descending : bool) (a b : Cell) : Prop :=
  match a, b with
  | None, _ => True
  | Some _, None => False
  | Some x, Some y => if descending then value_le t y x else value_le t x y
  end.

Class SortLaws `{!SortKernel} : Prop :=
  sort_to_indices_law t cells descending idx : sort_to_indices t cells descending = Ok idx →
    idx ≡ₚ seq 0 (length cells) ∧ Sorted (cell_before t descending) ((λ i, default None (cells !! i)) <$> idx).

(** [concat_batches]: the columns of the batches one after the other. *)
Definition concat_batches (s : Schema) (bs : list TBatch) : option (columnar_result TBatch) :=
  match bs with
  | [] => Some (Ok {| tb_schema := s; tb_rows := [] |})
  | b :: _ =>
      if forallb (λ b, bool_decide (length s ≤ length (tb_schema b))) bs then
        let types b := take (length s) (f_type <$> tb_schema b) in
        if forallb (λ b', bool_decide (types b' = types b)) bs
        then Some (try_new s (types b) (concat ((λ b, take (length s) <$> tb_rows b) <$> bs)))
        else Some (Err (ArrowError "It is not possible to concatenate arrays of different data types"))
      else None
  end.

Definition sort_by `{!SortKernel} (column_name : string) (ascending : bool) (t : ColumnarTable) : option (columnar_result ColumnarTable) :=
  match schema_index column_name (schema t) with
  | None => Some (Err (ArrowError "field not found"))
  | Some (idx, f) =>
      r ← concat_batches (schema t) (batches t);
      Some (let? combined := r in
        match sort_to_indices (f_type f) (cell idx <$> tb_rows combined) (negb ascending) with
        | Err e => Err (ArrowError e)
        | Ok sort_indices =>
            let? sorted := try_new (schema t) (f_type <$> schema t) ((λ i, default [] (tb_rows combined !! i)) <$> sort_indices) in
            Ok {| schema := schema t; batches := [sorted]; compression := compression t |}
        end)
  end.

(** ** Serialised tables *)
(** A Parquet file: its Arrow schema, the names of its leaf columns ([schema_descr]), and
    its row groups with the statistics of their leaf columns and their rows. *)
Record PqFile := { pq_schema : Schema; pq_leaves : SchemaDescriptor; pq_groups : list (RowGroupMetaData * list Row) }.

Record WriterConfig := { max_row_group_size : option Z }.
Definition default_config : WriterConfig := {| max_row_group_size := None |}.

(** Arrow types by structure; the lists of all kinds are [TList]. *)
Inductive ArrowType :=
| TPrimitive (name : string) | TUnion (name : string) | TList (item : ArrowType) | TMap (entries : ArrowType)
| TStruct (fields : list ArrowType) | TDictionary (value : ArrowType) | TRunEndEncoded (values : ArrowType).

Fixpoint check_datatype (t : ArrowType) : columnar_result unit :=
  match t with
  | TUnion name => Err (UnsupportedType (name +:+ " is not supported for Parquet serialisation"))
  | TList inner | TMap inner | TDictionary inner | TRunEndEncoded inner => check_datatype inner
  | TStruct fields =>
      (fix check (fields : list ArrowType) : columnar_result unit :=
         match fields with [] => Ok () | f :: fields => let? _ := check_datatype f in check fields end) fields
  | TPrimitive _ => Ok ()
  end.

Inductive Encoding := DELTA_BINARY_PACKED | DELTA_LENGTH_BYTE_ARRAY.

Definition column_encoding (t : ArrowType) : option Encoding :=
  match t with
  | TPrimitive name =>
      if bool_decide (name ∈ ["Int8"; "Int16"; "Int32"; "Int64"; "UInt8"; "UInt16"; "UInt32"; "UInt64"; "Date32"; "Date64"; "Time32"; "Time64"; "Timestamp"; "Duration"]%string)
      then Some DELTA_BINARY_PACKED
      else if bool_decide (name ∈ ["Utf8"; "LargeUtf8"; "Binary"; "LargeBinary"; "Utf8View"; "BinaryView"]%string) then Some DELTA_LENGTH_BYTE_ARRAY
      else None
  | _ => None
  end.

(** Uncompressed, with dictionaries and page statistics. *)
Record WriterProperties := { props_compression : string; props_dictionary : bool; props_statistics : string;
  props_row_group : option Z; props_encodings : list (string * Encoding) }.

(** The codecs: the Arrow writer with the structure [arrow_type] of the types that are
    only named, [pq_open] parses, [pq_mask] is the schema and the rows that a reader with
    [ProjectionMask::leaves] gives, [pq_decode] cuts the rows it reads into batches.
    [compress_feature] says whether the crate was built with compression. *)
Class TableIo := {
  arrow_type : string → ArrowType;
  ArrowWriter : Type;
  aw_try_new : WriterProperties → Schema → columnar_result ArrowWriter;
  aw_write : TBatch → ArrowWriter → ArrowWriter * columnar_result unit;
  aw_close : ArrowWriter → columnar_result bytes;
  pq_open : bytes → result PqFile ColumnarError;
  pq_mask : PqFile → list nat → Schema * (Row → Row);
  pq_decode : list Row → list (list Row);
  deflate : bytes → Z → result bytes string;
  inflate : bytes → result bytes string;
  compress_feature : bool;
}.

Section Writer.
Context `{!TableIo}.

Definition type_structure (t : DataType) : ArrowType :=
  match t with
  | DBool => TPrimitive "Boolean" | DInt32 => TPrimitive "Int32" | DInt64 => TPrimitive "Int64" | DFloat32 => TPrimitive "Float32"
  | DFloat64 => TPrimitive "Float64" | DUtf8 => TPrimitive "Utf8" | DOther name => arrow_type name
  end.

Fixpoint validate_schema_for_write (s : Schema) : columnar_result unit :=
  match s with [] => Ok () | field :: s => let? _ := check_datatype (type_structure (f_type field)) in validate_schema_for_write s end.

Definition build_writer_props_with_config (config : WriterConfig) (s : Schema) : WriterProperties := {|
  props_compression := "UNCOMPRESSED"; props_dictionary := true; props_statistics := "Page";
  props_row_group := max_row_group_size config;
  props_encodings := omap (λ f, e ← column_encoding (type_structure (f_type f)); Some (f_name f, e)) s |}.
Definition build_writer_props : Schema → WriterProperties := build_writer_props_with_config default_config.

(** [for batch in batches { writer.write(batch)?; }] *)
Fixpoint write_all (bs : list TBatch) (writer : ArrowWriter) : columnar_result ArrowWriter :=
  match bs with
  | [] => Ok writer
  | b :: bs => match aw_write b writer with (writer, Ok _) => write_all bs writer | (_, Err e) => Err e end
  end.

(** A writer that is opened, fed and closed. *)
Definition aw_bytes (props : WriterProperties) (s : Schema) (bs : list TBatch) : columnar_result bytes :=
  let? writer := aw_try_new props s in let? writer := write_all bs writer in aw_close writer.

Definition write_batches_to_bytes_with_config (config : WriterConfig) (s : Schema) (bs : list TBatch) : columnar_result bytes :=
  let? _ := validate_schema_for_write s in aw_bytes (build_writer_props_with_config config s) s bs.
End Writer.

(** A type that Parquet stores in one leaf column. *)
Fixpoint one_leaf (t : ArrowType) : bool :=
  match t with TPrimitive _ => true | TDictionary t => one_leaf t | _ => false end.

Definition flat_schema `{!TableIo} (s : Schema) : bool := forallb (λ f, one_leaf (type_structure (f_type f))) s.

(** The columns of a mask, in the order of the file. *)
Definition in_order (s : Schema) (idx : list nat) : list nat := List.filter (λ i, bool_decide (i ∈ idx)) (seq 0 (length s)).
Definition projected (s : Schema) (idx : list nat) : Schema := omap (λ i, s !! i) idx.

(** The documented behaviour of the codecs: a Parquet file starts with its magic number
    and holds the schema and the rows of the batches that fit it, the leaf columns of a
    flat schema are its fields, and a mask of them selects them in the order of the file;
    a file without rows has no batches, and what is deflated inflates. *)
Class TableIoLaws `{!TableIo} : Prop := {
  aw_magic props s bs data : aw_bytes props s bs = Ok data → ∃ rest, data = String.list_byte_of_string "PAR1" ++ rest;
  aw_roundtrip props s bs data : Forall (λ b, tb_schema b = s) bs → aw_bytes props s bs = Ok data →
    ∃ f, pq_open data = Ok f ∧ pq_schema f = s ∧ concat (pq_groups f).*2 = concat (tb_rows <$> bs);
  pq_leaves_flat data f : pq_open data = Ok f → flat_schema (pq_schema f) = true → pq_leaves f = f_name <$> pq_schema f;
  pq_mask_flat data f idx : pq_open data = Ok f → flat_schema (pq_schema f) = true → Forall (λ i, i < length (pq_schema f)) idx →
    pq_mask f idx = (projected (pq_schema f) (in_order (pq_schema f) idx), pick (in_order (pq_schema f) idx));
  pq_decode_rows rows : concat (pq_decode rows) = rows;
  pq_decode_nil : pq_decode [] = [];
  inflate_deflate raw level c : deflate raw level = Ok c → inflate c = Ok raw;
}.

Definition OXIA_MAGIC : bytes := String.list_byte_of_string "OXIA".

Section Io.
Context `{!TableIo}.

Definition compress_payload (raw : bytes) (level : Z) : columnar_result bytes :=
  if compress_feature then
    match deflate raw level with Err e => Err (CompressError e) | Ok compressed => Ok (OXIA_MAGIC ++ compressed) end
  else Err (CompressError "OxiARC compression requires the `compress` feature").

Definition decompress_payload (compressed : bytes) : columnar_result bytes :=
  if compress_feature then match inflate compressed with Err e => Err (CompressError e) | Ok raw => Ok raw end
  else Err (CompressError "OxiARC decompression requires the `compress` feature").

Definition write_to_bytes_with_config (config : WriterConfig) (t : ColumnarTable) : columnar_result bytes :=
  let? raw := write_batches_to_bytes_with_config config (schema t) (batches t) in
  match compression t with
  | CompNone => Ok raw
  | OxiArc level => compress_payload raw level
  end.

Definition write_to_bytes : ColumnarTable → columnar_result bytes := write_to_bytes_with_config default_config.

Definition decoded (s : Schema) (rows : list Row) : list TBatch := (λ rows, {| tb_schema := s; tb_rows := rows |}) <$> pq_decode rows.

Definition read_batches_from_bytes (data : bytes) : columnar_result ColumnarTable :=
  let? f := pq_open data in
  Ok {| schema := pq_schema f; batches := decoded (pq_schema f) (concat (pq_groups f).*2); compression := CompNone |}.

Definition payload (data : bytes) : columnar_result bytes :=
  if starts_with data OXIA_MAGIC then decompress_payload (drop (length OXIA_MAGIC) data) else Ok data.

Definition read_from_bytes (data : bytes) : columnar_result ColumnarTable :=
  let? parquet_bytes := payload data in read_batches_from_bytes parquet_bytes.

Record ParquetFileMetaInfo := { num_rows_ : nat; num_row_groups : nat; num_columns : nat; file_size : nat }.

Definition read_metadata_from_bytes (data : bytes) : columnar_result ParquetFileMetaInfo :=
  let? parquet_bytes := payload data in
  let? f := pq_open parquet_bytes in
  Ok {| num_rows_ := length (concat (pq_groups f).*2); num_row_groups := length (pq_groups f);
        num_columns := length (pq_schema f); file_size := length data |}.

(** ** Readers with a projection *)
(** The leaf columns whose name is asked for, in the order of the file. *)
Definition projection (columns : list string) (leaves : SchemaDescriptor) : list nat :=
  omap (λ '(i, c), if bool_decide (c ∈ columns) then Some i else None) (zip (seq 0 (length leaves)) leaves).

(** The batches of a reader with a mask over some groups. *)
Definition masked_batches (f : PqFile) (idx : list nat) (groups : list (RowGroupMetaData * list Row)) : list TBatch :=
  decoded (pq_mask f idx).1 ((pq_mask f idx).2 <$> concat groups.*2).

Definition read_columns (data : bytes) (columns : list string) : columnar_result ColumnarTable :=
  let? f := pq_open data in
  let bs := masked_batches f (projection columns (pq_leaves f)) (pq_groups f) in
  let projected_schema :=
    match bs with
    | first :: _ => tb_schema first
    | [] => List.filter (λ f, bool_decide (f_name f ∈ columns)) (pq_schema f)
    end in
  Ok {| schema := projected_schema; batches := bs; compression := CompNone |}.

Definition surviving_groups (p : Predicate) (f : PqFile) : list (RowGroupMetaData * list Row) :=
  List.filter (λ g, row_group_might_match p g.1 (pq_leaves f)) (pq_groups f).

Definition read_with_projection_and_predicate (data : bytes) (columns : list string) (p : Predicate) : columnar_result ColumnarTable :=
  let? f := pq_open data in
  let bs := masked_batches f (projection columns (pq_leaves f)) (surviving_groups p f) in
  let projected_schema := match bs with first :: _ => tb_schema first | [] => [] end in
  Ok {| schema := projected_schema; batches := bs; compression := CompNone |}.

(** ** Reading into another schema *)
Definition type_conflict (file target : Schema) : option Field :=
  List.find (λ t, match schema_index (f_name t) file with Some (_, f) => negb (bool_decide (f_type f = f_type t)) | None => false end) target.

(** A column of the batch for a field of the target, or nulls. *)
Definition adapt_cell (s : Schema) (r : Row) (t : Field) : Cell :=
  match schema_index (f_name t) s with Some (i, _) => cell i r | None => None end.

Definition adapt_type (s : Schema) (t : Field) : DataType :=
  match schema_index (f_name t) s with Some (_, f) => f_type f | None => f_type t end.

Fixpoint adapt_batches (target : Schema) (bs : list TBatch) : columnar_result (list TBatch) :=
  match bs with
  | [] => Ok []
  | b :: bs =>
      let? b' := try_new target (adapt_type (tb_schema b) <$> target) ((λ r, adapt_cell (tb_schema b) r <$> target) <$> tb_rows b) in
      let? rest := adapt_batches target bs in Ok (b' :: rest)
  end.

Definition read_with_schema (data : bytes) (target : Schema) : columnar_result ColumnarTable :=
  let? f := pq_open data in
  match type_conflict (pq_schema f) target with
  | Some t => Err (SchemaMismatch ("column '" +:+ f_name t +:+ "': file type differs from target type"))
  | None =>
      let columns_to_read := f_name <$> List.filter (λ t, bool_decide (is_Some (schema_index (f_name t) (pq_schema f)))) target in
      let? bs := adapt_batches target (masked_batches f (projection columns_to_read (pq_leaves f)) (pq_groups f)) in
      Ok {| schema := target; batches := bs; compression := CompNone |}
  end.
End Io.

(** ** The builder *)
Record ColumnarTableBuilder := { tb_b_schema : Schema; row_group_size : option Z; tb_b_compression : CompressionMode }.

Definition table_builder_new (s : Schema) : ColumnarTableBuilder := {| tb_b_schema := s; row_group_size := None; tb_b_compression := CompNone |}.
Definition table_builder_row_group_size (n : Z) (b : ColumnarTableBuilder) : ColumnarTableBuilder :=
  {| tb_b_schema := tb_b_schema b; row_group_size := Some n; tb_b_compression := tb_b_compression b |}.
Definition table_builder_compression (level : Z) (b : ColumnarTableBuilder) : ColumnarTableBuilder :=
  {| tb_b_schema := tb_b_schema b; row_group_size := row_group_size b; tb_b_compression := OxiArc (Z.min level 9) |}.
Definition table_build (b : ColumnarTableBuilder) : ColumnarTable :=
  {| schema := tb_b_schema b; batches := []; compression := tb_b_compression b |}.
Definition build_with_config (b : ColumnarTableBuilder) : ColumnarTable * WriterConfig :=
  (table_build b, {| max_row_group_size := row_group_size b |}).
