(* ===== verification/Compress.v ===== *)
(** * [oxistore-compress], the DEFLATE codec, and compressed datasets

    [OxiArcCodec] of [codec.rs], its errors ([lib.rs]) and its use as a codec of Parquet
    pages ([parquet_shim.rs]).  DEFLATE itself is a third-party crate, the class
    [Deflate]; a level is a [u8] given to it. *)

From stdpp Require Import pretty.
From S2P Require Import Prelude Bytes Core Partition PartitionProps PartitionData Table.

Class Deflate := { deflate_bytes : bytes → Z → result bytes string; inflate_bytes : bytes → result bytes string }.
Class DeflateLaws `{!Deflate} : Prop := inflate_deflate_bytes data level c : deflate_bytes data level = Ok c → inflate_bytes c = Ok data.

Inductive CompressError := CeCompress (msg : string) | CeDecompress (msg : string) | CeInvalidLevel (level : Z).

Definition compress_error_display (e : CompressError) : string :=
  match e with
  | CeCompress msg => "compress error: " +:+ msg
  | CeDecompress msg => "decompress error: " +:+ msg
  | CeInvalidLevel level => "invalid compression level " +:+ pretty level +:+ ": valid range is 0–9"
  end.

Definition compress_error_into_store (e : CompressError) : StoreError := Other (compress_error_display e).

(** Every error of the library becomes a decompression error. *)
Definition compress_error_from_oxiarc (msg : string) : CompressError := CeDecompress msg.

Definition DEFAULT_LEVEL : Z := 6.
Definition MAX_LEVEL : Z := 9.

Record OxiArcCodec := { level : Z }.

(** The derived [Default]: the level is the default of [u8]. *)
Definition codec_default : OxiArcCodec := {| level := 0 |}.
Definition codec_new : OxiArcCodec := {| level := DEFAULT_LEVEL |}.
Definition with_level (l : Z) : OxiArcCodec := {| level := if (9 <? l)%Z then 9 else l |}.

(** The argument is a [u32]; the cast to [u8] truncates. *)
Definition new_with_level (l : Z) : result OxiArcCodec CompressError :=
  if (MAX_LEVEL <? l)%Z then Err (CeInvalidLevel l) else Ok {| level := l mod 256 |}.

Section Codec.
Context `{!Deflate}.

Definition codec_compress (c : OxiArcCodec) (data : bytes) : result bytes CompressError := map_err CeCompress (deflate_bytes data (level c)).
Definition codec_decompress (_ : OxiArcCodec) (data : bytes) : result bytes CompressError := map_err CeDecompress (inflate_bytes data).

(** The output buffer is returned on the error path too. *)
Definition decompress_into (data out : bytes) : bytes * result unit CompressError :=
  match inflate_bytes data with
  | Err e => (out, Err (CeDecompress e))
  | Ok decompressed => (out ++ decompressed, Ok ())
  end.

Definition compress_with_hint (c : OxiArcCodec) (data : bytes) (_ : nat) : result bytes CompressError := codec_compress c data.
Definition algorithm_name (_ : OxiArcCodec) : string := "DEFLATE".
Definition compression_level (c : OxiArcCodec) : option Z := Some (level c).

(** ** The Parquet codec; an error is [ParquetError::General] with its text *)
Definition page_compress (c : OxiArcCodec) (input output : bytes) : bytes * result unit string :=
  match codec_compress c input with
  | Err e => (output, Err (compress_error_display e))
  | Ok compressed => (output ++ compressed, Ok ())
  end.

(** The size hint only reserves memory. *)
Definition page_decompress (c : OxiArcCodec) (input output : bytes) (_ : option nat) : bytes * result nat string :=
  match codec_decompress c input with
  | Err e => (output, Err (compress_error_display e))
  | Ok decompressed => (output ++ decompressed, Ok (length decompressed))
  end.
End Codec.

Section Props.
Context `{DF : !Deflate, DL : !DeflateLaws}.

(** A page that is compressed onto a buffer and decompressed onto another by any codec is
    appended as it was, with its length as the result; a buffer is left as it was when
    the call fails. *)
Theorem page_codec_roundtrip c c' data buf out buf' r hint : page_compress c data buf = (buf', r) →
  match r with
  | Ok _ => ∃ packed, buf' = buf ++ packed ∧ page_decompress c' packed out hint = (out ++ data, Ok (length data)) ∧
      decompress_into packed out = (out ++ data, Ok ()) ∧ compress_with_hint c data 0 = Ok packed
  | Err msg => buf' = buf ∧ ∃ e, deflate_bytes data (level c) = Err e ∧ msg = "compress error: " +:+ e
  end.
Proof.
  unfold page_compress, compress_with_hint, codec_compress. destruct (deflate_bytes data (level c)) as [packed|e] eqn:Hd; cbn [map_err]; intros [= <- <-]; [|eauto].
  exists packed. split; [done|]. unfold page_decompress, codec_decompress, decompress_into. by rewrite (inflate_deflate_bytes _ _ _ Hd).
Qed.

(** Every way to make a codec gives a level that DEFLATE has; a level out of range is
    clamped or refused, as documented, and one in range is kept. *)
Theorem codec_levels_valid l : (0 ≤ l)%Z →
  (0 ≤ level (with_level l) ≤ 9)%Z ∧ (l ≤ 9 → level (with_level l) = l)%Z ∧
  (new_with_level l = Ok {| level := l |} ↔ (l ≤ 9)%Z) ∧ (new_with_level l = Err (CeInvalidLevel l) ↔ (9 < l)%Z) ∧
  compression_level codec_new = Some 6%Z.
Proof.
  intros Hl. unfold with_level, new_with_level, MAX_LEVEL. cbn [level]. destruct (9 <? l)%Z eqn:Hlt; [apply Z.ltb_lt in Hlt|apply Z.ltb_ge in Hlt].
  - split; [lia|]. split; [lia|]. split; [split; [done|lia]|]. done.
  - rewrite Z.mod_small by lia. split; [lia|]. split; [done|]. split; [done|]. split; [split; [done|lia]|done].
Qed.

(** The derived default does not have the default level: it stores without compressing. *)
Theorem codec_default_stores data : codec_compress codec_default data = codec_compress (with_level 0) data ∧ codec_default ≠ codec_new.
Proof. done. Qed.
End Props.

(** ** An instance *)
Module ToyDeflate.
#[local] Instance stored : Deflate := {| deflate_bytes data l := if (l <? 10)%Z then Ok (x00 :: data) else Err "level"%string; inflate_bytes data := match data with x00 :: data => Ok data | _ => Err "header"%string end |}.
#[local] Instance stored_laws : DeflateLaws.
Proof. intros data l c. cbn. destruct (l <? 10)%Z; [|done]. by intros [= <-]. Qed.

Lemma page_codec_roundtrip_witness : ∃ packed, page_compress codec_new [x01; x02] [xff] = ([xff] ++ packed, Ok ()) ∧ page_decompress codec_default packed [] None = ([x01; x02], Ok 2).
Proof.
  destruct (page_codec_roundtrip (DF := stored) codec_new codec_default [x01; x02] [xff] [] [xff; x00; x01; x02] (Ok ()) None eq_refl) as (packed & Hbuf & Hdec & _).
  exists packed. split; [|exact Hdec]. rewrite <-Hbuf. reflexivity.
Defined.

Lemma codec_levels_valid_witness : (0 ≤ 200)%Z ∧ level (with_level 200) = 9%Z ∧ new_with_level 200 = Err (CeInvalidLevel 200).
Proof. split; [lia|]. split; [reflexivity|]. apply (codec_levels_valid 200); lia. Defined.
End ToyDeflate.

(** ** The files of a partitioned dataset

    [write_group_to_file] and [read_group_from_file] with both compression modes, over an
    interface to the Parquet encoding of bytes and to DEFLATE: for every mode they are an
    instance of the class [Parquet] of [Partition.v] with its law, so that what is proved
    of datasets holds compressed or not. *)

Class ParquetBytes := {
  pqb_write : list (text * bool) → list PartBatch → result bytes string;
  pqb_read : bytes → result (list PartBatch) string;
  pqb_deflate : bytes → Z → result bytes string;
  pqb_inflate : bytes → result bytes string;
  pqb_compress_feature : bool;
}.

(** Parquet data starts with its own magic bytes. *)
Class ParquetBytesLaws `{!ParquetBytes} : Prop := {
  pqb_roundtrip fields bs data : pqb_write fields bs = Ok data → ∃ bs', pqb_read data = Ok bs' ∧ batch_rows bs' = batch_rows bs;
  pqb_magic fields bs data : pqb_write fields bs = Ok data → starts_with data OXIA_MAGIC = false;
  pqb_inflate_deflate data level c : pqb_deflate data level = Ok c → pqb_inflate c = Ok data;
}.

(** [PartitionedDataset]; the root directory is where the files of [Partition.v] are. *)
Record PartitionedDataset := { ds_root : bytes; ds_partition_columns : list text; ds_compression : CompressionMode }.
Definition dataset_new (root : bytes) (columns : list text) : PartitionedDataset := {| ds_root := root; ds_partition_columns := columns; ds_compression := CompNone |}.
Definition new_single_column (root : bytes) (col : text) : PartitionedDataset := dataset_new root [col].
Definition dataset_with_compression (mode : CompressionMode) (d : PartitionedDataset) : PartitionedDataset :=
  {| ds_root := ds_root d; ds_partition_columns := ds_partition_columns d; ds_compression := mode |}.

Section GroupFiles.
Context `{PB : !ParquetBytes}.

(** The contents of the file of a group; the level is clamped by [with_compression]. *)
Definition write_group_to_file (mode : CompressionMode) (fields : list (text * bool)) (bs : list PartBatch) : part_result bytes :=
  match mode with
  | CompNone => map_err PartParquet (pqb_write fields bs)
  | OxiArc level =>
      let? raw := map_err PartParquet (pqb_write fields bs) in
      if pqb_compress_feature then let? packed := map_err PartCompress (pqb_deflate raw (Z.min level 9)) in Ok (OXIA_MAGIC ++ packed)
      else Err (PartCompress "OxiARC compression requires the `compress` feature")
  end.

Definition read_group_from_file (data : bytes) : part_result (list PartBatch) :=
  if starts_with data OXIA_MAGIC then
    let? raw := (if pqb_compress_feature then map_err PartCompress (pqb_inflate (drop (length OXIA_MAGIC) data))
                 else Err (PartCompress "OxiARC decompression requires the `compress` feature")) in
    map_err PartParquet (pqb_read raw)
  else map_err PartParquet (pqb_read data).

Definition group_files (mode : CompressionMode) : Parquet :=
  {| PqData := bytes; pq_write := write_group_to_file mode; pq_read := read_group_from_file |}.

Lemma starts_with_magic rest : starts_with (OXIA_MAGIC ++ rest) OXIA_MAGIC = true.
Proof. by destruct rest. Qed.

Lemma drop_magic rest : drop (length OXIA_MAGIC) (OXIA_MAGIC ++ rest) = rest.
Proof. done. Qed.

(** The files of a group are read back whatever the mode they were written with: the
    reader tells the modes apart by the first bytes, so a dataset may mix them. *)
Lemma group_file_read {PL : ParquetBytesLaws} mode fields bs data : write_group_to_file mode fields bs = Ok data →
  (∃ bs', read_group_from_file data = Ok bs' ∧ batch_rows bs' = batch_rows bs) ∧ (starts_with data OXIA_MAGIC = true ↔ mode ≠ CompNone).
Proof.
  unfold write_group_to_file, read_group_from_file.
  destruct mode as [|level]; (destruct (pqb_write fields bs) as [raw|] eqn:Hw; [|done]); cbn [map_err];
    destruct (pqb_roundtrip _ _ _ Hw) as (bs' & Hr & Hrows).
  - intros [= <-]. rewrite (pqb_magic _ _ _ Hw), Hr. split; [by exists bs'|by split].
  - destruct pqb_compress_feature; [|done]. destruct (pqb_deflate raw (Z.min level 9)) as [packed|] eqn:Hd; [|done]. intros [= <-].
    change ("O"%byte :: _) with (OXIA_MAGIC ++ packed). rewrite starts_with_magic, drop_magic, (pqb_inflate_deflate _ _ _ Hd).
    cbn [map_err]. rewrite Hr. split; [by exists bs'|done].
Qed.

#[global] Instance group_files_laws {PL : ParquetBytesLaws} mode : @ParquetLaws (group_files mode).
Proof. intros fields bs data Hw. exact (proj1 (group_file_read _ _ _ _ Hw)). Qed.
End GroupFiles.
