(* ===== verification/TableBytes.v ===== *)
(** * Serialised tables

    What the readers of [Table.v] return for the bytes a table was written to. *)

From Stdlib Require Import SpecFloat.
From stdpp Require Import sorting.
From S2P Require Import Prelude Bytes Predicate Table TableProps.

Lemma starts_with_app (a b : bytes) : starts_with (a ++ b) a = true.
Proof. apply starts_with_prefix. by exists b. Qed.

(** ** Projections in the order of the file *)
(** The projection to fields of a flat schema. *)
Abbreviation field_projection columns s := (projection columns (f_name <$> s)).

Lemma projection_aux (columns : list string) (s : SchemaDescriptor) k :
  omap (λ '(i, f), if bool_decide (f ∈ columns) then Some i else None) (zip (seq (S k) (length s)) s)
  = S <$> omap (λ '(i, f), if bool_decide (f ∈ columns) then Some i else None) (zip (seq k (length s)) s).
Proof.
  revert k. induction s as [|f s IH]; intros k; [done|]. csimpl. destruct (bool_decide (f ∈ columns)); csimpl; by rewrite IH.
Qed.

Lemma projection_cons columns f s : field_projection columns (f :: s)
  = (if bool_decide (f_name f ∈ columns) then [0] else []) ++ (S <$> field_projection columns s).
Proof. unfold projection. csimpl. rewrite projection_aux. by destruct (bool_decide _). Qed.

Lemma projection_positions columns s : Forall (λ i, i < length s) (field_projection columns s).
Proof.
  induction s as [|f s IH]; [done|]. rewrite projection_cons. apply Forall_app. split.
  { destruct (bool_decide _); [|done]. apply Forall_singleton. simpl. lia. }
  apply Forall_fmap, (Forall_impl _ _ _ IH). simpl. lia.
Qed.

Lemma projected_S f s idx : projected (f :: s) (S <$> idx) = projected s idx.
Proof. unfold projected. induction idx as [|i idx IH]; [done|]. csimpl. by destruct (s !! i); rewrite IH. Qed.

Lemma projected_filter columns s :
  projected s (field_projection columns s) = List.filter (λ f, bool_decide (f_name f ∈ columns)) s.
Proof.
  induction s as [|f s IH]; [done|]. rewrite projection_cons. cbn [List.filter]. rewrite <-IH, <-(projected_S f s).
  by destruct (bool_decide (f_name f ∈ columns)).
Qed.

(** A requested field has the same index in the projection and is the same column. *)
Lemma schema_index_cons name f s : schema_index name (f :: s)
  = if decide (f_name f = name) then Some (0, f) else prod_map S id <$> schema_index name s.
Proof. done. Qed.

Lemma schema_index_projected columns name s : name ∈ columns →
  match schema_index name s with
  | Some (i, f) => ∃ j, schema_index name (projected s (field_projection columns s)) = Some (j, f) ∧ field_projection columns s !! j = Some i
  | None => schema_index name (projected s (field_projection columns s)) = None
  end.
Proof.
  intros Hin. induction s as [|f s IH]; [done|]. rewrite schema_index_cons, projection_cons.
  assert (∀ j, (S <$> field_projection columns s) !! j = S <$> (field_projection columns s !! j)) as Hlk by (intros; apply list_lookup_fmap).
  destruct (decide (f_name f = name)) as [Hn|Hn].
  - rewrite bool_decide_true by (by rewrite Hn). exists 0. split; [|done]. unfold projected. csimpl. rewrite schema_index_cons. by rewrite decide_True.
  - destruct (bool_decide (f_name f ∈ columns)).
    + change (projected (f :: s) ([0] ++ (S <$> field_projection columns s))) with (f :: projected (f :: s) (S <$> field_projection columns s)).
      rewrite projected_S, schema_index_cons, decide_False by done. destruct (schema_index name s) as [[i g]|].
      * destruct IH as (j & -> & Hj). exists (S j). split; [done|]. simpl. by rewrite Hlk, Hj.
      * by rewrite IH.
    + simpl app. rewrite projected_S. destruct (schema_index name s) as [[i g]|]; [|done]. destruct IH as (j & -> & Hj). exists j. split; [done|].
      by rewrite Hlk, Hj.
Qed.

Lemma schema_index_nodup s i f : NoDup (f_name <$> s) → s !! i = Some f → schema_index (f_name f) s = Some (i, f).
Proof.
  revert i. induction s as [|g s IH]; intros i; [done|]. csimpl. intros [Hg Hnd]%NoDup_cons Hi. rewrite schema_index_cons.
  destruct i as [|i]; simpl in Hi; [simplify_eq; by rewrite decide_True|]. rewrite decide_False; [by rewrite (IH i)|].
  intros Heq. apply Hg. rewrite Heq. apply list_elem_of_fmap. exists f. split; [done|]. by apply list_elem_of_lookup_2 in Hi.
Qed.

Lemma found_projected s idx : NoDup (f_name <$> s) → Forall (λ i, i < length s) idx →
  let found := omap (λ name, schema_index name s) (f_name <$> projected s idx) in found.*1 = idx ∧ found.*2 = projected s idx.
Proof.
  intros Hnd. cbn zeta. unfold projected. induction 1 as [|i idx Hi _ [IH1 IH2]]; [done|]. apply lookup_lt_is_Some in Hi as [f Hf]. csimpl. rewrite Hf.
  csimpl. rewrite (schema_index_nodup _ _ _ Hnd Hf). csimpl. by rewrite IH1, IH2.
Qed.

Lemma projection_sorted columns s : StronglySorted lt (field_projection columns s).
Proof.
  induction s as [|f s IH]; [constructor|]. rewrite projection_cons.
  assert (StronglySorted lt (S <$> field_projection columns s)) as Hs.
  { induction IH as [|i l _ IHl Hl]; constructor; [done|]. apply Forall_fmap. eapply Forall_impl; [exact Hl|]. simpl. lia. }
  destruct (bool_decide _); [|done]. constructor; [done|]. apply Forall_fmap, Forall_true. simpl. lia.
Qed.

Lemma seq_sorted i n : StronglySorted lt (seq i n).
Proof. revert i. induction n as [|n IH]; intros i; constructor; [apply IH|]. apply Forall_forall. intros j [Hj _]%elem_of_seq. lia. Qed.

Lemma filter_sorted (P : nat → bool) l : StronglySorted lt l → StronglySorted lt (List.filter P l).
Proof.
  induction 1 as [|i l _ IH Hl]; simpl; [constructor|]. destruct (P i); [|done]. constructor; [done|].
  apply Forall_forall. intros j [Hj _]%elem_of_list_filter_bool. rewrite Forall_forall in Hl. by apply Hl.
Qed.

(** Sorted lists of positions with the same elements are equal. *)
Lemma sorted_nat_unique (l l' : list nat) : StronglySorted lt l → StronglySorted lt l' → (∀ i, i ∈ l ↔ i ∈ l') → l = l'.
Proof.
  intros Hl Hl' Hin. apply (StronglySorted_unique_strong lt); [lia|done|done|].
  assert (∀ l, StronglySorted lt l → NoDup l) as Hnd.
  { clear. induction 1 as [|i l _ IH Hl]; constructor; [|done]. intros Hi. rewrite Forall_forall in Hl. specialize (Hl _ Hi). lia. }
  by apply NoDup_Permutation; [apply Hnd..|].
Qed.

Lemma in_order_projection columns s : in_order s (field_projection columns s) = field_projection columns s.
Proof.
  apply sorted_nat_unique; [apply filter_sorted, seq_sorted|apply projection_sorted|]. intros i. unfold in_order.
  rewrite elem_of_list_filter_bool, bool_decide_eq_true, elem_of_seq.
  pose proof (projection_positions columns s) as Hp. rewrite Forall_forall in Hp. split; [by intros [_ ?]|]. intros Hi. specialize (Hp _ Hi). split; [lia|done].
Qed.

Section Bytes.
Context `{TI : !TableIo, TL : !TableIoLaws}.

Lemma masked_flat data f idx groups : pq_open data = Ok f → flat_schema (pq_schema f) = true → Forall (λ i, i < length (pq_schema f)) idx →
  masked_batches f idx groups =
  decoded (projected (pq_schema f) (in_order (pq_schema f) idx)) (pick (in_order (pq_schema f) idx) <$> concat groups.*2).
Proof. intros Ho Hf Hi. unfold masked_batches. by rewrite (pq_mask_flat data). Qed.

(** The batches of some columns of a flat file. *)
Lemma masked_columns data f columns groups : pq_open data = Ok f → flat_schema (pq_schema f) = true →
  masked_batches f (projection columns (pq_leaves f)) groups =
  let idx := field_projection columns (pq_schema f) in decoded (projected (pq_schema f) idx) (pick idx <$> concat groups.*2).
Proof.
  intros Ho Hf. rewrite (pq_leaves_flat data) by done. rewrite (masked_flat data) by first [done|apply projection_positions].
  by rewrite in_order_projection.
Qed.

Lemma pq_written config s bs data : write_batches_to_bytes_with_config config s bs = Ok data →
  aw_bytes (build_writer_props_with_config config s) s bs = Ok data.
Proof. unfold write_batches_to_bytes_with_config. by destruct (validate_schema_for_write s). Qed.

Lemma decoded_rows s rows : concat (tb_rows <$> decoded s rows) = rows.
Proof. unfold decoded. rewrite <-list_fmap_compose. rewrite <-(pq_decode_rows rows) at 2. f_equal. apply list_fmap_id. Qed.

(** The file behind the bytes of a table. *)
Lemma table_file config t data : table_ok t → write_to_bytes_with_config config t = Ok data →
  ∃ raw f, payload data = Ok raw ∧ pq_open raw = Ok f ∧ pq_schema f = schema t ∧ concat (pq_groups f).*2 = table_rows t ∧
    (compression t = CompNone → raw = data).
Proof.
  intros [_ Hb]. unfold write_to_bytes_with_config. destruct (write_batches_to_bytes_with_config config _ _) as [raw|] eqn:Hw; [|done]. apply pq_written in Hw.
  destruct (aw_roundtrip _ _ _ _ (Forall_impl _ _ _ Hb (λ b H, proj1 H)) Hw) as (f & Hf & Hs & Hr).
  destruct (compression t) as [|level].
  - intros [= <-]. exists raw, f. split; [|done]. destruct (aw_magic _ _ _ _ Hw) as [rest ->]. done.
  - unfold compress_payload. destruct compress_feature eqn:Hc; [|done]. destruct (deflate raw level) as [c|] eqn:Hd; [|done].
    intros Heq. assert (data = OXIA_MAGIC ++ c) as -> by congruence. exists raw, f. split; [|done]. unfold payload. rewrite starts_with_app. rewrite drop_app_length.
    unfold decompress_payload. by rewrite Hc, (inflate_deflate _ _ _ Hd).
Qed.

(** C11: A well-typed table is read back from its bytes with its schema and its rows,
    compressed or not and whatever the row-group size; the metadata reports its rows and
    columns.  Writing fails only if the schema is refused, the Arrow writer fails,
    compression is asked for in a build without it, or the compressor fails, and with that
    error. *)
Theorem table_bytes_roundtrip config t : table_ok t →
  match write_to_bytes_with_config config t with
  | Ok data =>
      (∃ t', read_from_bytes data = Ok t' ∧ schema t' = schema t ∧ table_rows t' = table_rows t) ∧
      ∃ info, read_metadata_from_bytes data = Ok info ∧ num_rows_ info = row_count t ∧ num_columns info = length (schema t) ∧
        file_size info = length data
  | Err e =>
      let written := aw_bytes (build_writer_props_with_config config (schema t)) (schema t) (batches t) in
      validate_schema_for_write (schema t) = Err e ∨ written = Err e ∨
      ∃ raw level, written = Ok raw ∧ compression t = OxiArc level ∧
        (compress_feature = false ∧ e = CompressError "OxiARC compression requires the `compress` feature" ∨
         ∃ msg, deflate raw level = Err msg ∧ e = CompressError msg)
  end.
Proof.
  intros Hok. destruct (write_to_bytes_with_config config t) as [data|e] eqn:Hw.
  - destruct (table_file _ _ _ Hok Hw) as (raw & f & Hp & Hf & Hs & Hr & _). split.
    + unfold read_from_bytes, read_batches_from_bytes. rewrite Hp, Hf. eexists. split; [done|]. split; [done|].
      unfold table_rows at 1. cbn [batches]. by rewrite decoded_rows.
    + unfold read_metadata_from_bytes. rewrite Hp, Hf. eexists. split; [done|]. cbn. rewrite Hr, Hs, row_count_rows. done.
  - unfold write_to_bytes_with_config, write_batches_to_bytes_with_config in Hw. cbv zeta.
    destruct (validate_schema_for_write (schema t)) as [[]|e'] eqn:Hv; [|left; congruence]. right.
    destruct (aw_bytes _ _ _) as [raw|e']; [right|left; congruence].
    destruct (compression t) as [|level]; [done|]. exists raw, level. split; [done|]. split; [done|]. unfold compress_payload in Hw.
    destruct compress_feature; [|left; split; [done|congruence]]. destruct (deflate raw level) as [c|msg]; [done|]. right. exists msg. split; [done|congruence].
Qed.

(** Reading some columns of a flat table with distinct column names gives what
    projecting the table to them in the order of the file gives. *)
Theorem read_columns_project columns t data : table_ok t → flat_schema (schema t) = true → NoDup (f_name <$> schema t) → compression t = CompNone →
  write_to_bytes t = Ok data →
  let kept := List.filter (λ f, bool_decide (f_name f ∈ columns)) (schema t) in
  ∃ t', read_columns data columns = Ok t' ∧ schema t' = kept ∧
    table_rows t' = pick (field_projection columns (schema t)) <$> table_rows t ∧
    (kept ≠ [] → ∃ t'', project (f_name <$> kept) t = Some (Ok t'') ∧ schema t'' = schema t' ∧ table_rows t'' = table_rows t').
Proof.
  intros Hok Hflat Hnd Hc Hw. cbn zeta. destruct (table_file _ _ _ Hok Hw) as (raw & f & _ & Hf & Hs & Hr & Hraw).
  rewrite (Hraw Hc) in Hf.
  unfold read_columns. rewrite Hf. rewrite <-Hs in Hflat. rewrite (masked_columns data) by done. cbv zeta. rewrite Hs, Hr, projected_filter. eexists. split; [done|]. cbn [schema]. split; [|split].
  - unfold decoded. by destruct (pq_decode _).
  - unfold table_rows at 1. cbn [batches]. apply decoded_rows.
  - intros Hk. pose proof (project_spec (f_name <$> List.filter (λ f, bool_decide (f_name f ∈ columns)) (schema t)) t Hok) as Hp.
    rewrite <-projected_filter in *. cbn zeta in Hp.
    destruct (found_projected (schema t) _ Hnd (projection_positions columns (schema t))) as [H1 H2].
    destruct (omap _ (f_name <$> _)) as [|p found]; [by rewrite <-H2 in Hk|]. destruct Hp as (t'' & Hp & _ & Hs'' & Hr'' & _).
    exists t''. split; [done|]. rewrite Hs'', Hr'', H1, H2. split; [unfold decoded; by destruct (pq_decode _)|].
    unfold table_rows at 2. cbn [batches]. by rewrite decoded_rows.
Qed.

(** ** Reading into another schema *)
Definition compatible (file target : Schema) : Prop :=
  Forall (λ t, match schema_index (f_name t) file with
               | Some (_, f) => f_type f = f_type t ∧ (f_nullable t = true ∨ f_nullable f = false)
               | None => f_nullable t = true
               end) target.

Lemma type_conflict_None file target : compatible file target → type_conflict file target = None.
Proof.
  intros Hc. unfold type_conflict. destruct (List.find _ target) as [t|] eqn:Hf; [|done]. apply find_some in Hf as [Hin Hb].
  unfold compatible in Hc. rewrite Forall_forall in Hc. apply list_elem_of_In, Hc in Hin.
  destruct (schema_index (f_name t) file) as [[i f]|]; [|done]. destruct Hin as [Heq _]. by rewrite bool_decide_true in Hb.
Qed.

(** Through the projection of the file, a field of the target finds the same column. *)
Lemma adapt_projected s target r t :
  let cols := f_name <$> List.filter (λ t, bool_decide (is_Some (schema_index (f_name t) s))) target in
  t ∈ target →
  adapt_cell (projected s (field_projection cols s)) (pick (field_projection cols s) r) t = adapt_cell s r t ∧
  adapt_type (projected s (field_projection cols s)) t = adapt_type s t.
Proof.
  intros cols Ht. unfold adapt_cell, adapt_type. destruct (schema_index (f_name t) s) as [[i f]|] eqn:Hi.
  - assert (f_name t ∈ cols) as Hin.
    { apply list_elem_of_fmap. exists t. split; [done|]. apply elem_of_list_filter_bool. split; [done|]. apply bool_decide_eq_true. by rewrite Hi. }
    pose proof (schema_index_projected cols (f_name t) s Hin) as Hp. rewrite Hi in Hp. destruct Hp as (j & -> & Hj). split; [|done].
    by apply pick_cell.
  - destruct (schema_index (f_name t) (projected s (field_projection cols s))) as [[j f]|] eqn:Hj; [|done].
    apply schema_index_lookup in Hj as [Hj Hn]. rewrite projected_filter in Hj. apply list_elem_of_lookup_2, elem_of_list_filter_bool in Hj as [_ Hc].
    apply bool_decide_eq_true, list_elem_of_fmap in Hc as (t' & Heq & [_ Ht']%elem_of_list_filter_bool). apply bool_decide_eq_true in Ht'.
    rewrite <-Heq, Hn, Hi in Ht'. by destruct Ht'.
Qed.

Lemma compatible_types file target : compatible file target → adapt_type file <$> target = f_type <$> target.
Proof.
  intros Hc. apply list_fmap_ext. intros i t Ht%list_elem_of_lookup_2. unfold compatible in Hc. rewrite Forall_forall in Hc. specialize (Hc t Ht).
  unfold adapt_type. destruct (schema_index (f_name t) file) as [[j f]|]; [|done]. by destruct Hc.
Qed.

Lemma adapt_nulls s target rows : compatible s target →
  batch_ok s {| tb_schema := s; tb_rows := rows |} → null_violation target ((λ r, adapt_cell s r <$> target) <$> rows) = false.
Proof.
  intros Hc (_ & _ & Hn). apply null_violation_false. intros i t r Hi Hf (r' & -> & Hr)%list_elem_of_fmap. unfold cell at 1.
  rewrite list_lookup_fmap, Hi. simpl. unfold compatible in Hc. rewrite Forall_forall in Hc. specialize (Hc t (list_elem_of_lookup_2 _ _ _ Hi)).
  unfold adapt_cell. destruct (schema_index (f_name t) s) as [[j f]|] eqn:Hj; [|congruence]. apply schema_index_lookup in Hj as [Hj _].
  destruct Hc as [_ [?|Hc]]; [congruence|]. by apply (Hn j f).
Qed.

Lemma adapt_batches_spec s target rss : target ≠ [] → compatible s target → batch_ok s {| tb_schema := s; tb_rows := concat rss |} →
  let cols := f_name <$> List.filter (λ t, bool_decide (is_Some (schema_index (f_name t) s))) target in
  let idx := field_projection cols s in
  ∃ bs, adapt_batches target ((λ rows, {| tb_schema := projected s idx; tb_rows := rows |}) <$> (fmap (pick idx) <$> rss)) = Ok bs ∧
    concat (tb_rows <$> bs) = (λ r, adapt_cell s r <$> target) <$> concat rss.
Proof.
  intros Hne Hc Hok cols idx. induction rss as [|rows rss IH]; [by exists []|].
  destruct Hok as (_ & Hl & Hn). cbn [tb_rows concat] in Hl, Hn. apply Forall_app in Hl as [Hl1 Hl2].
  destruct IH as (bs & Hbs & Hrows). { split; [done|]. split; [done|]. intros i f r Hi Hf Hr. apply (Hn i f); [done..|]. set_solver. }
  rewrite !fmap_cons. cbn [adapt_batches tb_schema tb_rows].
  assert (adapt_type (projected s idx) <$> target = f_type <$> target) as ->.
  { rewrite <-(compatible_types s target Hc). apply list_fmap_ext. intros i t Ht%list_elem_of_lookup_2. by apply (adapt_projected s target []). }
  assert ((λ r, adapt_cell (projected s idx) r <$> target) <$> (pick idx <$> rows) = (λ r, adapt_cell s r <$> target) <$> rows) as ->.
  { rewrite <-list_fmap_compose. apply list_fmap_ext. intros i r _. simpl. apply list_fmap_ext. intros k t Ht%list_elem_of_lookup_2.
    by apply (adapt_projected s target r). }
  rewrite try_new_typed by done. rewrite (adapt_nulls s target rows Hc).
  - rewrite Hbs. eexists. split; [done|]. csimpl. by rewrite Hrows, fmap_app.
  - split; [done|]. split; [done|]. intros i f r Hi Hf Hr. apply (Hn i f); [done..|]. cbn [tb_rows] in Hr. set_solver.
Qed.

Lemma concat_fmap_inv {A B} (f : A → B) (rows : list A) (rss' : list (list B)) :
  concat rss' = (f <$> rows : list B) →
  ∃ rss : list (list A), rss' = (((λ l : list A, (f <$> l : list B)) <$> rss) : list (list B)) ∧ concat rss = rows.
Proof.
  revert rows. induction rss' as [|r rss' IH]; intros rows; csimpl.
  - intros Hr. exists []. by destruct rows.
  - intros Hr. symmetry in Hr. apply fmap_app_inv in Hr as (r1 & r2 & -> & Hr2 & ->).
    destruct (IH r2) as (rss & -> & <-); [done|]. by exists (r1 :: rss).
Qed.

(** Reading a flat file into a compatible schema (common columns of the same type, absent ones
    nullable) returns a table of that schema whose rows have, for each field, the value
    of the column of that name in the file, or null; a column whose type differs is
    reported and nothing is returned. *)
Theorem read_with_schema_correct t data target : table_ok t → flat_schema (schema t) = true → compression t = CompNone → write_to_bytes t = Ok data →
  (target ≠ [] → compatible (schema t) target →
   ∃ t', read_with_schema data target = Ok t' ∧ schema t' = target ∧
     table_rows t' = (λ r, adapt_cell (schema t) r <$> target) <$> table_rows t) ∧
  (∀ f, type_conflict (schema t) target = Some f → ∃ msg, read_with_schema data target = Err (SchemaMismatch msg)).
Proof.
  intros Hok Hflat Hc Hw. destruct (table_file _ _ _ Hok Hw) as (raw & f & _ & Hf & Hs & Hr & Hraw). rewrite (Hraw Hc) in Hf.
  unfold read_with_schema. rewrite Hf. rewrite <-Hs in Hflat. rewrite (masked_columns data) by done. cbv zeta. rewrite Hs, Hr. split.
  - intros Hne Hcomp. rewrite type_conflict_None by done. set (cols := f_name <$> _). unfold decoded.
    destruct (concat_fmap_inv (pick (field_projection cols (schema t))) (table_rows t) _ (pq_decode_rows _)) as (rss & -> & Hrss).
    destruct (adapt_batches_spec (schema t) target rss Hne Hcomp) as (bs & Hbs & Hrows).
    { rewrite Hrss. by apply concat_batches_ok; destruct Hok. }
    fold cols in Hbs. simpl in Hbs. setoid_rewrite Hbs. eexists. split; [done|]. split; [done|]. unfold table_rows at 1. cbn [batches]. by rewrite Hrows, Hrss.
  - intros g ->. by eexists.
Qed.

(** A projected and pruned read of a flat file returns the projected rows of the row groups that
    may match.  When none does, the schema of the result is empty, whatever columns
    were asked for. *)
Theorem read_pruned_projection columns p t data : table_ok t → flat_schema (schema t) = true → compression t = CompNone → write_to_bytes t = Ok data →
  ∃ f t', pq_open data = Ok f ∧ read_with_projection_and_predicate data columns p = Ok t' ∧
    table_rows t' = pick (field_projection columns (schema t)) <$> concat (surviving_groups p f).*2 ∧
    (concat (surviving_groups p f).*2 = [] → schema t' = []) ∧
    (concat (surviving_groups p f).*2 ≠ [] → schema t' = List.filter (λ f, bool_decide (f_name f ∈ columns)) (schema t)).
Proof.
  intros Hok Hflat Hc Hw. destruct (table_file _ _ _ Hok Hw) as (raw & f & _ & Hf & Hs & Hr & Hraw). rewrite (Hraw Hc) in Hf.
  unfold read_with_projection_and_predicate. rewrite Hf. rewrite <-Hs in Hflat. rewrite (masked_columns data) by done. cbv zeta. rewrite Hs, projected_filter. eexists f, _. split; [done|]. split; [done|]. split; [|split].
  - unfold table_rows. cbn [batches]. apply decoded_rows.
  - intros Hnil. cbn [schema]. rewrite Hnil. unfold decoded. csimpl. by rewrite pq_decode_nil.
  - intros Hne. cbn [schema]. unfold decoded. destruct (pq_decode _) as [|r rs] eqn:Hd; [|done].
    apply (f_equal (@concat _)) in Hd. rewrite pq_decode_rows in Hd. by destruct (concat (surviving_groups p f).*2).
Qed.
End Bytes.

(** ** An instance: a codec that knows one table *)
Module ToyTable.
#[local] Instance spec_float_eq_dec : EqDecision spec_float.
Proof. solve_decision. Defined.

#[local] Instance Value_eq_dec : EqDecision Value.
Proof. solve_decision. Defined.

Definition fields : Schema :=
  [{| f_name := "id"; f_type := DInt64; f_nullable := false |}; {| f_name := "city"; f_type := DUtf8; f_nullable := true |}].
Definition demo_rows : list Row := [[Some (VInt 2); Some (VStr [])]; [Some (VInt 1); None]; [Some (VInt 3); None]].
Definition demo_table (c : CompressionMode) : ColumnarTable :=
  {| schema := fields; batches := [{| tb_schema := fields; tb_rows := take 2 demo_rows |}; {| tb_schema := fields; tb_rows := drop 2 demo_rows |}];
     compression := c |}.

Definition magic : bytes := String.list_byte_of_string "PAR1".
Definition demo_stats : RowGroupMetaData := {| rg_columns := [Some (StInt64 (Some 1%Z) (Some 3%Z) (Some 0%Z)); None] |}.

#[local] Instance toy_io : TableIo := {|
  arrow_type := TPrimitive;
  ArrowWriter := Schema * list Row;
  aw_try_new _ s := Ok (s, []);
  aw_write b w := ((w.1, w.2 ++ tb_rows b), Ok ());
  aw_close w := if decide (w.1 = fields ∧ w.2 = demo_rows) then Ok magic else Err (ArrowError "another table");
  pq_open data := if decide (data = magic) then Ok {| pq_schema := fields; pq_leaves := ["id"; "city"]; pq_groups := [(demo_stats, demo_rows)] |}
                  else Err (ParquetError "not a Parquet file");
  pq_mask f idx := (projected (pq_schema f) (in_order (pq_schema f) idx), pick (in_order (pq_schema f) idx));
  pq_decode rows := (λ r, [r]) <$> rows;
  deflate raw _ := Ok raw;
  inflate raw := Ok raw;
  compress_feature := true;
|}.

Lemma toy_write_all bs s rows : write_all bs (s, rows) = Ok (s, rows ++ concat (tb_rows <$> bs)).
Proof. revert rows. induction bs as [|b bs IH]; intros rows; csimpl; [by rewrite app_nil_r|]. rewrite IH. simpl. by rewrite <-app_assoc. Qed.

#[local] Instance toy_io_laws : TableIoLaws.
Proof.
  split.
  - intros props s bs data. unfold aw_bytes. cbn [aw_try_new toy_io]. rewrite toy_write_all. simpl. case_decide; [|done]. intros [= <-]. by exists [].
  - intros props s bs data _. unfold aw_bytes. cbn [aw_try_new toy_io]. rewrite toy_write_all. simpl. case_decide as Hd; [|done]. destruct Hd as [-> Hr].
    intros [= <-]. eexists. split; [done|]. split; [done|]. csimpl. by rewrite Hr.
  - intros data f. cbn [pq_open toy_io]. case_decide; [|done]. by intros [= <-].
  - done.
  - intros rows. simpl. induction rows as [|r rows IH]; csimpl; [done|]. by rewrite IH.
  - done.
  - by intros raw level c [= <-].
Qed.

Lemma demo_table_ok c : table_ok (demo_table c).
Proof.
  split; [done|]. repeat constructor; intros i f r Hi Hf Hr; destruct i as [|[|]]; simpl in Hi; simplify_eq; simpl in Hr; set_solver.
Qed.

Lemma demo_written : write_to_bytes (demo_table CompNone) = Ok magic.
Proof. by vm_compute. Qed.

Lemma demo_compressed : write_to_bytes_with_config default_config (demo_table (OxiArc 6)) = Ok (OXIA_MAGIC ++ magic).
Proof. by vm_compute. Qed.

Lemma project_correct_witness : ∃ t', project ["city"; "zip"; "id"] (demo_table CompNone) = Some (Ok t') ∧ row_count t' = 3.
Proof.
  pose proof (project_correct ["city"; "zip"; "id"] (demo_table CompNone) (demo_table_ok _)) as H. simpl in H.
  destruct H as (t' & Hp & _ & _ & _ & Hr & _). exists t'. split; [exact Hp|exact Hr].
Defined.

Lemma table_append_well_typed_witness :
  match merge (demo_table CompNone) (demo_table CompNone) with (t', Ok _) => table_ok t' ∧ table_rows t' = demo_rows ++ demo_rows | _ => False end.
Proof.
  pose proof (table_append_well_typed {| tb_schema := fields; tb_rows := [] |} (demo_table CompNone) (demo_table CompNone) (demo_table_ok _)
    ltac:(split; [done|split; [constructor|set_solver]]) (demo_table_ok _)) as [_ H]. exact H.
Defined.

Lemma table_bytes_roundtrip_witness : ∃ t', read_from_bytes (OXIA_MAGIC ++ magic) = Ok t' ∧ table_rows t' = demo_rows.
Proof.
  pose proof (table_bytes_roundtrip default_config (demo_table (OxiArc 6)) (demo_table_ok _)) as H. rewrite demo_compressed in H.
  destruct H as [(t' & Hr & _ & Ht) _]. exists t'. split; [exact Hr|exact Ht].
Defined.

Lemma read_columns_project_witness : ∃ t', read_columns magic ["city"; "zip"] = Ok t' ∧ table_rows t' = [[Some (VStr [])]; [None]; [None]].
Proof.
  destruct (read_columns_project ["city"; "zip"] (demo_table CompNone) magic (demo_table_ok _) eq_refl ltac:(repeat constructor; set_solver) eq_refl demo_written)
    as (t' & Hr & _ & Ht & _). exists t'. split; [exact Hr|exact Ht].
Defined.

Definition target : Schema :=
  [{| f_name := "city"; f_type := DUtf8; f_nullable := true |}; {| f_name := "age"; f_type := DInt32; f_nullable := true |};
   {| f_name := "id"; f_type := DInt64; f_nullable := false |}].

Lemma read_with_schema_correct_witness : ∃ t', read_with_schema magic target = Ok t' ∧
  table_rows t' = [[Some (VStr []); None; Some (VInt 2)]; [None; None; Some (VInt 1)]; [None; None; Some (VInt 3)]].
Proof.
  destruct (proj1 (read_with_schema_correct (demo_table CompNone) magic target (demo_table_ok _) eq_refl eq_refl demo_written) ltac:(done)) as (t' & Hr & _ & Ht).
  - apply Forall_cons. split; [simpl; auto|]. apply Forall_cons. split; [reflexivity|]. apply Forall_cons. split; [simpl; auto|constructor].
  - exists t'. split; [exact Hr|exact Ht].
Defined.

Lemma read_pruned_projection_witness :
  ∃ t', read_with_projection_and_predicate magic ["city"] (PCmp "id" CGt (SInt64 5)) = Ok t' ∧ schema t' = [].
Proof.
  destruct (read_pruned_projection ["city"] (PCmp "id" CGt (SInt64 5)) (demo_table CompNone) magic (demo_table_ok _) eq_refl eq_refl demo_written)
    as (f & t' & Hf & Hr & _ & Hs & _). exists t'. split; [exact Hr|]. apply Hs. injection Hf as <-. reflexivity.
Defined.

(** A sorting kernel: merge sort of the row numbers by their cells. *)
#[local] Instance toy_sort : SortKernel := {|
  value_le _ x y := match x, y with VInt a, VInt b => (a ≤ b)%Z | _, _ => True end;
  sort_to_indices _ cells descending :=
    let key i := default None (cells !! i) in
    let before i j := match key i, key j with
                      | None, _ => True | Some _, None => False
                      | Some (VInt a), Some (VInt b) => if descending then (b ≤ a)%Z else (a ≤ b)%Z
                      | Some _, Some _ => True end in
    let dec i j : Decision (before i j) := ltac:(unfold before; repeat case_match; apply _) in
    Ok (@merge_sort _ before dec (seq 0 (length cells)));
|}.

#[local] Instance toy_sort_laws : SortLaws.
Proof.
  intros t cells descending idx. cbn [sort_to_indices toy_sort]. intros [= <-]. split; [apply merge_sort_Permutation|].
  set (before := λ i j, _). apply (Sorted_fmap _ before).
  - intros i j. unfold before, cell_before. simpl. repeat case_match; simplify_eq; done.
  - apply Sorted_merge_sort. intros i j. unfold before. repeat case_match; auto; lia.
Qed.

Lemma sort_by_correct_witness : ∃ t', sort_by "id" false (demo_table CompNone) = Some (Ok t') ∧
  Sorted (cell_before DInt64 true) (cell 0 <$> table_rows t').
Proof.
  pose proof (sort_by_correct "id" false (demo_table CompNone) (demo_table_ok _)) as H. simpl in H.
  destruct H as (t' & Hp & _ & _ & _ & Hr). exists t'. split; [exact Hp|exact Hr].
Defined.
End ToyTable.
