(* ===== verification/ColumnarCache.v ===== *)
(** * [oxistore-cache/src/columnar_cache.rs]: a cache of row groups

    [ColumnarRowGroupCache] keeps serialised row groups in the LRU cache of [Lru.v] under
    the name of a file and an index.  The calls read the clock each time they ask the
    cache: [clock n] is the [n]-th reading of a call.  The counters are those of a build
    without overflow checks. *)

From S2P Require Import Prelude Bytes Hashlink Cache Lru Predicate Table TableProps TableBytes.

Record RowGroupKey := { file_id : string; row_group_index : nat }.

#[global] Instance RowGroupKey_eq_dec : EqDecision RowGroupKey.
Proof. solve_decision. Defined.

Section Model.
Context `{TI : !TableIo} {M : Type → Type} `{LM : !LinkedHashMap RowGroupKey M}.
Abbreviation lru := (LruCache bytes M).

Record ColumnarRowGroupCache := { rg_inner : lru; rg_hits : Z; rg_misses : Z }.

Definition rg_new (max_entries : nat) : ColumnarRowGroupCache := {| rg_inner := lru_new max_entries; rg_hits := 0; rg_misses := 0 |}.

Definition rg_set_inner (c : lru) (x : ColumnarRowGroupCache) : ColumnarRowGroupCache :=
  {| rg_inner := c; rg_hits := rg_hits x; rg_misses := rg_misses x |}.
Definition rg_hit (x : ColumnarRowGroupCache) : ColumnarRowGroupCache :=
  {| rg_inner := rg_inner x; rg_hits := wrap64 (rg_hits x + 1); rg_misses := rg_misses x |}.
Definition rg_miss (x : ColumnarRowGroupCache) : ColumnarRowGroupCache :=
  {| rg_inner := rg_inner x; rg_hits := rg_hits x; rg_misses := wrap64 (rg_misses x + 1) |}.

Definition rg_len (x : ColumnarRowGroupCache) : nat := lru_len (rg_inner x).
Definition rg_is_empty (x : ColumnarRowGroupCache) : bool := lru_is_empty (rg_inner x).
Definition rg_cap (x : ColumnarRowGroupCache) : nat := lru_cap (rg_inner x).

Definition rg_get (now : Z) (key : RowGroupKey) (x : ColumnarRowGroupCache) : ColumnarRowGroupCache * option bytes :=
  let '(c, v) := lru_get now key (rg_inner x) in
  let x := rg_set_inner c x in
  (if v is Some _ then rg_hit x else rg_miss x, v).

Definition rg_insert (key : RowGroupKey) (data : bytes) (x : ColumnarRowGroupCache) : ColumnarRowGroupCache :=
  rg_set_inner (lru_put key data (rg_inner x)).1 x.

Definition rg_insert_with_ttl (now : Z) (key : RowGroupKey) (data : bytes) (ttl : Z) (x : ColumnarRowGroupCache) : ColumnarRowGroupCache :=
  rg_set_inner (lru_put_with_ttl now key data ttl (rg_inner x)).1 x.

Definition rg_evict (key : RowGroupKey) (x : ColumnarRowGroupCache) : ColumnarRowGroupCache * option bytes :=
  let '(c, v) := lru_remove key (rg_inner x) in (rg_set_inner c x, v).

Definition rg_invalidate_file (f : string) (x : ColumnarRowGroupCache) : ColumnarRowGroupCache :=
  let keys := (List.filter (λ kv : RowGroupKey * bytes, bool_decide (file_id kv.1 = f)) (lru_iter (rg_inner x))).*1 in
  rg_set_inner (foldl (λ c k, (lru_remove k c).1) (rg_inner x) keys) x.

Definition rg_clear (x : ColumnarRowGroupCache) : ColumnarRowGroupCache := rg_set_inner (lru_clear (rg_inner x)) x.

Definition serialise_row_group (table : ColumnarTable) (i : nat) : columnar_result bytes :=
  match batches table !! i with
  | None => Err (SchemaMismatch "row group index out of range")
  | Some batch => write_to_bytes (push_unchecked batch (table_new (schema table)))
  end.

(** [self.inner.get(&key).map(|v| v.as_slice()).unwrap_or_default()] *)
Definition get_or_default (now : Z) (key : RowGroupKey) (x : ColumnarRowGroupCache) : ColumnarRowGroupCache * columnar_result bytes :=
  let '(c, v) := lru_get now key (rg_inner x) in (rg_set_inner c x, Ok (default [] v)).

Definition load_row_group (clock : nat → Z) (f : string) (i : nat) (table : ColumnarTable) (x : ColumnarRowGroupCache)
    : ColumnarRowGroupCache * columnar_result bytes :=
  let key := {| file_id := f; row_group_index := i |} in
  if lru_contains (clock 0) key (rg_inner x) then get_or_default (clock 1) key (rg_hit x)
  else
    let x := rg_miss x in
    match serialise_row_group table i with
    | Err e => (x, Err e)
    | Ok data => get_or_default (clock 1) key (rg_insert key data x)
    end.

Definition load_row_group_with_ttl (clock : nat → Z) (f : string) (i : nat) (table : ColumnarTable) (ttl : Z) (x : ColumnarRowGroupCache)
    : ColumnarRowGroupCache * columnar_result bytes :=
  let key := {| file_id := f; row_group_index := i |} in
  if lru_contains (clock 0) key (rg_inner x) then get_or_default (clock 1) key (rg_hit x)
  else
    let x := rg_miss x in
    match serialise_row_group table i with
    | Err e => (x, Err e)
    | Ok data => get_or_default (clock 2) key (rg_insert_with_ttl (clock 1) key data ttl x)
    end.

Fixpoint warm_loop (clock : nat → Z) (f : string) (table : ColumnarTable) (idxs : list nat) (x : ColumnarRowGroupCache)
    : ColumnarRowGroupCache * columnar_result unit :=
  match idxs with
  | [] => (x, Ok ())
  | i :: idxs =>
      let key := {| file_id := f; row_group_index := i |} in
      if lru_contains (clock i) key (rg_inner x) then warm_loop clock f table idxs x
      else match serialise_row_group table i with
           | Err e => (x, Err e)
           | Ok data => warm_loop clock f table idxs (rg_insert key data x)
           end
  end.

Definition warm_from_table (clock : nat → Z) (f : string) (table : ColumnarTable) (x : ColumnarRowGroupCache)
    : ColumnarRowGroupCache * columnar_result unit :=
  warm_loop clock f table (seq 0 (length (batches table))) x.

Definition get_as_batch (now : Z) (key : RowGroupKey) (x : ColumnarRowGroupCache) : ColumnarRowGroupCache * columnar_result (option TBatch) :=
  let '(c, v) := lru_get now key (rg_inner x) in
  (rg_set_inner c x,
   match v with
   | None => Ok None
   | Some data => let? t := read_batches_from_bytes data in Ok (head (batches t))
   end).

(** ** Histories: the calls of a client that keeps its tables under the names of their files *)
Inductive RgOp :=
| RgGet (key : RowGroupKey)
| RgLoad (f : string) (i : nat)
| RgLoadTtl (f : string) (i : nat) (ttl : Z)
| RgWarm (f : string)
| RgEvict (key : RowGroupKey)
| RgClear
| RgReplace (f : string) (table : ColumnarTable).

Inductive RgOut := RgBytes (r : columnar_result bytes) | RgOption (r : option bytes) | RgUnit (r : columnar_result unit).

Abbreviation Files := (string → ColumnarTable).
Definition replace_file (f : string) (table : ColumnarTable) (files : Files) : Files := λ g, if decide (g = f) then table else files g.

(** Replacing a table invalidates its row groups. *)
Definition rg_step (clock : nat → Z) (op : RgOp) (fx : Files * ColumnarRowGroupCache) : Files * ColumnarRowGroupCache * RgOut :=
  let '(files, x) := fx in
  match op with
  | RgGet key => let '(x, v) := rg_get (clock 0) key x in (files, x, RgOption v)
  | RgLoad f i => let '(x, r) := load_row_group clock f i (files f) x in (files, x, RgBytes r)
  | RgLoadTtl f i ttl => let '(x, r) := load_row_group_with_ttl clock f i (files f) ttl x in (files, x, RgBytes r)
  | RgWarm f => let '(x, r) := warm_from_table clock f (files f) x in (files, x, RgUnit r)
  | RgEvict key => let '(x, v) := rg_evict key x in (files, x, RgOption v)
  | RgClear => (files, rg_clear x, RgUnit (Ok ()))
  | RgReplace f table => (replace_file f table files, rg_invalidate_file f x, RgUnit (Ok ()))
  end.
End Model.
Arguments ColumnarRowGroupCache : clear implicits.

(** ** What the calls answer *)
Section Theory.
Context `{TI : !TableIo} {M : Type → Type} `{LM : !LinkedHashMap RowGroupKey M, LL : !LinkedHashMapLaws RowGroupKey M}.
Implicit Types (x : ColumnarRowGroupCache M) (files : string → ColumnarTable).

Definition row_group files (k : RowGroupKey) : columnar_result bytes := serialise_row_group (files (file_id k)) (row_group_index k).

(** Everything cached is the row group of the current table. *)
Definition rg_fresh files (c : LruCache bytes M) : Prop := ∀ t k v, lru_peek t k c = Some v → row_group files k = Ok v.

(** The state of a cache of capacity [cap]; [timed] says whether entries may expire. *)
Definition rg_inv (cap : nat) (timed : bool) files (c : LruCache bytes M) : Prop :=
  rg_fresh files c ∧ lru_bounded c ∧ lru_cap c = cap ∧ (timed = false → cache_timeless c).

Lemma rg_inv_get cap timed files c now k : rg_inv cap timed files c →
  rg_inv cap timed files (lru_get now k c).1 ∧ (lru_get now k c).2 = lru_peek now k c.
Proof.
  intros (Hf & Hb & Hc & Ht). destruct (lru_get_entries now k c) as (_ & Hcap & Hr). split; [|by rewrite lru_peek_entries].
  split; [|split; [|split]].
  - intros t k' v Hv. apply (Hf t). exact (cache_get_sub (C:=LruCache bytes M) now t k k' c v I Hv).
  - pose proof (lru_step_bounded (LruGet now k) c Hb) as Hb'. unfold lru_step in Hb'. by destruct (lru_get now k c).
  - congruence.
  - intros Hn t t' k'. destruct (cache_get_exact now t k k' c I (Ht Hn)) as [_ H1].
    destruct (cache_get_exact now t' k k' c I (Ht Hn)) as [_ H2]. etrans; [exact H1|]. etrans; [apply (Ht Hn)|]. symmetry. exact H2.
Qed.

Lemma rg_inv_put cap timed files c k v : rg_inv cap timed files c → row_group files k = Ok v → rg_inv cap timed files (lru_put k v c).1.
Proof.
  intros (Hf & Hb & Hc & Ht) Hv. split; [|split; [|split]].
  - intros t k' v' Hv'. destruct (lru_insert_entry_sub t k (entry_new v) k' v' c Hv') as [[-> ->]|[_ Hv2]]; [done|by apply (Hf t)].
  - by apply lru_insert_bounded.
  - destruct (lru_insert_entry_entries k (entry_new v) c) as (_ & Hcap & _). unfold lru_put. congruence.
  - intros Hn. apply (cache_put_timeless k v c I (Ht Hn)).
Qed.

Lemma rg_inv_put_ttl cap files c now k v ttl : rg_inv cap true files c → row_group files k = Ok v →
  rg_inv cap true files (lru_put_with_ttl now k v ttl c).1.
Proof.
  intros (Hf & Hb & Hc & Ht) Hv. split; [|split; [|split]].
  - intros t k' v' Hv'. destruct (lru_insert_entry_sub t k (entry_with_ttl now v ttl) k' v' c Hv') as [[-> ->]|[_ Hv2]]; [done|by apply (Hf t)].
  - by apply lru_insert_bounded.
  - destruct (lru_insert_entry_entries k (entry_with_ttl now v ttl) c) as (_ & Hcap & _). unfold lru_put_with_ttl. congruence.
  - done.
Qed.

Lemma lru_remove_peek t k k' c : lru_peek t k' (lru_remove k c).1 = if decide (k' = k) then None else lru_peek t k' (c : LruCache bytes M).
Proof. destruct (cache_remove_peek t k k' c I) as [H1 H2]. case_decide; [by apply H1|by apply H2]. Qed.

Lemma lru_contains_peek t k c : lru_contains t k c = true → is_Some (lru_peek t k (c : LruCache bytes M)).
Proof.
  unfold lru_contains, lru_peek. pose proof (opt_live_value (lhm_get k (lru_map c)) t) as Hlive. rewrite Hlive.
  by intros ?%bool_decide_eq_true_1.
Qed.

Lemma rg_inv_remove cap timed files c k : rg_inv cap timed files c → rg_inv cap timed files (lru_remove k c).1.
Proof.
  intros (Hf & Hb & Hc & Ht). destruct (lru_remove_entries k c) as (_ & Hcap & _). split; [|split; [|split]].
  - intros t k' v. rewrite lru_remove_peek. case_decide; [done|]. apply Hf.
  - apply (lru_step_bounded (LruRemove k) c Hb).
  - congruence.
  - intros Hn t t' k'. simpl. rewrite !lru_remove_peek. case_decide; [done|]. apply (Ht Hn).
Qed.

Lemma rg_inv_removes cap timed files ks c : rg_inv cap timed files c →
  rg_inv cap timed files (foldl (λ c k, (lru_remove k c).1) c ks).
Proof. revert c. induction ks as [|k ks IH]; intros c Hc; [done|]. apply IH. by apply rg_inv_remove. Qed.

Lemma lru_removes_peek ks c t k : lru_peek t k (foldl (λ c k, (lru_remove k c).1) c ks : LruCache bytes M) =
  if bool_decide (k ∈ ks) then None else lru_peek t k c.
Proof.
  revert c. induction ks as [|k0 ks IH]; intros c; [done|]. simpl. rewrite IH, lru_remove_peek.
  repeat case_bool_decide; try case_decide; set_solver.
Qed.

(** After [invalidate_file] nothing of the file is cached, and everything else still is. *)
Lemma invalidate_peek f x t k :
  lru_peek t k (rg_inner (rg_invalidate_file f x)) = if decide (file_id k = f) then None else lru_peek t k (rg_inner x).
Proof.
  unfold rg_invalidate_file. cbn [rg_set_inner rg_inner]. rewrite lru_removes_peek. case_decide as Hk.
  - case_bool_decide as Hin; [done|]. rewrite lru_peek_entries. destruct (assoc k _) as [e|] eqn:He; [|done]. destruct Hin.
    apply list_elem_of_fmap. exists (k, value e). split; [done|]. apply list_elem_of_In, filter_In. split; [|by apply bool_decide_eq_true_2].
    apply assoc_elem_of in He; [|apply lru_entries_NoDup]. unfold lru_iter. apply in_map_iff. exists (k, e). split; [done|]. by apply list_elem_of_In.
  - case_bool_decide as Hin; [|done]. destruct Hk. apply list_elem_of_fmap in Hin as ([k' v] & -> & Hin).
    apply list_elem_of_In, filter_In in Hin as [_ Hin]. by apply bool_decide_eq_true_1 in Hin.
Qed.

(** The number of lookups a call counts. *)
Definition counted (op : RgOp) : Z := match op with RgGet _ | RgLoad _ _ | RgLoadTtl _ _ _ => 1 | _ => 0 end.
Definition uses_ttl (op : RgOp) : bool := match op with RgLoadTtl _ _ _ => true | _ => false end.

(** The answer of a call on the current tables.  A load answers the row group; only when
    the entry expires between the test and the lookup does it answer no bytes. *)
Definition rg_correct (timed : bool) (clock : nat → Z) (op : RgOp) files (out : RgOut) : Prop :=
  match op, out with
  | RgGet k, RgOption v | RgEvict k, RgOption v => ∀ data, v = Some data → row_group files k = Ok data
  | RgLoad f i, RgBytes r =>
      (timed = false ∨ clock 1 = clock 0 → r = serialise_row_group (files f) i) ∧ (r = serialise_row_group (files f) i ∨ r = Ok [])
  | RgLoadTtl f i ttl, RgBytes r =>
      (clock 1 = clock 0 → (clock 2%nat < clock 1%nat + ttl)%Z → r = serialise_row_group (files f) i) ∧
      (r = serialise_row_group (files f) i ∨ r = Ok [])
  | RgWarm f, RgUnit (Ok _) => ∀ i, i < length (batches (files f)) → ∃ data, serialise_row_group (files f) i = Ok data
  | RgWarm f, RgUnit (Err e) => ∃ i, i < length (batches (files f)) ∧ serialise_row_group (files f) i = Err e
  | RgClear, RgUnit r | RgReplace _ _, RgUnit r => r = Ok ()
  | _, _ => False
  end.

Definition rg_total x : Z := wrap64 (rg_hits x + rg_misses x).

Lemma wrap64_add_l a b : wrap64 (wrap64 a + b) = wrap64 (a + b).
Proof. unfold wrap64. by rewrite Zplus_mod_idemp_l. Qed.

Lemma rg_total_hit x : rg_total (rg_hit x) = wrap64 (rg_total x + 1).
Proof. unfold rg_total, rg_hit. simpl. rewrite !wrap64_add_l. f_equal. lia. Qed.

Lemma rg_total_miss x : rg_total (rg_miss x) = wrap64 (rg_total x + 1).
Proof. unfold rg_total, rg_miss. simpl. rewrite wrap64_add_l, Z.add_comm, wrap64_add_l. f_equal. lia. Qed.

Lemma get_or_default_spec cap timed files now k x x' r : rg_inv cap timed files (rg_inner x) → get_or_default now k x = (x', r) →
  rg_inv cap timed files (rg_inner x') ∧ rg_total x' = rg_total x ∧ r = Ok (default [] (lru_peek now k (rg_inner x))).
Proof.
  intros Hx. destruct (rg_inv_get _ _ _ _ now k Hx) as [Hi Hr]. unfold get_or_default.
  destruct (lru_get now k (rg_inner x)) as [c v]. simpl in *. subst v. intros [= <- <-]. done.
Qed.

(** The hit branch of the loads. *)
Lemma load_hit cap timed files clock k x x' r : rg_inv cap timed files (rg_inner x) → lru_contains (clock 0) k (rg_inner x) = true →
  get_or_default (clock 1) k (rg_hit x) = (x', r) →
  rg_inv cap timed files (rg_inner x') ∧ rg_total x' = wrap64 (rg_total x + 1) ∧
  (timed = false ∨ clock 1 = clock 0 → r = row_group files k) ∧ (r = row_group files k ∨ r = Ok []).
Proof.
  intros Hx Hin Hg. apply (get_or_default_spec cap timed files) in Hg as (Hi & Ht & ->); [|done].
  split; [done|]. split; [by rewrite Ht, rg_total_hit|]. simpl.
  apply lru_contains_peek in Hin as [v Hv].
  destruct Hx as (Hf & _ & _ & Htl). split.
  - intros Hw. assert (lru_peek (clock 1) k (rg_inner x) = Some v) as ->; [|symmetry; by apply (Hf (clock 0))].
    destruct Hw as [Hw| ->]; [|done]. rewrite <-Hv. apply (Htl Hw).
  - destruct (lru_peek (clock 1) k (rg_inner x)) as [w|] eqn:Hw; [|by right]. left. symmetry. by apply (Hf (clock 1)).
Qed.

Lemma load_spec cap timed files clock f i x x' r : rg_inv cap timed files (rg_inner x) → load_row_group clock f i (files f) x = (x', r) →
  rg_inv cap timed files (rg_inner x') ∧ rg_total x' = wrap64 (rg_total x + 1) ∧ rg_correct timed clock (RgLoad f i) files (RgBytes r).
Proof.
  intros Hx. unfold load_row_group. set (key := {| file_id := f; row_group_index := i |}). cbn zeta.
  destruct (lru_contains _ _ _) eqn:Hin; [by apply load_hit|]. simpl. destruct (serialise_row_group (files f) i) as [data|e] eqn:Hs.
  - intros Hg. apply (get_or_default_spec cap timed files) in Hg as (Hi & Ht & ->); [|by apply rg_inv_put].
    split; [done|]. split; [by rewrite Ht, <-rg_total_miss|]. simpl. assert (lru_peek (clock 1) key (lru_put key data (rg_inner x)).1 = Some data) as ->; [|auto].
    rewrite lru_peek_entries. unfold lru_put. by rewrite lru_insert_lookup, decide_True.
  - intros [= <- <-]. split; [done|]. split; [apply rg_total_miss|auto].
Qed.

Lemma load_ttl_spec cap files clock f i ttl x x' r : rg_inv cap true files (rg_inner x) →
  load_row_group_with_ttl clock f i (files f) ttl x = (x', r) →
  rg_inv cap true files (rg_inner x') ∧ rg_total x' = wrap64 (rg_total x + 1) ∧ rg_correct true clock (RgLoadTtl f i ttl) files (RgBytes r).
Proof.
  intros Hx. unfold load_row_group_with_ttl. set (key := {| file_id := f; row_group_index := i |}). cbn zeta.
  destruct (lru_contains _ _ _) eqn:Hin.
  { intros Hg. apply (load_hit cap true files clock) in Hg as (Hi & Ht & Hr1 & Hr2); [|done..]. split; [done|]. split; [done|]. simpl. auto. }
  simpl. destruct (serialise_row_group (files f) i) as [data|e] eqn:Hs.
  - intros Hg. apply (get_or_default_spec cap true files) in Hg as (Hi & Ht & ->); [|by apply rg_inv_put_ttl].
    split; [done|]. split; [by rewrite Ht, <-rg_total_miss|]. simpl.
    assert (lru_peek (clock 2) key (lru_put_with_ttl (clock 1) key data ttl (rg_inner x)).1 =
      if (clock 1%nat + ttl <=? clock 2%nat)%Z then None else Some data) as ->.
    { rewrite lru_peek_entries. unfold lru_put_with_ttl. by rewrite lru_insert_lookup, decide_True. }
    destruct (Z.leb_spec (clock 1%nat + ttl) (clock 2%nat)); simpl; [|auto]. split; [lia|by right].
  - intros [= <- <-]. split; [done|]. split; [apply rg_total_miss|auto].
Qed.

Lemma warm_spec cap timed files clock f idxs x x' r : rg_inv cap timed files (rg_inner x) → warm_loop clock f (files f) idxs x = (x', r) →
  rg_inv cap timed files (rg_inner x') ∧ rg_total x' = rg_total x ∧
  match r with
  | Ok _ => Forall (λ i, ∃ data, serialise_row_group (files f) i = Ok data) idxs
  | Err e => Exists (λ i, serialise_row_group (files f) i = Err e) idxs
  end.
Proof.
  revert x. induction idxs as [|i idxs IH]; intros x Hx; simpl; [by intros [= <- <-]|]. set (key := {| file_id := f; row_group_index := i |}).
  assert (∀ data y, serialise_row_group (files f) i = Ok data → rg_inv cap timed files (rg_inner y) → rg_total y = rg_total x →
    warm_loop clock f (files f) idxs y = (x', r) → rg_inv cap timed files (rg_inner x') ∧ rg_total x' = rg_total x ∧
    match r with
    | Ok _ => Forall (λ i, ∃ data, serialise_row_group (files f) i = Ok data) (i :: idxs)
    | Err e => Exists (λ i, serialise_row_group (files f) i = Err e) (i :: idxs)
    end) as Hgo.
  { intros data y Hs Hy Ht Hw. destruct (IH _ Hy Hw) as (Hi & Ht' & Hr). split; [done|]. split; [congruence|]. destruct r; [constructor; eauto|by constructor 2]. }
  destruct (lru_contains _ _ _) eqn:Hin.
  - apply lru_contains_peek in Hin as [v Hv]. apply (Hgo v); [|done..]. destruct Hx as [Hf _]. by apply (Hf (clock i) key).
  - destruct (serialise_row_group (files f) i) as [data|e] eqn:Hs; [|intros [= <- <-]; split; [done|split; [done|by constructor]]].
    apply (Hgo data); [done| |done]. by apply rg_inv_put.
Qed.

Lemma rg_inv_clear cap timed files c : rg_inv cap timed files c → rg_inv cap timed files (lru_clear c).
Proof.
  intros (Hf & Hb & Hc & Ht). assert (∀ t k, lru_peek t k (lru_clear c) = None) as Hn.
  { intros t k. exact (cache_clear_peek (V:=bytes) t k c I). }
  split; [|split; [|split; [done|]]].
  - intros t k v. by rewrite Hn.
  - apply (lru_step_bounded LruClear c Hb).
  - intros _ t t' k. simpl. by rewrite !Hn.
Qed.

Lemma rg_inv_replace cap timed files f table x : rg_inv cap timed files (rg_inner x) →
  rg_inv cap timed (replace_file f table files) (rg_inner (rg_invalidate_file f x)).
Proof.
  intros Hx. pose proof (rg_inv_removes cap timed files
    (List.filter (λ kv : RowGroupKey * bytes, bool_decide (file_id kv.1 = f)) (lru_iter (rg_inner x))).*1 _ Hx) as (_ & Hb & Hc & Ht).
  split; [|split; [exact Hb|split; [exact Hc|exact Ht]]]. intros t k v. rewrite invalidate_peek. case_decide as Hk; [done|]. intros Hv.
  unfold row_group, replace_file. rewrite decide_False by done. destruct Hx as [Hf _]. by apply (Hf t).
Qed.

Lemma rg_step_spec cap timed clock op files x files' x' out : (uses_ttl op = true → timed = true) → rg_inv cap timed files (rg_inner x) →
  rg_step clock op (files, x) = (files', x', out) →
  rg_inv cap timed files' (rg_inner x') ∧ rg_total x' = wrap64 (rg_total x + counted op) ∧ rg_correct timed clock op files out.
Proof.
  assert (wrap64 (rg_total x + 0) = rg_total x) as Hz by (unfold rg_total; rewrite wrap64_add_l; f_equal; lia).
  intros Hop Hx. destruct op as [k|f i|f i ttl|f|k| |f table]; simpl.
  - destruct (rg_inv_get _ _ _ _ (clock 0) k Hx) as [Hi Hr]. unfold rg_get. destruct (lru_get _ k (rg_inner x)) as [c v]. simpl in *.
    intros [= <- <- <-]. split; [by destruct v|]. split; [destruct v; [by rewrite rg_total_hit|by rewrite rg_total_miss]|].
    intros data ->. destruct Hx as [Hf _]. by apply (Hf (clock 0)).
  - destruct (load_row_group _ _ _ _ _) as [y r] eqn:Hl. intros [= <- <- <-]. by apply (load_spec cap timed) in Hl.
  - specialize (Hop eq_refl). subst timed. destruct (load_row_group_with_ttl _ _ _ _ _ _) as [y r] eqn:Hl. intros [= <- <- <-].
    by apply (load_ttl_spec cap) in Hl.
  - destruct (warm_from_table _ _ _ _) as [y r] eqn:Hw. intros [= <- <- <-]. apply (warm_spec cap timed) in Hw as (Hi & -> & Hr); [|done].
    split; [done|]. split; [done|]. destruct r as [u|e].
    + intros i Hlt. rewrite Forall_forall in Hr. apply Hr. apply elem_of_seq. lia.
    + apply Exists_exists in Hr as (i & Hi'%elem_of_seq & He). exists i. split; [lia|done].
  - unfold rg_evict. destruct (lru_remove k (rg_inner x)) as [c v] eqn:Hr. intros [= <- <- <-].
    pose proof (rg_inv_remove _ _ _ _ k Hx) as Hi. rewrite Hr in Hi. split; [done|]. split; [by rewrite Hz|]. intros data ->.
    destruct (cache_remove_some k (rg_inner x) data I) as [t Ht]; [by simpl; rewrite Hr|]. destruct Hx as [Hf _]. by apply (Hf t).
  - intros [= <- <- <-]. split; [by apply rg_inv_clear|]. by rewrite Hz.
  - intros [= <- <- <-]. split; [by apply rg_inv_replace|]. by rewrite Hz.
Qed.

#[local] Arguments rg_step : simpl never.

(** A run: every call with the readings of its clock; the trace has the tables each call
    was made with and its answer. *)
Fixpoint rg_run (script : list ((nat → Z) * RgOp)) (fx : (string → ColumnarTable) * ColumnarRowGroupCache M)
    : (string → ColumnarTable) * ColumnarRowGroupCache M * list ((nat → Z) * RgOp * (string → ColumnarTable) * RgOut) :=
  match script with
  | [] => (fx, [])
  | (clock, op) :: script =>
      let '(fx', out) := rg_step clock op fx in
      let '(fx'', trace) := rg_run script fx' in (fx'', (clock, op, fx.1, out) :: trace)
  end.

Lemma rg_run_spec cap timed script files x files' x' trace :
  Forall (λ co : (nat → Z) * RgOp, uses_ttl co.2 = true → timed = true) script → rg_inv cap timed files (rg_inner x) →
  rg_run script (files, x) = (files', x', trace) →
  rg_inv cap timed files' (rg_inner x') ∧ rg_total x' = wrap64 (rg_total x + foldr Z.add 0%Z ((counted ∘ snd) <$> script)) ∧
  Forall (λ '(clock, op, files, out), rg_correct timed clock op files out) trace.
Proof.
  revert files x trace. induction script as [|[clock op] script IH]; intros files x trace Hops Hx; csimpl.
  - intros [= <- <- <-]. split; [done|]. split; [|constructor]. unfold rg_total. rewrite wrap64_add_l. f_equal. lia.
  - apply Forall_cons in Hops as [Hop Hops]. destruct (rg_step clock op (files, x)) as [[files1 x1] out] eqn:Hs; simpl.
    destruct (rg_run script (files1, x1)) as [[files2 x2] trace'] eqn:Hr. intros Heq. injection Heq as <- <- <-.
    destruct (rg_step_spec _ _ _ _ _ _ _ _ _ Hop Hx Hs) as (Hx1 & Ht1 & Hc). destruct (IH _ _ _ Hops Hx1 Hr) as (Hx2 & Ht2 & Htr).
    split; [done|]. split; [|by constructor]. rewrite Ht2, Ht1, wrap64_add_l. f_equal. csimpl. lia.
Qed.

Lemma rg_inv_new cap timed files : rg_inv cap timed files (rg_inner (rg_new cap : ColumnarRowGroupCache M)).
Proof.
  assert (lru_entries (lru_new cap : LruCache bytes M) = []) as He by apply lhm_iter_new.
  split; [|split; [|split; [done|]]].
  - intros t k v. simpl. by rewrite lru_peek_entries, He.
  - intros _. simpl. rewrite He. simpl. lia.
  - intros _ t t' k. simpl. by rewrite !lru_peek_entries, He.
Qed.

(** C16: Over every history of loads, warm-ups, lookups, evictions and replacements of
    tables that invalidate their file, the cache answers only with the serialised row
    groups of the tables as they are at the call: a load returns the row group or the
    error of its serialisation, unless its entry expires during the call, which cannot
    happen without time-to-live loads.  The hit and miss counters add up to the
    lookups, and a positive capacity is never exceeded. *)
Theorem row_group_cache_transparent cap script files files' x' trace :
  rg_run script (files, rg_new cap) = (files', x', trace) →
  let timed := existsb (λ co, uses_ttl co.2) script in
  Forall (λ '(clock, op, files, out), rg_correct timed clock op files out) trace ∧
  wrap64 (rg_hits x' + rg_misses x') = wrap64 (foldr Z.add 0%Z ((counted ∘ snd) <$> script)) ∧
  (0 < cap → rg_len x' ≤ cap).
Proof.
  intros Hr timed. destruct (rg_run_spec cap timed script files (rg_new cap) files' x' trace) as (Hx & Ht & Htr); [| |exact Hr|].
  - apply Forall_forall. intros co Hin Hu. apply existsb_exists. exists co. by rewrite <-list_elem_of_In.
  - apply rg_inv_new.
  - split; [done|]. split; [exact Ht|]. destruct Hx as (_ & Hb & Hc & _). unfold lru_bounded in Hb. rewrite Hc in Hb.
    unfold rg_len, lru_len. by rewrite lhm_len_iter.
Qed.

(** Reading a cached row group back as a batch gives the first batch the decoder
    cuts: its rows are a prefix of those of the row group, all of them only when the
    decoder does not cut.  A row group that is not cached gives none. *)
Theorem get_as_batch_prefix `{TL : !TableIoLaws} files now k x x' r :
  rg_fresh files (rg_inner x) → get_as_batch now k x = (x', r) →
  match lru_peek now k (rg_inner x), batches (files (file_id k)) !! row_group_index k with
  | None, _ => r = Ok None
  | Some _, None => False
  | Some _, Some b => tb_schema b = schema (files (file_id k)) →
      match pq_decode (tb_rows b) with
      | [] => r = Ok None ∧ tb_rows b = []
      | rows :: rest => r = Ok (Some {| tb_schema := tb_schema b; tb_rows := rows |}) ∧ tb_rows b = rows ++ concat rest
      end
  end.
Proof.
  intros Hf Hg. assert (r = match lru_peek now k (rg_inner x) with
                            | None => Ok None | Some data => let? t := read_batches_from_bytes data in Ok (head (batches t)) end) as ->.
  { destruct (lru_get_entries now k (rg_inner x)) as (_ & _ & Hr). rewrite lru_peek_entries, <-Hr.
    unfold get_as_batch in Hg. destruct (lru_get now k (rg_inner x)) as [c v]. by injection Hg as _ <-. }
  destruct (lru_peek now k (rg_inner x)) as [data|] eqn:Hv; [|done]. apply Hf in Hv. unfold row_group, serialise_row_group in Hv.
  destruct (batches _ !! _) as [b|]; [|done]. intros Hs. unfold write_to_bytes, write_to_bytes_with_config in Hv. simpl in Hv.
  destruct (write_batches_to_bytes_with_config _ _ _) as [raw|e] eqn:Hw; [|done]. apply pq_written in Hw. simpl in Hv. injection Hv as ->.
  apply aw_roundtrip in Hw as (f & Ho & Hsch & Hrows); [|by constructor; [|constructor]]. unfold read_batches_from_bytes. rewrite Ho. simpl.
  rewrite Hsch, Hrows. csimpl. rewrite app_nil_r. unfold decoded. pose proof (pq_decode_rows (tb_rows b)) as Hd.
  destruct (pq_decode (tb_rows b)) as [|rows rest]; csimpl; [done|]. by rewrite Hs.
Qed.
End Theory.

(** ** Evaluated on the demo tables *)
Module ToyRowGroups.
Import ToyTable.

Abbreviation toy := (ColumnarRowGroupCache (λ V, list (RowGroupKey * V))).

Definition demo_file (n : nat) : ColumnarTable :=
  {| schema := fields; batches := [{| tb_schema := fields; tb_rows := take n demo_rows |}; {| tb_schema := fields; tb_rows := demo_rows |}];
     compression := CompNone |}.
#[local] Existing Instance toy_io.
#[local] Existing Instance toy_io_laws.

Definition at_once (t : Z) : nat → Z := λ _, t.
Definition slow (t : Z) : nat → Z := λ n, (t + 10 * Z.of_nat n)%Z.
Definition key (i : nat) : RowGroupKey := {| file_id := "a.parquet"; row_group_index := i |}.
Definition demo_script : list ((nat → Z) * RgOp) :=
  [(at_once 0, RgLoad "a.parquet" 1); (at_once 1, RgGet (key 1)); (at_once 2, RgLoad "a.parquet" 7);
   (slow 3, RgLoadTtl "b.parquet" 1 5); (at_once 4, RgReplace "a.parquet" (demo_file 0)); (at_once 5, RgGet (key 1))].

Definition demo_run := rg_run demo_script ((λ _, demo_file 2), (rg_new 2 : toy)).

Lemma demo_answers : snd <$> demo_run.2 =
  [RgBytes (Ok magic); RgOption (Some magic); RgBytes (Err (SchemaMismatch "row group index out of range"));
   RgBytes (Ok []); RgUnit (Ok ()); RgOption None].
Proof. by vm_compute. Qed.

Lemma row_group_cache_transparent_witness :
  wrap64 (rg_hits demo_run.1.2 + rg_misses demo_run.1.2) = 5%Z ∧ rg_len demo_run.1.2 ≤ 2 ∧
  nth_error (snd <$> demo_run.2) 3 = Some (RgBytes (Ok [])).
Proof.
  destruct (row_group_cache_transparent 2 demo_script (λ _, demo_file 2) demo_run.1.1 demo_run.1.2 demo_run.2) as (_ & Ht & Hl).
  - unfold demo_run. destruct (rg_run _ _) as [[? ?] ?]. reflexivity.
  - split; [exact Ht|]. split; [apply Hl; lia|]. rewrite demo_answers. reflexivity.
Defined.

Lemma demo_fresh (files : string → ColumnarTable) :
  rg_fresh files (rg_inner (load_row_group (at_once 0) "a.parquet" 1 (files "a.parquet") (rg_new 2 : toy)).1).
Proof.
  destruct (load_row_group _ _ _ _ _) as [y r] eqn:Hl. by apply (load_spec 2 false files) in Hl as ((Hf & _) & _); [|apply rg_inv_new].
Qed.

Lemma get_as_batch_prefix_witness :
  (get_as_batch 0 (key 1) (load_row_group (at_once 0) "a.parquet" 1 (demo_file 2) (rg_new 2 : toy)).1).2
  = Ok (Some {| tb_schema := fields; tb_rows := take 1 demo_rows |}).
Proof.
  set (x := (load_row_group (at_once 0) "a.parquet" 1 (demo_file 2) (rg_new 2 : toy)).1).
  destruct (get_as_batch 0 (key 1) x) as [x' r] eqn:Hg.
  pose proof (get_as_batch_prefix (λ _, demo_file 2) 0 (key 1) x x' r) as H.
  assert (lru_peek 0 (key 1) (rg_inner x) = Some magic) as Hp by by vm_compute. rewrite Hp in H.
  destruct H as [Hr _].
  - apply (demo_fresh (λ _, demo_file 2)).
  - exact Hg.
  - reflexivity.
  - exact Hr.
Defined.
End ToyRowGroups.
