(* ===== verification/TableFiles.v ===== *)
(** * Columnar files and streams

    The file functions of [writer.rs], [reader.rs] and [lib.rs] over the file system of
    [LocalBlob.v], and the incremental writer and reader of [streaming.rs].  A file whose
    writer fails holds some part of the data, which is an argument of the model. *)

From S2P Require Import Prelude Bytes Core Encrypt Blob LocalBlob LocalProps Predicate Table TableProps TableBytes.

Section Model.
Context `{!TableIo}.

Definition columnar_io {A} (r : io_result A) : columnar_result A := map_err (λ e, ColumnarIo (io_message e)) r.

(** [partial] is what the file holds when the writer fails. *)
Definition write_batches_with_config (partial : bytes) (p : path) (config : WriterConfig) (s : Schema) (bs : list TBatch) (fs : Fs) : Fs * columnar_result unit :=
  match validate_schema_for_write s with
  | Err e => (fs, Err e)
  | Ok _ =>
      match fs_write p [] fs with
      | (fs, Err e) => (fs, columnar_io (Err e))
      | (fs, Ok _) =>
          match aw_bytes (build_writer_props_with_config config s) s bs with
          | Ok data => let '(fs, r) := fs_write p data fs in (fs, columnar_io r)
          | Err e => ((fs_write p partial fs).1, Err e)
          end
      end
  end.

Definition write_batches (partial : bytes) (p : path) : Schema → list TBatch → Fs → Fs * columnar_result unit :=
  write_batches_with_config partial p default_config.

Definition table_write_to (partial : bytes) (p : path) (t : ColumnarTable) : Fs → Fs * columnar_result unit := write_batches partial p (schema t) (batches t).
Definition table_write_to_with_config (partial : bytes) (p : path) (config : WriterConfig) (t : ColumnarTable) : Fs → Fs * columnar_result unit :=
  write_batches_with_config partial p config (schema t) (batches t).

Definition read_batches (fs : Fs) (p : path) : columnar_result (list TBatch) :=
  let? data := columnar_io (fs_read fs p false) in
  let? f := pq_open data in Ok (decoded (pq_schema f) (concat (pq_groups f).*2)).

Definition table_read_from (fs : Fs) (p : path) : columnar_result ColumnarTable :=
  let? bs := read_batches fs p in
  Ok {| schema := match bs with first :: _ => tb_schema first | [] => [] end; batches := bs; compression := CompNone |}.

Definition read_batches_with_projection (fs : Fs) (p : path) (column_indices : list nat) : columnar_result (list TBatch) :=
  let? data := columnar_io (fs_read fs p false) in
  let? f := pq_open data in
  Ok (masked_batches f column_indices (pq_groups f)).

Record ParquetFileMetadata := { pm_schema : Schema; pm_num_rows : nat; pm_num_row_groups : nat; pm_num_columns : nat; pm_file_size : nat }.

Definition read_metadata (fs : Fs) (p : path) : columnar_result ParquetFileMetadata :=
  let? data := columnar_io (fs_read fs p false) in
  let? f := pq_open data in
  Ok {| pm_schema := pq_schema f; pm_num_rows := length (concat (pq_groups f).*2); pm_num_row_groups := length (pq_groups f);
        pm_num_columns := length (pq_schema f); pm_file_size := length data |}.

(** ** [streaming.rs] *)
Record ColumnarStreamWriter := { stream_writer : ArrowWriter }.

Definition stream_new (s : Schema) (props : option WriterProperties) : columnar_result ColumnarStreamWriter :=
  let effective_props := default (build_writer_props s) props in
  let? writer := aw_try_new effective_props s in Ok {| stream_writer := writer |}.

Definition write_batch (b : TBatch) (w : ColumnarStreamWriter) : ColumnarStreamWriter * columnar_result unit :=
  let '(writer, r) := aw_write b (stream_writer w) in ({| stream_writer := writer |}, r).

(** The content of the sink. *)
Definition finish (w : ColumnarStreamWriter) : columnar_result bytes := aw_close (stream_writer w).

Record ColumnarStreamReader := { stream_schema : Schema; stream_rest : list TBatch }.

Definition from_bytes (data : bytes) : columnar_result ColumnarStreamReader :=
  let? f := pq_open data in Ok {| stream_schema := pq_schema f; stream_rest := decoded (pq_schema f) (concat (pq_groups f).*2) |}.

Definition stream_next (r : ColumnarStreamReader) : ColumnarStreamReader * option (columnar_result TBatch) :=
  match stream_rest r with
  | [] => (r, None)
  | b :: rest => ({| stream_schema := stream_schema r; stream_rest := rest |}, Some (Ok b))
  end.

(** ** Clients of a stream *)
(** Writes batch after batch and finishes, stopping at the first error. *)
Fixpoint stream_all (bs : list TBatch) (w : ColumnarStreamWriter) : columnar_result bytes :=
  match bs with
  | [] => finish w
  | b :: bs => match write_batch b w with (w, Ok _) => stream_all bs w | (_, Err e) => Err e end
  end.

(** The batches that [n] calls of [next] yield. *)
Fixpoint stream_take (n : nat) (r : ColumnarStreamReader) : ColumnarStreamReader * list TBatch :=
  match n with
  | 0 => (r, [])
  | S n => match stream_next r with
           | (r, Some (Ok b)) => let '(r, bs) := stream_take n r in (r, b :: bs)
           | (r, _) => (r, [])
           end
  end.
End Model.

(** ** Types that can be written *)
Fixpoint has_union (t : ArrowType) : bool :=
  match t with
  | TUnion _ => true
  | TList t | TMap t | TDictionary t | TRunEndEncoded t => has_union t
  | TStruct ts => existsb has_union ts
  | TPrimitive _ => false
  end.

Fixpoint arrow_ind (P : ArrowType → Prop) (HP : ∀ n, P (TPrimitive n)) (HU : ∀ n, P (TUnion n)) (HL : ∀ t, P t → P (TList t))
    (HM : ∀ t, P t → P (TMap t)) (HS : ∀ ts, Forall P ts → P (TStruct ts)) (HD : ∀ t, P t → P (TDictionary t))
    (HR : ∀ t, P t → P (TRunEndEncoded t)) (t : ArrowType) : P t :=
  let rec := arrow_ind P HP HU HL HM HS HD HR in
  match t with
  | TPrimitive n => HP n | TUnion n => HU n | TList t => HL t (rec t) | TMap t => HM t (rec t) | TDictionary t => HD t (rec t)
  | TRunEndEncoded t => HR t (rec t)
  | TStruct ts => HS ts ((fix all (ts : list ArrowType) : Forall P ts := match ts return Forall P ts with [] => Forall_nil_2 P | t :: ts => Forall_cons_2 P t ts (rec t) (all ts) end) ts)
  end.

Lemma check_datatype_spec t : match check_datatype t with Ok _ => has_union t = false | Err e => has_union t = true ∧ ∃ msg, e = UnsupportedType msg end.
Proof.
  induction t as [n|n|t IH|t IH|ts IH|t IH|t IH] using arrow_ind; try exact IH; [done|split; [done|by eexists]|].
  cbn [check_datatype has_union]. induction IH as [|t ts Ht _ IH]; [done|]. cbn [existsb]. destruct (check_datatype t) as [[]|e].
  - rewrite Ht. exact IH.
  - destruct Ht as [-> Ht]. done.
Qed.

Section Props.
Context `{TI : !TableIo, TL : !TableIoLaws}.

Lemma validate_schema_spec s : match validate_schema_for_write s with
  | Ok _ => Forall (λ f, has_union (type_structure (f_type f)) = false) s
  | Err e => Exists (λ f, has_union (type_structure (f_type f)) = true) s ∧ ∃ msg, e = UnsupportedType msg
  end.
Proof.
  induction s as [|f s IH]; cbn [validate_schema_for_write]; [constructor|]. pose proof (check_datatype_spec (type_structure (f_type f))) as Hf.
  destruct (check_datatype _) as [[]|e].
  - destruct (validate_schema_for_write s); [by constructor|]. destruct IH. split; [by constructor 2|done].
  - destruct Hf. split; [by constructor|done].
Qed.

(** ** Files *)
Lemma write_then_read p data data' fs fs1 : fs_wf fs → Forall name_ok p → fs_write p data fs = (fs1, Ok ()) →
  ∃ fs2, fs_write p data' fs1 = (fs2, Ok ()) ∧ fs_read fs2 p false = Ok data' ∧ fs2 = <[p := NFile data']> fs.
Proof.
  intros Hwf Hp. unfold fs_write. destruct (fs_can_create fs p) as [[]|] eqn:Hc; [|done]. intros [= <-].
  destruct p as [|n q _] using rev_ind; [done|]. apply Forall_app in Hp as [Hq Hn]. apply Forall_cons in Hn as [Hn _].
  apply can_create_spec in Hc as [Hd Hnd]; [|done]. assert (q ≠ q ++ [n]) as Hne by (intros He; apply (f_equal length) in He; rewrite length_app in He; simpl in He; lia).
  rewrite can_create_ok.
  - eexists. split; [done|]. rewrite insert_insert_eq. split; [|done]. unfold fs_read.
    assert (fs_wf (<[q ++ [n] := NFile data']> fs)) as Hwf' by (by apply wf_insert).
    rewrite (walk_Some _ [] (q ++ [n]) (NFile data') Hwf'); [done| |by destruct q]. apply lookup_insert_eq.
  - by apply wf_insert.
  - by apply dir_at_insert.
  - by rewrite lookup_insert_eq.
Qed.

(** A table written to a file is read back with its rows, and with its schema if it has
    any rows: a table without rows comes back without columns.  When the schema is flat,
    the columns of a projection are those of the file in its order; and the metadata is that of the table.
    A failed write changes at most that one file; a type that cannot be written is
    refused before the file is touched. *)
Theorem table_file_roundtrip partial p config t fs fs' r : table_ok t → fs_wf fs → Forall name_ok p →
  table_write_to_with_config partial p config t fs = (fs', r) →
  (∀ q, q ≠ p → fs' !! q = fs !! q) ∧
  match r with
  | Ok _ =>
      (∃ t', table_read_from fs' p = Ok t' ∧ table_rows t' = table_rows t ∧ schema t' = if decide (table_rows t = []) then [] else schema t) ∧
      (∀ idx, flat_schema (schema t) = true → Forall (λ i, i < length (schema t)) idx →
         ∃ bs, read_batches_with_projection fs' p idx = Ok bs ∧ concat (tb_rows <$> bs) = pick (in_order (schema t) idx) <$> table_rows t) ∧
      ∃ info, read_metadata fs' p = Ok info ∧ pm_schema info = schema t ∧ pm_num_rows info = row_count t
  | Err e => (∃ msg, e = UnsupportedType msg) ∧ fs' = fs ∨
      Forall (λ f, has_union (type_structure (f_type f)) = false) (schema t)
  end.
Proof.
  intros Hok Hwf Hp. unfold table_write_to_with_config, write_batches_with_config.
  pose proof (validate_schema_spec (schema t)) as Hval. destruct (validate_schema_for_write (schema t)) as [[]|e].
  2: { destruct Hval as [_ Hmsg]. intros [= <- <-]. split; [done|]. left. done. }
  destruct (fs_write p [] fs) as [fs1 [[]|e]] eqn:Hw.
  2: { unfold fs_write in Hw. destruct (fs_can_create fs p); [done|]. injection Hw as <- _. intros [= <- <-]. split; [done|]. right. exact Hval. }
  destruct (aw_bytes _ _ _) as [data|e] eqn:Ha.
  2: { destruct (write_then_read p [] partial fs fs1 Hwf Hp Hw) as (fs2 & Hw2 & _ & Hfs2). rewrite Hw2. intros [= <- <-]. split; [|right; exact Hval].
       intros q Hq. rewrite Hfs2. by apply lookup_insert_ne. }
  destruct (write_then_read p [] data fs fs1 Hwf Hp Hw) as (fs2 & Hw2 & Hread & Hfs2). rewrite Hw2. intros [= <- <-].
  split; [intros q Hq; rewrite Hfs2; by apply lookup_insert_ne|].
  destruct (aw_roundtrip _ _ _ _ (Forall_impl _ _ _ (proj2 Hok) (λ b H, proj1 H)) Ha) as (f & Hf & Hs & Hr). fold (table_rows t) in Hr.
  unfold table_read_from, read_batches, read_batches_with_projection, read_metadata. rewrite Hread. cbn [columnar_io map_err]. rewrite Hf, Hs, Hr.
  split; [|split].
  - eexists. split; [done|]. split; [apply decoded_rows|]. cbn [schema]. unfold decoded. case_decide as Hnil; [by rewrite Hnil, pq_decode_nil|].
    destruct (pq_decode (table_rows t)) as [|rs rss] eqn:Hd; [|done]. apply (f_equal (@concat _)) in Hd. by rewrite pq_decode_rows in Hd.
  - intros idx Hflat Hidx. eexists. split; [done|]. rewrite <-Hs in *. by rewrite (masked_flat data), decoded_rows, Hr.
  - eexists. split; [done|]. split; [done|]. cbn [pm_num_rows]. by rewrite row_count_rows.
Qed.

(** ** Streams *)
Lemma stream_all_bytes bs w : stream_all bs {| stream_writer := w |} = let? w := write_all bs w in aw_close w.
Proof. revert w. induction bs as [|b bs IH]; intros w; [done|]. cbn [stream_all write_all]. unfold write_batch. cbn [stream_writer]. destruct (aw_write b w) as [w' [[]|e]]; [apply IH|done]. Qed.

Lemma stream_take_all n s bs : length bs ≤ n → stream_take n {| stream_schema := s; stream_rest := bs |} = ({| stream_schema := s; stream_rest := [] |}, bs).
Proof.
  revert n. induction bs as [|b bs IH]; intros [|n] Hn; simpl in *; try lia; [done|done|]. by rewrite IH by lia.
Qed.

(** Streaming batches one at a time gives the bytes of writing them at once, for
    every schema that writing at once accepts; and reading those bytes as a stream gives
    every row once, in order, and then ends. *)
Theorem stream_is_bulk_write s bs : Forall (λ f, has_union (type_structure (f_type f)) = false) s → Forall (λ b, tb_schema b = s) bs →
  (let? w := stream_new s None in stream_all bs w) = write_batches_to_bytes_with_config default_config s bs ∧
  ∀ data, write_batches_to_bytes_with_config default_config s bs = Ok data →
    ∃ rd rd' bs', from_bytes data = Ok rd ∧ stream_schema rd = s ∧ stream_take (length (stream_rest rd)) rd = (rd', bs') ∧
      concat (tb_rows <$> bs') = concat (tb_rows <$> bs) ∧ (stream_next rd').2 = None.
Proof.
  intros Hs Hbs. split.
  - unfold write_batches_to_bytes_with_config, stream_new, aw_bytes. pose proof (validate_schema_spec s) as Hval.
    destruct (validate_schema_for_write s) as [[]|e].
    + cbn [default]. unfold build_writer_props. destruct (aw_try_new _ s) as [w|e]; [|done]. apply stream_all_bytes.
    + destruct Hval as [Hex _]. apply Exists_exists in Hex as (f & Hf & Hu). rewrite Forall_forall in Hs. by rewrite (Hs f Hf) in Hu.
  - intros data Hd%pq_written. destruct (aw_roundtrip _ _ _ _ Hbs Hd) as (f & Hf & Hsch & Hr). unfold from_bytes. rewrite Hf, Hsch.
    eexists _, _, _. split; [done|]. split; [done|]. split; [by apply stream_take_all|]. split; [|done]. by rewrite decoded_rows, Hr.
Qed.
End Props.

(** ** Instances *)
Module ToyFiles.
Import ToyTable.
#[local] Existing Instance toy_io.
#[local] Existing Instance toy_io_laws.

Definition demo_path : path := [String.list_byte_of_string "t.parquet"].

Lemma demo_path_ok : Forall name_ok demo_path.
Proof. repeat constructor; try discriminate. apply (bool_decide_eq_false_1 (SLASH ∈ _)). vm_compute. reflexivity. Qed.

Lemma empty_wf : fs_wf ∅.
Proof. split; [done|]. intros p n node. by rewrite lookup_empty. Qed.

Lemma table_file_roundtrip_witness : ∃ t', table_read_from {[demo_path := NFile magic]} demo_path = Ok t' ∧ table_rows t' = demo_rows ∧ schema t' = fields.
Proof.
  destruct (table_file_roundtrip [] demo_path default_config (demo_table CompNone) ∅ {[demo_path := NFile magic]} (Ok ()) (demo_table_ok _) empty_wf demo_path_ok)
    as [_ [(t' & Hr & Ht & Hs) _]].
  - reflexivity.
  - exists t'. split; [exact Hr|]. split; [exact Ht|]. exact Hs.
Defined.

Lemma stream_is_bulk_write_witness : (let? w := stream_new fields None in stream_all (batches (demo_table CompNone)) w) = Ok magic.
Proof.
  refine (eq_trans (proj1 (stream_is_bulk_write fields (batches (demo_table CompNone)) _ _)) _).
  - repeat constructor.
  - repeat constructor.
  - reflexivity.
Defined.
End ToyFiles.
