(* ===== verification/ColumnarApi.v ===== *)
(** * The surface of [oxistore-columnar]

    The trait [ColumnarStore] with its one instance, filters on tables, the path-based
    readers with a predicate, errors as text and [open_columnar] of the facade.  The
    theorem composes writing, row-group pruning and filtering: pushing a predicate down to
    a file gives what filtering the table gives. *)

From Stdlib Require Import SpecFloat.
From stdpp Require Import pretty.
From S2P Require Import Prelude Bytes Core Encrypt Blob LocalBlob LocalProps Predicate PredicateProps Table TableProps TableBytes TableFiles.

Definition columnar_error_display (e : ColumnarError) : string :=
  match e with
  | ColumnarIo e => "columnar I/O error: " +:+ e
  | ArrowError e => "Arrow error: " +:+ e
  | ParquetError e => "Parquet error: " +:+ e
  | SchemaMismatch msg => "schema mismatch: " +:+ msg
  | CompressError msg => "compression error: " +:+ msg
  | UnsupportedType msg => "unsupported Arrow type: " +:+ msg
  | ColumnarManifest msg => "partition manifest error: " +:+ msg
  end.

Definition table_display (t : ColumnarTable) : string :=
  "ColumnarTable(schema=" +:+ pretty (length (schema t)) +:+ " cols, " +:+ pretty (length (batches t)) +:+ " batches, "
    +:+ pretty (row_count t) +:+ " rows)".

Section Model.
Context `{TI : !TableIo} (float_cmp : DataType → CmpOp → spec_float → spec_float → bool).

(** [ColumnarTable::filter] *)
Fixpoint filter_tbatches (p : Predicate) (bs : list TBatch) : columnar_result (list TBatch) :=
  match bs with
  | [] => Ok []
  | b :: bs =>
      let? mask := evaluate_batch float_cmp p (plain_batch b) in
      let rows := filter_rows (tb_rows b) mask in
      let? rest := filter_tbatches p bs in
      Ok (match rows with [] => rest | _ => {| tb_schema := tb_schema b; tb_rows := rows |} :: rest end)
  end.

Definition table_filter (p : Predicate) (t : ColumnarTable) : columnar_result ColumnarTable :=
  let? filtered := filter_tbatches p (batches t) in
  Ok {| schema := schema t; batches := filtered; compression := compression t |}.

(** [read_with_predicate_from_bytes] *)
Definition table_read_with_predicate (data : bytes) (p : Predicate) : columnar_result ColumnarTable :=
  let? f := pq_open data in
  Ok {| schema := pq_schema f; batches := decoded (pq_schema f) (concat (surviving_groups p f).*2); compression := CompNone |}.

(** The functions of [lib.rs] on paths *)
Definition file_read_with_predicate (fs : Fs) (p : path) (predicate : Predicate) : columnar_result (list TBatch) :=
  let? data := columnar_io (fs_read fs p false) in
  let? table := table_read_with_predicate data predicate in
  Ok (batches table).

Definition file_read_with_projection_and_predicate (fs : Fs) (p : path) (projection : list string) (predicate : Predicate)
    : columnar_result (list TBatch) :=
  let? data := columnar_io (fs_read fs p false) in
  let? table := read_with_projection_and_predicate data projection predicate in
  Ok (batches table).

(** [open_columnar] of the facade *)
Definition open_columnar (fs : Fs) (p : path) : store_result ColumnarTable :=
  map_err (λ e, Other (columnar_error_display e)) (table_read_from fs p).

(** ** The trait *)
Class ColumnarStore (T : Type) := {
  cs_schema : T → Schema;
  cs_batches : T → list TBatch;
  cs_compression : T → CompressionMode;
  cs_row_count : T → nat;
  cs_push : TBatch → T → T * columnar_result unit;
  cs_push_unchecked : TBatch → T → T;
  cs_project : list string → T → option (columnar_result ColumnarTable);
  cs_sort_by : string → bool → T → option (columnar_result ColumnarTable);
  cs_filter : Predicate → T → columnar_result ColumnarTable;
  cs_write_to_bytes : T → columnar_result bytes;
  cs_write_to : bytes → path → T → Fs → Fs * columnar_result unit;
  cs_write_to_bytes_with_config : WriterConfig → T → columnar_result bytes;
  cs_write_to_with_config : bytes → path → WriterConfig → T → Fs → Fs * columnar_result unit;
}.

#[global] Instance table_columnar_store `{!SortKernel} : ColumnarStore ColumnarTable := {|
  cs_schema := schema;
  cs_batches := batches;
  cs_compression := compression;
  cs_row_count := row_count;
  cs_push := push;
  cs_push_unchecked := push_unchecked;
  cs_project := project;
  cs_sort_by := sort_by;
  cs_filter := table_filter;
  cs_write_to_bytes := write_to_bytes;
  cs_write_to := table_write_to;
  cs_write_to_bytes_with_config := write_to_bytes_with_config;
  cs_write_to_with_config := table_write_to_with_config;
|}.
End Model.

(** ** Pushing a predicate down *)
(** The statistics of a file with a flat schema bound the values of their groups. *)
Class StatsLaw `{!TableIo} : Prop :=
  pq_stats data f : pq_open data = Ok f → flat_schema (pq_schema f) = true → Forall (group_ok ((λ f, (f_name f, f_type f)) <$> pq_schema f)) (pq_groups f).

Section Pushdown.
Context `{TI : !TableIo, TL : !TableIoLaws, SL : !StatsLaw} (float_cmp : DataType → CmpOp → spec_float → spec_float → bool).

Lemma filter_tbatches_plain p bs : filter_batches float_cmp p (plain_batch <$> bs) = result_map (fmap plain_batch) (filter_tbatches float_cmp p bs).
Proof.
  induction bs as [|b bs IH]; csimpl; [done|]. destruct (evaluate_batch float_cmp p (plain_batch b)) as [mask|]; simpl; [|done]. rewrite IH.
  destruct (filter_tbatches float_cmp p bs) as [rest|]; simpl; [|done]. by destruct (filter_rows (tb_rows b) mask).
Qed.

Lemma plain_rows (bs : list TBatch) : concat (b_rows <$> (plain_batch <$> bs)) = concat (tb_rows <$> bs).
Proof. by rewrite <-list_fmap_compose. Qed.

Lemma filter_tbatches_rows p s bs out : Forall (λ b, tb_schema b = s) bs → filter_tbatches float_cmp p bs = Ok out →
  concat (tb_rows <$> out) = List.filter (satisfies float_cmp p ((λ f, (f_name f, f_type f)) <$> s)) (concat (tb_rows <$> bs)).
Proof.
  intros Hs Hf. pose proof (filter_tbatches_plain p bs) as Hp. rewrite Hf in Hp.
  apply filter_batches_rows with (fields := (λ f, (f_name f, f_type f)) <$> s) in Hp.
  - unfold PredicateProps.table_rows in Hp. by rewrite !plain_rows in Hp.
  - apply Forall_fmap. eapply Forall_impl; [exact Hs|]. by intros b <-.
Qed.

(** Whether a predicate can be evaluated depends on the schema only. *)
Lemma filter_tbatches_ok p b bs bs' out : filter_tbatches float_cmp p (b :: bs) = Ok out →
  Forall (λ b', tb_schema b' = tb_schema b) bs' → is_Ok (filter_tbatches float_cmp p bs').
Proof.
  intros Hf Hs. simpl in Hf. destruct (evaluate_batch float_cmp p (plain_batch b)) as [mask|] eqn:Em; [|done]. clear Hf.
  induction Hs as [|b' bs' Hb' _ [rest IH]]; simpl; [by eexists|].
  destruct (evaluate_batch_ok float_cmp p (plain_batch b) (plain_batch b') mask) as [m ->]; [by unfold plain_batch; rewrite Hb'|done|].
  simpl. rewrite IH. by eexists.
Qed.

Lemma surviving_filter p f : float_free p = true → pq_leaves f = f_name <$> pq_schema f → Forall (group_ok ((λ f, (f_name f, f_type f)) <$> pq_schema f)) (pq_groups f) →
  List.filter (satisfies float_cmp p ((λ f, (f_name f, f_type f)) <$> pq_schema f)) (concat (surviving_groups p f).*2) =
  List.filter (satisfies float_cmp p ((λ f, (f_name f, f_type f)) <$> pq_schema f)) (concat (pq_groups f).*2).
Proof.
  intros Hff Hl Hg. refine (filter_pruned float_cmp p {| pf_fields := (λ f, (f_name f, f_type f)) <$> pq_schema f; pf_leaves := pq_leaves f; pf_groups := pq_groups f |} Hff _).
  split; [|done]. simpl. by rewrite Hl, <-list_fmap_compose.
Qed.

Lemma decoded_schema s rows : Forall (λ b, tb_schema b = s) (decoded s rows).
Proof. apply Forall_fmap, Forall_true. done. Qed.

(** C29: Pushing a predicate without floating-point comparisons down to the file of a
    table with a flat schema loses nothing and adds nothing, when the statistics of the
    file bound its values: what is read with the predicate and then filtered has exactly the rows, in order, that
    filtering the table has, although only the row groups that may match are read. *)
Theorem pushdown_exact partial p t predicate out fs fs' : table_ok t → fs_wf fs → Forall name_ok p → float_free predicate = true → flat_schema (schema t) = true →
  table_write_to partial p t fs = (fs', Ok ()) → table_filter float_cmp predicate t = Ok out →
  ∃ bs read, file_read_with_predicate fs' p predicate = Ok bs ∧
    table_filter float_cmp predicate {| schema := schema t; batches := bs; compression := CompNone |} = Ok read ∧
    Table.table_rows read = Table.table_rows out ∧
    (concat (tb_rows <$> bs)) `sublist_of` Table.table_rows t.
Proof.
  intros Hok Hwf Hp Hff Hflat Hw Hf. unfold table_write_to, write_batches, write_batches_with_config in Hw.
  destruct (validate_schema_for_write (schema t)) as [[]|]; [|done]. destruct (fs_write p [] fs) as [fs1 [[]|]] eqn:Hw1; [|done].
  destruct (aw_bytes _ _ _) as [data|] eqn:Ha; [|done].
  destruct (write_then_read p [] data fs fs1 Hwf Hp Hw1) as (fs2 & Hw2 & Hread & _). rewrite Hw2 in Hw. injection Hw as <-.
  pose proof (Forall_impl _ _ _ (proj2 Hok) (λ b H, proj1 H)) as Hs.
  destruct (aw_roundtrip _ _ _ _ Hs Ha) as (f & Hopen & Hschema & Hrows). fold (Table.table_rows t) in Hrows.
  rewrite <-Hschema in Hflat. pose proof (pq_stats _ _ Hopen Hflat) as Hstats. pose proof (pq_leaves_flat _ _ Hopen Hflat) as Hleaves.
  unfold table_filter in Hf. destruct (filter_tbatches float_cmp predicate (batches t)) as [kept|] eqn:Hk; [|done]. injection Hf as <-.
  unfold file_read_with_predicate, table_read_with_predicate. rewrite Hread. cbn [columnar_io map_err]. rewrite Hopen.
  set (sub := concat (surviving_groups predicate f).*2).
  assert (sub `sublist_of` concat (pq_groups f).*2) as Hsub.
  { subst sub. unfold surviving_groups. clear. induction (pq_groups f) as [|g gs IH]; csimpl; [done|].
    destruct (row_group_might_match predicate g.1 _); csimpl; [by apply sublist_app|by apply sublist_inserts_l]. }
  assert (is_Ok (filter_tbatches float_cmp predicate (decoded (pq_schema f) sub))) as [got Hgot].
  { destruct (batches t) as [|b bs] eqn:Hb.
    - unfold Table.table_rows in Hrows. rewrite Hb in Hrows. csimpl in Hrows. rewrite Hrows in Hsub. apply sublist_nil_r in Hsub as ->.
      unfold decoded. rewrite pq_decode_nil. by eexists.
    - apply (filter_tbatches_ok _ b bs _ kept); [done|]. inversion Hs as [|? ? Hb' _]; subst. rewrite Hb', <-Hschema. apply decoded_schema. }
  eexists _, _. split; [done|]. unfold table_filter. cbn [batches]. rewrite Hgot. split; [done|]. unfold Table.table_rows. cbn [batches]. split.
  - rewrite (filter_tbatches_rows _ (pq_schema f) _ _ (decoded_schema _ _) Hgot), decoded_rows. rewrite (filter_tbatches_rows _ (schema t) _ _ Hs Hk).
    fold (Table.table_rows t). rewrite <-Hrows, <-Hschema. by apply surviving_filter.
  - rewrite decoded_rows. fold (Table.table_rows t). by rewrite <-Hrows.
Qed.
End Pushdown.

(** ** A nested file

    A struct [a] with a field [id] of value 1, and a column [id] of value 9: two leaf
    columns called [id], each with exact statistics. *)
Definition nested_schema : Schema :=
  [{| f_name := "a"; f_type := DOther "Struct"; f_nullable := false |}; {| f_name := "id"; f_type := DInt64; f_nullable := false |}].
Definition nested_file : PqFile := {|
  pq_schema := nested_schema; pq_leaves := ["id"; "id"];
  pq_groups := [({| rg_columns := [Some (StInt64 (Some 1) (Some 1) (Some 0)); Some (StInt64 (Some 9) (Some 9) (Some 0))]%Z |},
                 [[Some VOther; Some (VInt 9)]])] |}.

(** The statistics are looked up in the first leaf of that name, which is not the column
    that the predicate is evaluated on: the group of a matching row is pruned. *)
Theorem nested_leaf_prunes_matching (p := PCmp "id" CGt (SInt64 5)) float_cmp :
  surviving_groups p nested_file = [] ∧
  evaluate_batch float_cmp p (plain_batch {| tb_schema := nested_schema; tb_rows := concat (pq_groups nested_file).*2 |}) = Ok [Some true].
Proof. split; reflexivity. Qed.

(** ** On the demo table *)
Module ToyApi.
Import ToyTable ToyFiles.
#[local] Existing Instances toy_io toy_io_laws.

#[local] Instance toy_stats : StatsLaw.
Proof.
  intros data f. simpl. case_decide; [|done]. intros [= <-] _. constructor; [|constructor].
  intros i name t st r Hf Hc Hr. repeat (destruct i as [|i]; simpl in *; try done); simplify_eq.
  repeat (apply elem_of_cons in Hr as [->|Hr]; [simpl; split; intros ? [= <-]; lia|]). by apply elem_of_nil in Hr.
Qed.

Definition above_one : Predicate := PCmp "id" CGt (SInt64 1).

Lemma pushdown_exact_witness :
  ∃ bs read, file_read_with_predicate {[demo_path := NFile magic]} demo_path above_one = Ok bs ∧
    table_filter no_float_cmp above_one {| schema := fields; batches := bs; compression := CompNone |} = Ok read ∧
    Table.table_rows read = [[Some (VInt 2); Some (VStr [])]; [Some (VInt 3); None]].
Proof.
  destruct (pushdown_exact no_float_cmp [] demo_path (demo_table CompNone) above_one
    {| schema := fields; batches := [{| tb_schema := fields; tb_rows := [[Some (VInt 2); Some (VStr [])]] |}; {| tb_schema := fields; tb_rows := [[Some (VInt 3); None]] |}];
       compression := CompNone |} ∅ {[demo_path := NFile magic]} (demo_table_ok _) empty_wf demo_path_ok) as (bs & read & Hb & Hr & Hrows & _).
  - reflexivity.
  - reflexivity.
  - reflexivity.
  - vm_compute. reflexivity.
  - exists bs, read. split; [exact Hb|]. split; [exact Hr|]. exact Hrows.
Defined.
End ToyApi.
