(* ===== verification/FjallFiles.v ===== *)
(** * [oxistore-kv-fjall]: opening, the builder and disk usage

    What the backend adds to the operations of [Fjall.v].  Database directories, keyspaces
    with options and the journal belong to fjall: they are the class [FjallFiles] over a
    world [W].  The options of a database and of a keyspace are the lists of the calls
    made on their builders; bits per key (an [f32]) and compression types are only passed
    on and stay abstract. *)

From S2P Require Import Prelude Bytes Core StoreSpec TreeDb TreeSpec Fjall FjallSpec FjallProps Blob LocalBlob LocalProps LocalCalls StoreFiles Url S3.

Inductive PersistMode := Buffer | SyncData | SyncAll.
Inductive CompactionStrategyKind := Leveled.

Section Options.
Context {Bits CompressionType : Type}.

Inductive DatabaseSetting := DbCacheSize (n : Z) | DbManualJournalPersist (b : bool).
Inductive KeyspaceSetting := KsBloomBitsPerKey (bits : Bits) | KsCompaction (k : CompactionStrategyKind) | KsCompression (c : CompressionType).

Record FjallStoreBuilder := {
  fb_block_cache_bytes : option Z;
  fb_journal_persist_mode : option PersistMode;
  fb_bloom_filter_bits_per_key : option Bits;
  fb_compaction_strategy : option CompactionStrategyKind;
  fb_data_block_compression : option CompressionType;
}.

Definition fjall_builder_new : FjallStoreBuilder :=
  {| fb_block_cache_bytes := None; fb_journal_persist_mode := None; fb_bloom_filter_bits_per_key := None; fb_compaction_strategy := None; fb_data_block_compression := None |}.

Definition fb_set_block_cache_bytes (n : Z) (b : FjallStoreBuilder) : FjallStoreBuilder :=
  {| fb_block_cache_bytes := Some n; fb_journal_persist_mode := fb_journal_persist_mode b; fb_bloom_filter_bits_per_key := fb_bloom_filter_bits_per_key b;
     fb_compaction_strategy := fb_compaction_strategy b; fb_data_block_compression := fb_data_block_compression b |}.
Definition fb_set_journal_persist_mode (m : PersistMode) (b : FjallStoreBuilder) : FjallStoreBuilder :=
  {| fb_block_cache_bytes := fb_block_cache_bytes b; fb_journal_persist_mode := Some m; fb_bloom_filter_bits_per_key := fb_bloom_filter_bits_per_key b;
     fb_compaction_strategy := fb_compaction_strategy b; fb_data_block_compression := fb_data_block_compression b |}.
Definition fb_set_bloom_filter_bits_per_key (bits : Bits) (b : FjallStoreBuilder) : FjallStoreBuilder :=
  {| fb_block_cache_bytes := fb_block_cache_bytes b; fb_journal_persist_mode := fb_journal_persist_mode b; fb_bloom_filter_bits_per_key := Some bits;
     fb_compaction_strategy := fb_compaction_strategy b; fb_data_block_compression := fb_data_block_compression b |}.
Definition fb_set_compaction_strategy_kind (k : CompactionStrategyKind) (b : FjallStoreBuilder) : FjallStoreBuilder :=
  {| fb_block_cache_bytes := fb_block_cache_bytes b; fb_journal_persist_mode := fb_journal_persist_mode b; fb_bloom_filter_bits_per_key := fb_bloom_filter_bits_per_key b;
     fb_compaction_strategy := Some k; fb_data_block_compression := fb_data_block_compression b |}.
Definition fb_set_compression_type (c : CompressionType) (b : FjallStoreBuilder) : FjallStoreBuilder :=
  {| fb_block_cache_bytes := fb_block_cache_bytes b; fb_journal_persist_mode := fb_journal_persist_mode b; fb_bloom_filter_bits_per_key := fb_bloom_filter_bits_per_key b;
     fb_compaction_strategy := fb_compaction_strategy b; fb_data_block_compression := Some c |}.

(** The calls on the database builder. *)
Definition fjall_database_settings (b : FjallStoreBuilder) : list DatabaseSetting :=
  let builder := [] in
  let builder := match fb_block_cache_bytes b with Some n => builder ++ [DbCacheSize n] | None => builder end in
  match fb_journal_persist_mode b with
  | Some mode => builder ++ [DbManualJournalPersist (match mode with Buffer => true | _ => false end)]
  | None => builder
  end.

(** [make_options] *)
Definition fjall_keyspace_settings (b : FjallStoreBuilder) : list KeyspaceSetting :=
  let opts := [] in
  let opts := match fb_bloom_filter_bits_per_key b with Some bits => opts ++ [KsBloomBitsPerKey bits] | None => opts end in
  let opts := match fb_compaction_strategy b with Some Leveled => opts ++ [KsCompaction Leveled] | None => opts end in
  match fb_data_block_compression b with Some c => opts ++ [KsCompression c] | None => opts end.
End Options.
Arguments DatabaseSetting : clear implicits.
Arguments KeyspaceSetting : clear implicits.
Arguments FjallStoreBuilder : clear implicits.

Class FjallFiles (W : Type) `{!TreeEngine} (Bits CompressionType : Type) := {
  ff_open : path → list DatabaseSetting → W → W * engine_result TreeDb;
  (** opening or creating a keyspace with options *)
  ff_keyspace : string → list (KeyspaceSetting Bits CompressionType) → TreeDb → TreeDb * engine_result unit;
  ff_persist : PersistMode → TreeDb → TreeDb * engine_result unit;
  ff_list_keyspace_names : TreeDb → list string;
  (** [std::env::temp_dir] and [std::process::id] *)
  ff_temp_dir : W → path;
  ff_process_id : W → Z;
}.

(** Without options, a keyspace is opened as [Fjall.v] does; with any, no tree changes. *)
Class FjallFilesLaws (W : Type) `{!TreeEngine, !TreeView} {Bits CompressionType : Type} `{!FjallFiles W Bits CompressionType} : Prop := {
  ff_keyspace_default n d : ff_keyspace n [] d = td_open n d;
  ff_keyspace_law n opts d d' r : ff_keyspace n opts d = (d', r) → ∀ n', td_view n' d' = td_view n' d;
  ff_persist_law m d d' r : ff_persist m d = (d', r) → ∀ n, td_view n d' = td_view n d;
}.

Definition FJALL_KEYSPACE : string := "default".

Section Files.
Context {W : Type} {TE : TreeEngine} {Bits CompressionType : Type} {FF : FjallFiles W Bits CompressionType} {HF : HasFs W}.

(** [std::fs::create_dir_all] *)
Definition create_dir_all (p : path) (w : W) : W * io_result unit := let '(fs, r) := fs_create_dirs [] p (get_fs w) in (set_fs fs w, r).

(** The two keyspaces of a database that was opened. *)
Definition fjall_open_keyspaces (opts : list (KeyspaceSetting Bits CompressionType)) (p : path) (d : TreeDb) : result (FjallStore FJALL_KEYSPACE) FjallStoreError :=
  match ff_keyspace FJALL_KEYSPACE opts d with
  | (_, Err e) => Err (FOpen e)
  | (d, Ok _) =>
      match ff_keyspace TTL_TREE opts d with
      | (_, Err e) => Err (FOpen e)
      | (d, Ok _) => Ok {| fj_db := d; fj_path := path_string p; fj_poisoned := false |}
      end
  end.

Definition fjall_open (p : path) (w : W) : W * result (FjallStore FJALL_KEYSPACE) FjallStoreError :=
  match create_dir_all p w with
  | (w, Err e) => (w, Err (FOpen (io_message e)))
  | (w, Ok _) => let '(w, r) := ff_open p [] w in (w, let? db := map_err FOpen r in fjall_open_keyspaces [] p db)
  end.

(** A directory named after the process and the nanoseconds since 1970. *)
Definition fjall_temp_path (now : Z) (w : W) : path :=
  let nanos := match duration_since_epoch now with Ok d => d | Err _ => 0%Z end in
  ff_temp_dir w ++ [ascii "oxistore_fjall_mem_" ++ decimal (ff_process_id w) ++ ascii "_" ++ decimal nanos].

Definition fjall_open_in_memory (now : Z) (w : W) : W * result (FjallStore FJALL_KEYSPACE) FjallStoreError := fjall_open (fjall_temp_path now w) w.

Definition fjall_build (b : FjallStoreBuilder Bits CompressionType) (p : path) (w : W) : W * result (FjallStore FJALL_KEYSPACE) FjallStoreError :=
  match create_dir_all p w with
  | (w, Err e) => (w, Err (FOpen (io_message e)))
  | (w, Ok _) =>
      let '(w, r) := ff_open p (fjall_database_settings b) w in
      (w, let? db := map_err FOpen r in fjall_open_keyspaces (fjall_keyspace_settings b) p db)
  end.

Definition fjall_persist_sync {n} (s : FjallStore n) : FjallStore n * result unit FjallStoreError :=
  let '(d, r) := ff_persist SyncAll (fj_db s) in (fj_set_db d s, map_err FPersist r).

(** [KvStore::flush] *)
Definition fjall_flush {n} (s : FjallStore n) : FjallStore n * store_result unit :=
  let '(d, r) := ff_persist SyncAll (fj_db s) in (fj_set_db d s, other r).

Definition list_keyspaces {n} (s : FjallStore n) : result (list string) FjallStoreError := Ok (ff_list_keyspace_names (fj_db s)).

(** [KvStore::size_on_disk] *)
Definition fjall_size_on_disk {n} (read_order : list (bytes * Node) → list (bytes * Node)) (s : FjallStore n) (w : W) : option (store_result Z) :=
  r ← dir_size read_order (get_fs w) (components (String.list_byte_of_string (fj_path s))); Some (io_store r).

(** The trait's backup and restore are the defaults: [FjallStore::backup] is a method of
    the type, not of the trait. *)
#[global] Instance fjall_maintenance {n} : KvMaintenance (FjallStore n) W := {|
  kv_compact := default_compact;
  kv_backup := default_backup;
  kv_restore := default_restore;
  kv_flush s w := let '(s, r) := fjall_flush s in (s, w, r);
|}.
End Files.

Section Props.
Context {W : Type} {TE : TreeEngine} {TV : TreeView} {TL : TreeLaws} {Bits CompressionType : Type} {FF : FjallFiles W Bits CompressionType} {HF : HasFs W} {FL : FjallFilesLaws W}.

(** A store opened or built over a database shows what the database holds, in both
    keyspaces and whatever the options; opening without options is [from_database] on the
    keyspace [default]. *)
Lemma fjall_open_keyspaces_spec opts p d s : fjall_open_keyspaces opts p d = Ok s → fj_path s = path_string p ∧ fj_poisoned s = false ∧ ∀ n, td_view n (fj_db s) = td_view n d.
Proof.
  unfold fjall_open_keyspaces. destruct (ff_keyspace FJALL_KEYSPACE opts d) as [d1 [[]|e1]] eqn:H1; [|done].
  destruct (ff_keyspace TTL_TREE opts d1) as [d2 [[]|e2]] eqn:H2; [|done]. intros [= <-]. split; [done|]. split; [done|]. intros n. cbn [fj_db].
  by rewrite (ff_keyspace_law _ _ _ _ _ H2), (ff_keyspace_law _ _ _ _ _ H1).
Qed.

Lemma fjall_open_is_from_database p d : fjall_open_keyspaces [] p d = fjall_from_database FJALL_KEYSPACE (path_string p) d.
Proof. unfold fjall_open_keyspaces, fjall_from_database. rewrite ff_keyspace_default. destruct (td_open FJALL_KEYSPACE d) as [d1 [[]|]]; [|done]. by rewrite ff_keyspace_default. Qed.

Lemma path_string_components p : plain p → components (String.list_byte_of_string (path_string p)) = p.
Proof. intros Hp. unfold path_string, key_string. rewrite String.list_byte_of_string_of_list_byte. by apply components_join. Qed.

(** The disk usage of a store that was opened or built at a path is the number of bytes
    in the files below that path. *)
Theorem fjall_size_on_disk_exact (read_order : list (bytes * Node) → list (bytes * Node)) b p w w1 s w2 :
  (∀ l, read_order l ≡ₚ l) → plain p → fjall_build b p w = (w1, Ok s) → fs_wf (get_fs w2) →
  fjall_size_on_disk read_order s w2 = Some (Ok (if fs_is_dir (get_fs w2) p then tree_size (part (inside p) (get_fs w2)) else 0%Z)).
Proof.
  intros Hperm Hp Hb Hwf. unfold fjall_build in Hb. destruct (create_dir_all p w) as [w0 [[]|e]]; [|done].
  destruct (ff_open p (fjall_database_settings b) w0) as [w3 [db|e]]; [|done]. cbn [map_err] in Hb. injection Hb as _ Hs.
  destruct (fjall_open_keyspaces_spec _ _ _ _ Hs) as [Hpath _]. unfold fjall_size_on_disk. rewrite Hpath, path_string_components by done.
  by rewrite dir_size_exact.
Qed.

(** The documentation promises an fsync at every commit for both sync modes; the builder
    only tells them apart from [Buffer], and opens the same database for both. *)
Theorem fjall_builder_sync_modes (b : FjallStoreBuilder Bits CompressionType) p w :
  fjall_build (fb_set_journal_persist_mode SyncAll b) p w = fjall_build (fb_set_journal_persist_mode SyncData b) p w ∧
  fjall_database_settings (fb_set_journal_persist_mode SyncAll b) ≠ fjall_database_settings (fb_set_journal_persist_mode Buffer b).
Proof. split; [done|]. unfold fjall_database_settings. cbn. destruct (fb_block_cache_bytes b); cbn; congruence. Qed.
End Props.

(** ** An instance *)
Module ToyFjall.
#[local] Instance toy_files : FjallFiles Fs unit unit := {|
  ff_open _ _ w := (w, Ok ∅);
  ff_keyspace n _ d := td_open (TreeEngine := mem_trees) n d;
  ff_persist _ d := (d, Ok ());
  ff_list_keyspace_names _ := [];
  ff_temp_dir _ := [[x74]];
  ff_process_id _ := 1%Z;
|}.
#[local] Instance toy_laws : FjallFilesLaws Fs.
Proof. split; [done| |by intros m d d' r [= <- _]]. intros n opts d d' r Ho. exact (td_open_law n d d' r Ho). Qed.

Definition dir : path := [ascii "d"].
Definition tree : Fs := {[dir := NDir; dir ++ [ascii "a"] := NFile [x00; x01]; dir ++ [ascii "s"] := NDir; dir ++ [ascii "s"; ascii "b"] := NFile [x02]]}.

Lemma dir_plain : plain dir.
Proof. split; [done|]. apply Forall_singleton. repeat split; try discriminate. apply (bool_decide_eq_false_1 (SLASH ∈ _)). vm_compute. reflexivity. Qed.

Lemma fjall_size_on_disk_exact_witness : ∃ s, (fjall_build (FF := toy_files) fjall_builder_new dir tree).2 = Ok s ∧ fjall_size_on_disk id s tree = Some (Ok 3%Z).
Proof.
  destruct (fjall_build (FF := toy_files) fjall_builder_new dir tree) as [w1 r] eqn:Hb. destruct r as [s|e]; [|discriminate Hb].
  exists s. split; [reflexivity|]. rewrite (fjall_size_on_disk_exact (FF := toy_files) id fjall_builder_new dir tree w1 s tree (λ l, reflexivity l) dir_plain Hb).
  - vm_compute. reflexivity.
  - apply fs_wfb_sound. vm_compute. reflexivity.
Defined.
End ToyFjall.
