(* ===== verification/RedbFiles.v ===== *)
(** * [oxistore-kv-redb]: database files, the builder and typed tables

    Opening, checking, repairing and recovering database files, [RedbStoreBuilder] and
    [TypedRedbTable]; the JSON wrapper [TypedSledStore] of the sled crate has the same
    shape.  The files and their locks belong to redb and the file system: they are the
    class [RedbFiles], a world [F] with the calls the crate makes. *)

From Stdlib Require Import String.
From S2P Require Import Prelude Bytes Core KvHistory StoreSpec Predicate RedbEngine Redb RedbSpec RedbTxn LocalBlob StoreFiles.

Inductive DatabaseError := DatabaseAlreadyOpen | DbError (msg : string).

Definition db_message (e : DatabaseError) : string :=
  match e with DatabaseAlreadyOpen => "Database already open. Cannot acquire lock." | DbError msg => msg end.

(** [str::contains] and [str::to_lowercase] for ASCII *)
Definition str_contains (pat s : string) : bool := if index 0 pat s is Some _ then true else false.
Definition lower_ascii (c : Ascii.ascii) : Ascii.ascii :=
  let n := Ascii.nat_of_ascii c in if bool_decide (65 ≤ n ∧ n ≤ 90) then Ascii.ascii_of_nat (n + 32) else c.
Fixpoint to_lowercase (s : string) : string :=
  match s with EmptyString => EmptyString | String c s => String (lower_ascii c) (to_lowercase s) end.

Definition is_corruption_error (e : DatabaseError) : bool :=
  match e with
  | DatabaseAlreadyOpen => false
  | _ =>
      let msg := to_lowercase (db_message e) in
      str_contains "corrupt" msg || str_contains "invalid data" msg || str_contains "invalid magic" msg ||
      str_contains "checksum" msg || str_contains "truncated" msg
  end.

(** The calls on files: opening with an optional cache size, the integrity check of a
    database that was just opened (which closes it), and the file system. *)
Class RedbFiles (F : Type) `{!RedbEngine} := {
  rf_create : option Z → string → F → F * result Database DatabaseError;
  rf_create_in_memory : option Z → result Database DatabaseError;
  (** opening a database that exists *)
  rf_open : string → F → F * engine_result Database;
  rf_check_integrity : string → F → F * result bool string;
  rf_ensure_parent_dir : string → F → F * store_result unit;
  rf_exists : string → F → bool;
  rf_remove_file : string → F → F * result unit string;
  rf_len : string → F → store_result Z;
  rf_copy : string → string → F → F * store_result unit;
}.

Section Files.
Context {F : Type} `{!RedbEngine, !RedbFiles F}.

Definition corruption {A} (r : result A DatabaseError) : store_result A := map_err (λ e, Corruption (db_message e)) r.

Definition open_with_table (p n : string) (w : F) : F * store_result RedbStore :=
  match rf_ensure_parent_dir p w with
  | (w, Err e) => (w, Err e)
  | (w, Ok _) => let '(w, r) := rf_create None p w in (w, let? db := corruption r in redb_open_db (Some p) n db)
  end.

Definition redb_open (p : string) : F → F * store_result RedbStore := open_with_table p DEFAULT_TABLE_NAME.

Definition redb_open_in_memory : store_result RedbStore :=
  let? db := corruption (rf_create_in_memory None) in redb_open_db None DEFAULT_TABLE_NAME db.

Definition check_integrity_at (p : string) (w : F) : F * store_result bool :=
  match rf_create None p w with
  | (w, Err e) => (w, corruption (Err e))
  | (w, Ok _) => let '(w, r) := rf_check_integrity p w in (w, map_err Corruption r)
  end.

Definition check_integrity (s : RedbStore) (w : F) : F * store_result bool :=
  match rs_path s with
  | None => (w, Err (Unsupported "check_integrity is not supported for in-memory databases"))
  | Some p => check_integrity_at p w
  end.

Definition try_repair (p : string) (w : F) : F * store_result bool :=
  match rf_create None p w with
  | (w, Err e) => (w, corruption (Err e))
  | (w, Ok _) =>
      match rf_check_integrity p w with
      | (w, Ok clean) => (w, Ok clean)
      | (w, Err msg) => (w, if str_contains "Corrupted" msg || str_contains "corrupted" msg then Ok false else Err (Corruption msg))
      end
  end.

Definition open_with_recovery (p : string) (w : F) : F * store_result (RedbStore * bool) :=
  match rf_ensure_parent_dir p w with
  | (w, Err e) => (w, Err e)
  | (w, Ok _) =>
      match rf_create None p w with
      | (w, Ok db) => (w, let? s := redb_open_db (Some p) DEFAULT_TABLE_NAME db in Ok (s, false))
      | (w, Err e) =>
          if is_corruption_error e then
            match (if rf_exists p w then rf_remove_file p w else (w, Ok ())) with
            | (w, Err e) => (w, Err (Corruption ("cannot remove corrupted file: " +:+ e)))
            | (w, Ok _) =>
                match rf_create None p w with
                | (w, Err e) => (w, Err (Corruption ("recreate after corruption: " +:+ db_message e)))
                | (w, Ok db) => (w, let? s := redb_open_db (Some p) DEFAULT_TABLE_NAME db in Ok (s, true))
                end
            end
          else (w, corruption (Err e))
      end
  end.

Definition redb_size_on_disk (s : RedbStore) (w : F) : store_result Z := match rs_path s with Some p => rf_len p w | None => Ok 0%Z end.

Definition redb_backup (dest : string) (s : RedbStore) (w : F) : F * store_result unit :=
  match rs_path s with
  | Some src => match rf_ensure_parent_dir dest w with (w, Err e) => (w, Err e) | (w, Ok _) => rf_copy src dest w end
  | None => (w, Err (Other "cannot backup an in-memory database"))
  end.

(** The [restore] of [Redb.v] on the files. *)
Definition redb_restore_file (src : string) (s : RedbStore) (w : F) : RedbStore * F * store_result unit :=
  if rf_exists src w then
    let '(w, r) := rf_open src w in let '(s, r) := redb_restore src (Some r) s in (s, w, r)
  else let '(s, r) := redb_restore src None s in (s, w, r).

(** Both are no-ops. *)
Definition redb_compact (s : RedbStore) (w : F) : RedbStore * F * store_result unit := (s, w, Ok ()).
Definition redb_flush (s : RedbStore) (w : F) : RedbStore * F * store_result unit := (s, w, Ok ()).

#[global] Instance redb_maintenance : KvMaintenance RedbStore F := {|
  kv_compact := redb_compact;
  kv_backup p s w := Some (redb_backup (path_string p) s w);
  kv_restore p s w := Some (redb_restore_file (path_string p) s w);
  kv_flush := redb_flush;
|}.

(** ** The builder *)
Record RedbStoreBuilder := { rb_cache_size : option Z; rb_table_name : string }.
Definition redb_builder_new : RedbStoreBuilder := {| rb_cache_size := None; rb_table_name := DEFAULT_TABLE_NAME |}.
Definition rb_set_cache_size (n : Z) (b : RedbStoreBuilder) : RedbStoreBuilder := {| rb_cache_size := Some n; rb_table_name := rb_table_name b |}.
Definition rb_set_table_name (n : string) (b : RedbStoreBuilder) : RedbStoreBuilder := {| rb_cache_size := rb_cache_size b; rb_table_name := n |}.

Definition redb_build (b : RedbStoreBuilder) (p : string) (w : F) : F * store_result RedbStore :=
  match rf_ensure_parent_dir p w with
  | (w, Err e) => (w, Err e)
  | (w, Ok _) => let '(w, r) := rf_create (rb_cache_size b) p w in (w, let? db := corruption r in redb_open_db (Some p) (rb_table_name b) db)
  end.

Definition redb_build_in_memory (b : RedbStoreBuilder) : store_result RedbStore :=
  let? db := corruption (rf_create_in_memory (rb_cache_size b)) in redb_open_db None (rb_table_name b) db.

(** ** What recovery may do *)

(** [open_with_recovery] keeps every fact [P] about the files that opening keeps, such
    as the content of an existing file, unless the database could not be opened and the
    error is classed as corruption: a database that opens, one that is open elsewhere and
    one that fails for any other reason are never removed.  The flag tells whether the
    database was made anew. *)
Theorem recovery_spares_files (P : F → Prop) p w w' r :
  (∀ w w' r, rf_ensure_parent_dir p w = (w', r) → P w → P w') →
  (∀ c w w' r, rf_create c p w = (w', r) → P w → P w') →
  P w → open_with_recovery p w = (w', r) →
  (P w' ∨ ∃ w1 w2 msg, P w1 ∧ rf_create None p w1 = (w2, Err (DbError msg)) ∧ is_corruption_error (DbError msg) = true) ∧
  ∀ s recovered, r = Ok (s, recovered) → ∃ w1 db, rf_create None p w1 = (w', Ok db) ∧ redb_open_db (Some p) DEFAULT_TABLE_NAME db = Ok s ∧
    (recovered = false → P w').
Proof.
  intros Hens Hcr Hw. unfold open_with_recovery. destruct (rf_ensure_parent_dir p w) as [w1 [[]|e1]] eqn:He; specialize (Hens _ _ _ He Hw); [|intros [= <- <-]; by split; [left|]].
  destruct (rf_create None p w1) as [w2 [db|e2]] eqn:Hc; pose proof (Hcr _ _ _ _ Hc Hens) as Hw2.
  { intros [= <- <-]. split; [by left|]. intros s recovered. destruct (redb_open_db _ _ db) as [s'|] eqn:Ho; [|done]. intros [= <- <-]. by exists w1, db. }
  destruct (is_corruption_error e2) eqn:Hcor; [|intros [= <- <-]; by split; [left|]].
  destruct e2 as [|msg]; [done|]. intros Hr. split; [right; by exists w1, w2, msg|]. intros s recovered ->.
  destruct (if rf_exists p w2 then _ else _) as [w3 [[]|e3]]; [|done]. destruct (rf_create None p w3) as [w4 [db|e4]] eqn:Hc4; [|done].
  destruct (redb_open_db _ _ db) as [s'|] eqn:Ho; [|done]. injection Hr as <- <- <-. by exists w3, db.
Qed.

(** A file-backed store that is open cannot be checked through its own handle: the check
    opens the file a second time, and the lock that the store holds refuses it. *)
Theorem check_integrity_own_lock p s w : rs_path s = Some p → rf_create None p w = (w, Err DatabaseAlreadyOpen) →
  check_integrity s w = (w, Err (Corruption "Database already open. Cannot acquire lock.")).
Proof. intros Hp Hc. unfold check_integrity, check_integrity_at. by rewrite Hp, Hc. Qed.
End Files.

(** ** Restoring *)
Section Restore.
Context `{RE : !RedbEngine, RV : !RedbView, RL : !RedbLaws}.

Lemma visible_puts now pairs a : visible now (abs_puts pairs a) = foldl (λ m kv, <[kv.1:=kv.2]> m) (visible now a) pairs.
Proof. revert a. induction pairs as [|[k v] pairs IH]; intros a; [done|]. cbn [abs_puts foldl fst snd]. by rewrite IH, visible_put. Qed.

Lemma foldl_insert_union (l : list (bytes * bytes)) (m : gmap bytes bytes) : NoDup l.*1 → foldl (λ m kv, <[kv.1:=kv.2]> m) m l = list_to_map l ∪ m.
Proof.
  revert m. induction l as [|[k v] l IH]; intros m; csimpl; [by rewrite map_empty_union|]. intros [Hk Hnd]%NoDup_cons. rewrite IH by done.
  rewrite <-insert_union_l, insert_union_r; [done|]. by apply not_elem_of_list_to_map_1.
Qed.

Lemma list_to_map_btree_iter (m : gmap bytes bytes) : list_to_map (btree_iter m) = m.
Proof. apply map_eq. intros k. apply option_eq. intros v. rewrite <-elem_of_list_to_map by apply btree_iter_NoDup. apply elem_of_btree_iter. Qed.

Lemma collect_other {A} (items : list (engine_result A)) l : collect (map other items) = Ok l → collect items = Ok l.
Proof.
  revert l. induction items as [|[a|e] items IH]; intros l; cbn [map collect other map_err]; [by intros [= <-]| |done].
  destruct (collect (map other items)) as [rest|]; [|done]. intros [= <-]. by rewrite (IH rest eq_refl).
Qed.

(** A restore that succeeds puts the entries of the backup over those of the store: what
    the backup does not have stays, and what it has is visible from then on, whether or
    not it had expired in the backup, and does not expire.  One that fails changes
    nothing. *)
Theorem redb_restore_merges p backup_db (s s' : RedbStore) r : redb_restore p (Some (Ok backup_db)) s = (s', r) →
  match r with
  | Ok _ => ∀ now, kv_view now s' = db_view VBytes (rs_table s) backup_db ∪ kv_view now s
  | Err _ => ∀ now, kv_view now s' = kv_view now s
  end.
Proof.
  unfold redb_restore. destruct (db_begin_read backup_db) as [txn|] eqn:Hr; cbn [other map_err]; [|by intros [= <- <-]].
  destruct (rt_open_table VBytes (rs_table s) txn) as [tab|] eqn:Ht; cbn [other map_err]; [|by intros [= <- <-]].
  destruct (rtab_iter tab) as [items|] eqn:Hi; cbn [other map_err]; [|by intros [= <- <-]].
  destruct (collect (map other items)) as [l|] eqn:Hc; [|by intros [= <- <-]].
  rewrite (rtab_iter_law VBytes tab items l Hi (collect_other _ _ Hc)), (rt_open_table_law _ _ _ _ Ht), (db_begin_read_law _ _ _ _ Hr). unfold redb_batch_write. intros Hw.
  destruct (redb_write_spec _ _ _ _ _ (batch_write_body_spec _ _) Hw) as [_ Ha]. cbn [kv_view redb_view]. destruct r as [[]|e]; intros now; [|by rewrite Ha].
  injection Ha as Ha. rewrite <-Ha, visible_puts, foldl_insert_union by apply btree_iter_NoDup. by rewrite list_to_map_btree_iter.
Qed.
End Restore.

(** ** [TypedRedbTable] *)
Class JsonCodec (V : Type) := { to_json : V → result bytes string; from_json : bytes → result V string }.
Class JsonLaws (V : Type) `{!JsonCodec V} : Prop := json_roundtrip v data : to_json v = Ok data → from_json data = Ok v.

Section TypedTable.
Context {S : Type} `{!KvStore S} {V : Type} `{!JsonCodec V}.

Definition table_typed_put (key : bytes) (v : V) (s : S) : S * store_result unit :=
  match to_json v with
  | Err e => (s, Err (Other ("serialize: " +:+ e)))
  | Ok json => kv_put key json s
  end.

Definition table_typed_get (now : Z) (key : bytes) (s : S) : S * store_result (option V) :=
  match kv_get now key s with
  | (s, Err e) => (s, Err e)
  | (s, Ok None) => (s, Ok None)
  | (s, Ok (Some data)) => (s, match from_json data with Err e => Err (Other ("deserialize: " +:+ e)) | Ok v => Ok (Some v) end)
  end.

Definition table_typed_delete (key : bytes) : S → S * store_result unit := kv_delete key.
Definition table_raw_get (now : Z) (key : bytes) : S → S * store_result (option bytes) := kv_get now key.
Definition table_raw_put (key value : bytes) : S → S * store_result unit := kv_put key value.

(** [collect] stops at the first error. *)
Fixpoint raw_items (items : list RangeItem) : store_result (list (bytes * bytes)) :=
  match items with
  | [] => Ok []
  | Err e :: _ => Err e
  | Ok (k, v) :: items => if utf8_valid k then let? rest := raw_items items in Ok ((k, v) :: rest) else Err (Other "invalid UTF-8 key: invalid utf-8 sequence")
  end.

Definition table_iter_raw (now : Z) (s : S) : store_result (list (bytes * bytes)) := let? items := kv_iter now s in raw_items items.
End TypedTable.

(** [TypedSledStore]: keys are JSON too. *)
Section TypedSled.
Context {S : Type} `{!KvStore S} {K V : Type} `{KJ : !JsonCodec K, VJ : !JsonCodec V}.

Definition sled_encode_key (key : K) : store_result bytes := map_err (λ e, Other ("serialise key: " +:+ e)) (to_json key).
Definition sled_encode_value (v : V) : store_result bytes := map_err (λ e, Other ("serialise value: " +:+ e)) (to_json v).

Definition put_typed (key : K) (v : V) (s : S) : S * store_result unit :=
  match sled_encode_key key with
  | Err e => (s, Err e)
  | Ok key_bytes => match sled_encode_value v with Err e => (s, Err e) | Ok val_bytes => kv_put key_bytes val_bytes s end
  end.

Definition get_typed (now : Z) (key : K) (s : S) : S * store_result (option V) :=
  match sled_encode_key key with
  | Err e => (s, Err e)
  | Ok key_bytes =>
      match kv_get now key_bytes s with
      | (s, Err e) => (s, Err e)
      | (s, Ok None) => (s, Ok None)
      | (s, Ok (Some data)) => (s, match from_json data with Err e => Err (Other ("deserialise value: " +:+ e)) | Ok v => Ok (Some v) end)
      end
  end.

Definition delete_typed (key : K) (s : S) : S * store_result unit :=
  match sled_encode_key key with Err e => (s, Err e) | Ok key_bytes => kv_delete key_bytes s end.

Definition contains_typed (now : Z) (key : K) (s : S) : S * store_result bool :=
  match sled_encode_key key with Err e => (s, Err e) | Ok key_bytes => kv_contains now key_bytes s end.
End TypedSled.

Section TypedProps.
Context {S : Type} `{KS : !KvStore S, KV : !KvView S, KL : !KvLaws S} {K V : Type} `{KJ : !JsonCodec K, KJL : !JsonLaws K, VJ : !JsonCodec V, VJL : !JsonLaws V}.

Lemma json_inj (k k' : K) data : to_json k = Ok data → to_json k' = Ok data → k = k'.
Proof. intros H1%json_roundtrip H2%json_roundtrip. congruence. Qed.

(** What is put is read back by the typed tables of both backends, until it is
    overwritten: at every later call a successful get returns the value, and a get of
    another key what it returned before.  Listing a table returns its entries in order,
    and fails exactly if a key is not UTF-8. *)
Theorem typed_tables_roundtrip (now : Z) (k k' : K) (v : V) (s s1 : S) : put_typed k v s = (s1, Ok ()) → k ≠ k' →
  (∀ s2 o, get_typed now k s1 = (s2, Ok o) → o = Some v) ∧
  (∀ s2 o s3 o', get_typed (V := V) now k' s1 = (s2, Ok o) → get_typed (V := V) now k' s = (s3, Ok o') → o = o') ∧
  (∀ key s2 s3 o, table_typed_put key v s = (s2, Ok ()) → table_typed_get now key s2 = (s3, Ok o) → o = Some v) ∧
  ∀ items, kv_iter now s = Ok items →
    table_iter_raw now s = if forallb (λ kv : bytes * bytes, utf8_valid kv.1) (btree_iter (kv_view now s)) then Ok (btree_iter (kv_view now s))
                           else Err (Other "invalid UTF-8 key: invalid utf-8 sequence").
Proof.
  unfold put_typed, get_typed, sled_encode_key, sled_encode_value. intros Hput Hne.
  destruct (to_json k) as [kb|] eqn:Hk; cbn [map_err] in *; [|done]. destruct (to_json v) as [vb|] eqn:Hv; cbn [map_err] in *; [|done].
  pose proof (kv_put_law _ _ _ _ now Hput) as Hview. split; [|split; [|split]].
  - intros s2 o. destruct (kv_get now kb s1) as [s3 [[data|]|e]] eqn:Hg; try done; apply kv_get_law in Hg; rewrite Hview, lookup_insert_eq in Hg; [|done].
    injection Hg as ->. rewrite (json_roundtrip _ _ Hv). by intros [= _ <-].
  - intros s2 o s3 o'. destruct (to_json k') as [kb'|] eqn:Hk'; cbn [map_err]; [|done]. assert (kb ≠ kb') as Hkb by (intros ->; apply Hne; by apply (json_inj k k' kb')).
    destruct (kv_get now kb' s1) as [s4 r1] eqn:H1, (kv_get now kb' s) as [s5 r2] eqn:H2. destruct r1 as [o1|]; [|done]. destruct r2 as [o2|]; [|by destruct o1].
    apply kv_get_law in H1, H2. rewrite Hview, lookup_insert_ne in H1 by done. rewrite <-H2 in H1. subst o1.
    destruct o2 as [data|]; [|by intros [= _ <-] [= _ <-]]. destruct (from_json data); [|done]. by intros [= _ <-] [= _ <-].
  - intros key s2 s3 o. unfold table_typed_put, table_typed_get. rewrite Hv. intros Hp. pose proof (kv_put_law _ _ _ _ now Hp) as Hview2.
    destruct (kv_get now key s2) as [s4 [[data|]|e]] eqn:Hg; try done; apply kv_get_law in Hg; rewrite Hview2, lookup_insert_eq in Hg; [|done].
    injection Hg as ->. rewrite (json_roundtrip _ _ Hv). by intros [= _ <-].
  - intros items Hi. unfold table_iter_raw. rewrite Hi. apply kv_iter_law in Hi as ->. clear. induction (btree_iter (kv_view now s)) as [|[k v] l IH]; [done|].
    cbn [map raw_items forallb fst]. destruct (utf8_valid k); [|done]. rewrite IH. by destruct (forallb _ l).
Qed.
End TypedProps.

(** ** Instances *)
Module ToyRedbFiles.
#[local] Instance bytes_json : JsonCodec bytes := {| to_json b := Ok (x22 :: b); from_json b := match b with x22 :: b => Ok b | _ => Err "no string"%string end |}.
#[local] Instance bytes_json_laws : JsonLaws bytes.
Proof. by intros v data [= <-]. Qed.

Definition demo_put : MapStore := (put_typed ([x61] : bytes) ([x01] : bytes) (∅ : MapStore)).1.

Lemma typed_tables_roundtrip_witness : (get_typed (K := bytes) (V := bytes) 0 [x61] demo_put).2 = Ok (Some [x01]).
Proof.
  pose proof (typed_tables_roundtrip (S := MapStore) (K := bytes) (V := bytes)) as Hrt.
  destruct (Hrt 0%Z ([x61] : bytes) ([x62] : bytes) ([x01] : bytes) ∅ demo_put ltac:(reflexivity) ltac:(discriminate)) as (H & _).
  assert (∀ o, o = Some [x01] → Ok (E := StoreError) o = Ok (Some [x01])) as Heq by (by intros o ->). apply Heq, (H _ _ eq_refl).
Defined.

(** One file: absent, sound, open elsewhere or damaged. *)
Inductive OneFile := Absent | Sound | InUse | Damaged.
#[local] Existing Instance mem_engine.
#[local] Instance one_file : RedbFiles OneFile := {|
  rf_create _ _ w := match w with
    | Absent | Sound => (Sound, Ok mem_empty)
    | InUse => (InUse, Err DatabaseAlreadyOpen)
    | Damaged => (Damaged, Err (DbError "Storage error: Corrupted magic number"))
    end;
  rf_create_in_memory _ := Ok mem_empty;
  rf_open _ w := (w, Ok mem_empty);
  rf_check_integrity _ w := (w, Ok true);
  rf_ensure_parent_dir _ w := (w, Ok ());
  rf_exists _ w := match w with Absent => false | _ => true end;
  rf_remove_file _ _ := (Absent, Ok ());
  rf_len _ _ := Ok 0%Z;
  rf_copy _ _ w := (w, Ok ());
|}.

Lemma recovery_spares_files_witness : (open_with_recovery "db" InUse).1 = InUse ∧ match (open_with_recovery "db" Damaged).2 with Ok (_, recovered) => recovered | Err _ => false end = true.
Proof.
  split; [|vm_compute; reflexivity].
  destruct (recovery_spares_files (λ w, w = InUse) "db" InUse (open_with_recovery "db" InUse).1 (open_with_recovery "db" InUse).2) as [[H|(w1 & w2 & msg & -> & Hc & _)] _].
  - intros w w' r [= <- _]. exact id.
  - intros c w w' r Hc ->. by injection Hc as <- _.
  - reflexivity.
  - apply surjective_pairing.
  - exact H.
  - discriminate Hc.
Defined.

Lemma check_integrity_own_lock_witness : (check_integrity {| rs_db := mem_empty; rs_path := Some "db"; rs_poisoned := false; rs_table := "t" |} InUse).2
  = Err (Corruption "Database already open. Cannot acquire lock.").
Proof.
  exact (f_equal snd (check_integrity_own_lock "db" {| rs_db := mem_empty; rs_path := Some "db"%string; rs_poisoned := false; rs_table := "t" |} InUse eq_refl eq_refl)).
Defined.
End ToyRedbFiles.
