(* ===== verification/Facade.v ===== *)
(** * [oxistore]: the facade

    Backend selection, detection and removal of stores, the read-only store, and the
    adapter behind [open_cached].  Stores are boxed with the operations of their trait;
    opening a backend and the features of the build are the class [Backends], whose
    instance is the open functions of the backend crates. *)

From S2P Require Import Prelude Bytes Core KvHistory Encrypt Blob Hashlink Cache Lru Adapters AdapterWitness LocalBlob LocalProps StoreFiles Url S3.

Inductive StoreKind := KRedb | KSled | KFjall.

#[global] Instance StoreKind_eq_dec : EqDecision StoreKind.
Proof. solve_decision. Defined.

(** The backends of the whole library, by feature. *)
Inductive Backend := KvRedb | KvSled | KvFjall | Columnar | BlobLocal | BlobMemory | CacheBackend.
Definition backend_from (kind : StoreKind) : Backend := match kind with KRedb => KvRedb | KSled => KvSled | KFjall => KvFjall end.

(** [Box<dyn KvStore>] in a world [W] *)
Record BoxKvStore (W : Type) := Boxed { box_type : Type; box_kv : KvStore box_type; box_maintenance : KvMaintenance box_type W; box_store : box_type }.
Arguments Boxed {W} _ _ _ _.
Arguments box_type {W} b : rename.
Arguments box_kv {W} b : rename.
Arguments box_maintenance {W} b : rename.
Arguments box_store {W} b : rename.

Record StoreConfig := { cache_size_bytes : option Z; sync_writes : bool; read_only : bool }.
Definition default_store_config : StoreConfig := {| cache_size_bytes := None; sync_writes := true; read_only := false |}.

(** ** The read-only store *)
Record ReadOnlyStore (S : Type) := { ro_inner : S }.
Arguments Build_ReadOnlyStore {S} ro_inner.
Arguments ro_inner {S} r.

Definition ro_lift {S A} (p : S * store_result A) : ReadOnlyStore S * store_result A := (Build_ReadOnlyStore p.1, p.2).

Definition ro_contains {S} `{!KvStore S} (now : Z) (k : bytes) (s : ReadOnlyStore S) : ReadOnlyStore S * store_result bool := ro_lift (kv_contains now k (ro_inner s)).

(** There are no transactions. *)
#[global] Instance read_only_kv {S} `{!KvStore S} : KvStore (ReadOnlyStore S) := {|
  kv_get now k s := ro_lift (kv_get now k (ro_inner s));
  kv_put _ _ s := (s, Err ReadOnly);
  kv_delete _ s := (s, Err ReadOnly);
  kv_contains := ro_contains;
  kv_range now lo hi s := kv_range now lo hi (ro_inner s);
  kv_iter now s := kv_iter now (ro_inner s);
  kv_Txn := Empty_set;
  kv_transaction _ := Err ReadOnly;
  txn_get _ _ t := match t with end;
  txn_put _ _ t := match t with end;
  txn_delete _ t := match t with end;
  txn_commit t _ := match t with end;
  txn_rollback t _ := match t with end;
|}.

(** Flushing is forwarded, the other methods are the defaults. *)
#[global] Instance read_only_maintenance {S W} `{!KvMaintenance S W} : KvMaintenance (ReadOnlyStore S) W := {|
  kv_compact := default_compact;
  kv_backup := default_backup;
  kv_restore := default_restore;
  kv_flush s w := let '(i, w, r) := kv_flush (ro_inner s) w in (Build_ReadOnlyStore i, w, r);
|}.

(** The default methods of the trait for expiries, which the read-only store, the adapter
    and every other wrapper without its own inherit. *)
Definition default_put_with_ttl {S} (_ _ : bytes) (_ : Z) (s : S) : S * store_result unit := (s, Err (Unsupported "TTL not supported")).
Definition default_expire {S} (_ : bytes) (_ : Z) (s : S) : S * store_result unit := (s, Err (Unsupported "TTL not supported")).
Definition default_ttl {S} (_ : bytes) (_ : S) : store_result (option Z) := Err (Unsupported "TTL not supported").
Definition default_persist {S} (_ : bytes) (s : S) : S * store_result bool := (s, Err (Unsupported "TTL not supported")).
Definition default_purge_expired {S} (s : S) : S * store_result Z := (s, Ok 0%Z).

(** ** The adapter *)
Record BoxStoreAdapter (S : Type) := { ba_inner : S }.
Arguments Build_BoxStoreAdapter {S} ba_inner.
Arguments ba_inner {S} b.

Definition ba_lift {S A} (p : S * store_result A) : BoxStoreAdapter S * store_result A := (Build_BoxStoreAdapter p.1, p.2).

#[global] Instance adapter_kv {S} `{!KvStore S} : KvStore (BoxStoreAdapter S) := {|
  kv_get now k s := ba_lift (kv_get now k (ba_inner s));
  kv_put k v s := ba_lift (kv_put k v (ba_inner s));
  kv_delete k s := ba_lift (kv_delete k (ba_inner s));
  kv_contains now k s := ba_lift (kv_contains now k (ba_inner s));
  kv_range now lo hi s := kv_range now lo hi (ba_inner s);
  kv_iter now s := kv_iter now (ba_inner s);
  kv_Txn := kv_Txn (S := S);
  kv_transaction s := kv_transaction (ba_inner s);
  txn_get := txn_get (S := S);
  txn_put := txn_put (S := S);
  txn_delete := txn_delete (S := S);
  txn_commit t s := ba_lift (txn_commit (S := S) t (ba_inner s));
  txn_rollback t s := ba_lift (txn_rollback (S := S) t (ba_inner s));
|}.

#[global] Instance adapter_maintenance {S W} `{!KvMaintenance S W} : KvMaintenance (BoxStoreAdapter S) W := {|
  kv_compact := default_compact;
  kv_backup := default_backup;
  kv_restore := default_restore;
  kv_flush s w := let '(i, w, r) := kv_flush (ba_inner s) w in (Build_BoxStoreAdapter i, w, r);
|}.

(** ** Opening *)
Class Backends (W : Type) := {
  feature_redb : bool; feature_sled : bool; feature_fjall : bool;
  redb_store_open : path → W → W * store_result (BoxKvStore W);
  redb_store_open_in_memory : W → W * store_result (BoxKvStore W);
  sled_store_open : path → W → W * store_result (BoxKvStore W);
  sled_store_open_temporary : W → W * store_result (BoxKvStore W);
  (** with the text of the crate's own error *)
  fjall_store_open : path → W → W * result (BoxKvStore W) string;
  env_temp_dir : W → path;
}.

Section Open.
Context {W : Type} `{!Backends W}.

Definition open_redb (p : path) (w : W) : W * store_result (BoxKvStore W) :=
  if feature_redb then redb_store_open p w else (w, Err (Other "kv-redb feature not enabled")).
Definition open_redb_in_memory (w : W) : W * store_result (BoxKvStore W) :=
  if feature_redb then redb_store_open_in_memory w else (w, Err (Other "kv-redb feature not enabled")).
Definition open_sled (p : path) (w : W) : W * store_result (BoxKvStore W) :=
  if feature_sled then sled_store_open p w else (w, Err (Other "kv-sled feature not enabled")).
Definition open_sled_in_memory (w : W) : W * store_result (BoxKvStore W) :=
  if feature_sled then sled_store_open_temporary w else (w, Err (Other "kv-sled feature not enabled")).
Definition open_fjall (p : path) (w : W) : W * store_result (BoxKvStore W) :=
  if feature_fjall then let '(w, r) := fjall_store_open p w in (w, map_err Other r) else (w, Err (Other "kv-fjall feature not enabled")).

Definition open_with (kind : StoreKind) (p : path) : W → W * store_result (BoxKvStore W) :=
  match kind with KRedb => open_redb p | KSled => open_sled p | KFjall => open_fjall p end.

Definition open : path → W → W * store_result (BoxKvStore W) := open_with KRedb.

(** A directory named after the nanoseconds since 1970. *)
Definition fjall_mem_dir (now : Z) (w : W) : path :=
  env_temp_dir w ++ [ascii "oxistore_fjall_mem_" ++ decimal (match duration_since_epoch now with Ok d => d | Err _ => 0%Z end)].

Definition open_in_memory (now : Z) (kind : StoreKind) (w : W) : W * store_result (BoxKvStore W) :=
  match kind with KRedb => open_redb_in_memory w | KSled => open_sled_in_memory w | KFjall => open_fjall (fjall_mem_dir now w) w end.

Definition open_read_only (p : path) (w : W) : W * store_result (BoxKvStore W) :=
  let '(w, r) := open_redb p w in
  (w, let? inner := r in
      Ok {| box_type := ReadOnlyStore (box_type inner); box_kv := read_only_kv (KvStore0 := box_kv inner);
           box_maintenance := read_only_maintenance (KvMaintenance0 := box_maintenance inner); box_store := Build_ReadOnlyStore (box_store inner) |}).

Definition open_config (p : path) (config : StoreConfig) : W → W * store_result (BoxKvStore W) :=
  if read_only config then open_read_only p else open_redb p.

(** ** Backup and restore of a store that is not open *)
Definition backup_store (kind : StoreKind) (src dst : path) (w : W) : option (W * store_result unit) :=
  match open_with kind src w with
  | (w, Err e) => Some (w, Err e)
  | (w, Ok store) => kv_backup (KvMaintenance := box_maintenance store) dst (box_store store) w
  end.

(** The store that was restored into is returned as the handle is dropped. *)
Definition restore_store (kind : StoreKind) (backup dst : path) (w : W) : option (option (BoxKvStore W) * W * store_result unit) :=
  match open_with kind dst w with
  | (w, Err e) => Some (None, w, Err e)
  | (w, Ok store) =>
      sr ← kv_restore (KvMaintenance := box_maintenance store) backup (box_store store) w;
      let '(s, w, r) := sr in Some (Some (Boxed (box_type store) (box_kv store) (box_maintenance store) s), w, r)
  end.
End Open.

(** [open_blob] *)
Definition open_blob (p : path) : store_result LocalBlobStore := Ok (local_new p).

(** [CacheableKvStore::new(BoxStoreAdapter { inner }, LruCache::new(cache_cap))] *)
Definition cached {S} (inner : S) (cache_cap : nat) : CacheableKvStore (BoxStoreAdapter S) lru_bytes :=
  ck_new (Build_BoxStoreAdapter inner) (lru_new cache_cap).

(** ** Detection and removal *)
Definition REDB_MAGIC : bytes := [x72; x65; x64; x62; x1a; x0a; xa9; x0d; x0a].
Definition CONF : bytes := String.list_byte_of_string "conf".

Definition is_file (fs : Fs) (p : path) : bool := match fs_walk fs [] p with Ok (NFile _) => true | _ => false end.
Definition is_dir (fs : Fs) (p : path) : bool := match fs_walk fs [] p with Ok NDir => true | _ => false end.
Definition path_exists (fs : Fs) (p : path) : bool := match fs_walk fs [] p with Ok _ => true | Err _ => false end.

Definition store_io {A} (r : io_result A) : store_result A := map_err (λ e, Io (io_message e)) r.

(** The read fills the buffer of nine bytes as far as the file goes. *)
Definition detect_backend (fs : Fs) (p : path) : store_result StoreKind :=
  if is_file fs p then
    let? data := store_io (fs_read fs p false) in
    let buf := take 9 data in
    if bool_decide (9 ≤ length buf) && bool_decide (buf = REDB_MAGIC) then Ok KRedb
    else Err (Other ("unrecognized file format at " +:+ key_string (join_slash p)))
  else if is_dir fs p then if path_exists fs (p ++ [CONF]) then Ok KSled else Ok KFjall
  else Err (Other ("path does not exist: " +:+ key_string (join_slash p))).

(** [std::fs::remove_dir_all] of a directory *)
Definition fs_remove_dir_all (p : path) (fs : Fs) : Fs * io_result unit :=
  (filter (λ kv : path * Node, ¬ p `prefix_of` kv.1) fs, Ok ()).

Definition destroy (kind : StoreKind) (p : path) (fs : Fs) : Fs * store_result unit :=
  match kind with
  | KRedb => if path_exists fs p && is_file fs p then let '(fs, r) := fs_remove_file p false fs in (fs, store_io r) else (fs, Ok ())
  | KSled | KFjall => if path_exists fs p && is_dir fs p then let '(fs, r) := fs_remove_dir_all p fs in (fs, store_io r) else (fs, Ok ())
  end.

(** ** The contracts of the wrappers *)
Section Contracts.
Context {S : Type} `{!KvStore S, !KvView S, !KvLaws S}.

#[global] Instance read_only_view : KvView (ReadOnlyStore S) := {|
  kv_view now s := kv_view now (ro_inner s);
  txn_view _ t := match (t : Empty_set) with end;
  txn_base t _ := match (t : Empty_set) with end;
|}.

#[global] Instance read_only_laws : KvLaws (ReadOnlyStore S).
Proof.
  split; try (intros; match goal with t : kv_Txn |- _ => destruct t end); simpl; try done.
  - intros now k s s' r. destruct (kv_get now k (ro_inner s)) as [s1 r1] eqn:Hg. intros [= <- ->]. by apply kv_get_law in Hg.
  - intros now k s s' r t. destruct (kv_get now k (ro_inner s)) as [s1 r1] eqn:Hg. intros [= <- <-] Ht. by apply (kv_get_view _ _ _ _ _ t Hg).
  - by intros k v s s' e t [= <- _].
  - by intros k s s' e t [= <- _].
  - intros now lo hi s l. apply kv_range_law.
  - intros now s l. apply kv_iter_law.
Qed.

#[global] Instance adapter_view : KvView (BoxStoreAdapter S) := {|
  kv_view now s := kv_view now (ba_inner s);
  txn_view now t := txn_view (S := S) now t;
  txn_base t s := txn_base (S := S) t (ba_inner s);
|}.

#[global] Instance adapter_laws : KvLaws (BoxStoreAdapter S).
Proof.
  split; simpl; unfold ba_lift.
  - intros now k s s' r. destruct (kv_get now k (ba_inner s)) as [s1 r1] eqn:Hg. intros [= <- ->]. by apply kv_get_law in Hg.
  - intros now k s s' r t. destruct (kv_get now k (ba_inner s)) as [s1 r1] eqn:Hg. intros [= <- <-] Ht. by apply (kv_get_view _ _ _ _ _ t Hg).
  - intros k v s s' t. destruct (kv_put k v (ba_inner s)) as [s1 r1] eqn:Hg. intros [= <- ->]. by apply kv_put_law.
  - intros k v s s' e t. destruct (kv_put k v (ba_inner s)) as [s1 r1] eqn:Hg. intros [= <- ->]. by eapply kv_put_err.
  - intros k s s' t. destruct (kv_delete k (ba_inner s)) as [s1 r1] eqn:Hg. intros [= <- ->]. by apply kv_delete_law.
  - intros k s s' e t. destruct (kv_delete k (ba_inner s)) as [s1 r1] eqn:Hg. intros [= <- ->]. by eapply kv_delete_err.
  - intros now lo hi s l. apply kv_range_law.
  - intros now s l. apply kv_iter_law.
  - intros s t. apply kv_transaction_law.
  - intros now k t t' r s Hg. by apply (txn_get_law now k t t' r).
  - intros k v t t' s Hg. by apply txn_put_law.
  - intros k t t' s Hg. by apply txn_delete_law.
  - intros t s s' now. destruct (txn_commit t (ba_inner s)) as [s1 r1] eqn:Hg. intros [= <- ->]. by apply txn_commit_law.
  - intros t s s' e now. destruct (txn_commit t (ba_inner s)) as [s1 r1] eqn:Hg. intros [= <- ->]. by eapply txn_commit_err.
  - intros t s s' r now. destruct (txn_rollback t (ba_inner s)) as [s1 r1] eqn:Hg. intros [= <- <-]. by eapply txn_rollback_law.
Qed.

#[global] Instance read_only_contains `{!KvContainsLaw S} : KvContainsLaw (ReadOnlyStore S).
Proof.
  intros now k s s' r. simpl. unfold ro_contains, ro_lift. destruct (kv_contains now k (ro_inner s)) as [i r'] eqn:E. intros [= <- <-].
  exact (kv_contains_law _ _ _ _ _ E).
Qed.

#[global] Instance adapter_contains `{!KvContainsLaw S} : KvContainsLaw (BoxStoreAdapter S).
Proof.
  intros now k s s' r. simpl. unfold ba_lift. destruct (kv_contains now k (ba_inner s)) as [i r'] eqn:E. intros [= <- <-].
  exact (kv_contains_law _ _ _ _ _ E).
Qed.

Definition writes (op : KvOp) : bool :=
  match op with KvPut _ _ | KvDelete _ | KvBatchWrite _ | KvBatchDelete _ | KvCas _ _ _ => true | _ => false end.

Lemma ro_write_refused now op (s : ReadOnlyStore S) : writes op = true → kv_step now op s = (s, Err ReadOnly).
Proof. by destruct op. Qed.

(** Reads are those of the inner store, its errors included. *)
Lemma ro_get_many now ks (s : S) : kv_get_many now ks (Build_ReadOnlyStore s) = ro_lift (kv_get_many now ks s).
Proof.
  revert s. induction ks as [|k ks IH]; intros s; [done|]. cbn [kv_get_many]. unfold st_bind. cbn [kv_get read_only_kv]. unfold ro_lift at 1. cbn [ro_inner].
  destruct (kv_get now k s) as [s1 [o|e]]; [|done]. cbn [fst snd]. rewrite IH. unfold ro_lift. by destruct (kv_get_many now ks s1) as [s2 [l|e]].
Qed.

Lemma ro_read_forwarded now op (s : S) : writes op = false →
  kv_step now op (Build_ReadOnlyStore s) = (Build_ReadOnlyStore (kv_step now op s).1, (kv_step now op s).2).
Proof.
  destruct op; try done; intros _; cbn [kv_step]; try reflexivity.
  - rewrite ro_get_many. done.
Qed.
End Contracts.

(** A read-only store refuses every call that would write, default methods included,
    without touching the store; every read is answered as the wrapped store answers it;
    and over any history the answers are those of the entries it was opened with, which
    the store still shows at the end. *)
Theorem read_only_store_frozen {S} `{!KvStore S, !KvView S, !KvLaws S, !KvContainsLaw S} now (s : S) m script s' trace :
  kv_settled now s m → kv_clock_ok now script → kv_run script (Build_ReadOnlyStore s) = (s', trace) →
  (∀ t op, writes op = true → kv_step t op (Build_ReadOnlyStore s) = (Build_ReadOnlyStore s, Err ReadOnly)) ∧
  (∀ t op, writes op = false → (kv_step t op (Build_ReadOnlyStore s)).2 = (kv_step t op s).2) ∧
  kv_accepts m trace ∧ ∃ now', kv_settled now' (ro_inner s') m.
Proof.
  intros Hs Hc Hr. split; [intros t op; apply ro_write_refused|]. split; [intros t op Hw; by rewrite ro_read_forwarded|].
  assert (kv_settled now (Build_ReadOnlyStore s) m) as Hro by (intros t Ht; exact (Hs t Ht)).
  destruct (kv_run_sim (lawful_sim (S := ReadOnlyStore S)) now script (Build_ReadOnlyStore s) m s' trace Hro Hc Hr) as [Ha (now' & Hf)].
  split; [exact Ha|]. exists now'. assert (kv_final m trace = m) as Heq; [|rewrite Heq in Hf; intros t Ht; exact (Hf t Ht)].
  clear -Hr Ha. revert s s' m trace Ha Hr. induction script as [|[t op] script IH]; intros s s' m trace Ha; cbn [kv_run]; [by intros [= _ <-]|].
  destruct (writes op) eqn:Hw.
  - rewrite ro_write_refused by done. destruct (kv_run script _) as [s2 tr] eqn:Hr. intros [= <- <-]. exact (IH _ _ m tr Ha Hr).
  - rewrite ro_read_forwarded by done. destruct (kv_run script _) as [s2 tr] eqn:Hr. intros [= <- <-]. cbn [kv_final].
    assert ((map_step op m).1 = m) as Hm by (by destruct op). destruct (kv_step t op s).2 as [out|e]; [|exact (IH _ _ m tr Ha Hr)].
    destruct Ha as [_ Ha]. rewrite Hm in *. exact (IH _ _ m tr Ha Hr).
Qed.

(** A store opened with a cache and used by one thread through [get], [put] and
    [delete] is a map, whatever the backend and the capacity of the cache; at the end the
    backend holds that map. *)
Theorem open_cached_refines_map {S} `{!KvStore S, !KvView S, !KvLaws S} now script (s : S) cap m x' trace :
  kv_settled now s m → clock_ok now script → ad_run ck_step script (cached s cap) = (x', trace) →
  ad_accepts m trace ∧ ∃ now', kv_settled now' (ba_inner (ck_store x')) (ad_final m trace).
Proof.
  intros Hs Hc Hr. assert (kv_settled now (Build_BoxStoreAdapter s) m) as Hba by (intros t Ht; exact (Hs t Ht)).
  destruct (cacheable_refines_map now script (Build_BoxStoreAdapter s) (lru_new cap : lru_bytes) m x' trace Hba I (lru_empty cap) Hc Hr) as [Ha (now' & Hf)].
  split; [exact Ha|]. exists now'. intros t Ht. exact (Hf t Ht).
Qed.

(** ** Removal *)
Lemma walk_missing (fs fs' : Fs) dir rest : (∀ q, ¬ (dir ++ rest) `prefix_of` q → fs' !! q = fs !! q) → fs' !! (dir ++ rest) = None → rest ≠ [] →
  ∃ e, fs_walk fs' dir rest = Err e.
Proof.
  revert dir. induction rest as [|n rest IH]; intros dir Hsame Hnone Hne; [done|]. cbn [fs_walk].
  rewrite (cons_middle n dir rest), app_assoc in Hsame, Hnone. destruct rest as [|m rest].
  - rewrite app_nil_r in Hnone. rewrite Hnone. by eexists.
  - destruct (fs' !! (dir ++ [n])) as [[d|]|]; [by eexists| |by eexists]. by apply IH.
Qed.

(** Destroying what was detected removes exactly the path and what is below it: the
    call succeeds, the path is then not detected as any store, and everything else is as
    it was.  Destroying with a kind that needs the other sort of entry changes nothing. *)
Theorem destroy_removes_detected fs p kind : fs_wf fs → p ≠ [] → detect_backend fs p = Ok kind →
  ∃ fs', destroy kind p fs = (fs', Ok ()) ∧ (∀ q, fs' !! q = if decide (p `prefix_of` q) then None else fs !! q) ∧
    (∃ msg, detect_backend fs' p = Err (Other msg)) ∧
    ∀ kind', (kind' = KRedb ↔ kind ≠ KRedb) → destroy kind' p fs = (fs, Ok ()).
Proof.
  intros Hwf Hp Hd.
  assert (∀ fs', (∀ q, fs' !! q = if decide (p `prefix_of` q) then None else fs !! q) → ∃ msg, detect_backend fs' p = Err (Other msg)) as Hgone.
  { intros fs' Hfs'. destruct (walk_missing fs fs' [] p) as [e He]; [intros q Hq; cbn [app] in Hq; rewrite Hfs'; by rewrite decide_False|cbn [app]; rewrite Hfs'; by rewrite decide_True|done|].
    unfold detect_backend, is_file, is_dir. rewrite He. by eexists. }
  pose proof (walk_root fs p Hwf Hp) as Hroot. unfold detect_backend, is_file, is_dir, fs_read in Hd. destruct (fs_walk fs [] p) as [[d|]|e] eqn:Hw; [| |done].
  - cbn [store_io map_err] in Hd. destruct (_ && _); [|done]. injection Hd as <-. unfold destroy, path_exists, is_file, is_dir, fs_remove_file. rewrite Hw. cbn [andb store_io map_err].
    assert (∀ q, delete p fs !! q = if decide (p `prefix_of` q) then None else fs !! q) as Hdel.
    { intros q. case_decide as Hq; [|apply lookup_delete_ne; intros <-; by apply Hq]. destruct Hq as [q' ->]. destruct q' as [|n q']; [rewrite app_nil_r; apply lookup_delete_eq|].
      destruct (fs !! (p ++ n :: q')) as [node|] eqn:Hq; [|by apply lookup_delete_None; right].
      destruct (wf_prefix fs p (n :: q') node Hwf Hq ltac:(done)) as [?|?]; [done|congruence]. }
    eexists. split; [done|]. split; [exact Hdel|]. split; [by apply Hgone|]. intros kind' Hk. destruct kind'; [naive_solver|done|done].
  - assert (kind ≠ KRedb) as Hk by (destruct (path_exists fs (p ++ [CONF])); injection Hd as <-; discriminate).
    set (fs' := filter (λ kv : path * Node, ¬ p `prefix_of` kv.1) fs).
    assert (∀ q, fs' !! q = if decide (p `prefix_of` q) then None else fs !! q) as Hfs'.
    { intros q. unfold fs'. case_decide as Hq; [apply map_lookup_filter_None_2; right; by intros node _ []|].
      destruct (fs !! q) as [node|] eqn:Hl; [by apply map_lookup_filter_Some_2|apply map_lookup_filter_None_2; by left]. }
    exists fs'. split; [|split; [exact Hfs'|split; [by apply Hgone|]]].
    + destruct kind; [done|..]; unfold destroy, path_exists, is_dir; by rewrite Hw.
    + intros kind' Hk'. assert (kind' = KRedb) as -> by naive_solver. unfold destroy, path_exists, is_file. by rewrite Hw.
Qed.

(** ** Instances *)
Module ToyFacade.
Definition entries : MapStore := {[ka := [x01]]}.
Definition ro_script : list (Z * KvOp) := [(0%Z, KvPut ka [x02]); (0%Z, KvBatchDelete [ka]); (0%Z, KvCas ka None [x03]); (1%Z, KvGet ka); (1%Z, KvCount)].

Lemma ro_script_clock : kv_clock_ok 0 ro_script.
Proof. repeat split; vm_compute; discriminate. Qed.

Lemma read_only_store_frozen_witness :
  kv_accepts entries (kv_run ro_script (Build_ReadOnlyStore entries)).2 ∧
  snd <$> (kv_run ro_script (Build_ReadOnlyStore entries)).2 = [Err ReadOnly; Err ReadOnly; Err ReadOnly; Ok (KvValue (Some [x01])); Ok (KvNat 1)].
Proof.
  split; [|vm_compute; reflexivity].
  refine (proj1 (proj2 (proj2 (read_only_store_frozen 0 entries entries ro_script _ _ (map_settled 0 entries) ro_script_clock (surjective_pairing _))))).
Defined.

Lemma open_cached_refines_map_witness : ad_accepts ∅ (ad_run ck_step demo_script (cached (∅ : MapStore) 1)).2.
Proof.
  refine (proj1 (open_cached_refines_map 0 demo_script (∅ : MapStore) 1 ∅ _ _ (map_settled 0 ∅) _ (surjective_pairing _))).
  exact demo_clock.
Defined.

Definition file_name : path := [String.list_byte_of_string "db"].
Definition one_file : Fs := {[file_name := NFile (REDB_MAGIC ++ [x00])]}.

Lemma one_file_wf : fs_wf one_file.
Proof.
  split; [done|]. intros p n node Hp. unfold one_file in Hp. apply lookup_singleton_Some in Hp as [Heq _]. destruct p as [|m p]; [|by destruct p].
  injection Heq as <-. split; [|by left]. repeat split; try discriminate. apply (bool_decide_eq_false_1 (SLASH ∈ _)). vm_compute. reflexivity.
Qed.

Lemma destroy_removes_detected_witness : ∃ fs', destroy KRedb file_name one_file = (fs', Ok ()) ∧ ∃ msg, detect_backend fs' file_name = Err (Other msg).
Proof.
  destruct (destroy_removes_detected one_file file_name KRedb one_file_wf ltac:(discriminate) ltac:(vm_compute; reflexivity)) as (fs' & Hd & _ & Hgone & _).
  exists fs'. split; [exact Hd|exact Hgone].
Defined.
End ToyFacade.
