(* ===== verification/Stack.v ===== *)
(** * The parts together

    The facade linked with the open functions of the three backends, and stores stacked
    as applications stack them: a typed store over an encrypting store over whatever
    backend the facade selected.  Nothing is assumed about the stores but the laws of
    the engines below them: the contract of [Core.v] is discharged by each backend and
    passed upwards by each wrapper. *)

From S2P Require Import Prelude Bytes Core KvHistory Typed StoreSpec RedbEngine Redb RedbSpec RedbTxn RedbProps TreeDb TreeSpec Sled SledSpec SledProps.
From S2P Require Import Fjall FjallSpec FjallProps Encrypt EncryptedKv EncryptedProps LocalBlob StoreFiles SledFiles FjallFiles RedbFiles Facade.

Section Linked.
Context {W : Type} {HF : HasFs W} {RE : RedbEngine} {RF : RedbFiles W} {TS : TreeEngine} {SF : @SledFiles W TS}.
Context {TF : TreeEngine} {Bits CompressionType : Type} {FF : @FjallFiles W TF Bits CompressionType}.

Definition box_redb (s : RedbStore) : BoxKvStore W := Boxed RedbStore redb_kv redb_maintenance s.
Definition box_sled (s : @SledStore TS) : BoxKvStore W := Boxed SledStore sled_kv sled_maintenance s.
Definition box_fjall (s : @FjallStore TF FJALL_KEYSPACE) : BoxKvStore W := Boxed (FjallStore FJALL_KEYSPACE) (fjall_kv FJALL_KEYSPACE) fjall_maintenance s.

(** The facade with the given features, over the open functions of the crates. *)
Definition linked (redb sled fjall : bool) : Backends W := {|
  feature_redb := redb; feature_sled := sled; feature_fjall := fjall;
  redb_store_open p w := let '(w, r) := redb_open (path_string p) w in (w, result_map box_redb r);
  redb_store_open_in_memory w := (w, result_map box_redb redb_open_in_memory);
  sled_store_open p w := let '(w, r) := sled_open p w in (w, result_map box_sled r);
  sled_store_open_temporary w := let '(w, r) := sled_open_temporary w in (w, result_map box_sled r);
  fjall_store_open p w := let '(w, r) := fjall_open p w in (w, map_err fjall_error_display (result_map box_fjall r));
  env_temp_dir := ff_temp_dir;
|}.
End Linked.

(** ** The stack *)
Section StackModel.
Context {W : Type} `{CR : !Crypto} {Key : Type} `{KP : !KeyProvider Key} {K V E : Type} `{TC : !TypedCodec K V E}.
#[local] Existing Instance box_kv.

Definition stack (aead : AeadKind) (key : Key) (rng : Rng) (b : BoxKvStore W) : TypedKvStore (EncryptedKv (box_type b) Key (aead_of aead)) :=
  typed_new {| ek_inner := box_store b; ek_key := key; ek_rng := rng |}.

Definition run_stack (aead : AeadKind) (key : Key) (rng : Rng) (b : BoxKvStore W) (script : list (Z * TyOp K V))
    : TypedKvStore (EncryptedKv (box_type b) Key (aead_of aead)) * list (TyOp K V * result (TyOut V) (TypedKvError E)) :=
  ty_run script (stack aead key rng b).
End StackModel.

Section Contract.
Context {W : Type} {HF : HasFs W} {RE : RedbEngine} {RF : RedbFiles W} {RV : RedbView} {RL : RedbLaws}.
Context {TS : TreeEngine} {SF : @SledFiles W TS} {SV : @TreeView TS} {SL : @TreeLaws TS SV} {SR : @TreeReliable TS}.
Context {TF : TreeEngine} {Bits CompressionType : Type} {FF : @FjallFiles W TF Bits CompressionType} {FV : @TreeView TF} {FL : @TreeLaws TF FV} {FFL : @FjallFilesLaws W TF FV Bits CompressionType FF}.
Context (redb sled fjall : bool).
#[local] Instance linked_backends : Backends W := linked redb sled fjall.

(** What a database that the engine opened at a path shows at an instant. *)
Definition opened (kind : StoreKind) (p : path) (view : Z → gmap bytes bytes) : Prop :=
  match kind with
  | KRedb => ∃ w w' db, rf_create None (path_string p) w = (w', Ok db) ∧
      ∀ now, view now = visible now {| a_data := db_view VBytes DEFAULT_TABLE_NAME db; a_ttl := db_view VU64 TTL_TABLE db |}
  | KSled => ∃ w w' d, sf_open [SetPath p] w = (w', Ok d) ∧ ∀ now, view now = visible now (tree_abs (TE := TS) DEFAULT_TREE d)
  | KFjall => ∃ w w' d, ff_open p [] w = (w', Ok d) ∧ ∀ now, view now = visible now (tree_abs (TE := TF) FJALL_KEYSPACE d)
  end.

Lemma redb_open_db_abs path n db s : redb_open_db path n db = Ok s → redb_abs s = {| a_data := db_view VBytes n db; a_ttl := db_view VU64 TTL_TABLE db |}.
Proof.
  unfold redb_open_db, pre_create_tables, st_bind, w_open, w_lift. destruct (db_begin_write db) as [w|] eqn:Ew; [|done]. cbn [other map_err]. apply db_begin_write_law in Ew as [Hb Hv].
  destruct (wt_open_table VBytes n w) as [w1 [[]|]] eqn:E1; [|done]. cbn [other map_err]. destruct (wt_open_table VU64 TTL_TABLE w1) as [w2 [[]|]] eqn:E2; [|done]. cbn [other map_err].
  destruct (wt_commit w2 db) as [db' [[]|]] eqn:Ec; [|done]. intros [= <-].
  assert (wt_base w2 db) as Hb2 by (eapply wt_open_table_base; [done|]; by eapply wt_open_table_base).
  unfold redb_abs. cbn [rs_table rs_db]. rewrite !(wt_commit_law _ _ _ Ec Hb2). by rewrite !(wt_open_table_law _ _ _ _ _ E2), !(wt_open_table_law _ _ _ _ _ E1), !Hv.
Qed.

Lemma sled_open_trees_view (d : @TreeDb TS) s : sled_open_trees d = Ok s → ∀ n, td_view n (sl_db s) = td_view n d.
Proof.
  unfold sled_open_trees. destruct (td_open DEFAULT_TREE d) as [d1 [[]|]] eqn:E1; [|done]. destruct (td_open TTL_TREE d1) as [d2 [[]|]] eqn:E2; [|done].
  intros [= <-] n. cbn [sl_db]. by rewrite (td_open_law _ _ _ _ E2), (td_open_law _ _ _ _ E1).
Qed.

Lemma keyspace_not_ttl : FJALL_KEYSPACE ≠ TTL_TREE.
Proof. done. Qed.

(** Whichever backend is selected, a store that the facade opens has the contract of the
    trait, and shows what the database at the path holds, less what has expired. *)
Lemma facade_store_contract kind p w w' (b : BoxKvStore W) : Facade.open_with kind p w = (w', Ok b) →
  ∃ V : @KvView (box_type b) (box_kv b), @KvLaws (box_type b) (box_kv b) V ∧ @KvContainsLaw (box_type b) (box_kv b) V ∧ opened kind p (λ now, @kv_view (box_type b) (box_kv b) V now (box_store b)).
Proof.
  destruct kind; cbn [Facade.open_with]; unfold open_redb, open_sled, open_fjall; cbn [feature_redb feature_sled feature_fjall linked_backends linked].
  - destruct redb; [|done]. cbn [redb_store_open linked_backends linked]. unfold redb_open, open_with_table.
    destruct (rf_ensure_parent_dir (path_string p) w) as [w1 [[]|e]]; [|done]. destruct (rf_create None (path_string p) w1) as [w2 [db|e]] eqn:Hc; [|done]. cbn [corruption map_err].
    destruct (redb_open_db _ _ db) as [s|e] eqn:Ho; [|done]. intros [= <- <-]. exists redb_view. split; [exact redb_kv_laws|]. split; [exact redb_contains_law|]. exists w1, w2, db. split; [done|]. intros now.
    cbn. by rewrite (redb_open_db_abs _ _ _ _ Ho).
  - destruct sled; [|done]. cbn [sled_store_open linked_backends linked]. unfold sled_open. destruct (ensure_parent_dir p w) as [w1 [[]|e]]; [|done].
    destruct (sf_open [SetPath p] w1) as [w2 [d|e]] eqn:Hc; [|done]. cbn [other map_err]. destruct (sled_open_trees d) as [s|e] eqn:Ho; [|done]. intros [= <- <-].
    exists sled_view. split; [exact sled_kv_laws|]. split; [exact sled_contains_law|]. exists w1, w2, d. split; [done|]. intros now. cbn. unfold tree_abs, tree_ttl. by rewrite !(sled_open_trees_view _ _ Ho).
  - destruct fjall; [|done]. cbn [fjall_store_open linked_backends linked]. unfold fjall_open. destruct (create_dir_all p w) as [w1 [[]|e]]; [|done].
    destruct (ff_open p [] w1) as [w2 [d|e]] eqn:Hc; [|done]. cbn [map_err]. destruct (fjall_open_keyspaces [] p d) as [s|e] eqn:Ho; [|done]. intros [= <- <-].
    exists (fjall_view FJALL_KEYSPACE). split; [exact (fjall_kv_laws FJALL_KEYSPACE keyspace_not_ttl)|]. split; [exact (fjall_contains_law FJALL_KEYSPACE keyspace_not_ttl)|]. exists w1, w2, d. split; [done|]. intros now. cbn.
    destruct (fjall_open_keyspaces_spec _ _ _ _ Ho) as (_ & _ & Hv). unfold tree_abs, tree_ttl. by rewrite !Hv.
Qed.

(** There is no data at the path: every database that the engine opens there is empty. *)
Definition opens_empty (kind : StoreKind) (p : path) : Prop := ∀ view, opened kind p view → ∀ now, view now = ∅.


(** [FjallStore] has a [backup] of its own, but not as a method of the trait: through the
    facade, backing up and restoring a fjall store always fails, after the store has been
    opened and thereby created. *)
Theorem fjall_backup_unreachable src dst w w' (b : BoxKvStore W) : Facade.open_with KFjall src w = (w', Ok b) →
  backup_store KFjall src dst w = Some (w', Err (Other "backup not supported for this backend")) ∧
  ∃ b', restore_store KFjall dst src w = Some (Some b', w', Err (Other "restore not supported for this backend")).
Proof.
  intros Hopen. unfold backup_store, restore_store. rewrite Hopen. revert Hopen. cbn [Facade.open_with]. unfold open_fjall. cbn [feature_fjall linked_backends linked].
  destruct fjall; [|done]. cbn [fjall_store_open linked_backends linked]. destruct (fjall_open src w) as [w1 [s|e]]; [|done]. intros [= <- <-]. cbn. eauto.
Qed.
End Contract.

(** ** An instance: every database is new and in memory *)
Module ToyStack.
#[local] Existing Instances mem_engine mem_trees mem_trees_view mem_trees_laws mem_trees_reliable.

#[local] Instance toy_redb : RedbFiles Fs := {|
  rf_create _ _ w := (w, Ok mem_empty);
  rf_create_in_memory _ := Ok mem_empty;
  rf_open _ w := (w, Ok mem_empty);
  rf_check_integrity _ w := (w, Ok true);
  rf_ensure_parent_dir _ w := (w, Ok ());
  rf_exists _ _ := true;
  rf_remove_file _ w := (w, Ok ());
  rf_len _ _ := Ok 0%Z;
  rf_copy _ _ w := (w, Ok ());
|}.
#[local] Instance toy_sled : SledFiles Fs := {|
  sf_open _ w := (w, Ok ∅);
  sf_drop _ _ w := w;
  sf_export _ := [];
  sf_import _ d := Some d;
  sf_flush d := (d, Ok ());
  sf_size_on_disk _ := Ok 0%Z;
  sf_set_merge_operator _ _ d := d;
  sf_merge _ _ _ d := (d, Err "no operator"%string);
  Subscriber := unit;
  sf_watch_prefix _ _ d := (d, ());
|}.
#[local] Existing Instances ToyFjall.toy_files ToyFjall.toy_laws ToyTyped.toy_codec ToyTyped.toy_codec_laws.

#[local] Instance toy_backends : Backends Fs := linked true true true.

Definition opened_store (kind : StoreKind) : option (BoxKvStore Fs) := match (Facade.open_with kind [[x64]] (∅ : Fs)).2 with Ok b => Some b | Err _ => None end.

Lemma toy_empty kind : opens_empty (W := Fs) kind [[x64]].
Proof.
  intros view Hview now. destruct kind; destruct Hview as (w & w' & d & Ho & ->); injection Ho as _ <-; apply map_filter_empty.
Qed.

Definition demo_stack_key : StaticKey := {| sk_bytes := replicate 32 x2a |}.
Definition stack_run (kind : StoreKind) : option (list (result (TyOut nat) (TypedKvError string))) :=
  b ← opened_store kind; Some (snd <$> (run_stack AesGcmSiv256 demo_stack_key (0 : Rng) b ToyTyped.demo_ops).2).


Lemma fjall_backup_unreachable_witness : ∃ w', backup_store KFjall [[x64]] [[x65]] (∅ : Fs) = Some (w', Err (Other "backup not supported for this backend")).
Proof.
  destruct (Facade.open_with KFjall [[x64]] (∅ : Fs)) as [w' r] eqn:Ho. destruct r as [b|e]; [|discriminate Ho]. exists w'.
  exact (proj1 (fjall_backup_unreachable true true true [[x64]] [[x65]] ∅ w' b Ho)).
Defined.
End ToyStack.
